(* ===== verification/_CoqProject ===== *)
-Q . S2P
Prelude.v
GoNet.v
NodeId.v
Logger.v
Relay.v
RelayTraces.v
RelaySpec.v
RelayProps.v
UpfAddrs.v
UpfAddrsProps.v
SmfAddr.v
UpfTxns.v
UpfTable.v
Pfcp.v
Consumers.v
ConsumersProps.v
Goroutine.v
Fairness.v
Ownership.v
World.v
Udp.v
Handler.v
Forward.v
Process.v
System.v
SystemInv.v
Ledger.v
Custody.v
Liveness.v
Channels.v
Stopping.v
SystemProps.v
LivenessProps.v
HandlerProps.v
UdpProps.v
TxLife.v
Quiet.v
Answering.v
Serving.v
Authorised.v
ReportProps.v
ForwardProps.v
AnswerProps.v
AuthorisedProps.v
ServingProps.v
