(* ===== verification/Prelude.v ===== *)
(** * upfadapter: a verification library for the PFCP relay between SMF and UPF

    The adapter stands between an SMF, which speaks HTTP to it, and user planes (UPFs), which
    speak PFCP over UDP. It forwards the SMF's requests and returns the answers; and it relays
    the one message a user plane originates, the session report, to the SMF, and the SMF's
    answer back. This library models the Go program under [src/] and proves what it promises.

    ** The program and where it is modelled

    - [config/config.go]: the shared tables. Each is guarded by one lock, and each exported
      function is one critical section.
      - [Relay.v]: the reports being relayed ([reportRelays], their index by address, and how
        often each address has been released). [RelayTraces.v] follows a report through every
        sequence of operations; [RelaySpec.v] is the table's contract, without its means, and
        the refinement; [RelayProps.v] states the properties.
      - [UpfAddrs.v]: the user planes the SMF addresses, by address and by identity. What goes
        with an address that is released is the class [Peers], which [World.v] implements with
        the relay table and the transaction tables. [UpfAddrsProps.v] has the properties.
      - [SmfAddr.v], [UpfTxns.v], [UpfTable.v]: the SMF's address, the SMF's requests waiting for
        an answer, the user planes associated with.
    - [types/nodeid.go]: [NodeId.v], node identities and the cache of resolved names. What the
      program uses of Go's [net] package (addresses and their text) is [GoNet.v].
    - [pfcp/udp/]: [Pfcp.v] classifies messages ([pfcp_message_type.go]); [Consumers.v] has
      transactions and the tables they are found in ([transaction.go], [udp.go]), with
      [ConsumersProps.v]; [Udp.v] sends, receives, and runs a transaction, with [UdpProps.v] and
      [TxLife.v].
    - [pfcp/handler/handler.go], [pfcp/dispatcher.go]: [Handler.v], with [HandlerProps.v] (under
      interference), [ReportProps.v] and [AnswerProps.v] (each handler's function).
    - [pfcp/util.go], [pfcp/message/send.go], the handler of [upfadapter.go]: [Forward.v], with
      [ForwardProps.v].
    - [upfadapter.go]'s [main] and [serve], and the loop of [types/nodeid.go] that refreshes names:
      [Process.v]; the loggers of [logger/logger.go] and their level: [Logger.v].
    - [World.v] is the state all of these share, [System.v] the goroutines and the environment
      together, from the call of [main]; [SystemInv.v] proves that every step of every one of
      them is sound and [SystemProps.v] what follows for every schedule.
    - What happens in the end: [Fairness.v] has fair runs, [Ownership.v] goroutines that hold
      rights; [Ledger.v] says which rights there are here (to send into a channel, to run a
      transaction, to record the user planes while they are locked) and [Custody.v] that every
      goroutine keeps them; [Channels.v] follows a channel, [Liveness.v] and [Stopping.v]
      transactions, the lock of the user planes and the end of the process, and [LivenessProps.v]
      has the properties.
    - A request of the SMF takes the HTTP handler, the transaction's goroutine, the loop that reads
      and the dispatched response together: [Quiet.v] says what all but one of them never do,
      [Answering.v] follows a transaction from its start to the moment the channel is taken out of
      the table, [Serving.v] the handler from its start to its end, with [ServingProps.v].
    - For whom a report is relayed takes the handler of a report, the relay table and the table of
      user planes together, under two locks: [Authorised.v], with [AuthorisedProps.v].

    ** How state and concurrency are modelled

    Tables are finite maps; a Go pointer to a table, transaction or channel is a name into a
    store, so that a table detached from its consumer can still be written to. A critical section,
    and an operation of a [sync.Map], is one step; between two steps of a goroutine the others may
    do anything they can do. The one critical section that takes other locks inside it, recording
    a user plane, holds its lock from one step to another ([upfAddrMutex] in [World.v]): one step
    changes the two maps, to which nobody else has access until it ends, and one more is each
    release of relays and each of transactions; whoever wants the lock meanwhile waits. And one
    critical section can be left without unlocking: [BuildPfcpAssociationResponse] panics between
    [RLock] and [RUnlock] when a node has no stored response, and its caller recovers. So every node
    has its lock, [UpfLock] ([RWMutex] in [UpfTable.v]): how many read locks have been left on it,
    and whether a writer waits for them. All other locks are unlocked by a [defer], or nothing under
    them can panic.

    [Goroutine.v] has the type of such programs, with choices for [select] and for failing system
    calls; [eval] runs one alone, [wp R G E p Q w] is its correctness while others move by [R]
    (every step of [p] satisfies [G]), [ran R p w a w'] says that it has returned [a] among them, and
    [pool_step] runs any number of them in any order. Panics are outcomes: a nil dereference is
    [Crash], which ends the process, except in an HTTP handler, whose caller recovers ([recovered]);
    the state stays as the panic found it. A function value stored in a transaction is the name of the
    function, and what [go] starts is data until it is started; an endless loop hands over to its next
    round.

    A run is an infinite sequence of states. It is fair when a goroutine that can take a step again
    and again does so in the end (so that whoever waits for a lock, or for room in a channel, is
    served in turn, as Go does), what is spawned is started, and time passes; nothing is assumed of
    the peers, of the resolver, or of which case of a [select] is taken.

    The class [MapRange] is the order in which Go visits a map: a parameter, required only to
    visit every entry once. It is one for a whole run, where Go may choose another at each walk; what
    is proved holds whichever it is. The clock, the resolver's answers, the datagrams that arrive and the
    writes that fail are the environment's. The PFCP library is the class [PfcpLib], and what the
    adapter relies on of it is [PfcpLaws]; [DemoLib] in [Pfcp.v] satisfies them.

    ** What is shown

    - The report relay: table and index agree, numbers stay in the adapter's half of the space,
      no report has two live claims; a copy is absorbed until its claim ends, an answer is given
      once and to where the report came from, a release drops exactly the address's reports and
      refuses claims authorised before it ([RelayProps.v]).
    - While a report is being relayed, renumbered, refused or answered, a copy of it is recognised
      at every moment, against any interference that does not itself end the claim or the answer
      ([HandlerProps.v]); what each handler does on its branches ([ReportProps.v]).
    - Transactions: none is replaced when another is registered, each is removed by its own
      goroutine only, all ports of a released address are dropped; how often a message is written
      and how long its window stays open; that none waits for ever ([ConsumersProps.v],
      [UdpProps.v], [TxLife.v]).
    - Authorisation: an address is known exactly while an identity named lately is at it, and an
      overtaken resolution changes nobody's authorisation ([UpfAddrsProps.v]). In every schedule the reports being
      relayed are of addresses in that table whenever it is not locked, as long as no release count
      is dropped while a report from its address is being handled -- which the code can do, and a
      schedule shows what follows; and among others, a user plane is recorded under the time it was
      asked for, and what that releases is dropped before the recording returns ([AuthorisedProps.v]).
    - Requests of the SMF: no registration is left by a failed send, how flags are answered, what
      the HTTP handler replies, what an association response does; and what comes of a second request
      for an association between the two steps of the first one's response, which a schedule from
      [main] reaches: the lock of the node is left, and no response is ever stored there
      ([ForwardProps.v], [AnswerProps.v]).
    - The contract of the relay table: whatever operations run, in whatever order maps are walked,
      their answers are ones an abstract table of tickets allows, which knows no index, cursor or
      sweep; so a report is answered at most as often as it was taken for a new one
      ([RelaySpec.v]).
    - In the end: every transaction made is let go; the goroutine of a message or a transaction
      never waits for ever, its sends into channels included, but for one that has an association
      response to store where the lock of a node has been left; after a signal [main] returns; and a
      request of the SMF whose registration another one replaces is never answered, which a repeated
      request does to the one in flight ([LivenessProps.v]). The lock of the user planes is given
      back ([AuthorisedProps.v]).
    - Every request of the SMF for an association or a session is answered in the end: its handler
      finishes, unless the process ends, its registration is replaced, a response with its number
      is read that no handler passes on, or the lock of a node has been left, which may keep a request
      for an association and the dispatch of an association response. Two schedules show that the rest is not so: a heartbeat that
      times out, and a request whose transaction an unrelated response has ended, leave a handler
      waiting with nobody left to answer it ([ServingProps.v]).
    - The whole: the invariants of all components hold in every schedule, and the tables move by
      their operations only, from the call of [main] on, so that what is proved of sequences of
      operations is true of the running program ([SystemProps.v]). The same file has two schedules the
      code admits: one that relays an answered report twice, and one in which a late answer panics the
      read loop.

    ** Bounds

    The loops of the code have constant bounds ([putAttempts] 3, [NumOfResend] 3,
    [relaySendAttempts] 4), which are the recursion's. The search for a free number runs over the
    whole range by [for_range], whose trip count is the code's. The read loop is endless and is
    looked at for any number of rounds. Sequence numbers, flags and release counts are wrapped at
    their width where the code does arithmetic on them.

    ** What is not modelled

    What the loggers write, which nothing depends on (but for the warning about an SMF's claim), and
    zap, which is the class [ZapLib]; reading an HTTP body and decoding its JSON, which are the
    library's; the unused [udp.Message]. Of [net/http] there is what [main] relies on ([Process.v]).
    Several readers may hold the lock of the user planes for reading at once; each looks in one step,
    and its lock shows to nobody. The cache of resolved names has no lock in the code: here each access
    to it, with the resolving, is one step, and that Go may end the process over a concurrent one is
    not modelled. *)

From stdpp Require Export base gmap sets list strings fin_maps.
From Stdlib Require Export ZArith Lia.
From Stdlib Require Import Strings.Byte Strings.Ascii.

#[export] Set Default Proof Using "Type*".

Declare Scope go_scope.
Create HintDb go.
Delimit Scope go_scope with go.

(** ** Results and panics *)

(** A Go call that returns [(value, error)]: one of the two. *)
Inductive result (E A : Type) : Type :=
| Ok (a : A)
| Err (e : E).
Arguments Ok {E A} a.
Arguments Err {E A} e.

(** A Go call that may panic (nil dereference, index out of range). *)
Inductive outcome (A : Type) : Type :=
| Val (a : A)
| Panic.
Arguments Val {A} a.
Arguments Panic {A}.

#[export] Instance result_eq_dec {E A} `{EqDecision E, EqDecision A} : EqDecision (result E A).
Proof. solve_decision. Defined.

#[export] Instance outcome_eq_dec {A} `{EqDecision A} : EqDecision (outcome A).
Proof. solve_decision. Defined.

(** ** Machine integers *)

(** [uint32] and [uint64] arithmetic wraps; [uint8] is used for octets and flags. *)
Definition u8 (z : Z) : Z := (z mod 2 ^ 8)%Z.
Definition u32 (z : Z) : Z := (z mod 2 ^ 32)%Z.
Definition u64 (z : Z) : Z := (z mod 2 ^ 64)%Z.

Lemma u32_small z : (0 <= z < 2 ^ 32)%Z -> u32 z = z.
Proof. intros H. by apply Z.mod_small. Qed.

Lemma u32_range z : (0 <= u32 z < 2 ^ 32)%Z.
Proof. by apply Z.mod_pos_bound. Qed.

Lemma u64_small z : (0 <= z < 2 ^ 64)%Z -> u64 z = z.
Proof. intros H. by apply Z.mod_small. Qed.

(** ** Time *)

(** An instant in nanoseconds since the zero [time.Time] (1 January of year 1), so that the
    zero value of the type is [0]; a [time.Duration] is an [int64] of nanoseconds. *)
Abbreviation Time := Z (only parsing).
Abbreviation Duration := Z (only parsing).

Definition minDuration : Duration := (- 2 ^ 63)%Z.
Definition maxDuration : Duration := (2 ^ 63 - 1)%Z.
Definition Second : Duration := 1000000000%Z.
Definition Minute : Duration := (60 * Second)%Z.

(** [t.Sub(u)] saturates at the ends of the [int64] range. *)
Definition time_Sub (t u : Time) : Duration :=
  Z.max minDuration (Z.min maxDuration (t - u)).

(** [t.After(u)]. *)
Definition time_After (t u : Time) : bool := (u <? t)%Z.

Lemma time_Sub_le t u d :
  (minDuration <= d < maxDuration)%Z -> (time_Sub t u <= d <-> t - u <= d)%Z.
Proof. unfold time_Sub. lia. Qed.

Lemma time_Sub_lt t u d :
  (minDuration < d <= maxDuration)%Z -> (time_Sub t u < d <-> t - u < d)%Z.
Proof. unfold time_Sub. lia. Qed.

(** ** Bounded loops *)

(** [for range n { body }]: the body continues with a new state ([inl]) or returns ([inr]).
    The trip count is binary, so the loop runs over the live sequence range too. *)
Section Loop.
Context {S R : Type} (body : S -> S + R).

Fixpoint loop_nat (n : nat) (s : S) : S + R :=
  match n with
  | O => inl s
  | Datatypes.S n' => match body s with inl s' => loop_nat n' s' | inr r => inr r end
  end.

Fixpoint loop_pos (p : positive) (s : S) : S + R :=
  match p with
  | xH => body s
  | xO q => match loop_pos q s with inl s' => loop_pos q s' | inr r => inr r end
  | xI q =>
      match body s with
      | inl s' => match loop_pos q s' with inl s'' => loop_pos q s'' | inr r => inr r end
      | inr r => inr r
      end
  end.

Definition for_range (n : Z) (s : S) : S + R :=
  match n with Zpos p => loop_pos p s | _ => inl s end.

Lemma loop_nat_add n m s :
  loop_nat (n + m) s =
    match loop_nat n s with inl s' => loop_nat m s' | inr r => inr r end.
Proof.
  revert s. induction n as [|n IH]; intros s; simpl; [done|].
  destruct (body s); [apply IH | done].
Qed.

Lemma loop_pos_nat p s : loop_pos p s = loop_nat (Pos.to_nat p) s.
Proof.
  revert s. induction p as [q IH|q IH|]; intros s; cbn [loop_pos].
  - rewrite Pos2Nat.inj_xI. simpl. destruct (body s) as [s'|r]; [|done].
    rewrite Nat.add_0_r, loop_nat_add, IH.
    destruct (loop_nat (Pos.to_nat q) s'); [apply IH | done].
  - rewrite Pos2Nat.inj_xO. simpl. rewrite Nat.add_0_r, loop_nat_add, IH.
    destruct (loop_nat (Pos.to_nat q) s); [apply IH | done].
  - simpl. by destruct (body s).
Qed.

(** The binary loop is the unary one. *)
Lemma for_range_nat n s : for_range n s = loop_nat (Z.to_nat n) s.
Proof. destruct n as [|p|p]; simpl; [done | apply loop_pos_nat | done]. Qed.
End Loop.

(** ** Iteration over Go maps *)

(** [for k, v := range m] visits every entry once, in an order the language leaves open. The
    order is a parameter of every definition that iterates, constrained only to visit each
    entry exactly once. *)
Class MapRange (K : Type) `{Countable K} := {
  range : forall {V : Type}, gmap K V -> list (K * V);
  range_perm : forall {V : Type} (m : gmap K V), range m ≡ₚ map_to_list m;
}.

(** The order of stdpp's own enumeration, for evaluating the model. *)
#[export] Instance map_to_list_range K `{Countable K} : MapRange K | 100 := {|
  range V m := map_to_list m;
  range_perm V m := reflexivity _;
|}.

Section Range.
Context {K : Type} `{MapRange K}.

Lemma elem_of_range {V} (m : gmap K V) k v : (k, v) ∈ range m <-> m !! k = Some v.
Proof. rewrite range_perm. apply elem_of_map_to_list. Qed.

Lemma NoDup_range_fst {V} (m : gmap K V) : NoDup (range m).*1.
Proof. rewrite range_perm. apply NoDup_fst_map_to_list. Qed.

(** [map[K]struct{}] is a set: ranging over it visits its members. *)
Definition range_set (X : gset K) : list K := (range (gset_to_gmap () X)).*1.

Lemma elem_of_range_set (X : gset K) k : k ∈ range_set X <-> k ∈ X.
Proof.
  unfold range_set. rewrite list_elem_of_fmap. split.
  - intros [[k' []] [-> Hin]]. rewrite elem_of_range, lookup_gset_to_gmap_Some in Hin.
    by destruct Hin.
  - intros Hin. exists (k, ()). split; [done|].
    by rewrite elem_of_range, lookup_gset_to_gmap_Some.
Qed.

Lemma NoDup_range_set (X : gset K) : NoDup (range_set X).
Proof. apply NoDup_range_fst. Qed.
End Range.

Lemma gset_size_0 {A} `{Countable A} (X : gset A) : size X = 0 <-> X = ∅.
Proof. rewrite size_empty_iff. by rewrite leibniz_equiv_iff. Qed.

(** ** Folds that delete what they visit *)

Section Fold.
Context {K : Type} `{Countable K} {V : Type}.

(** Deleting the visited entries that satisfy a test, in any order. *)
Lemma fold_delete_lookup (P : K * V -> bool) l (acc : gmap K V) i :
  fold_left (fun m kv => if P kv then delete kv.1 m else m) l acc !! i =
    if existsb (fun kv => bool_decide (kv.1 = i) && P kv) l then None else acc !! i.
Proof.
  revert acc. induction l as [|[k v] l IH]; intros acc; simpl; [done|].
  rewrite IH. destruct (P (k, v)) eqn:HP.
  - destruct (bool_decide_reflect (k = i)) as [->|Hne]; simpl.
    + rewrite lookup_delete_eq. by destruct (existsb _ l).
    + by rewrite lookup_delete_ne.
  - by rewrite andb_false_r.
Qed.

Lemma fold_delete_filter (P : K * V -> bool) l (m : gmap K V) :
  l ≡ₚ map_to_list m ->
  fold_left (fun m kv => if P kv then delete kv.1 m else m) l m =
    filter (fun kv => P kv = false) m.
Proof.
  intros Hl. apply map_eq. intros i. rewrite fold_delete_lookup.
  destruct (existsb _ l) eqn:He.
  - symmetry. apply map_lookup_filter_None. right. intros v Hv HP.
    apply existsb_exists in He as [[k w] [Hin He]].
    apply list_elem_of_In in Hin. rewrite Hl, elem_of_map_to_list in Hin.
    simpl in He. apply andb_prop in He as [Hk He]. apply bool_decide_eq_true in Hk. subst k.
      congruence.
  - destruct (m !! i) as [v|] eqn:Hv.
    + symmetry. apply map_lookup_filter_Some. split; [done|].
      apply not_true_is_false. intros HP.
      apply not_true_iff_false in He. apply He, existsb_exists.
      exists (i, v). rewrite <- list_elem_of_In, Hl, elem_of_map_to_list. simpl.
      by rewrite bool_decide_eq_true_2, HP.
    + symmetry. apply map_lookup_filter_None. by left.
Qed.
End Fold.
