(* ===== verification/GoNet.v ===== *)
(** * GoNet: what the program uses of Go's [net], [strconv] and [fmt]

    IP addresses in their 4- and 16-octet forms, their textual form, parsing, the host:port
    pairs the transaction tables are keyed by, and decimal numbers. None of this is code of
    the repository: it is the standard library as the repository calls it, and the theorems
    about the address book, the relay table and the transaction tables rest on the lemmas at
    the end of the file. *)

From Stdlib Require Import DecimalString DecimalN DecimalPos.
From Stdlib Require Import Strings.Byte Strings.String.
From S2P Require Import Prelude.

#[local] Open Scope Z_scope.

(** ** Octets and slices *)

#[export] Instance byte_eq_dec : EqDecision byte := Byte.byte_eq_dec.

Definition byte_of_Z (z : Z) : byte := default "000"%byte (Byte.of_N (Z.to_N (u8 z))).
Definition Z_of_byte (b : byte) : Z := Z.of_N (Byte.to_N b).

(** A [[]byte] or a [net.IP]: [None] is the nil slice, which Go tells apart from an empty one. *)
Abbreviation slice := (option (list byte)) (only parsing).

(** The contents; [len(nil)] is 0. *)
Definition bytes (s : slice) : list byte := default [] s.

(** [string(b)]. *)
Definition string_of_slice (s : slice) : string := string_of_list_byte (bytes s).

(** [bytes.Equal]: nil and empty are equal. *)
Definition bytes_Equal (a b : slice) : bool := bool_decide (bytes a = bytes b).

(** ** [net.IP] *)

Module IP.
Definition IPv4len : nat := 4.
Definition IPv6len : nat := 16.

Definition v4InV6Prefix : list byte := replicate 10 "000"%byte ++ ["255"; "255"]%byte.

Definition IPv4zero : slice := Some (v4InV6Prefix ++ replicate 4 "000"%byte).
Definition IPv6unspecified : slice := Some (replicate 16 "000"%byte).

Definition To4 (ip : slice) : slice :=
  let b := bytes ip in
  if decide (length b = IPv4len) then ip
  else if decide (length b = IPv6len /\ take 12 b = v4InV6Prefix) then Some (drop 12 b)
  else None.

Definition To16 (ip : slice) : slice :=
  let b := bytes ip in
  if decide (length b = IPv4len) then Some (v4InV6Prefix ++ b)
  else if decide (length b = IPv6len) then ip
  else None.

Definition Equal (ip x : slice) : bool :=
  let b := bytes ip in
  let c := bytes x in
  if decide (length b = length c) then bool_decide (b = c)
  else if decide (length b = IPv4len /\ length c = IPv6len) then
    bool_decide (take 12 c = v4InV6Prefix) && bool_decide (b = drop 12 c)
  else if decide (length b = IPv6len /\ length c = IPv4len) then
    bool_decide (take 12 b = v4InV6Prefix) && bool_decide (drop 12 b = c)
  else false.

Definition IsUnspecified (ip : slice) : bool :=
  Equal ip IPv4zero || Equal ip IPv6unspecified.
End IP.

(** ** Numbers as text *)

(** [strconv.Itoa] and [%d], on the non-negative numbers the program prints. *)
Definition itoa (n : N) : string := NilEmpty.string_of_uint (N.to_uint n).

#[local] Open Scope string_scope.
#[local] Open Scope list_scope.
#[local] Open Scope Z_scope.

Definition hexDigit (n : Z) : string :=
  match n with
  | 0 => "0" | 1 => "1" | 2 => "2" | 3 => "3" | 4 => "4" | 5 => "5" | 6 => "6" | 7 => "7"
  | 8 => "8" | 9 => "9" | 10 => "a" | 11 => "b" | 12 => "c" | 13 => "d" | 14 => "e"
  | _ => "f"
  end.

(** [netip.appendHex]: a 16-bit group without leading zeros. *)
Definition appendHex (x : Z) : string :=
  ((if (4096 <=? x)%Z then hexDigit (x / 4096) else "") +:+
   (if (256 <=? x)%Z then hexDigit (x / 256 mod 16) else "") +:+
   (if (16 <=? x)%Z then hexDigit (x / 16 mod 16) else "") +:+
   hexDigit (x mod 16))%string.

Definition hexByte (b : byte) : string :=
  (hexDigit (Z_of_byte b / 16) +:+ hexDigit (Z_of_byte b mod 16))%string.

Fixpoint hexString (l : list byte) : string :=
  match l with [] => "" | b :: l' => hexByte b +:+ hexString l' end%string.

(** ** [IP.String] *)

Module IPString.
Fixpoint dotted (l : list byte) : string :=
  match l with
  | [] => ""
  | [b] => itoa (Byte.to_N b)
  | b :: l' => (itoa (Byte.to_N b) +:+ "." +:+ dotted l')%string
  end.

(** The eight 16-bit groups. *)
Fixpoint groups (l : list byte) : list Z :=
  match l with
  | hi :: lo :: l' => (256 * Z_of_byte hi + Z_of_byte lo) :: groups l'
  | _ => []
  end.

Fixpoint zeros (l : list Z) : nat :=
  match l with 0 :: l' => S (zeros l') | _ => O end.

(** The run of zero groups to elide: the first of the longest, of at least two. *)
Fixpoint best (i : nat) (l : list Z) (acc : nat * nat) : nat * nat :=
  match l with
  | [] => acc
  | _ :: l' =>
      let n := zeros l in
      best (S i) l'
        (if bool_decide (2 <= n /\ acc.2 - acc.1 < n)%nat then (i, i + n)%nat else acc)
  end.

Definition group_at (l : list Z) (i : nat) : Z := default 0 (l !! i).

Fixpoint text6 (fuel i : nat) (l : list Z) (run : nat * nat) : string :=
  match fuel with
  | O => ""
  | S fuel' =>
      if decide (8 <= i)%nat then ""
      else if decide (i = run.1) then
        if decide (8 <= run.2)%nat then "::"
        else ("::" +:+ appendHex (group_at l run.2) +:+ text6 fuel' (S run.2) l run)%string
      else
        ((if decide (i = O) then "" else ":") +:+
         appendHex (group_at l i) +:+ text6 fuel' (S i) l run)%string
  end.

Definition ip6 (b : list byte) : string :=
  let l := groups b in text6 8 0 l (best 0 l (255, 255)%nat).

Definition render (ip : slice) : string :=
  let b := bytes ip in
  if decide (length b = O) then "<nil>"
  else if decide (length b <> IP.IPv4len /\ length b <> IP.IPv6len) then
    ("?" +:+ hexString b)%string
  else match IP.To4 ip with
       | Some p4 => dotted p4
       | None => ip6 b
       end.
End IPString.

Definition IP_String (ip : slice) : string := IPString.render ip.

(** ** [net.ParseIP] *)

Module ParseIP.
Definition is_digit (c : byte) : bool :=
  let n := Z_of_byte c in (48 <=? n) && (n <=? 57).

Definition digit (c : byte) : Z := Z_of_byte c - 48.

Definition hex (c : byte) : option Z :=
  let n := Z_of_byte c in
  if (48 <=? n) && (n <=? 57) then Some (n - 48)
  else if (97 <=? n) && (n <=? 102) then Some (n - 87)
  else if (65 <=? n) && (n <=? 70) then Some (n - 55)
  else None.

(** [netip.parseIPv4Fields]: [prev] is the octet before this one, [digLen] the digits of the
    current field so far and [val] their value. *)
Fixpoint v4Fields (prev : option byte) (digLen : nat) (val : Z) (fields : list byte)
    (s : list byte) : option (list byte) :=
  match s with
  | [] => if decide (length fields = 3%nat) then Some (fields ++ [byte_of_Z val]) else None
  | c :: s' =>
      if is_digit c then
        if bool_decide (digLen = 1%nat) && (val =? 0) then None
        else
          let val' := val * 10 + digit c in
          if 255 <? val' then None else v4Fields (Some c) (S digLen) val' fields s'
      else if bool_decide (c = ".")%byte then
        match prev, s' with
        | None, _ | _, [] => None
        | Some p, _ =>
            if bool_decide (p = ".")%byte then None
            else if decide (length fields = 3%nat) then None
            else v4Fields (Some c) 0 0 (fields ++ [byte_of_Z val]) s'
        end
      else None
  end.

Definition parseIPv4 (s : list byte) : option (list byte) := v4Fields None 0 0 [] s.

(** The hexadecimal digits at the front of [s]: their number, their value and the rest; a
    fifth digit is an error. *)
Fixpoint hexGroup (off : nat) (acc : Z) (s : list byte) : option (nat * Z * list byte) :=
  match s with
  | c :: s' =>
      match hex c with
      | Some d => if decide (3 < off)%nat then None else hexGroup (S off) (acc * 16 + d) s'
      | None => Some (off, acc, s)
      end
  | [] => Some (off, acc, [])
  end.

(** The loop of [netip.parseIPv6]: [out] is what has been parsed, [ell] the position of an
    ellipsis in it. Eight groups fill the address, so eight rounds are enough. *)
Fixpoint v6Groups (fuel : nat) (out : list byte) (ell : option nat) (s : list byte)
    : option (list byte * option nat * list byte) :=
  match fuel with
  | O => Some (out, ell, s)
  | S fuel' =>
      if decide (16 <= length out)%nat then Some (out, ell, s) else
      match hexGroup 0 0 s with
      | None => None
      | Some (off, acc, rest) =>
          if decide (off = O) then None else
          match rest with
          | [] => Some (out ++ [byte_of_Z (acc / 256); byte_of_Z acc], ell, [])
          | c :: rest' =>
              if bool_decide (c = ".")%byte then
                if bool_decide (ell = None /\ length out <> 12%nat) then None
                else if decide (16 < length out + 4)%nat then None
                else match parseIPv4 s with
                     | Some v4 => Some (out ++ v4, ell, [])
                     | None => None
                     end
              else if negb (bool_decide (c = ":")%byte) then None
              else
                let out' := out ++ [byte_of_Z (acc / 256); byte_of_Z acc] in
                match rest' with
                | [] => None
                | d :: rest'' =>
                    if bool_decide (d = ":")%byte then
                      match ell with
                      | Some _ => None
                      | None =>
                          match rest'' with
                          | [] => Some (out', Some (length out'), [])
                          | _ => v6Groups fuel' out' (Some (length out')) rest''
                          end
                      end
                    else v6Groups fuel' out' ell rest'
                end
          end
      end
  end.

Definition parseIPv6 (s : list byte) : option (list byte) :=
  let start :=
    match s with
    | c :: d :: s' =>
        if bool_decide (c = ":" /\ d = ":")%byte then (Some O, s') else (None, s)
    | _ => (None, s)
    end in
  match start with
  | (Some _, []) => Some (replicate 16 "000"%byte)
  | (ell, s') =>
      match v6Groups 8 [] ell s' with
      | Some (out, ell', []) =>
          if decide (length out < 16)%nat then
            match ell' with
            | None => None
            | Some e =>
                Some (take e out ++ replicate (16 - length out) "000"%byte ++ drop e out)
            end
          else match ell' with None => Some out | Some _ => None end
      | _ => None
      end
  end.

(** [netip.ParseAddr] chooses by the first of the three characters. An address with a zone
    parses there, but [net.ParseIP] refuses it. *)
Fixpoint first_sep (s : list byte) : option byte :=
  match s with
  | [] => None
  | c :: s' =>
      if bool_decide (c = "." \/ c = ":" \/ c = "%")%byte then Some c else first_sep s'
  end.

Definition ParseIP (str : string) : slice :=
  let s := list_byte_of_string str in
  match first_sep s with
  | None => None
  | Some c =>
      if bool_decide (c = ".")%byte then option_map (app IP.v4InV6Prefix) (parseIPv4 s)
      else if bool_decide (c = ":")%byte then
        if bool_decide ("%"%byte ∈ s) then None else parseIPv6 s
      else None
  end.
End ParseIP.

(** ** Host and port *)

(** [bytealg.IndexByteString] and [LastIndexByteString]. *)
Fixpoint IndexByte (c : byte) (s : list byte) : option nat :=
  match s with
  | [] => None
  | d :: s' => if decide (c = d) then Some O else S <$> IndexByte c s'
  end.

Fixpoint LastIndexByte (c : byte) (s : list byte) : option nat :=
  match s with
  | [] => None
  | d :: s' =>
      match LastIndexByte c s' with
      | Some i => Some (S i)
      | None => if decide (c = d) then Some O else None
      end
  end.

(** [net.SplitHostPort]; the error is one of four texts the program never looks at. *)
Definition SplitHostPort (hostport : string) : option (string * string) :=
  let s := list_byte_of_string hostport in
  match LastIndexByte ":" s with
  | None => None
  | Some i =>
      let finish (host : list byte) (j k : nat) :=
        match IndexByte "[" (drop j s), IndexByte "]" (drop k s) with
        | None, None => Some (string_of_list_byte host, string_of_list_byte (drop (S i) s))
        | _, _ => None
        end in
      match s with
      | "["%byte :: _ =>
          match IndexByte "]" s with
          | None => None
          | Some e => if decide (S e = i) then finish (take (e - 1) (drop 1 s)) 1%nat (S e)
                      else None
          end
      | _ =>
          let host := take i s in
          match IndexByte ":" host with
          | Some _ => None
          | None => finish host O O
          end
      end
  end.

(** [net.JoinHostPort]. *)
Definition JoinHostPort (host port : string) : string :=
  match IndexByte ":" (list_byte_of_string host) with
  | Some _ => "[" +:+ (host +:+ ("]:" +:+ port))
  | None => host +:+ (":" +:+ port)
  end.

(** [net.UDPAddr]. The zone names a link and is empty outside link-local IPv6. *)
Module UDPAddr.
Record t := mk { IP : slice; Port : N; Zone : string }.

#[global] Instance eq_dec : EqDecision t.
Proof. solve_decision. Defined.

Definition ipEmptyString (ip : slice) : string :=
  if decide (length (bytes ip) = O) then "" else IP_String ip.

Definition render (a : t) : string :=
  let ip := ipEmptyString (IP a) in
  if decide (Zone a <> "") then JoinHostPort (ip +:+ "%" +:+ Zone a) (itoa (Port a))
  else JoinHostPort ip (itoa (Port a)).
End UDPAddr.

Abbreviation UDPAddr := UDPAddr.t.
Definition UDPAddr_String (a : UDPAddr) : string := UDPAddr.render a.

(** ** Facts about the text of addresses *)

Lemma list_byte_of_string_app a b :
  list_byte_of_string (a +:+ b) = list_byte_of_string a ++ list_byte_of_string b.
Proof.
  induction a as [|c a IH]; [done|].
  change (Ascii.byte_of_ascii c :: list_byte_of_string (a +:+ b) =
          Ascii.byte_of_ascii c :: (list_byte_of_string a ++ list_byte_of_string b)).
  by rewrite IH.
Qed.

Lemma list_byte_of_string_inj a b : list_byte_of_string a = list_byte_of_string b -> a = b.
Proof.
  intros Heq. rewrite <- (string_of_list_byte_of_string a), <- (string_of_list_byte_of_string b).
  by rewrite Heq.
Qed.

Lemma string_of_slice_inj a b : string_of_slice a = string_of_slice b -> bytes a = bytes b.
Proof.
  unfold string_of_slice. intros Heq.
  rewrite <- (list_byte_of_string_of_list_byte (bytes a)).
  rewrite <- (list_byte_of_string_of_list_byte (bytes b)). by rewrite Heq.
Qed.

(** The octets an address is written with, brackets excluded. *)
Definition addr_char (c : byte) : bool :=
  ParseIP.is_digit c || bool_decide (c = "." \/ c = ":")%byte ||
  ((97 <=? Z_of_byte c) && (Z_of_byte c <=? 102)).

Definition plain (s : string) : Prop := Forall (fun c => addr_char c = true) (list_byte_of_string s).

Lemma plain_app a b : plain (a +:+ b) <-> plain a /\ plain b.
Proof. unfold plain. by rewrite list_byte_of_string_app, Forall_app. Qed.

Definition digits (s : string) : Prop :=
  Forall (fun c => ParseIP.is_digit c = true) (list_byte_of_string s).

Lemma digits_plain s : digits s -> plain s.
Proof. intros Hd. eapply Forall_impl; [exact Hd|]. unfold addr_char. by intros c ->. Qed.

Lemma itoa_digits n : digits (itoa n).
Proof.
  unfold itoa, digits. induction (N.to_uint n); repeat constructor; done.
Qed.

Lemma itoa_inj m n : itoa m = itoa n -> m = n.
Proof.
  unfold itoa. intros Heq.
  assert (Hs : Some (N.to_uint m) = Some (N.to_uint n)).
  { by rewrite <- !NilEmpty.usu, Heq. }
  injection Hs as Hu. by apply DecimalN.Unsigned.to_uint_inj.
Qed.

Lemma itoa_nonempty n : itoa n <> "".
Proof.
  unfold itoa. intros Heq.
  assert (Hs : Some (N.to_uint n) = Some Decimal.Nil).
  { by rewrite <- NilEmpty.usu, Heq. }
  injection Hs as Hu. destruct n as [|p]; [done|].
  by apply (DecimalPos.Unsigned.to_uint_nonnil p).
Qed.

Lemma hexDigit_plain n : plain (hexDigit n).
Proof.
  unfold hexDigit, plain. repeat case_match; repeat constructor.
Qed.

Lemma appendHex_plain x : plain (appendHex x).
Proof.
  unfold appendHex. rewrite !plain_app. repeat split; repeat case_match;
    try apply hexDigit_plain; constructor.
Qed.

#[export] Hint Resolve hexDigit_plain appendHex_plain itoa_digits itoa_nonempty : go.

Lemma dotted_plain l : plain (IPString.dotted l).
Proof.
  induction l as [|b [|c l] IH]; [constructor| |].
  - apply digits_plain, itoa_digits.
  - change (plain (itoa (Byte.to_N b) +:+ ("." +:+ IPString.dotted (c :: l)))).
    rewrite !plain_app. split; [apply digits_plain, itoa_digits|]. split; [|done].
    by repeat constructor.
Qed.

Lemma text6_plain fuel i l run : plain (IPString.text6 fuel i l run).
Proof.
  revert i. induction fuel as [|fuel IH]; intros i; cbn [IPString.text6]; [constructor|].
  repeat case_decide; rewrite ?plain_app; repeat split; auto with go;
    repeat constructor.
Qed.

(** An address of either length is written without brackets, percent signs or letters beyond
    the hexadecimal digits. *)
Lemma IP_String_plain ip :
  length (bytes ip) = IP.IPv4len \/ length (bytes ip) = IP.IPv6len -> plain (IP_String ip).
Proof.
  intros Hlen. unfold IP_String, IPString.render.
  rewrite decide_False by (unfold IP.IPv4len, IP.IPv6len in *; lia).
  rewrite decide_False by tauto.
  destruct (IP.To4 ip); [apply dotted_plain | apply text6_plain].
Qed.

Lemma To4_length ip p4 : IP.To4 ip = Some p4 -> length p4 = IP.IPv4len.
Proof.
  unfold IP.To4. repeat case_decide; intros Heq; simplify_eq.
  - simpl in *. done.
  - match goal with H : _ /\ _ |- _ => destruct H as [Hl _] end.
    rewrite length_drop, Hl. done.
Qed.

Lemma append_nonempty_l a b : a <> "" -> a +:+ b <> "".
Proof. by destruct a. Qed.

Lemma append_nonempty_r a b : b <> "" -> a +:+ b <> "".
Proof. by destruct a. Qed.

Lemma appendHex_nonempty x : appendHex x <> "".
Proof.
  unfold appendHex. do 3 apply append_nonempty_r. unfold hexDigit. by repeat case_match.
Qed.

Lemma text6_nonempty fuel l run : IPString.text6 (S fuel) 0 l run <> "".
Proof.
  cbn [IPString.text6]. rewrite (decide_False (P := (8 <= 0)%nat)) by lia.
  destruct (decide (0%nat = run.1)).
  - by destruct (decide (8 <= run.2)%nat).
  - apply append_nonempty_r, append_nonempty_l, appendHex_nonempty.
Qed.

(** Every address has a text, so an empty key never stands for one. *)
Lemma IP_String_nonempty ip : IP_String ip <> "".
Proof.
  unfold IP_String, IPString.render. repeat case_decide; [done | done |].
  destruct (IP.To4 ip) as [p4|] eqn:H4.
  - apply To4_length in H4. destruct p4 as [|b [|c p4]]; [done..|].
    cbn [IPString.dotted]. apply append_nonempty_l. apply itoa_nonempty.
  - apply text6_nonempty.
Qed.

(** *** Host and port *)

Lemma IndexByte_None c s : c ∉ s -> IndexByte c s = None.
Proof.
  induction s as [|d s IH]; intros Hc; simpl; [done|].
  rewrite decide_False by set_solver. by rewrite IH by set_solver.
Qed.

Lemma IndexByte_app c s t : c ∉ s -> IndexByte c (s ++ c :: t) = Some (length s).
Proof.
  induction s as [|d s IH]; intros Hc; simpl.
  - by rewrite decide_True.
  - rewrite decide_False by set_solver. by rewrite IH by set_solver.
Qed.

Lemma IndexByte_is_Some c s : c ∈ s -> is_Some (IndexByte c s).
Proof.
  induction s as [|d s IH]; intros Hin; simpl; [by apply elem_of_nil in Hin|].
  apply elem_of_cons in Hin as [->|Hin]; [by rewrite decide_True|].
  case_decide; [done|]. by apply fmap_is_Some, IH.
Qed.

Lemma LastIndexByte_None c s : c ∉ s -> LastIndexByte c s = None.
Proof.
  induction s as [|d s IH]; intros Hc; simpl; [done|].
  rewrite IH by set_solver. by rewrite decide_False by set_solver.
Qed.

Lemma LastIndexByte_app c s t : c ∉ t -> LastIndexByte c (s ++ c :: t) = Some (length s).
Proof.
  intros Ht. induction s as [|d s IH]; simpl.
  - rewrite LastIndexByte_None by done. by rewrite decide_True.
  - by rewrite IH.
Qed.

(** A text without colons and brackets, such as a port. *)
Definition portlike (s : string) : Prop :=
  (":"%byte ∉ list_byte_of_string s) /\ ("["%byte ∉ list_byte_of_string s) /\
  ("]"%byte ∉ list_byte_of_string s).

Definition bracketless (s : string) : Prop :=
  ("["%byte ∉ list_byte_of_string s) /\ ("]"%byte ∉ list_byte_of_string s).

Lemma itoa_portlike n : portlike (itoa n).
Proof.
  pose proof (itoa_digits n) as Hd. unfold digits in Hd. rewrite Forall_forall in Hd.
  repeat split; intros Hin; apply Hd in Hin; discriminate Hin.
Qed.

Lemma plain_bracketless s : plain s -> bracketless s.
Proof.
  unfold plain. rewrite Forall_forall. intros Hp.
  split; intros Hin; apply Hp in Hin; discriminate Hin.
Qed.

#[export] Hint Resolve itoa_portlike plain_bracketless IP_String_plain IP_String_nonempty : go.

Ltac not_in :=
  rewrite ?not_elem_of_app, ?not_elem_of_cons; repeat split; try done; apply not_elem_of_nil.

Lemma drop_app_cons {A} (h : list A) c p : drop (S (length h)) (h ++ c :: p) = p.
Proof. induction h as [|d h IH]; [done | exact IH]. Qed.

Lemma SplitHostPort_plain h p :
  ":"%byte ∉ h -> "["%byte ∉ h -> "]"%byte ∉ h ->
  ":"%byte ∉ p -> "["%byte ∉ p -> "]"%byte ∉ p ->
  SplitHostPort (string_of_list_byte (h ++ ":"%byte :: p)) =
    Some (string_of_list_byte h, string_of_list_byte p).
Proof.
  intros ??????. unfold SplitHostPort. rewrite list_byte_of_string_of_list_byte.
  rewrite LastIndexByte_app by done.
  rewrite take_app_length. rewrite !drop_0.
  rewrite (IndexByte_None ":") by done.
  rewrite !IndexByte_None by not_in.
  rewrite drop_app_cons.
  destruct h as [|c h]; [done|]. simpl. destruct c; try done. set_solver.
Qed.

Lemma SplitHostPort_bracketed h p :
  "["%byte ∉ h -> "]"%byte ∉ h ->
  ":"%byte ∉ p -> "["%byte ∉ p -> "]"%byte ∉ p ->
  SplitHostPort (string_of_list_byte ("["%byte :: h ++ "]"%byte :: ":"%byte :: p)) =
    Some (string_of_list_byte h, string_of_list_byte p).
Proof.
  intros ?????. unfold SplitHostPort. rewrite list_byte_of_string_of_list_byte.
  assert (HL : LastIndexByte ":" ("["%byte :: h ++ "]"%byte :: ":"%byte :: p) =
               Some (S (S (length h)))).
  { pose proof (LastIndexByte_app ":" ("["%byte :: h ++ ["]"%byte]) p) as HL.
    simpl in HL. rewrite <- app_assoc, length_app in HL. simpl in *.
    rewrite HL by done. f_equal. lia. }
  assert (HI : IndexByte "]" ("["%byte :: h ++ "]"%byte :: ":"%byte :: p) = Some (S (length h))).
  { pose proof (IndexByte_app "]" ("["%byte :: h) (":"%byte :: p)) as HI. apply HI. not_in. }
  rewrite HL, HI, decide_True by done.
  assert (HD : drop (S (S (length h))) ("["%byte :: h ++ "]"%byte :: ":"%byte :: p) = ":"%byte :: p).
  { apply (drop_app_cons ("["%byte :: h)). }
  rewrite HD. simpl. rewrite drop_0, Nat.sub_0_r, take_app_length. rewrite !IndexByte_None by not_in.
  replace (drop (S (S (length h))) (h ++ "]"%byte :: ":"%byte :: p)) with p; [done|].
  clear. induction h as [|d h IH]; [done | exact IH].
Qed.

(** Splitting undoes joining for a host without brackets: an IPv6 host is bracketed exactly
    when it has colons, which is what splitting looks for. *)
Lemma SplitHostPort_JoinHostPort host port :
  bracketless host -> portlike port -> SplitHostPort (JoinHostPort host port) = Some (host, port).
Proof.
  intros [Ho Hc] (Hp & Hpo & Hpc). unfold JoinHostPort.
  destruct (decide (":"%byte ∈ list_byte_of_string host)) as [Hin|Hnin].
  - apply IndexByte_is_Some in Hin as [n ->].
    replace ("[" +:+ (host +:+ ("]:" +:+ port))) with
      (string_of_list_byte ("["%byte :: list_byte_of_string host ++
                            "]"%byte :: ":"%byte :: list_byte_of_string port)).
    + rewrite SplitHostPort_bracketed by done. by rewrite !string_of_list_byte_of_string.
    + apply list_byte_of_string_inj. rewrite list_byte_of_string_of_list_byte.
      by rewrite !list_byte_of_string_app.
  - rewrite IndexByte_None by done.
    replace (host +:+ (":" +:+ port)) with
      (string_of_list_byte (list_byte_of_string host ++ ":"%byte :: list_byte_of_string port)).
    + rewrite SplitHostPort_plain by done. by rewrite !string_of_list_byte_of_string.
    + apply list_byte_of_string_inj. rewrite list_byte_of_string_of_list_byte.
      by rewrite !list_byte_of_string_app.
Qed.

(** The key of a peer's transaction table splits back into the text the address is known by
    everywhere else, whatever the port; the zone is what would come between them. *)
Lemma SplitHostPort_UDPAddr (a : UDPAddr) :
  length (bytes (UDPAddr.IP a)) = IP.IPv4len \/ length (bytes (UDPAddr.IP a)) = IP.IPv6len ->
  UDPAddr.Zone a = "" ->
  SplitHostPort (UDPAddr_String a) = Some (IP_String (UDPAddr.IP a), itoa (UDPAddr.Port a)).
Proof.
  intros Hlen Hz. unfold UDPAddr_String, UDPAddr.render, UDPAddr.ipEmptyString.
  rewrite (decide_False (P := _ = O)) by (unfold IP.IPv4len, IP.IPv6len in *; lia).
  rewrite decide_False by (rewrite Hz; tauto).
  apply SplitHostPort_JoinHostPort; auto with go.
Qed.

Lemma UDPAddr_String_plain ip p :
  bytes ip <> [] -> UDPAddr_String (UDPAddr.mk ip p "") = JoinHostPort (IP_String ip) (itoa p).
Proof.
  intros Hip. unfold UDPAddr_String, UDPAddr.render, UDPAddr.ipEmptyString. simpl UDPAddr.Zone.
  rewrite decide_False by tauto. simpl UDPAddr.IP. by destruct (bytes ip).
Qed.

(** *** Dotted addresses parse back *)

(** Reading the digits of one octet, checked for each of the 256. *)
Lemma v4Fields_octet (b : byte) p fields rest :
  (length (list_byte_of_string (itoa (Byte.to_N b))) <= 3)%nat /\
  exists c n, ParseIP.is_digit c = true /\
    ParseIP.v4Fields p 0 0 fields (list_byte_of_string (itoa (Byte.to_N b)) ++ rest) =
    ParseIP.v4Fields (Some c) (S n) (Z_of_byte b) fields rest.
Proof. destruct b; (split; [vm_compute; lia|]; eexists _, _; split; [|reflexivity]; reflexivity). Qed.

Lemma byte_of_Z_of_byte b : byte_of_Z (Z_of_byte b) = b.
Proof. by destruct b. Qed.

Lemma is_digit_not_dot c : ParseIP.is_digit c = true -> c <> "."%byte.
Proof. by intros Hd ->. Qed.

Lemma v4Fields_dot (b : byte) p fields rest :
  rest <> [] -> length fields <> 3%nat ->
  ParseIP.v4Fields p 0 0 fields (list_byte_of_string (itoa (Byte.to_N b)) ++ "."%byte :: rest) =
  ParseIP.v4Fields (Some "."%byte) 0 0 (fields ++ [b]) rest.
Proof.
  intros Hrest Hlen. destruct (v4Fields_octet b p fields ("."%byte :: rest)) as [_ (c & n & Hc & ->)].
  apply is_digit_not_dot in Hc. cbn [ParseIP.v4Fields].
  replace (ParseIP.is_digit ".") with false by done.
  rewrite bool_decide_eq_true_2 by done. destruct rest as [|r rest]; [done|].
  rewrite bool_decide_eq_false_2 by done. rewrite decide_False by done.
  by rewrite byte_of_Z_of_byte.
Qed.

Lemma v4Fields_last (b : byte) p fields :
  length fields = 3%nat ->
  ParseIP.v4Fields p 0 0 fields (list_byte_of_string (itoa (Byte.to_N b))) = Some (fields ++ [b]).
Proof.
  intros Hlen. destruct (v4Fields_octet b p fields []) as [_ (c & n & Hc & Heq)].
  rewrite app_nil_r in Heq. rewrite Heq. cbn [ParseIP.v4Fields].
  by rewrite decide_True, byte_of_Z_of_byte.
Qed.

Lemma first_sep_digits s t : digits s ->
  ParseIP.first_sep (list_byte_of_string s ++ t) = ParseIP.first_sep t.
Proof.
  unfold digits. induction (list_byte_of_string s) as [|c l IH]; intros Hd; [done|].
  inversion_clear Hd as [|? ? Hc Hl]. cbn [app ParseIP.first_sep].
  rewrite bool_decide_eq_false_2; [by apply IH|]. by intros [->|[->| ->]].
Qed.

Lemma list_byte_of_itoa_nonempty n : list_byte_of_string (itoa n) <> [].
Proof.
  intros Heq. apply (itoa_nonempty n). apply list_byte_of_string_inj. by rewrite Heq.
Qed.

(** A dotted quad parses to the address it prints, in the 16-octet form [ParseIP] returns. *)
Lemma ParseIP_dotted a b c d :
  ParseIP.ParseIP (IPString.dotted [a; b; c; d]) = Some (IP.v4InV6Prefix ++ [a; b; c; d]).
Proof.
  unfold ParseIP.ParseIP. cbn [IPString.dotted]. rewrite !list_byte_of_string_app.
  change (list_byte_of_string ".") with ["."%byte].
  rewrite first_sep_digits by apply itoa_digits. cbn [app ParseIP.first_sep].
  rewrite !bool_decide_eq_true_2 by auto. unfold ParseIP.parseIPv4.
  rewrite !v4Fields_dot; [| try done..].
  - rewrite v4Fields_last by done. done.
  - apply list_byte_of_itoa_nonempty.
  - intros Heq. by apply app_eq_nil in Heq as [_ ?].
  - intros Heq. by apply app_eq_nil in Heq as [_ ?].
Qed.

Lemma dotted_inj p q :
  length p = IP.IPv4len -> length q = IP.IPv4len ->
  IPString.dotted p = IPString.dotted q -> p = q.
Proof.
  intros Hp Hq Heq.
  destruct p as [|p0 [|p1 [|p2 [|p3 [|]]]]]; try done.
  destruct q as [|q0 [|q1 [|q2 [|q3 [|]]]]]; try done.
  pose proof (ParseIP_dotted p0 p1 p2 p3) as H1. rewrite Heq, ParseIP_dotted in H1. naive_solver.
Qed.

(** The text of an address depends on its 4-octet form alone when it has one, so the peer
    address read off the socket and the address a node ID resolved to are one key. *)
Lemma IP_String_To4 ip p4 : IP.To4 ip = Some p4 -> IP_String ip = IPString.dotted p4.
Proof.
  intros H4. unfold IP_String, IPString.render. rewrite H4.
  unfold IP.To4 in H4. unfold IP.IPv4len, IP.IPv6len in *. repeat case_decide; try done; try lia; tauto.
Qed.

Lemma To4_idemp p4 : length p4 = IP.IPv4len -> IP.To4 (Some p4) = Some p4.
Proof. intros Hl. unfold IP.To4. by rewrite decide_True. Qed.
