(* ===== verification/NodeId.v ===== *)
(** * NodeId: node identities and their resolution ([types/nodeid.go])

    A node identity names a user plane by IPv4 address, IPv6 address or host name. [NewNodeID]
    reads one from text, [ResolveNodeIdToIp] turns one into an address, through a cache of
    host names that a ticker refreshes once a minute. The resolver itself
    ([net.DefaultResolver]) is the environment: a function from host names to answers. *)

From Stdlib Require Import Strings.Byte Strings.String.
From S2P Require Import Prelude GoNet.

#[local] Open Scope string_scope.
#[local] Open Scope list_scope.
#[local] Open Scope Z_scope.

(** ** Data *)

Definition NodeIdTypeIpv4Address : Z := 0.
Definition NodeIdTypeIpv6Address : Z := 1.
Definition NodeIdTypeFqdn : Z := 2.

(** [NodeIdType] is an octet, so it is in [0, 256). *)
Record NodeID := mkNodeID { NodeIdValue : slice; NodeIdType : Z }.

#[export] Instance NodeID_eq_dec : EqDecision NodeID.
Proof. solve_decision. Defined.

(** [dnsHostIpCache map[string]net.IP]. *)
Abbreviation dnsCache := (gmap string slice) (only parsing).

(** The answer of [LookupHost]: an error, or the addresses found. *)
Abbreviation Resolver := (string -> option (list string)) (only parsing).

(** ** Operations *)

Definition NewNodeID (nodeID : string) : NodeID :=
  let ip := ParseIP.ParseIP nodeID in
  match ip with
  | None => mkNodeID (Some (list_byte_of_string nodeID)) NodeIdTypeFqdn
  | Some _ =>
      match IP.To4 ip with
      | Some p4 => mkNodeID (Some p4) NodeIdTypeIpv4Address
      | None => mkNodeID (IP.To16 ip) NodeIdTypeIpv6Address
      end
  end.

Definition getDnsHostIp (hostName : string) (cache : dnsCache) : option slice := cache !! hostName.

Definition InsertDnsHostIp (hostName : string) (ip : slice) (cache : dnsCache) : dnsCache :=
  <[hostName := ip]> cache.

Definition deleteDnsHost (hostName : string) (cache : dnsCache) : dnsCache := delete hostName cache.

(** [ns[0]] on an empty answer is an index out of range. *)
Definition ResolveNodeIdToIp (lookup : Resolver) (n : NodeID) (cache : dnsCache)
    : outcome (slice * dnsCache) :=
  if decide (NodeIdType n = NodeIdTypeIpv4Address \/ NodeIdType n = NodeIdTypeIpv6Address) then
    Val (NodeIdValue n, cache)
  else if decide (NodeIdType n = NodeIdTypeFqdn) then
    let host := string_of_slice (NodeIdValue n) in
    match getDnsHostIp host cache with
    | Some ip => Val (ip, cache)
    | None =>
        match lookup host with
        | None => Val (IP.IPv4zero, cache)
        | Some [] => Panic
        | Some (ns0 :: _) =>
            Val (ParseIP.ParseIP ns0, InsertDnsHostIp host (ParseIP.ParseIP ns0) cache)
        end
    end
  else Val (IP.IPv4zero, cache).

Section Refresh.
Context `{!MapRange string}.

(** One round of the refresh loop, for one cached name. *)
Definition refresh_one (lookup : Resolver) (cache : outcome dnsCache) (hostName : string)
    : outcome dnsCache :=
  match cache with
  | Panic => Panic
  | Val cache =>
      match lookup hostName with
      | None => Val (deleteDnsHost hostName cache)
      | Some [] => Panic
      | Some (ns0 :: _) =>
          if IP.Equal (default None (cache !! hostName)) (ParseIP.ParseIP ns0) then Val cache
          else Val (<[hostName := ParseIP.ParseIP ns0]> cache)
      end
  end.

Definition RefreshDnsHostIpCache (lookup : Resolver) (cache : dnsCache) : outcome dnsCache :=
  fold_left (refresh_one lookup) (range cache).*1 (Val cache).
End Refresh.

(** [nodeKey] of [config/config.go]: [fmt.Sprintf("%d/%s", type, value)]. *)
Definition nodeKey (n : NodeID) : string :=
  itoa (Z.to_N (NodeIdType n)) +:+ "/" +:+ string_of_slice (NodeIdValue n).

(** ** Well-formed identities *)

(** What the three types mean for the octets that come with them. *)
Definition wf_NodeID (n : NodeID) : Prop :=
  (NodeIdType n = NodeIdTypeIpv4Address /\ length (bytes (NodeIdValue n)) = IP.IPv4len) \/
  (NodeIdType n = NodeIdTypeIpv6Address /\ length (bytes (NodeIdValue n)) = IP.IPv6len /\
   IP.To4 (NodeIdValue n) = None) \/
  NodeIdType n = NodeIdTypeFqdn.

(** ** Lemmas *)

Lemma v4Fields_length prev digLen val fields s out :
  ParseIP.v4Fields prev digLen val fields s = Some out -> length out = 4%nat.
Proof.
  revert prev digLen val fields. induction s as [|c s IH]; intros prev digLen val fields;
    cbn [ParseIP.v4Fields]; intros Heq.
  - case_decide as Hl; simplify_eq. rewrite length_app, Hl. done.
  - repeat case_match; simplify_eq; eauto.
Qed.

Lemma v6Groups_length fuel out ell s out' ell' s' :
  (length out <= 16)%nat -> Nat.Even (length out) ->
  ParseIP.v6Groups fuel out ell s = Some (out', ell', s') ->
  (length out' <= 16)%nat.
Proof.
  revert out ell s. induction fuel as [|fuel IH]; intros out ell s Hle Hev;
    cbn [ParseIP.v6Groups]; intros Heq; [by simplify_eq|].
  case_decide as Hfull; [by simplify_eq|].
  assert (Hle2 : forall a b : byte, (length (out ++ [a; b]) <= 16)%nat).
  { intros a b. rewrite length_app. simpl. destruct Hev as [k Hk]. lia. }
  assert (Hev2 : forall a b : byte, Nat.Even (length (out ++ [a; b]))).
  { intros a b. rewrite length_app. destruct Hev as [k ->]. exists (S k). simpl. lia. }
  repeat case_match; simplify_eq; eauto.
  match goal with H : ParseIP.parseIPv4 _ = Some _ |- _ => apply v4Fields_length in H end.
  rewrite length_app. lia.
Qed.

Lemma parseIPv6_length s b : ParseIP.parseIPv6 s = Some b -> length b = 16%nat.
Proof.
  unfold ParseIP.parseIPv6. set (start := match s with [] => _ | _ :: _ => _ end).
  destruct start as [[e|] [|c s']]; intros Heq; simplify_eq; [done|..];
    destruct (ParseIP.v6Groups _ _ _ _) as [[[out ell'] [|]]|] eqn:Hg; try done;
    (apply v6Groups_length in Hg; [|simpl; lia|by exists 0%nat]);
    (case_decide; [|destruct ell'; simplify_eq; lia]);
    (destruct ell' as [e'|]; [|done]); simplify_eq;
    rewrite !length_app, length_take, length_replicate, length_drop; lia.
Qed.

Lemma ParseIP_length str b : ParseIP.ParseIP str = Some b -> length b = IP.IPv6len.
Proof.
  unfold ParseIP.ParseIP. intros Heq.
  destruct (ParseIP.first_sep _); [|done].
  case_bool_decide; [|case_bool_decide; [case_bool_decide|]]; try done.
  - destruct (ParseIP.parseIPv4 _) as [v4|] eqn:H4; [|done].
    apply v4Fields_length in H4. simpl in Heq. simplify_eq. simpl. by rewrite H4.
  - by apply parseIPv6_length in Heq.
Qed.

Lemma itoa_no_slash n : "/"%byte ∉ list_byte_of_string (itoa n).
Proof.
  pose proof (itoa_digits n) as Hd. unfold digits in Hd. rewrite Forall_forall in Hd.
  intros Hin. apply Hd in Hin. discriminate Hin.
Qed.

Lemma nodeKey_bytes n :
  list_byte_of_string (nodeKey n) =
  list_byte_of_string (itoa (Z.to_N (NodeIdType n))) ++ "/"%byte :: bytes (NodeIdValue n).
Proof.
  unfold nodeKey. rewrite !list_byte_of_string_app. unfold string_of_slice.
  by rewrite list_byte_of_string_of_list_byte.
Qed.

(** [bytes.Equal] on the octets and equality on the types: what two names of one node share. *)
Lemma nodeKey_injective m n :
  0 <= NodeIdType m -> 0 <= NodeIdType n -> nodeKey m = nodeKey n ->
  NodeIdType m = NodeIdType n /\ bytes (NodeIdValue m) = bytes (NodeIdValue n).
Proof.
  intros Hm Hn Heq. apply (f_equal list_byte_of_string) in Heq. rewrite !nodeKey_bytes in Heq.
  apply not_elem_of_app_cons_inv_l in Heq as (Ht & _ & Hv); [|apply itoa_no_slash..].
  split; [|done]. apply list_byte_of_string_inj, itoa_inj in Ht. lia.
Qed.

Lemma NewNodeID_wf_aux s : wf_NodeID (NewNodeID s).
Proof.
  unfold NewNodeID, wf_NodeID. destruct (ParseIP.ParseIP s) as [b|] eqn:Hp; [|by right; right].
  apply ParseIP_length in Hp. destruct (IP.To4 (Some b)) as [p4|] eqn:H4; simpl.
  - left. split; [done|]. by apply To4_length in H4.
  - right; left. unfold IP.To16. simpl. unfold IP.IPv4len, IP.IPv6len in *.
    rewrite decide_False by lia. by rewrite decide_True.
Qed.

(** What one refresh does to one cached name. *)
Definition refreshed (lookup : Resolver) (hostName : string) (ip : slice) : option slice :=
  match lookup hostName with
  | Some (ns0 :: _) =>
      let new := ParseIP.ParseIP ns0 in Some (if IP.Equal ip new then ip else new)
  | _ => None
  end.

Section RefreshLemmas.
Context `{!MapRange string} (lookup : Resolver).
Hypothesis lookup_nonempty : forall h, lookup h <> Some [].

Lemma refresh_one_lookup cache h ip :
  cache !! h = Some ip ->
  exists cache', refresh_one lookup (Val cache) h = Val cache' /\
    forall h', cache' !! h' = if decide (h = h') then refreshed lookup h ip else cache !! h'.
Proof.
  intros Hip. unfold refresh_one, refreshed, deleteDnsHost.
  destruct (lookup h) as [[|ns0 ns]|] eqn:Hl; [by apply lookup_nonempty in Hl| |].
  - rewrite Hip. simpl. destruct (IP.Equal ip _) eqn:He; eexists; (split; [done|]); intros h'.
    + case_decide; by subst.
    + rewrite lookup_insert. by case_decide.
  - eexists. split; [done|]. intros h'. rewrite lookup_delete. by case_decide.
Qed.

Lemma refresh_fold_lookup l cache :
  NoDup l -> (forall h, h ∈ l -> is_Some (cache !! h)) ->
  exists cache', fold_left (refresh_one lookup) l (Val cache) = Val cache' /\
    forall h, cache' !! h = if decide (h ∈ l) then cache !! h ≫= refreshed lookup h else cache !! h.
Proof.
  revert cache. induction l as [|h l IH]; intros cache Hnd Hin; cbn [fold_left].
  - exists cache. split; [done|]. intros h. by rewrite decide_False by apply not_elem_of_nil.
  - apply NoDup_cons in Hnd as [Hh Hnd].
    destruct (Hin h) as [ip Hip]; [by left|].
    destruct (refresh_one_lookup cache h ip Hip) as (c1 & -> & Hc1).
    destruct (IH c1 Hnd) as (c2 & -> & Hc2).
    { intros h' Hh'. rewrite Hc1. rewrite decide_False by (by intros ->). apply Hin. by right. }
    exists c2. split; [done|]. intros h'. rewrite Hc2, Hc1.
    destruct (decide (h = h')) as [<-|Hne].
    + rewrite decide_False by done. rewrite decide_True by by left. by rewrite Hip.
    + destruct (decide (h' ∈ l)).
      * by rewrite decide_True by by right.
      * by rewrite decide_False by (rewrite elem_of_cons; naive_solver).
Qed.
End RefreshLemmas.

(** ** Properties *)

(** C39. The key a user plane is recorded under names it: two identities share a key exactly
    when they have the same type and the same octets, so octets meaning different things under
    different types never meet. *)
Theorem nodeKey_identifies m n :
  0 <= NodeIdType m -> 0 <= NodeIdType n ->
  nodeKey m = nodeKey n <->
  NodeIdType m = NodeIdType n /\ bytes (NodeIdValue m) = bytes (NodeIdValue n).
Proof.
  intros Hm Hn. split; [by apply nodeKey_injective|].
  intros [Ht Hv]. unfold nodeKey, string_of_slice. by rewrite Ht, Hv.
Qed.

Lemma nodeKey_identifies_witness :
  nodeKey (mkNodeID (Some ["/"]%byte) 2) = nodeKey (mkNodeID (Some ["/"]%byte) 0) <->
  2 = 0 /\ ["/"]%byte = ["/"]%byte.
Proof.
  apply (nodeKey_identifies (mkNodeID (Some ["/"]%byte) 2) (mkNodeID (Some ["/"]%byte) 0)); done.
Defined.

(** C40. Every identity read from text is well formed: four octets under the IPv4 type, sixteen
    that are not an IPv4 address under the IPv6 type, anything else a host name. *)
Theorem NewNodeID_wf s : wf_NodeID (NewNodeID s).
Proof. apply NewNodeID_wf_aux. Qed.

(** An IPv4 address printed and read back is the IPv4 identity with those octets, and it
    resolves to them without consulting the cache or the resolver. *)
Theorem NewNodeID_IPv4_roundtrip a b c d lookup cache :
  let n := NewNodeID (IP_String (Some [a; b; c; d])) in
  n = mkNodeID (Some [a; b; c; d]) NodeIdTypeIpv4Address /\
  ResolveNodeIdToIp lookup n cache = Val (Some [a; b; c; d], cache).
Proof.
  intros n. assert (n = mkNodeID (Some [a; b; c; d]) NodeIdTypeIpv4Address) as ->; [|done].
  unfold n, NewNodeID. rewrite (IP_String_To4 _ [a; b; c; d]) by done.
  by rewrite ParseIP_dotted.
Qed.

(** A refresh visits every cached name once, in whatever order the map is walked: a name
    that no longer resolves is dropped, one that resolves elsewhere is moved, and no name is
    added; it does not panic as long as the resolver's answers are never empty. *)
Theorem RefreshDnsHostIpCache_spec `{!MapRange string} (lookup : Resolver) (cache : dnsCache) :
  (forall h, lookup h <> Some []) ->
  exists cache', RefreshDnsHostIpCache lookup cache = Val cache' /\
    forall h, cache' !! h = cache !! h ≫= refreshed lookup h.
Proof.
  intros Hne. unfold RefreshDnsHostIpCache.
  destruct (refresh_fold_lookup lookup Hne (range cache).*1 cache) as (c & Hc & Hl).
  - apply NoDup_range_fst.
  - intros h [[h' ip] [-> Hin]]%list_elem_of_fmap. apply elem_of_range in Hin. by exists ip.
  - exists c. split; [done|]. intros h. rewrite Hl. case_decide as Hin; [done|].
    destruct (cache !! h) as [ip|] eqn:Hip; [|done]. exfalso. apply Hin.
    apply list_elem_of_fmap. exists (h, ip). split; [done|]. by apply elem_of_range.
Qed.

Lemma RefreshDnsHostIpCache_spec_witness :
  exists cache', RefreshDnsHostIpCache (fun h => if bool_decide (h = "upf") then Some ["10.0.0.2"] else None)
    {["upf" := ParseIP.ParseIP "10.0.0.1"; "gone" := ParseIP.ParseIP "10.0.0.9"]} = Val cache' /\
    forall h, cache' !! h =
      ({["upf" := ParseIP.ParseIP "10.0.0.1"; "gone" := ParseIP.ParseIP "10.0.0.9"]} : dnsCache) !! h
        ≫= refreshed (fun h => if bool_decide (h = "upf") then Some ["10.0.0.2"] else None) h.
Proof. apply RefreshDnsHostIpCache_spec. intros h. by case_bool_decide. Defined.
