(* ===== verification/Logger.v ===== *)
(** * Logger: the loggers and the level they share ([logger/logger.go])

    Zap is a parameter. What is relied on of it is that a logger built from a configuration looks,
    whenever it is given a line, at the level the configuration points to; so that one call of
    [SetLogLevel] is heard by all three loggers, which the package builds once. *)

From Stdlib Require Import Strings.String.
From S2P Require Import Prelude.

#[local] Open Scope string_scope.
#[local] Open Scope list_scope.
#[local] Open Scope Z_scope.

(** [zapcore.InfoLevel], which the package starts with. *)
Definition InfoLevel : Z := 0.

Module Log.

(** ** Zap *)

(** A [zap.AtomicLevel] is a pointer: a name in the store of levels. *)
Definition NewAtomicLevelAt (level : Z) (levels : list Z) : nat * list Z :=
  (length levels, levels ++ [level]).
Definition SetLevel (ptr : nat) (level : Z) (levels : list Z) : list Z := <[ptr := level]> levels.

(** The fields of a [zapcore.EncoderConfig] that are assigned: names of keys, and encoders. *)
Inductive EncoderField :=
| TimeKey (key : string) | LevelKey (key : string) | CallerKey (key : string)
| MessageKey (key : string) | StacktraceKey (key : string)
| EncodeTimeISO8601 | EncodeLevelCapital | EncodeCallerShort.

Class ZapLib := {
  EncoderConfig : Type;
  NewProductionEncoderConfig : EncoderConfig;
  assign : EncoderField -> EncoderConfig -> EncoderConfig;
  Logger : Type;                               (* [*zap.Logger], [*zap.SugaredLogger] *)
  Build : nat -> bool -> string -> EncoderConfig -> list string -> list string -> result string Logger;
  With : list string -> Logger -> Logger;      (* [Sugar().With] *)
  Enabled : list Z -> Logger -> Z -> bool;     (* with these levels, a line of this one is written *)
}.

(** [zap.Config.Build]: the configuration's [AtomicLevel] is looked at when a line is written, and a
    line of that level or above is; what is added to a logger does not change it. *)
Class ZapLaws `(Zap : ZapLib) := {
  Enabled_Build ptr dev enc cfg out err log levels level :
    Build ptr dev enc cfg out err = Ok log ->
    Enabled levels log level = (default 0 (levels !! ptr) <=? level);
  Enabled_With kvs log levels level : Enabled levels (With kvs log) level = Enabled levels log level;
}.

(** ** The package *)

Section Package.
Context `{Zap : ZapLib}.

(** The package variables, with the store of levels. *)
Record Loggers := mkLoggers {
  log : Logger;
  AppLog : Logger;
  PfcpLog : Logger;
  CfgLog : Logger;
  atomicLevel : nat;
  levels : list Z;
}.

(** The assignments to [config.EncoderConfig], in their order. *)
Definition encoderFields : list EncoderField :=
  [TimeKey "timestamp"; EncodeTimeISO8601; LevelKey "level"; EncodeLevelCapital;
   CallerKey "caller"; EncodeCallerShort; MessageKey "message"; StacktraceKey ""].

Definition category (name : string) (log : Logger) : Logger :=
  With ["component"; "UPFAdapter"; "category"; name] log.

(** [init]: a configuration that cannot be built ends the process. *)
Definition init (levels : list Z) : outcome Loggers :=
  let '(atomicLevel, levels) := NewAtomicLevelAt InfoLevel levels in
  let encoderConfig := foldl (fun c f => assign f c) NewProductionEncoderConfig encoderFields in
  match Build atomicLevel false "console" encoderConfig ["stdout"] ["stderr"] with
  | Err _ => Panic
  | Ok log =>
      Val (mkLoggers log (category "App" log) (category "Pfcp" log) (category "Config" log)
             atomicLevel levels)
  end.

(** [SetLogLevel]: it says so first, under the level there was; the result is whether that line is
    written. *)
Definition SetLogLevel (level : Z) (l : Loggers) : bool * Loggers :=
  (Enabled (levels l) (CfgLog l) InfoLevel,
   mkLoggers (log l) (AppLog l) (PfcpLog l) (CfgLog l) (atomicLevel l)
     (SetLevel (atomicLevel l) level (levels l))).

(** The level of the package, which is what the state of the process has of it ([World.v]). *)
Definition current (l : Loggers) : Z := default 0 (levels l !! atomicLevel l).

(** A state the package can be in: what [init] leaves and calls of [SetLogLevel] make of it. *)
Inductive reached (levels0 : list Z) : Loggers -> Prop :=
| reached_init l : init levels0 = Val l -> reached levels0 l
| reached_set level l : reached levels0 l -> reached levels0 (snd (SetLogLevel level l)).

Context {Laws : ZapLaws Zap}.

(** The pointer is valid and every logger goes by what it points to. *)
Lemma reached_enabled levels0 l :
  reached levels0 l ->
  (atomicLevel l < length (levels l))%nat /\
  forall store lg level, lg ∈ [AppLog l; PfcpLog l; CfgLog l] ->
    Enabled store lg level = (default 0 (store !! atomicLevel l) <=? level).
Proof.
  induction 1 as [l Hi|level l _ [Hlt Hl]]; [|split; [cbn; unfold SetLevel; by rewrite length_insert|exact Hl]].
  unfold init in Hi. cbn [NewAtomicLevelAt] in Hi.
  destruct (Build _ _ _ _ _ _) as [lg|] eqn:Hb; [|done]. injection Hi as <-. cbn.
  split; [rewrite length_app; simpl; lia|]. intros store lg' level.
  rewrite !elem_of_cons, elem_of_nil. unfold category.
  intros [->|[->|[->|[]]]]; rewrite Enabled_With; by eapply Enabled_Build.
Qed.

(** However often the level has been set, all three loggers write a line exactly when it is of the
    level set last or above; the package starts at the level of information; and that the level is
    set is said exactly when the one before lets information through. *)
Theorem loggers_share_level levels0 l :
  (init levels0 = Val l -> current l = InfoLevel) /\
  (reached levels0 l -> forall new,
     let '(said, l') := SetLogLevel new l in
     current l' = new /\ said = (current l <=? InfoLevel) /\
     forall lg level, lg ∈ [AppLog l'; PfcpLog l'; CfgLog l'] ->
       Enabled (levels l') lg level = (new <=? level)).
Proof.
  split.
  - unfold init, current. cbn [NewAtomicLevelAt]. destruct (Build _ _ _ _ _ _); [|done].
    intros [= <-]. cbn. by rewrite lookup_app_r, Nat.sub_diag by lia.
  - intros Hr new. destruct (reached_enabled _ _ Hr) as [Hlt Hl]. unfold SetLogLevel, current, SetLevel. cbn.
    rewrite list_lookup_insert_eq by done. split; [done|]. split.
    + apply Hl. by do 2 right; left.
    + intros lg level Hlg. by rewrite Hl, list_lookup_insert_eq.
Qed.
End Package.

(** ** A library to evaluate with *)

(** A logger is the level it points to and what it says on every line. *)
#[local] Instance DemoZap : ZapLib := {|
  EncoderConfig := list EncoderField;
  NewProductionEncoderConfig := [];
  assign f c := c ++ [f];
  Logger := nat * list string;
  Build ptr _ enc _ _ _ := if decide (enc = "console") then Ok (ptr, []) else Err "no encoder";
  With kvs log := (log.1, log.2 ++ kvs);
  Enabled levels log level := default 0 (levels !! log.1) <=? level;
|}.

#[local] Instance DemoZapLaws : ZapLaws DemoZap.
Proof.
  split; [|done]. intros ptr dev enc cfg out err lg levels level. simpl. case_decide; [|done]. by intros [= <-].
Qed.

Lemma loggers_share_level_witness :
  exists l, init (Zap := DemoZap) [] = Val l /\
    Enabled (levels (snd (SetLogLevel 2 l))) (PfcpLog l) 1 = false.
Proof.
  destruct (init (Zap := DemoZap) []) as [l|] eqn:Hi; [|discriminate Hi].
  exists l. split; [reflexivity|].
  destruct (proj2 (loggers_share_level [] l) (reached_init [] l Hi) 2) as (_ & _ & H).
  exact (H (PfcpLog l) 1 ltac:(right; left)).
Defined.
End Log.
