(* ===== verification/Relay.v ===== *)
(** * Relay: session reports in flight towards the SMF ([config/config.go])

    A report a user plane raises is relayed under a sequence number of the adapter's own. The
    relay table remembers, under that number, where the report came from; an index by address
    recognises retransmissions and lets a released peer's reports be dropped. [sync.Mutex]
    makes each operation below one step: [reportRelayMutex] is held from its first line to its
    last. Every reading of the clock is a parameter. *)

From S2P Require Import Prelude GoNet.

#[local] Open Scope Z_scope.

(** ** Constants *)

Definition reportRelayLifetime : Duration := 30 * Second.
Definition relaySweepInterval : Duration := Second.
Definition relaySequenceFloor : Z := 0x800000.
Definition relaySequenceCeil : Z := 0xFFFFFF.

(** ** Data *)

(** [upfAddr] points at the address the report was read from, which nobody writes to. *)
Record reportRelay := mkRelay {
  upfAddr : UDPAddr;
  recorded : Time;
  upfSeq : Z;
  answered : bool;
}.

#[export] Instance reportRelay_eq_dec : EqDecision reportRelay.
Proof. solve_decision. Defined.

Record relayGeneration := mkGeneration { releasedAt : Time; count : Z }.

(** The zero value a missing key yields. *)
Definition zeroGeneration : relayGeneration := mkGeneration 0 0.

(** The package-level variables [reportRelayMutex] guards. *)
Record Relays := mkRelays {
  reportRelays : gmap Z reportRelay;
  relaysByHost : gmap string (gset Z);
  relayGenerations : gmap string relayGeneration;
  reportRelaySeq : Z;
  lastRelaySweep : Time;
}.

Definition initRelays : Relays := mkRelays ∅ ∅ ∅ 0 0.

Definition set_tables (m : gmap Z reportRelay) (h : gmap string (gset Z)) (st : Relays) : Relays :=
  mkRelays m h (relayGenerations st) (reportRelaySeq st) (lastRelaySweep st).
Definition set_generations (g : gmap string relayGeneration) (st : Relays) : Relays :=
  mkRelays (reportRelays st) (relaysByHost st) g (reportRelaySeq st) (lastRelaySweep st).
Definition set_seq (n : Z) (st : Relays) : Relays :=
  mkRelays (reportRelays st) (relaysByHost st) (relayGenerations st) n (lastRelaySweep st).
Definition set_lastSweep (t : Time) (st : Relays) : Relays :=
  mkRelays (reportRelays st) (relaysByHost st) (relayGenerations st) (reportRelaySeq st) t.

Inductive relayError := ErrRelaySequenceExhausted | ErrPeerReleased | ErrRelayNotHeld.

#[export] Instance relayError_eq_dec : EqDecision relayError.
Proof. solve_decision. Defined.

(** [addr.IP.String()], the key of the index. *)
Definition hostOf (addr : UDPAddr) : string := IP_String (UDPAddr.IP addr).

(** [m[k]] on a map of sets: missing means the nil set. *)
Definition bucket (h : string) (m : gmap string (gset Z)) : gset Z := default ∅ (m !! h).

(** ** The allocator *)

(** One round of the search, with [uint32] arithmetic. *)
Definition nextRelaySequence (floor ceil candidate : Z) : Z :=
  if (candidate <? floor) || (ceil <=? candidate) then floor else u32 (candidate + 1).

Definition nextFreeRelaySequence (outstanding : gmap Z reportRelay) (from floor ceil : Z)
    : option Z :=
  match for_range
          (fun candidate =>
             let candidate := nextRelaySequence floor ceil candidate in
             match outstanding !! candidate with
             | None => inr candidate
             | Some _ => inl candidate
             end)
          (u32 (ceil - floor + 1)) from with
  | inr candidate => Some candidate
  | inl _ => None
  end.

(** ** The two tables *)

Definition recordRelayLocked (relaySeq : Z) (relay : reportRelay) (st : Relays) : Relays :=
  let host := hostOf (upfAddr relay) in
  let byHost :=
    match relaysByHost st !! host with
    | None => <[host := ∅]> (relaysByHost st)
    | Some _ => relaysByHost st
    end in
  set_tables (<[relaySeq := relay]> (reportRelays st))
             (<[host := {[relaySeq]} ∪ bucket host byHost]> byHost) st.

Definition dropRelayLocked (relaySeq : Z) (st : Relays) : Relays :=
  match reportRelays st !! relaySeq with
  | None => st
  | Some relay =>
      let host := hostOf (upfAddr relay) in
      let byHost :=
        match relaysByHost st !! host with
        | None => relaysByHost st
        | Some b => <[host := b ∖ {[relaySeq]}]> (relaysByHost st)
        end in
      let byHost :=
        if decide (size (bucket host byHost) = 0%nat) then delete host byHost else byHost in
      set_tables (delete relaySeq (reportRelays st)) byHost st
  end.

Section Operations.
Context `{!MapRange string, !MapRange Z}.

(** The body of the second loop of the sweep. *)
Definition expireRelay (now : Time) (st : Relays) (kv : Z * reportRelay) : Relays :=
  if time_Sub now (recorded kv.2) <=? reportRelayLifetime then st
  else dropRelayLocked kv.1 st.

Definition expireGeneration (now : Time) (g : gmap string relayGeneration)
    (kv : string * relayGeneration) : gmap string relayGeneration :=
  if reportRelayLifetime <? time_Sub now (releasedAt kv.2) then delete kv.1 g else g.

Definition sweepRelaysLocked (now : Time) (st : Relays) : Relays :=
  if time_Sub now (lastRelaySweep st) <? relaySweepInterval then st
  else
    let st := set_lastSweep now st in
    let st := set_generations
                (fold_left (expireGeneration now) (range (relayGenerations st))
                           (relayGenerations st)) st in
    fold_left (expireRelay now) (range (reportRelays st)) st.

(** Does this entry hold a live claim on the report? The index never names a number that is
    not in the table (see [index_sound] below), so a missing entry is no match. *)
Definition matches (addr : UDPAddr) (seq : Z) (now : Time) (st : Relays) (held : Z) : bool :=
  match reportRelays st !! held with
  | None => false
  | Some relay =>
      bool_decide (upfSeq relay = seq) &&
      bool_decide (UDPAddr.Port (upfAddr relay) = UDPAddr.Port addr) &&
      (time_Sub now (recorded relay) <=? reportRelayLifetime)
  end.

Definition relayFromLocked (addr : UDPAddr) (seq : Z) (now : Time) (st : Relays) : option Z :=
  find (matches addr seq now st) (range_set (bucket (hostOf addr) (relaysByHost st))).

Definition RelayGeneration (addr : string) (st : Relays) : Z :=
  count (default zeroGeneration (relayGenerations st !! addr)).

(** The number to relay under, and whether the report is a fresh one. *)
Definition RelayReportSequence (addr : UDPAddr) (seq : Z) (now : Time) (authorisedUnder : Z)
    (st : Relays) : result relayError (Z * bool) * Relays :=
  if negb (RelayGeneration (hostOf addr) st =? authorisedUnder) then (Err ErrPeerReleased, st)
  else
    let st := sweepRelaysLocked now st in
    match relayFromLocked addr seq now st with
    | Some outstanding => (Ok (outstanding, false), st)
    | None =>
        match nextFreeRelaySequence (reportRelays st) (reportRelaySeq st)
                relaySequenceFloor relaySequenceCeil with
        | None => (Err ErrRelaySequenceExhausted, st)
        | Some candidate =>
            (Ok (candidate, true),
             recordRelayLocked candidate (mkRelay addr now seq false) (set_seq candidate st))
        end
    end.

Definition RenumberReportRelay (relaySeq : Z) (st : Relays) : result relayError Z * Relays :=
  match reportRelays st !! relaySeq with
  | None => (Err ErrRelayNotHeld, st)
  | Some relay =>
      match nextFreeRelaySequence (reportRelays st) (reportRelaySeq st)
              relaySequenceFloor relaySequenceCeil with
      | None => (Err ErrRelaySequenceExhausted, st)
      | Some candidate =>
          (Ok candidate,
           recordRelayLocked candidate relay (set_seq candidate (dropRelayLocked relaySeq st)))
      end
  end.

Definition ForgetRelaysForHost (addr : string) (now : Time) (st : Relays) : Relays :=
  let released := default zeroGeneration (relayGenerations st !! addr) in
  let st := set_generations
              (<[addr := mkGeneration now (u64 (count released + 1))]> (relayGenerations st)) st in
  fold_left (fun st held => dropRelayLocked held st)
            (range_set (bucket addr (relaysByHost st))) st.

(** [None] is the nil address. *)
Definition TakeReportRelay (relaySeq : Z) (now : Time) (st : Relays)
    : option (UDPAddr * Z) * Relays :=
  match reportRelays st !! relaySeq with
  | None => (None, st)
  | Some relay =>
      if answered relay then (None, st)
      else if reportRelayLifetime <? time_Sub now (recorded relay) then (None, st)
      else
        (Some (upfAddr relay, upfSeq relay),
         set_tables (<[relaySeq := mkRelay (upfAddr relay) (recorded relay) (upfSeq relay) true]>
                       (reportRelays st)) (relaysByHost st) st)
  end.

Definition ForgetReportRelay (relaySeq : Z) (st : Relays) : Relays := dropRelayLocked relaySeq st.
End Operations.

(** ** The allocator: lemmas *)

Section Allocator.
Variables (outstanding : gmap Z reportRelay) (floor ceil : Z).
Hypothesis Hfloor : 0 <= floor.
Hypothesis Hceil : floor <= ceil < 2 ^ 32.

Abbreviation next := (nextRelaySequence floor ceil).

Lemma next_range c : floor <= next c <= ceil.
Proof.
  unfold nextRelaySequence. destruct (c <? floor) eqn:H1; simpl; [lia|].
  destruct (ceil <=? c) eqn:H2; [lia|]. rewrite u32_small; lia.
Qed.

(** The position of a candidate in the cycle, counted from the floor. *)
Lemma next_offset c : floor <= c <= ceil ->
  next c = floor + (c - floor + 1) mod (ceil - floor + 1).
Proof.
  intros Hc. unfold nextRelaySequence. destruct (c <? floor) eqn:H1; [lia|]. simpl.
  destruct (ceil <=? c) eqn:H2.
  - replace c with ceil by lia. rewrite Z_mod_same_full. lia.
  - rewrite u32_small by lia. rewrite Z.mod_small by lia. lia.
Qed.

Lemma iter_next_offset n c : floor <= c <= ceil ->
  Nat.iter n next c = floor + (c - floor + Z.of_nat n) mod (ceil - floor + 1).
Proof.
  intros Hc. induction n as [|n IH].
  - simpl. rewrite Z.add_0_r, Z.mod_small by lia. lia.
  - rewrite Nat.iter_succ, IH. rewrite next_offset.
    + replace (floor + _ - floor + 1) with
        ((c - floor + Z.of_nat n) mod (ceil - floor + 1) + 1) by lia.
      rewrite Zplus_mod_idemp_l. do 2 f_equal. lia.
    + pose proof (Z.mod_pos_bound (c - floor + Z.of_nat n) (ceil - floor + 1)). lia.
Qed.

(** From anywhere, one trip per assignable number reaches every one of them. *)
Lemma next_reaches from k : floor <= k <= ceil ->
  exists n, (n < Z.to_nat (ceil - floor + 1))%nat /\ Nat.iter (S n) next from = k.
Proof.
  intros Hk. pose proof (next_range from) as Hr.
  set (w := ceil - floor + 1) in *.
  exists (Z.to_nat ((k - next from) mod w)).
  pose proof (Z.mod_pos_bound (k - next from) w ltac:(lia)) as Hm. split; [lia|].
  rewrite Nat.iter_succ_r, iter_next_offset by done. fold w. rewrite Z2Nat.id by lia.
  rewrite Zplus_mod_idemp_r.
  replace (next from - floor + (k - next from)) with (k - floor) by lia.
  rewrite Z.mod_small by lia. lia.
Qed.

Definition taken (k : Z) : Prop := is_Some (outstanding !! k).

Abbreviation body := (fun candidate =>
  match outstanding !! next candidate with
  | None => inr (next candidate)
  | Some _ => inl (next candidate)
  end).

Lemma search_spec n from :
  match loop_nat body n from with
  | inr k => exists i, (i < n)%nat /\ k = Nat.iter (S i) next from /\ outstanding !! k = None /\
                       forall j, (j < i)%nat -> taken (Nat.iter (S j) next from)
  | inl k => forall j, (j < n)%nat -> taken (Nat.iter (S j) next from)
  end.
Proof.
  revert from. induction n as [|n IH]; intros from; cbn [loop_nat]; [intros j Hj; lia|].
  destruct (outstanding !! next from) as [r|] eqn:Ho.
  - specialize (IH (next from)).
    assert (H0 : forall j, (forall j', (j' < j)%nat -> taken (Nat.iter (S j') next (next from))) ->
              forall j', (j' < S j)%nat -> taken (Nat.iter (S j') next from)).
    { intros j Hj [|j'] Hlt; [by exists r|].
      rewrite Nat.iter_succ_r. apply Hj. lia. }
    destruct (loop_nat body n (next from)).
    + apply H0, IH.
    + destruct IH as (i & Hi & -> & Hk & Hj). exists (S i). split; [lia|].
      split; [by rewrite (Nat.iter_succ_r (S i))|]. split; [done|]. by apply H0.
  - exists O. split; [lia|]. split; [done|]. split; [done|]. intros j Hj. lia.
Qed.
End Allocator.

(** The number found is in the range and free, and it is the first such in cyclic order after
    [from]; none is found exactly when the whole range is outstanding. The range must not be
    all of [uint32], whose trip count wraps to zero. *)
Lemma nextFree_spec outstanding from floor ceil :
  0 <= floor -> floor <= ceil < 2 ^ 32 -> ceil - floor + 1 < 2 ^ 32 ->
  match nextFreeRelaySequence outstanding from floor ceil with
  | Some k => floor <= k <= ceil /\ outstanding !! k = None /\
              exists i, k = Nat.iter (S i) (nextRelaySequence floor ceil) from /\
                forall j, (j < i)%nat ->
                  is_Some (outstanding !! Nat.iter (S j) (nextRelaySequence floor ceil) from)
  | None => forall k, floor <= k <= ceil -> is_Some (outstanding !! k)
  end.
Proof.
  intros Hf Hc Hw. unfold nextFreeRelaySequence. rewrite u32_small by lia.
  rewrite for_range_nat.
  pose proof (search_spec outstanding floor ceil Hf Hc (Z.to_nat (ceil - floor + 1)) from) as Hs.
  cbv zeta. destruct (loop_nat _ _ from).
  - intros k Hk. destruct (next_reaches floor ceil Hf Hc from k Hk) as (n & Hn & <-).
    by apply Hs.
  - destruct Hs as (i & Hi & -> & Hk & Hj). split; [by apply next_range|].
    split; [done|]. exists i. split; [done|]. exact Hj.
Qed.

Lemma nextFree_live outstanding from k :
  nextFreeRelaySequence outstanding from relaySequenceFloor relaySequenceCeil = Some k ->
  relaySequenceFloor <= k <= relaySequenceCeil /\ outstanding !! k = None.
Proof.
  intros Heq. pose proof (nextFree_spec outstanding from relaySequenceFloor relaySequenceCeil) as Hs.
  rewrite Heq in Hs. unfold relaySequenceFloor, relaySequenceCeil in *.
  destruct Hs as (? & ? & _); lia || done.
Qed.

(** ** The two tables: lemmas *)

Lemma relaysByHost_record k r st h :
  relaysByHost (recordRelayLocked k r st) !! h =
    if decide (hostOf (upfAddr r) = h) then Some ({[k]} ∪ bucket h (relaysByHost st))
    else relaysByHost st !! h.
Proof.
  unfold recordRelayLocked, bucket. simpl. rewrite lookup_insert. case_decide as Hh.
  - subst h. destruct (relaysByHost st !! hostOf (upfAddr r)) as [b|] eqn:Hb;
      rewrite ?Hb, ?lookup_insert_eq; done.
  - destruct (relaysByHost st !! hostOf (upfAddr r)); by rewrite ?lookup_insert_ne.
Qed.

Lemma bucket_record k r st h :
  bucket h (relaysByHost (recordRelayLocked k r st)) =
    if decide (hostOf (upfAddr r) = h) then {[k]} ∪ bucket h (relaysByHost st)
    else bucket h (relaysByHost st).
Proof. unfold bucket at 1. rewrite relaysByHost_record. by case_decide. Qed.

Lemma reportRelays_drop k st : reportRelays (dropRelayLocked k st) = delete k (reportRelays st).
Proof.
  unfold dropRelayLocked. destruct (reportRelays st !! k) eqn:Hk; [done|].
  by rewrite delete_id.
Qed.

Lemma relaysByHost_drop k r st h :
  reportRelays st !! k = Some r ->
  relaysByHost (dropRelayLocked k st) !! h =
    if decide (hostOf (upfAddr r) = h) then
      (if decide (bucket h (relaysByHost st) ∖ {[k]} = ∅) then None
       else Some (bucket h (relaysByHost st) ∖ {[k]}))
    else relaysByHost st !! h.
Proof.
  intros Hk. unfold dropRelayLocked. rewrite Hk. simpl.
  set (host := hostOf (upfAddr r)). unfold bucket.
  destruct (relaysByHost st !! host) as [b|] eqn:Hb; simpl.
  - rewrite lookup_insert_eq. cbn [default].
    destruct (decide (host = h)) as [<-|Hne].
    + rewrite Hb. cbn [default]. destruct (decide (size _ = 0%nat)) as [Hs|Hs].
      * rewrite decide_True by by apply gset_size_0. apply lookup_delete_eq.
      * rewrite decide_False by by rewrite <- gset_size_0. apply lookup_insert_eq.
    + case_decide; rewrite ?lookup_delete_ne, lookup_insert_ne by done; done.
  - rewrite Hb. cbn [default]. rewrite decide_True by by apply gset_size_0.
    destruct (decide (host = h)) as [<-|Hne].
    + rewrite Hb. simpl. rewrite decide_True by set_solver. apply lookup_delete_eq.
    + by rewrite lookup_delete_ne.
Qed.

Lemma bucket_drop k r st h :
  reportRelays st !! k = Some r ->
  bucket h (relaysByHost (dropRelayLocked k st)) =
    if decide (hostOf (upfAddr r) = h) then bucket h (relaysByHost st) ∖ {[k]}
    else bucket h (relaysByHost st).
Proof.
  intros Hk. unfold bucket at 1. rewrite (relaysByHost_drop k r) by done.
  repeat case_decide; done.
Qed.

Lemma drop_None k st : reportRelays st !! k = None -> dropRelayLocked k st = st.
Proof. intros Hk. unfold dropRelayLocked. by rewrite Hk. Qed.

(** Dropping leaves the counters alone. *)
Lemma drop_rest k st :
  relayGenerations (dropRelayLocked k st) = relayGenerations st /\
  reportRelaySeq (dropRelayLocked k st) = reportRelaySeq st /\
  lastRelaySweep (dropRelayLocked k st) = lastRelaySweep st.
Proof. unfold dropRelayLocked. by destruct (reportRelays st !! k). Qed.

(** *** The invariant of the tables *)

(** The index names, under each address, exactly the entries that address raised, and holds no
    empty bucket. *)
Definition indexed (m : gmap Z reportRelay) (ix : gmap string (gset Z)) : Prop :=
  (forall h k, k ∈ bucket h ix <-> exists r, m !! k = Some r /\ hostOf (upfAddr r) = h) /\
  (forall h, ix !! h <> Some ∅).

Definition index_ok (st : Relays) : Prop := indexed (reportRelays st) (relaysByHost st).

Lemma index_sound st h k :
  index_ok st -> k ∈ bucket h (relaysByHost st) -> is_Some (reportRelays st !! k).
Proof. intros [Hix _] Hk. apply Hix in Hk as (r & Hr & _). by exists r. Qed.

(** The index is a function of the table. *)
Lemma indexed_unique m ix1 ix2 : indexed m ix1 -> indexed m ix2 -> ix1 = ix2.
Proof.
  intros [H1 He1] [H2 He2]. apply map_eq. intros h.
  assert (Hb : bucket h ix1 = bucket h ix2) by (apply set_eq; intros k; by rewrite H1, H2).
  unfold bucket in Hb. specialize (He1 h). specialize (He2 h).
  destruct (ix1 !! h), (ix2 !! h); simpl in Hb; naive_solver.
Qed.

Lemma index_init : index_ok initRelays.
Proof.
  split; simpl; [|done]. intros h k. unfold bucket. rewrite lookup_empty. simpl.
  split; [set_solver|]. by intros (r & Hr & _).
Qed.

Lemma index_record k r st :
  reportRelays st !! k = None -> index_ok st -> index_ok (recordRelayLocked k r st).
Proof.
  intros Hk [Hix He]. split.
  - intros h k'. rewrite bucket_record. change (reportRelays (recordRelayLocked k r st))
      with (<[k := r]> (reportRelays st)). rewrite lookup_insert.
    destruct (decide (k = k')) as [<-|Hne].
    + split.
      * case_decide as Hh; [intros _; by exists r|].
        rewrite Hix, Hk. by intros (? & ? & _).
      * intros (r' & Hr' & Hh). simplify_eq. rewrite decide_True by done. set_solver.
    + rewrite <- (Hix h k'). case_decide; set_solver.
  - intros h. rewrite relaysByHost_record. case_decide; [|apply He].
    intros [= Heq]. set_solver.
Qed.

Lemma index_drop k st : index_ok st -> index_ok (dropRelayLocked k st).
Proof.
  intros [Hix He]. destruct (reportRelays st !! k) as [r|] eqn:Hk; [|by rewrite drop_None].
  split.
  - intros h k'. rewrite (bucket_drop k r) by done. rewrite reportRelays_drop, lookup_delete.
    specialize (Hix h k'). destruct (decide (k = k')) as [<-|Hne].
    + split; [|by intros (? & ? & _)]. case_decide as Hh; [set_solver|].
      rewrite Hix, Hk. intros (? & [= <-] & ?). done.
    + rewrite <- Hix. case_decide; set_solver.
  - intros h. rewrite (relaysByHost_drop k r) by done. repeat case_decide; [done| |apply He].
    by intros [= ?].
Qed.

(** Changing what an entry says, but not where it came from, leaves the index right. *)
Lemma index_update k r r' st :
  reportRelays st !! k = Some r -> hostOf (upfAddr r') = hostOf (upfAddr r) ->
  index_ok st -> index_ok (set_tables (<[k := r']> (reportRelays st)) (relaysByHost st) st).
Proof.
  intros Hk Hh [Hix He]. split; [|done]. simpl. intros h k'. rewrite Hix, lookup_insert.
  case_decide; [subst k'|done]. rewrite Hk. naive_solver.
Qed.

#[export] Hint Resolve index_init index_drop index_record : go.

(** *** Dropping many entries *)

Definition liveAt (now : Time) (r : reportRelay) : Prop := now - recorded r <= reportRelayLifetime.

#[export] Instance liveAt_dec now r : Decision (liveAt now r).
Proof. unfold liveAt. apply _. Defined.

Lemma time_Sub_live now r :
  (time_Sub now (recorded r) <=? reportRelayLifetime) = bool_decide (liveAt now r).
Proof.
  unfold liveAt. case_bool_decide as Hl; rewrite <- time_Sub_le in Hl by done; lia.
Qed.

Lemma drops_index (l : list Z) st :
  index_ok st -> index_ok (fold_left (fun st k => dropRelayLocked k st) l st).
Proof. revert st. induction l; simpl; auto with go. Qed.

Lemma drops_lookup (l : list Z) st k :
  reportRelays (fold_left (fun st k => dropRelayLocked k st) l st) !! k =
    if decide (k ∈ l) then None else reportRelays st !! k.
Proof.
  revert st. induction l as [|k' l IH]; intros st; cbn [fold_left].
  - by rewrite decide_False by apply not_elem_of_nil.
  - rewrite IH, reportRelays_drop, lookup_delete.
    destruct (decide (k' = k)) as [->|Hne].
    + rewrite (decide_True (P := k ∈ k :: l)) by by left. by case_decide.
    + destruct (decide (k ∈ l)).
      * by rewrite decide_True by by right.
      * by rewrite decide_False by (rewrite elem_of_cons; naive_solver).
Qed.

Lemma drops_rest (l : list Z) st :
  let st' := fold_left (fun st k => dropRelayLocked k st) l st in
  relayGenerations st' = relayGenerations st /\ reportRelaySeq st' = reportRelaySeq st /\
  lastRelaySweep st' = lastRelaySweep st.
Proof.
  revert st. induction l as [|k l IH]; intros st; cbn [fold_left]; [done|].
  destruct (IH (dropRelayLocked k st)) as (-> & -> & ->). apply drop_rest.
Qed.

Section Sweep.
Context `{!MapRange string, !MapRange Z}.

Lemma expire_fold now l st :
  fold_left (expireRelay now) l st =
  fold_left (fun st k => dropRelayLocked k st)
            (filter (fun kv : Z * reportRelay => ~ liveAt now kv.2) l).*1 st.
Proof.
  revert st. induction l as [|[k r] l IH]; intros st; [done|]. cbn [fold_left].
  rewrite IH. unfold expireRelay. cbn [fst snd]. rewrite time_Sub_live, filter_cons. simpl.
  case_bool_decide; case_decide; done.
Qed.

Lemma sweep_lookup now st k :
  index_ok st -> relaySweepInterval <= now - lastRelaySweep st ->
  reportRelays (sweepRelaysLocked now st) !! k =
    match reportRelays st !! k with
    | Some r => if decide (liveAt now r) then Some r else None
    | None => None
    end.
Proof.
  intros Hix Hdue. unfold sweepRelaysLocked.
  destruct (time_Sub now _ <? _) eqn:Ht.
  { apply Z.ltb_lt in Ht. rewrite time_Sub_lt in Ht by done. lia. }
  rewrite expire_fold, drops_lookup. cbn [set_generations set_lastSweep reportRelays].
  destruct (decide (k ∈ _)) as [Hin|Hnin].
  - apply list_elem_of_fmap in Hin as ([k' r] & -> & Hin).
    apply list_elem_of_filter in Hin as [Hd Hin]. apply elem_of_range in Hin. simpl in *.
    rewrite Hin. by rewrite decide_False.
  - destruct (reportRelays st !! k) as [r|] eqn:Hk; [|done].
    case_decide as Hl; [done|]. exfalso. apply Hnin, list_elem_of_fmap.
    exists (k, r). split; [done|]. apply list_elem_of_filter. split; [done|].
    by apply elem_of_range.
Qed.

Lemma sweep_closed now st :
  now - lastRelaySweep st < relaySweepInterval -> sweepRelaysLocked now st = st.
Proof.
  intros Hc. unfold sweepRelaysLocked. rewrite <- time_Sub_lt in Hc by done.
  apply Z.ltb_lt in Hc. by rewrite Hc.
Qed.

Lemma sweep_index now st : index_ok st -> index_ok (sweepRelaysLocked now st).
Proof.
  intros Hix. unfold sweepRelaysLocked. case_match; [done|].
  rewrite expire_fold. by apply drops_index.
Qed.

(** The sweep removes nothing that is live, and adds nothing. *)
Lemma sweep_keeps now st k r :
  reportRelays st !! k = Some r -> liveAt now r ->
  reportRelays (sweepRelaysLocked now st) !! k = Some r.
Proof.
  intros Hk Hl. unfold sweepRelaysLocked. case_match; [done|].
  rewrite expire_fold, drops_lookup. cbn [set_generations set_lastSweep reportRelays].
  rewrite decide_False; [done|]. intros ([k' r'] & -> & Hin)%list_elem_of_fmap.
  apply list_elem_of_filter in Hin as [Hd Hin]. apply elem_of_range in Hin. simpl in *.
  naive_solver.
Qed.

Lemma sweep_sub now st k r :
  reportRelays (sweepRelaysLocked now st) !! k = Some r -> reportRelays st !! k = Some r.
Proof.
  unfold sweepRelaysLocked. case_match; [done|].
  rewrite expire_fold, drops_lookup. by case_decide.
Qed.

Lemma sweep_seq now st : reportRelaySeq (sweepRelaysLocked now st) = reportRelaySeq st.
Proof.
  unfold sweepRelaysLocked. case_match; [done|].
  rewrite expire_fold. by edestruct drops_rest as (_ & -> & _).
Qed.

Lemma sweep_generations now st a :
  relayGenerations (sweepRelaysLocked now st) !! a =
    if decide (now - lastRelaySweep st < relaySweepInterval) then relayGenerations st !! a
    else match relayGenerations st !! a with
         | Some g => if decide (reportRelayLifetime < now - releasedAt g) then None else Some g
         | None => None
         end.
Proof.
  case_decide as Hc; [by rewrite sweep_closed|].
  unfold sweepRelaysLocked. rewrite <- time_Sub_lt in Hc by done.
  destruct (time_Sub now _ <? _) eqn:Ht; [apply Z.ltb_lt in Ht; lia|].
  rewrite expire_fold.
  edestruct drops_rest as (-> & _ & _). cbn [set_generations set_lastSweep relayGenerations].
  unfold expireGeneration.
  rewrite (fold_delete_filter (fun kv => reportRelayLifetime <? time_Sub now (releasedAt kv.2)))
    by apply range_perm.
  destruct (relayGenerations st !! a) as [g|] eqn:Hg.
  - pose proof (time_Sub_le now (releasedAt g) reportRelayLifetime ltac:(done)) as Hs.
    case_decide as Hl.
    + apply map_lookup_filter_None. right. intros g' Hg' Hf. simplify_eq.
      cbn [snd] in Hf. apply Z.ltb_ge in Hf. lia.
    + apply map_lookup_filter_Some. split; [done|]. cbn [snd]. apply Z.ltb_ge. lia.
  - apply map_lookup_filter_None. by left.
Qed.
End Sweep.

(** ** Recognising a retransmission: lemmas *)

(** The entry was raised by this peer under this number; a peer is an address and a port. *)
Definition sameReport (addr : UDPAddr) (seq : Z) (r : reportRelay) : Prop :=
  hostOf (upfAddr r) = hostOf addr /\ UDPAddr.Port (upfAddr r) = UDPAddr.Port addr /\
  upfSeq r = seq.

#[export] Instance sameReport_dec addr seq r : Decision (sameReport addr seq r).
Proof. unfold sameReport. apply _. Defined.

Section Search.
Context `{!MapRange string, !MapRange Z}.

Lemma matches_true addr seq now st k :
  matches addr seq now st k = true <->
  exists r, reportRelays st !! k = Some r /\ upfSeq r = seq /\
    UDPAddr.Port (upfAddr r) = UDPAddr.Port addr /\ liveAt now r.
Proof.
  unfold matches. destruct (reportRelays st !! k) as [r|]; [|naive_solver].
  rewrite time_Sub_live, !andb_true_iff, !bool_decide_eq_true. naive_solver.
Qed.

(** Searching one address's bucket answers for the whole table. *)
Lemma relayFromLocked_spec addr seq now st :
  index_ok st ->
  match relayFromLocked addr seq now st with
  | Some k => exists r, reportRelays st !! k = Some r /\ sameReport addr seq r /\ liveAt now r
  | None => forall k r, reportRelays st !! k = Some r -> sameReport addr seq r -> ~ liveAt now r
  end.
Proof.
  intros [Hix _]. unfold relayFromLocked. destruct (find _ _) as [k|] eqn:Hf.
  - apply find_some in Hf as [Hin Hm]. rewrite <- list_elem_of_In, elem_of_range_set in Hin.
    apply matches_true in Hm as (r & Hr & Hs & Hp & Hl). exists r. split; [done|].
    apply Hix in Hin as (r' & Hr' & Hh). unfold sameReport. naive_solver.
  - intros k r Hr (Hh & Hp & Hs) Hl. eapply find_none in Hf.
    + apply not_true_iff_false in Hf. apply Hf, matches_true. eauto.
    + rewrite <- list_elem_of_In, elem_of_range_set. apply Hix. eauto.
Qed.
End Search.

(** *** The invariant of the component *)

(** Two entries for one report were recorded more than a lifetime apart, so at no moment at or
    after both is more than one of them live. *)
Definition one_claim (m : gmap Z reportRelay) : Prop :=
  forall k1 k2 r1 r2 addr seq,
    m !! k1 = Some r1 -> m !! k2 = Some r2 -> sameReport addr seq r1 -> sameReport addr seq r2 ->
    k1 <> k2 -> reportRelayLifetime < Z.abs (recorded r1 - recorded r2).

Definition in_range (k : Z) : Prop := relaySequenceFloor <= k <= relaySequenceCeil.

Record relay_inv (st : Relays) : Prop := {
  inv_index : index_ok st;
  inv_range : forall k, is_Some (reportRelays st !! k) -> in_range k;
  inv_claim : one_claim (reportRelays st);
  inv_seq : reportRelaySeq st = 0 \/ in_range (reportRelaySeq st);
}.

Lemma one_claim_sub m m' :
  (forall k r, m' !! k = Some r -> m !! k = Some r) -> one_claim m -> one_claim m'.
Proof. intros Hsub Hm k1 k2 r1 r2 addr seq H1 H2. eauto. Qed.

Lemma relay_inv_init : relay_inv initRelays.
Proof.
  constructor; auto with go; [|done].
  by intros k [r Hr].
Qed.

Lemma relay_inv_drop k st : relay_inv st -> relay_inv (dropRelayLocked k st).
Proof.
  intros [Hix Hr Hc Hs]. constructor; [auto with go| | |].
  - intros k'. rewrite reportRelays_drop, lookup_delete. case_decide; [by intros []|apply Hr].
  - eapply one_claim_sub; [|exact Hc]. intros k' r. rewrite reportRelays_drop, lookup_delete.
    by case_decide.
  - by destruct (drop_rest k st) as (_ & -> & _).
Qed.

Lemma relay_inv_drops l st :
  relay_inv st -> relay_inv (fold_left (fun st k => dropRelayLocked k st) l st).
Proof. revert st. induction l; simpl; auto using relay_inv_drop. Qed.

(** Adding an entry under a free number, when every entry for its report is at least a
    lifetime older or younger. *)
Lemma relay_inv_record k r st :
  relay_inv st -> in_range k -> reportRelays st !! k = None ->
  (forall k' r', reportRelays st !! k' = Some r' ->
     sameReport (upfAddr r) (upfSeq r) r' -> reportRelayLifetime < Z.abs (recorded r - recorded r')) ->
  relay_inv (recordRelayLocked k r (set_seq k st)).
Proof.
  intros [Hix Hr Hc Hs] Hk Hfree Hfar. constructor; [by apply index_record| | |by right].
  - intros k'. simpl. rewrite lookup_insert. case_decide; [by subst|apply Hr].
  - assert (Hnew : forall k' r' addr seq, reportRelays st !! k' = Some r' ->
      sameReport addr seq r -> sameReport addr seq r' ->
      reportRelayLifetime < Z.abs (recorded r - recorded r')).
    { intros k' r' addr seq Hk' (Ha1 & Ha2 & Ha3) (Hb1 & Hb2 & Hb3).
      apply (Hfar k' r' Hk'). split_and!; congruence. }
    intros k1 k2 r1 r2 addr seq. simpl. rewrite !lookup_insert.
    do 2 case_decide; intros Hl1 Hl2 HS1 HS2 Hne; simplify_eq; eauto.
    rewrite <- Z.abs_opp. replace (- (recorded r1 - recorded r2)) with (recorded r2 - recorded r1) by lia.
    eauto.
Qed.

Section Preservation.
Context `{!MapRange string, !MapRange Z}.

Lemma relay_inv_sweep now st : relay_inv st -> relay_inv (sweepRelaysLocked now st).
Proof.
  intros [Hix Hr Hc Hs]. constructor.
  - by apply sweep_index.
  - intros k [r Hk]. apply sweep_sub in Hk. eauto.
  - eapply one_claim_sub; [|exact Hc]. apply sweep_sub.
  - by rewrite sweep_seq.
Qed.

Lemma relay_inv_claim addr seq now gen st :
  relay_inv st -> relay_inv (snd (RelayReportSequence addr seq now gen st)).
Proof.
  intros Hinv. unfold RelayReportSequence. destruct (negb _); [done|].
  apply (relay_inv_sweep now) in Hinv. set (st1 := sweepRelaysLocked now st) in *.
  pose proof (relayFromLocked_spec addr seq now st1 (inv_index _ Hinv)) as Hf.
  destruct (relayFromLocked _ _ _ _); [done|].
  destruct (nextFreeRelaySequence _ _ _ _) as [k|] eqn:Hn; [|done]. simpl.
  apply nextFree_live in Hn as [Hk Hfree]. apply relay_inv_record; try done. simpl.
  intros k' r' Hk' Hs. specialize (Hf k' r' Hk' Hs). unfold liveAt in Hf. lia.
Qed.

Lemma relay_inv_renumber k st : relay_inv st -> relay_inv (snd (RenumberReportRelay k st)).
Proof.
  intros Hinv. unfold RenumberReportRelay. destruct (reportRelays st !! k) as [r|] eqn:Hk; [|done].
  destruct (nextFreeRelaySequence _ _ _ _) as [k'|] eqn:Hn; [|done]. simpl.
  apply nextFree_live in Hn as [Hk' Hfree]. apply relay_inv_record; try done.
  - by apply relay_inv_drop.
  - rewrite reportRelays_drop, lookup_delete. by case_decide.
  - intros k2 r2. rewrite reportRelays_drop, lookup_delete. case_decide; [done|].
    intros Hk2 Hs. eapply (inv_claim _ Hinv k k2); eauto. by split_and!.
Qed.

Lemma relay_inv_release a now st : relay_inv st -> relay_inv (ForgetRelaysForHost a now st).
Proof.
  intros Hinv. unfold ForgetRelaysForHost. apply relay_inv_drops.
  by destruct Hinv; constructor.
Qed.

Lemma relay_inv_take k now st : relay_inv st -> relay_inv (snd (TakeReportRelay k now st)).
Proof.
  intros [Hix Hr Hc Hs]. unfold TakeReportRelay.
  destruct (reportRelays st !! k) as [r|] eqn:Hk; [|done].
  destruct (answered r); [done|]. case_match; [done|]. simpl.
  constructor; [by eapply index_update| | |done].
  - intros k'. simpl. rewrite lookup_insert. case_decide; [subst; eauto|apply Hr].
  - intros k1 k2 r1 r2 addr seq. simpl. rewrite !lookup_insert. unfold sameReport.
    do 2 case_decide; intros Hl1 Hl2 HS1 HS2 Hne; simplify_eq; simpl in *;
      eapply (Hc k1 k2); eauto.
Qed.
End Preservation.

#[export] Hint Resolve relay_inv_init relay_inv_drop relay_inv_drops relay_inv_sweep
  relay_inv_claim relay_inv_renumber relay_inv_release relay_inv_take : go.

(** *** Taking, on both branches *)

Lemma TakeReportRelay_spec k now st :
  match TakeReportRelay k now st with
  | (Some (addr, seq), st') =>
      exists r, reportRelays st !! k = Some r /\ answered r = false /\ liveAt now r /\
        addr = upfAddr r /\ seq = upfSeq r /\
        reportRelays st' = <[k := mkRelay addr (recorded r) seq true]> (reportRelays st) /\
        relaysByHost st' = relaysByHost st
  | (None, st') =>
      st' = st /\
      forall r, reportRelays st !! k = Some r -> answered r = true \/ ~ liveAt now r
  end.
Proof.
  unfold TakeReportRelay. destruct (reportRelays st !! k) as [r|] eqn:Hk; [|done].
  destruct (answered r) eqn:Ha; [split; [done|]; naive_solver|].
  pose proof (time_Sub_le now (recorded r) reportRelayLifetime ltac:(done)) as Hs.
  unfold liveAt. destruct (_ <? _) eqn:Hl.
  - apply Z.ltb_lt in Hl. split; [done|]. intros r' [= <-]. right. lia.
  - apply Z.ltb_ge in Hl. exists r. split_and!; done || lia.
Qed.
