(* ===== verification/RelayTraces.v ===== *)
(** * RelayTraces: what holds of the relay table along every sequence of operations

    Each exported operation of the relay table runs under [reportRelayMutex], so any
    interleaving of handlers is a sequence of the operations below. The theorems are about all
    such sequences: the table's invariant, one relay per report, one answer per relay, the
    origin returned with the answer, and the effect of releasing an address. *)

From S2P Require Import Prelude GoNet Relay.

#[local] Open Scope string_scope.
#[local] Open Scope list_scope.
#[local] Open Scope Z_scope.

Section Traces.
Context `{!MapRange string, !MapRange Z}.

(** ** Operations as steps *)

Inductive relay_op :=
| Claim (addr : UDPAddr) (seq : Z) (now : Time) (authorisedUnder : Z)
| Renumber (k : Z)
| Release (host : string) (now : Time)
| Take (k : Z) (now : Time)
| Forget (k : Z).

Definition exec (op : relay_op) (st : Relays) : Relays :=
  match op with
  | Claim addr seq now gen => snd (RelayReportSequence addr seq now gen st)
  | Renumber k => snd (RenumberReportRelay k st)
  | Release host now => ForgetRelaysForHost host now st
  | Take k now => snd (TakeReportRelay k now st)
  | Forget k => ForgetReportRelay k st
  end.

Definition exec_all (ops : list relay_op) (st : Relays) : Relays :=
  fold_left (fun st op => exec op st) ops st.

(** The states the adapter can be in. *)
Inductive reachable : Relays -> Prop :=
| reachable_init : reachable initRelays
| reachable_step st op : reachable st -> reachable (exec op st).

Lemma exec_inv op st : relay_inv st -> relay_inv (exec op st).
Proof. destruct op; simpl; auto with go. Qed.

Lemma reachable_relay_inv st : reachable st -> relay_inv st.
Proof. induction 1; auto using exec_inv with go. Qed.

Lemma reachable_exec_all ops st : reachable st -> reachable (exec_all ops st).
Proof. revert st. induction ops; simpl; auto using reachable. Qed.

(** The clock readings of an operation are no later than a bound (claims, which sweep) and no earlier
    than a release (releases). *)
Definition within (low high : Time) (op : relay_op) : Prop :=
  match op with
  | Claim _ _ now _ => now <= high
  | Release _ now => low <= now
  | _ => True
  end.

(** ** Following one exchange *)

(** The entry stands for the report [seq] that [addr] raised and that was claimed at [t];
    [f] says what is known about whether it has been claimed for answering. *)
Definition isExchange (addr : UDPAddr) (seq : Z) (t : Time) (f : option bool) (r : reportRelay)
    : Prop :=
  upfAddr r = addr /\ upfSeq r = seq /\ recorded r = t /\
  match f with Some b => answered r = b | None => True end.

Definition holds addr seq t f (st : Relays) : Prop :=
  exists k r, reportRelays st !! k = Some r /\ isExchange addr seq t f r.

(** The operations that may end the exchange, or what is known of it: the claim that sweeps
    it because it has aged out, the release of its peer, forgetting it, and -- while it is
    known to be unanswered -- taking it. *)
Definition ends addr seq t f (op : relay_op) (st : Relays) : Prop :=
  match op with
  | Claim _ _ now _ => t + reportRelayLifetime < now
  | Renumber _ => False
  | Release host _ => host = hostOf addr
  | Take k _ => f = Some false /\ exists r, reportRelays st !! k = Some r /\ isExchange addr seq t f r
  | Forget k => exists r, reportRelays st !! k = Some r /\ isExchange addr seq t f r
  end.

Inductive quietly addr seq t f : Relays -> Relays -> Prop :=
| quietly_refl st : quietly addr seq t f st st
| quietly_step st op st' :
    ~ ends addr seq t f op st ->
    quietly addr seq t f (exec op st) st' ->
    quietly addr seq t f st st'.

Lemma claim_keeps addr seq t f a s now gen st :
  now <= t + reportRelayLifetime -> holds addr seq t f st ->
  holds addr seq t f (snd (RelayReportSequence a s now gen st)).
Proof.
  intros Hnow (k & r & Hk & He). assert (Hl : liveAt now r).
  { destruct He as (_ & _ & Ht & _). unfold liveAt. lia. }
  unfold RelayReportSequence. destruct (negb _); [by exists k, r|].
  apply (sweep_keeps now) in Hk; [|done]. destruct (relayFromLocked _ _ _ _); [by exists k, r|].
  destruct (nextFreeRelaySequence _ _ _ _) as [k'|] eqn:Hn; [|by exists k, r].
  apply nextFree_live in Hn as [_ Hn]. exists k, r. split; [|done]. simpl.
  rewrite lookup_insert_ne; congruence.
Qed.

Lemma renumber_keeps addr seq t f k0 st :
  holds addr seq t f st -> holds addr seq t f (snd (RenumberReportRelay k0 st)).
Proof.
  intros (k & r & Hk & He). unfold RenumberReportRelay.
  destruct (reportRelays st !! k0) as [r0|] eqn:Hk0; [|by exists k, r].
  destruct (nextFreeRelaySequence _ _ _ _) as [k'|] eqn:Hn; [|by exists k, r].
  apply nextFree_live in Hn as [_ Hn]. unfold holds. simpl. rewrite reportRelays_drop.
  destruct (decide (k = k0)) as [->|Hne].
  - exists k', r. split; [|done]. simplify_eq. by rewrite lookup_insert_eq.
  - exists k, r. split; [|done]. rewrite lookup_insert_ne by congruence.
    by rewrite lookup_delete_ne.
Qed.

Lemma release_keeps addr seq t f host now st :
  index_ok st -> host <> hostOf addr -> holds addr seq t f st ->
  holds addr seq t f (ForgetRelaysForHost host now st).
Proof.
  intros [Hix _] Hne (k & r & Hk & He). exists k, r. split; [|done].
  unfold ForgetRelaysForHost. rewrite drops_lookup. simpl.
  rewrite decide_False; [done|]. rewrite elem_of_range_set, Hix.
  intros (r' & Hr' & Hh). destruct He as (Ha & _). congruence.
Qed.

Lemma take_keeps addr seq t f k0 now st :
  ~ ends addr seq t f (Take k0 now) st -> holds addr seq t f st ->
  holds addr seq t f (snd (TakeReportRelay k0 now st)).
Proof.
  intros Hends (k & r & Hk & He). unfold TakeReportRelay.
  destruct (reportRelays st !! k0) as [r0|] eqn:Hk0; [|by exists k, r].
  destruct (answered r0) eqn:Ha; [by exists k, r|]. destruct (_ <? _); [by exists k, r|].
  unfold holds. simpl. destruct (decide (k = k0)) as [->|Hne].
  - simplify_eq. eexists k0, _. split; [by rewrite lookup_insert_eq|].
    destruct He as (H1 & H2 & H3 & H4). split_and!; [done..|]. simpl.
    destruct f as [[]|]; [done| |done]. exfalso. apply Hends. split; [done|].
    exists r. by split.
  - exists k, r. split; [|done]. by rewrite lookup_insert_ne by congruence.
Qed.

Lemma holds_exec addr seq t f op st :
  relay_inv st -> ~ ends addr seq t f op st -> holds addr seq t f st ->
  holds addr seq t f (exec op st).
Proof.
  intros Hinv Hends Hh. destruct op as [a s now gen|k|host now|k now|k]; simpl.
  - apply claim_keeps; [|done]. simpl in Hends. lia.
  - by apply renumber_keeps.
  - by apply release_keeps; [apply Hinv|..].
  - by apply take_keeps.
  - destruct Hh as (k' & r & Hk & He). exists k', r. split; [|done].
    unfold ForgetReportRelay. rewrite reportRelays_drop.
    rewrite lookup_delete_ne; [done|]. intros ->. apply Hends. by exists r.
Qed.

(** An exchange survives any sequence of operations none of which ends it. *)
Lemma holds_quietly addr seq t f st st' :
  quietly addr seq t f st st' -> relay_inv st -> holds addr seq t f st ->
  relay_inv st' /\ holds addr seq t f st'.
Proof. induction 1; auto using exec_inv, holds_exec. Qed.

Lemma claim_holds addr seq t gen st k st' :
  RelayReportSequence addr seq t gen st = (Ok (k, true), st') ->
  reportRelays st' !! k = Some (mkRelay addr t seq false).
Proof.
  unfold RelayReportSequence. destruct (negb _); [done|].
  destruct (relayFromLocked _ _ _ _); [done|].
  destruct (nextFreeRelaySequence _ _ _ _); [|done]. intros [= <- <-]. simpl.
  apply lookup_insert_eq.
Qed.

(** Two entries for the same exchange are one entry. *)
Lemma exchange_unique addr seq t f1 f2 k1 k2 r1 r2 st :
  relay_inv st -> reportRelays st !! k1 = Some r1 -> reportRelays st !! k2 = Some r2 ->
  isExchange addr seq t f1 r1 -> isExchange addr seq t f2 r2 -> k1 = k2.
Proof.
  intros Hinv H1 H2 (Ha1 & Hs1 & Ht1 & _) (Ha2 & Hs2 & Ht2 & _).
  destruct (decide (k1 = k2)) as [|Hne]; [done|].
  pose proof (inv_claim _ Hinv k1 k2 r1 r2 addr seq H1 H2) as Hc.
  rewrite Ht1, Ht2, Z.sub_diag in Hc.
  assert (reportRelayLifetime < 0); [|done].
  apply Hc; [..|done]; split_and!; congruence.
Qed.
End Traces.
