(* ===== verification/RelaySpec.v ===== *)
(** * RelaySpec: what the relay table promises, and that it keeps it

    The contract of the reports in flight, without the table's means: no index by address, no
    cursor, no sweep and its throttle, no order a map is walked in. Which free number a report is
    given is left open, and so is when something that has aged out is forgotten. Every operation of
    [Relay.v] does what the contract allows, with the answers it allows; what follows from the
    contract alone then holds of the program. *)

From S2P Require Import Prelude GoNet Relay RelayTraces.

#[local] Open Scope Z_scope.

(** ** The contract *)

(** A report in flight: who raised it, under which number, since when, and whether its answer is
    being returned. *)
Record exchange := mkExchange { origin : UDPAddr; number : Z; since : Time; taken : bool }.

#[export] Instance exchange_eq_dec : EqDecision exchange.
Proof. solve_decision. Defined.

(** The exchanges by ticket; how often a host has been released, and when last. *)
Record Promises := mkPromises {
  exchanges : gmap Z exchange;
  releases : gmap string (Time * Z);
}.

Definition noPromises : Promises := mkPromises ∅ ∅.

Definition releasesOf (host : string) (s : Promises) : Z := snd (default (0, 0) (releases s !! host)).

Definition aged (now t : Time) : Prop := t + reportRelayLifetime < now.

(** The exchange is of this report: the same host and port, the same number. *)
Definition isReport (addr : UDPAddr) (seq : Z) (x : exchange) : Prop :=
  hostOf (origin x) = hostOf addr /\ UDPAddr.Port (origin x) = UDPAddr.Port addr /\ number x = seq.

(** What may be forgotten of itself: what has aged out. *)
Record lapse (now : Time) (s s' : Promises) : Prop := {
  lapse_exchanges k :
    exchanges s' !! k = exchanges s !! k \/
    (exchanges s' !! k = None /\ exists x, exchanges s !! k = Some x /\ aged now (since x));
  lapse_releases h :
    releases s' !! h = releases s !! h \/
    (releases s' !! h = None /\ exists r, releases s !! h = Some r /\ aged now r.1);
}.

Definition put (k : Z) (x : exchange) (s : Promises) : Promises :=
  mkPromises (<[k := x]> (exchanges s)) (releases s).

Definition end_ (k : Z) (s : Promises) : Promises :=
  mkPromises (delete k (exchanges s)) (releases s).

Definition full (s : Promises) : Prop := forall k, in_range k -> is_Some (exchanges s !! k).

Definition claimed (addr : UDPAddr) (seq : Z) (now : Time) (s : Promises) : Prop :=
  exists k x, exchanges s !! k = Some x /\ isReport addr seq x /\ ~ aged now (since x).

(** What an operation answers. *)
Inductive reply :=
| ofClaim (r : result relayError (Z * bool))
| ofRenumber (r : result relayError Z)
| ofTake (r : option (UDPAddr * Z))
| done_.

(** What each operation may do and answer. *)
Inductive promise : relay_op -> reply -> Promises -> Promises -> Prop :=
| claim_stale addr seq now gen s :
    releasesOf (hostOf addr) s <> gen ->
    promise (Claim addr seq now gen) (ofClaim (Err ErrPeerReleased)) s s
| claim_copy addr seq now gen k x s s' :
    releasesOf (hostOf addr) s = gen -> lapse now s s' ->
    exchanges s' !! k = Some x -> isReport addr seq x -> ~ aged now (since x) ->
    promise (Claim addr seq now gen) (ofClaim (Ok (k, false))) s s'
| claim_fresh addr seq now gen k s s' :
    releasesOf (hostOf addr) s = gen -> ~ claimed addr seq now s -> lapse now s s' ->
    in_range k -> exchanges s' !! k = None ->
    promise (Claim addr seq now gen) (ofClaim (Ok (k, true))) s
      (put k (mkExchange addr seq now false) s')
| claim_full addr seq now gen s s' :
    releasesOf (hostOf addr) s = gen -> ~ claimed addr seq now s -> lapse now s s' -> full s' ->
    promise (Claim addr seq now gen) (ofClaim (Err ErrRelaySequenceExhausted)) s s'
| renumber_unknown k s :
    exchanges s !! k = None -> promise (Renumber k) (ofRenumber (Err ErrRelayNotHeld)) s s
| renumber_full k s :
    is_Some (exchanges s !! k) -> full s ->
    promise (Renumber k) (ofRenumber (Err ErrRelaySequenceExhausted)) s s
| renumber_moved k k' x s :
    exchanges s !! k = Some x -> in_range k' -> exchanges s !! k' = None ->
    promise (Renumber k) (ofRenumber (Ok k')) s (put k' x (end_ k s))
| release_host host now s :
    promise (Release host now) done_ s
      (mkPromises (filter (fun kx => hostOf (origin kx.2) <> host) (exchanges s))
         (<[host := (now, u64 (releasesOf host s + 1))]> (releases s)))
| take_first k now x s :
    exchanges s !! k = Some x -> taken x = false -> ~ aged now (since x) ->
    promise (Take k now) (ofTake (Some (origin x, number x))) s
      (put k (mkExchange (origin x) (number x) (since x) true) s)
| take_none k now s :
    (forall x, exchanges s !! k = Some x -> taken x = true \/ aged now (since x)) ->
    promise (Take k now) (ofTake None) s s
| forget k s : promise (Forget k) done_ s (end_ k s).

(** Operations and answers one after the other. *)
Inductive promises : list (relay_op * reply) -> Promises -> Promises -> Prop :=
| promises_nil s : promises [] s s
| promises_cons op r ops s s1 s2 :
    promise op r s s1 -> promises ops s1 s2 -> promises ((op, r) :: ops) s s2.

(** ** The table keeps it *)

Definition exchangeOf (r : reportRelay) : exchange :=
  mkExchange (upfAddr r) (upfSeq r) (recorded r) (answered r).

Definition promisesOf (st : Relays) : Promises :=
  mkPromises (exchangeOf <$> reportRelays st)
             ((fun g => (releasedAt g, count g)) <$> relayGenerations st).
#[local] Arguments promisesOf : simpl never.

Section Refinement.
Context `{!MapRange string, !MapRange Z}.

(** What an operation of the table answers. *)
Definition answer (op : relay_op) (st : Relays) : reply :=
  match op with
  | Claim addr seq now gen => ofClaim (fst (RelayReportSequence addr seq now gen st))
  | Renumber k => ofRenumber (fst (RenumberReportRelay k st))
  | Take k now => ofTake (fst (TakeReportRelay k now st))
  | Release _ _ | Forget _ => done_
  end.

Fixpoint answers (ops : list relay_op) (st : Relays) : list (relay_op * reply) :=
  match ops with
  | [] => []
  | op :: ops => (op, answer op st) :: answers ops (exec op st)
  end.

Lemma promises_lookup st k : exchanges (promisesOf st) !! k = exchangeOf <$> reportRelays st !! k.
Proof. apply lookup_fmap. Qed.

Lemma promises_releases h st : releasesOf h (promisesOf st) = RelayGeneration h st.
Proof.
  unfold releasesOf, RelayGeneration, promisesOf. simpl releases. rewrite lookup_fmap.
  by destruct (relayGenerations st !! h).
Qed.

Lemma promises_eq (s s' : Promises) :
  (forall k, exchanges s !! k = exchanges s' !! k) -> (forall h, releases s !! h = releases s' !! h) ->
  s = s'.
Proof.
  destruct s as [x r], s' as [x' r']. simpl. intros Hx Hr. f_equal; by apply map_eq.
Qed.

Lemma aged_live now r : aged now (since (exchangeOf r)) <-> ~ liveAt now r.
Proof. unfold aged, liveAt. simpl. lia. Qed.

Lemma sweep_lapses now st :
  index_ok st -> lapse now (promisesOf st) (promisesOf (sweepRelaysLocked now st)).
Proof.
  intros Hix. destruct (decide (now - lastRelaySweep st < relaySweepInterval)) as [Hc|Hc].
  { rewrite sweep_closed by done. split; by left. }
  split; [intros k|intros h].
  - rewrite !promises_lookup, sweep_lookup by (done || lia).
    destruct (reportRelays st !! k) as [r|]; [|by left]. case_decide as Hl; [by left|right].
    split; [done|]. exists (exchangeOf r). split; [done|]. by apply aged_live.
  - unfold promisesOf. simpl. rewrite !lookup_fmap, sweep_generations, decide_False by done.
    destruct (relayGenerations st !! h) as [g|]; [|by left]. case_decide as Hl; [right|by left].
    split; [done|]. eexists. split; [done|]. unfold aged. simpl. lia.
Qed.

Lemma sameReport_isReport addr seq r : sameReport addr seq r <-> isReport addr seq (exchangeOf r).
Proof. done. Qed.

Lemma promises_full st :
  (forall k, in_range k -> is_Some (reportRelays st !! k)) -> full (promisesOf st).
Proof. intros Hf k Hk. rewrite promises_lookup. apply fmap_is_Some. auto. Qed.

Lemma promises_record k r st :
  promisesOf (recordRelayLocked k r (set_seq k st)) = put k (exchangeOf r) (promisesOf st).
Proof.
  apply promises_eq; [|done]. intros k'. unfold promisesOf. simpl. by rewrite fmap_insert.
Qed.

Lemma promises_drop k st : promisesOf (dropRelayLocked k st) = end_ k (promisesOf st).
Proof.
  apply promises_eq; intros k'; unfold promisesOf; simpl.
  - by rewrite reportRelays_drop, fmap_delete.
  - by destruct (drop_rest k st) as (-> & _).
Qed.

Lemma nextFree_full st :
  nextFreeRelaySequence (reportRelays st) (reportRelaySeq st) relaySequenceFloor relaySequenceCeil = None ->
  full (promisesOf st).
Proof.
  intros Hn. pose proof (nextFree_spec (reportRelays st) (reportRelaySeq st)
    relaySequenceFloor relaySequenceCeil ltac:(done) ltac:(done) ltac:(done)) as Hs.
  rewrite Hn in Hs. by apply promises_full.
Qed.

Lemma claim_kept addr seq now gen st :
  relay_inv st ->
  promise (Claim addr seq now gen) (answer (Claim addr seq now gen) st) (promisesOf st)
    (promisesOf (exec (Claim addr seq now gen) st)).
Proof.
  intros Hinv. simpl. unfold RelayReportSequence.
  destruct (RelayGeneration (hostOf addr) st =? gen) eqn:Hg; simpl.
  2:{ apply Z.eqb_neq in Hg. apply claim_stale. by rewrite promises_releases. }
  apply Z.eqb_eq in Hg. rewrite <- promises_releases in Hg.
  pose proof (sweep_lapses now st (inv_index _ Hinv)) as Hl.
  pose proof (relay_inv_sweep now st Hinv) as Hinv'.
  pose proof (relayFromLocked_spec addr seq now _ (inv_index _ Hinv')) as Hf.
  destruct (relayFromLocked _ _ _ _) as [k|].
  { simpl. destruct Hf as (r & Hr & Hs & Hlv). eapply claim_copy; [done|done|by rewrite promises_lookup, Hr|done|].
    rewrite aged_live. tauto. }
  assert (Hnc : ~ claimed addr seq now (promisesOf st)).
  { intros (k & x & Hk & Hx & Ha). rewrite promises_lookup in Hk.
    apply fmap_Some in Hk as (r & Hr & ->). rewrite aged_live in Ha.
    apply (Hf k r); [|done|]; [apply sweep_keeps|]; try done; destruct (decide (liveAt now r)); tauto. }
  destruct (nextFreeRelaySequence _ _ _ _) as [k|] eqn:Hn; simpl.
  - rewrite promises_record. apply nextFree_live in Hn as [Hk Hfree].
    apply claim_fresh; [done..|]. by rewrite promises_lookup, Hfree.
  - apply claim_full; [done..|]. by apply nextFree_full.
Qed.

Lemma renumber_kept k st :
  promise (Renumber k) (answer (Renumber k) st) (promisesOf st) (promisesOf (exec (Renumber k) st)).
Proof.
  simpl. unfold RenumberReportRelay. destruct (reportRelays st !! k) as [r|] eqn:Hk; simpl.
  - destruct (nextFreeRelaySequence _ _ _ _) as [k'|] eqn:Hn; simpl.
    + rewrite promises_record, promises_drop. apply nextFree_live in Hn as [Hk' Hfree].
      apply renumber_moved; [by rewrite promises_lookup, Hk|done|by rewrite promises_lookup, Hfree].
    + apply renumber_full; [by rewrite promises_lookup, Hk; eexists|by apply nextFree_full].
  - apply renumber_unknown. by rewrite promises_lookup, Hk.
Qed.

Lemma release_kept host now st :
  index_ok st ->
  promise (Release host now) done_ (promisesOf st) (promisesOf (exec (Release host now) st)).
Proof.
  intros Hix. simpl. eapply (eq_rect _ (promise _ _ _)); [apply release_host|].
  rewrite promises_releases. apply promises_eq; unfold ForgetRelaysForHost, promisesOf; simpl.
  - intros k. rewrite lookup_fmap, drops_lookup. simpl. rewrite map_lookup_filter, lookup_fmap.
    destruct (reportRelays st !! k) as [r|] eqn:Hk; simpl; [|by case_decide].
    assert (Hin : k ∈ range_set (bucket host (relaysByHost st)) <-> hostOf (upfAddr r) = host).
    { rewrite elem_of_range_set, (proj1 Hix). split; [intros (r' & ? & ?); congruence|eauto]. }
    destruct (decide (hostOf (upfAddr r) = host)) as [He|He].
    + rewrite decide_True by by apply Hin. by rewrite option_guard_False by tauto.
    + rewrite decide_False by by rewrite Hin. by rewrite option_guard_True.
  - intros h. edestruct drops_rest as (-> & _ & _). simpl. by rewrite fmap_insert.
Qed.

Lemma take_kept k now st :
  promise (Take k now) (answer (Take k now) st) (promisesOf st) (promisesOf (exec (Take k now) st)).
Proof.
  simpl. unfold TakeReportRelay. destruct (reportRelays st !! k) as [r|] eqn:Hk.
  2:{ simpl. apply take_none. intros x. by rewrite promises_lookup, Hk. }
  assert (Hx : exchanges (promisesOf st) !! k = Some (exchangeOf r)) by by rewrite promises_lookup, Hk.
  destruct (answered r) eqn:Ha.
  { simpl. apply take_none. rewrite Hx. intros x [= <-]. by left. }
  pose proof (time_Sub_le now (recorded r) reportRelayLifetime ltac:(done)) as Hs.
  destruct (reportRelayLifetime <? time_Sub now (recorded r)) eqn:Hl.
  - apply Z.ltb_lt in Hl. simpl. apply take_none. rewrite Hx. intros x [= <-]. right. unfold aged. simpl. lia.
  - apply Z.ltb_ge in Hl. simpl. eapply (eq_rect _ (promise _ _ _)).
    + apply (take_first _ _ (exchangeOf r)); [done|done|]. unfold aged. simpl. lia.
    + apply promises_eq; [|done]. intros k'. unfold promisesOf. simpl. by rewrite fmap_insert.
Qed.

Lemma exec_kept op st :
  relay_inv st -> promise op (answer op st) (promisesOf st) (promisesOf (exec op st)).
Proof.
  intros Hinv. destruct op as [a s now gen|k|host now|k now|k].
  - by apply claim_kept.
  - apply renumber_kept.
  - by apply release_kept, Hinv.
  - apply take_kept.
  - simpl. unfold ForgetReportRelay. rewrite promises_drop. apply forget.
Qed.

Lemma execs_kept ops st :
  relay_inv st -> promises (answers ops st) (promisesOf st) (promisesOf (exec_all ops st)).
Proof.
  revert st. induction ops as [|op ops IH]; intros st Hinv; [constructor|].
  eapply promises_cons; [by apply exec_kept|]. apply (IH (exec op st)). by apply exec_inv.
Qed.
End Refinement.

(** ** What follows from the contract *)

Section Counting.
Context (addr : UDPAddr) (seq : Z).

Definition awaits (x : exchange) : Prop := origin x = addr /\ number x = seq /\ taken x = false.

#[export] Instance awaits_dec x : Decision (awaits x).
Proof. unfold awaits. apply _. Defined.

(** Of this report, the exchanges whose answer has not been returned. *)
Definition waiting (s : Promises) : nat := size (filter (fun kx => awaits kx.2) (exchanges s)).

Definition counted (P : Prop) `{Decision P} : nat := if decide P then 1 else 0.

(** A new claim on the report; its origin returned for an answer. *)
Definition newClaims (op : relay_op) (r : reply) : nat :=
  match op, r with
  | Claim a s _ _, ofClaim (Ok (_, true)) => counted (a = addr /\ s = seq)
  | _, _ => 0
  end.

Definition returned (r : reply) : nat :=
  match r with ofTake (Some (a, s)) => counted (a = addr /\ s = seq) | _ => 0 end.

Lemma waiting_put k x s :
  exchanges s !! k = None -> waiting (put k x s) = (counted (awaits x) + waiting s)%nat.
Proof.
  intros Hk. unfold waiting, put, counted. simpl. case_decide as Hx.
  - rewrite map_filter_insert_True by done. rewrite map_size_insert_None; [done|].
    apply map_lookup_filter_None. by left.
  - rewrite map_filter_insert_False by done. by rewrite delete_id.
Qed.

Lemma waiting_end k x s :
  exchanges s !! k = Some x -> waiting s = (counted (awaits x) + waiting (end_ k s))%nat.
Proof.
  intros Hk. rewrite <- (waiting_put k); [|by simpl; rewrite lookup_delete_eq].
  unfold waiting, put, end_. simpl. by rewrite insert_delete_eq, insert_id.
Qed.

(** With fewer exchanges fewer wait. *)
Lemma waiting_sub s s' :
  (forall k x, exchanges s' !! k = Some x -> exchanges s !! k = Some x) -> (waiting s' <= waiting s)%nat.
Proof.
  intros Hs. apply map_subseteq_size, map_subseteq_spec. intros k x.
  rewrite !map_lookup_filter_Some. intros [Hk Hx]. auto.
Qed.

Lemma lapse_sub now s s' k x :
  lapse now s s' -> exchanges s' !! k = Some x -> exchanges s !! k = Some x.
Proof. intros [Hx _] Hk. destruct (Hx k) as [He|[He _]]; congruence. Qed.

Lemma end_sub k0 s k x : exchanges (end_ k0 s) !! k = Some x -> exchanges s !! k = Some x.
Proof. simpl. intros [_ ?]%lookup_delete_Some. done. Qed.

(** One step: an answer is returned for an exchange that waited, and only a new claim makes one wait. *)
Lemma promise_counts op r s s' :
  promise op r s s' -> (returned r + waiting s' <= newClaims op r + waiting s)%nat.
Proof.
  destruct 1 as [| |a n now gen k s s' _ _ Hl _ Hk| | | |k k' x s Hk _ Hk'| |k now x s Hk Ht _| |];
    simpl; try lia.
  - apply waiting_sub. intros k' x'. by eapply lapse_sub.
  - rewrite waiting_put by done. assert (waiting s' <= waiting s)%nat by (apply waiting_sub; intros k' x'; by eapply lapse_sub).
    enough (counted (awaits (mkExchange a n now false)) = counted (a = addr /\ n = seq)) by lia.
    unfold counted, awaits. simpl. do 2 case_decide; tauto.
  - apply waiting_sub. intros k' x'. by eapply lapse_sub.
  - rewrite waiting_put by (simpl; by apply lookup_delete_None; right). rewrite (waiting_end k x s); [lia|done].
  - apply waiting_sub. intros k x. simpl. rewrite map_lookup_filter_Some. tauto.
  - assert (He : put k (mkExchange (origin x) (number x) (since x) true) s =
      put k (mkExchange (origin x) (number x) (since x) true) (end_ k s)).
    { unfold put, end_. simpl. by rewrite insert_delete_eq. }
    rewrite He, waiting_put by (simpl; by rewrite lookup_delete_eq). rewrite (waiting_end k x s) by done.
    unfold counted, awaits. simpl. do 3 case_decide; intuition (lia || congruence).
  - apply waiting_sub. intros k' x'. apply end_sub.
Qed.

Definition total (f : relay_op * reply -> nat) (tr : list (relay_op * reply)) : nat := sum_list (map f tr).

Lemma promises_count tr s s' :
  promises tr s s' ->
  (total (fun e => returned e.2) tr + waiting s' <= total (fun e => newClaims e.1 e.2) tr + waiting s)%nat.
Proof.
  unfold total. induction 1 as [s|op r tr s s1 s2 Hp _ IH]; simpl; [lia|].
  apply promise_counts in Hp. lia.
Qed.
End Counting.

(** ** Theorems *)

Section Theorems.
Context `{!MapRange string, !MapRange Z}.

(** C2. The relay table keeps its contract. Whatever operations are run on it from the start, in
    whatever order Go walks its maps, the answers they give are ones the contract allows one after
    the other: a claim is refused as released exactly when it quotes another count of releases than
    its peer's, a copy gets a ticket that holds the report and is live, a new report a free ticket,
    and only what has aged out is ever forgotten without being told to. *)
Theorem relay_keeps_promises ops :
  promises (answers ops initRelays) noPromises (promisesOf (exec_all ops initRelays)).
Proof. apply (execs_kept ops initRelays), relay_inv_init. Qed.

(** C14. A report is answered at most as often as it was taken for a new one: along any sequence of
    operations, the origin of a report is returned for an answer no more often than a claim on the
    report was granted as fresh. It follows from the contract alone. *)
Theorem answered_at_most_claimed addr seq ops :
  (total (fun e => returned addr seq e.2) (answers ops initRelays) <=
   total (fun e => newClaims addr seq e.1 e.2) (answers ops initRelays))%nat.
Proof.
  pose proof (promises_count addr seq _ _ _ (execs_kept ops initRelays relay_inv_init)) as Hc.
  change (promisesOf initRelays) with noPromises in Hc.
  assert (Hw : waiting addr seq noPromises = 0%nat) by done. lia.
Qed.
End Theorems.
