(* ===== verification/RelayProps.v ===== *)
(** * RelayProps: the properties of the relay table

    The allocator, the sweep, each operation on every branch, and the guarantees along every
    sequence of operations. Witnesses run the model on two peers. *)

From Stdlib Require Import Strings.Byte Strings.String.
From S2P Require Import Prelude GoNet Relay RelayTraces.

#[local] Open Scope string_scope.
#[local] Open Scope list_scope.
#[local] Open Scope Z_scope.

(** ** Concrete peers and states for the witnesses *)

Definition peer1 : UDPAddr := UDPAddr.mk (Some ["010"; "042"; "000"; "184"]%byte) 8805 "".
Definition peer2 : UDPAddr := UDPAddr.mk (Some ["010"; "042"; "000"; "185"]%byte) 8805 "".
Definition t0 : Time := 100 * Second.

(** Peer 1 has a report outstanding under its number 7. *)
Definition one_relay : Relays := snd (RelayReportSequence peer1 7 t0 0 initRelays).

Lemma one_relay_reachable : reachable one_relay.
Proof. apply (reachable_step initRelays (Claim peer1 7 t0 0)), reachable_init. Qed.

Lemma one_relay_inv : relay_inv one_relay.
Proof. apply reachable_relay_inv, one_relay_reachable. Qed.

(** ** The allocator *)

(** C29. The allocator returns the first free number in cyclic order after the one it last gave
    out: the number is in the range and nothing is waiting on it, every number it passed over is
    outstanding, and it reports exhaustion exactly when the whole range, ceiling included, is
    outstanding. *)
Theorem nextFreeRelaySequence_first_free outstanding from floor ceil :
  0 <= floor -> floor <= ceil < 2 ^ 32 -> ceil - floor + 1 < 2 ^ 32 ->
  match nextFreeRelaySequence outstanding from floor ceil with
  | Some k =>
      floor <= k <= ceil /\ outstanding !! k = None /\
      exists i, k = Nat.iter (S i) (nextRelaySequence floor ceil) from /\
        forall j, (j < i)%nat ->
          is_Some (outstanding !! Nat.iter (S j) (nextRelaySequence floor ceil) from)
  | None => forall k, floor <= k <= ceil -> is_Some (outstanding !! k)
  end.
Proof. apply nextFree_spec. Qed.

Lemma nextFreeRelaySequence_first_free_witness :
  exists i, 5 = Nat.iter (S i) (nextRelaySequence 5 8) 6 /\
    forall j, (j < i)%nat -> is_Some
      (({[7 := mkRelay peer1 0 1 false; 8 := mkRelay peer1 0 2 false]} : gmap Z reportRelay)
         !! Nat.iter (S j) (nextRelaySequence 5 8) 6).
Proof.
  pose proof (nextFreeRelaySequence_first_free
    {[7 := mkRelay peer1 0 1 false; 8 := mkRelay peer1 0 2 false]} 6 5 8
    ltac:(lia) ltac:(lia) ltac:(lia)) as Hw.
  assert (Heq : nextFreeRelaySequence
    {[7 := mkRelay peer1 0 1 false; 8 := mkRelay peer1 0 2 false]} 6 5 8 = Some 5) by reflexivity.
  rewrite Heq in Hw. exact (proj2 (proj2 Hw)).
Defined.

(** ** The sweep *)

Section SweepSpec.
Context (R1 : MapRange string) (R2 : MapRange Z) (R1' : MapRange string) (R2' : MapRange Z).

(** What the sweep leaves, as filters over the tables. *)
Definition swept (now : Time) (st : Relays) : gmap Z reportRelay * gmap string relayGeneration :=
  if decide (now - lastRelaySweep st < relaySweepInterval) then
    (reportRelays st, relayGenerations st)
  else
    (filter (fun kv => liveAt now kv.2) (reportRelays st),
     filter (fun kv => now - releasedAt kv.2 <= reportRelayLifetime) (relayGenerations st)).

Lemma sweep_swept now st :
  index_ok st ->
  (reportRelays (sweepRelaysLocked now st), relayGenerations (sweepRelaysLocked now st)) =
    swept now st.
Proof.
  intros Hix. unfold swept. case_decide as Hc; [by rewrite sweep_closed|]. f_equal; apply map_eq.
  - intros k. rewrite sweep_lookup by (done || lia).
    destruct (reportRelays st !! k) as [r|] eqn:Hk; [case_decide as Hl|]; symmetry.
    + by apply map_lookup_filter_Some.
    + apply map_lookup_filter_None. right. intros r' Hr'. by simplify_eq.
    + apply map_lookup_filter_None. by left.
  - intros a. rewrite sweep_generations, decide_False by done.
    destruct (relayGenerations st !! a) as [g|] eqn:Hg; [case_decide as Hl|]; symmetry.
    + apply map_lookup_filter_None. right. intros r' Hr'. simplify_eq. simpl. lia.
    + apply map_lookup_filter_Some. simpl. split; [done|]. lia.
    + apply map_lookup_filter_None. by left.
Qed.
End SweepSpec.

Lemma Relays_eq st1 st2 :
  reportRelays st1 = reportRelays st2 -> relaysByHost st1 = relaysByHost st2 ->
  relayGenerations st1 = relayGenerations st2 -> reportRelaySeq st1 = reportRelaySeq st2 ->
  lastRelaySweep st1 = lastRelaySweep st2 -> st1 = st2.
Proof. destruct st1, st2; simpl. by intros -> -> -> -> ->. Qed.

Lemma sweep_last `{!MapRange string, !MapRange Z} now st :
  lastRelaySweep (sweepRelaysLocked now st) =
    if decide (now - lastRelaySweep st < relaySweepInterval) then lastRelaySweep st else now.
Proof.
  case_decide as Hc; [by rewrite sweep_closed|]. unfold sweepRelaysLocked.
  rewrite <- time_Sub_lt in Hc by done.
  destruct (time_Sub now _ <? _) eqn:Ht; [apply Z.ltb_lt in Ht; lia|].
  rewrite expire_fold. by edestruct drops_rest as (_ & _ & ->).
Qed.

(** C30. The sweep is the filter it is meant to be, whatever order Go walks the maps in: two
    walks in any two orders leave the same state, in which an entry survives exactly when the
    throttle was closed or it is within its lifetime, the same for the release counts, and the
    index is again that of the table. *)
Theorem sweepRelaysLocked_is_filter (R1 R1' : MapRange string) (R2 R2' : MapRange Z) now st :
  index_ok st ->
  @sweepRelaysLocked R1 R2 now st = @sweepRelaysLocked R1' R2' now st /\
  (reportRelays (@sweepRelaysLocked R1 R2 now st),
   relayGenerations (@sweepRelaysLocked R1 R2 now st)) = swept now st /\
  index_ok (@sweepRelaysLocked R1 R2 now st).
Proof.
  intros Hix. pose proof (@sweep_swept R1 R2 now st Hix) as H1.
  pose proof (@sweep_swept R1' R2' now st Hix) as H2.
  pose proof (@sweep_index R1 R2 now st Hix) as I1.
  pose proof (@sweep_index R1' R2' now st Hix) as I2.
  split_and!; [|done..]. rewrite <- H2 in H1. injection H1 as Hm Hg.
  apply Relays_eq; [done| |done| |].
  - eapply indexed_unique; [exact I1|]. rewrite Hm. exact I2.
  - by rewrite !sweep_seq.
  - by rewrite !sweep_last.
Qed.

(** Walking a map backwards: another order the language allows. *)
Definition reverse_range K `{Countable K} : MapRange K := {|
  range V m := reverse (map_to_list m);
  range_perm V m := reverse_Permutation (map_to_list m);
|}.

Lemma sweepRelaysLocked_is_filter_witness :
  @sweepRelaysLocked _ _ (t0 + Minute) one_relay =
    @sweepRelaysLocked (reverse_range string) (reverse_range Z) (t0 + Minute) one_relay /\
  (reportRelays (sweepRelaysLocked (t0 + Minute) one_relay),
   relayGenerations (sweepRelaysLocked (t0 + Minute) one_relay)) = swept (t0 + Minute) one_relay /\
  index_ok (sweepRelaysLocked (t0 + Minute) one_relay).
Proof.
  apply (sweepRelaysLocked_is_filter _ (reverse_range string) _ (reverse_range Z)).
  apply (inv_index _ one_relay_inv).
Defined.

(** ** Each operation, on every branch *)

Section Operations.
Context `{!MapRange string, !MapRange Z}.

Definition no_live_claim addr seq now (st : Relays) : Prop :=
  forall k r, reportRelays st !! k = Some r -> sameReport addr seq r -> ~ liveAt now r.

Lemma no_live_swept addr seq now st :
  no_live_claim addr seq now (sweepRelaysLocked now st) <-> no_live_claim addr seq now st.
Proof.
  unfold no_live_claim. split; intros Hn k r Hk Hs.
  - intros Hl. eapply Hn; eauto. by apply sweep_keeps.
  - apply sweep_sub in Hk. eauto.
Qed.

(** Claiming a report, on every branch. The claim is refused, and nothing changes, exactly
    when the peer's release count is not the one it was authorised under; a report with a live
    claim is answered with a number holding one and leaves the swept table as it is; otherwise
    the report is recorded, unanswered and under a number of the adapter's half that nothing
    was waiting on, unless that whole half is outstanding. *)
Theorem RelayReportSequence_cases addr seq now authorisedUnder st :
  relay_inv st ->
  let swept_st := sweepRelaysLocked now st in
  match RelayReportSequence addr seq now authorisedUnder st with
  | (Err ErrPeerReleased, st') =>
      RelayGeneration (hostOf addr) st <> authorisedUnder /\ st' = st
  | (Ok (k, false), st') =>
      RelayGeneration (hostOf addr) st = authorisedUnder /\ st' = swept_st /\
      exists r, reportRelays st !! k = Some r /\ sameReport addr seq r /\ liveAt now r
  | (Ok (k, true), st') =>
      RelayGeneration (hostOf addr) st = authorisedUnder /\ no_live_claim addr seq now st /\
      in_range k /\ reportRelays swept_st !! k = None /\
      reportRelays st' = <[k := mkRelay addr now seq false]> (reportRelays swept_st)
  | (Err ErrRelaySequenceExhausted, st') =>
      RelayGeneration (hostOf addr) st = authorisedUnder /\ no_live_claim addr seq now st /\
      st' = swept_st /\ forall k, in_range k -> is_Some (reportRelays swept_st !! k)
  | (Err ErrRelayNotHeld, _) => False
  end.
Proof.
  intros Hinv swept_st. unfold RelayReportSequence.
  destruct (RelayGeneration (hostOf addr) st =? authorisedUnder) eqn:Hg; simpl;
    [|apply Z.eqb_neq in Hg; done].
  apply Z.eqb_eq in Hg. fold swept_st.
  pose proof (relay_inv_sweep now st Hinv) as Hinv'. fold swept_st in Hinv'.
  pose proof (relayFromLocked_spec addr seq now swept_st (inv_index _ Hinv')) as Hf.
  destruct (relayFromLocked _ _ _ _) as [k|].
  - split_and!; [done..|]. destruct Hf as (r & Hr & Hs & Hl). exists r.
    apply sweep_sub in Hr. done.
  - apply (no_live_swept addr seq now st) in Hf.
    pose proof (nextFree_spec (reportRelays swept_st) (reportRelaySeq swept_st)
      relaySequenceFloor relaySequenceCeil ltac:(done) ltac:(done) ltac:(done)) as Hn.
    destruct (nextFreeRelaySequence _ _ _ _) as [k|]; [|done].
    destruct Hn as (Hk & Hfree & _). done.
Qed.

(** Renumbering moves the very entry -- its origin, its age, whether it is being answered --
    to a number that was free, in one step; it fails without touching the table, with one
    error when there is nothing to move and another when there is nowhere to move it. *)
Theorem RenumberReportRelay_cases k st :
  relay_inv st ->
  match RenumberReportRelay k st with
  | (Ok k', st') =>
      in_range k' /\ reportRelays st !! k' = None /\
      exists r, reportRelays st !! k = Some r /\
        reportRelays st' = <[k' := r]> (delete k (reportRelays st))
  | (Err ErrRelayNotHeld, st') => reportRelays st !! k = None /\ st' = st
  | (Err ErrRelaySequenceExhausted, st') =>
      st' = st /\ forall k', in_range k' -> is_Some (reportRelays st !! k')
  | (Err ErrPeerReleased, _) => False
  end.
Proof.
  intros Hinv. unfold RenumberReportRelay.
  destruct (reportRelays st !! k) as [r|] eqn:Hk; [|done].
  pose proof (nextFree_spec (reportRelays st) (reportRelaySeq st)
    relaySequenceFloor relaySequenceCeil ltac:(done) ltac:(done) ltac:(done)) as Hn.
  destruct (nextFreeRelaySequence _ _ _ _) as [k'|]; [|done].
  destruct Hn as (Hk' & Hfree & _). split_and!; [done..|]. exists r. split; [done|].
  simpl. by rewrite reportRelays_drop.
Qed.

(** Releasing an address drops the reports it raised and no others, takes its bucket out of
    the index, and counts: a claim quoting the count read before the release is refused and
    changes nothing. *)
Theorem ForgetRelaysForHost_releases addr seq now now' st :
  index_ok st ->
  let st' := ForgetRelaysForHost (hostOf addr) now st in
  (forall k, reportRelays st' !! k =
     reportRelays st !! k ≫= fun r =>
       if decide (hostOf (upfAddr r) = hostOf addr) then None else Some r) /\
  relaysByHost st' !! hostOf addr = None /\
  (forall h, h <> hostOf addr -> RelayGeneration h st' = RelayGeneration h st) /\
  RelayReportSequence addr seq now' (RelayGeneration (hostOf addr) st) st' =
    (Err ErrPeerReleased, st').
Proof.
  intros Hix st'.
  assert (Hlk : forall k, reportRelays st' !! k = reportRelays st !! k ≫= fun r =>
       if decide (hostOf (upfAddr r) = hostOf addr) then None else Some r).
  { intros k. unfold st', ForgetRelaysForHost. rewrite drops_lookup. simpl.
    case_decide as Hin; rewrite elem_of_range_set in Hin.
    - apply Hix in Hin as (r & -> & Hr). simpl. by rewrite decide_True.
    - destruct (reportRelays st !! k) as [r|] eqn:Hk; [|done]. simpl.
      rewrite decide_False; [done|]. intros Hr. apply Hin, Hix. eauto. }
  assert (Hgen : forall h, RelayGeneration h st' =
    if decide (hostOf addr = h) then u64 (RelayGeneration h st + 1) else RelayGeneration h st).
  { intros h. unfold RelayGeneration, st', ForgetRelaysForHost.
    edestruct drops_rest as (-> & _ & _). simpl. rewrite lookup_insert. by case_decide; subst. }
  split_and!; [done| | |].
  - assert (Hix' : index_ok st').
    { unfold st', ForgetRelaysForHost. apply drops_index. by destruct Hix. }
    destruct (relaysByHost st' !! hostOf addr) as [b|] eqn:Hb; [|done]. exfalso.
    destruct Hix' as [Hix' He]. destruct (set_choose_or_empty b) as [[k Hk]|Hemp].
    + assert (Hin : k ∈ bucket (hostOf addr) (relaysByHost st')) by (unfold bucket; by rewrite Hb).
      apply Hix' in Hin as (r & Hr & Hh). rewrite Hlk in Hr.
      destruct (reportRelays st !! k) as [r'|]; simpl in Hr; [|done].
      case_decide; [done|]. congruence.
    + apply leibniz_equiv in Hemp. subst b. by apply (He (hostOf addr)).
  - intros h Hne. rewrite Hgen. by rewrite decide_False by done.
  - unfold RelayReportSequence. rewrite Hgen, decide_True by done.
    destruct (u64 _ =? _) eqn:Heq; [|done]. exfalso. apply Z.eqb_eq in Heq.
    unfold u64 in Heq. pose proof (Z.div_mod (RelayGeneration (hostOf addr) st + 1) (2 ^ 64)). lia.
Qed.

(** Taking a relay for answering: it yields the origin exactly when the entry is there,
    unclaimed and within its lifetime, and then only marks it; otherwise nothing changes. *)
Theorem TakeReportRelay_cases k now st :
  match TakeReportRelay k now st with
  | (Some (addr, seq), st') =>
      exists r, reportRelays st !! k = Some r /\ answered r = false /\ liveAt now r /\
        addr = upfAddr r /\ seq = upfSeq r /\
        reportRelays st' = <[k := mkRelay addr (recorded r) seq true]> (reportRelays st) /\
        relaysByHost st' = relaysByHost st
  | (None, st') =>
      st' = st /\
      forall r, reportRelays st !! k = Some r -> answered r = true \/ ~ liveAt now r
  end.
Proof. apply TakeReportRelay_spec. Qed.
End Operations.

(** ** Guarantees along every sequence of operations *)

Section Guarantees.
Context `{!MapRange string, !MapRange Z}.

(** C16. In every reachable state the index names exactly the table's entries, every number in
    use is in the adapter's half, and at no moment at or after both were recorded are two
    entries for the same report of the same peer live. *)
Theorem reachable_invariant st :
  reachable st ->
  index_ok st /\
  (forall k, is_Some (reportRelays st !! k) -> in_range k) /\
  (forall now k1 k2 r1 r2 addr seq,
     reportRelays st !! k1 = Some r1 -> reportRelays st !! k2 = Some r2 ->
     sameReport addr seq r1 -> sameReport addr seq r2 ->
     recorded r1 <= now -> recorded r2 <= now -> liveAt now r1 -> liveAt now r2 -> k1 = k2).
Proof.
  intros Hr. apply reachable_relay_inv in Hr as [Hix Hrg Hc _]. split_and!; [done..|].
  intros now k1 k2 r1 r2 addr seq H1 H2 Hs1 Hs2 Hn1 Hn2 Hl1 Hl2.
  destruct (decide (k1 = k2)) as [|Hne]; [done|].
  specialize (Hc k1 k2 r1 r2 addr seq H1 H2 Hs1 Hs2 Hne). unfold liveAt in *. lia.
Qed.

(** C12. One report, one relay: once a report has been claimed, every copy of it -- same address
    and port, same number -- that arrives within the lifetime is recognised, whatever other
    operations happened in between, renumbering and answering included, until the claim is
    forgotten, its peer is released or it ages out. *)
Theorem retransmission_absorbed addr seq t gen st0 k st1 st addr' now :
  reachable st0 ->
  RelayReportSequence addr seq t gen st0 = (Ok (k, true), st1) ->
  quietly addr seq t None st1 st ->
  hostOf addr' = hostOf addr -> UDPAddr.Port addr' = UDPAddr.Port addr ->
  now <= t + reportRelayLifetime ->
  exists k', RelayReportSequence addr' seq now (RelayGeneration (hostOf addr') st) st =
    (Ok (k', false), sweepRelaysLocked now st).
Proof.
  intros Hr Hc Hq Hh Hp Hnow.
  assert (Hinv1 : relay_inv st1).
  { replace st1 with (exec (Claim addr seq t gen) st0) by (simpl; by rewrite Hc).
    by apply exec_inv, reachable_relay_inv. }
  apply claim_holds in Hc. apply holds_quietly in Hq as [Hinv (k' & r & Hk & Ha & Hs & Ht & _)];
    [|done|by eexists k, _].
  assert (Hl : liveAt now r) by (unfold liveAt; lia).
  unfold RelayReportSequence. rewrite Z.eqb_refl. cbn [negb].
  pose proof (relay_inv_sweep now st Hinv) as Hinv'.
  pose proof (relayFromLocked_spec addr' seq now _ (inv_index _ Hinv')) as Hf.
  destruct (relayFromLocked _ _ _ _) as [k''|]; [by exists k''|].
  exfalso. apply (sweep_keeps now) in Hk; [|done]. eapply Hf; [exact Hk| |done].
  split_and!; congruence.
Qed.

(** C13. One relay, one answer: after a relay has been taken for answering, no number yields that
    exchange again, whatever operations follow, so the SMF's answer and the give-up path
    cannot both answer the user plane. *)
Theorem answered_once k now addr seq st0 st1 :
  reachable st0 ->
  TakeReportRelay k now st0 = (Some (addr, seq), st1) ->
  exists r0, reportRelays st0 !! k = Some r0 /\
    forall st, quietly addr seq (recorded r0) (Some true) st1 st ->
    forall k' now' r, reportRelays st !! k' = Some r ->
      isExchange addr seq (recorded r0) None r ->
      TakeReportRelay k' now' st = (None, st).
Proof.
  intros Hr Ht. assert (Hinv1 : relay_inv st1).
  { replace st1 with (exec (Take k now) st0) by (simpl; by rewrite Ht).
    by apply exec_inv, reachable_relay_inv. }
  pose proof (TakeReportRelay_spec k now st0) as Hs. rewrite Ht in Hs.
  destruct Hs as (r0 & Hk & Ha & Hl & -> & -> & Hm & _). exists r0. split; [done|].
  intros st Hq k' now' r Hk' He.
  apply holds_quietly in Hq as [Hinv (k2 & r2 & Hk2 & He2)]; [|done|].
  - assert (k' = k2) as -> by (eapply exchange_unique; eauto).
    unfold TakeReportRelay. rewrite Hk2. by destruct He2 as (_ & _ & _ & ->).
  - exists k, (mkRelay (upfAddr r0) (recorded r0) (upfSeq r0) true).
    rewrite Hm. split; [by apply lookup_insert_eq|done].
Qed.

(** C15. The answer goes back where the report came from: while an exchange is unanswered it can
    be taken, within its lifetime and under one number -- the one it was claimed under or the
    last it was renumbered to -- and what is taken is the address that raised the report and
    the number that peer is waiting for. *)
Theorem origin_returned addr seq t gen st0 k st1 st now :
  reachable st0 ->
  RelayReportSequence addr seq t gen st0 = (Ok (k, true), st1) ->
  quietly addr seq t (Some false) st1 st ->
  now <= t + reportRelayLifetime ->
  exists k', in_range k' /\ fst (TakeReportRelay k' now st) = Some (addr, seq).
Proof.
  intros Hr Hc Hq Hnow.
  assert (Hinv1 : relay_inv st1).
  { replace st1 with (exec (Claim addr seq t gen) st0) by (simpl; by rewrite Hc).
    by apply exec_inv, reachable_relay_inv. }
  apply claim_holds in Hc. apply holds_quietly in Hq as [Hinv (k' & r & Hk & He)];
    [|done|by eexists k, _].
  destruct He as (Ha & Hs & Ht & Hf). exists k'. split; [by apply (inv_range _ Hinv)|].
  pose proof (TakeReportRelay_spec k' now st) as Hsp.
  destruct (TakeReportRelay k' now st) as [[[a s]|] st']; simpl.
  - destruct Hsp as (r' & Hr' & _ & _ & -> & -> & _). congruence.
  - destruct Hsp as [_ Hsp]. exfalso. destruct (Hsp r Hk) as [Hx|Hx]; [congruence|].
    apply Hx. unfold liveAt. lia.
Qed.

Lemma generation_exec host low op st g :
  within low (low + reportRelayLifetime) op ->
  relayGenerations st !! host = Some g -> low <= releasedAt g -> 0 <= count g < 2 ^ 64 - 1 ->
  exists g', relayGenerations (exec op st) !! host = Some g' /\ low <= releasedAt g' /\
    count g <= count g' <= count g + 1.
Proof.
  intros Hw Hg Hlow Hcount. destruct op as [a s now gen|k|h now|k now|k]; simpl in *.
  - assert (Hgs : relayGenerations (sweepRelaysLocked now st) !! host = Some g).
    { rewrite sweep_generations, Hg. case_decide; [done|]. by rewrite decide_False by lia. }
    unfold RelayReportSequence. destruct (negb _); [by exists g; split_and!; lia || done|].
    destruct (relayFromLocked _ _ _ _); [by exists g; split_and!; lia || done|].
    destruct (nextFreeRelaySequence _ _ _ _); by exists g; split_and!; lia || done.
  - exists g. unfold RenumberReportRelay. destruct (reportRelays st !! k); [|split_and!; lia || done].
    destruct (nextFreeRelaySequence _ _ _ _); [|split_and!; lia || done]. simpl.
    destruct (drop_rest k st) as (-> & _ & _). split_and!; lia || done.
  - unfold ForgetRelaysForHost. edestruct drops_rest as (-> & _ & _). simpl.
    rewrite lookup_insert. case_decide; [subst h|by exists g; split_and!; lia || done].
    eexists. split; [done|]. rewrite Hg. simpl. rewrite u64_small by lia. lia.
  - exists g. unfold TakeReportRelay. destruct (reportRelays st !! k); [|split_and!; lia || done].
    repeat case_match; simpl; split_and!; lia || done.
  - exists g. destruct (drop_rest k st) as (Heq & _ & _).
    unfold ForgetReportRelay. rewrite Heq. split_and!; lia || done.
Qed.

Lemma generation_exec_all host low ops st g :
  Forall (within low (low + reportRelayLifetime)) ops ->
  relayGenerations st !! host = Some g -> low <= releasedAt g -> 0 <= count g ->
  count g + Z.of_nat (length ops) < 2 ^ 64 ->
  count g <= RelayGeneration host (exec_all ops st).
Proof.
  intros Hops. revert st g. induction Hops as [|op ops Hop Hops IH]; intros st g Hg Hl H0 Hn.
  - unfold RelayGeneration. simpl. by rewrite Hg.
  - simpl length in Hn. destruct (generation_exec host low op st g Hop Hg Hl ltac:(lia))
      as (g' & Hg' & Hl' & Hc).
    specialize (IH (exec op st) g' Hg' Hl' ltac:(lia) ltac:(lia)). simpl. lia.
Qed.

(** A claim does not survive the release of its peer: when the address is released between
    the source check and the claim, the claim is refused, whatever else ran in between, as long
    as no sweep in between reads the clock more than a lifetime after the release. *)
Theorem stale_authorisation_refused addr seq now low authorisedUnder ops st :
  RelayGeneration (hostOf addr) st = authorisedUnder ->
  0 <= authorisedUnder -> authorisedUnder + Z.of_nat (length ops) + 1 < 2 ^ 64 ->
  Forall (within low (low + reportRelayLifetime)) ops ->
  let st' := exec_all ops (ForgetRelaysForHost (hostOf addr) low st) in
  RelayReportSequence addr seq now authorisedUnder st' = (Err ErrPeerReleased, st').
Proof.
  intros Hgen H0 Hn Hops st'.
  assert (Hg : relayGenerations (ForgetRelaysForHost (hostOf addr) low st) !! hostOf addr =
    Some (mkGeneration low (authorisedUnder + 1))).
  { unfold ForgetRelaysForHost. edestruct drops_rest as (-> & _ & _). simpl.
    rewrite lookup_insert_eq. unfold RelayGeneration in Hgen. rewrite Hgen.
    by rewrite u64_small by lia. }
  eapply generation_exec_all in Hg; [|done|simpl; lia..]. simpl in Hg. fold st' in Hg.
  unfold RelayReportSequence. destruct (_ =? _) eqn:Heq; [|done].
  apply Z.eqb_eq in Heq. lia.
Qed.
End Guarantees.

(** ** Witnesses *)

Lemma RelayReportSequence_cases_witness :
  exists r, reportRelays one_relay !! 0x800000 = Some r /\ sameReport peer1 7 r /\
    liveAt (t0 + Second) r.
Proof.
  pose proof (RelayReportSequence_cases peer1 7 (t0 + Second) 0 one_relay one_relay_inv) as Hw.
  assert (Heq : RelayReportSequence peer1 7 (t0 + Second) 0 one_relay =
    (Ok (0x800000, false), snd (RelayReportSequence peer1 7 (t0 + Second) 0 one_relay)))
    by (vm_compute; reflexivity).
  cbv zeta in Hw. rewrite Heq in Hw. exact (proj2 (proj2 Hw)).
Defined.

Lemma RenumberReportRelay_cases_witness :
  exists r, reportRelays one_relay !! 0x800000 = Some r /\
    reportRelays (snd (RenumberReportRelay 0x800000 one_relay)) =
      <[0x800001 := r]> (delete 0x800000 (reportRelays one_relay)).
Proof.
  pose proof (RenumberReportRelay_cases 0x800000 one_relay one_relay_inv) as Hw.
  assert (Heq : RenumberReportRelay 0x800000 one_relay =
    (Ok 0x800001, snd (RenumberReportRelay 0x800000 one_relay))) by (vm_compute; reflexivity).
  rewrite Heq in Hw. exact (proj2 (proj2 Hw)).
Defined.

Lemma ForgetRelaysForHost_releases_witness :
  relaysByHost (ForgetRelaysForHost (hostOf peer1) t0 one_relay) !! hostOf peer1 = None.
Proof.
  exact (proj1 (proj2 (ForgetRelaysForHost_releases peer1 7 t0 t0 one_relay
    (inv_index _ one_relay_inv)))).
Defined.

Lemma reachable_invariant_witness :
  index_ok one_relay /\ in_range 0x800000.
Proof.
  pose proof (reachable_invariant one_relay one_relay_reachable) as (Hi & Hr & _).
  split; [exact Hi|]. apply Hr. exists (mkRelay peer1 t0 7 false). vm_compute. reflexivity.
Defined.

(** Between the report and its copy, another peer raises one under the same number and the first
    is renumbered. *)
Definition busy : Relays :=
  exec_all [Claim peer2 7 (t0 + Second) 0; Renumber 0x800000] one_relay.

Lemma busy_quietly f : quietly peer1 7 t0 f one_relay busy.
Proof.
  apply (quietly_step _ _ _ _ one_relay (Claim peer2 7 (t0 + Second) 0)).
  { unfold ends. unfold t0, reportRelayLifetime, Second. lia. }
  apply (quietly_step _ _ _ _ _ (Renumber 0x800000)); [by intros []|]. apply quietly_refl.
Qed.

Lemma retransmission_absorbed_witness :
  exists k', RelayReportSequence peer1 7 (t0 + 3 * Second)
      (RelayGeneration (hostOf peer1) busy) busy =
    (Ok (k', false), sweepRelaysLocked (t0 + 3 * Second) busy).
Proof.
  apply (retransmission_absorbed peer1 7 t0 0 initRelays 0x800000 one_relay busy peer1);
    [apply reachable_init | vm_compute; reflexivity | apply busy_quietly | reflexivity | reflexivity |].
  unfold t0, reportRelayLifetime, Second. lia.
Defined.

Lemma origin_returned_witness :
  exists k', in_range k' /\ fst (TakeReportRelay k' (t0 + 3 * Second) busy) = Some (peer1, 7).
Proof.
  apply (origin_returned peer1 7 t0 0 initRelays 0x800000 one_relay busy);
    [apply reachable_init | vm_compute; reflexivity | apply busy_quietly |].
  unfold t0, reportRelayLifetime, Second. lia.
Defined.

Lemma answered_once_witness :
  exists r0, reportRelays one_relay !! 0x800000 = Some r0 /\
    forall st, quietly peer1 7 (recorded r0) (Some true)
                 (snd (TakeReportRelay 0x800000 (t0 + Second) one_relay)) st ->
    forall k' now' r, reportRelays st !! k' = Some r ->
      isExchange peer1 7 (recorded r0) None r -> TakeReportRelay k' now' st = (None, st).
Proof.
  apply (answered_once 0x800000 (t0 + Second));
    [apply one_relay_reachable | vm_compute; reflexivity].
Defined.

Lemma stale_authorisation_refused_witness :
  let st' := exec_all [Claim peer2 1 (t0 + 2 * Second) 0; Release (hostOf peer2) (t0 + 3 * Second)]
               (ForgetRelaysForHost (hostOf peer1) (t0 + Second) one_relay) in
  RelayReportSequence peer1 8 (t0 + 4 * Second) 0 st' = (Err ErrPeerReleased, st').
Proof.
  apply (stale_authorisation_refused peer1 8 (t0 + 4 * Second) (t0 + Second) 0);
    [vm_compute; reflexivity | lia | simpl; lia |].
  repeat constructor; unfold within, reportRelayLifetime, Second, t0; simpl; unfold Second; lia.
Defined.
