(* ===== verification/UpfAddrs.v ===== *)
(** * UpfAddrs: the user planes the SMF addresses through the adapter ([config/config.go])

    Two maps, one the reverse of the other: the node identities reachable at each address, and
    for each identity its address and when the SMF last named it. A report is relayed only for
    an address in the first map whose identities were named recently. Everything below runs
    under [upfAddrMutex]; what happens to a peer that stops being authorised is an interface,
    which the relay table and the transaction tables implement. *)

From Stdlib Require Import Strings.Byte Strings.String.
From S2P Require Import Prelude GoNet NodeId.

#[local] Open Scope string_scope.
#[local] Open Scope list_scope.
#[local] Open Scope Z_scope.

(** ** Data *)

Definition upfAddrLifetime : Duration := 30 * Minute.

Record upfNodeRecord := mkNodeRecord { seen : Time; addr : string }.

#[export] Instance upfNodeRecord_eq_dec : EqDecision upfNodeRecord.
Proof. solve_decision. Defined.

(** The zero value a missing key yields. *)
Definition zeroNodeRecord : upfNodeRecord := mkNodeRecord 0 "".

(** The package-level variables [upfAddrMutex] guards. *)
Record UpfAddrs := mkUpfAddrs {
  upfAddrs : gmap string (gset string);
  upfNodeAddrs : gmap string upfNodeRecord;
}.

Definition initUpfAddrs : UpfAddrs := mkUpfAddrs ∅ ∅.

Definition nodesAt (a : string) (m : gmap string (gset string)) : gset string := default ∅ (m !! a).

(** ** The interface to whoever holds state per peer *)

(** What is released with an address, from inside the critical section that de-authorises it:
    the relays it raised, and whatever the hook registered with [OnUpfAddrReleased] drops. *)
Class Peers (S : Type) := {
  dropRelays : string -> S -> S;
  upfAddrReleased : option (string -> S -> S);
}.

Definition releasePeer {S} `{!Peers S} (a : string) (peers : S) : S :=
  let peers := dropRelays a peers in
  match upfAddrReleased with
  | Some hook => hook a peers
  | None => peers
  end.

(** Registering a hook replaces the one before. *)
Definition OnUpfAddrReleased {S} (hook : string -> S -> S) (P : Peers S) : Peers S :=
  {| dropRelays := @dropRelays S P; upfAddrReleased := Some hook |}.

(** ** Operations *)

Section Operations.
Context {S : Type} `{!Peers S, !MapRange string}.

Definition forgetUpfAddrLocked (node a : string) (st : UpfAddrs * S) : UpfAddrs * S :=
  let '(u, peers) := st in
  match upfAddrs u !! a with
  | None => (u, peers)
  | Some nodes =>
      let nodes := nodes ∖ {[node]} in
      if decide (0 < size nodes)%nat then
        (mkUpfAddrs (<[a := nodes]> (upfAddrs u)) (upfNodeAddrs u), peers)
      else (mkUpfAddrs (delete a (upfAddrs u)) (upfNodeAddrs u), releasePeer a peers)
  end.

(** The body of the loop. *)
Definition expireNode (now : Time) (st : UpfAddrs * S) (kv : string * upfNodeRecord)
    : UpfAddrs * S :=
  let '(node, record) := kv in
  if time_Sub now (seen record) <=? upfAddrLifetime then st
  else
    let '(u, peers) := st in
    let u := mkUpfAddrs (upfAddrs u) (delete node (upfNodeAddrs u)) in
    if decide (addr record <> "") then forgetUpfAddrLocked node (addr record) (u, peers)
    else (u, peers).

Definition expireUpfAddrsLocked (now : Time) (st : UpfAddrs * S) : UpfAddrs * S :=
  fold_left (expireNode now) (range (upfNodeAddrs (fst st))) st.

(** The critical section of [RecordUpfAddr]: [ip] is what the identity resolved to before the
    lock was taken, and [now] was read before resolving. *)
Definition recordUpfAddrLocked (now : Time) (ip : slice) (node : string) (st : UpfAddrs * S)
    : UpfAddrs * S :=
  let '(u, peers) := st in
  let record := default zeroNodeRecord (upfNodeAddrs u !! node) in
  let superseded := time_After (seen record) now in
  let '(record, u) :=
    if negb superseded then
      let record := mkNodeRecord now (addr record) in
      (record, mkUpfAddrs (upfAddrs u) (<[node := record]> (upfNodeAddrs u)))
    else (record, u) in
  let st := expireUpfAddrsLocked now (u, peers) in
  if bool_decide (ip = None) || IP.IsUnspecified ip then st
  else
    let key := IP_String ip in
    if superseded then st
    else
      let '(u, peers) :=
        if decide (addr record <> "" /\ addr record <> key) then
          forgetUpfAddrLocked node (addr record) st
        else st in
      let addrs :=
        match upfAddrs u !! key with
        | None => <[key := ∅]> (upfAddrs u)
        | Some _ => upfAddrs u
        end in
      (mkUpfAddrs (<[key := {[node]} ∪ nodesAt key addrs]> addrs)
                  (<[node := mkNodeRecord now key]> (upfNodeAddrs u)), peers).

(** [RecordUpfAddr]: resolve outside the lock, then record. *)
Definition RecordUpfAddr (lookup : Resolver) (now : Time) (n : NodeID) (cache : dnsCache)
    (st : UpfAddrs * S) : outcome (dnsCache * (UpfAddrs * S)) :=
  match ResolveNodeIdToIp lookup n cache with
  | Panic => Panic
  | Val (ip, cache) => Val (cache, recordUpfAddrLocked now ip (nodeKey n) st)
  end.
End Operations.

(** The question asked of every report: a missing record reads as the zero one. *)
Definition IsKnownUpfAddr `{!MapRange string} (now : Time) (ip : slice) (u : UpfAddrs) : bool :=
  if decide (ip = None) then false
  else
    existsb
      (fun node =>
         time_Sub now (seen (default zeroNodeRecord (upfNodeAddrs u !! node))) <=? upfAddrLifetime)
      (range_set (nodesAt (IP_String ip) (upfAddrs u))).

(** ** The two maps: lemmas *)

(** The maps are the reverse of each other, with no empty entry; an identity without an address
    is in no set. *)
Definition reversed (m : gmap string (gset string)) (nodes : gmap string upfNodeRecord) : Prop :=
  (forall a n, n ∈ nodesAt a m <-> a <> "" /\ exists r, nodes !! n = Some r /\ addr r = a) /\
  (forall a, m !! a <> Some ∅).

Definition addrs_ok (u : UpfAddrs) : Prop := reversed (upfAddrs u) (upfNodeAddrs u).

Definition freshAt (now : Time) (r : upfNodeRecord) : Prop := now - seen r <= upfAddrLifetime.

#[export] Instance freshAt_dec now r : Decision (freshAt now r).
Proof. unfold freshAt. apply _. Defined.

Lemma time_Sub_fresh now r :
  (time_Sub now (seen r) <=? upfAddrLifetime) = bool_decide (freshAt now r).
Proof.
  unfold freshAt. case_bool_decide as Hl; rewrite <- time_Sub_le in Hl by done; lia.
Qed.

Lemma addrs_ok_init : addrs_ok initUpfAddrs.
Proof.
  split; simpl; [|done]. intros a n. unfold nodesAt. rewrite lookup_empty. simpl.
  split; [set_solver|]. by intros (_ & r & Hr & _).
Qed.

(** An address is in the map exactly when an identity is at it. *)
Lemma dom_nodesAt u a : addrs_ok u -> is_Some (upfAddrs u !! a) <-> nodesAt a (upfAddrs u) <> ∅.
Proof.
  intros [_ He]. specialize (He a). unfold nodesAt. destruct (upfAddrs u !! a) as [b|]; simpl.
  - split; [intros _ ->; by apply He | by eexists].
  - split; [by intros [] | done].
Qed.

(** Releasing a list of addresses, first to last. *)
Definition releaseAll {S} `{!Peers S} (l : list string) (peers : S) : S :=
  fold_left (fun p a => releasePeer a p) l peers.

Section Lemmas.
Context {S : Type} `{!Peers S, !MapRange string}.

Lemma releaseAll_app l1 l2 (peers : S) :
  releaseAll (l1 ++ l2) peers = releaseAll l2 (releaseAll l1 peers).
Proof. apply fold_left_app. Qed.

(** Forgetting removes one identity from one address, and releases the address exactly when
    that leaves no identity there. *)
Lemma forget_spec node a u (peers : S) :
  (forall b, upfAddrs u !! b <> Some ∅) ->
  exists u' rel,
    forgetUpfAddrLocked node a (u, peers) = (u', releaseAll rel peers) /\
    upfNodeAddrs u' = upfNodeAddrs u /\
    (forall b, nodesAt b (upfAddrs u') =
       if decide (a = b) then nodesAt b (upfAddrs u) ∖ {[node]} else nodesAt b (upfAddrs u)) /\
    (forall b, upfAddrs u' !! b <> Some ∅) /\
    rel = (if decide (is_Some (upfAddrs u !! a) /\ nodesAt a (upfAddrs u) ∖ {[node]} = ∅)
           then [a] else []).
Proof.
  intros Hne. unfold forgetUpfAddrLocked, nodesAt.
  destruct (upfAddrs u !! a) as [b|] eqn:Ha; simpl.
  - destruct (decide (0 < size (b ∖ {[node]}))%nat) as [Hs|Hs].
    + assert (b ∖ {[node]} <> ∅) as Hb by (intros Hb; rewrite Hb, size_empty in Hs; lia).
      eexists _, []. split; [done|]. split_and!; [done| | |].
      * intros c. simpl. rewrite lookup_insert. case_decide; [subst c; by rewrite Ha|done].
      * intros c. simpl. rewrite lookup_insert. case_decide; [congruence|done].
      * by rewrite decide_False by tauto.
    + assert (b ∖ {[node]} = ∅) as Hb by (apply gset_size_0; lia).
      eexists _, [a]. split; [done|]. split_and!; [done| | |].
      * intros c. simpl. rewrite lookup_delete. case_decide; [subst c; by rewrite Ha|done].
      * intros c. simpl. rewrite lookup_delete. by case_decide.
      * rewrite decide_True; [done|]. split; [by exists b|done].
  - exists u, []. split; [done|]. split_and!; [done| |done|].
    + intros c. case_decide; [subst c; rewrite Ha; set_solver|done].
    + done.
Qed.

(** Removing an identity from its record and from its address keeps the maps reversed. *)
Lemma forget_reversed node r u (peers : S) :
  addrs_ok u -> upfNodeAddrs u !! node = Some r ->
  let u1 := mkUpfAddrs (upfAddrs u) (delete node (upfNodeAddrs u)) in
  let st := if decide (addr r <> "") then forgetUpfAddrLocked node (addr r) (u1, peers)
            else (u1, peers) in
  exists rel,
    addrs_ok (fst st) /\ upfNodeAddrs (fst st) = delete node (upfNodeAddrs u) /\
    snd st = releaseAll rel peers /\ NoDup rel /\
    (forall a, nodesAt a (upfAddrs (fst st)) = nodesAt a (upfAddrs u) ∖ {[node]}) /\
    (forall a, a ∈ rel <-> is_Some (upfAddrs u !! a) /\ nodesAt a (upfAddrs (fst st)) = ∅).
Proof.
  intros [Hrev Hne] Hr u1 st.
  assert (Hout : forall a, a <> addr r -> nodesAt a (upfAddrs u) ∖ {[node]} = nodesAt a (upfAddrs u)).
  { intros a Ha. apply set_eq. intros n. rewrite elem_of_difference, elem_of_singleton.
    split; [by intros []|]. intros Hn. split; [done|]. intros ->.
    apply Hrev in Hn as (_ & r' & Hr' & Ha'). congruence. }
  assert (Hok : forall u', upfNodeAddrs u' = delete node (upfNodeAddrs u) ->
    (forall a, nodesAt a (upfAddrs u') = nodesAt a (upfAddrs u) ∖ {[node]}) ->
    (forall b, upfAddrs u' !! b <> Some ∅) -> addrs_ok u').
  { intros u' Hn Hat He. split; [|done]. intros a n. rewrite Hat, Hn, lookup_delete.
    rewrite elem_of_difference, elem_of_singleton, Hrev.
    case_decide; [subst n|naive_solver]. split; [naive_solver|]. by intros (_ & ? & ? & _). }
  unfold st. destruct (decide (addr r <> "")) as [Ha|Ha].
  - destruct (forget_spec node (addr r) u1 peers Hne) as (u' & rel & -> & Hn & Hat & He & ->).
    simpl in Hat, Hn. assert (Hat' : forall a, nodesAt a (upfAddrs u') =
      nodesAt a (upfAddrs u) ∖ {[node]}).
    { intros a. rewrite Hat. case_decide; [done|]. by rewrite Hout. }
    eexists. split_and!; [by apply Hok|done|done| |done|]; simpl.
    + case_decide; repeat constructor; set_solver.
    + intros a. rewrite Hat'. case_decide as Hd.
      * rewrite list_elem_of_singleton. split; [intros ->; tauto|].
        intros [Hs Hemp]. destruct (decide (a = addr r)) as [|Hna]; [done|].
        rewrite Hout in Hemp by done. by apply dom_nodesAt in Hs.
      * split; [by intros ?%elem_of_nil|]. intros [Hs Hemp]. exfalso.
        destruct (decide (a = addr r)) as [->|Hna]; [tauto|].
        rewrite Hout in Hemp by done. by apply dom_nodesAt in Hs.
  - assert (Hat : forall a, nodesAt a (upfAddrs u) ∖ {[node]} = nodesAt a (upfAddrs u)).
    { intros a. destruct (decide (a = addr r)) as [->|]; [|by apply Hout].
      destruct (decide (addr r = "")) as [Hemp|]; [|tauto].
      apply set_eq. intros n. specialize (Hrev (addr r) n). set_solver. }
    exists []. split_and!; [by apply Hok|done|done|constructor|done|]. simpl.
    intros a. split; [by intros ?%elem_of_nil|]. intros [Hs Hemp]. by apply dom_nodesAt in Hs.
Qed.
End Lemmas.

(** What a pass over the maps did to the peers: the addresses emptied by it were released, each
    once, and no others. *)
Definition released {S} `{!Peers S} (u : UpfAddrs) (peers : S) (st : UpfAddrs * S)
    (rel : list string) : Prop :=
  snd st = releaseAll rel peers /\ NoDup rel /\
  (forall a, nodesAt a (upfAddrs (fst st)) ⊆ nodesAt a (upfAddrs u)) /\
  (forall a, a ∈ rel <-> is_Some (upfAddrs u !! a) /\ nodesAt a (upfAddrs (fst st)) = ∅).

Section Expiry.
Context {S : Type} `{!Peers S, !MapRange string}.

Lemma released_trans u (p : S) st st' rel1 rel2 :
  addrs_ok u -> addrs_ok (fst st) ->
  released u p st rel1 -> released (fst st) (snd st) st' rel2 ->
  released u p st' (rel1 ++ rel2).
Proof.
  intros Hu Hst (Hs1 & Hnd1 & Hsub1 & Hrel1) (Hs2 & Hnd2 & Hsub2 & Hrel2). split_and!.
  - by rewrite releaseAll_app, <- Hs1.
  - apply NoDup_app. split_and!; [done| |done]. intros a Ha1 Ha2.
    apply Hrel1 in Ha1 as [_ Ha1]. apply Hrel2 in Ha2 as [Ha2 _]. by apply dom_nodesAt in Ha2.
  - intros a. etrans; [apply Hsub2|apply Hsub1].
  - intros a. specialize (Hsub1 a). specialize (Hsub2 a). rewrite elem_of_app, Hrel1, Hrel2.
    rewrite !dom_nodesAt by done.
    destruct (decide (nodesAt a (upfAddrs (fst st)) = ∅)) as [Hemp|Hemp].
    + rewrite Hemp in *. split; [|naive_solver]. intros [[? _]|[? _]]; [|done]. set_solver.
    + split; [|naive_solver]. intros [[_ ?]|[? ?]]; [done|]. split; [|done]. set_solver.
Qed.

Lemma released_refl u (p : S) : addrs_ok u -> released u p (u, p) [].
Proof.
  intros Hu. split_and!; [done|constructor|done|]. intros a. simpl.
  rewrite dom_nodesAt by done. split; [by intros ?%elem_of_nil|]. by intros [].
Qed.

Lemma expire_fold_spec now l u (p : S) :
  NoDup l.*1 -> (forall n r, (n, r) ∈ l -> upfNodeAddrs u !! n = Some r) -> addrs_ok u ->
  let st := fold_left (expireNode now) l (u, p) in
  addrs_ok (fst st) /\
  (forall n, upfNodeAddrs (fst st) !! n =
     upfNodeAddrs u !! n ≫= fun r => if decide (n ∈ l.*1 /\ ~ freshAt now r) then None else Some r) /\
  exists rel, released u p st rel.
Proof.
  revert u p. induction l as [|[n r] l IH]; intros u p Hnd Hl Hu; cbv zeta.
  - cbn [fold_left fst]. split_and!; [done| |exists []; by apply released_refl]. intros m.
    destruct (upfNodeAddrs u !! m); [|done]. cbn.
    case_match; [|done]. by destruct_and!.
  - cbn [fold_left]. apply NoDup_cons in Hnd as [Hn Hnd].
    assert (Hr : upfNodeAddrs u !! n = Some r) by (apply Hl; by left).
    assert (Hstep : expireNode now (u, p) (n, r) =
      if bool_decide (freshAt now r) then (u, p)
      else
        let u1 := mkUpfAddrs (upfAddrs u) (delete n (upfNodeAddrs u)) in
        if decide (addr r <> "") then forgetUpfAddrLocked n (addr r) (u1, p) else (u1, p)).
    { unfold expireNode. by rewrite time_Sub_fresh. }
    rewrite Hstep. clear Hstep. case_bool_decide as Hf.
    + destruct (IH u p Hnd) as (Hok & Hlk & Hrel); [intros; apply Hl; by right|done|].
      split_and!; [done| |done]. intros m. rewrite Hlk.
      destruct (upfNodeAddrs u !! m) as [r'|] eqn:Hm; [|done]. simpl.
      repeat case_decide; rewrite ?elem_of_cons in *; naive_solver.
    + destruct (forget_reversed n r u p Hu Hr) as (rel1 & Hok1 & Hn1 & Hs1 & Hnd1 & Hat1 & Hrel1).
      set (st1 := if decide (addr r <> "") then _ else _) in *. destruct st1 as [u1 p1] eqn:Hst1.
      simpl in Hok1, Hn1, Hs1, Hat1, Hrel1.
      destruct (IH u1 p1 Hnd) as (Hok & Hlk & rel2 & Hrel2); [|done|].
      { intros m r' Hin. rewrite Hn1, lookup_delete_ne.
        - apply Hl. by right.
        - intros <-. apply Hn. apply list_elem_of_fmap. by exists (n, r'). }
      split_and!; [done| |].
      * intros m. rewrite Hlk, Hn1, lookup_delete. case_decide as Hm.
        -- subst m. rewrite Hr. simpl. rewrite decide_True; [done|]. split; [by left|done].
        -- destruct (upfNodeAddrs u !! m); [|done]. simpl.
           repeat case_decide; rewrite ?elem_of_cons in *; naive_solver.
      * exists (rel1 ++ rel2). eapply (released_trans u p (u1, p1)); try done.
        split_and!; [done|done| |done]. intros a. simpl. rewrite Hat1. set_solver.
Qed.

(** Expiring drops exactly the identities that have not been named for a lifetime, in whatever
    order the map is walked. *)
Lemma expire_spec now u (p : S) :
  addrs_ok u ->
  let st := expireUpfAddrsLocked now (u, p) in
  addrs_ok (fst st) /\
  (forall n, upfNodeAddrs (fst st) !! n =
     upfNodeAddrs u !! n ≫= fun r => if decide (freshAt now r) then Some r else None) /\
  exists rel, released u p st rel.
Proof.
  intros Hu. destruct (expire_fold_spec now (range (upfNodeAddrs u)) u p) as (Hok & Hlk & Hrel);
    [apply NoDup_range_fst | intros n r; by rewrite elem_of_range | done |].
  split_and!; [done| |done]. intros n. unfold expireUpfAddrsLocked. simpl. rewrite Hlk.
  destruct (upfNodeAddrs u !! n) as [r|] eqn:Hr; [|done]. simpl.
  assert (n ∈ (range (upfNodeAddrs u)).*1).
  { apply list_elem_of_fmap. exists (n, r). split; [done|]. by apply elem_of_range. }
  repeat case_decide; tauto.
Qed.
End Expiry.

(** ** Recording *)

Lemma inter_empty_sub (X Y : gset string) : X ⊆ Y -> X = ∅ <-> Y ∩ X = ∅.
Proof. intros Hsub. split; [intros ->; set_solver|]. intros Hx. set_solver. Qed.

Lemma inter_empty_add (X Y : gset string) n :
  X ⊆ Y -> (n ∈ Y -> n ∈ X) -> X = ∅ <-> Y ∩ ({[n]} ∪ X) = ∅.
Proof.
  intros Hsub Hn. split.
  - intros ->. apply elem_of_equiv_empty_L. intros x. rewrite elem_of_intersection, elem_of_union.
    rewrite elem_of_singleton. intros [HY [->|Hx]]; [|set_solver]. apply Hn in HY. set_solver.
  - intros Hx. apply elem_of_equiv_empty_L. intros x HxX.
    assert (x ∈ Y ∩ ({[n]} ∪ X)) as Hin; [|rewrite Hx in Hin; set_solver].
    rewrite elem_of_intersection, elem_of_union. auto.
Qed.

(** There is an address to authorise. *)
Definition usable (ip : slice) : bool := negb (bool_decide (ip = None) || IP.IsUnspecified ip).

(** The record a node has once the SMF has named it at [now] and it resolved to [ip]. *)
Definition recordedAs (now : Time) (ip : slice) (old : option upfNodeRecord) : option upfNodeRecord :=
  let r := default zeroNodeRecord old in
  if time_After (seen r) now then old
  else Some (mkNodeRecord now (if usable ip then IP_String ip else addr r)).

(** The addresses released by a message: those that lost every identity they had. *)
Definition releasedBy {S} `{!Peers S} (u : UpfAddrs) (p : S) (st : UpfAddrs * S) (rel : list string)
    : Prop :=
  snd st = releaseAll rel p /\ NoDup rel /\
  (forall a, a ∈ rel <->
     is_Some (upfAddrs u !! a) /\ nodesAt a (upfAddrs u) ∩ nodesAt a (upfAddrs (fst st)) = ∅).

Section Recording.
Context {S : Type} `{!Peers S, !MapRange string}.

Lemma released_releasedBy u (p : S) st rel : released u p st rel -> releasedBy u p st rel.
Proof.
  intros (Hs & Hnd & Hsub & Hrel). split_and!; [done..|]. intros a. rewrite Hrel.
  specialize (Hsub a). split; intros [? Hx]; (split; [done|]); set_solver.
Qed.

(** Naming a node refreshes its record before anything is swept. *)
Lemma named_ok now node u :
  addrs_ok u ->
  addrs_ok (mkUpfAddrs (upfAddrs u)
    (<[node := mkNodeRecord now (addr (default zeroNodeRecord (upfNodeAddrs u !! node)))]>
       (upfNodeAddrs u))).
Proof.
  intros [Hrev Hne]. split; [|done]. intros a n. simpl. rewrite lookup_insert, Hrev.
  case_decide; [subst n|done]. destruct (upfNodeAddrs u !! node) as [r|]; simpl; naive_solver.
Qed.

Lemma time_After_lt t u : time_After t u = bool_decide (u < t).
Proof. unfold time_After. case_bool_decide; [by apply Z.ltb_lt | apply Z.ltb_ge; lia]. Qed.

(** Leaving the old address, when the node has one other than [key]: the state in between, in
    which the node's record still names the address it left. *)
Lemma leave_spec now node key old u (p : S) :
  addrs_ok u -> upfNodeAddrs u !! node = Some (mkNodeRecord now old) ->
  let st := if decide (old <> "" /\ old <> key) then forgetUpfAddrLocked node old (u, p)
            else (u, p) in
  exists rel, released u p st rel /\ upfNodeAddrs (fst st) = upfNodeAddrs u /\
    (forall a, nodesAt a (upfAddrs (fst st)) =
       if decide (a <> key) then nodesAt a (upfAddrs u) ∖ {[node]} else nodesAt a (upfAddrs u)) /\
    (forall b, upfAddrs (fst st) !! b <> Some ∅).
Proof.
  intros Hok Hnode st. pose proof Hok as [Hrev Hne].
  assert (Hold : forall a, node ∈ nodesAt a (upfAddrs u) <-> a = old /\ old <> "").
  { intros a. rewrite Hrev, Hnode. naive_solver. }
  unfold st. case_decide as Hmove.
  - destruct (forget_spec node old u p Hne) as (u2 & rel & -> & Hn & Hat & He & ->).
    assert (Hat2 : forall a, nodesAt a (upfAddrs u2) =
      if decide (a <> key) then nodesAt a (upfAddrs u) ∖ {[node]} else nodesAt a (upfAddrs u)).
    { intros a. rewrite Hat. specialize (Hold a). repeat case_decide; set_solver. }
    eexists. split; [|split_and!; done]. split_and!; [done| | |]; simpl.
    + case_decide; repeat constructor; set_solver.
    + intros a. rewrite Hat. case_decide; set_solver.
    + intros a. rewrite Hat. pose proof (dom_nodesAt u a Hok) as Hdom.
      destruct (decide (old = a)) as [<-|Hoa]; case_decide as Hd;
        rewrite ?list_elem_of_singleton, ?elem_of_nil; naive_solver.
  - exists []. split; [by apply released_refl|]. split_and!; [done| |done].
    intros a. simpl. specialize (Hold a). case_decide; [|done].
    apply set_eq. intros n. set_solver.
Qed.

(** [upfAddrs[key][node] = struct{}{}], creating the set when there is none. *)
Lemma enter_lookup node key (m : gmap string (gset string)) a :
  let addrs := match m !! key with None => <[key := ∅]> m | Some _ => m end in
  <[key := {[node]} ∪ nodesAt key addrs]> addrs !! a =
    if decide (a = key) then Some ({[node]} ∪ nodesAt key m) else m !! a.
Proof.
  cbv zeta. rewrite lookup_insert. unfold nodesAt. destruct (decide (key = a)) as [<-|Hne].
  - rewrite decide_True by done. destruct (m !! key) eqn:Hk; [by rewrite Hk|].
    by rewrite lookup_insert_eq.
  - rewrite decide_False by congruence. destruct (m !! key); [done|]. by rewrite lookup_insert_ne.
Qed.

(** The tail of the critical section: placing a node at the address it resolved to. *)
Lemma move_spec now node key old u (p : S) :
  addrs_ok u -> key <> "" -> upfNodeAddrs u !! node = Some (mkNodeRecord now old) ->
  let '(u2, p2) := if decide (old <> "" /\ old <> key) then forgetUpfAddrLocked node old (u, p)
                   else (u, p) in
  let addrs := match upfAddrs u2 !! key with
               | None => <[key := ∅]> (upfAddrs u2)
               | Some _ => upfAddrs u2
               end in
  let u' := mkUpfAddrs (<[key := {[node]} ∪ nodesAt key addrs]> addrs)
              (<[node := mkNodeRecord now key]> (upfNodeAddrs u2)) in
  addrs_ok u' /\ upfNodeAddrs u' = <[node := mkNodeRecord now key]> (upfNodeAddrs u) /\
  exists rel, released u p (u2, p2) rel /\
    nodesAt key (upfAddrs u2) = nodesAt key (upfAddrs u) /\
    forall a, nodesAt a (upfAddrs u') =
      if decide (a = key) then {[node]} ∪ nodesAt a (upfAddrs u2) else nodesAt a (upfAddrs u2).
Proof.
  intros Hok Hkey Hnode. pose proof (leave_spec now node key old u p Hok Hnode) as Hst.
  assert (Hold : forall a, node ∈ nodesAt a (upfAddrs u) <-> a = old /\ old <> "").
  { intros a. rewrite (proj1 Hok), Hnode. naive_solver. }
  set (st := if decide (old <> "" /\ old <> key) then _ else _) in *.
  destruct Hst as (rel & Hrel & Hn & Hat & He). destruct st as [u2 p2]. simpl in Hn, Hat, He.
  cbv zeta. pose proof (enter_lookup node key (upfAddrs u2)) as Hadd. cbv zeta in Hadd.
  set (addrs := match upfAddrs u2 !! key with Some _ => _ | None => _ end) in *.
  assert (Hat' : forall a, nodesAt a (<[key := {[node]} ∪ nodesAt key addrs]> addrs) =
    if decide (a = key) then {[node]} ∪ nodesAt a (upfAddrs u2) else nodesAt a (upfAddrs u2)).
  { intros a. unfold nodesAt at 1. rewrite Hadd. case_decide; [by subst|done]. }
  split_and!; simpl.
  - split; simpl.
    + intros a n. rewrite Hat', Hat, Hn, lookup_insert. specialize (Hold a).
      pose proof (proj1 Hok a n) as Hrev. repeat case_decide; subst; set_solver.
    + intros a. rewrite Hadd. case_decide; [|apply He]. intros [= Heq]. set_solver.
  - by rewrite Hn.
  - exists rel. split_and!; [done| |done]. rewrite Hat. by rewrite decide_False by tauto.
Qed.

(** Named now and the table expired: the identity is there, and of the others those that are fresh. *)
Lemma named_expire now node u (p : S) :
  addrs_ok u ->
  let a := addr (default zeroNodeRecord (upfNodeAddrs u !! node)) in
  let u1 := mkUpfAddrs (upfAddrs u) (<[node := mkNodeRecord now a]> (upfNodeAddrs u)) in
  let st := expireUpfAddrsLocked now (u1, p) in
  addrs_ok u1 /\ addrs_ok (fst st) /\
  upfNodeAddrs (fst st) !! node = Some (mkNodeRecord now a) /\
  (forall m, m <> node -> upfNodeAddrs (fst st) !! m =
     upfNodeAddrs u !! m ≫= fun r => if decide (freshAt now r) then Some r else None) /\
  exists rel, released u1 p st rel.
Proof.
  intros Hok a u1 st. assert (Hok1 : addrs_ok u1) by by apply named_ok.
  destruct (expire_spec now u1 p Hok1) as (Hok2 & Hlk & Hrel). split_and!; [done|done| | |done].
  - unfold st. rewrite Hlk. unfold u1. cbn [upfNodeAddrs]. rewrite lookup_insert_eq. simpl.
    rewrite decide_True; [done|]. unfold freshAt. simpl. by rewrite Z.sub_diag.
  - intros m Hm. unfold st. rewrite Hlk. unfold u1. cbn [upfNodeAddrs]. by rewrite lookup_insert_ne.
Qed.

(** What the critical section does to the two maps, and whom it releases. *)
Lemma record_spec now ip node u (p : S) :
  addrs_ok u ->
  let st := recordUpfAddrLocked now ip node (u, p) in
  addrs_ok (fst st) /\
  upfNodeAddrs (fst st) !! node = recordedAs now ip (upfNodeAddrs u !! node) /\
  (forall m, m <> node -> upfNodeAddrs (fst st) !! m =
     upfNodeAddrs u !! m ≫= fun r => if decide (freshAt now r) then Some r else None) /\
  exists rel, releasedBy u p st rel.
Proof.
  intros Hok. unfold recordUpfAddrLocked, recordedAs.
  set (record := default zeroNodeRecord (upfNodeAddrs u !! node)).
  rewrite time_After_lt. destruct (bool_decide (now < seen record)) eqn:Hsup; cbn [negb].
  - apply bool_decide_eq_true in Hsup.
    destruct (expire_spec now u p Hok) as (Hok1 & Hlk & rel & Hrel).
    set (st := expireUpfAddrsLocked now (u, p)) in *.
    assert (Hthis : upfNodeAddrs (fst st) !! node = upfNodeAddrs u !! node).
    { rewrite Hlk. unfold record in Hsup. destruct (upfNodeAddrs u !! node) as [r|]; [|done].
      simpl in *. rewrite decide_True; [done|]. unfold freshAt.
      unfold upfAddrLifetime, Minute, Second. lia. }
    destruct (_ || _); (split_and!; [done|done|intros m _; apply Hlk|]);
      exists rel; by apply released_releasedBy.
  - destruct (named_expire now node u p Hok) as (Hok1 & Hok2 & Hthis & Hothers & rel1 & Hrel1).
    fold record in Hok1, Hok2, Hthis, Hothers, Hrel1 |- *.
    set (u1 := mkUpfAddrs (upfAddrs u) _) in *. set (st := expireUpfAddrsLocked now (u1, p)) in *.
    unfold usable. destruct (bool_decide (ip = None) || IP.IsUnspecified ip) eqn:Hip; cbn [negb].
    + split_and!; [done..|]. exists rel1. by apply (released_releasedBy u1).
    + destruct st as [u2 p2]. cbn [fst] in *.
      pose proof (move_spec now node (IP_String ip) (addr record) u2 p2 Hok2
        (IP_String_nonempty ip) Hthis) as Hmove. cbn [addr].
      destruct (if decide (addr record <> "" /\ addr record <> IP_String ip) then _ else _)
        as [u3 p3]. cbv zeta in Hmove. destruct Hmove as (Hok3 & Hn3 & rel2 & Hrel2 & Hkey & Hat3).
      cbn [fst]. split_and!; [done| | |].
      * by rewrite Hn3, lookup_insert_eq.
      * intros m Hm. rewrite Hn3, lookup_insert_ne by done. by apply Hothers.
      * exists (rel1 ++ rel2).
        pose proof (released_trans u1 p (u2, p2) (u3, p3) rel1 rel2 Hok1 Hok2 Hrel1 Hrel2) as Hall.
        destruct Hall as (Hs & Hnd & Hsub & Hrel). split_and!; [done..|].
        intros a. cbn [fst]. rewrite Hrel, Hat3. specialize (Hsub a). cbn [fst] in *.
        assert (Hnode : node ∈ nodesAt a (upfAddrs u) -> a = IP_String ip ->
          node ∈ nodesAt a (upfAddrs u3)).
        { intros Hin ->. rewrite Hkey. apply Hok2. split; [apply IP_String_nonempty|].
          eexists. split; [exact Hthis|]. apply (proj1 Hok) in Hin as (_ & r & Hr & Ha).
          simpl. unfold record. by rewrite Hr. }
        change (upfAddrs u1) with (upfAddrs u) in *.
        apply and_iff_compat_l. destruct (decide (a = IP_String ip)) as [Ha|Ha].
        -- apply inter_empty_add; [exact Hsub|]. intros Hin. by apply Hnode.
        -- by apply inter_empty_sub.
Qed.
End Recording.

Lemma IsKnown_spec `{!MapRange string} now ip u :
  addrs_ok u ->
  IsKnownUpfAddr now ip u = true <->
  ip <> None /\ exists n r, upfNodeAddrs u !! n = Some r /\ addr r = IP_String ip /\ freshAt now r.
Proof.
  intros [Hrev _]. unfold IsKnownUpfAddr. destruct (decide (ip = None)) as [Hip|Hip]; [naive_solver|].
  rewrite existsb_exists. split.
  - intros (n & Hin & Hf). rewrite <- list_elem_of_In, elem_of_range_set, Hrev in Hin.
    destruct Hin as (_ & r & Hr & Ha). rewrite Hr, time_Sub_fresh, bool_decide_eq_true in Hf.
    simpl in Hf. eauto 10.
  - intros (_ & n & r & Hr & Ha & Hf). exists n.
    rewrite <- list_elem_of_In, elem_of_range_set, Hrev, Hr, time_Sub_fresh.
    split; [|by apply bool_decide_eq_true]. split; [rewrite <- Ha, Ha; apply IP_String_nonempty|].
    eauto.
Qed.

(** ** Releasing later

    What is released does not bear on the two maps: it can be listed while they are changed, and
    released afterwards. *)

Definition listed : Peers (list string) :=
  {| dropRelays a l := l ++ [a]; upfAddrReleased := None |}.

#[local] Existing Instance listed.

Lemma releaseAll_listed rel l : releaseAll rel l = l ++ rel.
Proof.
  revert l. induction rel as [|a rel IH]; intros l; [by rewrite app_nil_r|].
  change (releaseAll (a :: rel) l) with (releaseAll rel (l ++ [a])). by rewrite IH, <- app_assoc.
Qed.

Section Later.
Context {S : Type} `{!Peers S, !MapRange string}.

Definition releasing (peers : S) (st : UpfAddrs * list string) : UpfAddrs * S :=
  (fst st, releaseAll (snd st) peers).

Lemma forget_later node a (p : S) st :
  forgetUpfAddrLocked node a (releasing p st) = releasing p (forgetUpfAddrLocked node a st).
Proof.
  destruct st as [u l]. unfold releasing, forgetUpfAddrLocked. simpl.
  destruct (upfAddrs u !! a); [|done]. case_decide; [done|]. f_equal.
  exact (eq_sym (releaseAll_app l [a] p)).
Qed.

Lemma expire_later now (p : S) st :
  expireUpfAddrsLocked now (releasing p st) = releasing p (expireUpfAddrsLocked now st).
Proof.
  unfold expireUpfAddrsLocked. simpl fst at 1. generalize (range (upfNodeAddrs (fst st))). intros l.
  revert st. induction l as [|[node r] l IH]; intros st; [done|]. cbn [fold_left]. rewrite <- IH.
  f_equal. destruct st as [u rel]. unfold expireNode. case_match; [done|]. case_decide; [|done].
  apply (forget_later node (addr r) p (mkUpfAddrs (upfAddrs u) (delete node (upfNodeAddrs u)), rel)).
Qed.

Lemma expire_then now (p : S) u l :
  expireUpfAddrsLocked now (u, releaseAll l p) = releasing p (expireUpfAddrsLocked now (u, l)).
Proof. apply (expire_later now p (u, l)). Qed.

Lemma record_later now ip node (p : S) u l :
  recordUpfAddrLocked now ip node (u, releaseAll l p) =
    releasing p (recordUpfAddrLocked now ip node (u, l)).
Proof.
  unfold recordUpfAddrLocked. set (record := default zeroNodeRecord (upfNodeAddrs u !! node)).
  destruct (negb (time_After (seen record) now)); rewrite expire_then;
    (destruct (_ || _); [done|]); (destruct (time_After _ _); [done|]);
    (case_decide; [rewrite forget_later; by destruct (forgetUpfAddrLocked _ _ _)|]);
    by destruct (expireUpfAddrsLocked _ _).
Qed.
End Later.
