(* ===== verification/UpfAddrsProps.v ===== *)
(** * UpfAddrsProps: who the adapter relays for

    Which peers are authorised after every sequence of SMF messages, what moving and falling
    silent do, and that an address is released exactly when its last identity leaves. *)

From Stdlib Require Import Strings.Byte Strings.String.
From S2P Require Import Prelude GoNet NodeId UpfAddrs.

#[local] Open Scope string_scope.
#[local] Open Scope list_scope.
#[local] Open Scope Z_scope.

(** ** Every sequence of SMF messages *)

Section Messages.
Context {S : Type} `{!Peers S, !MapRange string}.

(** The address books reachable from the empty one: any messages, in any order, with whatever
    clock readings and resolutions. *)
Inductive addressed : UpfAddrs -> Prop :=
| addressed_init : addressed initUpfAddrs
| addressed_step u (p : S) now ip node :
    addressed u -> addressed (fst (recordUpfAddrLocked now ip node (u, p))).

Lemma addressed_ok u : addressed u -> addrs_ok u.
Proof.
  induction 1 as [|u p now ip node _ IH]; [apply addrs_ok_init|].
  by destruct (record_spec now ip node u p IH).
Qed.

(** C31. In every reachable state the two maps are the reverse of each other: a node is in the
    set of an address exactly when that is the address in its record, no set is empty, and a
    report's source is accepted exactly when some node the SMF named within the lifetime was
    last placed there -- whether or not anything has been swept since. *)
Theorem IsKnownUpfAddr_iff now ip u :
  addressed u ->
  addrs_ok u /\
  (IsKnownUpfAddr now ip u = true <->
   ip <> None /\
   exists node r, upfNodeAddrs u !! node = Some r /\ addr r = IP_String ip /\ freshAt now r).
Proof. intros Hu. apply addressed_ok in Hu. split; [done|]. by apply IsKnown_spec. Qed.

(** Naming a user plane authorises it: after a message that resolved to an address and was
    not overtaken by a later one, reports from that address are accepted for the whole
    lifetime, in the 4-octet form a socket gives as in the 16-octet form a resolver gives. *)
Theorem RecordUpfAddr_authorises now now' ip ip' p4 node u (p : S) :
  addrs_ok u -> usable ip = true ->
  time_After (seen (default zeroNodeRecord (upfNodeAddrs u !! node))) now = false ->
  IP.To4 ip = Some p4 -> IP.To4 ip' = Some p4 ->
  now' - now <= upfAddrLifetime ->
  IsKnownUpfAddr now' ip' (fst (recordUpfAddrLocked now ip node (u, p))) = true.
Proof.
  intros Hok Hip Hsup H4 H4' Hnow.
  destruct (record_spec now ip node u p Hok) as (Hok' & Hnode & _). apply IsKnown_spec; [done|].
  split; [by destruct ip'|]. unfold recordedAs in Hnode. rewrite Hsup, Hip in Hnode.
  exists node. eexists. split; [exact Hnode|]. split; [|done]. simpl.
  by rewrite (IP_String_To4 _ _ H4), (IP_String_To4 _ _ H4').
Qed.



(** A name that stops resolving is not a user plane that has gone: a message whose node does
    not resolve keeps the node at the address it had and restarts its lifetime. *)
Theorem unresolved_keeps_address now now' ip ip' node r u (p : S) :
  addrs_ok u -> usable ip = false -> upfNodeAddrs u !! node = Some r -> seen r <= now ->
  addr r = IP_String ip' -> ip' <> None -> now' - now <= upfAddrLifetime ->
  IsKnownUpfAddr now' ip' (fst (recordUpfAddrLocked now ip node (u, p))) = true.
Proof.
  intros Hok Hip Hr Hseen Ha Hip' Hnow.
  destruct (record_spec now ip node u p Hok) as (Hok' & Hnode & _).
  apply IsKnown_spec; [done|]. split; [done|]. exists node. eexists. split.
  - rewrite Hnode, Hr. unfold recordedAs. simpl. rewrite time_After_lt, Hip.
    rewrite bool_decide_eq_false_2 by lia. done.
  - done.
Qed.

(** C34. An address is released exactly when its last identity leaves it: a message releases --
    once each, and from inside the critical section -- the addresses none of whose identities
    are still at them afterwards, whether the node it names moved away or others fell silent,
    and no others. *)
Theorem RecordUpfAddr_releases now ip node u (p : S) :
  addrs_ok u ->
  let st := recordUpfAddrLocked now ip node (u, p) in
  exists rel,
    snd st = releaseAll rel p /\ NoDup rel /\
    forall a, a ∈ rel <->
      is_Some (upfAddrs u !! a) /\
      nodesAt a (upfAddrs u) ∩ nodesAt a (upfAddrs (fst st)) = ∅.
Proof. intros Hok. by destruct (record_spec now ip node u p Hok) as (_ & _ & _ & Hrel). Qed.
End Messages.

(** ** Witnesses *)

(** Peers that only note what is released. *)
Definition logPeers : Peers (list string) :=
  {| dropRelays a l := l ++ ["relays of " +:+ a]; upfAddrReleased := Some (fun a l => l ++ ["table of " +:+ a]) |}.

Definition named (now : Time) (s : string) (u : UpfAddrs) : UpfAddrs :=
  fst (recordUpfAddrLocked (Peers0 := logPeers) now (ParseIP.ParseIP s) ("2/" +:+ "upf") (u, [])).

Definition book : UpfAddrs := named (100 * Second) "10.42.0.184" initUpfAddrs.

Lemma book_addressed : addressed (Peers0 := logPeers) book.
Proof. apply addressed_step, addressed_init. Qed.

Lemma book_ok : addrs_ok book.
Proof. eapply addressed_ok, book_addressed. Qed.

Lemma IsKnownUpfAddr_iff_witness :
  addrs_ok book /\
  (IsKnownUpfAddr (200 * Second) (Some ["010"; "042"; "000"; "184"]%byte) book = true <->
   Some ["010"; "042"; "000"; "184"]%byte <> None /\
   exists node r, upfNodeAddrs book !! node = Some r /\
     addr r = IP_String (Some ["010"; "042"; "000"; "184"]%byte) /\ freshAt (200 * Second) r).
Proof. apply (IsKnownUpfAddr_iff _ _ _ book_addressed). Defined.

Lemma RecordUpfAddr_authorises_witness :
  IsKnownUpfAddr (200 * Second) (Some ["010"; "042"; "000"; "185"]%byte)
    (fst (recordUpfAddrLocked (Peers0 := logPeers) (150 * Second) (ParseIP.ParseIP "10.42.0.185")
            "2/upf" (book, []))) = true.
Proof.
  apply (RecordUpfAddr_authorises (Peers0 := logPeers) (150 * Second) (200 * Second)
    (ParseIP.ParseIP "10.42.0.185") (Some ["010"; "042"; "000"; "185"]%byte)
    ["010"; "042"; "000"; "185"]%byte "2/upf" book []);
    [apply book_ok | vm_compute; reflexivity..|]. vm_compute. discriminate.
Defined.


Lemma unresolved_keeps_address_witness :
  IsKnownUpfAddr (300 * Second) (ParseIP.ParseIP "10.42.0.184")
    (fst (recordUpfAddrLocked (Peers0 := logPeers) (150 * Second) IP.IPv4zero "2/upf" (book, []))) = true.
Proof.
  apply (unresolved_keeps_address (Peers0 := logPeers) (150 * Second) (300 * Second) IP.IPv4zero
    (ParseIP.ParseIP "10.42.0.184") "2/upf" (mkNodeRecord (100 * Second) "10.42.0.184") book []);
    [apply book_ok | vm_compute; reflexivity | vm_compute; reflexivity | vm_compute; discriminate
    | vm_compute; reflexivity | vm_compute; discriminate | vm_compute; discriminate].
Defined.

Lemma RecordUpfAddr_releases_witness :
  exists rel,
    ["relays of 10.42.0.184"; "table of 10.42.0.184"] = releaseAll (Peers0 := logPeers) rel [] /\
    NoDup rel /\
    forall a, a ∈ rel <->
      is_Some (upfAddrs book !! a) /\
      nodesAt a (upfAddrs book) ∩ nodesAt a (upfAddrs (named (150 * Second) "10.42.0.185" book)) = ∅.
Proof.
  pose proof (RecordUpfAddr_releases (Peers0 := logPeers) (150 * Second)
    (ParseIP.ParseIP "10.42.0.185") "2/upf" book [] book_ok) as Hw. cbv zeta in Hw.
  replace (snd (recordUpfAddrLocked (150 * Second) (ParseIP.ParseIP "10.42.0.185") "2/upf" (book, [])))
    with ["relays of 10.42.0.184"; "table of 10.42.0.184"] in Hw by (vm_compute; reflexivity).
  exact Hw.
Defined.
