(* ===== verification/SmfAddr.v ===== *)
(** * SmfAddr: where the SMF talks to the adapter from ([config/config.go])

    One variable under [smfAddrMutex], written by every SMF message that carries a usable claim
    and read by every report. Reading returns a copy; values here are immutable, so a copy is
    the value. *)

From Stdlib Require Import Strings.Byte Strings.String.
From S2P Require Import Prelude GoNet NodeId.

#[local] Open Scope string_scope.
#[local] Open Scope list_scope.
#[local] Open Scope Z_scope.

Definition PfcpPort : N := 8805.

(** [smfAddr], nil until an SMF has spoken. *)
Definition SetSmfAddr (ip : string) (smfAddr : slice) : slice :=
  if decide (ip = "") then smfAddr
  else
    let parsed := ParseIP.ParseIP ip in
    if decide (parsed = None) then smfAddr
    else if IP.IsUnspecified parsed then smfAddr
    else parsed.

Definition SmfAddr (smfAddr : slice) : option UDPAddr :=
  match smfAddr with
  | None => None
  | Some _ => Some (UDPAddr.mk smfAddr PfcpPort "")
  end.

(** The warning of the HTTP handler about a claim that is not the address it came from: given
    the host of the connection and what [SmfAddr] returns at that moment. *)
Definition warnsMismatch (claim host : string) (current : option UDPAddr) : bool :=
  negb (bool_decide (claim = "")) && negb (bool_decide (claim = host)) &&
  match current with
  | None => true
  | Some a => negb (bool_decide (IP_String (UDPAddr.IP a) = claim))
  end.

(** ** Lemmas *)

(** A claim the adapter takes. *)
Definition goodClaim (ip : string) : option slice :=
  let parsed := ParseIP.ParseIP ip in
  if bool_decide (parsed = None) || IP.IsUnspecified parsed then None else Some parsed.

Lemma ParseIP_empty : ParseIP.ParseIP "" = None.
Proof. reflexivity. Qed.

Lemma SetSmfAddr_good ip cur : SetSmfAddr ip cur = default cur (goodClaim ip).
Proof.
  unfold SetSmfAddr, goodClaim. destruct (decide (ip = "")) as [->|Hne]; [done|].
  destruct (decide (ParseIP.ParseIP ip = None)) as [Hp|Hp].
  - by rewrite bool_decide_eq_true_2.
  - rewrite bool_decide_eq_false_2 by done. simpl. by destruct (IP.IsUnspecified _).
Qed.

(** ** Properties *)

(** The recorded address is the last usable claim: through any sequence of SMF messages,
    empty, malformed and unspecified claims leave it as it was, so it is nil only while no
    usable claim has arrived, and then nothing that follows erases it; what a report is relayed
    to is that address, sixteen octets of it and never the unspecified one, on the PFCP port. *)
Theorem SmfAddr_last_good_claim claims :
  let cur := fold_left (fun cur ip => SetSmfAddr ip cur) claims None in
  cur = default None (last (omap goodClaim claims)) /\
  (cur = None <-> omap goodClaim claims = []) /\
  (forall a, SmfAddr cur = Some a ->
     UDPAddr.IP a = cur /\ UDPAddr.Port a = PfcpPort /\ length (bytes cur) = IP.IPv6len /\
     IP.IsUnspecified cur = false).
Proof.
  intros cur.
  assert (Hgood : forall ip s, goodClaim ip = Some s ->
    s <> None /\ length (bytes s) = IP.IPv6len /\ IP.IsUnspecified s = false).
  { intros ip s. unfold goodClaim. case_bool_decide as Hp; [done|].
    destruct (IP.IsUnspecified _) eqn:Hu; [done|]. intros [= <-]. split_and!; [done| |done].
    destruct (ParseIP.ParseIP ip) as [b|] eqn:Hb; [|done]. by apply ParseIP_length in Hb. }
  assert (Hcur : cur = default None (last (omap goodClaim claims)) /\
    forall s, last (omap goodClaim claims) = Some s -> exists ip, goodClaim ip = Some s).
  { unfold cur. induction claims as [|ip claims IH] using rev_ind; [done|].
    destruct IH as [IH Hlast]. rewrite fold_left_app, omap_app. simpl. rewrite IH, SetSmfAddr_good.
    destruct (goodClaim ip) as [s|] eqn:Hg; simpl.
    - rewrite last_snoc. split; [done|]. intros s' [= <-]. eauto.
    - by rewrite app_nil_r. }
  destruct Hcur as [-> Hlast]. destruct (omap goodClaim claims) as [|s l] eqn:Ho; [done|].
  destruct (last (s :: l)) as [c|] eqn:Hl; [|by apply last_None in Hl].
  destruct (Hlast c eq_refl) as (ip & Hip). apply Hgood in Hip as (Hn & Hlen & Hu). simpl.
  split_and!; [done|by split|]. intros a Ha. destruct c as [b|]; [|done].
  simpl in Ha. by injection Ha as <-.
Qed.

(** When the mismatch between a claim and the host it came from is warned about, the claim having
    been made before by the message just handled: for a usable claim exactly when the claim is not
    the canonical text of its own address, and then on every message; an unusable one leaves the
    recorded address, and with it the warning, as they were. *)
Theorem mismatch_warned claim host cur :
  claim <> "" -> claim <> host ->
  warnsMismatch claim host (SmfAddr (SetSmfAddr claim cur)) =
    match goodClaim claim with
    | Some s => negb (bool_decide (IP_String s = claim))
    | None => warnsMismatch claim host (SmfAddr cur)
    end.
Proof.
  intros Hne Hh. rewrite SetSmfAddr_good. destruct (goodClaim claim) as [s|] eqn:Hg; [|done].
  assert (Hs : s <> None).
  { unfold goodClaim in Hg. case_bool_decide; [done|]. simpl in Hg. by destruct (IP.IsUnspecified _); simplify_eq. }
  unfold warnsMismatch. rewrite !bool_decide_eq_false_2 by done. simpl. by destruct s.
Qed.

(** A name, and an address written out in full, are warned about however often they are claimed; the
    canonical text of an address only when it is new. *)
Lemma mismatch_warned_witness :
  warnsMismatch "smf" "10.0.0.1" (SmfAddr (SetSmfAddr "smf" (SetSmfAddr "10.0.0.2" None))) = true /\
  warnsMismatch "fd00:0::2" "10.0.0.1" (SmfAddr (SetSmfAddr "fd00:0::2" None)) = true /\
  warnsMismatch "10.0.0.2" "10.0.0.1" (SmfAddr (SetSmfAddr "10.0.0.2" None)) = false.
Proof.
  split; [|split]; (rewrite mismatch_warned by discriminate); vm_compute; reflexivity.
Defined.
