(* ===== verification/UpfTxns.v ===== *)
(** * UpfTxns: SMF requests waiting for a user plane's answer ([config/config.go])

    An HTTP handler registers a channel under the sequence number of the request it forwards
    and waits on it; the PFCP receive path takes the registration out and sends the answer.
    Each operation runs under [UpfTxnsMutex]. *)

From S2P Require Import Prelude.

#[local] Open Scope Z_scope.

(** A channel, by identity; [None] is the nil channel. *)
Abbreviation chanId := nat (only parsing).
Abbreviation PfcpTxnChan := (option nat) (only parsing).

Abbreviation UpfTxns := (gmap Z (option nat)) (only parsing).

(** [UpfTxns[seq]]: missing reads as nil. *)
Definition txnAt (seq : Z) (txns : UpfTxns) : PfcpTxnChan := default None (txns !! seq).

Definition InsertUpfPfcpTxn (seq : Z) (c : PfcpTxnChan) (txns : UpfTxns) : UpfTxns :=
  <[seq := c]> txns.

Definition ForgetUpfPfcpTxn (seq : Z) (own : PfcpTxnChan) (txns : UpfTxns) : UpfTxns :=
  match txns !! seq with
  | None => txns
  | Some held => if decide (held <> own) then txns else delete seq txns
  end.

Definition GetUpfPfcpTxn (seq : Z) (txns : UpfTxns) : PfcpTxnChan * UpfTxns :=
  match txnAt seq txns with
  | Some c => (Some c, delete seq txns)
  | None => (None, txns)
  end.

(** ** Properties *)

(** A registration is answered once, and to the channel that made it: fetching after
    registering yields that channel and takes the registration out, so a second answer under
    the number finds nothing, and no other number is touched by either. *)
Theorem UpfTxn_delivered_once seq c txns :
  GetUpfPfcpTxn seq (InsertUpfPfcpTxn seq (Some c) txns) = (Some c, delete seq txns) /\
  GetUpfPfcpTxn seq (delete seq txns) = (None, delete seq txns) /\
  forall seq', seq' <> seq ->
    fst (GetUpfPfcpTxn seq' (InsertUpfPfcpTxn seq (Some c) txns)) = fst (GetUpfPfcpTxn seq' txns) /\
    fst (GetUpfPfcpTxn seq' (delete seq txns)) = fst (GetUpfPfcpTxn seq' txns).
Proof.
  unfold GetUpfPfcpTxn, InsertUpfPfcpTxn, txnAt. split_and!.
  - rewrite lookup_insert_eq. simpl. by rewrite delete_insert_eq.
  - by rewrite lookup_delete_eq.
  - intros seq' Hne. rewrite lookup_insert_ne, lookup_delete_ne by done.
    by destruct (txns !! seq') as [[]|].
Qed.

(** A rollback drops its own registration and only its own: it undoes the registration it
    belongs to, and it leaves in place one that another request has since made under the same
    number, or under any other. *)
Theorem ForgetUpfPfcpTxn_only_own seq own txns :
  txnAt seq (ForgetUpfPfcpTxn seq (Some own) (InsertUpfPfcpTxn seq (Some own) txns)) = None /\
  (forall other, other <> own ->
     ForgetUpfPfcpTxn seq (Some own) (InsertUpfPfcpTxn seq (Some other) txns) =
       InsertUpfPfcpTxn seq (Some other) txns) /\
  (forall seq', seq' <> seq ->
     ForgetUpfPfcpTxn seq (Some own) txns !! seq' = txns !! seq').
Proof.
  unfold ForgetUpfPfcpTxn, InsertUpfPfcpTxn, txnAt. split_and!.
  - rewrite lookup_insert_eq, decide_False by tauto. by rewrite lookup_delete_eq.
  - intros other Hne. rewrite lookup_insert_eq, decide_True by congruence. done.
  - intros seq' Hne. destruct (txns !! seq); [|done]. case_decide; [done|].
    by rewrite lookup_delete_ne.
Qed.
