(* ===== verification/UpfTable.v ===== *)
(** * UpfTable: the user planes the adapter has associated with ([config/config.go])

    [UpfCfg.UPFs] maps the octets of a node identity to a node; nodes are only ever added, each
    under one key, so a [*UPNode] is that key. The association and heartbeat responses kept in
    a node are messages of the PFCP library: a parameter, [None] being the zero value with its
    nil header. Each node has a lock of its own for them. *)

From Stdlib Require Import Strings.Byte Strings.String.
From S2P Require Import Prelude GoNet NodeId.

#[local] Open Scope string_scope.
#[local] Open Scope list_scope.
#[local] Open Scope Z_scope.

(** ** Data *)

Inductive UPFStatus := NotAssociated | AssociatedSettingUp | AssociatedSetUpSuccess.

#[export] Instance UPFStatus_eq_dec : EqDecision UPFStatus.
Proof. solve_decision. Defined.

(** A [sync.RWMutex] between two critical sections, each of which is one step here: the read locks
    taken and not given back, and whether a writer has come and waits for them, which keeps new
    readers out. *)
Record RWMutex := mkRWMutex {
  readers : nat;
  waiting : bool;
}.

Definition unlocked : RWMutex := mkRWMutex 0 false.

#[export] Instance RWMutex_eq_dec : EqDecision RWMutex.
Proof. solve_decision. Defined.

(** [None] while it has to wait. *)
Definition RLock (m : RWMutex) : option RWMutex :=
  if waiting m then None else Some (mkRWMutex (S (readers m)) false).

Definition RUnlock (m : RWMutex) : RWMutex := mkRWMutex (pred (readers m)) (waiting m).

(** Locked for writing when no reader is left; [None] while it has to wait. *)
Definition WLock (m : RWMutex) : option RWMutex :=
  if decide (readers m = 0%nat) then Some m else None.

(** A writer that has to wait. None of the read locks left is ever given back, so it does for ever. *)
Definition announce (m : RWMutex) : RWMutex := mkRWMutex (readers m) true.

Definition WUnlock (m : RWMutex) : RWMutex := mkRWMutex (readers m) false.

Record UPNode (R H : Type) := mkUPNode {
  UpfName : string;
  LastAssoRsp : option R;
  LastHBRsp : option H;
  ANIP : slice;
  NodeID_ : NodeID;
  State : UPFStatus;
  UpfLock : RWMutex;
}.
Arguments mkUPNode {R H}.
Arguments UpfName {R H}.
Arguments LastAssoRsp {R H}.
Arguments LastHBRsp {R H}.
Arguments ANIP {R H}.
Arguments NodeID_ {R H}.
Arguments State {R H}.
Arguments UpfLock {R H}.

Section Operations.
Context {R H : Type} `{!MapRange string}.

Abbreviation UPFs := (gmap string (UPNode R H)).

(** [string(nodeId.NodeIdValue)], the key of the table. *)
Definition upfKey (n : NodeID) : string := string_of_slice (NodeIdValue n).

Definition IsUpfAssociated (n : NodeID) (upfs : UPFs) : bool :=
  match upfs !! upfKey n with
  | Some upf => bool_decide (State upf = AssociatedSetUpSuccess)
  | None => false
  end.

(** The test of the loop body. *)
Definition nodeMatches (n : NodeID) (upf : UPNode R H) : bool :=
  if decide (NodeIdType n = NodeIdTypeIpv4Address) then
    bytes_Equal (IP.To4 (ANIP upf)) (NodeIdValue n)
  else if decide (NodeIdType n = NodeIdTypeFqdn /\ NodeIdType (NodeID_ upf) = NodeIdTypeFqdn) then
    bytes_Equal (NodeIdValue n) (NodeIdValue (NodeID_ upf))
  else false.

(** The first match in the order the map is walked; [None] is nil. *)
Definition GetUpfFromNodeId (n : NodeID) (upfs : UPFs) : option string :=
  fst <$> find (fun kv => nodeMatches n kv.2) (range upfs).

Definition InsertUpfNode (lookup : Resolver) (n : NodeID) (cache : dnsCache) (upfs : UPFs)
    : outcome (dnsCache * UPFs) :=
  match upfs !! upfKey n with
  | Some _ => Val (cache, upfs)
  | None =>
      match ResolveNodeIdToIp lookup n cache with
      | Panic => Panic
      | Val (ip, cache) =>
          Val (cache, <[upfKey n := mkUPNode (upfKey n) None None ip n NotAssociated unlocked]> upfs)
      end
  end.

Definition setState (s : UPFStatus) (upf : UPNode R H) : UPNode R H :=
  mkUPNode (UpfName upf) (LastAssoRsp upf) (LastHBRsp upf) (ANIP upf) (NodeID_ upf) s (UpfLock upf).

Definition setUpfLock (m : RWMutex) (upf : UPNode R H) : UPNode R H :=
  mkUPNode (UpfName upf) (LastAssoRsp upf) (LastHBRsp upf) (ANIP upf) (NodeID_ upf) (State upf) m.

Definition setLastAssoRsp (rsp : R) (upf : UPNode R H) : UPNode R H :=
  mkUPNode (UpfName upf) (Some rsp) (LastHBRsp upf) (ANIP upf) (NodeID_ upf) (State upf) (UpfLock upf).

Definition setLastHBRsp (rsp : H) (upf : UPNode R H) : UPNode R H :=
  mkUPNode (UpfName upf) (LastAssoRsp upf) (Some rsp) (ANIP upf) (NodeID_ upf) (State upf) (UpfLock upf).

(** Run without interference; in [Handler.v] its two critical sections are two steps. *)
Definition ActivateUpfNode (n : NodeID) (upfs : UPFs) : option string * UPFs :=
  match GetUpfFromNodeId n upfs with
  | Some upf => (Some upf, alter (setState AssociatedSetUpSuccess) upf upfs)
  | None => (None, upfs)
  end.

(** [f] of what the pointer points to, under the node's lock; [Val None] while that has to wait, and
    a panic on a nil [*UPNode], which is dereferenced for its lock. A node pointed to is in the table. *)
Definition underLock (upf : option string) (f : UPNode R H -> UPNode R H) (upfs : UPFs)
    : outcome (option UPFs) :=
  match upf with
  | None => Panic
  | Some k =>
      match upfs !! k with
      | None => Panic
      | Some u =>
          match WLock (UpfLock u) with
          | Some m => Val (Some (<[k := setUpfLock (WUnlock m) (f u)]> upfs))
          | None => Val None
          end
      end
  end.

Definition PreservePfcpAssociationRsp (upf : option string) (rsp : R) : UPFs -> outcome (option UPFs) :=
  underLock upf (setLastAssoRsp rsp).

Definition PreservePfcpHeartBeatRsp (upf : option string) (rsp : H) : UPFs -> outcome (option UPFs) :=
  underLock upf (setLastHBRsp rsp).

(** The writer at a node's lock has to wait. *)
Definition announceAt (upf : option string) (upfs : UPFs) : UPFs :=
  match upf with
  | Some k => alter (fun u => setUpfLock (announce (UpfLock u)) u) k upfs
  | None => upfs
  end.

(** [BuildPfcpAssociationResponse] looks at the stored response between [RLock] and [RUnlock].
    Without one there is no header to copy: the panic comes before the [RUnlock], and the read lock
    is left taken. [None] while the lock has to be waited for. *)
Definition readLastAssoRsp (k : string) (upfs : UPFs) : option (option R * UPFs) :=
  match upfs !! k with
  | None => Some (None, upfs)
  | Some u =>
      match RLock (UpfLock u) with
      | None => None
      | Some m =>
          match LastAssoRsp u with
          | Some rsp => Some (Some rsp, <[k := setUpfLock (RUnlock m) u]> upfs)
          | None => Some (None, <[k := setUpfLock m u]> upfs)
          end
      end
  end.

(** The lock of some node is not free, although nobody is at it. *)
Definition leftLocked (upfs : UPFs) : Prop :=
  map_Exists (fun _ u => UpfLock u <> unlocked) upfs.
End Operations.

(** ** Lemmas *)

Section Lemmas.
Context {R H : Type} `{!MapRange string}.
Implicit Types upfs : gmap string (UPNode R H).

Lemma GetUpfFromNodeId_spec n upfs :
  match GetUpfFromNodeId n upfs with
  | Some k => exists upf, upfs !! k = Some upf /\ nodeMatches n upf = true
  | None => forall k upf, upfs !! k = Some upf -> nodeMatches n upf = false
  end.
Proof.
  unfold GetUpfFromNodeId. destruct (find _ _) as [[k upf]|] eqn:Hf; simpl.
  - apply find_some in Hf as [Hin Hm]. apply list_elem_of_In, elem_of_range in Hin. eauto.
  - intros k upf Hk. apply (find_none _ _ Hf (k, upf)), list_elem_of_In. by apply elem_of_range.
Qed.

(** Every node sits under its own name. *)
Definition keyed upfs : Prop :=
  forall k upf, upfs !! k = Some upf -> UpfName upf = k /\ upfKey (NodeID_ upf) = k.

(** What the handlers do to the table. *)
Inductive upf_step : gmap string (UPNode R H) -> gmap string (UPNode R H) -> Prop :=
| step_insert lookup n cache cache' upfs upfs' :
    InsertUpfNode lookup n cache upfs = Val (cache', upfs') -> upf_step upfs upfs'
| step_activate k upfs : upf_step upfs (alter (setState AssociatedSetUpSuccess) k upfs)
| step_asso upf rsp upfs upfs' :
    PreservePfcpAssociationRsp upf rsp upfs = Val (Some upfs') -> upf_step upfs upfs'
| step_hb upf rsp upfs upfs' :
    PreservePfcpHeartBeatRsp upf rsp upfs = Val (Some upfs') -> upf_step upfs upfs'
| step_announce upf upfs : upf_step upfs (announceAt upf upfs)
| step_read k x upfs upfs' : readLastAssoRsp k upfs = Some (x, upfs') -> upf_step upfs upfs'.

(** How a node may change: never its name, its identity or its address; and a read lock left is never
    given back. *)
Definition grown (u u' : UPNode R H) : Prop :=
  UpfName u' = UpfName u /\ NodeID_ u' = NodeID_ u /\ ANIP u' = ANIP u /\
  (readers (UpfLock u) <= readers (UpfLock u'))%nat.

Lemma grown_refl u : grown u u.
Proof. by repeat split. Qed.

Lemma grown_trans u1 u2 u3 : grown u1 u2 -> grown u2 u3 -> grown u1 u3.
Proof. intros (? & ? & ? & ?) (? & ? & ? & ?). split_and!; [by etrans..|lia]. Qed.

(** The table goes from one to the other: every node stays under its own name, and grows. *)
Definition evolves (upfs upfs' : gmap string (UPNode R H)) : Prop :=
  keyed upfs' /\ forall k u, upfs !! k = Some u -> exists u', upfs' !! k = Some u' /\ grown u u'.

Lemma insert_evolves k u u' upfs :
  upfs !! k = Some u -> grown u u' -> keyed upfs -> evolves upfs (<[k := u']> upfs).
Proof.
  intros Hu Hg Hk. split; intros k' v; rewrite lookup_insert; case_decide as Heq; subst.
  - intros [= <-]. destruct Hg as (-> & -> & _). by apply Hk.
  - by apply Hk.
  - intros Hv. exists u'. split; [done|]. by simplify_eq.
  - intros Hv. exists v. split; [done|apply grown_refl].
Qed.

Lemma alter_evolves (f : UPNode R H -> UPNode R H) k upfs :
  (forall u, grown u (f u)) -> keyed upfs -> evolves upfs (alter f k upfs).
Proof.
  intros Hf Hk. destruct (upfs !! k) as [u|] eqn:Hu.
  - replace (alter f k upfs) with (<[k := f u]> upfs); [by eapply insert_evolves|].
    apply map_eq. intros k'. rewrite lookup_alter, lookup_insert. case_decide; [subst; by rewrite Hu|done].
  - replace (alter f k upfs) with upfs.
    + split; [done|]. intros k' v Hv. exists v. split; [done|apply grown_refl].
    + apply map_eq. intros k'. rewrite lookup_alter. case_decide; [subst; by rewrite Hu|done].
Qed.

Lemma underLock_evolves upf f upfs upfs' :
  (forall u, UpfName (f u) = UpfName u /\ NodeID_ (f u) = NodeID_ u /\ ANIP (f u) = ANIP u) -> underLock upf f upfs = Val (Some upfs') ->
  keyed upfs -> evolves upfs upfs'.
Proof.
  intros Hf. destruct upf as [k|]; [|done]. simpl. destruct (upfs !! k) as [u|] eqn:Hu; [|done].
  unfold WLock. case_decide as Hr; [|done]. intros [= <-]. eapply insert_evolves; [done|].
  destruct (Hf u) as (? & ? & ?). split_and!; [done..|]. simpl. lia.
Qed.

Lemma read_evolves k x upfs upfs' :
  readLastAssoRsp k upfs = Some (x, upfs') -> keyed upfs -> evolves upfs upfs'.
Proof.
  unfold readLastAssoRsp, RLock. destruct (upfs !! k) as [u|] eqn:Hu.
  - destruct (waiting (UpfLock u)); [done|].
    destruct (LastAssoRsp u); intros [= <- <-]; eapply insert_evolves;
      try done; split_and!; simpl; try done; lia.
  - intros [= <- <-] Hk. split; [done|]. intros k' v Hv. exists v. split; [done|apply grown_refl].
Qed.

Lemma upf_step_spec upfs upfs' : upf_step upfs upfs' -> keyed upfs -> evolves upfs upfs'.
Proof.
  destruct 1 as [lookup n cache cache' upfs upfs' Hi|k upfs|upf rsp upfs upfs' Hp|upf rsp upfs upfs' Hp
    |[k|] upfs|k x upfs upfs' Hr]; intros Hk.
  - unfold InsertUpfNode in Hi. destruct (upfs !! upfKey n) as [u|] eqn:Hu; simplify_eq.
    { split; [done|]. intros k v Hv. exists v. split; [done|apply grown_refl]. }
    destruct (ResolveNodeIdToIp _ _ _) as [[ip c]|]; simplify_eq. split.
    + intros k u. rewrite lookup_insert. case_decide; [|by apply Hk]. intros [= <-]. by subst.
    + intros k u Hku. exists u. rewrite lookup_insert_ne by congruence. split; [done|apply grown_refl].
  - by apply alter_evolves.
  - by apply (underLock_evolves upf (setLastAssoRsp rsp)).
  - by apply (underLock_evolves upf (setLastHBRsp rsp)).
  - by apply alter_evolves.
  - split; [done|]. intros k v Hv. exists v. split; [done|apply grown_refl].
  - by eapply read_evolves.
Qed.

Lemma upf_steps_spec upfs upfs' : rtc upf_step upfs upfs' -> keyed upfs -> evolves upfs upfs'.
Proof.
  induction 1 as [u1|u1 u2 u3 Hs _ IH]; intros Hk.
  - split; [done|]. intros k u Hu. exists u. split; [done|apply grown_refl].
  - destruct (upf_step_spec _ _ Hs Hk) as [Hk2 Hm2]. destruct (IH Hk2) as [Hk3 Hm3].
    split; [done|]. intros k u Hu. destruct (Hm2 k u Hu) as (u' & Hu' & Hg).
    destruct (Hm3 k u' Hu') as (u'' & Hu'' & Hg'). exists u''. split; [done|by eapply grown_trans].
Qed.

(** *** The lock of a node *)

(** Unless a lock has been left, a response is stored at once, and the stored one looked at. *)
Lemma unlocked_at upfs k u : ~ leftLocked upfs -> upfs !! k = Some u -> UpfLock u = unlocked.
Proof.
  intros Hl Hu. destruct (decide (UpfLock u = unlocked)) as [|Hn]; [done|]. destruct Hl. by exists k, u.
Qed.

Lemma preserve_free upf rsp upfs :
  ~ leftLocked upfs -> PreservePfcpAssociationRsp upf rsp upfs <> Val None.
Proof.
  intros Hl. destruct upf as [k|]; [|done]. unfold PreservePfcpAssociationRsp, underLock.
  destruct (upfs !! k) as [u|] eqn:Hu; [|done]. by rewrite (unlocked_at upfs k u).
Qed.

Lemma read_free k upfs : ~ leftLocked upfs -> is_Some (readLastAssoRsp k upfs).
Proof.
  intros Hl. unfold readLastAssoRsp. destruct (upfs !! k) as [u|] eqn:Hu; [|by eexists].
  rewrite (unlocked_at upfs k u) by done. simpl. by destruct (LastAssoRsp u); eexists.
Qed.

Lemma activate_free s k upfs : leftLocked (alter (setState s) k upfs) -> leftLocked upfs.
Proof.
  intros (k' & u & Hu & Hn). rewrite lookup_alter in Hu. case_decide; [subst|by exists k', u].
  destruct (upfs !! k') as [u0|] eqn:Hu0; [|done]. simplify_eq/=. by exists k', u0.
Qed.

(** A read lock left keeps writers out for as long as the table lives. *)
Definition leftRead (k : string) upfs : Prop :=
  exists u, upfs !! k = Some u /\ readers (UpfLock u) <> 0%nat.

#[export] Instance leftRead_dec k upfs : Decision (leftRead k upfs).
Proof.
  destruct (upfs !! k) as [u|] eqn:Hu; [|by right; intros (u & Hu' & _); congruence].
  destruct (decide (readers (UpfLock u) = 0%nat)) as [Hr|Hr].
  - right. intros (u' & Hu' & Hn). congruence.
  - left. by exists u.
Defined.

Lemma leftRead_stays k upfs upfs' :
  rtc upf_step upfs upfs' -> keyed upfs -> leftRead k upfs -> leftRead k upfs'.
Proof.
  intros Hs Hk (u & Hu & Hn). destruct (upf_steps_spec _ _ Hs Hk) as [_ Hm].
  destruct (Hm k u Hu) as (u' & Hu' & _ & _ & _ & Hle). exists u'. split; [done|lia].
Qed.

Lemma leftRead_waits k rsp upfs :
  leftRead k upfs -> PreservePfcpAssociationRsp (Some k) rsp upfs = Val None.
Proof.
  intros (u & Hu & Hn). unfold PreservePfcpAssociationRsp, underLock, WLock.
  by rewrite Hu, decide_False.
Qed.
End Lemmas.

(** ** Properties *)

Section Properties.
Context {R H : Type} `{!MapRange string}.
Implicit Types upfs : gmap string (UPNode R H).

(** Through any sequence of insertions, activations and stored responses every node stays
    under its own name, none is removed or replaced, a node's name, identity and address never
    change once it is inserted, and a read lock left on it is never given back: inserting an
    identity that is there already does nothing. *)
Theorem upf_table_grows upfs :
  rtc upf_step ∅ upfs ->
  keyed upfs /\
  forall upfs', rtc upf_step upfs upfs' ->
    forall k u, upfs !! k = Some u -> exists u', upfs' !! k = Some u' /\ grown u u'.
Proof.
  intros Hr. assert (Hk : keyed upfs).
  { apply (upf_steps_spec ∅ upfs Hr). intros k u. by rewrite lookup_empty. }
  split; [done|]. intros upfs' Hr'. by apply upf_steps_spec.
Qed.

(** Looking a user plane up by identity: what is found matches -- the same IPv4 address, or
    the same name -- and nothing is found exactly when nothing matches; by name the answer does
    not depend on the order the table is walked, being the node under that very name; and an
    identity of the IPv6 type is never found. *)
Theorem GetUpfFromNodeId_finds n upfs :
  keyed upfs ->
  match GetUpfFromNodeId n upfs with
  | Some k => exists upf, upfs !! k = Some upf /\ nodeMatches n upf = true
  | None => forall k upf, upfs !! k = Some upf -> nodeMatches n upf = false
  end /\
  (NodeIdType n = NodeIdTypeFqdn ->
   GetUpfFromNodeId n upfs =
     match upfs !! upfKey n with
     | Some upf => if decide (NodeIdType (NodeID_ upf) = NodeIdTypeFqdn) then Some (upfKey n) else None
     | None => None
     end) /\
  (NodeIdType n = NodeIdTypeIpv6Address -> GetUpfFromNodeId n upfs = None).
Proof.
  intros Hkeyed. pose proof (GetUpfFromNodeId_spec n upfs) as Hs. split; [done|].
  assert (Hm6 : NodeIdType n = NodeIdTypeIpv6Address -> forall upf : UPNode R H, nodeMatches n upf = false).
  { intros Ht upf. unfold nodeMatches. rewrite Ht. done. }
  assert (Hmf : NodeIdType n = NodeIdTypeFqdn -> forall k upf, upfs !! k = Some upf ->
    nodeMatches n upf = true <-> NodeIdType (NodeID_ upf) = NodeIdTypeFqdn /\ k = upfKey n).
  { intros Ht k upf Hk. unfold nodeMatches. rewrite Ht. rewrite decide_False by done.
    destruct (Hkeyed k upf Hk) as [_ <-]. case_decide as Hd.
    - unfold bytes_Equal. rewrite bool_decide_eq_true. unfold upfKey. split.
      + intros Heq. split; [tauto|]. unfold string_of_slice. by rewrite Heq.
      + intros [_ Heq]. by apply string_of_slice_inj in Heq.
    - split; [done|tauto]. }
  split.
  - intros Ht. destruct (GetUpfFromNodeId n upfs) as [k|].
    + destruct Hs as (upf & Hk & Hm). apply (Hmf Ht k upf Hk) in Hm as [Ht' ->].
      by rewrite Hk, decide_True.
    + destruct (upfs !! upfKey n) as [upf|] eqn:Hk; [|done]. rewrite decide_False; [done|].
      intros Ht'. pose proof (Hs _ _ Hk) as Hf. assert (nodeMatches n upf = true); [|congruence].
      by apply (Hmf Ht _ _ Hk).
  - intros Ht. destruct (GetUpfFromNodeId n upfs) as [k|]; [|done].
    destruct Hs as (upf & _ & Hm). by rewrite Hm6 in Hm.
Qed.

(** Activating marks exactly one node associated, one that matches the identity, and leaves
    every other node and everything else about that one alone; when nothing matches it yields
    nil and changes nothing, and storing a response through that nil panics. *)
Theorem ActivateUpfNode_spec n rsp upfs :
  match ActivateUpfNode n upfs with
  | (Some k, upfs') =>
      exists upf, upfs !! k = Some upf /\ nodeMatches n upf = true /\
        upfs' = <[k := setState AssociatedSetUpSuccess upf]> upfs
  | (None, upfs') =>
      upfs' = upfs /\ (forall k upf, upfs !! k = Some upf -> nodeMatches n upf = false) /\
      PreservePfcpAssociationRsp None rsp upfs' = Panic
  end.
Proof.
  unfold ActivateUpfNode. pose proof (GetUpfFromNodeId_spec n upfs) as Hs.
  destruct (GetUpfFromNodeId n upfs) as [k|]; [|done].
  destruct Hs as (upf & Hk & Hm). exists upf. split_and!; [done..|].
  apply map_eq. intros k'. rewrite lookup_alter, lookup_insert. case_decide; [subst; by rewrite Hk|done].
Qed.
End Properties.

(** ** Witnesses *)

Definition fqdnUpf : NodeID := NewNodeID "upf.core".
Definition noDns : Resolver := fun _ => Some ["10.42.0.184"].

Definition one_upf : gmap string (UPNode unit unit) :=
  match InsertUpfNode noDns fqdnUpf ∅ ∅ with Val (_, upfs) => upfs | Panic => ∅ end.

Lemma one_upf_steps : rtc upf_step ∅ one_upf.
Proof.
  eapply rtc_once, (step_insert noDns fqdnUpf ∅ {["upf.core" := ParseIP.ParseIP "10.42.0.184"]}).
  reflexivity.
Qed.

Lemma upf_table_grows_witness :
  keyed one_upf /\
  forall upfs', rtc upf_step one_upf upfs' ->
    forall k u, one_upf !! k = Some u -> exists u', upfs' !! k = Some u' /\ grown u u'.
Proof. apply (upf_table_grows one_upf one_upf_steps). Defined.

Lemma one_upf_keyed : keyed one_upf.
Proof.
  intros k u. change one_upf with
    ({["upf.core" := mkUPNode "upf.core" None None (ParseIP.ParseIP "10.42.0.184") fqdnUpf NotAssociated unlocked]}
     : gmap string (UPNode unit unit)).
  rewrite lookup_singleton. case_decide; [|done]. intros [= <-]. by subst.
Qed.

Lemma GetUpfFromNodeId_finds_witness :
  GetUpfFromNodeId (NewNodeID "2001:db8::1") one_upf = None.
Proof.
  apply (proj2 (proj2 (GetUpfFromNodeId_finds (NewNodeID "2001:db8::1") one_upf one_upf_keyed))).
  reflexivity.
Defined.
