(* ===== verification/Pfcp.v ===== *)
(** * Pfcp: message types, and the PFCP library as a parameter

    [pfcp/udp/pfcp_message_type.go] classifies messages. The messages themselves, their
    information elements and their encoding belong to go-pfcp, which is not part of the
    repository: [PfcpLib] names what the adapter calls, [PfcpLaws] what it relies on, and
    [DemoLib] is a small codec that satisfies the laws, for evaluating the model. *)

From Stdlib Require Import Strings.Byte Strings.String.
From S2P Require Import Prelude GoNet.

#[local] Open Scope Z_scope.

(** ** Message types *)

(** The constants the code names; any other number is [OtherType]. *)
Inductive MsgType :=
| HeartbeatRequest | HeartbeatResponse
| PFDManagementRequest | PFDManagementResponse
| AssociationSetupRequest | AssociationSetupResponse
| AssociationUpdateRequest | AssociationUpdateResponse
| AssociationReleaseRequest | AssociationReleaseResponse
| NodeReportRequest | NodeReportResponse
| SessionSetDeletionRequest | SessionSetDeletionResponse
| SessionEstablishmentRequest | SessionEstablishmentResponse
| SessionModificationRequest | SessionModificationResponse
| SessionDeletionRequest | SessionDeletionResponse
| SessionReportRequest | SessionReportResponse
| OtherType (n : Z).

#[export] Instance MsgType_eq_dec : EqDecision MsgType.
Proof. solve_decision. Defined.

(** The test on the number of the type; [IsRequest msg] applies it to the message's. *)
Definition requestType (t : MsgType) : bool :=
  match t with
  | HeartbeatRequest | PFDManagementRequest | AssociationSetupRequest
  | AssociationUpdateRequest | AssociationReleaseRequest | NodeReportRequest
  | SessionSetDeletionRequest | SessionEstablishmentRequest | SessionModificationRequest
  | SessionDeletionRequest | SessionReportRequest => true
  | _ => false
  end.

Definition responseType (t : MsgType) : bool :=
  match t with
  | HeartbeatResponse | PFDManagementResponse | AssociationSetupResponse
  | AssociationUpdateResponse | AssociationReleaseResponse | NodeReportResponse
  | SessionSetDeletionResponse | SessionEstablishmentResponse | SessionModificationResponse
  | SessionDeletionResponse | SessionReportResponse => true
  | _ => false
  end.

(** ** The library *)

(** The fields of message structs the adapter reads or writes. *)
Inductive Field := FRecoveryTimeStamp | FCause | FNodeID | FCPFSEID | FRetention | FASRspFlags.

#[export] Instance Field_eq_dec : EqDecision Field.
Proof. solve_decision. Defined.

Inductive CauseValue := CauseRequestAccepted | CauseRequestRejected | OtherCause (n : Z).

#[export] Instance CauseValue_eq_dec : EqDecision CauseValue.
Proof. solve_decision. Defined.

(** What go-pfcp provides. [dynamicType] is the Go type behind the interface value, which a
    type assertion tests; it need not be what [MessageType] says. A field is a pointer, [None]
    being nil, and a method on it may fail or, on nil, panic. [Marshal] stands for making a
    buffer of [MarshalLen] octets and calling [MarshalTo] on it. *)
Class PfcpLib := {
  Message : Type;
  IE : Type;
  MessageType : Message -> MsgType;
  dynamicType : Message -> MsgType;
  Sequence : Message -> Z;
  SetSequenceNumber : Z -> Message -> Message;
  SEID : Message -> Z;
  field : Field -> Message -> option IE;
  setField : Field -> option IE -> Message -> Message;
  Marshal : Message -> result string (list byte);
  Parse : list byte -> result string Message;
  NewSessionReportResponse : Z -> Z -> Z -> Z -> Z -> IE -> Message;
  NewCause : CauseValue -> IE;
  NewRecoveryTimeStamp : Time -> IE;
  NewNodeIDIE : string -> string -> string -> IE;
  NewFSEID : Z -> slice -> slice -> IE;
  NewPFCPASRspFlags : Z -> IE;
  RecoveryTimeStamp : option IE -> outcome (result string Time);
  Cause : option IE -> outcome (result string CauseValue);
  NodeIDOf : option IE -> outcome (result string string);
  FSEID_SEID : option IE -> outcome (result string Z);
  PFCPASRspFlags : IE -> outcome (result string Z);
}.

(** What its documentation says of the header: a number set is the number read, nothing else of
    the header changes, setting a field leaves the header alone, and what is encoded is read
    back with its type and its 24-bit number. *)
Class PfcpLaws `(L : PfcpLib) := {
  Sequence_Set n m : Sequence (SetSequenceNumber n m) = n;
  MessageType_Set n m : MessageType (SetSequenceNumber n m) = MessageType m;
  dynamicType_Set n m : dynamicType (SetSequenceNumber n m) = dynamicType m;
  field_Set f n m : field f (SetSequenceNumber n m) = field f m;
  Sequence_setField f x m : Sequence (setField f x m) = Sequence m;
  MessageType_setField f x m : MessageType (setField f x m) = MessageType m;
  field_setField f g x m : field g (setField f x m) = if decide (f = g) then x else field g m;
  Sequence_NewReport mp fo seid seq pri c :
    Sequence (NewSessionReportResponse mp fo seid seq pri c) = seq;
  MessageType_NewReport mp fo seid seq pri c :
    MessageType (NewSessionReportResponse mp fo seid seq pri c) = SessionReportResponse;
  Parse_Marshal m b :
    Marshal m = Ok b -> 0 <= Sequence m < 2 ^ 24 ->
    exists m', Parse b = Ok m' /\ MessageType m' = MessageType m /\ Sequence m' = Sequence m;
}.

Section Classify.
Context `{L : PfcpLib}.

Definition IsRequest (msg : Message) : bool := requestType (MessageType msg).
Definition IsResponse (msg : Message) : bool := responseType (MessageType msg).
End Classify.

(** ** Properties *)

(** The answer to a request, by type. *)
Definition answerOf (t : MsgType) : option MsgType :=
  match t with
  | HeartbeatRequest => Some HeartbeatResponse
  | PFDManagementRequest => Some PFDManagementResponse
  | AssociationSetupRequest => Some AssociationSetupResponse
  | AssociationUpdateRequest => Some AssociationUpdateResponse
  | AssociationReleaseRequest => Some AssociationReleaseResponse
  | NodeReportRequest => Some NodeReportResponse
  | SessionSetDeletionRequest => Some SessionSetDeletionResponse
  | SessionEstablishmentRequest => Some SessionEstablishmentResponse
  | SessionModificationRequest => Some SessionModificationResponse
  | SessionDeletionRequest => Some SessionDeletionResponse
  | SessionReportRequest => Some SessionReportResponse
  | _ => None
  end.

(** No message is both a request and a response; a message is a request exactly when its
    type has an answer, and a response exactly when its type is one; a number the adapter does
    not know is neither. *)
Theorem IsRequest_IsResponse `{L : PfcpLib} (msg : Message) :
  (IsRequest msg && IsResponse msg = false) /\
  (IsRequest msg = true <-> is_Some (answerOf (MessageType msg))) /\
  (IsResponse msg = true <-> exists t, answerOf t = Some (MessageType msg)) /\
  (forall n, MessageType msg = OtherType n -> IsRequest msg = false /\ IsResponse msg = false).
Proof.
  unfold IsRequest, IsResponse. destruct (MessageType msg) eqn:Ht; simpl; split_and!;
    try done; try (by split; [intros; eexists|]); try (by split; [|intros []]);
    try (split; [by intros|by intros [[] ?]]); split; try done; intros _;
    first [by exists HeartbeatRequest | by exists PFDManagementRequest
          | by exists AssociationSetupRequest | by exists AssociationUpdateRequest
          | by exists AssociationReleaseRequest | by exists NodeReportRequest
          | by exists SessionSetDeletionRequest | by exists SessionEstablishmentRequest
          | by exists SessionModificationRequest | by exists SessionDeletionRequest
          | by exists SessionReportRequest].
Qed.

(** ** A codec for evaluating the model *)

(** A header, a cause and the text of a node identity; one octet of type, three of number. With the
    text of an identity after them it is the message in which that node accepts. *)
Module Demo.
Record msg := mk {
  mtype : Z;
  seqno : Z;
  seid : Z;
  fields : Field -> option (Z * string);
}.

Definition number (t : MsgType) : Z :=
  match t with
  | HeartbeatRequest => 1 | HeartbeatResponse => 2
  | PFDManagementRequest => 3 | PFDManagementResponse => 4
  | AssociationSetupRequest => 5 | AssociationSetupResponse => 6
  | AssociationUpdateRequest => 7 | AssociationUpdateResponse => 8
  | AssociationReleaseRequest => 9 | AssociationReleaseResponse => 10
  | NodeReportRequest => 12 | NodeReportResponse => 13
  | SessionSetDeletionRequest => 14 | SessionSetDeletionResponse => 15
  | SessionEstablishmentRequest => 50 | SessionEstablishmentResponse => 51
  | SessionModificationRequest => 52 | SessionModificationResponse => 53
  | SessionDeletionRequest => 54 | SessionDeletionResponse => 55
  | SessionReportRequest => 56 | SessionReportResponse => 57
  | OtherType n => n
  end.

Definition named : list MsgType :=
  [HeartbeatRequest; HeartbeatResponse; PFDManagementRequest; PFDManagementResponse;
   AssociationSetupRequest; AssociationSetupResponse; AssociationUpdateRequest;
   AssociationUpdateResponse; AssociationReleaseRequest; AssociationReleaseResponse;
   NodeReportRequest; NodeReportResponse; SessionSetDeletionRequest; SessionSetDeletionResponse;
   SessionEstablishmentRequest; SessionEstablishmentResponse; SessionModificationRequest;
   SessionModificationResponse; SessionDeletionRequest; SessionDeletionResponse;
   SessionReportRequest; SessionReportResponse].

Definition typeOf (n : Z) : MsgType :=
  default (OtherType n) (find (fun t => number t =? n) named).

Definition byteOf (z : Z) : byte := default x00 (Byte.of_N (Z.to_N (z mod 256))).
Definition ofByte (b : byte) : Z := Z.of_N (Byte.to_N b).

Lemma ofByte_byteOf z : ofByte (byteOf z) = z mod 256.
Proof.
  unfold ofByte, byteOf. pose proof (Z.mod_pos_bound z 256 ltac:(lia)) as Hz.
  destruct (Byte.of_N (Z.to_N (z mod 256))) as [b|] eqn:Hb; simpl.
  - apply Byte.to_of_N in Hb. rewrite Hb. lia.
  - apply Byte.of_N_None_iff in Hb. lia.
Qed.

Definition encode (m : msg) : list byte :=
  [byteOf (mtype m); byteOf (Z.shiftr (seqno m) 16); byteOf (Z.shiftr (seqno m) 8);
   byteOf (seqno m)].

Definition noFields : Field -> option (Z * string) := fun _ => None.

Definition accepted (node : list byte) : Field -> option (Z * string) := fun f =>
  match f with
  | FRecoveryTimeStamp => Some (0, ""%string)
  | FCause => Some (1, ""%string)
  | FNodeID => Some (0, string_of_list_byte node)
  | _ => None
  end.

Definition decode (b : list byte) : result string msg :=
  match b with
  | t :: s2 :: s1 :: s0 :: node =>
      Ok (mk (ofByte t) (ofByte s2 * 65536 + ofByte s1 * 256 + ofByte s0) 0
             (match node with [] => noFields | _ => accepted node end))
  | _ => Err "too short"%string
  end.

Lemma encode_seq m : 0 <= seqno m < 2 ^ 24 ->
  decode (encode m) = Ok (mk (mtype m mod 256) (seqno m) 0 noFields).
Proof.
  intros Hs. unfold encode, decode. rewrite !ofByte_byteOf, !Z.shiftr_div_pow2 by lia.
  change (2 ^ 16) with (256 * 256). change (2 ^ 8) with 256. do 2 f_equal.
  rewrite <- Z.div_div by lia. pose proof (Z.div_mod (seqno m) 256 ltac:(lia)).
  pose proof (Z.div_mod (seqno m / 256) 256 ltac:(lia)).
  rewrite (Z.mod_small (seqno m / 256 / 256)); [lia|]. split.
  - apply Z.div_pos; [apply Z.div_pos; lia | lia].
  - rewrite Z.div_div by lia. apply Z.div_lt_upper_bound; lia.
Qed.

Definition onNil {A} (x : option (Z * string)) (k : Z * string -> A) : outcome (result string A) :=
  match x with None => Panic | Some v => Val (Ok (k v)) end.
End Demo.

Definition DemoLib : PfcpLib := {|
  Message := Demo.msg;
  IE := Z * string;
  MessageType m := Demo.typeOf (Demo.mtype m mod 256);
  dynamicType m := Demo.typeOf (Demo.mtype m mod 256);
  Sequence := Demo.seqno;
  SetSequenceNumber n m := Demo.mk (Demo.mtype m) n (Demo.seid m) (Demo.fields m);
  SEID := Demo.seid;
  field f m := Demo.fields m f;
  setField f x m := Demo.mk (Demo.mtype m) (Demo.seqno m) (Demo.seid m)
                      (fun g => if decide (f = g) then x else Demo.fields m g);
  Marshal m := Ok (Demo.encode m);
  Parse := Demo.decode;
  NewSessionReportResponse _ _ seid seq _ c :=
    Demo.mk 57 seq seid (fun g => if decide (FCause = g) then Some c else None);
  NewCause c := (match c with CauseRequestAccepted => 1 | CauseRequestRejected => 64
                            | OtherCause n => n end, ""%string);
  NewRecoveryTimeStamp t := (t, ""%string);
  NewNodeIDIE v4 _ _ := (0, v4);
  NewFSEID seid _ _ := (seid, ""%string);
  NewPFCPASRspFlags n := (n, ""%string);
  RecoveryTimeStamp x := Demo.onNil x fst;
  Cause x := Demo.onNil x (fun v => if decide (v.1 = 1) then CauseRequestAccepted
                                    else if decide (v.1 = 64) then CauseRequestRejected
                                    else OtherCause v.1);
  NodeIDOf x := Demo.onNil x snd;
  FSEID_SEID x := Demo.onNil x fst;
  PFCPASRspFlags v := Val (Ok v.1);
|}.

#[export] Instance DemoLaws : PfcpLaws DemoLib.
Proof.
  split; try done.
  intros m b [= <-] Hs. eexists. split; [exact (Demo.encode_seq m Hs)|].
  split; [|done]. simpl. by rewrite Zmod_mod.
Qed.
