(* ===== verification/Consumers.v ===== *)
(** * Consumers: transactions and where they are registered ([pfcp/udp/])

    [transaction.go] and the tables of [udp.go]. A transaction is registered under the address
    of whoever consumes it -- this socket for a request, the peer for a response -- and its
    sequence number. Tables and transactions are shared pointers, so both are names into a
    store: a table detached from the consumer table still exists, and can still be written to,
    by whoever loaded it before.

    [PutTransaction] and [DeleteByHost] run under [registerMu], and each is one step here; the
    lookups do not take it, and are single operations on a [sync.Map]. *)

From Stdlib Require Import Strings.Byte Strings.String.
From S2P Require Import Prelude GoNet Pfcp.

#[local] Open Scope string_scope.
#[local] Open Scope list_scope.
#[local] Open Scope Z_scope.

(** ** Data *)

Inductive TransactionType := SendingRequest | SendingResponse.
Inductive EventType := ReceiveResendRequest | ReceiveValidResponse.

#[export] Instance TransactionType_eq_dec : EqDecision TransactionType.
Proof. solve_decision. Defined.
#[export] Instance EventType_eq_dec : EqDecision EventType.
Proof. solve_decision. Defined.

Definition PFCP_PORT : N := 8805.
Definition NumOfResend : nat := 3.
Definition ResendRequestTimeOutPeriod : Z := 3.
Definition ResendResponseTimeOutPeriod : Z := 15.
Definition putAttempts : nat := 3.

(** The errors of the package, one constructor per place that makes one. *)
Inductive error :=
| ErrResendRequest
| ErrDuplicateSequence (seq : Z)
| errDetached
| errNotInitialized
| errNotListening
| errTableNotFound
| errSequenceNotFound (seq : Z)
| errNotHeld (seq : Z)
| errRequestTimeout (seq : Z)
| errResponseTimeout (seq : Z)
| errWrite
| errRead
| ErrClosed
| errText (text : string).

#[export] Instance error_eq_dec : EqDecision error.
Proof. solve_decision. Defined.

(** What a transaction tells when it fails: [D] names the functions used as [ErrHandler]. *)
Record PfcpEventData (D : Type) := mkEventData { ErrHandler : option D; LSEID : Z }.
Arguments mkEventData {D}.
Arguments ErrHandler {D}.
Arguments LSEID {D}.

Record UDPConn := mkConn { LocalAddr : UDPAddr }.

(** [EventChannel] holds one event; its content is in the store below. *)
Record Transaction (D : Type) := mkTransaction {
  Conn : UDPConn;
  DestAddr : UDPAddr;
  ConsumerAddr : string;
  EventData : option (PfcpEventData D);
  SendMsg : list byte;
  SequenceNumber : Z;
  TxMessageType : MsgType;
  TxType : TransactionType;
}.
Arguments mkTransaction {D}.
Arguments Conn {D}.
Arguments DestAddr {D}.
Arguments ConsumerAddr {D}.
Arguments EventData {D}.
Arguments SendMsg {D}.
Arguments SequenceNumber {D}.
Arguments TxMessageType {D}.
Arguments TxType {D}.

Abbreviation TxTable := (gmap Z nat) (only parsing).

Record PfcpServer := mkServer { Addr : UDPAddr; ServerConn : option UDPConn }.

Record Udp (D : Type) := mkUdp {
  Server : option PfcpServer;
  consumers : gmap string nat;
  tables : gmap nat (gmap Z nat);
  txs : gmap nat (Transaction D);
  events : gmap nat EventType;
  nextTable : nat;
  nextTx : nat;
}.
Arguments mkUdp {D}.
Arguments Server {D}.
Arguments consumers {D}.
Arguments tables {D}.
Arguments txs {D}.
Arguments events {D}.
Arguments nextTable {D}.
Arguments nextTx {D}.

Definition initUdp {D} : Udp D := mkUdp None ∅ ∅ ∅ ∅ 0 0.

(** ** Transactions *)

(** A message that is neither keeps the zero type, which is [SendingRequest], and no consumer. *)
Definition NewTransaction {D} `{L : PfcpLib} (pfcpMSG : Message) (binaryMSG : list byte)
    (conn : UDPConn) (dest : UDPAddr) (eventData : option (PfcpEventData D)) : Transaction D :=
  let tx consumer type :=
    mkTransaction conn dest consumer eventData binaryMSG (Sequence pfcpMSG) (MessageType pfcpMSG)
                  type in
  if IsRequest pfcpMSG then tx (UDPAddr_String (LocalAddr conn)) SendingRequest
  else if IsResponse pfcpMSG then tx (UDPAddr_String dest) SendingResponse
  else tx "" SendingRequest.

(** [new(Transaction)]: the pointer and its empty event channel. *)
Definition allocTx {D} (tx : Transaction D) (u : Udp D) : nat * Udp D :=
  (nextTx u, mkUdp (Server u) (consumers u) (tables u) (<[nextTx u := tx]> (txs u)) (events u)
                   (nextTable u) (S (nextTx u))).

(** [select { case ch <- e: default: }] on the event channel of a transaction. *)
Definition offerEvent {D} (tx : nat) (e : EventType) (u : Udp D) : Udp D :=
  match events u !! tx with
  | Some _ => u
  | None => mkUdp (Server u) (consumers u) (tables u) (txs u) (<[tx := e]> (events u))
                  (nextTable u) (nextTx u)
  end.

(** [event := <-ch], when there is one. *)
Definition takeEvent {D} (tx : nat) (u : Udp D) : option (EventType * Udp D) :=
  match events u !! tx with
  | Some e => Some (e, mkUdp (Server u) (consumers u) (tables u) (txs u) (delete tx (events u))
                             (nextTable u) (nextTx u))
  | None => None
  end.

(** ** [TxTable] *)

Definition tableAt {D} (t : nat) (u : Udp D) : TxTable := default ∅ (tables u !! t).

Definition set_table {D} (t : nat) (m : gmap Z nat) (u : Udp D) : Udp D :=
  mkUdp (Server u) (consumers u) (<[t := m]> (tables u)) (txs u) (events u) (nextTable u) (nextTx u).

Module TxTable.
Definition LoadOrStore {D} (t : nat) (sequenceNumber : Z) (tx : nat) (u : Udp D)
    : (nat * bool) * Udp D :=
  match tableAt t u !! sequenceNumber with
  | Some existing => ((existing, true), u)
  | None => ((tx, false), set_table t (<[sequenceNumber := tx]> (tableAt t u)) u)
  end.

(** A nil table finds nothing. *)
Definition Load {D} (t : option nat) (sequenceNumber : Z) (u : Udp D) : option nat :=
  match t with
  | None => None
  | Some t => tableAt t u !! sequenceNumber
  end.

Definition DeleteIf {D} (t : option nat) (sequenceNumber : Z) (tx : nat) (u : Udp D)
    : bool * Udp D :=
  match t with
  | None => (false, u)
  | Some t =>
      if decide (tableAt t u !! sequenceNumber = Some tx) then
        (true, set_table t (delete sequenceNumber (tableAt t u)) u)
      else (false, u)
  end.
End TxTable.

(** ** [ConsumerTable] *)

Module ConsumerTable.
Definition Load {D} (consumerAddr : string) (u : Udp D) : option nat := consumers u !! consumerAddr.

Definition stillHolds {D} (consumerAddr : string) (table : nat) (u : Udp D) : bool :=
  bool_decide (consumers u !! consumerAddr = Some table).

(** [LoadOrStore(consumerAddr, &TxTable{})]: the argument is a new, empty table. *)
Definition LoadOrStore {D} (consumerAddr : string) (u : Udp D) : nat * Udp D :=
  let txTable := nextTable u in
  let u := mkUdp (Server u) (consumers u) (<[txTable := ∅]> (tables u)) (txs u) (events u)
                 (S txTable) (nextTx u) in
  match consumers u !! consumerAddr with
  | Some actual => (actual, u)
  | None => (txTable, mkUdp (Server u) (<[consumerAddr := txTable]> (consumers u)) (tables u)
                            (txs u) (events u) (nextTable u) (nextTx u))
  end.

Definition hostMatches (ip : string) (consumerAddr : string) : bool :=
  match SplitHostPort consumerAddr with
  | Some (host, _) => bool_decide (host = ip)
  | None => false
  end.

Definition DeleteByHost {D} `{!MapRange string} (ip : string) (u : Udp D) : Udp D :=
  mkUdp (Server u)
        (fold_left (fun m kv => if hostMatches ip kv.1 then delete kv.1 m else m)
                   (range (consumers u)) (consumers u))
        (tables u) (txs u) (events u) (nextTable u) (nextTx u).
End ConsumerTable.

Definition ForgetConsumer {D} `{!MapRange string} (ip : string) (u : Udp D) : Udp D :=
  match Server u with
  | None => u
  | Some _ => ConsumerTable.DeleteByHost ip u
  end.

(** ** Registering *)

(** [for range putAttempts { body }] for the transaction at [ptr]. *)
Fixpoint putRounds {D} (n : nat) (ptr : nat) (tx : Transaction D) (u : Udp D)
    : option error * Udp D :=
  match n with
  | O => (Some errDetached, u)
  | S n =>
      let '(txTable, u) := ConsumerTable.LoadOrStore (ConsumerAddr tx) u in
      let '((_, loaded), u) := TxTable.LoadOrStore txTable (SequenceNumber tx) ptr u in
      if loaded : bool then (Some (ErrDuplicateSequence (SequenceNumber tx)), u)
      else if ConsumerTable.stillHolds (ConsumerAddr tx) txTable u then (None, u)
      else putRounds n ptr tx u
  end.

(** [None] is a nil error. *)
Definition PutTransaction {D} (ptr : nat) (tx : Transaction D) (u : Udp D)
    : option error * Udp D :=
  putRounds putAttempts ptr tx u.

(** ** What a lookup finds *)

(** The transaction found for a consumer and a number. *)
Definition slot {D} (c : string) (s : Z) (u : Udp D) : option nat :=
  consumers u !! c ≫= fun t => tableAt t u !! s.

(** No two consumers share a table, names not yet given out are unused, what is found in a slot
    belongs there, and what is found in any table, a consumer's or not, is found under its number. *)
Record udp_inv {D} (u : Udp D) : Prop := {
  inv_tables c t : consumers u !! c = Some t -> (t < nextTable u)%nat;
  inv_inj c c' t : consumers u !! c = Some t -> consumers u !! c' = Some t -> c = c';
  inv_fresh t : (nextTable u <= t)%nat -> tables u !! t = None;
  inv_slot c s ptr : slot c s u = Some ptr ->
    exists tx, txs u !! ptr = Some tx /\ ConsumerAddr tx = c /\ SequenceNumber tx = s;
  inv_txs ptr : is_Some (txs u !! ptr) -> (ptr < nextTx u)%nat;
  inv_entry t s ptr : tableAt t u !! s = Some ptr ->
    exists tx, txs u !! ptr = Some tx /\ SequenceNumber tx = s;
}.

Section Lemmas.
Context {D : Type}.
Implicit Types u : Udp D.

Lemma udp_inv_init srv : udp_inv (mkUdp srv ∅ ∅ ∅ ∅ 0 0 : Udp D).
Proof. split; simpl; try done. intros ptr [? Hx]. by rewrite lookup_empty in Hx. Qed.

Lemma tableAt_set t m t' u : tableAt t' (set_table t m u) = if decide (t = t') then m else tableAt t' u.
Proof. unfold tableAt. simpl. rewrite lookup_insert. by case_decide. Qed.

Lemma tableAt_fresh t u : udp_inv u -> (nextTable u <= t)%nat -> tableAt t u = ∅.
Proof. intros Hu Ht. unfold tableAt. by rewrite (inv_fresh u Hu). Qed.

(** Writing a table in use touches the slots of its one consumer. *)
Lemma slot_set_table c t m u c' s :
  udp_inv u -> consumers u !! c = Some t ->
  slot c' s (set_table t m u) = if decide (c' = c) then m !! s else slot c' s u.
Proof.
  intros Hu Hc. unfold slot. cbn [consumers set_table].
  destruct (decide (c' = c)) as [->|Hne].
  - rewrite Hc. simpl. by rewrite tableAt_set, decide_True.
  - destruct (consumers u !! c') as [t'|] eqn:Hc'; [|done]. simpl. rewrite tableAt_set.
    rewrite decide_False; [done|]. intros ->. by destruct Hne; apply (inv_inj u Hu _ _ t').
Qed.

(** Writing a table no consumer holds touches no slot. *)
Lemma slot_set_detached t m u c s :
  (forall c', consumers u !! c' <> Some t) -> slot c s (set_table t m u) = slot c s u.
Proof.
  intros Hd. unfold slot. cbn [consumers set_table].
  destruct (consumers u !! c) as [t'|] eqn:Hc'; [|done]. simpl. rewrite tableAt_set.
  rewrite decide_False; [done|]. intros ->. by apply (Hd c).
Qed.

Lemma udp_inv_set_table t m u :
  udp_inv u -> (t < nextTable u)%nat ->
  (forall c s ptr, consumers u !! c = Some t -> m !! s = Some ptr ->
     exists tx, txs u !! ptr = Some tx /\ ConsumerAddr tx = c /\ SequenceNumber tx = s) ->
  (forall s ptr, m !! s = Some ptr -> exists tx, txs u !! ptr = Some tx /\ SequenceNumber tx = s) ->
  udp_inv (set_table t m u).
Proof.
  intros Hu Ht Hm He. split; cbn [consumers nextTable tables txs nextTx set_table]; try apply Hu.
  - intros t' Ht'. rewrite lookup_insert_ne by lia. by apply Hu.
  - intros c s ptr. unfold slot. cbn [consumers set_table].
    destruct (consumers u !! c) as [t'|] eqn:Hc; [|done]. simpl. rewrite tableAt_set.
    case_decide as Heq; [subst t'; by apply Hm|]. intros Hs. apply (inv_slot u Hu).
    unfold slot. by rewrite Hc.
  - intros t' s ptr. rewrite tableAt_set. case_decide; [apply He|apply Hu].
Qed.

(** Loading or storing the table of a consumer: no slot changes, and the table is the one the
    consumer now has. *)
Lemma LoadOrStore_spec c u :
  udp_inv u ->
  let '(t, u') := ConsumerTable.LoadOrStore c u in
  udp_inv u' /\ consumers u' !! c = Some t /\ txs u' = txs u /\ nextTx u' = nextTx u /\
  events u' = events u /\ Server u' = Server u /\
  (forall c' s, slot c' s u' = slot c' s u) /\
  (forall c', c' <> c -> consumers u' !! c' = consumers u !! c').
Proof.
  intros Hu. unfold ConsumerTable.LoadOrStore. cbn [consumers].
  assert (Hslot : forall cs c' s, (forall c'' t, cs !! c'' = Some t -> (t < nextTable u)%nat) ->
    slot c' s (mkUdp (Server u) cs (<[nextTable u := ∅]> (tables u)) (txs u) (events u)
                     (S (nextTable u)) (nextTx u)) =
    cs !! c' ≫= fun t => tableAt t u !! s).
  { intros cs c' s Hcs. unfold slot. simpl. destruct (cs !! c') as [t|] eqn:Hc; [|done].
    simpl. unfold tableAt. simpl. rewrite lookup_insert_ne; [done|].
    specialize (Hcs _ _ Hc). lia. }
  assert (Hnew : forall cs t', tableAt t' (mkUdp (Server u) cs (<[nextTable u := ∅]> (tables u)) (txs u)
    (events u) (S (nextTable u)) (nextTx u)) = if decide (nextTable u = t') then ∅ else tableAt t' u).
  { intros cs t'. unfold tableAt. simpl. rewrite lookup_insert. by case_decide. }
  destruct (consumers u !! c) as [t|] eqn:Hc.
  - split_and!; try done; [|by intros c' s; apply Hslot; apply Hu].
    split; simpl; try apply Hu.
    + intros c' t' Hc'. pose proof (inv_tables u Hu _ _ Hc'). lia.
    + intros t' Ht'. rewrite lookup_insert_ne by lia. apply Hu. lia.
    + intros c' s ptr. rewrite Hslot by apply Hu. by apply (inv_slot u Hu).
    + intros t' s ptr. rewrite Hnew. case_decide; [done|]. by apply (inv_entry u Hu).
  - assert (Hs : forall c' s, slot c' s
        (mkUdp (Server u) (<[c := nextTable u]> (consumers u)) (<[nextTable u := ∅]> (tables u))
               (txs u) (events u) (S (nextTable u)) (nextTx u)) = slot c' s u).
    { intros c' s. unfold slot. simpl. rewrite lookup_insert. case_decide as Heq.
      - subst c'. rewrite Hc. simpl. unfold tableAt. simpl. by rewrite lookup_insert_eq.
      - destruct (consumers u !! c') as [t|] eqn:Hc'; [|done]. simpl. unfold tableAt. simpl.
        rewrite lookup_insert_ne; [done|]. pose proof (inv_tables u Hu _ _ Hc'). lia. }
    cbn [tables txs events nextTable nextTx Server]. split_and!; try done.
    + split; simpl; try apply Hu.
      * intros c' t. rewrite lookup_insert. case_decide; [intros [= <-]; lia|].
        intros Hc'. pose proof (inv_tables u Hu _ _ Hc'). lia.
      * intros c1 c2 t. rewrite !lookup_insert. do 2 case_decide; subst; try done.
        -- intros [= <-] H2. pose proof (inv_tables u Hu _ _ H2). lia.
        -- intros H1 [= <-]. pose proof (inv_tables u Hu _ _ H1). lia.
        -- apply Hu.
      * intros t Ht. rewrite lookup_insert_ne by lia. apply Hu. lia.
      * intros c' s ptr. rewrite Hs. apply Hu.
      * intros t' s ptr. rewrite Hnew. case_decide; [done|]. by apply (inv_entry u Hu).
    + simpl. by rewrite lookup_insert_eq.
    + intros c' Hne. simpl. by rewrite lookup_insert_ne.
Qed.

(** Making a transaction, or leaving an event for one, changes no slot. *)
Lemma alloc_spec tx u :
  udp_inv u ->
  let '(ptr, u') := allocTx tx u in
  udp_inv u' /\ txs u' !! ptr = Some tx /\ txs u !! ptr = None /\
  (forall p, p <> ptr -> txs u' !! p = txs u !! p) /\
  (forall c s, slot c s u' = slot c s u) /\
  consumers u' = consumers u /\ tables u' = tables u /\ Server u' = Server u /\
  events u' = events u /\ nextTx u' = S ptr.
Proof.
  intros Hu. simpl.
  assert (Hn : txs u !! nextTx u = None).
  { destruct (txs u !! nextTx u) eqn:He; [|done].
    pose proof (inv_txs u Hu (nextTx u) ltac:(by eexists)). lia. }
  split_and!; try done.
  - split; simpl; try apply Hu.
    + intros c s ptr Hs. destruct (inv_slot u Hu c s ptr Hs) as (tx' & Htx & ? & ?).
      exists tx'. split; [|done]. rewrite lookup_insert_ne; [done|]. intros <-. congruence.
    + intros ptr. rewrite lookup_insert. case_decide; [lia|].
      intros Hp. pose proof (inv_txs u Hu ptr Hp). lia.
    + intros t s ptr Hs. destruct (inv_entry u Hu t s ptr Hs) as (tx' & Htx & ?).
      exists tx'. split; [|done]. rewrite lookup_insert_ne; [done|]. intros <-. congruence.
  - by rewrite lookup_insert_eq.
  - intros p Hp. by rewrite lookup_insert_ne.
Qed.

Lemma udp_inv_events evs u :
  udp_inv u -> udp_inv (mkUdp (Server u) (consumers u) (tables u) (txs u) evs (nextTable u) (nextTx u)).
Proof. intros Hu. split; apply Hu. Qed.

(** With no consumer nothing is found. *)
Lemma udp_inv_server srv u :
  udp_inv u -> udp_inv (mkUdp srv ∅ (tables u) (txs u) (events u) (nextTable u) (nextTx u)).
Proof. intros Hu. split; simpl; try done; apply Hu. Qed.

(** Registering makes no transaction and no event, and the server stays. *)
Definition same_rest u u' : Prop :=
  txs u' = txs u /\ events u' = events u /\ Server u' = Server u /\ nextTx u' = nextTx u.

Lemma same_rest_trans u1 u2 u3 : same_rest u1 u2 -> same_rest u2 u3 -> same_rest u1 u3.
Proof. unfold same_rest. intros (? & ? & ? & ?) (? & ? & ? & ?). split_and!; congruence. Qed.

Lemma LoadOrStore_rest c u : same_rest u (snd (ConsumerTable.LoadOrStore c u)).
Proof. unfold ConsumerTable.LoadOrStore. cbn [consumers]. by destruct (consumers u !! c). Qed.

Lemma TxLoadOrStore_rest t s ptr u : same_rest u (snd (TxTable.LoadOrStore t s ptr u)).
Proof. unfold TxTable.LoadOrStore. by destruct (tableAt t u !! s). Qed.

Lemma put_rest ptr tx u : same_rest u (snd (PutTransaction ptr tx u)).
Proof.
  unfold PutTransaction. generalize putAttempts as n. intros n. revert u.
  induction n as [|n IH]; intros u; [done|]. cbn [putRounds].
  pose proof (LoadOrStore_rest (ConsumerAddr tx) u) as H1.
  destruct (ConsumerTable.LoadOrStore (ConsumerAddr tx) u) as [t u1].
  pose proof (TxLoadOrStore_rest t (SequenceNumber tx) ptr u1) as H2.
  destruct (TxTable.LoadOrStore t (SequenceNumber tx) ptr u1) as [[p loaded] u2]. simpl in *.
  destruct loaded; [by eapply same_rest_trans|].
  destruct (ConsumerTable.stillHolds _ _ _); [by eapply same_rest_trans|].
  eapply same_rest_trans; [by eapply same_rest_trans|apply IH].
Qed.

(** Registering detaches no table. *)
Lemma put_consumers ptr tx u c t :
  consumers u !! c = Some t -> consumers (snd (PutTransaction ptr tx u)) !! c = Some t.
Proof.
  unfold PutTransaction. generalize putAttempts as n. intros n. revert u.
  induction n as [|n IH]; intros u Hc; [done|]. cbn [putRounds].
  assert (H1 : consumers (snd (ConsumerTable.LoadOrStore (ConsumerAddr tx) u)) !! c = Some t).
  { unfold ConsumerTable.LoadOrStore. cbn [consumers].
    destruct (consumers u !! ConsumerAddr tx) eqn:Hx; [done|]. simpl.
    rewrite lookup_insert_ne; [done|]. congruence. }
  destruct (ConsumerTable.LoadOrStore (ConsumerAddr tx) u) as [t' u1]. cbn [snd] in H1.
  assert (H2 : forall s, consumers (snd (TxTable.LoadOrStore t' s ptr u1)) = consumers u1).
  { intros s. unfold TxTable.LoadOrStore. by destruct (tableAt t' u1 !! s). }
  specialize (H2 (SequenceNumber tx)).
  destruct (TxTable.LoadOrStore t' (SequenceNumber tx) ptr u1) as [[p loaded] u2]. cbn [snd] in H2.
  rewrite <- H2 in H1. destruct loaded; [done|]. destruct (ConsumerTable.stillHolds _ _ _); [done|auto].
Qed.

(** Removing takes entries out and adds none. *)
Lemma DeleteIf_sub t s ptr u c' s' p :
  slot c' s' (snd (TxTable.DeleteIf t s ptr u)) = Some p ->
  slot c' s' u = Some p /\ consumers (snd (TxTable.DeleteIf t s ptr u)) = consumers u.
Proof.
  unfold TxTable.DeleteIf. destruct t as [t|]; [|done]. case_decide; [|done]. cbn [snd].
  unfold slot. cbn [consumers set_table]. destruct (consumers u !! c') as [t'|]; [|done]. simpl.
  rewrite tableAt_set. case_decide as Ht; [subst t'|done]. rewrite lookup_delete.
  by case_decide.
Qed.

(** Under [registerMu] the first round decides: the number is taken, or the transaction is in. *)
Lemma put_spec ptr tx u :
  udp_inv u -> txs u !! ptr = Some tx ->
  let '(err, u') := PutTransaction ptr tx u in
  udp_inv u' /\ txs u' = txs u /\ events u' = events u /\ nextTx u' = nextTx u /\
  Server u' = Server u /\
  match slot (ConsumerAddr tx) (SequenceNumber tx) u with
  | Some _ => err = Some (ErrDuplicateSequence (SequenceNumber tx)) /\
              forall c s, slot c s u' = slot c s u
  | None => err = None /\
            forall c s, slot c s u' =
              if decide (c = ConsumerAddr tx /\ s = SequenceNumber tx) then Some ptr
              else slot c s u
  end.
Proof.
  intros Hu Hptr. unfold PutTransaction, putAttempts. cbn [putRounds].
  pose proof (LoadOrStore_spec (ConsumerAddr tx) u Hu) as Hl.
  destruct (ConsumerTable.LoadOrStore (ConsumerAddr tx) u) as [t u1].
  destruct Hl as (Hu1 & Hc & Htxs & Hnx & Hev & Hsrv & Hslot & _).
  rewrite <- (Hslot (ConsumerAddr tx)). unfold TxTable.LoadOrStore.
  assert (Hat : slot (ConsumerAddr tx) (SequenceNumber tx) u1 = tableAt t u1 !! SequenceNumber tx)
    by (unfold slot; by rewrite Hc).
  rewrite Hat. destruct (tableAt t u1 !! SequenceNumber tx) as [p|] eqn:Hs.
  - split_and!; done.
  - unfold ConsumerTable.stillHolds. cbn [consumers set_table]. rewrite bool_decide_eq_true_2 by done.
    split_and!; try done.
    + apply udp_inv_set_table; [done|by apply (inv_tables u1 Hu1 (ConsumerAddr tx))| |].
      * intros c s p Hc'. rewrite lookup_insert. case_decide as Heq.
        -- intros [= <-]. exists tx. rewrite Htxs. split_and!; [done| |done].
           by apply (inv_inj u1 Hu1 _ _ t).
        -- intros Hp. apply (inv_slot u1 Hu1). unfold slot. by rewrite Hc'.
      * intros s p. rewrite lookup_insert. case_decide; [|apply (inv_entry u1 Hu1)].
        intros [= <-]. exists tx. by rewrite Htxs.
    + intros c s. rewrite (slot_set_table (ConsumerAddr tx)), <- Hslot by done.
      destruct (decide (c = ConsumerAddr tx)) as [->|Hne].
      * rewrite lookup_insert. unfold slot. rewrite Hc. simpl.
        repeat case_decide; subst; naive_solver.
      * rewrite decide_False by naive_solver. done.
Qed.

(** Removing under a table pointer: only this transaction, and only where it is. *)
Lemma DeleteIf_spec c t s ptr u :
  udp_inv u -> consumers u !! c = Some t ->
  let '(done, u') := TxTable.DeleteIf (Some t) s ptr u in
  udp_inv u' /\ txs u' = txs u /\ events u' = events u /\ Server u' = Server u /\
  done = bool_decide (slot c s u = Some ptr) /\
  forall c' s', slot c' s' u' =
    if decide (c' = c /\ s' = s /\ slot c s u = Some ptr) then None else slot c' s' u.
Proof.
  intros Hu Hc. unfold TxTable.DeleteIf.
  assert (Hat : forall s', slot c s' u = tableAt t u !! s') by (intros; unfold slot; by rewrite Hc).
  rewrite Hat. destruct (decide (tableAt t u !! s = Some ptr)) as [Hs|Hs].
  - rewrite bool_decide_eq_true_2 by done. split_and!; try done.
    + apply udp_inv_set_table; [done|by apply (inv_tables u Hu c)| |].
      * intros c' s' p Hc'. rewrite lookup_delete. case_decide; [done|]. intros Hp.
        apply (inv_slot u Hu). unfold slot. by rewrite Hc'.
      * intros s' p. rewrite lookup_delete. case_decide; [done|]. apply (inv_entry u Hu).
    + intros c' s'. rewrite (slot_set_table c) by done. rewrite lookup_delete.
      repeat case_decide; subst; naive_solver.
  - rewrite bool_decide_eq_false_2 by done. split_and!; try done.
    intros c' s'. by rewrite decide_False by tauto.
Qed.

(** Removing through a pointer to a detached table changes no slot. *)
Lemma DeleteIf_detached t s ptr u :
  (forall c, consumers u !! c <> Some t) ->
  forall c' s', slot c' s' (snd (TxTable.DeleteIf (Some t) s ptr u)) = slot c' s' u.
Proof.
  intros Hd c' s'. simpl. case_decide; [|done]. simpl. by apply slot_set_detached.
Qed.

Lemma DeleteByHost_spec `{!MapRange string} ip u :
  udp_inv u ->
  udp_inv (ConsumerTable.DeleteByHost ip u) /\
  forall c, consumers (ConsumerTable.DeleteByHost ip u) !! c =
    if ConsumerTable.hostMatches ip c then None else consumers u !! c.
Proof.
  intros Hu.
  assert (Hc : forall c, consumers (ConsumerTable.DeleteByHost ip u) !! c =
    if ConsumerTable.hostMatches ip c then None else consumers u !! c).
  { intros c. unfold ConsumerTable.DeleteByHost. cbn [consumers].
    rewrite (fold_delete_filter (fun kv => ConsumerTable.hostMatches ip kv.1))
      by apply range_perm.
    destruct (ConsumerTable.hostMatches ip c) eqn:Hm.
    - apply map_lookup_filter_None. right. intros t _. simpl. congruence.
    - destruct (consumers u !! c) as [t|] eqn:Ht.
      + by apply map_lookup_filter_Some.
      + apply map_lookup_filter_None. by left. }
  split; [|done].
  assert (Hsub : forall c t, consumers (ConsumerTable.DeleteByHost ip u) !! c = Some t ->
    consumers u !! c = Some t).
  { intros c t. rewrite Hc. by destruct (ConsumerTable.hostMatches ip c). }
  split; try apply Hu.
  - intros c t Ht. by apply (inv_tables u Hu c), Hsub.
  - intros c c' t H1 H2. by apply (inv_inj u Hu c c' t); apply Hsub.
  - intros c s ptr Hs. apply (inv_slot u Hu). unfold slot in *.
    destruct (consumers (ConsumerTable.DeleteByHost ip u) !! c) as [t|] eqn:Ht; [|done].
    apply Hsub in Ht. by rewrite Ht.
Qed.
End Lemmas.
