(* ===== verification/ConsumersProps.v ===== *)
(** * ConsumersProps: what the transaction tables promise ([pfcp/udp/udp.go]) *)

From Stdlib Require Import Strings.Byte Strings.String.
From S2P Require Import Prelude GoNet Pfcp Consumers.

#[local] Open Scope string_scope.
#[local] Open Scope list_scope.
#[local] Open Scope Z_scope.

(** ** Properties *)

(** C23. Registering a transaction never replaces one: if its number is taken at its consumer the
    call fails with the duplicate error and nothing that can be looked up changes; if it is free
    the call succeeds, the transaction is found there, and no other slot changes. The tables stay
    well formed, and the retry for a detached table never comes to its end. *)
Theorem PutTransaction_registers {D} ptr (tx : Transaction D) u :
  udp_inv u -> txs u !! ptr = Some tx ->
  let '(err, u') := PutTransaction ptr tx u in
  udp_inv u' /\ err <> Some errDetached /\
  (err = None <-> slot (ConsumerAddr tx) (SequenceNumber tx) u = None) /\
  (err <> None -> err = Some (ErrDuplicateSequence (SequenceNumber tx))) /\
  forall c s, slot c s u' =
    if decide (c = ConsumerAddr tx /\ s = SequenceNumber tx /\ err = None) then Some ptr
    else slot c s u.
Proof.
  intros Hu Hptr. pose proof (put_spec ptr tx u Hu Hptr) as Hp.
  destruct (PutTransaction ptr tx u) as [err u']. destruct Hp as (Hu' & _ & _ & _ & _ & Hp).
  destruct (slot (ConsumerAddr tx) (SequenceNumber tx) u) as [p|]; destruct Hp as [-> Hs].
  - split_and!; try done. intros c s. by rewrite decide_False by naive_solver.
  - split_and!; try done. intros c s. rewrite Hs. repeat case_decide; naive_solver.
Qed.

(** C24. Releasing an address drops the tables of every consumer at it, whatever port the peer
    used and whatever number a transaction has, and of no consumer at another address -- this
    socket's own requests among them, unless the address is its own. *)
Theorem ForgetConsumer_by_address {D} `{!MapRange string} ip (u : Udp D) :
  udp_inv u -> Server u <> None ->
  udp_inv (ForgetConsumer ip u) /\
  forall a s,
    length (bytes (UDPAddr.IP a)) = IP.IPv4len \/ length (bytes (UDPAddr.IP a)) = IP.IPv6len ->
    UDPAddr.Zone a = "" ->
    slot (UDPAddr_String a) s (ForgetConsumer ip u) =
      if decide (IP_String (UDPAddr.IP a) = ip) then None else slot (UDPAddr_String a) s u.
Proof.
  intros Hu Hs. unfold ForgetConsumer. destruct (Server u); [|done].
  destruct (DeleteByHost_spec ip u Hu) as [Hu' Hc]. split; [done|]. intros a s Hlen Hz.
  unfold slot. rewrite Hc. unfold ConsumerTable.hostMatches. rewrite SplitHostPort_UDPAddr by done.
  case_bool_decide; [by rewrite decide_True | by rewrite decide_False].
Qed.

(** The goroutine that ran a transaction removes that transaction and no other: deleting
    through the table the consumer has now empties the slot only if this transaction is in it,
    so one registered since under the same number stays; deleting through the pointer of a table
    detached meanwhile changes nothing that can be looked up. *)
Theorem DeleteIf_only_own {D} c s ptr (u : Udp D) :
  udp_inv u ->
  let '(done, u') := TxTable.DeleteIf (ConsumerTable.Load c u) s ptr u in
  udp_inv u' /\ done = bool_decide (slot c s u = Some ptr) /\
  (forall c' s', slot c' s' u' =
     if decide (c' = c /\ s' = s /\ slot c s u = Some ptr) then None else slot c' s' u) /\
  (forall t, (forall c', consumers u !! c' <> Some t) ->
     forall c' s', slot c' s' (snd (TxTable.DeleteIf (Some t) s ptr u)) = slot c' s' u).
Proof.
  intros Hu. unfold ConsumerTable.Load. destruct (consumers u !! c) as [t|] eqn:Hc.
  - pose proof (DeleteIf_spec c t s ptr u Hu Hc) as Hd.
    destruct (TxTable.DeleteIf (Some t) s ptr u) as [b u'].
    destruct Hd as (? & _ & _ & _ & ? & ?). split_and!; try done.
    intros t' Hd. by apply (DeleteIf_detached t' s ptr u).
  - assert (Hn : slot c s u = None) by (unfold slot; by rewrite Hc).
    cbn [TxTable.DeleteIf]. split_and!; try done; [by rewrite Hn| |].
    + intros c' s'. rewrite Hn. by rewrite decide_False by naive_solver.
    + intros t' Hd. by apply (DeleteIf_detached t' s ptr u).
Qed.

(** Where a transaction is registered: a request under the socket's own address and a
    response under the peer's, in both cases under the number the message carries; a message
    that is neither is sent as a request of no consumer. *)
Theorem NewTransaction_consumer {D} `{L : PfcpLib} (m : Message) b conn dest
    (ev : option (PfcpEventData D)) :
  let tx := NewTransaction m b conn dest ev in
  SequenceNumber tx = Sequence m /\ SendMsg tx = b /\ DestAddr tx = dest /\ EventData tx = ev /\
  (TxType tx = SendingResponse <-> IsResponse m = true) /\
  ConsumerAddr tx =
    if IsRequest m then UDPAddr_String (LocalAddr conn)
    else if IsResponse m then UDPAddr_String dest else "".
Proof.
  unfold NewTransaction, IsRequest, IsResponse.
  destruct (requestType (MessageType m)) eqn:Hq; simpl.
  - split_and!; try done. by destruct (MessageType m).
  - by destruct (responseType (MessageType m)).
Qed.

(** ** Witnesses *)

Module ConsumersDemo.
Definition peer : UDPAddr := UDPAddr.mk (ParseIP.ParseIP "10.42.0.7") 40001 "".
Definition here : UDPAddr := UDPAddr.mk (ParseIP.ParseIP "10.42.0.1") PFCP_PORT "".
Definition conn : UDPConn := mkConn here.
Definition server : PfcpServer := mkServer here (Some conn).

Definition rsp (n : Z) : @Message DemoLib :=
  @NewSessionReportResponse DemoLib 0 0 0 n 0 (@NewCause DemoLib CauseRequestRejected).

Definition tx1 : Transaction unit := @NewTransaction unit DemoLib (rsp 7) [] conn peer None.

(** One transaction made, with nothing registered yet. *)
Definition made : Udp unit := snd (allocTx tx1 (mkUdp (Some server) ∅ ∅ ∅ ∅ 0 0)).
Definition registered : Udp unit := snd (PutTransaction 0 tx1 made).

Lemma made_inv : udp_inv made.
Proof. apply (alloc_spec tx1 (mkUdp (Some server) ∅ ∅ ∅ ∅ 0 0)), udp_inv_init. Qed.

Lemma registered_inv : udp_inv registered.
Proof. apply (put_spec 0 tx1 made made_inv eq_refl). Qed.
End ConsumersDemo.
Import ConsumersDemo.

Lemma PutTransaction_registers_witness :
  slot "10.42.0.7:40001" 7 registered = Some 0%nat /\
  fst (PutTransaction 0 tx1 registered) = Some (ErrDuplicateSequence 7).
Proof.
  split; [vm_compute; reflexivity|].
  pose proof (PutTransaction_registers 0 tx1 registered registered_inv eq_refl) as Hp.
  destruct (PutTransaction 0 tx1 registered) as [err u']. destruct Hp as (_ & _ & Hfree & Hdup & _).
  apply Hdup. intros He. apply Hfree in He. vm_compute in He. discriminate He.
Defined.

Lemma ForgetConsumer_by_address_witness :
  slot "10.42.0.7:40001" 7 registered = Some 0%nat /\
  slot (UDPAddr_String peer) 7 (ForgetConsumer "10.42.0.7" registered) = None.
Proof.
  split; [vm_compute; reflexivity|].
  destruct (ForgetConsumer_by_address "10.42.0.7" registered registered_inv) as [_ Hf];
    [vm_compute; discriminate|].
  etransitivity; [apply Hf; [right; reflexivity|reflexivity]|]. reflexivity.
Defined.

Lemma DeleteIf_only_own_witness :
  fst (TxTable.DeleteIf (ConsumerTable.Load "10.42.0.7:40001" registered) 7 1 registered) = false.
Proof.
  pose proof (DeleteIf_only_own "10.42.0.7:40001" 7 1 registered registered_inv) as Hd.
  destruct (TxTable.DeleteIf _ 7 1 registered) as [b u']. destruct Hd as (_ & -> & _).
  reflexivity.
Defined.
