(* ===== verification/Goroutine.v ===== *)
(** * Goroutine: code that shares a state with other goroutines

    Handlers run concurrently; between two of their operations on shared state anything may
    happen to it. A goroutine is a tree of atomic steps on the shared state [W]: each step is a
    function of the state at the moment it runs, so whatever the others did before is seen.
    [eval] runs a goroutine alone; [wp] is what holds of it under interference; [ran] is that it has
    come to its end among others. *)

From S2P Require Import Prelude.

(** ** Programs *)

(** [Act f k]: one step, which takes the state [w] to [f c w] and goes on as [k c w]. The number
    [c] chooses among what the environment or a [select] leaves open; [None] is a choice that is
    not ready, and a step none of whose choices is ready blocks. *)
Inductive prog (W A : Type) : Type :=
| Ret (a : A)
| Crash
| Act (f : nat -> W -> option W) (k : nat -> W -> prog W A).
Arguments Ret {W A} a.
Arguments Crash {W A}.
Arguments Act {W A} f k.

Section Programs.
Context {W : Type}.

Fixpoint bind {A B} (p : prog W A) (k : A -> prog W B) : prog W B :=
  match p with
  | Ret a => k a
  | Crash => Crash
  | Act f p => Act f (fun c w => bind (p c w) k)
  end.

(** One operation that always runs. *)
Definition atomic {A} (op : W -> A * W) : prog W A :=
  Act (fun c w => match c with O => Some (snd (op w)) | _ => None end)
      (fun _ w => Ret (fst (op w))).

Definition read {A} (op : W -> A) : prog W A := atomic (fun w => (op w, w)).
Definition modify (op : W -> W) : prog W unit := atomic (fun w => ((), op w)).

(** An operation that may panic, which ends the process. *)
Definition attempt {A} (op : W -> outcome (A * W)) : prog W A :=
  Act (fun c w => match c with
                  | O => match op w with Val (_, w') => Some w' | Panic => Some w end
                  | _ => None
                  end)
      (fun _ w => match op w with Val (a, _) => Ret a | Panic => Crash end).

(** [select]: the case of that number, when it is ready. *)
Definition select {A} (cases : list (W -> option (A * W))) : prog W A :=
  Act (fun c w => match cases !! c with
                  | Some ready => match ready w with Some (_, w') => Some w' | None => None end
                  | None => None
                  end)
      (fun c w => match cases !! c with
                  | Some ready => match ready w with Some (a, _) => Ret a | None => Crash end
                  | None => Crash
                  end).

Definition wait {A} (ready : W -> option (A * W)) : prog W A := select [ready].

(** Something the environment decides, such as whether a system call fails. *)
Definition oracle : prog W nat := Act (fun _ w => Some w) (fun c _ => Ret c).

(** Looking at what [x] points to, when it may be nil. *)
Definition deref {A} (x : option A) : prog W A := match x with Some a => Ret a | None => Crash end.
Definition lift {A} (x : outcome A) : prog W A := match x with Val a => Ret a | Panic => Crash end.

(** Run by a caller that recovers from its panics, which then end nothing else. *)
Fixpoint recovered {A} (p : prog W A) : prog W (option A) :=
  match p with
  | Ret a => Ret (Some a)
  | Crash => Ret None
  | Act f k => Act f (fun c w => recovered (k c w))
  end.

(** Running alone with the choices listed and then always the first: what it computes, or
    [None] if it blocks. *)
Fixpoint eval {A} (cs : list nat) (p : prog W A) (w : W) : option (outcome (A * W)) :=
  match p with
  | Ret a => Some (Val (a, w))
  | Crash => Some Panic
  | Act f k =>
      let c := match cs with c :: _ => c | [] => O end in
      match f c w with
      | Some w' => eval (tail cs) (k c w) w'
      | None => None
      end
  end.
End Programs.

Notation "'let!' x := p 'in' q" := (bind p (fun x => q))
  (at level 10, x pattern, q at level 200) : go_scope.
Notation "p ;;; q" := (bind p (fun _ => q))
  (at level 100, right associativity) : go_scope.

(** Running alone goes through a sequence. *)
Lemma eval_bind {W A B} (p : prog W A) (k : A -> prog W B) w :
  eval [] (bind p k) w =
    match eval [] p w with
    | Some (Val (a, w')) => eval [] (k a) w'
    | Some Panic => Some Panic
    | None => None
    end.
Proof.
  revert w. induction p as [a| |f p IH]; intros w; [done..|]. simpl.
  destruct (f 0%nat w) as [w'|]; [apply IH|done].
Qed.

(** The same with panics recovered, as long as there is none. *)
Lemma eval_recovered {W A B} (p : prog W A) (k : A -> prog W B) w a w' :
  eval [] p w = Some (Val (a, w')) -> eval [] (recovered (bind p k)) w = eval [] (recovered (k a)) w'.
Proof.
  revert w. induction p as [b| |f p IH]; intros w; simpl; [by intros [= -> ->]|done|].
  destruct (f 0%nat w) as [w1|]; [apply IH|done].
Qed.

Lemma eval_atomic {W A} (op : W -> A * W) w :
  eval [] (atomic op) w = Some (Val (fst (op w), snd (op w))).
Proof. done. Qed.

Lemma eval_read {W A B} (op : W -> A) (k : A -> prog W B) w :
  eval [] (bind (read op) k) w = eval [] (k (op w)) w.
Proof. done. Qed.

Lemma eval_modify {W B} (op : W -> W) (k : unit -> prog W B) w :
  eval [] (bind (modify op) k) w = eval [] (k ()) (op w).
Proof. done. Qed.

(** ** What holds under interference *)

Section Logic.
Context {W : Type}.

(** [wp R G E p Q w]: run from [w] while others do any number of [R]-steps before each step of
    [p]; then each step of [p] satisfies [G], and it returns in [Q] or panics in [E]. *)
Fixpoint wp {A} (R G : W -> W -> Prop) (E : W -> Prop) (p : prog W A) (Q : A -> W -> Prop) (w : W)
    : Prop :=
  match p with
  | Ret a => Q a w
  | Crash => E w
  | Act f k => forall w1, rtc R w w1 -> forall c w2, f c w1 = Some w2 ->
                 G w1 w2 /\ wp R G E (k c w1) Q w2
  end.

Context {R G : W -> W -> Prop} {E : W -> Prop}.

Lemma wp_bind {A B} (p : prog W A) (k : A -> prog W B) Q w :
  wp R G E p (fun a w' => wp R G E (k a) Q w') w -> wp R G E (bind p k) Q w.
Proof.
  revert w. induction p as [a| |f p IH]; intros w; simpl; [done..|].
  intros Hp w1 Hr c w2 Hf. destruct (Hp w1 Hr c w2 Hf) as [Hg Hp']. split; [done|]. by apply IH.
Qed.

Lemma wp_mono {A} (p : prog W A) (Q Q' : A -> W -> Prop) w :
  (forall a w', Q a w' -> Q' a w') -> wp R G E p Q w -> wp R G E p Q' w.
Proof.
  intros HQ. revert w. induction p as [a| |f p IH]; intros w; simpl; [apply HQ|done|].
  intros Hp w1 Hr c w2 Hf. destruct (Hp w1 Hr c w2 Hf) as [Hg Hp']. split; [done|]. by apply IH.
Qed.

Lemma wp_any {A} (p : prog W A) (Q : A -> W -> Prop) w :
  (forall w1 w2, G w1 w2) -> (forall w1, E w1) -> (forall a w1, Q a w1) -> wp R G E p Q w.
Proof.
  intros HG HE HQ. revert w. induction p as [a| |f p IH]; intros w; simpl; [auto..|].
  intros w1 _ c w2 _. split; [auto|]. by apply IH.
Qed.

Lemma wp_atomic {A} (op : W -> A * W) Q w :
  (forall w1, rtc R w w1 -> G w1 (snd (op w1)) /\ Q (fst (op w1)) (snd (op w1))) ->
  wp R G E (atomic op) Q w.
Proof. intros Hop w1 Hr [|c] w2 Hf; simplify_eq. by apply Hop. Qed.

Lemma wp_read {A} (op : W -> A) Q w :
  (forall w1, rtc R w w1 -> G w1 w1 /\ Q (op w1) w1) -> wp R G E (read op) Q w.
Proof. intros Hop. by apply wp_atomic. Qed.

Lemma wp_modify (op : W -> W) Q w :
  (forall w1, rtc R w w1 -> G w1 (op w1) /\ Q () (op w1)) -> wp R G E (modify op) Q w.
Proof. intros Hop. by apply wp_atomic. Qed.

Lemma wp_attempt {A} (op : W -> outcome (A * W)) Q w :
  (forall w1, rtc R w w1 ->
     match op w1 with Val (a, w2) => G w1 w2 /\ Q a w2 | Panic => G w1 w1 /\ E w1 end) ->
  wp R G E (attempt op) Q w.
Proof.
  intros Hop w1 Hr [|c] w2 Hf; simplify_eq. specialize (Hop w1 Hr).
  destruct (op w1) as [[a w3]|]; by simplify_eq.
Qed.

Lemma wp_select {A} (cases : list (W -> option (A * W))) Q w :
  (forall w1 i ready a w2, rtc R w w1 -> cases !! i = Some ready -> ready w1 = Some (a, w2) ->
     G w1 w2 /\ Q a w2) ->
  wp R G E (select cases) Q w.
Proof.
  intros Hs w1 Hr c w2 Hf. destruct (cases !! c) as [ready|] eqn:Hc; [|done].
  destruct (ready w1) as [[a w3]|] eqn:He; simplify_eq. simpl. by eapply Hs.
Qed.

Lemma wp_oracle (Q : nat -> W -> Prop) w :
  (forall w1 c, rtc R w w1 -> G w1 w1 /\ Q c w1) -> wp R G E oracle Q w.
Proof. intros Hq w1 Hr c w2 Hf. simplify_eq. by apply Hq. Qed.

Lemma wp_recovered {A} (p : prog W A) (Q : option A -> W -> Prop) w :
  wp R G (Q None) p (fun a => Q (Some a)) w -> wp R G E (recovered p) Q w.
Proof.
  revert w. induction p as [a| |f p IH]; intros w; simpl; [done..|].
  intros Hp w1 Hr c w2 Hf. destruct (Hp w1 Hr c w2 Hf) as [Hg Hp']. split; [done|]. by apply IH.
Qed.

Lemma wp_deref {A} (x : option A) (Q : A -> W -> Prop) w :
  match x with Some a => Q a w | None => E w end -> wp R G E (deref x) Q w.
Proof. by destruct x. Qed.

Lemma wp_lift {A} (x : outcome A) (Q : A -> W -> Prop) w :
  match x with Val a => Q a w | Panic => E w end -> wp R G E (lift x) Q w.
Proof. by destruct x. Qed.
End Logic.

Lemma wp_impl {W A} (R R' G G' : W -> W -> Prop) (E : W -> Prop) (p : prog W A) Q w :
  (forall w1 w2, R' w1 w2 -> R w1 w2) -> (forall w1 w2, G w1 w2 -> G' w1 w2) ->
  wp R G E p Q w -> wp R' G' E p Q w.
Proof.
  intros HR HG. revert w. induction p as [a| |f p IH]; intros w; simpl; [done..|].
  intros Hp w1 Hr c w2 Hf.
  destruct (Hp w1 (rtc_subrel R' R w w1 HR Hr) c w2 Hf) as [Hg Hp']. split; [auto|]. by apply IH.
Qed.

(** *** Programs all of whose steps are alike *)

Section Every.
Context {W : Type} (R G : W -> W -> Prop).

(** Every step is a [G], from wherever it is run. *)
Definition every {A} (p : prog W A) : Prop :=
  forall w, wp R G (fun _ => True) p (fun _ _ => True) w.

Lemma every_ret {A} (a : A) : every (Ret a).
Proof. done. Qed.

Lemma every_bind {A B} (p : prog W A) (k : A -> prog W B) :
  every p -> (forall a, every (k a)) -> every (bind p k).
Proof. intros Hp Hk w. apply wp_bind. eapply wp_mono; [|apply Hp]. intros a w' _. apply Hk. Qed.

Lemma every_atomic {A} (op : W -> A * W) : (forall w, G w (snd (op w))) -> every (atomic op).
Proof. intros Hop w. apply wp_atomic. by intros w1 _. Qed.

Lemma every_modify (op : W -> W) : (forall w, G w (op w)) -> every (modify op).
Proof. intros Hop. by apply every_atomic. Qed.

Lemma every_select {A} (cases : list (W -> option (A * W))) :
  Forall (fun ready => forall w, match ready w with Some (_, w') => G w w' | None => True end) cases ->
  every (select cases).
Proof.
  intros Hc w. apply wp_select. intros w1 i ready a w2 _ Hi Hr. split; [|done].
  rewrite Forall_forall in Hc. specialize (Hc ready (list_elem_of_lookup_2 _ _ _ Hi) w1).
  by rewrite Hr in Hc.
Qed.

Lemma every_recovered {A} (p : prog W A) : every p -> every (recovered p).
Proof. intros Hp w. apply wp_recovered. eapply wp_mono; [|apply Hp]. done. Qed.

Lemma every_deref {A} (x : option A) : every (deref x).
Proof. intros w. apply wp_deref. by destruct x. Qed.

Lemma every_lift {A} (x : outcome A) : every (lift x).
Proof. intros w. apply wp_lift. by destruct x. Qed.

Context (Hrefl : forall w, G w w).

Lemma every_read {A} (op : W -> A) : every (read op).
Proof. apply every_atomic. intros w. apply Hrefl. Qed.

Lemma every_attempt {A} (op : W -> outcome (A * W)) :
  (forall w, match op w with Val (_, w') => G w w' | Panic => True end) -> every (attempt op).
Proof.
  intros Hop w. apply wp_attempt. intros w1 _. specialize (Hop w1).
  destruct (op w1) as [[a w2]|]; done.
Qed.
End Every.

(** Running alone is one of the ways to run. *)
Lemma wp_eval {W A} (R G : W -> W -> Prop) E cs (p : prog W A) Q w :
  wp R G E p Q w ->
  match eval cs p w with
  | Some (Val (a, w')) => Q a w'
  | Some Panic => exists w', E w'
  | None => True
  end.
Proof.
  revert cs w. induction p as [a| |f p IH]; intros cs w; simpl; [done|by eexists|]. intros Hp.
  destruct (f _ w) as [w'|] eqn:Hf; [|done].
  destruct (Hp w (rtc_refl _ w) _ w' Hf) as [_ Hp']. by apply IH.
Qed.

(** ** What has been run *)

Section Ran.
Context {W : Type} (R : W -> W -> Prop).

(** [ran p w a w']: started in [w], the others doing [R]-steps before each of its steps, [p] has
    returned [a], its last step leaving [w']. *)
Inductive ran {A} : prog W A -> W -> A -> W -> Prop :=
| ran_ret a w : ran (Ret a) w a w
| ran_act f k c w w1 w2 a w' :
    rtc R w w1 -> f c w1 = Some w2 -> ran (k c w1) w2 a w' -> ran (Act f k) w a w'.

Lemma ran_ret_inv {A} (a b : A) w w' : ran (Ret a) w b w' -> b = a /\ w' = w.
Proof. by inversion 1. Qed.

Lemma ran_act_inv {A} f (k : nat -> W -> prog W A) w a w' :
  ran (Act f k) w a w' ->
  exists c w1 w2, rtc R w w1 /\ f c w1 = Some w2 /\ ran (k c w1) w2 a w'.
Proof. inversion 1; subst. by eexists _, _, _. Qed.

(** A panic returns nothing. *)
Lemma ran_crash_inv {A} w (a : A) w' : ~ ran Crash w a w'.
Proof. by inversion 1. Qed.

Lemma ran_bind_inv {A B} (p : prog W A) (k : A -> prog W B) w b w' :
  ran (bind p k) w b w' -> exists a w1, ran p w a w1 /\ ran (k a) w1 b w'.
Proof.
  revert w. induction p as [a| |f p IH]; intros w; simpl.
  - intros Hk. exists a, w. split; [constructor|done].
  - by intros ?%ran_crash_inv.
  - intros (c & w1 & w2 & Hr & Hf & Hk)%ran_act_inv. destruct (IH c w1 w2 Hk) as (a & w3 & Hp & Hk').
    exists a, w3. split; [by econstructor|done].
Qed.

Lemma ran_atomic_inv {A} (op : W -> A * W) w a w' :
  ran (atomic op) w a w' -> exists w1, rtc R w w1 /\ a = fst (op w1) /\ w' = snd (op w1).
Proof.
  intros ([|c] & w1 & w2 & Hr & Hf & Hk)%ran_act_inv; simplify_eq. apply ran_ret_inv in Hk as [-> ->]. by exists w1.
Qed.

Lemma ran_read_inv {A} (op : W -> A) w a w' :
  ran (read op) w a w' -> rtc R w w' /\ a = op w'.
Proof. by intros (w1 & Hr & -> & ->)%ran_atomic_inv. Qed.

Lemma ran_modify_inv (op : W -> W) w a w' :
  ran (modify op) w a w' -> exists w1, rtc R w w1 /\ w' = op w1.
Proof. intros (w1 & Hr & _ & ->)%ran_atomic_inv. by exists w1. Qed.

Lemma ran_attempt_inv {A} (op : W -> outcome (A * W)) w a w' :
  ran (attempt op) w a w' -> exists w1, rtc R w w1 /\ op w1 = Val (a, w').
Proof.
  intros ([|c] & w1 & w2 & Hr & Hf & Hk)%ran_act_inv; [|done]. exists w1. split; [done|].
  destruct (op w1) as [[b w3]|]; simplify_eq; [|by apply ran_crash_inv in Hk].
  by apply ran_ret_inv in Hk as [-> ->].
Qed.

Lemma ran_wait_inv {A} (ready : W -> option (A * W)) w a w' :
  ran (wait ready) w a w' -> exists w1, rtc R w w1 /\ ready w1 = Some (a, w').
Proof.
  intros ([|c] & w1 & w2 & Hr & Hf & Hk)%ran_act_inv; [|done]. exists w1. split; [done|]. simpl in *.
  destruct (ready w1) as [[b w3]|]; simplify_eq. by apply ran_ret_inv in Hk as [-> ->].
Qed.

Lemma ran_lift_inv {A} (x : outcome A) w a w' : ran (lift x) w a w' -> x = Val a /\ w' = w.
Proof. destruct x; [by intros [-> ->]%ran_ret_inv|by intros ?%ran_crash_inv]. Qed.

Lemma ran_deref_inv {A} (x : option A) w a w' : ran (deref x) w a w' -> x = Some a /\ w' = w.
Proof. destruct x; [by intros [-> ->]%ran_ret_inv|by intros ?%ran_crash_inv]. Qed.

(** Running alone is one of the ways to run. *)
Lemma eval_ran {A} cs (p : prog W A) w a w' : eval cs p w = Some (Val (a, w')) -> ran p w a w'.
Proof.
  revert cs w. induction p as [b| |f p IH]; intros cs w; simpl; [intros [= <- <-]; constructor|done|].
  destruct (f _ w) as [w1|] eqn:Hf; [|done]. intros He. econstructor; [done|exact Hf|by eapply IH].
Qed.

(** What a program is bound to, it has done. *)
Lemma ran_wp {G : W -> W -> Prop} {E : W -> Prop} {A} (p : prog W A) Q w a w' :
  wp R G E p Q w -> ran p w a w' -> Q a w' /\ rtc (fun w1 w2 => R w1 w2 \/ G w1 w2) w w'.
Proof.
  intros Hw Hr. induction Hr as [a w|f k c w w1 w2 a w' Hr Hf _ IH]; [done|].
  destruct (Hw w1 Hr c w2 Hf) as [Hg Hk]. destruct (IH Hk) as [HQ Hs]. split; [done|].
  etrans; [eapply rtc_subrel, Hr; by left|]. eapply rtc_l, Hs. by right.
Qed.
End Ran.

(** ** Many goroutines *)

(** The pool of running goroutines over a shared state. A step is the environment's, one of one
    goroutine, or the start of the goroutines that have been created, which are data in the state
    until [fork] starts them. *)
Inductive label := byEnv | byFork | byRun (i c : nat).

#[export] Instance label_eq_dec : EqDecision label.
Proof. solve_decision. Defined.

Section Pool.
Context {W : Type} (env : W -> W -> Prop) (fork : W -> list (prog W unit) * W).

Definition pool : Type := list (prog W unit) * W.

Inductive pool_step : label -> pool -> pool -> Prop :=
| pool_env ts w w' : env w w' -> pool_step byEnv (ts, w) (ts, w')
| pool_fork ts w : pool_step byFork (ts, w) (ts ++ fst (fork w), snd (fork w))
| pool_run ts i f k c w w' :
    ts !! i = Some (Act f k) -> f c w = Some w' ->
    pool_step (byRun i c) (ts, w) (<[i := k c w]> ts, w').

(** The step of one goroutine. *)
Lemma pool_run_inv i c s s' :
  pool_step (byRun i c) s s' ->
  exists f k, s.1 !! i = Some (Act f k) /\ f c s.2 = Some s'.2 /\ s'.1 = <[i := k c s.2]> s.1.
Proof. inversion 1; subst. by eexists _, _. Qed.

(** The start of what has been created. *)
Lemma pool_fork_inv s s' :
  pool_step byFork s s' -> s' = (s.1 ++ fst (fork s.2), snd (fork s.2)).
Proof. by inversion 1. Qed.

(** Any step leaves the goroutines that do not take it. *)
Lemma pool_step_other l s s' i p :
  pool_step l s s' -> (forall c, l <> byRun i c) -> s.1 !! i = Some p -> s'.1 !! i = Some p.
Proof.
  destruct 1 as [ts w w' _|ts w|ts j f k c w w' _ _]; intros Hl Hp; simpl in *.
  - done.
  - by apply lookup_app_l_Some.
  - rewrite list_lookup_insert_ne; [done|]. intros ->. by apply (Hl c).
Qed.

(** If the environment and every goroutine keep to [G], and every goroutine is safe while the
    others keep to [G], then every step of the whole keeps to [G]. *)
Context (G : W -> W -> Prop).
Context (I : W -> Prop) (HI : forall w w', I w -> G w w' -> I w').
Context (Henv : forall w w', I w -> env w w' -> G w w').

Definition safe (w : W) (p : prog W unit) : Prop :=
  wp (fun a b => I a /\ G a b) G (fun _ => True) p (fun _ _ => True) w.

Context (Hfork : forall w, I w -> G w (snd (fork w)) /\ Forall (safe (snd (fork w))) (fst (fork w))).

Definition pool_ok (s : pool) : Prop := I s.2 /\ Forall (safe s.2) s.1.

Lemma safe_env p w w' : I w -> G w w' -> safe w p -> safe w' p.
Proof.
  intros Hi Hg. destruct p as [a| |f k]; simpl; [done..|].
  intros Hp w1 Hr. apply Hp. by eapply rtc_l.
Qed.

Lemma safe_all ts w w' : I w -> G w w' -> Forall (safe w) ts -> Forall (safe w') ts.
Proof. intros Hi Hg Hts. eapply Forall_impl; [exact Hts|]. intros p. by apply safe_env. Qed.

Lemma pool_step_ok l s s' : pool_step l s s' -> pool_ok s -> G s.2 s'.2 /\ pool_ok s'.
Proof.
  destruct 1 as [ts w w' He|ts w|ts i f k c w w' Hl Hf]; intros [Hi Hts]; simpl in *.
  - split; [by apply Henv|]. split; simpl; [by eapply HI, Henv|]. by eapply safe_all, Hts; auto.
  - destruct (Hfork w Hi) as [Hg Hnew]. split; [done|]. split; simpl; [by eapply HI|].
    apply Forall_app. split; [by eapply safe_all, Hts|done].
  - pose proof (Forall_lookup_1 _ _ _ _ Hts Hl) as Hp.
    destruct (Hp w (rtc_refl _ w) c w' Hf) as [Hg Hp']. split; [done|].
    split; simpl; [by eapply HI|]. by apply Forall_insert; [eapply safe_all|].
Qed.
End Pool.

Section Process.
Context {W : Type} (env : W -> W -> Prop) (fork : W -> list (prog W unit) * W).

(** The process has ended. *)
Context (over : W -> Prop).

(** The process goes on: a panic ends it, and so does its own end. *)
Definition alive (s : pool) : Prop := Forall (fun p => p <> Crash) s.1 /\ ~ over s.2.

Definition pool_move (s s' : pool) : Prop := alive s /\ exists l, pool_step env fork l s s'.
End Process.
