(* ===== verification/Fairness.v ===== *)
(** * Fairness: infinite runs of a pool in which nobody is left out

    A run is an infinite sequence of states, each the next one's by a step or the same. It is fair
    when a goroutine that can go on again and again does so in the end -- those that wait for a
    lock or for a channel are served in their turn --, what has been spawned is started, and time
    passes. [leads_to] is what such runs are good for: a goroutine comes to the end of a program
    if, whenever it stands at a step, that step will be possible some time. Two ways to show it are
    set up on top: [heads], of what a program heads for from a state on, whoever moves it meanwhile;
    and [proceeds], of a goroutine in one run, when what it waits for hangs on what has happened. *)

From S2P Require Import Prelude Goroutine.

#[local] Open Scope Z_scope.

(** ** Heading for a milestone *)

Section Milestones.
Context {W : Type} (clk : W -> Z).

(** [heads ready mark p Q w]: from [w] on, the others moving the state by [R], the step [p] stands
    at will be possible at some later time, provided [ready] holds by then; so will the next ones,
    until the state satisfies [mark] or [p] returns in [Q]. *)
Fixpoint heads (R : W -> W -> Prop) (ready mark : W -> Prop) {A} (p : prog W A)
    (Q : A -> W -> Prop) (w : W) : Prop :=
  match p with
  | Ret a => Q a w
  | Crash => True
  | Act f k =>
      (exists t, forall w1, rtc R w w1 -> t <= clk w1 -> ready w1 -> exists c, is_Some (f c w1)) /\
      forall w1 c w2, rtc R w w1 -> f c w1 = Some w2 -> mark w2 \/ heads R ready mark (k c w1) Q w2
  end.

Section Heads.
Context (R : W -> W -> Prop) (ready mark : W -> Prop).

Abbreviation heads := (heads R ready mark).

Lemma heads_bind {A B} (p : prog W A) (k : A -> prog W B) Q w :
  heads p (fun a => heads (k a) Q) w -> heads (bind p k) Q w.
Proof.
  revert w. induction p as [a| |f p IH]; intros w; simpl; [done..|]. intros [Hf Hp].
  split; [done|]. intros w1 c w2 Hr Hc. destruct (Hp w1 c w2 Hr Hc); [by left|right; by apply IH].
Qed.

Lemma heads_mono {A} (p : prog W A) (Q Q' : A -> W -> Prop) w :
  (forall a w', Q a w' -> Q' a w') -> heads p Q w -> heads p Q' w.
Proof.
  intros HQ. revert w. induction p as [a| |f p IH]; intros w; simpl; [auto|done|]. intros [Hf Hp].
  split; [done|]. intros w1 c w2 Hr Hc. destruct (Hp w1 c w2 Hr Hc); [by left|right; by apply IH].
Qed.

Lemma heads_atomic {A} (op : W -> A * W) Q w :
  (forall w1, rtc R w w1 -> mark (snd (op w1)) \/ Q (fst (op w1)) (snd (op w1))) ->
  heads (atomic op) Q w.
Proof.
  intros Hop. split.
  - exists 0. intros w1 _ _ _. exists O. by eexists.
  - intros w1 [|c] w2 Hr Hc; simplify_eq. by apply Hop.
Qed.

Lemma heads_attempt {A} (op : W -> outcome (A * W)) (Q : A -> W -> Prop) w :
  (forall w1 a w2, rtc R w w1 -> op w1 = Val (a, w2) -> mark w2 \/ Q a w2) ->
  heads (attempt op) Q w.
Proof.
  intros Hop. split.
  - exists 0. intros w1 _ _ _. exists O. simpl. destruct (op w1) as [[a w2]|]; by eexists.
  - intros w1 [|c] w2 Hr Hc; [|done]. specialize (Hop w1). simpl in *.
    destruct (op w1) as [[a w3]|]; simplify_eq; [by apply Hop|by right].
Qed.

Lemma heads_select {A} (cases : list (W -> option (A * W))) (Q : A -> W -> Prop) w :
  (exists t, forall w1, rtc R w w1 -> t <= clk w1 -> ready w1 ->
     Exists (fun case => is_Some (case w1)) cases) ->
  Forall (fun case => forall w1 a w2, rtc R w w1 -> case w1 = Some (a, w2) -> mark w2 \/ Q a w2)
    cases ->
  heads (select cases) Q w.
Proof.
  intros [t Ht] Hc. split.
  - exists t. intros w1 Hr Hclk Hw. specialize (Ht w1 Hr Hclk Hw).
    apply Exists_exists in Ht as (case & Hin & [[a w2] Hcase]).
    apply list_elem_of_lookup in Hin as [i Hl]. exists i. rewrite Hl, Hcase. by eexists.
  - intros w1 c w2 Hr Hf. destruct (cases !! c) as [case|] eqn:Hl; [|done].
    destruct (case w1) as [[a w3]|] eqn:Hcase; simplify_eq. by apply (Forall_lookup_1 _ _ _ _ Hc Hl w1).
Qed.

(** Whatever is ready, it comes to its end. *)
Definition flows {A} (p : prog W A) : Prop := forall w, heads p (fun _ _ => True) w.

Lemma flows_ret {A} (a : A) : flows (Ret a).
Proof. done. Qed.

Lemma flows_bind {A B} (p : prog W A) (k : A -> prog W B) :
  flows p -> (forall a, flows (k a)) -> flows (bind p k).
Proof. intros Hp Hk w. apply heads_bind. eapply heads_mono; [|apply Hp]. intros a w' _. apply Hk. Qed.

Lemma flows_atomic {A} (op : W -> A * W) : flows (atomic op).
Proof. intros w. apply heads_atomic. auto. Qed.

Lemma flows_attempt {A} (op : W -> outcome (A * W)) : flows (attempt op).
Proof. intros w. apply heads_attempt. auto. Qed.

Lemma flows_deref {A} (x : option A) : flows (deref x).
Proof. by destruct x. Qed.

Lemma flows_select {A} (cases : list (W -> option (A * W))) t :
  (forall w, t <= clk w -> Exists (fun case => is_Some (case w)) cases) -> flows (select cases).
Proof.
  intros Hc w. apply heads_select; [exists t; auto|]. apply Forall_true. auto.
Qed.
End Heads.
End Milestones.

Section Alive.
Context {W : Type} (over : W -> Prop) `{!forall w, Decision (over w)}.

#[export] Instance not_crash_dec (p : prog W unit) : Decision (p <> Crash).
Proof. destruct p as [a| |f k]; [left|right|left]; by auto. Defined.

#[export] Instance alive_dec (s : list (prog W unit) * W) : Decision (alive over s).
Proof. unfold alive. apply _. Defined.

Lemma not_alive (s : list (prog W unit) * W) : ~ alive over s -> over s.2 \/ Crash ∈ s.1.
Proof.
  intros Hn. destruct (decide (over s.2)) as [Ho|Ho]; [by left|right].
  destruct (decide (Forall (fun p => p <> Crash) s.1)) as [Hf|Hf]; [by destruct Hn|].
  apply not_Forall_Exists in Hf; [|apply _]. apply Exists_exists in Hf as (p & Hp & Hc).
  by destruct p; try by destruct Hc.
Qed.
End Alive.

Section Runs.
Context {W : Type} (env : W -> W -> Prop) (fork : W -> list (prog W unit) * W).
Context (over : W -> Prop) `{!forall w, Decision (over w)} (clk : W -> Z).

Abbreviation state := (list (prog W unit) * W)%type.

(** A run and what each of its steps is; [None] is no step. *)
Context (st : nat -> state) (lb : nat -> option label).

Definition is_run : Prop := forall n,
  match lb n with
  | Some l => alive over (st n) /\ pool_step env fork l (st n) (st (S n))
  | None => st (S n) = st n
  end.

Definition runs (i n : nat) : Prop := exists c, lb n = Some (byRun i c).

Definition enabled (i : nat) (s : state) : Prop :=
  alive over s /\ exists f k c, s.1 !! i = Some (Act f k) /\ is_Some (f c s.2).

(** A panic has ended the process, or it has come to its own end. *)
Definition ended (n : nat) : Prop := ~ alive over (st n).

Record fair : Prop := {
  fair_run : is_run;
  fair_goroutine i n :
    exists m, (n <= m)%nat /\ (runs i m \/ forall k, (m <= k)%nat -> ~ enabled i (st k));
  fair_fork n : exists m, (n <= m)%nat /\ (lb m = Some byFork \/ ended m);
  fair_time t n : exists m, (n <= m)%nat /\ (t <= clk (st m).2 \/ ended m);
}.

Lemma runs_dec i n : runs i n \/ forall c, lb n <> Some (byRun i c).
Proof.
  unfold runs. destruct (lb n) as [[| |j c]|]; try (right; by intros ?).
  destruct (decide (j = i)) as [->|Hne]; [left; by eexists|]. right. intros c' Hc. congruence.
Qed.

(** Nothing happens after the end. *)
Lemma ended_stays n m : is_run -> (n <= m)%nat -> ended n -> ended m.
Proof.
  intros Hrun Hle He. induction Hle as [|m _ IH]; [done|]. specialize (Hrun m).
  unfold ended in *. destruct (lb m) as [l|]; [by destruct Hrun|]. by rewrite Hrun.
Qed.

(** What every step keeps holds from then on. *)
Lemma run_keeps (P : state -> Prop) n m :
  is_run -> (forall l s s', alive over s -> pool_step env fork l s s' -> P s -> P s') ->
  (n <= m)%nat -> P (st n) -> P (st m).
Proof.
  intros Hrun HP Hle Hn. induction Hle as [|m _ IH]; [done|]. specialize (Hrun m).
  destruct (lb m) as [l|]; [destruct Hrun as [Ha Hs]; by eapply HP|by rewrite Hrun].
Qed.

(** ** Coming to the end of a program *)

Section Leads.
Context (Hfair : fair) (i : nat).

(** [Phi x n p]: what is known of the goroutine when it stands at [p] at that point of the run, [x]
    being something that only its own steps change. The step it stands at is possible some time
    later, if it still stands there -- unless one may [stop] looking. *)
Context {X : Type} (Phi : X -> nat -> prog W unit -> Prop) (stop : nat -> Prop).

Abbreviation stands x p n := ((st n).1 !! i = Some p /\ Phi x n p).

Context (Hother : forall x n f g, (forall c, lb n <> Some (byRun i c)) -> stands x (Act f g) n ->
  Phi x (S n) (Act f g) \/ stop (S n)).
Context (Hown : forall x n c f g, lb n = Some (byRun i c) -> f c (st n).2 = Some (st (S n)).2 ->
  stands x (Act f g) n -> (exists x', Phi x' (S n) (g c (st n).2)) \/ stop (S n)).
Context (Hprogress : forall x n f g, stands x (Act f g) n -> exists m, (n <= m)%nat /\
  (ended m \/ (Phi x m (Act f g) -> stop m \/ exists c, is_Some (f c (st m).2)))).

Lemma own_step x n c f g :
  lb n = Some (byRun i c) -> stands x (Act f g) n ->
  (exists x', stands x' (g c (st n).2) (S n)) \/ stop (S n).
Proof.
  intros Hl [Hi Hphi]. pose proof (fair_run Hfair n) as Hs. rewrite Hl in Hs.
  destruct Hs as [Ha Hs]. destruct (pool_run_inv _ _ _ _ _ _ Hs) as (f' & g' & Hi' & Hf & Hts).
  rewrite Hi in Hi'. injection Hi' as <- <-.
  destruct (Hown x n c f g) as [[x' Hphi']|]; [done..| |by right].
  left. exists x'. split; [|done].
  rewrite Hts, list_lookup_insert_eq; [done|]. by eapply lookup_lt_Some.
Qed.

(** One may stop looking, or it has taken its step, or it still stands there. *)
Lemma follow x n m f g :
  (n <= m)%nat -> stands x (Act f g) n ->
  (exists m', (n <= m')%nat /\ stop m') \/
  (exists m' c x', (n <= m')%nat /\ stands x' (g c (st m').2) (S m')) \/ stands x (Act f g) m.
Proof.
  intros Hle Hn. induction Hle as [|m Hle IH]; [by auto|].
  destruct IH as [IH|[IH|Hm]]; [by auto..|].
  destruct (runs_dec i m) as [[c Hc]|Hr].
  - destruct (own_step x m c f g Hc Hm) as [[x' Hx]|]; [|left; exists (S m); auto].
    right. left. by exists m, c, x'.
  - destruct (Hother x m f g Hr Hm) as [|]; [|left; exists (S m); auto]. right. right. split; [|done].
    pose proof (fair_run Hfair m) as Hs. destruct (lb m) as [l|]; [|by rewrite Hs; apply Hm].
    destruct Hs as [_ Hs]. eapply pool_step_other; [exact Hs| |apply Hm]. intros c ->. by apply (Hr c).
Qed.

(** It comes to the end, unless one may stop looking or the process has ended. *)
Lemma leads_at x p n :
  stands x p n ->
  exists m, (n <= m)%nat /\ (stop m \/ ended m \/ exists a x', stands x' (Ret a) m).
Proof.
  revert x n. induction p as [a| |f g IH]; intros x n Hn.
  { exists n. split; [done|]. right. right. by exists a, x. }
  { exists n. split; [done|]. right. left. intros [Ha _]. destruct Hn as [Hi _].
    by apply (Forall_lookup_1 _ _ _ _ Ha Hi). }
  assert (Hnext : (exists m', (n <= m')%nat /\ stop m') \/
    (exists m' c x', (n <= m')%nat /\ stands x' (g c (st m').2) (S m')) ->
    exists m, (n <= m)%nat /\ (stop m \/ ended m \/ exists a x', stands x' (Ret a) m)).
  { intros [(m' & Hm' & Hst)|(m' & c & x' & Hm' & Hst)]; [exists m'; auto|].
    destruct (IH c (st m').2 x' (S m') Hst) as (m2 & Hm2 & H2). exists m2. split; [lia|done]. }
  destruct (fair_goroutine Hfair i n) as (m0 & Hm0 & H0).
  destruct (follow x n m0 f g Hm0 Hn) as [?|[?|Hst0]]; [by auto..|].
  destruct H0 as [[c Hr]|Hdis].
  { apply Hnext. destruct (own_step x m0 c f g Hr Hst0) as [[x' Hx]|].
    - right. by exists m0, c, x'.
    - left. exists (S m0). split; [lia|done]. }
  destruct (Hprogress _ _ _ _ Hst0) as (m1 & Hm1 & [He|Hpos]); [exists m1; split; [lia|auto]|].
  destruct (follow x n m1 f g ltac:(lia) Hn) as [?|[?|Hst1]]; [by auto..|].
  destruct (decide (alive over (st m1))) as [Ha1|]; [|exists m1; split; [lia|auto]].
  destruct (Hpos (proj2 Hst1)) as [?|[c Hc]]; [exists m1; split; [lia|auto]|].
  destruct (Hdis m1 Hm1). split; [done|]. eexists f, _, c. split; [apply Hst1|done].
Qed.
End Leads.

(** The same when what is known is of the state alone. *)
Section States.
Context (Hfair : fair) (i : nat).
Context {X : Type} (Phi : X -> state -> prog W unit -> Prop) (stop : state -> Prop).

Abbreviation stands x p n := ((st n).1 !! i = Some p /\ Phi x (st n) p).

Context (Hother : forall x l s s' f g, alive over s -> pool_step env fork l s s' ->
  (forall c, l <> byRun i c) -> s.1 !! i = Some (Act f g) ->
  Phi x s (Act f g) -> Phi x s' (Act f g) \/ stop s').
Context (Hown : forall x s s' f g c, alive over s -> pool_step env fork (byRun i c) s s' ->
  s.1 !! i = Some (Act f g) -> f c s.2 = Some s'.2 ->
  Phi x s (Act f g) -> (exists x', Phi x' s' (g c s.2)) \/ stop s').
Context (Hprogress : forall x n f g, stands x (Act f g) n -> exists m, (n <= m)%nat /\
  (ended m \/ (Phi x (st m) (Act f g) -> stop (st m) \/ exists c, is_Some (f c (st m).2)))).

Lemma leads_to x p n :
  stands x p n ->
  exists m, (n <= m)%nat /\ (stop (st m) \/ ended m \/ exists a x', stands x' (Ret a) m).
Proof.
  apply (leads_at Hfair i (fun x n => Phi x (st n)) (fun n => stop (st n))); [| |done].
  - intros y k f g Hl [Hi Hphi]. pose proof (fair_run Hfair k) as Hs.
    destruct (lb k) as [l|]; [|left; by rewrite Hs]. destruct Hs as [Ha Hs].
    apply (Hother y l (st k) (st (S k)) f g); [done..| |done|done]. intros c ->. by apply (Hl c).
  - intros y k c f g Hl Hf [Hi Hphi]. pose proof (fair_run Hfair k) as Hs. rewrite Hl in Hs.
    destruct Hs as [Ha Hs]. by apply (Hown y (st k) (st (S k)) f g c).
Qed.
End States.

(** ** Proceeding along a run *)

Section Proceeds.
Context (i : nat) (stop : nat -> Prop).

(** The goroutine has taken a step since. *)
Definition moved (n m : nat) : Prop := exists k c, (n <= k < m)%nat /\ lb k = Some (byRun i c).

(** [proceeds p Q n]: of the goroutine that stands at [p] at that point of the run, each step is one
    that, while it is to be taken, becomes possible again and again; and it returns in [Q]. *)
Fixpoint proceeds {A} (p : prog W A) (Q : A -> nat -> Prop) (n : nat) : Prop :=
  match p with
  | Ret a => Q a n
  | Crash => True
  | Act f k =>
      (forall m, (n <= m)%nat -> exists m', (m <= m')%nat /\
         (stop m' \/ ended m' \/ moved n m' \/ exists c, is_Some (f c (st m').2))) /\
      forall m c, (n <= m)%nat -> ~ moved n m -> lb m = Some (byRun i c) ->
        f c (st m).2 = Some (st (S m)).2 -> proceeds (k c (st m).2) Q (S m)
  end.

Lemma proceeds_bind {A B} (p : prog W A) (k : A -> prog W B) Q n :
  proceeds p (fun a => proceeds (k a) Q) n -> proceeds (bind p k) Q n.
Proof using Type.
  revert n. induction p as [a| |f p IH]; intros n; simpl; [done..|]. intros [Hf Hp]. auto.
Qed.

Lemma proceeds_mono {A} (p : prog W A) (Q Q' : A -> nat -> Prop) n :
  (forall a m, (n <= m)%nat -> Q a m -> Q' a m) -> proceeds p Q n -> proceeds p Q' n.
Proof using Type.
  revert n. induction p as [a| |f p IH]; intros n HQ; simpl; [auto|done|]. intros [Hf Hp].
  split; [done|]. intros m c Hm Hs Hl Hc. apply IH; [|by apply Hp]. intros a m' Hm'. apply HQ. lia.
Qed.

Lemma proceeds_atomic {A} (op : W -> A * W) Q n :
  (forall m, (n <= m)%nat -> lb m = Some (byRun i 0) -> (st (S m)).2 = snd (op (st m).2) ->
     Q (fst (op (st m).2)) (S m)) ->
  proceeds (atomic op) Q n.
Proof using Type.
  intros Hop. split.
  - intros m _. exists m. split; [done|]. right. right. right. exists O. by eexists.
  - intros m [|c] Hm _ Hl Hc; [|done]. injection Hc as Hc. by apply Hop.
Qed.

Lemma proceeds_attempt {A} (op : W -> outcome (A * W)) (Q : A -> nat -> Prop) n :
  (forall m a, (n <= m)%nat -> op (st m).2 = Val (a, (st (S m)).2) -> Q a (S m)) ->
  proceeds (attempt op) Q n.
Proof using Type.
  intros Hop. split.
  - intros m _. exists m. split; [done|]. right. right. right. exists O.
    destruct (op (st m).2) as [[a w]|]; by eexists.
  - intros m [|c] Hm _ _ Hc; [|done]. specialize (Hop m). simpl in *.
    destruct (op (st m).2) as [[a w]|]; [|done]. simplify_eq. by apply Hop.
Qed.

Lemma proceeds_wait {A} (ready : W -> option (A * W)) (Q : A -> nat -> Prop) n :
  (forall m, (n <= m)%nat -> exists m', (m <= m')%nat /\
     (stop m' \/ ended m' \/ moved n m' \/ is_Some (ready (st m').2))) ->
  (forall m a, (n <= m)%nat -> ready (st m).2 = Some (a, (st (S m)).2) -> Q a (S m)) ->
  proceeds (wait ready) Q n.
Proof using Type.
  intros Hr HQ. split.
  - intros m Hm. destruct (Hr m Hm) as (m' & Hm' & [|[|[|[[a w] Ha]]]]); exists m'; [auto..|].
    split; [done|]. right. right. right. exists O. simpl. rewrite Ha. by eexists.
  - intros m [|c] Hm _ _ Hc; [|done]. simpl in *.
    destruct (ready (st m).2) as [[a w]|] eqn:Ha; [|done]. simplify_eq. by apply HQ.
Qed.

(** A panic that is recovered is an end like another. *)
Lemma proceeds_recovered {A} (p : prog W A) (Q : option A -> nat -> Prop) n :
  (forall m, Q None m) -> proceeds p (fun a => Q (Some a)) n -> proceeds (recovered p) Q n.
Proof using Type. intros HQ. revert n. induction p as [a| |f p IH]; intros n; simpl; [done..|]. intros [Hf Hp]. auto. Qed.

(** Nothing is said of where it returns. *)
Definition proceeding {A} (p : prog W A) : Prop := forall n, proceeds p (fun _ _ => True) n.

Lemma proceeding_ret {A} (a : A) : proceeding (Ret a).
Proof using Type. done. Qed.

Lemma proceeding_bind {A B} (p : prog W A) (k : A -> prog W B) :
  proceeding p -> (forall a, proceeding (k a)) -> proceeding (bind p k).
Proof using Type. intros Hp Hk n. apply proceeds_bind. eapply proceeds_mono, Hp. intros a m _ _. apply Hk. Qed.

Lemma proceeding_atomic {A} (op : W -> A * W) : proceeding (atomic op).
Proof using Type. intros n. by apply proceeds_atomic. Qed.

Lemma proceeding_attempt {A} (op : W -> outcome (A * W)) : proceeding (attempt op).
Proof using Type. intros n. by apply proceeds_attempt. Qed.

Lemma proceeding_deref {A} (x : option A) : proceeding (deref x).
Proof using Type. by destruct x. Qed.

Lemma proceeding_lift {A} (x : outcome A) : proceeding (lift x).
Proof using Type. by destruct x. Qed.

(** What proceeds comes to its end. *)
Lemma proceeds_ends (Hfair : fair) p Q n :
  (st n).1 !! i = Some p -> proceeds p Q n ->
  exists m, (n <= m)%nat /\ (stop m \/ ended m \/ (st m).1 !! i = Some (Ret ())).
Proof.
  intros Hi Hp.
  destruct (leads_at Hfair i
    (fun k m p => (k <= m)%nat /\ ~ moved k m /\ proceeds p (fun _ _ => True) k) stop)
    with (x := n) (p := p) (n := n) as (m & Hm & [Hs|[He|([] & _ & Ha & _)]]).
  - intros k m f g Hl [_ (Hk & Hstood & Hp')]. left. split; [lia|]. split; [|done].
    intros (k' & c & Hk' & Hc). destruct (decide (k' = m)) as [->|]; [by apply (Hl c)|].
    apply Hstood. exists k', c. split; [lia|done].
  - intros k m c f g Hl Hf [_ (Hk & Hstood & [_ Hp'])]. left. exists (S m).
    split; [done|]. split; [intros (k' & c' & Hk' & _); lia|by apply Hp'].
  - intros k m f g [_ (Hk & _ & [Hf _])].
    destruct (Hf m Hk) as (m' & Hm' & [|[|[|Hc]]]); exists m'; [by auto..| |by auto].
    split; [done|]. by right; intros (_ & Hstood & _).
  - split; [done|]. split; [done|]. split; [intros (k' & c' & Hk' & _); lia|]. by eapply proceeds_mono.
  - exists m. auto.
  - exists m. auto.
  - exists m. auto.
Qed.
End Proceeds.

(** ** Coming to a milestone *)

Section Milestone.
Context (R : W -> W -> Prop) (good stop : state -> Prop) (ready mark : W -> Prop).
Context (Hfair : fair).
Context (Hstep : forall l s s', alive over s -> pool_step env fork l s s' -> good s ->
  stop s' \/ (R s.2 s'.2 /\ good s')).

(** What heads for a milestone comes to it, once what it waits for has come about for good, unless
    one may stop looking or the process ends. *)
Lemma heads_reaches i p n m0 :
  (st n).1 !! i = Some p -> good (st n) -> heads clk R ready mark p (fun _ => mark) (st n).2 ->
  (forall m, (m0 <= m)%nat -> ready (st m).2) ->
  exists m, (n <= m)%nat /\ (mark (st m).2 \/ stop (st m) \/ ended m).
Proof.
  intros Hi Hg0 Hp Hready.
  destruct (leads_to Hfair i
    (fun x s p => good s /\ rtc R x s.2 /\ heads clk R ready mark p (fun _ => mark) x /\
       forall a, p = Ret a -> mark s.2)
    (fun s => mark s.2 \/ stop s)) with (x := (st n).2) (p := p) (n := n)
    as (m & Hm & [[Hk|Hs]|[He|(a & x' & _ & _ & _ & _ & Hk)]]).
  - intros x l s s' f g Ha Hs Hne _ (Hg & Hx & Hh & _).
    destruct (Hstep l s s' Ha Hs Hg) as [|[Hw Hg']]; [by right; right|left].
    split_and!; [done|by eapply rtc_r|done|done].
  - intros x s s' f g c Ha Hs Hf Hfc (Hg & Hx & [_ Hh] & _).
    destruct (Hstep _ s s' Ha Hs Hg) as [|[Hw Hg']]; [by right; right|].
    destruct (Hh s.2 c s'.2 Hx Hfc) as [Hk|Hk]; [by right; left|left].
    exists s'.2. split_and!; [done|done|done|]. intros a Ha'. by rewrite Ha' in Hk.
  - intros x k f g (_ & Hg & Hx & [[t Ht] _] & _).
    destruct (fair_time Hfair t (max k m0)) as (m & Hm & [Hclk|He]); exists m; (split; [lia|]); [right|by left].
    intros (_ & Hx' & _). right. apply Ht; [done|done|]. apply Hready. lia.
  - split; [done|]. split_and!; [done|done|done|by intros a ->].
  - exists m. auto.
  - exists m. auto.
  - exists m. auto.
  - exists m. split; [done|]. left. by apply (Hk a).
Qed.
End Milestone.

(** What is spawned when goroutines are started is one of them. *)
Lemma fork_stands n p :
  is_run -> lb n = Some byFork -> p ∈ fst (fork (st n).2) ->
  exists i, (length (st n).1 <= i)%nat /\ (st (S n)).1 !! i = Some p /\ (st (S n)).2 = snd (fork (st n).2).
Proof.
  intros Hrun Hl Hp. specialize (Hrun n). rewrite Hl in Hrun. destruct Hrun as [_ Hs].
  apply list_elem_of_lookup in Hp as [k Hk]. exists (length (st n).1 + k)%nat.
  rewrite (pool_fork_inv _ _ _ _ Hs). simpl. split; [lia|]. split; [|done]. rewrite lookup_app_r by lia.
  by replace (_ + k - _)%nat with k by lia.
Qed.
End Runs.

(** ** Runs that end *)

Section Finite.
Context {W : Type} (env : W -> W -> Prop) (fork : W -> list (prog W unit) * W).
Context (over : W -> Prop) `{!forall w, Decision (over w)} (clk : W -> Z).

Abbreviation state := (list (prog W unit) * W)%type.

(** The run of a list of steps, after which nothing happens. *)
Fixpoint stateAt (s : state) (tr : list (label * state)) (n : nat) : state :=
  match n, tr with
  | S n, (_, s') :: tr => stateAt s' tr n
  | _, _ => s
  end.

Definition labelAt (tr : list (label * state)) (n : nat) : option label := fst <$> tr !! n.

(** Its steps are steps, and the process has ended after them. *)
Fixpoint finished (s : state) (tr : list (label * state)) : Prop :=
  match tr with
  | [] => ~ alive over s
  | (l, s') :: tr => alive over s /\ pool_step env fork l s s' /\ finished s' tr
  end.

Lemma finished_ended s tr n :
  finished s tr -> (length tr <= n)%nat -> ended over (stateAt s tr) n.
Proof.
  revert s n. induction tr as [|[l s'] tr IH]; intros s n.
  - intros Hs _. by destruct n.
  - intros (_ & _ & Hs) Hn. destruct n as [|n]; simpl in Hn; [lia|]. apply (IH s' n Hs). lia.
Qed.

Lemma finished_run s tr : finished s tr -> is_run env fork over (stateAt s tr) (labelAt tr).
Proof.
  revert s. induction tr as [|[l s'] tr IH]; intros s.
  - intros _ n. unfold labelAt. rewrite lookup_nil. by destruct n.
  - intros (Ha & Hs & Hf) n. destruct n as [|n]; [|apply (IH s' Hf n)].
    simpl. split; [done|]. by destruct tr as [|[]].
Qed.

(** Nobody is left out of a run that ends. *)
Lemma finished_fair s tr :
  finished s tr -> fair env fork over clk (stateAt s tr) (labelAt tr).
Proof.
  intros Hf. assert (Hend : forall n, exists m, (n <= m)%nat /\ ended over (stateAt s tr) m).
  { intros n. exists (n + length tr)%nat. split; [lia|]. apply (finished_ended _ _ _ Hf). lia. }
  split; [by apply finished_run| | |].
  - intros i n. destruct (Hend n) as (m & Hm & He). exists m. split; [done|]. right.
    intros k Hk [Ha _]. 
    by apply (ended_stays env fork over clk (stateAt s tr) (labelAt tr) m k (finished_run s tr Hf) Hk He).
  - intros n. destruct (Hend n) as (m & Hm & He). exists m. auto.
  - intros t n. destruct (Hend n) as (m & Hm & He). exists m. auto.
Qed.
End Finite.
