(* ===== verification/Ownership.v ===== *)
(** * Ownership: rights that goroutines hold and pass on

    Some things one goroutine at a time may do: send into a channel it has taken from a table, or
    remove the transaction it runs. The code does not say so anywhere; it follows from where a
    channel or a pointer has come from. Here each goroutine holds a finite map of such rights, no
    two hold the same, and [J] relates all of them to the state. [own] is a goroutine's
    correctness with what it holds: at every step, whatever the others hold and have done, it
    keeps [J] for all of them together. *)

From S2P Require Import Prelude Goroutine.

#[local] Open Scope Z_scope.

Section Splits.
Context {K V : Type} `{Countable K}.

Abbreviation rights := (gmap K V).

(** ** Dividing the rights of all *)

Inductive splits : list rights -> rights -> Prop :=
| splits_nil : splits [] ∅
| splits_cons d ds D : d ##ₘ D -> splits ds D -> splits (d :: ds) (d ∪ D).

(** One goroutine's rights and the rest, which stays the rest when its own change. *)
Lemma splits_at ds D i d :
  splits ds D -> ds !! i = Some d ->
  exists F, d ##ₘ F /\ D = d ∪ F /\
    forall d', d' ##ₘ F -> splits (<[i := d']> ds) (d' ∪ F).
Proof.
  intros Hs. revert i. induction Hs as [|d0 ds D Hd Hs IH]; intros [|i] Hi; simplify_eq/=.
  - exists D. split_and!; [done..|]. intros d' Hd'. by constructor.
  - destruct (IH i Hi) as (F & HF & -> & Hins). apply map_disjoint_union_r in Hd as [H1 H2].
    exists (d0 ∪ F). split_and!.
    + by apply map_disjoint_union_r.
    + rewrite !map_union_assoc. f_equal. by apply map_union_comm.
    + intros d' [H3 H4]%map_disjoint_union_r. rewrite map_union_assoc, (map_union_comm d' d0) by done.
      rewrite <- map_union_assoc. constructor; [|by apply Hins].
      by apply map_disjoint_union_r.
Qed.

Lemma splits_app ds1 D1 ds2 D2 :
  splits ds1 D1 -> splits ds2 D2 -> D1 ##ₘ D2 -> splits (ds1 ++ ds2) (D1 ∪ D2).
Proof.
  intros H1 H2. induction H1 as [|d ds D Hd Hs IH]; intros Hdis; simpl.
  - by rewrite map_empty_union.
  - apply map_disjoint_union_l in Hdis as [Hd2 HD2]. rewrite <- map_union_assoc.
    constructor; [by apply map_disjoint_union_r|auto].
Qed.

Lemma splits_some ds D k v :
  splits ds D -> D !! k = Some v -> exists i d, ds !! i = Some d /\ d !! k = Some v.
Proof.
  induction 1 as [|d ds D Hd Hs IH]; [done|].
  intros [Hk|[_ Hk]]%lookup_union_Some_raw; [by exists 0%nat, d|].
  destruct (IH Hk) as (i & d' & ? & ?). by exists (S i), d'.
Qed.

End Splits.

Section Own.
Context {W K V : Type} `{Countable K}.

Abbreviation rights := (gmap K V).

(** [clk] is the clock; [I] what is known of every state; [J D w] of the state and the rights of
    all; [M d w d' w'] how a step may change a goroutine's rights; [open d w] that no lock keeps a
    goroutine with these rights from its step; [must] says whether, holding these rights, it may
    wait for nothing but such a lock; [calm] what it must be left with when it panics. *)
Context (clk : W -> Z) (I : W -> Prop) (J : rights -> W -> Prop).
Context (M : rights -> W -> rights -> W -> Prop) (open : rights -> W -> Prop).
Context (must calm : rights -> Prop).

(** The step [f] is possible from some time on, but for locks. *)
Definition possible (f : nat -> W -> option W) (d : rights) : Prop :=
  exists t, forall F w, I w -> d ##ₘ F -> J (d ∪ F) w -> open d w -> t <= clk w ->
    exists c, is_Some (f c w).

Fixpoint own (live : bool) {A} (p : prog W A) (Q : A -> rights -> Prop) (d : rights) : Prop :=
  match p with
  | Ret a => Q a d
  | Crash => calm d
  | Act f k =>
      (live = true \/ must d -> possible f d) /\
      forall F w c w', I w -> I w' -> d ##ₘ F -> J (d ∪ F) w -> f c w = Some w' ->
        exists d', d' ##ₘ F /\ J (d' ∪ F) w' /\ M d w d' w' /\ own live (k c w) Q d'
  end.

Lemma own_bind live {A B} (p : prog W A) (k : A -> prog W B) Q d :
  own live p (fun a => own live (k a) Q) d -> own live (bind p k) Q d.
Proof.
  revert d. induction p as [a| |f p IH]; intros d; simpl; [done..|]. intros [Hp Hs].
  split; [done|]. intros F w c w' Hi Hi' Hd Hj Hf.
  destruct (Hs F w c w' Hi Hi' Hd Hj Hf) as (d' & ? & ? & ? & Hk). exists d'. split_and!; auto.
Qed.

Lemma own_mono live {A} (p : prog W A) (Q Q' : A -> rights -> Prop) d :
  (forall a d', Q a d' -> Q' a d') -> own live p Q d -> own live p Q' d.
Proof.
  intros HQ. revert d. induction p as [a| |f p IH]; intros d; simpl; [auto|done|]. intros [Hp Hs].
  split; [done|]. intros F w c w' Hi Hi' Hd Hj Hf.
  destruct (Hs F w c w' Hi Hi' Hd Hj Hf) as (d' & ? & ? & ? & Hk). exists d'. split_and!; auto.
Qed.

Lemma own_weaken {A} (p : prog W A) Q d live : own true p Q d -> own live p Q d.
Proof.
  revert d. induction p as [a| |f p IH]; intros d; simpl; [done..|]. intros [Hp Hs].
  split; [auto|]. intros F w c w' Hi Hi' Hd Hj Hf.
  destruct (Hs F w c w' Hi Hi' Hd Hj Hf) as (d' & ? & ? & ? & Hk). exists d'. split_and!; auto.
Qed.

Lemma own_recovered live {A} (p : prog W A) (Q : option A -> rights -> Prop) d :
  (forall d', calm d' -> Q None d') -> own live p (fun a => Q (Some a)) d -> own live (recovered p) Q d.
Proof.
  intros HQ. revert d. induction p as [a| |f p IH]; intros d; simpl; [done|apply HQ|]. intros [Hp Hs].
  split; [done|]. intros F w c w' Hi Hi' Hd Hj Hf.
  destruct (Hs F w c w' Hi Hi' Hd Hj Hf) as (d' & ? & ? & ? & Hk). exists d'. split_and!; auto.
Qed.

(** What a step from [w] to [w'] has to come to, [a] being its result. *)
Definition passes {A} (Q : A -> rights -> Prop) (d : rights) (a : A) (w w' : W) : Prop :=
  forall F, I w -> I w' -> d ##ₘ F -> J (d ∪ F) w ->
    exists d', d' ##ₘ F /\ J (d' ∪ F) w' /\ M d w d' w' /\ Q a d'.

Lemma own_atomic live {A} (op : W -> A * W) Q d :
  (forall w, passes Q d (fst (op w)) w (snd (op w))) -> own live (atomic op) Q d.
Proof.
  intros Hop. split.
  - intros _. exists 0. intros F w _ _ _ _ _. exists O. by eexists.
  - intros F w [|c] w' Hi Hi' Hd Hj Hf; simplify_eq. by apply Hop.
Qed.

Lemma own_attempt live {A} (op : W -> outcome (A * W)) (Q : A -> rights -> Prop) d :
  (forall w, match op w with
             | Val (a, w') => passes Q d a w w'
             | Panic => passes (fun (_ : unit) => calm) d () w w
             end) ->
  own live (attempt op) Q d.
Proof.
  intros Hop. split.
  - intros _. exists 0. intros F w _ _ _ _ _. exists O. simpl. destruct (op w) as [[a w']|]; by eexists.
  - intros F w [|c] w' Hi Hi' Hd Hj Hf; [|done]. specialize (Hop w). simpl in *.
    destruct (op w) as [[a w1]|]; simplify_eq; [by apply Hop|].
    destruct (Hop F Hi Hi' Hd Hj) as (d' & ? & ? & ? & ?). by exists d'.
Qed.

Lemma own_select live {A} (cases : list (W -> option (A * W))) (Q : A -> rights -> Prop) d :
  (live = true \/ must d -> exists t, forall F w, I w -> d ##ₘ F -> J (d ∪ F) w -> open d w ->
     t <= clk w -> Exists (fun ready => is_Some (ready w)) cases) ->
  Forall (fun ready => forall w, match ready w with
                                 | Some (a, w') => passes Q d a w w'
                                 | None => True
                                 end) cases ->
  own live (select cases) Q d.
Proof.
  intros Hp Hc. split.
  - intros Hm. destruct (Hp Hm) as [t Ht]. exists t. intros F w Hi Hd Hj Hop Hclk.
    specialize (Ht F w Hi Hd Hj Hop Hclk). apply Exists_exists in Ht as (ready & Hin & [[a w'] Hr]).
    apply list_elem_of_lookup in Hin as [i Hl]. exists i. rewrite Hl, Hr. by eexists.
  - intros F w c w' Hi Hi' Hd Hj Hf. destruct (cases !! c) as [ready|] eqn:Hl; [|done].
    destruct (ready w) as [[a w1]|] eqn:Hr; simplify_eq.
    pose proof (Forall_lookup_1 _ _ _ _ Hc Hl w) as Hp'. rewrite Hr in Hp'. by apply Hp'.
Qed.

Lemma own_deref live {A} (x : option A) (Q : A -> rights -> Prop) d :
  match x with Some a => Q a d | None => calm d end -> own live (deref x) Q d.
Proof. by destruct x. Qed.

Lemma own_lift live {A} (x : outcome A) (Q : A -> rights -> Prop) d :
  match x with Val a => Q a d | Panic => calm d end -> own live (lift x) Q d.
Proof. by destruct x. Qed.

(** ** The whole pool *)

Context (final : rights -> Prop).

(** [ds] are the rights of the goroutines, in order; those in [live] always can go on. *)
Record owned (live : nat -> bool) (ds : list rights) (D : rights) (s : pool) : Prop := {
  owned_inv : I s.2;
  owned_len : length ds = length s.1;
  owned_own i p d : s.1 !! i = Some p -> ds !! i = Some d -> own (live i) p (fun _ => final) d;
  owned_splits : splits ds D;
  owned_all : J D s.2;
}.

Lemma owned_weaken live ds D s : owned live ds D s -> owned (fun _ => false) ds D s.
Proof.
  intros [Hi Hlen Hown Hsp HJ]. split; [done..| |done|done]. intros i p d Hp Hd.
  specialize (Hown i p d Hp Hd). destruct (live i); [by apply own_weaken|done].
Qed.

Context (env : W -> W -> Prop) (fork : W -> list (prog W unit) * W) (given : W -> list rights).
Context (Henv : forall D w w', I w -> env w w' -> J D w -> J D w').
Context (Hfork : forall D w, I w -> J D w -> exists D',
  splits (given w) D' /\ D ##ₘ D' /\ J (D ∪ D') (snd (fork w)) /\
  Forall2 (fun p d => own false p (fun _ => final) d) (fst (fork w)) (given w)).

(** A step changes the rights of the goroutine that takes it, and gives the new ones theirs. *)
Lemma owned_step live ds D l s s' :
  owned live ds D s -> pool_step env fork l s s' -> I s'.2 ->
  (forall i, (length s.1 <= i)%nat -> live i = false) ->
  exists ds' D', owned live ds' D' s' /\
    match l with
    | byEnv => ds' = ds /\ D' = D
    | byFork => ds' = ds ++ given s.2 /\ exists D2, splits (given s.2) D2 /\ D ##ₘ D2 /\ D' = D ∪ D2
    | byRun i _ => exists d d' F, ds !! i = Some d /\ ds' = <[i := d']> ds /\
        d ##ₘ F /\ d' ##ₘ F /\ D = d ∪ F /\ D' = d' ∪ F /\ M d s.2 d' s'.2
    end.
Proof.
  intros [Hi Hlen Hown Hsp HJ] Hs Hi' Hlive.
  destruct Hs as [ts w w' He|ts w|ts i f k c w w' Hl Hf]; simpl in *.
  - exists ds, D. split; [|done]. split; [done|done|exact Hown|done|]. by apply (Henv D w).
  - destruct (Hfork D w Hi HJ) as (D2 & Hsp2 & Hdis & HJ2 & Hnew). exists (ds ++ given w), (D ∪ D2).
    split; [|split; [done|by exists D2]]. split; simpl.
    + done.
    + rewrite !length_app, Hlen. by rewrite (Forall2_length _ _ _ Hnew).
    + intros i p d Hp Hd. destruct (decide (i < length ts)%nat) as [Hlt|Hge].
      * rewrite lookup_app_l in Hp by done. rewrite lookup_app_l in Hd by lia. by eapply Hown.
      * rewrite lookup_app_r in Hp by lia. rewrite lookup_app_r in Hd by lia. rewrite Hlive by lia.
        rewrite Hlen in Hd. by apply (Forall2_lookup_lr _ _ _ _ _ _ Hnew Hp Hd).
    + by apply splits_app.
    + done.
  - assert (Hlt : (i < length ds)%nat) by (rewrite Hlen; by eapply lookup_lt_Some).
    apply lookup_lt_is_Some in Hlt as [d Hd]. destruct (splits_at _ _ _ _ Hsp Hd) as (F & HF & -> & Hins).
    pose proof (Hown i _ d Hl Hd) as [_ Hstep].
    destruct (Hstep F w c w' Hi Hi' HF HJ Hf) as (d' & HF' & HJ' & HM & Hk).
    exists (<[i := d']> ds), (d' ∪ F). split; [|by exists d, d', F]. split; simpl; [done| | |auto|done].
    + by rewrite !length_insert.
    + intros j p dj Hp Hdj. destruct (decide (i = j)) as [<-|Hne].
      * rewrite list_lookup_insert_eq in Hp by (by eapply lookup_lt_Some).
        rewrite list_lookup_insert_eq in Hdj by (by eapply lookup_lt_Some). by simplify_eq.
      * rewrite list_lookup_insert_ne in Hp by done. rewrite list_lookup_insert_ne in Hdj by done.
        by eapply Hown.
Qed.
End Own.

(** What has to be waited for matters only to those that may not wait. *)
Section Open.
Context {W K V : Type} `{Countable K}.
Context (clk : W -> Z) (I : W -> Prop) (J : gmap K V -> W -> Prop).
Context (M : gmap K V -> W -> gmap K V -> W -> Prop) (open open' : gmap K V -> W -> Prop).
Context (must calm final : gmap K V -> Prop).
Context (Hopen : forall d w, must d -> open' d w -> open d w).

Lemma own_open {A} (p : prog W A) Q d :
  own clk I J M open must calm false p Q d -> own clk I J M open' must calm false p Q d.
Proof.
  revert d. induction p as [a| |f p IH]; intros d; simpl; [done..|]. intros [Hp Hs]. split.
  - intros [|Hm]; [done|]. destruct (Hp (or_intror Hm)) as [t Ht]. exists t. intros F w Hi Hd Hj Ho.
    by apply (Ht F); auto.
  - intros F w c w' Hi Hi' Hd Hj Hf. destruct (Hs F w c w' Hi Hi' Hd Hj Hf) as (d' & ? & ? & ? & Hk).
    exists d'. split_and!; auto.
Qed.

Lemma owned_open ds D s :
  owned clk I J M open must calm final (fun _ => false) ds D s ->
  owned clk I J M open' must calm final (fun _ => false) ds D s.
Proof.
  intros [Hi Hlen Hown Hsp HJ]. split; try done. intros i p d Hp Hd. by eapply own_open, Hown.
Qed.
End Open.
