(* ===== verification/World.v ===== *)
(** * World: everything the goroutines share

    The package-level variables of [config], [types], [udp] and the process around them: the
    clock, the resolver, the socket, the goroutines started. A critical section is one operation
    on it, but for the one that takes other locks inside it: it holds [upfAddrMutex] from one step
    to another, together with a note of the addresses that its holder has taken off the table and
    is still to release -- what the holder knows and no code reads. What a function value does is
    looked up by its name when it is called (see [TxLife.v]), and so is what a goroutine runs. *)

From Stdlib Require Import Strings.Byte Strings.String.
From S2P Require Import Prelude Logger GoNet NodeId Relay UpfAddrs SmfAddr UpfTxns UpfTable Pfcp Consumers.
From S2P Require Import Goroutine.

#[local] Open Scope string_scope.
#[local] Open Scope list_scope.
#[local] Open Scope Z_scope.

(** ** Data *)

(** The functions used as [PfcpEventData.ErrHandler]: the one of requests sent for the SMF, the
    closure of a relayed report, and the one of a response. *)
Inductive ErrHandlerFn :=
| HandlePfcpSendErrorFn
| relayUnansweredFn (seid : Z)
| reportResponseFn.

#[export] Instance ErrHandlerFn_eq_dec : EqDecision ErrHandlerFn.
Proof. solve_decision. Defined.

(** [config.PfcpHttpRsp]. *)
Record PfcpHttpRsp := mkHttpRsp { Rsp : slice; Err : option error }.

(** [config.UdpPodPfcpMsg], of which the connection's [Addr] is not used. *)
Record UdpPodPfcpMsg := mkPodMsg { SmfIp : string; Body : list byte; UpNodeID : NodeID }.

(** The start and stop of the process: the logger's level, what [main] and the two [serve]
    functions share, the HTTP server, the ticker of the resolver. *)
Record Proc := mkProc {
  logLevel : Z;              (* [logger.atomicLevel] *)
  serverStartTime : Time;    (* [udp.ServerStartTime] *)
  cancelled : bool;          (* the context of [main] is done: a signal came *)
  loopDone : bool;           (* [loopDone] of [udp.serve] is closed *)
  pfcpDone : bool;           (* [pfcpDone] of [main] is closed *)
  serving : bool;            (* the HTTP server listens *)
  listenErr : option error;  (* its listener has failed *)
  stopping : bool;           (* [Shutdown] has been called *)
  inflight : nat;            (* requests whose handler has not returned *)
  serveErr : option error;   (* what is buffered in [serveErr] *)
  ticked : bool;             (* a tick is waiting in [ticker.C] *)
  exited : bool;             (* [main] has returned *)
}.

Definition set_logLevel (x : Z) (p : Proc) : Proc :=
  mkProc x (serverStartTime p) (cancelled p) (loopDone p) (pfcpDone p) (serving p) (listenErr p)
         (stopping p) (inflight p) (serveErr p) (ticked p) (exited p).
Definition set_serverStartTime (x : Time) (p : Proc) : Proc :=
  mkProc (logLevel p) x (cancelled p) (loopDone p) (pfcpDone p) (serving p) (listenErr p)
         (stopping p) (inflight p) (serveErr p) (ticked p) (exited p).
Definition set_cancelled (x : bool) (p : Proc) : Proc :=
  mkProc (logLevel p) (serverStartTime p) x (loopDone p) (pfcpDone p) (serving p) (listenErr p)
         (stopping p) (inflight p) (serveErr p) (ticked p) (exited p).
Definition set_loopDone (x : bool) (p : Proc) : Proc :=
  mkProc (logLevel p) (serverStartTime p) (cancelled p) x (pfcpDone p) (serving p) (listenErr p)
         (stopping p) (inflight p) (serveErr p) (ticked p) (exited p).
Definition set_pfcpDone (x : bool) (p : Proc) : Proc :=
  mkProc (logLevel p) (serverStartTime p) (cancelled p) (loopDone p) x (serving p) (listenErr p)
         (stopping p) (inflight p) (serveErr p) (ticked p) (exited p).
Definition set_serving (x : bool) (p : Proc) : Proc :=
  mkProc (logLevel p) (serverStartTime p) (cancelled p) (loopDone p) (pfcpDone p) x (listenErr p)
         (stopping p) (inflight p) (serveErr p) (ticked p) (exited p).
Definition set_listenErr (x : option error) (p : Proc) : Proc :=
  mkProc (logLevel p) (serverStartTime p) (cancelled p) (loopDone p) (pfcpDone p) (serving p) x
         (stopping p) (inflight p) (serveErr p) (ticked p) (exited p).
Definition set_stopping (x : bool) (p : Proc) : Proc :=
  mkProc (logLevel p) (serverStartTime p) (cancelled p) (loopDone p) (pfcpDone p) (serving p)
         (listenErr p) x (inflight p) (serveErr p) (ticked p) (exited p).
Definition set_inflight (x : nat) (p : Proc) : Proc :=
  mkProc (logLevel p) (serverStartTime p) (cancelled p) (loopDone p) (pfcpDone p) (serving p)
         (listenErr p) (stopping p) x (serveErr p) (ticked p) (exited p).
Definition set_serveErr (x : option error) (p : Proc) : Proc :=
  mkProc (logLevel p) (serverStartTime p) (cancelled p) (loopDone p) (pfcpDone p) (serving p)
         (listenErr p) (stopping p) (inflight p) x (ticked p) (exited p).
Definition set_ticked (x : bool) (p : Proc) : Proc :=
  mkProc (logLevel p) (serverStartTime p) (cancelled p) (loopDone p) (pfcpDone p) (serving p)
         (listenErr p) (stopping p) (inflight p) (serveErr p) x (exited p).
Definition set_exited (x : bool) (p : Proc) : Proc :=
  mkProc (logLevel p) (serverStartTime p) (cancelled p) (loopDone p) (pfcpDone p) (serving p)
         (listenErr p) (stopping p) (inflight p) (serveErr p) (ticked p) x.

(** Before [main] runs. *)
Definition initProc : Proc :=
  mkProc InfoLevel 0 false false false false None false 0 None false false.

Section World.
Context `{L : PfcpLib}.

(** What [go] starts, here and in [net/http]. An endless loop hands over to its next round. *)
Inductive goroutine :=
| goTxLifeCycle (tx : nat)                          (* the life of a transaction *)
| goDispatch (msg : Message) (remoteAddr : UDPAddr) (* the dispatch of a message *)
| goHandler (remoteAddr : string) (readFailed : bool) (body : option UdpPodPfcpMsg)
    (* an HTTP request: from where, whether its body could not be read, what it decodes to *)
| goRun                                             (* [udp.Run] *)
| goReadLoop                                        (* a round of the loop that reads PFCP *)
| goListen                                          (* the HTTP server *)
| goRefreshLoop.                                    (* a round of the loop that refreshes names *)

Record World := mkWorld {
  clock : Time;                                   (* what [time.Now()] reads *)
  relays : Relays;                                (* the relay table *)
  upfAddrsOf : UpfAddrs;                          (* the user planes addressed *)
  upfAddrMutex : option (list string);            (* their lock, when it is held for writing *)
  smfAddr : slice;                                (* where the SMF is *)
  txns : gmap Z (option nat);                     (* [UpfTxns] *)
  chans : gmap nat PfcpHttpRsp;                   (* what is buffered in each channel *)
  nextChan : nat;                                 (* the next channel made *)
  upfs : gmap string (UPNode Message Message);    (* [UpfCfg.UPFs] *)
  dnsHostIpCache : gmap string slice;             (* resolved host names *)
  dns : string -> option (list string);           (* what the resolver answers now *)
  udp : Udp ErrHandlerFn;                         (* the socket and its transactions *)
  spawned : list goroutine;                       (* goroutines started and not yet running *)
  inbox : list (list byte * UDPAddr);             (* datagrams waiting to be read *)
  closed : bool;                                  (* the socket has been closed *)
  wire : list (UDPAddr * list byte);              (* what has been written to it, newest first *)
  proc : Proc;                                    (* its start and stop *)
}.

Definition set_clock (x : Time) (w : World) : World :=
  mkWorld x (relays w) (upfAddrsOf w) (upfAddrMutex w) (smfAddr w) (txns w) (chans w)
          (nextChan w) (upfs w) (dnsHostIpCache w) (dns w) (udp w) (spawned w) (inbox w)
          (closed w) (wire w) (proc w).
Definition set_relays (x : Relays) (w : World) : World :=
  mkWorld (clock w) x (upfAddrsOf w) (upfAddrMutex w) (smfAddr w) (txns w) (chans w)
          (nextChan w) (upfs w) (dnsHostIpCache w) (dns w) (udp w) (spawned w) (inbox w)
          (closed w) (wire w) (proc w).
Definition set_upfAddrsOf (x : UpfAddrs) (w : World) : World :=
  mkWorld (clock w) (relays w) x (upfAddrMutex w) (smfAddr w) (txns w) (chans w) (nextChan w)
          (upfs w) (dnsHostIpCache w) (dns w) (udp w) (spawned w) (inbox w) (closed w) (wire w)
          (proc w).
Definition set_upfAddrMutex (x : option (list string)) (w : World) : World :=
  mkWorld (clock w) (relays w) (upfAddrsOf w) x (smfAddr w) (txns w) (chans w) (nextChan w)
          (upfs w) (dnsHostIpCache w) (dns w) (udp w) (spawned w) (inbox w) (closed w) (wire w)
          (proc w).
Definition set_smfAddr (x : slice) (w : World) : World :=
  mkWorld (clock w) (relays w) (upfAddrsOf w) (upfAddrMutex w) x (txns w) (chans w) (nextChan w)
          (upfs w) (dnsHostIpCache w) (dns w) (udp w) (spawned w) (inbox w) (closed w) (wire w)
          (proc w).
Definition set_txns (x : gmap Z (option nat)) (w : World) : World :=
  mkWorld (clock w) (relays w) (upfAddrsOf w) (upfAddrMutex w) (smfAddr w) x (chans w)
          (nextChan w) (upfs w) (dnsHostIpCache w) (dns w) (udp w) (spawned w) (inbox w)
          (closed w) (wire w) (proc w).
Definition set_chans (x : gmap nat PfcpHttpRsp) (w : World) : World :=
  mkWorld (clock w) (relays w) (upfAddrsOf w) (upfAddrMutex w) (smfAddr w) (txns w) x
          (nextChan w) (upfs w) (dnsHostIpCache w) (dns w) (udp w) (spawned w) (inbox w)
          (closed w) (wire w) (proc w).
Definition set_nextChan (x : nat) (w : World) : World :=
  mkWorld (clock w) (relays w) (upfAddrsOf w) (upfAddrMutex w) (smfAddr w) (txns w) (chans w) x
          (upfs w) (dnsHostIpCache w) (dns w) (udp w) (spawned w) (inbox w) (closed w) (wire w)
          (proc w).
Definition set_upfs (x : gmap string (UPNode Message Message)) (w : World) : World :=
  mkWorld (clock w) (relays w) (upfAddrsOf w) (upfAddrMutex w) (smfAddr w) (txns w) (chans w)
          (nextChan w) x (dnsHostIpCache w) (dns w) (udp w) (spawned w) (inbox w) (closed w)
          (wire w) (proc w).
Definition set_dnsHostIpCache (x : gmap string slice) (w : World) : World :=
  mkWorld (clock w) (relays w) (upfAddrsOf w) (upfAddrMutex w) (smfAddr w) (txns w) (chans w)
          (nextChan w) (upfs w) x (dns w) (udp w) (spawned w) (inbox w) (closed w) (wire w)
          (proc w).
Definition set_udp (x : Udp ErrHandlerFn) (w : World) : World :=
  mkWorld (clock w) (relays w) (upfAddrsOf w) (upfAddrMutex w) (smfAddr w) (txns w) (chans w)
          (nextChan w) (upfs w) (dnsHostIpCache w) (dns w) x (spawned w) (inbox w) (closed w)
          (wire w) (proc w).
Definition set_spawned (x : list goroutine) (w : World) : World :=
  mkWorld (clock w) (relays w) (upfAddrsOf w) (upfAddrMutex w) (smfAddr w) (txns w) (chans w)
          (nextChan w) (upfs w) (dnsHostIpCache w) (dns w) (udp w) x (inbox w) (closed w)
          (wire w) (proc w).
Definition set_inbox (x : list (list byte * UDPAddr)) (w : World) : World :=
  mkWorld (clock w) (relays w) (upfAddrsOf w) (upfAddrMutex w) (smfAddr w) (txns w) (chans w)
          (nextChan w) (upfs w) (dnsHostIpCache w) (dns w) (udp w) (spawned w) x (closed w)
          (wire w) (proc w).
Definition set_closed (x : bool) (w : World) : World :=
  mkWorld (clock w) (relays w) (upfAddrsOf w) (upfAddrMutex w) (smfAddr w) (txns w) (chans w)
          (nextChan w) (upfs w) (dnsHostIpCache w) (dns w) (udp w) (spawned w) (inbox w) x
          (wire w) (proc w).
Definition set_wire (x : list (UDPAddr * list byte)) (w : World) : World :=
  mkWorld (clock w) (relays w) (upfAddrsOf w) (upfAddrMutex w) (smfAddr w) (txns w) (chans w)
          (nextChan w) (upfs w) (dnsHostIpCache w) (dns w) (udp w) (spawned w) (inbox w)
          (closed w) x (proc w).
Definition set_dns (x : string -> option (list string)) (w : World) : World :=
  mkWorld (clock w) (relays w) (upfAddrsOf w) (upfAddrMutex w) (smfAddr w) (txns w) (chans w)
          (nextChan w) (upfs w) (dnsHostIpCache w) x (udp w) (spawned w) (inbox w) (closed w)
          (wire w) (proc w).
Definition set_proc (x : Proc) (w : World) : World :=
  mkWorld (clock w) (relays w) (upfAddrsOf w) (upfAddrMutex w) (smfAddr w) (txns w) (chans w)
          (nextChan w) (upfs w) (dnsHostIpCache w) (dns w) (udp w) (spawned w) (inbox w)
          (closed w) (wire w) x.

(** The state [main] is called in: the package variables are initialised, and the goroutine that
    refreshes names has been started by an [init]. *)
Definition bootWorld (now : Time) (resolver : string -> option (list string)) : World :=
  mkWorld now initRelays initUpfAddrs None None ∅ ∅ 0 ∅ ∅ resolver initUdp [goRefreshLoop] []
          false [] initProc.

(** The state of a process that has just opened its socket, for looking at goroutines alone. *)
Definition initWorld (now : Time) (resolver : string -> option (list string)) (srv : PfcpServer)
    : World :=
  mkWorld now initRelays initUpfAddrs None None ∅ ∅ 0 ∅ ∅ resolver
          (mkUdp (Some srv) ∅ ∅ ∅ ∅ 0 0) [] [] false [] initProc.

Definition on_relays {A} (op : Relays -> A * Relays) (w : World) : A * World :=
  let '(a, r) := op (relays w) in (a, set_relays r w).

Definition on_udp {A} (op : Udp ErrHandlerFn -> A * Udp ErrHandlerFn) (w : World) : A * World :=
  let '(a, u) := op (udp w) in (a, set_udp u w).

Definition on_txns {A} (op : gmap Z (option nat) -> A * gmap Z (option nat)) (w : World)
    : A * World :=
  let '(a, t) := op (txns w) in (a, set_txns t w).

(** Resolving reads and writes the cache of host names. *)
Definition resolve (n : NodeID) (w : World) : outcome (slice * World) :=
  match ResolveNodeIdToIp (dns w) n (dnsHostIpCache w) with
  | Val (ip, cache) => Val (ip, set_dnsHostIpCache cache w)
  | Panic => Panic
  end.

(** Changing the state of the process. *)
Definition onProc (f : Proc -> Proc) : prog World unit := modify (fun w => set_proc (f (proc w)) w).

(** [<-done] on a channel that is only ever closed. *)
Definition waitDone (done : Proc -> bool) : prog World unit :=
  wait (fun w => if done (proc w) then Some ((), w) else None).

(** [time.Now()]. *)
Definition now : prog World Time := read clock.

(** [make(config.PfcpTxnChan, 1)]. *)
Definition makeChan (w : World) : nat * World := (nextChan w, set_nextChan (S (nextChan w)) w).

(** [ch <- rsp] on a channel with room for one, which waits while it is full. *)
Definition sendChan (ch : nat) (rsp : PfcpHttpRsp) : prog World unit :=
  wait (fun w => match chans w !! ch with
                 | None => Some ((), set_chans (<[ch := rsp]> (chans w)) w)
                 | Some _ => None
                 end).

(** [<-ch], which waits while it is empty. *)
Definition recvChan (ch : nat) : prog World PfcpHttpRsp :=
  wait (fun w => match chans w !! ch with
                 | Some rsp => Some (rsp, set_chans (delete ch (chans w)) w)
                 | None => None
                 end).

(** [go f()]. *)
Definition go (g : goroutine) : prog World unit :=
  modify (fun w => set_spawned (spawned w ++ [g]) w).
End World.
Arguments World L : clear implicits.
Arguments goroutine L : clear implicits.

(** ** What a release drops *)

(** Before a hook is registered: the relay table drops the reports of the address. *)
Definition unhooked `{L : PfcpLib, !MapRange string, !MapRange Z} : Peers (World L) := {|
  dropRelays a w := set_relays (ForgetRelaysForHost a (clock w) (relays w)) w;
  upfAddrReleased := None;
|}.

(** [init] of [udp.go] registers what drops the transaction tables of the peer. *)
Definition registerHook `{L : PfcpLib, !MapRange string} : Peers (World L) -> Peers (World L) :=
  OnUpfAddrReleased (fun ip w => set_udp (ForgetConsumer ip (udp w)) w).

#[export] Instance world_peers `{L : PfcpLib, !MapRange string, !MapRange Z} : Peers (World L) :=
  registerHook unhooked.

(** *** The user planes addressed, under their lock *)

Section Addresses.
Context `{L : PfcpLib, !MapRange string, !MapRange Z}.

(** [upfAddrMutex.Lock()], and what is done with the two maps while it is held, to which nobody
    else has access until it is unlocked: they are changed, and what this releases is left to do. *)
Definition lockAndRecord (now : Time) (ip : slice) (node : string)
    : prog (World L) (list string) :=
  wait (fun w => match upfAddrMutex w with
                 | Some _ => None
                 | None =>
                     let '(u, released) :=
                       recordUpfAddrLocked (Peers0 := listed) now ip node (upfAddrsOf w, []) in
                     Some (released, set_upfAddrMutex (Some released) (set_upfAddrsOf u w))
                 end).

(** The calls [forgetUpfAddrLocked] makes for an address that nobody is at any more: each takes the
    lock of the component that it is about. *)
Fixpoint releaseEach (released : list string) : prog (World L) unit :=
  match released with
  | [] => Ret ()
  | a :: released =>
      (modify (fun w => set_upfAddrMutex (Some released) (dropRelays a w)) ;;;
       match upfAddrReleased with
       | Some hook => modify (hook a)
       | None => Ret ()
       end ;;;
       releaseEach released)%go
  end.

(** [upfAddrMutex.Unlock()]. *)
Definition unlockUpfAddrs : prog (World L) unit := modify (set_upfAddrMutex None).

(** [config.RecordUpfAddr]: the time is read, then the name resolved, then recorded. *)
Definition recordUpfAddr (n : NodeID) : prog (World L) unit :=
  (let! t := now in
   let! ip := attempt (resolve n) in
   let! released := lockAndRecord t ip (nodeKey n) in
   releaseEach released ;;;
   unlockUpfAddrs)%go.

(** [config.IsKnownUpfAddr], under [upfAddrMutex.RLock()]: readers keep writers out while they
    look, which is one step. *)
Definition isKnownUpfAddr (ip : slice) : prog (World L) bool :=
  if decide (ip = None) then Ret false
  else wait (fun w => match upfAddrMutex w with
                      | Some _ => None
                      | None => Some (IsKnownUpfAddr (clock w) ip (upfAddrsOf w), w)
                      end).
End Addresses.

(** One release, with the hook that [udp.go] registers. *)
Ltac unfold_release :=
  cbn [releaseEach upfAddrReleased world_peers registerHook OnUpfAddrReleased unhooked].
