(* ===== verification/Udp.v ===== *)
(** * Udp: sending, receiving and the life of a transaction ([pfcp/udp/])

    [Transaction.Start] of [transaction.go], and of [udp.go] [SendPfcp], [findTransaction],
    [readPfcpMessage], [readLoop], [removeTransaction], [serve] and [Run], step by step: a lookup in
    a [sync.Map] is one step, and what was found may be gone at the next. *)

From Stdlib Require Import Strings.Byte Strings.String.
From S2P Require Import Prelude GoNet NodeId Pfcp Consumers Goroutine World.

#[local] Open Scope string_scope.
#[local] Open Scope list_scope.
#[local] Open Scope Z_scope.
#[local] Open Scope go_scope.

Definition PFCP_MAX_UDP_LEN : nat := 2048.

Section Udp.
Context `{L : PfcpLib}.

Abbreviation prog := (prog (World L)).

(** ** [Transaction.Start] *)

(** [time.NewTimer(d)] and [timer.Reset(d)]: the instant it fires at. *)
Definition newTimer (d : Duration) : prog Time := read (fun w => clock w + d).

(** [WriteToUDP]: the datagram is written, or the call fails. *)
Definition writeToUDP (b : list byte) (addr : UDPAddr) : prog (option error) :=
  select [(fun w => Some (None, set_wire ((addr, b) :: wire w) w));
          (fun w => Some (Some errWrite, w))].

(** [select { case event := <-EventChannel: case <-timer.C: }]: [None] is the timer. *)
Definition waitEvent (ptr : nat) (timer : Time) : prog (option EventType) :=
  select [(fun w => match takeEvent ptr (udp w) with
                    | Some (e, u) => Some (Some e, set_udp u w)
                    | None => None
                    end);
          (fun w => if timer <=? clock w then Some (None, w) else None)].

Fixpoint startRequest (iter : nat) (ptr : nat) (tx : Transaction ErrHandlerFn)
    : prog (option error) :=
  match iter with
  | O => Ret (Some (errRequestTimeout (SequenceNumber tx)))
  | S iter =>
      let! timer := newTimer (ResendRequestTimeOutPeriod * Second) in
      let! err := writeToUDP (SendMsg tx) (DestAddr tx) in
      match err with
      | Some e => Ret (Some e)
      | None =>
          let! event := waitEvent ptr timer in
          match event with
          | Some ReceiveValidResponse => Ret None
          | _ => startRequest iter ptr tx
          end
      end
  end.

Fixpoint startResponse (iter : nat) (timer : Time) (ptr : nat) (tx : Transaction ErrHandlerFn)
    : prog (option error) :=
  match iter with
  | O => Ret None
  | S iter =>
      let! err := writeToUDP (SendMsg tx) (DestAddr tx) in
      match err with
      | Some e => Ret (Some e)
      | None =>
          let! event := waitEvent ptr timer in
          match event with
          | Some ReceiveResendRequest =>
              let! timer := newTimer (ResendResponseTimeOutPeriod * Second) in
              startResponse iter timer ptr tx
          | Some ReceiveValidResponse => startResponse iter timer ptr tx
          | None => Ret (Some (errResponseTimeout (SequenceNumber tx)))
          end
      end
  end.

Definition Start (ptr : nat) (tx : Transaction ErrHandlerFn) : prog (option error) :=
  match TxType tx with
  | SendingRequest => startRequest NumOfResend ptr tx
  | SendingResponse =>
      let! timer := newTimer (ResendResponseTimeOutPeriod * Second) in
      startResponse NumOfResend timer ptr tx
  end.

(** ** Removing *)

Definition server : prog (option PfcpServer) := read (fun w => Server (udp w)).
Definition loadConsumer (c : string) : prog (option nat) :=
  read (fun w => ConsumerTable.Load c (udp w)).
Definition loadTx (t : option nat) (s : Z) : prog (option nat) :=
  read (fun w => TxTable.Load t s (udp w)).

Definition removeTransaction (ptr : nat) (tx : Transaction ErrHandlerFn) : prog (option error) :=
  let! srv := server in
  match srv with
  | None => Ret (Some errNotInitialized)
  | Some _ =>
      let! txTable := loadConsumer (ConsumerAddr tx) in
      let! deleted := atomic (on_udp (TxTable.DeleteIf txTable (SequenceNumber tx) ptr)) in
      if deleted : bool then Ret None else Ret (Some (errNotHeld (SequenceNumber tx)))
  end.

(** ** [SendPfcp] *)

(** [PutTransaction] on the tables of [Server]. *)
Definition putTransaction (ptr : nat) (tx : Transaction ErrHandlerFn) : prog (option error) :=
  attempt (fun w => match Server (udp w) with
                    | None => Panic
                    | Some _ => Val (on_udp (PutTransaction ptr tx) w)
                    end).

(** The two operations after the message is encoded, with the transaction made. *)
Definition registerAndStart (ptr : nat) (tx : Transaction ErrHandlerFn) : prog (option error) :=
  let! err := putTransaction ptr tx in
  match err with
  | Some e => Ret (Some e)
  | None => go (goTxLifeCycle ptr) ;;; Ret None
  end.

Definition SendPfcp (msg : Message) (addr : UDPAddr)
    (eventData : option (PfcpEventData ErrHandlerFn)) : prog (option error) :=
  let! srv := server in
  match srv with
  | None => Ret (Some errNotInitialized)
  | Some srv =>
      match ServerConn srv with
      | None => Ret (Some errNotListening)
      | Some conn =>
          match Marshal msg with
          | Prelude.Err e => Ret (Some (errText e))
          | Ok buf =>
              let tx := NewTransaction msg buf conn addr eventData in
              let! ptr := atomic (on_udp (allocTx tx)) in
              registerAndStart ptr tx
          end
      end
  end.

(** ** Receiving *)

(** Both branches look twice at each table: once to see whether an entry exists, once for it. *)
Definition findTransaction (msg : Message) (addr : UDPAddr) : prog (result error (option nat)) :=
  let consumerAddr := UDPAddr_String addr in
  let! srv := server in
  match srv with
  | None => Ret (Prelude.Err errNotInitialized)
  | Some _ =>
      if IsResponse msg then
        let! present := loadConsumer consumerAddr in
        match present with
        | None => Ret (Prelude.Err errTableNotFound)
        | Some _ =>
            let! txTable := loadConsumer consumerAddr in
            let! present := loadTx txTable (Sequence msg) in
            match present with
            | None => Ret (Prelude.Err (errSequenceNotFound (Sequence msg)))
            | Some _ => let! tx := loadTx txTable (Sequence msg) in Ret (Ok tx)
            end
        end
      else if IsRequest msg then
        let! present := loadConsumer consumerAddr in
        match present with
        | None => Ret (Ok None)
        | Some _ =>
            let! txTable := loadConsumer consumerAddr in
            let! present := loadTx txTable (Sequence msg) in
            match present with
            | None => Ret (Ok None)
            | Some _ => let! tx := loadTx txTable (Sequence msg) in Ret (Ok tx)
            end
        end
      else Ret (Ok None)
  end.

(** [ReadFromUDP]: a datagram, cut at the size of the buffer, once there is one; or a failure,
    for good once the socket is closed. *)
Definition readFromUDP : prog (result error (list byte * UDPAddr)) :=
  select [(fun w => match inbox w with
                    | (b, addr) :: rest =>
                        if closed w then Some (Prelude.Err ErrClosed, w)
                        else Some (Ok (take PFCP_MAX_UDP_LEN b, addr), set_inbox rest w)
                    | [] => if closed w then Some (Prelude.Err ErrClosed, w) else None
                    end);
          (fun w => if closed w then None else Some (Prelude.Err errRead, w))].

(** What [readPfcpMessage] returns of a message read: [None] is a nil error. *)
Definition deliver (msg : Message) (addr srvAddr : UDPAddr) : prog (option error) :=
  if IsRequest msg then
    let! found := findTransaction msg addr in
    match found with
    | Prelude.Err e => Ret (Some e)
    | Ok (Some tx) =>
        modify (fun w => set_udp (offerEvent tx ReceiveResendRequest (udp w)) w) ;;;
        Ret (Some ErrResendRequest)
    | Ok None => Ret None
    end
  else if IsResponse msg then
    let! found := findTransaction msg srvAddr in
    match found with
    | Prelude.Err e => Ret (Some e)
    | Ok tx =>
        let! tx := deref tx in
        modify (fun w => set_udp (offerEvent tx ReceiveValidResponse (udp w)) w) ;;;
        Ret None
    end
  else Ret None.

Definition readPfcpMessage : prog (result error (Message * UDPAddr)) :=
  let! srv := server in
  match srv with
  | None => Ret (Prelude.Err errNotInitialized)
  | Some srv =>
      match ServerConn srv with
      | None => Ret (Prelude.Err errNotListening)
      | Some _ =>
          let! got := readFromUDP in
          match got with
          | Prelude.Err e => Ret (Prelude.Err e)
          | Ok (b, addr) =>
              match Parse b with
              | Prelude.Err e => Ret (Prelude.Err (errText e))
              | Ok msg =>
                  let! err := deliver msg addr (Addr srv) in
                  match err with
                  | Some e => Ret (Prelude.Err e)
                  | None => Ret (Ok (msg, addr))
                  end
              end
          end
      end
  end.

(** One round of the endless loop; [false] is its end. *)
Definition readRound : prog bool :=
  let! r := readPfcpMessage in
  match r with
  | Prelude.Err e => Ret (negb (bool_decide (e = ErrClosed)))
  | Ok (msg, addr) => go (goDispatch msg addr) ;;; Ret true
  end.

(** The loop as [serve] starts it: when it ends, [loopDone] is closed. *)
Definition readLoop : prog unit :=
  let! more := readRound in
  if more : bool then go goReadLoop else onProc (set_loopDone true).

(** ** [Run] and [serve] *)

(** [CPNodeID], made at start from the adapter's own address. *)
Definition CPNodeID (UpfAdapterIp : slice) : NodeID :=
  mkNodeID UpfAdapterIp NodeIdTypeIpv4Address.

(** Where [Run] listens: the address goes through its text. *)
Definition listenAddr (UpfAdapterIp : slice) : UDPAddr :=
  UDPAddr.mk (ParseIP.ParseIP (IP_String (NodeIdValue (CPNodeID UpfAdapterIp)))) PFCP_PORT "".

(** An error of closing the socket is only logged. *)
Definition serve : prog unit :=
  go goReadLoop ;;;
  waitDone cancelled ;;;
  modify (set_closed true) ;;;
  waitDone loopDone.

(** Assigning [Server]: its consumer table is a new one. *)
Definition setServer (srv : PfcpServer) (u : Udp ErrHandlerFn) : Udp ErrHandlerFn :=
  mkUdp (Some srv) ∅ (tables u) (txs u) (events u) (nextTable u) (nextTx u).

(** [ListenUDP] is what [net.ListenUDP] makes of an address: [None] is a failure. *)
Definition Run (UpfAdapterIp : slice) (ListenUDP : UDPAddr -> option UDPConn) : prog unit :=
  let addr := listenAddr UpfAdapterIp in
  match ListenUDP addr with
  | None => Ret ()
  | Some conn =>
      modify (fun w => set_udp (setServer (mkServer addr (Some conn)) (udp w)) w) ;;;
      let! t := now in
      onProc (set_serverStartTime t) ;;;
      serve
  end.
End Udp.
