(* ===== verification/Handler.v ===== *)
(** * Handler: what the adapter does with the messages it receives ([pfcp/handler/], [pfcp/dispatcher.go])

    One definition per function of [handler.go], then [Dispatch]. A handler works on its own
    message, which no other goroutine holds, and on the shared state one operation at a time. *)

From Stdlib Require Import Strings.Byte Strings.String.
From S2P Require Import Prelude GoNet NodeId Relay UpfAddrs SmfAddr UpfTxns UpfTable Pfcp Consumers.
From S2P Require Import Goroutine World Udp.

#[local] Open Scope list_scope.
#[local] Open Scope Z_scope.
#[local] Open Scope go_scope.

Definition relaySendAttempts : nat := 4.

Section Handlers.
Context `{L : PfcpLib, !MapRange string, !MapRange Z}.

Abbreviation prog := (prog (World L)).

(** ** Operations of [config] as steps *)

Definition getUpfPfcpTxn (seq : Z) : prog (option nat) := atomic (on_txns (GetUpfPfcpTxn seq)).

(** The clock is read inside the critical section. *)
Definition takeReportRelay (relaySeq : Z) : prog (option (UDPAddr * Z)) :=
  atomic (fun w => on_relays (TakeReportRelay relaySeq (clock w)) w).

Definition forgetReportRelay (relaySeq : Z) : prog unit :=
  modify (fun w => set_relays (ForgetReportRelay relaySeq (relays w)) w).

(** The node is found under one lock and marked under another; nodes are never removed. *)
Definition activateUpfNode (n : NodeID) : prog (option string) :=
  let! upf := read (fun w => GetUpfFromNodeId n (upfs w)) in
  match upf with
  | Some k =>
      modify (fun w => set_upfs (alter (setState AssociatedSetUpSuccess) k (upfs w)) w) ;;;
      Ret (Some k)
  | None => Ret None
  end.

(** Stored at once when the lock of the node is free; otherwise it says that it waits, and does. *)
Definition preservePfcpAssociationRsp (upf : option string) (rsp : Message) : prog unit :=
  let! stored :=
    attempt (fun w => match PreservePfcpAssociationRsp upf rsp (upfs w) with
                      | Val (Some t) => Val (true, set_upfs t w)
                      | Val None => Val (false, set_upfs (announceAt upf (upfs w)) w)
                      | Panic => Panic
                      end) in
  if stored : bool then Ret ()
  else
    let! stored :=
      wait (fun w => match PreservePfcpAssociationRsp upf rsp (upfs w) with
                     | Val (Some t) => Some (Val (), set_upfs t w)
                     | Val None => None
                     | Panic => Some (Panic, w)
                     end) in
    lift stored.

(** The stored response is looked at under the lock of the node, which may have to be waited for. *)
Definition lastAssociationRsp (k : string) : prog (option Message) :=
  wait (fun w => match readLastAssoRsp k (upfs w) with
                 | Some (rsp, t) => Some (rsp, set_upfs t w)
                 | None => None
                 end).

(** ** Answers to requests of the SMF *)

Definition sendErrRsp (msg : Message) (err : error) : prog unit :=
  let! pfcpTxnChan := getUpfPfcpTxn (Sequence msg) in
  match pfcpTxnChan with
  | None => Ret ()
  | Some ch => sendChan ch (mkHttpRsp None (Some err))
  end.

(** The five per-message functions it calls do the same. *)
Definition HandlePfcpSendError (msg : Message) (pfcpErr : error) : prog unit :=
  match MessageType msg with
  | AssociationSetupRequest | HeartbeatRequest | SessionEstablishmentRequest
  | SessionModificationRequest | SessionDeletionRequest => sendErrRsp msg pfcpErr
  | _ => Ret ()
  end.

(** The error it returns is only logged; [true] is success. *)
Definition encodeAndSendRsp (msg : Message) : prog bool :=
  match Marshal msg with
  | Prelude.Err _ => Ret false
  | Ok buf =>
      let! pfcpTxnChan := getUpfPfcpTxn (Sequence msg) in
      match pfcpTxnChan with
      | None => Ret false
      | Some ch => sendChan ch (mkHttpRsp (Some buf) None) ;;; Ret true
      end
  end.

(** [msg.(\*message.T)]. *)
Definition isA (t : MsgType) (msg : Message) : bool := bool_decide (dynamicType msg = t).

Definition HandlePfcpAssociationSetupResponse (msg : Message) : prog unit :=
  if negb (isA AssociationSetupResponse msg) then Ret ()
  else
    let! recoveryTimeStamp := lift (RecoveryTimeStamp (field FRecoveryTimeStamp msg)) in
    match recoveryTimeStamp with
    | Prelude.Err _ => Ret ()
    | Ok _ =>
        let! cause := lift (Cause (field FCause msg)) in
        match cause with
        | Prelude.Err _ => Ret ()
        | Ok cause =>
            if decide (cause = CauseRequestAccepted) then
              let! nodeIDstr := lift (NodeIDOf (field FNodeID msg)) in
              match nodeIDstr with
              | Prelude.Err _ => Ret ()
              | Ok nodeIDstr =>
                  let! upf := activateUpfNode (NewNodeID nodeIDstr) in
                  preservePfcpAssociationRsp upf msg ;;;
                  encodeAndSendRsp msg ;;; Ret ()
              end
            else encodeAndSendRsp msg ;;; Ret ()
        end
    end.

Definition HandlePfcpHeartbeatResponse (msg : Message) : prog unit :=
  if negb (isA HeartbeatResponse msg) then Ret ()
  else
    let! recoveryTimestamp := lift (RecoveryTimeStamp (field FRecoveryTimeStamp msg)) in
    match recoveryTimestamp with
    | Prelude.Err _ => Ret ()
    | Ok _ => encodeAndSendRsp msg ;;; Ret ()
    end.

Definition HandlePfcpSessionEstablishmentResponse (msg : Message) : prog unit :=
  if negb (isA SessionEstablishmentResponse msg) then Ret ()
  else encodeAndSendRsp msg ;;; Ret ().

Definition HandlePfcpSessionModificationResponse (msg : Message) : prog unit :=
  if negb (isA SessionModificationResponse msg) then Ret ()
  else encodeAndSendRsp msg ;;; Ret ().

Definition HandlePfcpSessionDeletionResponse (msg : Message) : prog unit :=
  if negb (isA SessionDeletionResponse msg) then Ret ()
  else encodeAndSendRsp msg ;;; Ret ().

(** ** Session reports *)

Definition reportResponseEventData : PfcpEventData ErrHandlerFn :=
  mkEventData (Some reportResponseFn) 0.

Definition rejectSessionReport (seid upfSeq : Z) (upfAddr : UDPAddr) : prog (option error) :=
  let rsp := NewSessionReportResponse 0 0 seid upfSeq 0 (NewCause CauseRequestRejected) in
  SendPfcp rsp upfAddr (Some reportResponseEventData).

Definition refuseAndRelease (seid upfSeq : Z) (upfAddr : UDPAddr) (relaySeq : Z) : prog unit :=
  rejectSessionReport seid upfSeq upfAddr ;;; forgetReportRelay relaySeq.

(** The closure given to the relayed report. *)
Definition relayUnanswered (seid : Z) (sent : Message) : prog unit :=
  let! relay := takeReportRelay (Sequence sent) in
  match relay with
  | Some (addr, seq) => refuseAndRelease seid seq addr (Sequence sent)
  | None => Ret ()
  end.

(** The loop that sends a claimed report, [n] attempts from the end. *)
Fixpoint relayAttempts (n : nat) (report : Message) (smf : UDPAddr) (seid upfSeq : Z)
    (upfAddr : UDPAddr) (relaySeq : Z) : prog unit :=
  match n with
  | O => refuseAndRelease seid upfSeq upfAddr relaySeq
  | S n =>
      let report := SetSequenceNumber relaySeq report in
      let! err := SendPfcp report smf (Some (mkEventData (Some (relayUnansweredFn seid)) 0)) in
      match err with
      | None => Ret ()
      | Some (ErrDuplicateSequence _) =>
          let! renumbered := atomic (on_relays (RenumberReportRelay relaySeq)) in
          match renumbered with
          | Prelude.Err ErrRelayNotHeld => Ret ()
          | Prelude.Err _ => refuseAndRelease seid upfSeq upfAddr relaySeq
          | Ok renumbered => relayAttempts n report smf seid upfSeq upfAddr renumbered
          end
      | Some _ => refuseAndRelease seid upfSeq upfAddr relaySeq
      end
  end.

Definition HandlePfcpSessionReportRequest (msg : Message) (upfAddr : option UDPAddr) : prog unit :=
  if negb (isA SessionReportRequest msg) then Ret ()
  else
    match upfAddr with
    | None => Ret ()
    | Some upfAddr =>
        let! authorisedUnder := read (fun w => RelayGeneration (hostOf upfAddr) (relays w)) in
        let! known := isKnownUpfAddr (UDPAddr.IP upfAddr) in
        if negb known then Ret ()
        else
          let upfSeq := Sequence msg in
          let seid := SEID msg in
          let! smf := read (fun w => SmfAddr (smfAddr w)) in
          match smf with
          | None => rejectSessionReport seid upfSeq upfAddr ;;; Ret ()
          | Some smf =>
              let! t := now in
              let! claim :=
                atomic (on_relays (RelayReportSequence upfAddr upfSeq t authorisedUnder)) in
              match claim with
              | Prelude.Err ErrPeerReleased => Ret ()
              | Prelude.Err ErrRelaySequenceExhausted =>
                  rejectSessionReport seid upfSeq upfAddr ;;; Ret ()
              | Prelude.Err ErrRelayNotHeld => Ret ()
              | Ok (_, false) => Ret ()
              | Ok (relaySeq, true) =>
                  relayAttempts relaySendAttempts msg smf seid upfSeq upfAddr relaySeq
              end
          end
    end.

(** Forgetting is deferred: it runs whether the answer was sent or not. *)
Definition HandlePfcpSessionReportResponse (msg : Message) : prog unit :=
  if negb (isA SessionReportResponse msg) then Ret ()
  else
    let relaySeq := Sequence msg in
    let! relay := takeReportRelay relaySeq in
    match relay with
    | None => Ret ()
    | Some (upfAddr, upfSeq) =>
        let response := SetSequenceNumber upfSeq msg in
        SendPfcp response upfAddr (Some reportResponseEventData) ;;;
        forgetReportRelay relaySeq
    end.

(** ** [BuildPfcpAssociationResponse] *)

(** The stored answer under another number; the header is copied, and there is none to copy
    before an answer has been stored: a panic, with the node's lock left read-locked. *)
Definition BuildPfcpAssociationResponse (n : NodeID) (seqNo : Z)
    : prog (result error Message) :=
  let! upf := read (fun w => GetUpfFromNodeId n (upfs w)) in
  match upf with
  | None => Ret (Prelude.Err (errText "upf not found"))
  | Some k =>
      let! stored := lastAssociationRsp k in
      let! rsp := deref stored in
      Ret (Ok (SetSequenceNumber seqNo rsp))
  end.

(** ** [Dispatch] *)

Definition Dispatch (msg : Message) (remoteAddr : option UDPAddr) : prog unit :=
  match MessageType msg with
  | HeartbeatResponse => HandlePfcpHeartbeatResponse msg
  | AssociationSetupResponse => HandlePfcpAssociationSetupResponse msg
  | SessionEstablishmentResponse => HandlePfcpSessionEstablishmentResponse msg
  | SessionModificationResponse => HandlePfcpSessionModificationResponse msg
  | SessionDeletionResponse => HandlePfcpSessionDeletionResponse msg
  | SessionReportRequest => HandlePfcpSessionReportRequest msg remoteAddr
  | SessionReportResponse => HandlePfcpSessionReportResponse msg
  | _ => Ret ()
  end.

(** ** [startTxLifeCycle] *)

(** Calling a function value by its name. *)
Definition callErrHandler (f : ErrHandlerFn) (msg : Message) (err : error) : prog unit :=
  match f with
  | HandlePfcpSendErrorFn => HandlePfcpSendError msg err
  | relayUnansweredFn seid => relayUnanswered seid msg
  | reportResponseFn => Ret ()
  end.

Definition startTxLifeCycle (ptr : nat) (tx : Transaction ErrHandlerFn) : prog unit :=
  let! sendErr := Start ptr tx in
  removeTransaction ptr tx ;;;
  match sendErr, EventData tx ≫= ErrHandler with
  | Some e, Some errHandler =>
      match Parse (SendMsg tx) with
      | Prelude.Err _ => Ret ()
      | Ok msg => callErrHandler errHandler msg e
      end
  | _, _ => Ret ()
  end.
End Handlers.
