(* ===== verification/Forward.v ===== *)
(** * Forward: requests of the SMF ([pfcp/util.go], [pfcp/message/send.go], [upfadapter.go])

    The HTTP handler takes a PFCP request and the user plane it is for, forwards the one to the
    other, and waits for the answer the PFCP receive path leaves in its channel. *)

From Stdlib Require Import Strings.Byte Strings.String.
From S2P Require Import Prelude GoNet NodeId Relay UpfAddrs SmfAddr UpfTxns UpfTable Pfcp Consumers.
From S2P Require Import Goroutine World Udp Handler.

#[local] Open Scope string_scope.
#[local] Open Scope list_scope.
#[local] Open Scope Z_scope.
#[local] Open Scope go_scope.

(** [config.UpfServerStartTime] is declared and never assigned: it is the zero time. *)
Definition UpfServerStartTime : Time := 0.

(** What a handler does to its [http.ResponseWriter], and the warning about a claimed address. *)
Inductive HttpAct := HttpError500 | HttpWrite (body : slice) | WarnMismatch (claim host : string).

Section Forward.
Context `{L : PfcpLib, !MapRange string, !MapRange Z}.

(** [config.UpfAdapterIp], read from the environment once, before anything runs. *)
Context (UpfAdapterIp : slice).

Abbreviation prog := (prog (World L)).

(** ** [send.go] *)

Definition sendTo (upNodeID : NodeID) (pMsg : Message)
    (eventData : option (PfcpEventData ErrHandlerFn)) : prog (option error) :=
  let! ip := attempt (resolve upNodeID) in
  SendPfcp pMsg (UDPAddr.mk ip PFCP_PORT "") eventData.

Definition withErrHandler : option (PfcpEventData ErrHandlerFn) :=
  Some (mkEventData (Some HandlePfcpSendErrorFn) 0).

Definition SendPfcpAssociationSetupRequest (n : NodeID) (pMsg : Message) := sendTo n pMsg withErrHandler.
Definition SendHeartbeatRequest (n : NodeID) (pMsg : Message) := sendTo n pMsg None.
Definition SendPfcpSessionEstablishmentRequest (n : NodeID) (pMsg : Message) := sendTo n pMsg withErrHandler.
Definition SendPfcpSessionModificationRequest (n : NodeID) (pMsg : Message) := sendTo n pMsg withErrHandler.
Definition SendPfcpSessionDeletionRequest (n : NodeID) (pMsg : Message) := sendTo n pMsg withErrHandler.

(** ** [answerRetention] *)

Definition psrei : Z := 0x01.

(** [flags] is a [uint8]; [&^=] clears bits. *)
Definition answerRetention (rsp req : Message) : outcome Message :=
  let stored :=
    match field FASRspFlags rsp with
    | None => Val 0
    | Some flagsIE =>
        match PFCPASRspFlags flagsIE with
        | Panic => Panic
        | Val (Ok stored) => Val stored
        | Val (Prelude.Err _) => Val 0
        end
    end in
  match stored with
  | Panic => Panic
  | Val flags =>
      let flags := Z.ldiff flags psrei in
      let flags :=
        if isA AssociationSetupRequest req && bool_decide (is_Some (field FRetention req))
        then Z.lor flags psrei else flags in
      Val (setField FASRspFlags (if flags =? 0 then None else Some (NewPFCPASRspFlags flags)) rsp)
  end.

(** ** [ForwardPfcpMsgToUpf] *)

Definition insertUpfNode (n : NodeID) : prog unit :=
  attempt (fun w => match InsertUpfNode (dns w) n (dnsHostIpCache w) (upfs w) with
                    | Val (cache, t) => Val ((), set_upfs t (set_dnsHostIpCache cache w))
                    | Panic => Panic
                    end).

Definition insertUpfPfcpTxn (seq : Z) (ch : option nat) : prog unit :=
  modify (fun w => set_txns (InsertUpfPfcpTxn seq ch (txns w)) w).

Definition forgetUpfPfcpTxn (seq : Z) (ch : option nat) : prog unit :=
  modify (fun w => set_txns (ForgetUpfPfcpTxn seq ch (txns w)) w).

(** The end of every case: register the channel, send, and on failure roll back; [None] falls
    out of the switch. *)
Definition registerAndSend (ch : nat) (req : Message)
    (send : Message -> prog (option error)) : prog (option error) :=
  insertUpfPfcpTxn (Sequence req) (Some ch) ;;;
  let! err := send req in
  match err with
  | Some e => forgetUpfPfcpTxn (Sequence req) (Some ch) ;;; Ret (Some e)
  | None => Ret None
  end.

(** The association already made is answered from the stored response. *)
Definition answerAssociation (pfcpMessage : Message) (upNodeID : NodeID)
    : prog (result error slice) :=
  let! built := BuildPfcpAssociationResponse upNodeID (Sequence pfcpMessage) in
  match built with
  | Prelude.Err e => Ret (Prelude.Err e)
  | Ok rsp =>
      let! rsp := lift (answerRetention rsp pfcpMessage) in
      match Marshal rsp with
      | Prelude.Err e => Ret (Prelude.Err (errText e))
      | Ok buf => Ret (Ok (Some buf))
      end
  end.

Definition adapterNodeID : IE := NewNodeIDIE (IP_String UpfAdapterIp) "" "".

(** [<-pfcpTxnChan], after the switch. *)
Definition awaitAnswer (ch : nat) (err : option error) : prog (result error slice) :=
  match err with
  | Some e => Ret (Prelude.Err e)
  | None =>
      let! pfcpRsp := recvChan ch in
      match Err pfcpRsp with
      | Some e => Ret (Prelude.Err e)
      | None => Ret (Ok (Rsp pfcpRsp))
      end
  end.

Definition ForwardPfcpMsgToUpf (pfcpMessage : Message) (upNodeID : NodeID)
    : prog (result error slice) :=
  let! ch := atomic makeChan in
  let invalid := Ret (Prelude.Err (errText "invalid request")) in
  match MessageType pfcpMessage with
  | AssociationSetupRequest =>
      let! associated := read (fun w => IsUpfAssociated upNodeID (upfs w)) in
      if associated : bool then answerAssociation pfcpMessage upNodeID
      else
        insertUpfNode upNodeID ;;;
        if negb (isA AssociationSetupRequest pfcpMessage) then invalid
        else
          let req := setField FRecoveryTimeStamp (Some (NewRecoveryTimeStamp UpfServerStartTime))
                              pfcpMessage in
          let req := setField FNodeID (Some adapterNodeID) req in
          let! err := registerAndSend ch req (SendPfcpAssociationSetupRequest upNodeID) in
          awaitAnswer ch err
  | HeartbeatRequest =>
      if negb (isA HeartbeatRequest pfcpMessage) then invalid
      else
        let req := setField FRecoveryTimeStamp (Some (NewRecoveryTimeStamp UpfServerStartTime))
                            pfcpMessage in
        let! err := registerAndSend ch req (SendHeartbeatRequest upNodeID) in
        awaitAnswer ch err
  | SessionEstablishmentRequest =>
      if negb (isA SessionEstablishmentRequest pfcpMessage) then invalid
      else
        let req := setField FNodeID (Some adapterNodeID) pfcpMessage in
        let! existingCPFSEID := lift (FSEID_SEID (field FCPFSEID req)) in
        match existingCPFSEID with
        | Prelude.Err _ => Ret (Prelude.Err (errText "error getting FSEID"))
        | Ok seid =>
            let req := setField FCPFSEID (Some (NewFSEID seid UpfAdapterIp None)) req in
            let! err := registerAndSend ch req (SendPfcpSessionEstablishmentRequest upNodeID) in
            awaitAnswer ch err
        end
  | SessionModificationRequest =>
      if negb (isA SessionModificationRequest pfcpMessage) then invalid
      else
        let! err := registerAndSend ch pfcpMessage (SendPfcpSessionModificationRequest upNodeID) in
        awaitAnswer ch err
  | SessionDeletionRequest =>
      if negb (isA SessionDeletionRequest pfcpMessage) then invalid
      else
        let! err := registerAndSend ch pfcpMessage (SendPfcpSessionDeletionRequest upNodeID) in
        awaitAnswer ch err
  | _ => invalid
  end.

(** ** The HTTP handler *)

(** [RemoteAddr] is split into host and port; when it cannot be, or the claim is that host, the
    recorded address is not looked at. *)
Definition checkClaim (remoteAddr claim : string) : prog (list HttpAct) :=
  match SplitHostPort remoteAddr with
  | None => Ret []
  | Some (host, _) =>
      if bool_decide (claim = "") || bool_decide (claim = host) then Ret []
      else
        let! current := read (fun w => SmfAddr (smfAddr w)) in
        Ret (if warnsMismatch claim host current then [WarnMismatch claim host] else [])
  end.

(** Reading the body and decoding its JSON are the caller's: [readFailed], and [None] for a body
    that is not a [UdpPodPfcpMsg]. A body that could not be read is answered with an error and
    decoded all the same. *)
Definition handler (remoteAddr : string) (readFailed : bool) (body : option UdpPodPfcpMsg)
    : prog (list HttpAct) :=
  let acts := if readFailed then [HttpError500] else [] in
  match body with
  | None => Ret acts
  | Some udpPodMsg =>
      match Parse (Body udpPodMsg) with
      | Prelude.Err _ => Ret (acts ++ [HttpError500])
      | Ok pfcpMessage =>
          let! warned := checkClaim remoteAddr (SmfIp udpPodMsg) in
          let acts := acts ++ warned in
          modify (fun w => set_smfAddr (SetSmfAddr (SmfIp udpPodMsg) (smfAddr w)) w) ;;;
          recordUpfAddr (UpNodeID udpPodMsg) ;;;
          let! rsp := ForwardPfcpMsgToUpf pfcpMessage (UpNodeID udpPodMsg) in
          match rsp with
          | Prelude.Err _ => Ret (acts ++ [HttpError500])
          | Ok pfcpJsonRsp => Ret (acts ++ [HttpWrite pfcpJsonRsp])
          end
      end
  end.
End Forward.
