(* ===== verification/Process.v ===== *)
(** * Process: how the program starts and stops ([upfadapter.go], [logger/logger.go], [types/nodeid.go])

    [main], the HTTP server it runs and shuts down, the logger's level, and the ticker that
    refreshes resolved names. Of [net/http] this has what [main] relies on: [ListenAndServe]
    returns when the listener fails or the server is shut down, [Shutdown] when no request is in
    flight or its context is done, and a handler that panics ends only its own request. *)

From Stdlib Require Import Strings.Byte Strings.String.
From S2P Require Import Prelude Logger GoNet NodeId Relay UpfAddrs SmfAddr UpfTxns UpfTable Pfcp Consumers.
From S2P Require Import Goroutine World Udp Handler Forward.

#[local] Open Scope string_scope.
#[local] Open Scope list_scope.
#[local] Open Scope Z_scope.
#[local] Open Scope go_scope.

(** What the process is started with: two environment variables, the socket the system gives out
    for an address, and [zapcore.ParseLevel], a library's. *)
Record Environment := mkEnvironment {
  UPFADAPTER_LOG_LEVEL : string;
  POD_IP : string;
  ListenUDP : UDPAddr -> option UDPConn;
  ParseLevel : string -> result string Z;
}.

(** [init] of [config.go]: the adapter's own address. *)
Definition UpfAdapterIp (e : Environment) : slice := IP.To4 (ParseIP.ParseIP (POD_IP e)).

Section Process.
Context `{L : PfcpLib, !MapRange string, !MapRange Z} (e : Environment).

Abbreviation prog := (prog (World L)).

(** ** Names resolved *)

Definition refresh : prog unit :=
  attempt (fun w => match RefreshDnsHostIpCache (dns w) (dnsHostIpCache w) with
                    | Val cache => Val ((), set_dnsHostIpCache cache w)
                    | Panic => Panic
                    end).

(** [<-ticker.C], which holds one tick, then the refresh; for ever. *)
Definition refreshLoop : prog unit :=
  wait (fun w => if ticked (proc w) then Some ((), set_proc (set_ticked false (proc w)) w)
                 else None) ;;;
  refresh ;;;
  go goRefreshLoop.

(** ** The HTTP server *)

Definition errServerClosed : error := errText "http: Server closed".
Definition errDeadlineExceeded : error := errText "context deadline exceeded".

Definition ListenAndServe : prog error :=
  onProc (set_serving true) ;;;
  wait (fun w =>
    let stop err := Some (err, set_proc (set_serving false (proc w)) w) in
    if stopping (proc w) then stop errServerClosed
    else match listenErr (proc w) with Some err => stop err | None => None end).

(** [go func() { serveErr <- server.ListenAndServe() }()], on a channel with room for one. *)
Definition listen : prog unit :=
  let! err := ListenAndServe in
  wait (fun w => match serveErr (proc w) with
                 | None => Some ((), set_proc (set_serveErr (Some err) (proc w)) w)
                 | Some _ => None
                 end).

(** The context's deadline is an instant of the clock. *)
Definition Shutdown (deadline : Time) : prog (option error) :=
  onProc (set_stopping true) ;;;
  select [(fun w => if decide (inflight (proc w) = 0%nat) then Some (None, w) else None);
          (fun w => if deadline <=? clock w then Some (Some errDeadlineExceeded, w) else None)].

(** A request's goroutine: the panic of a handler is recovered, and in the end the request is no
    longer in flight. *)
Definition serveRequest (remoteAddr : string) (readFailed : bool) (body : option UdpPodPfcpMsg)
    : prog unit :=
  recovered (handler (UpfAdapterIp e) remoteAddr readFailed body) ;;;
  onProc (fun p => set_inflight (pred (inflight p)) p).

(** ** [serve] and [main] *)

(** [None] is a nil error. An error of the shutdown is only logged. *)
Definition serve (timeout : Duration) : prog (option error) :=
  go goListen ;;;
  let! failed := select [(fun w => match serveErr (proc w) with
                                   | Some err =>
                                       Some (Some err, set_proc (set_serveErr None (proc w)) w)
                                   | None => None
                                   end);
                         (fun w => if cancelled (proc w) then Some (None, w) else None)] in
  match failed with
  | Some err => Ret (Some err)
  | None =>
      let! deadline := newTimer timeout in
      Shutdown deadline ;;;
      Ret None
  end.

(** [udp.Run], whose end closes [pfcpDone]. *)
Definition runPfcp : prog unit :=
  Run (UpfAdapterIp e) (ListenUDP e) ;;;
  onProc (set_pfcpDone true).

(** [logger.SetLogLevel]. *)
Definition SetLogLevel (level : Z) : prog unit := onProc (set_logLevel level).

(** The level asked for in the environment, when it is one. *)
Definition setLevelFromEnv : prog unit :=
  if decide (UPFADAPTER_LOG_LEVEL e = "") then Ret ()
  else
    match ParseLevel e (UPFADAPTER_LOG_LEVEL e) with
    | Prelude.Err _ => Ret ()
    | Ok level => SetLogLevel level
    end.

(** The process ends when [main] returns, whatever else is running. *)
Definition main : prog unit :=
  setLevelFromEnv ;;;
  go goRun ;;;
  let! err := serve (5 * Second) in
  match err with
  | Some _ => onProc (set_exited true)
  | None =>
      waitDone pfcpDone ;;;
      onProc (set_exited true)
  end.

(** Of the loggers the state of the process has their level: setting it there is what setting it in
    the package comes to. *)
Lemma SetLogLevel_package `{Zap : Log.ZapLib, !Log.ZapLaws Zap} levels0 (l : Log.Loggers) level (w : World L) :
  Log.reached levels0 l ->
  exists w', eval [] (SetLogLevel level) w = Some (Val ((), w')) /\
    Log.current (snd (Log.SetLogLevel level l)) = logLevel (proc w').
Proof.
  intros Hr. eexists. split; [done|]. destruct (Log.reached_enabled _ _ Hr) as [Hlt _].
  unfold Log.current. cbn. unfold Log.SetLevel. by rewrite list_lookup_insert_eq.
Qed.
End Process.
