(* ===== verification/System.v ===== *)
(** * System: all the goroutines together

    What each goroutine runs, what the environment does, and the steps of the whole: any
    goroutine may run its next step at any time, from the moment [main] is called until it
    returns or something panics. *)

From Stdlib Require Import Strings.Byte Strings.String.
From S2P Require Import Prelude GoNet NodeId Relay RelayTraces UpfAddrs SmfAddr UpfTxns UpfTable.
From S2P Require Import Pfcp Consumers Goroutine World Udp Handler Forward Process.

#[local] Open Scope list_scope.
#[local] Open Scope Z_scope.
#[local] Open Scope go_scope.

Section System.
Context `{L : PfcpLib, !MapRange string, !MapRange Z} (e : Environment).

Abbreviation prog := (prog (World L)).

Definition goCode (g : goroutine L) : prog unit :=
  match g with
  | goTxLifeCycle ptr =>
      let! tx := read (fun w => txs (udp w) !! ptr) in
      let! tx := deref tx in
      startTxLifeCycle ptr tx
  | goDispatch msg remoteAddr => Dispatch msg (Some remoteAddr)
  | goHandler remoteAddr readFailed body => serveRequest e remoteAddr readFailed body
  | goRun => runPfcp e
  | goReadLoop => readLoop
  | goListen => listen
  | goRefreshLoop => refreshLoop
  end.

(** An HTTP request comes in while the server listens. *)
Definition accept (g : goroutine L) (w : World L) : World L :=
  set_proc (set_inflight (S (inflight (proc w))) (proc w)) (set_spawned (spawned w ++ [g]) w).

Definition listening (w : World L) : bool := serving (proc w) && negb (stopping (proc w)).

(** What happens by itself: time passes, a datagram arrives, the resolver's answers change, a
    request comes in, the listener fails, the ticker ticks, a signal comes. *)
Inductive env_step : World L -> World L -> Prop :=
| env_clock w t : clock w <= t -> env_step w (set_clock t w)
| env_datagram w b addr : env_step w (set_inbox (inbox w ++ [(b, addr)]) w)
| env_dns w resolver : env_step w (set_dns resolver w)
| env_request w remoteAddr readFailed body :
    listening w = true -> env_step w (accept (goHandler remoteAddr readFailed body) w)
| env_listenErr w err : env_step w (set_proc (set_listenErr (Some err) (proc w)) w)
| env_tick w : env_step w (set_proc (set_ticked true (proc w)) w)
| env_signal w : env_step w (set_proc (set_cancelled true (proc w)) w).

(** Starting what has been spawned. *)
Definition startAll (w : World L) : list (prog unit) * World L :=
  (map goCode (spawned w), set_spawned [] w).

Definition over (w : World L) : Prop := exited (proc w) = true.

Definition system : Type := list (prog unit) * World L.

Definition system_step : label -> system -> system -> Prop := pool_step env_step startAll.
Definition system_move : system -> system -> Prop := pool_move env_step startAll over.

(** The process as [main] is called. *)
Definition initSystem (t0 : Time) (resolver : string -> option (list string)) : system :=
  ([main e], bootWorld t0 resolver).
End System.
