(* ===== verification/SystemInv.v ===== *)
(** * SystemInv: what holds whatever the schedule

    Every operation any goroutine does on the shared state, and everything the environment does,
    preserves the invariants of the components and moves each of them by its own operations
    only; so does, by [pool_steps_ok], every schedule of any number of goroutines. *)

From Stdlib Require Import Strings.Byte Strings.String.
From S2P Require Import Prelude GoNet NodeId Relay RelayTraces UpfAddrs SmfAddr UpfTxns UpfTable.
From S2P Require Import Pfcp Consumers Goroutine World Udp Handler Forward Process System.

#[local] Open Scope list_scope.
#[local] Open Scope Z_scope.

Section Invariant.
Context `{L : PfcpLib, !MapRange string, !MapRange Z}.

(** The goroutines started run transactions that exist. *)
Definition spawned_ok (w : World L) : Prop :=
  forall ptr, goTxLifeCycle ptr ∈ spawned w -> is_Some (txs (udp w) !! ptr).

Record world_inv (w : World L) : Prop := {
  winv_relays : relay_inv (relays w);
  winv_addrs : addrs_ok (upfAddrsOf w);
  winv_udp : udp_inv (udp w);
  winv_upfs : keyed (upfs w);
  winv_spawned : spawned_ok w;
}.

(** What is done stays done. *)
Record done_le (p p' : Proc) : Prop := {
  le_cancelled : cancelled p = true -> cancelled p' = true;
  le_loopDone : loopDone p = true -> loopDone p' = true;
  le_pfcpDone : pfcpDone p = true -> pfcpDone p' = true;
}.

#[export] Instance done_le_preorder : PreOrder done_le.
Proof. split; [by split|]. intros p1 p2 p3 [C1 L1 P1] [C2 L2 P2]. split; auto. Qed.

(** The socket, when there is one. *)
Definition connOf {D} (u : Udp D) : option UDPConn := Server u ≫= ServerConn.

(** How the state may move: time does not go back, the relay table moves by
    one of its operations, at a time that has come, the user-plane table by its own, a transaction once made stays what it is, and there is a socket from when it
    is opened on, which once closed stays so. *)
Record world_step (w w' : World L) : Prop := {
  wstep_clock : clock w <= clock w';
  wstep_relays : relays w' = relays w \/
    exists op, relays w' = exec op (relays w) /\ within (clock w) (clock w') op;
  wstep_upfs : rtc upf_step (upfs w) (upfs w');
  wstep_txs : forall ptr tx, txs (udp w) !! ptr = Some tx -> txs (udp w') !! ptr = Some tx;
  wstep_server : is_Some (connOf (udp w)) -> is_Some (connOf (udp w'));
  wstep_closed : closed w = true -> closed w' = true;
  wstep_done : done_le (proc w) (proc w');
}.

(** A move from a good state is a step and leads to a good state. *)
Definition keeps (w w' : World L) : Prop := world_inv w -> world_inv w' /\ world_step w w'.

(** ** Moves *)

Lemma world_step_refl w : world_step w w.
Proof. split; try done. by left. Qed.

(** A move that leaves the components with invariants alone. *)
Lemma keeps_frame w w' :
  clock w <= clock w' -> relays w' = relays w -> upfAddrsOf w' = upfAddrsOf w ->
  udp w' = udp w -> upfs w' = upfs w -> spawned w' = spawned w ->
  closed w' = closed w -> proc w' = proc w ->
  keeps w w'.
Proof.
  intros Hc Hr Ha Hu Hn Hs Hcl Hp [I1 I2 I3 I4 I5]. split.
  - split; rewrite ?Hr, ?Ha, ?Hu, ?Hn; try done. unfold spawned_ok. by rewrite Hs, Hu.
  - split; rewrite ?Hr, ?Hu, ?Hn, ?Hcl, ?Hp; try done. by left.
Qed.

(** A move of the process's own state. *)
Lemma keeps_proc p w : done_le (proc w) p -> keeps w (set_proc p w).
Proof.
  intros Hp [I1 I2 I3 I4 I5]. split; [by split|]. split; simpl; try done. by left.
Qed.

Lemma set_proc_id w : set_proc (proc w) w = w.
Proof. by destruct w. Qed.

Lemma keeps_close w : keeps w (set_closed true w).
Proof.
  intros [I1 I2 I3 I4 I5]. split; [by split|]. split; simpl; try done. by left.
Qed.

Lemma keeps_refl w : keeps w w.
Proof. by apply keeps_frame. Qed.

Lemma keeps_relays op w :
  within (clock w) (clock w) op -> keeps w (set_relays (exec op (relays w)) w).
Proof.
  intros Hop [I1 I2 I3 I4 I5]. split.
  - split; simpl; try done. by apply exec_inv.
  - split; simpl; try done. right. by exists op.
Qed.

(** A move of the socket's tables. *)
Lemma keeps_udp u w :
  (udp_inv (udp w) -> udp_inv u /\ (is_Some (connOf (udp w)) -> is_Some (connOf u)) /\
     forall ptr tx, txs (udp w) !! ptr = Some tx -> txs u !! ptr = Some tx) ->
  keeps w (set_udp u w).
Proof.
  intros Hu [I1 I2 I3 I4 I5]. destruct (Hu I3) as (H3 & Hsrv & Htx). split.
  - split; simpl; try done. intros ptr Hp. destruct (I5 ptr Hp) as [tx Hptr].
    exists tx. simpl. by apply Htx.
  - split; simpl; try done. by left.
Qed.

Lemma keeps_upfs t w : upf_step (upfs w) t -> keeps w (set_upfs t w).
Proof.
  intros Hs [I1 I2 I3 I4 I5]. split.
  - split; simpl; try done. by apply (upf_step_spec _ _ Hs).
  - split; simpl; try done; [by left|by apply rtc_once].
Qed.

Lemma keeps_spawn g w :
  (forall ptr, g = goTxLifeCycle ptr -> is_Some (txs (udp w) !! ptr)) ->
  keeps w (set_spawned (spawned w ++ [g]) w).
Proof.
  intros Hg [I1 I2 I3 I4 I5]. split.
  - split; simpl; try done. intros ptr. simpl. rewrite elem_of_app, list_elem_of_singleton.
    intros [Hp|Hp]; [by apply I5|by apply Hg].
  - split; simpl; try done. by left.
Qed.

(** A second move that leaves the relay table alone. *)
Lemma keeps_trans w1 w2 w3 : relays w3 = relays w2 -> keeps w1 w2 -> keeps w2 w3 -> keeps w1 w3.
Proof.
  intros Hr H12 H23 Hi. destruct (H12 Hi) as [Hi2 S12]. destruct (H23 Hi2) as [Hi3 S23].
  split; [done|]. destruct S12 as [C1 R1 U1 T1 V1 B1 D1], S23 as [C2 _ U2 T2 V2 B2 D2].
  split; [lia| |by etrans|auto..|by etrans]. rewrite Hr.
  destruct R1 as [R1|(op & R1 & O1)]; [by left|right]. exists op. split; [done|].
  destruct op; simpl in *; lia.
Qed.

(** Changing the two maps, and what is left to be released. *)
Lemma keeps_record t ip node w :
  keeps w (let '(u, released) :=
             recordUpfAddrLocked (Peers0 := listed) t ip node (upfAddrsOf w, []) in
           set_upfAddrMutex (Some released) (set_upfAddrsOf u w)).
Proof.
  intros Hi. destruct (record_spec (Peers0 := listed) t ip node (upfAddrsOf w) [] (winv_addrs w Hi))
    as (Hok & _).
  destruct (recordUpfAddrLocked t ip node (upfAddrsOf w, [])) as [u released].
  destruct Hi as [I1 I2 I3 I4 I5]. split; split; try done. by left.
Qed.

(** One release, in the two components that hold something of the peer. *)
Lemma keeps_dropRelays a m w : keeps w (set_upfAddrMutex m (dropRelays a w)).
Proof.
  eapply keeps_trans; [|apply (keeps_relays (Release a (clock w))); simpl; lia|]; [done|].
  by apply keeps_frame.
Qed.

Lemma keeps_ForgetConsumer a w : keeps w (set_udp (ForgetConsumer a (udp w)) w).
Proof.
  apply keeps_udp. intros Hu. unfold ForgetConsumer. destruct (Server (udp w)) eqn:Hsrv; [|done].
  destruct (DeleteByHost_spec a (udp w) Hu) as [Hu' _]. split; [done|]. by split.
Qed.

(** ** Goroutines *)

Abbreviation prog := (prog (World L)).

(** What the others may do meanwhile. *)
Definition others (w w' : World L) : Prop := world_inv w /\ keeps w w'.

(** Every step is such a move, whatever the others do. *)
Definition sound {A} (p : prog A) : Prop := every others keeps p.

Lemma sound_ret {A} (a : A) : sound (Ret a).
Proof. apply every_ret. Qed.

Lemma sound_bind {A B} (p : prog A) (k : A -> prog B) :
  sound p -> (forall a, sound (k a)) -> sound (bind p k).
Proof. apply every_bind. Qed.

Lemma sound_atomic {A} (op : World L -> A * World L) :
  (forall w, keeps w (snd (op w))) -> sound (atomic op).
Proof. apply every_atomic. Qed.

Lemma sound_read {A} (op : World L -> A) : sound (read op).
Proof. apply every_read, keeps_refl. Qed.

Lemma sound_modify (op : World L -> World L) : (forall w, keeps w (op w)) -> sound (modify op).
Proof. apply every_modify. Qed.

Lemma sound_attempt {A} (op : World L -> outcome (A * World L)) :
  (forall w, match op w with Val (_, w') => keeps w w' | Panic => True end) -> sound (attempt op).
Proof. apply every_attempt, keeps_refl. Qed.

Lemma sound_select {A} (cases : list (World L -> option (A * World L))) :
  Forall (fun ready => forall w, match ready w with Some (_, w') => keeps w w' | None => True end) cases ->
  sound (select cases).
Proof. apply every_select. Qed.

Lemma sound_recovered {A} (p : prog A) : sound p -> sound (recovered p).
Proof. apply every_recovered. Qed.

Lemma sound_deref {A} (x : option A) : sound (deref x).
Proof. apply every_deref. Qed.

Lemma sound_lift {A} (x : outcome A) : sound (lift x).
Proof. apply every_lift. Qed.

Lemma sound_frame op :
  (forall w, clock w <= clock (op w) /\ relays (op w) = relays w /\
     upfAddrsOf (op w) = upfAddrsOf w /\ udp (op w) = udp w /\ upfs (op w) = upfs w /\
     spawned (op w) = spawned w /\ closed (op w) = closed w /\ proc (op w) = proc w) ->
  sound (modify op).
Proof. intros Hop. apply sound_modify. intros w. apply keeps_frame; apply Hop. Qed.

(** *** Operations of the components *)

Lemma sound_relays {A} (op : Relays -> A * Relays) (f : relay_op) :
  (forall r, snd (op r) = exec f r) -> (forall t, within t t f) -> sound (atomic (on_relays op)).
Proof.
  intros Hop Hf. apply sound_atomic. intros w. unfold on_relays. specialize (Hop (relays w)).
  destruct (op (relays w)) as [a r]. simpl in *. subst r. by apply keeps_relays.
Qed.

Lemma sound_take k : sound (takeReportRelay k).
Proof.
  apply sound_atomic. intros w. unfold on_relays.
  pose proof (keeps_relays (Take k (clock w)) w I) as Hk. simpl in Hk.
  by destruct (TakeReportRelay k (clock w) (relays w)).
Qed.

Lemma sound_forget k : sound (forgetReportRelay k).
Proof. apply sound_modify. intros w. by apply (keeps_relays (Forget k)). Qed.

Lemma sound_txns {A} (op : gmap Z (option nat) -> A * gmap Z (option nat)) :
  sound (atomic (on_txns op)).
Proof.
  apply sound_atomic. intros w. unfold on_txns. destruct (op (txns w)). by apply keeps_frame.
Qed.

Lemma events_keep evs (w : World L) :
  keeps w (set_udp (mkUdp (Server (udp w)) (consumers (udp w)) (tables (udp w)) (txs (udp w)) evs
                          (nextTable (udp w)) (nextTx (udp w))) w).
Proof. apply keeps_udp. intros Hu. split; [by apply udp_inv_events|done]. Qed.

Lemma sound_offer ptr e : sound (modify (fun w => set_udp (offerEvent ptr e (udp w)) w)).
Proof.
  apply sound_modify. intros w. unfold offerEvent. destruct (events (udp w) !! ptr).
  - by apply keeps_udp.
  - apply events_keep.
Qed.

Lemma sound_delete t s ptr : sound (atomic (on_udp (TxTable.DeleteIf t s ptr))).
Proof.
  apply sound_atomic. intros w. unfold on_udp, TxTable.DeleteIf.
  destruct t as [t|]; [|by apply keeps_udp]. case_decide as Hs; [|by apply keeps_udp].
  apply keeps_udp. intros Hu. split; [|done].
  destruct (decide (t < nextTable (udp w))%nat) as [Ht|Ht].
  - apply udp_inv_set_table; [done..| |].
    + intros c s' p Hc. rewrite lookup_delete. case_decide; [done|]. intros Hp.
      apply (inv_slot _ Hu). unfold slot. by rewrite Hc.
    + intros s' p. rewrite lookup_delete. case_decide; [done|]. apply (inv_entry _ Hu).
  - exfalso. rewrite (tableAt_fresh t) in Hs by (done || lia). by rewrite lookup_empty in Hs.
Qed.

Lemma sound_go g : (forall ptr, g <> goTxLifeCycle ptr) -> sound (go g).
Proof. intros Hg. apply sound_modify. intros w. apply keeps_spawn. intros ptr ->. by destruct (Hg ptr). Qed.

Lemma others_clock w w' : rtc others w w' -> clock w <= clock w'.
Proof.
  induction 1 as [|w1 w2 w3 [Hi Hk] _ IH]; [lia|]. pose proof (wstep_clock _ _ (proj2 (Hk Hi))). lia.
Qed.

Lemma others_inv w w' : rtc others w w' -> world_inv w -> world_inv w'.
Proof. induction 1 as [|w1 w2 w3 [Hi Hk] _ IH]; [done|]. intros _. by apply IH, Hk. Qed.

(** What has been run among others led from a good state to a later one, by moves like theirs. *)
Lemma ran_others {A} (p : prog A) w a w' :
  sound p -> world_inv w -> ran others p w a w' -> rtc others w w'.
Proof.
  intros Hs Hi Hr. destruct (ran_wp others p _ w a w' (Hs w) Hr) as [_ Hsteps]. clear Hr Hs.
  induction Hsteps as [|w1 w2 w3 H12 _ IH]; [done|].
  assert (Ho : others w1 w2) by (destruct H12 as [|Hk]; [done|by split]).
  eapply rtc_l; [exact Ho|]. by apply IH, Ho.
Qed.

(** The transaction made is known to exist when it is registered and started. *)
Lemma others_txs w w' ptr tx :
  rtc others w w' -> txs (udp w) !! ptr = Some tx -> txs (udp w') !! ptr = Some tx.
Proof.
  induction 1 as [|w1 w2 w3 [Hi Hk] _ IH]; [done|]. intros Hp. apply IH.
  by apply (wstep_txs w1 w2 (proj2 (Hk Hi))).
Qed.

Lemma keeps_alloc tx w : keeps w (snd (on_udp (allocTx tx) w)).
Proof.
  apply keeps_udp. intros Hu. pose proof (alloc_spec tx (udp w) Hu) as Ha. simpl in Ha.
  split; [apply Ha|]. split; [done|]. intros p tx' Hp. simpl.
  rewrite lookup_insert_ne; [done|]. intros <-. destruct Ha as (_ & _ & Hn & _). congruence.
Qed.

Lemma keeps_put ptr tx w :
  txs (udp w) !! ptr = Some tx -> keeps w (snd (on_udp (PutTransaction ptr tx) w)).
Proof.
  intros Htx. unfold on_udp. pose proof (put_rest ptr tx (udp w)) as (Ht & _ & Hs & _).
  pose proof (put_spec ptr tx (udp w)) as Hp.
  destruct (PutTransaction ptr tx (udp w)) as [err u]. simpl in *. apply keeps_udp.
  intros Hu. destruct (Hp Hu Htx) as (Hu' & _). split; [done|]. unfold connOf. rewrite Hs. split; [done|]. by rewrite Ht.
Qed.

Lemma put_keeps_txs ptr tx (w : World L) p :
  txs (udp (snd (on_udp (PutTransaction ptr tx) w))) !! p = txs (udp w) !! p.
Proof.
  unfold on_udp. pose proof (put_rest ptr tx (udp w)) as (Ht & _).
  destruct (PutTransaction ptr tx (udp w)) as [err u]. simpl in *. by rewrite Ht.
Qed.

Lemma sound_send msg addr ev : sound (SendPfcp msg addr ev).
Proof.
  unfold SendPfcp. apply sound_bind; [apply sound_read|]. intros [srv|]; [|apply sound_ret].
  destruct (ServerConn srv) as [conn|]; [|apply sound_ret]. destruct (Marshal msg) as [buf|e];
    [|apply sound_ret]. cbv zeta.
  set (tx := NewTransaction msg buf conn addr ev). intros w. apply wp_bind, wp_atomic. intros w1 _.
  split; [apply keeps_alloc|]. cbn [on_udp allocTx fst snd].
  assert (Htx : txs (udp (snd (on_udp (allocTx tx) w1))) !! nextTx (udp w1) = Some tx)
    by (simpl; by rewrite lookup_insert_eq).
  unfold registerAndStart. apply wp_bind, wp_attempt. intros w3 Hr3.
  destruct (Server (udp w3)); [|by split; [apply keeps_refl|]].
  pose proof (others_txs _ _ _ _ Hr3 Htx) as Htx3. pose proof (keeps_put _ _ _ Htx3) as Hk.
  rewrite <- (put_keeps_txs (nextTx (udp w1)) tx) in Htx3.
  destruct (on_udp (PutTransaction (nextTx (udp w1)) tx) w3) as [[err|] w3']; [done|]. cbn [snd] in *. split; [done|].
  apply wp_bind, wp_modify. intros w4 Hr4. split; [|done].
  apply keeps_spawn. intros ptr [= <-]. exists tx. by eapply others_txs, Htx3.
Qed.

(** *** Programs *)

Lemma sound_write b addr : sound (writeToUDP b addr).
Proof. apply sound_select. repeat first [apply Forall_nil_2 | apply Forall_cons_2]; intros w; by apply keeps_frame. Qed.

Lemma sound_waitEvent ptr timer : sound (waitEvent ptr timer).
Proof.
  apply sound_select. repeat first [apply Forall_nil_2 | apply Forall_cons_2]; intros w.
  - unfold takeEvent. destruct (events (udp w) !! ptr); [apply events_keep|done].
  - destruct (timer <=? clock w); [apply keeps_refl|done].
Qed.

Lemma sound_readFromUDP : sound readFromUDP.
Proof.
  apply sound_select. repeat first [apply Forall_nil_2 | apply Forall_cons_2]; intros w.
  - destruct (inbox w) as [|[b addr] rest]; destruct (closed w); try done; try apply keeps_refl.
    by apply keeps_frame.
  - destruct (closed w); [done|apply keeps_refl].
Qed.

Lemma sound_sendChan ch rsp : sound (sendChan ch rsp).
Proof.
  apply sound_select. repeat first [apply Forall_nil_2 | apply Forall_cons_2]; intros w.
  destruct (chans w !! ch); [done|by apply keeps_frame].
Qed.

Lemma sound_recvChan ch : sound (recvChan ch).
Proof.
  apply sound_select. repeat first [apply Forall_nil_2 | apply Forall_cons_2]; intros w.
  destruct (chans w !! ch); [by apply keeps_frame|done].
Qed.

Lemma sound_resolve n : sound (attempt (resolve n)).
Proof.
  apply sound_attempt. intros w. unfold resolve.
  destruct (ResolveNodeIdToIp (dns w) n (dnsHostIpCache w)) as [[ip cache]|]; [|done].
  by apply keeps_frame.
Qed.

Lemma sound_activate n : sound (activateUpfNode n).
Proof.
  apply sound_bind; [apply sound_read|]. intros [k|]; [|apply sound_ret].
  apply sound_bind; [|intros; apply sound_ret].
  apply sound_modify. intros w. apply keeps_upfs, step_activate.
Qed.

Lemma sound_preserve upf rsp : sound (preservePfcpAssociationRsp upf rsp).
Proof.
  apply sound_bind.
  - apply sound_attempt. intros w.
    destruct (PreservePfcpAssociationRsp upf rsp (upfs w)) as [[t|]|] eqn:Hp; [| |done].
    + by apply keeps_upfs, (step_asso upf rsp).
    + by apply keeps_upfs, step_announce.
  - intros [|]; [apply sound_ret|]. apply sound_bind; [|intros; apply sound_lift].
    apply sound_select, Forall_singleton. intros w.
    destruct (PreservePfcpAssociationRsp upf rsp (upfs w)) as [[t|]|] eqn:Hp; [|done|apply keeps_refl].
    by apply keeps_upfs, (step_asso upf rsp).
Qed.

Lemma sound_lastAssociationRsp k : sound (lastAssociationRsp k).
Proof.
  apply sound_select, Forall_singleton. intros w.
  destruct (readLastAssoRsp k (upfs w)) as [[rsp t]|] eqn:Hr; [|done]. by eapply keeps_upfs, step_read.
Qed.

Lemma sound_insertUpfNode n : sound (insertUpfNode n).
Proof.
  apply sound_attempt. intros w.
  destruct (InsertUpfNode (dns w) n (dnsHostIpCache w) (upfs w)) as [[cache t]|] eqn:Hi; [|done].
  eapply keeps_trans; [| |by apply (keeps_upfs t (set_dnsHostIpCache cache w)), (step_insert _ _ _ _ _ _ Hi)];
    [done|]. by apply keeps_frame.
Qed.

Lemma sound_refresh : sound refresh.
Proof.
  apply sound_attempt. intros w. destruct (RefreshDnsHostIpCache _ _); [by apply keeps_frame|done].
Qed.

(** Only [cancelled], [loopDone] and [pfcpDone] must not go back. *)
Lemma sound_onProc f : (forall p, done_le p (f p)) -> sound (onProc f).
Proof. intros Hf. apply sound_modify. intros w. by apply keeps_proc. Qed.

Lemma sound_select_proc {A} (cases : list (World L -> option (A * World L))) :
  Forall (fun ready => forall w, match ready w with
                                 | Some (_, w') => exists p, w' = set_proc p w /\ done_le (proc w) p
                                 | None => True
                                 end) cases ->
  sound (select cases).
Proof.
  intros Hc. apply sound_select. eapply Forall_impl; [exact Hc|]. intros ready Hr w.
  specialize (Hr w). destruct (ready w) as [[a w']|]; [|done]. destruct Hr as (p & -> & Hp).
  by apply keeps_proc.
Qed.

Lemma sound_waitDone done : sound (waitDone done).
Proof.
  apply sound_select. repeat first [apply Forall_nil_2 | apply Forall_cons_2]; intros w.
  destruct (done (proc w)); [apply keeps_refl|done].
Qed.

Lemma sound_frame_txns op : sound (modify (fun w => set_txns (op w) w)).
Proof. apply sound_modify. intros w. by apply keeps_frame. Qed.

(** A claim reads the clock first. *)
Lemma sound_claim a s gen {B} (k : result relayError (Z * bool) -> prog B) :
  (forall claim, sound (k claim)) ->
  sound (let! t := now in
         let! claim := atomic (on_relays (RelayReportSequence a s t gen)) in k claim)%go.
Proof.
  intros Hk w. apply wp_bind, wp_read. intros w1 _. split; [apply keeps_refl|].
  apply wp_bind, wp_atomic. intros w2 Hr. split; [|apply Hk].
  pose proof (others_clock _ _ Hr). pose proof (keeps_relays (Claim a s (clock w1) gen) w2) as Hc.
  unfold on_relays. simpl in Hc. destruct (RelayReportSequence _ _ _ _ _). by apply Hc.
Qed.

Lemma sound_renumber k : sound (atomic (on_relays (RenumberReportRelay k))).
Proof. by apply (sound_relays _ (Renumber k)). Qed.

Lemma sound_releaseEach released : sound (releaseEach released).
Proof.
  induction released as [|a released IH]; unfold_release; [apply sound_ret|].
  apply sound_bind; [apply sound_modify; intros w; apply keeps_dropRelays|]. intros _.
  apply sound_bind; [apply sound_modify; intros w; apply keeps_ForgetConsumer|]. done.
Qed.

Lemma sound_recordUpfAddr n : sound (recordUpfAddr n).
Proof.
  apply sound_bind; [apply sound_read|]. intros t. apply sound_bind; [apply sound_resolve|].
  intros ip. apply sound_bind; [|intros released; apply sound_bind; [apply sound_releaseEach|]].
  - apply sound_select, Forall_singleton. intros w. destruct (upfAddrMutex w); [done|].
    pose proof (keeps_record t ip (nodeKey n) w) as Hk. by destruct (recordUpfAddrLocked _ _ _ _).
  - intros _. apply sound_modify. intros w. by apply keeps_frame.
Qed.

Lemma sound_isKnownUpfAddr ip : sound (isKnownUpfAddr ip).
Proof.
  unfold isKnownUpfAddr. case_decide; [apply sound_ret|]. apply sound_select, Forall_singleton.
  intros w. destruct (upfAddrMutex w); [done|]. apply keeps_refl.
Qed.
End Invariant.

Create HintDb sound.

#[export] Hint Resolve sound_ret sound_read sound_deref sound_lift sound_take sound_forget sound_txns
  sound_offer sound_delete sound_go sound_send sound_write sound_waitEvent
  sound_readFromUDP sound_sendChan sound_recvChan sound_resolve sound_activate sound_preserve
  sound_lastAssociationRsp
  sound_insertUpfNode sound_refresh sound_frame_txns sound_onProc sound_waitDone sound_claim sound_renumber
  sound_recordUpfAddr sound_isKnownUpfAddr : sound.

#[export] Hint Extern 1 (forall p, done_le p _) => by split : sound.
#[export] Hint Extern 1 (forall ptr, _ <> goTxLifeCycle ptr) => done : sound.

(** Goes through a program, one operation at a time. *)
Ltac sound_step :=
  match goal with
  | |- sound (match ?x with _ => _ end) => destruct x
  | |- sound (if ?b then _ else _) => destruct b
  | |- sound (let '(_, _) := ?x in _) => destruct x
  | |- sound (bind now (fun t => bind (atomic (on_relays (RelayReportSequence _ _ t _))) _)) =>
      apply sound_claim; intros
  | |- sound (bind _ _) => apply sound_bind; [|intros]
  | |- sound _ => solve [auto with sound]
  end.
Ltac sound_all := repeat (cbv zeta; sound_step).

Section Programs.
Context `{L : PfcpLib, !MapRange string, !MapRange Z} (e : Environment).

Lemma sound_startRequest iter ptr tx : sound (startRequest iter ptr tx).
Proof. induction iter as [|iter IH]; cbn [startRequest]; unfold newTimer; sound_all. Qed.

Lemma sound_startResponse iter timer ptr tx : sound (startResponse iter timer ptr tx).
Proof.
  revert timer. induction iter as [|iter IH]; intros timer; cbn [startResponse];
    unfold newTimer; sound_all.
Qed.

Hint Resolve sound_startRequest sound_startResponse : sound.

Lemma sound_Start ptr tx : sound (Start ptr tx).
Proof. unfold Start, newTimer. sound_all. Qed.

Lemma sound_remove ptr tx : sound (removeTransaction ptr tx).
Proof. unfold removeTransaction, server, loadConsumer. sound_all. Qed.

Lemma sound_findTransaction msg addr : sound (findTransaction msg addr).
Proof. unfold findTransaction, server, loadConsumer, loadTx. sound_all. Qed.

Hint Resolve sound_Start sound_remove sound_findTransaction : sound.

Lemma sound_deliver msg addr srvAddr : sound (deliver msg addr srvAddr).
Proof. unfold deliver. sound_all. Qed.

Hint Resolve sound_deliver : sound.

Lemma sound_readLoop : sound readLoop.
Proof. unfold readLoop, readRound, readPfcpMessage, server. sound_all. Qed.

Lemma sound_encodeAndSendRsp msg : sound (encodeAndSendRsp msg).
Proof. unfold encodeAndSendRsp, getUpfPfcpTxn. sound_all. Qed.

Lemma sound_sendErrRsp msg err : sound (sendErrRsp msg err).
Proof. unfold sendErrRsp, getUpfPfcpTxn. sound_all. Qed.

Lemma sound_refuse seid s a k : sound (refuseAndRelease seid s a k).
Proof. unfold refuseAndRelease, rejectSessionReport. sound_all. Qed.

Hint Resolve sound_readLoop sound_encodeAndSendRsp sound_sendErrRsp sound_refuse : sound.

Lemma sound_relayAttempts n report smf seid s a k :
  sound (relayAttempts n report smf seid s a k).
Proof.
  revert report k. induction n as [|n IH]; intros report k; cbn [relayAttempts]; sound_all.
Qed.

Hint Resolve sound_relayAttempts : sound.

Lemma sound_reportRequest msg a : sound (HandlePfcpSessionReportRequest msg a).
Proof.
  unfold HandlePfcpSessionReportRequest, rejectSessionReport. sound_all.
Qed.

Lemma sound_reportResponse msg : sound (HandlePfcpSessionReportResponse msg).
Proof. unfold HandlePfcpSessionReportResponse. sound_all. Qed.

Hint Resolve sound_reportRequest sound_reportResponse : sound.

Lemma sound_Dispatch msg a : sound (Dispatch msg a).
Proof.
  unfold Dispatch, HandlePfcpHeartbeatResponse, HandlePfcpAssociationSetupResponse,
    HandlePfcpSessionEstablishmentResponse, HandlePfcpSessionModificationResponse,
    HandlePfcpSessionDeletionResponse. sound_all.
Qed.

Lemma sound_startTxLifeCycle ptr tx : sound (startTxLifeCycle ptr tx).
Proof. unfold startTxLifeCycle, callErrHandler, HandlePfcpSendError, relayUnanswered. sound_all. Qed.

Lemma sound_Forward ip msg n : sound (ForwardPfcpMsgToUpf ip msg n).
Proof.
  unfold ForwardPfcpMsgToUpf. apply sound_bind.
  { apply sound_atomic. intros w. by apply keeps_frame. }
  intros ch. unfold answerAssociation, BuildPfcpAssociationResponse, registerAndSend, awaitAnswer,
    insertUpfPfcpTxn, forgetUpfPfcpTxn, SendPfcpAssociationSetupRequest, SendHeartbeatRequest,
    SendPfcpSessionEstablishmentRequest, SendPfcpSessionModificationRequest,
    SendPfcpSessionDeletionRequest, sendTo. sound_all.
Qed.

Hint Resolve sound_Dispatch sound_startTxLifeCycle sound_Forward : sound.

Lemma sound_handler ip addr failed body : sound (handler ip addr failed body).
Proof.
  unfold handler, checkClaim. sound_all. apply sound_modify. intros w. by apply keeps_frame.
Qed.

(** Waiting on the process's own state, or for the clock. *)
Ltac sound_cases :=
  apply sound_select_proc; repeat first [apply Forall_nil_2 | apply Forall_cons_2]; intros w;
  repeat case_match; simplify_eq; try done;
  (eexists; split; [first [done|symmetry; apply set_proc_id]|by split]).

Lemma sound_ListenAndServe : sound ListenAndServe.
Proof. unfold ListenAndServe. sound_all. sound_cases. Qed.

Lemma sound_Shutdown deadline : sound (Shutdown deadline).
Proof. unfold Shutdown. sound_all. sound_cases. Qed.

Lemma sound_udpServe : sound Udp.serve.
Proof. unfold Udp.serve. sound_all. apply sound_modify, keeps_close. Qed.

Hint Resolve sound_handler sound_ListenAndServe sound_Shutdown sound_udpServe sound_recovered : sound.

Lemma sound_listen : sound listen.
Proof. unfold listen. sound_all. sound_cases. Qed.

Lemma sound_runPfcp : sound (runPfcp e).
Proof.
  unfold runPfcp, Run, now. sound_all. apply sound_modify. intros w. apply keeps_udp. intros Hu.
  split; [by apply udp_inv_server|]. split; [by eexists|done].
Qed.

Lemma sound_setLevel : sound (setLevelFromEnv e).
Proof. unfold setLevelFromEnv, SetLogLevel. sound_all. Qed.

Lemma sound_serve timeout : sound (Process.serve timeout).
Proof. unfold Process.serve, newTimer. sound_all. sound_cases. Qed.

Lemma sound_refreshLoop : sound refreshLoop.
Proof. unfold refreshLoop. sound_all. sound_cases. Qed.

Hint Resolve sound_setLevel sound_serve sound_listen sound_runPfcp sound_refreshLoop : sound.

Lemma sound_goCode g : sound (goCode e g).
Proof. destruct g; cbn [goCode]; unfold serveRequest; sound_all. Qed.

Lemma sound_main : sound (main e).
Proof. unfold main. sound_all. Qed.

(** ** The whole *)

Lemma env_keeps w w' : env_step w w' -> keeps w w'.
Proof.
  destruct 1; try (by apply keeps_frame); try (by apply keeps_proc).
  unfold accept. eapply keeps_trans; [|by apply (keeps_spawn (goHandler remoteAddr readFailed body))|]; [done|].
  by apply keeps_proc.
Qed.

Lemma start_keeps w : keeps w (snd (startAll e w)).
Proof.
  intros [I1 I2 I3 I4 I5]. split.
  - split; simpl; try done. intros ptr Hp. simpl in Hp. by apply elem_of_nil in Hp.
  - split; simpl; try done. by left.
Qed.

Lemma world_inv_boot now resolver : world_inv (bootWorld now resolver).
Proof.
  split; simpl.
  - apply relay_inv_init.
  - apply addrs_ok_init.
  - apply udp_inv_init.
  - intros k u Hk. by rewrite lookup_empty in Hk.
  - intros ptr Hp. by apply list_elem_of_singleton in Hp.
Qed.

Lemma world_inv_init now resolver srv : world_inv (initWorld now resolver srv).
Proof.
  destruct (world_inv_boot now resolver) as [I1 I2 I3 I4 I5]. split; try done.
  - apply udp_inv_init.
  - intros ptr Hp. by apply elem_of_nil in Hp.
Qed.

Lemma startAll_sound w : Forall (safe keeps world_inv (snd (startAll e w)))
                                (fst (startAll e w)).
Proof.
  apply Forall_map, Forall_true. intros g. apply (sound_goCode g).
Qed.

(** The state is good and everything running is sound. *)
Definition system_ok : system -> Prop := pool_ok keeps world_inv.

Lemma system_ok_init t0 resolver : system_ok (initSystem e t0 resolver).
Proof.
  split; [apply world_inv_boot|]. repeat constructor. apply (sound_main (bootWorld t0 resolver)).
Qed.

Lemma system_step_ok l s s' :
  system_step e l s s' -> system_ok s -> world_step s.2 s'.2 /\ system_ok s'.
Proof.
  intros Hs Hok.
  assert (keeps s.2 s'.2 /\ system_ok s') as [Hk Hok']; [|by split; [apply Hk, Hok|]].
  eapply (pool_step_ok env_step (startAll e)); [..|exact Hs|exact Hok].
  - intros w w' Hi Hk. apply (Hk Hi).
  - intros w w' _. apply env_keeps.
  - intros w _. split; [apply start_keeps|apply startAll_sound].
Qed.

Lemma system_moves_ok s s' :
  rtc (system_move e) s s' -> system_ok s -> rtc world_step s.2 s'.2 /\ system_ok s'.
Proof.
  induction 1 as [s|s1 s2 s3 [_ [l Hs]] _ IH]; intros Hok; [done|].
  destruct (system_step_ok l s1 s2 Hs Hok) as [Hst Hok2]. destruct (IH Hok2) as [Hr Hok3].
  split; [|done]. by eapply rtc_l.
Qed.
End Programs.
