(* ===== verification/Ledger.v ===== *)
(** * Ledger: who may send into a channel, who runs a transaction, who holds the lock

    Three rights of the goroutines of this program. A channel made for a request of the SMF may be
    sent into once, by whoever takes it out of the table it was registered in: until then it is
    empty and registered at one number at most, so the send does not wait. A transaction is run by
    the one goroutine started for it, and what is found in the tables of the socket is run by
    somebody. The lock of the user planes addressed is held by one who knows what is left to be
    released, and gives it back when nothing is. The rights are nowhere in the code: every goroutine is
    shown to keep them. *)

From Stdlib Require Import Strings.Byte Strings.String.
From S2P Require Import Prelude GoNet NodeId Relay RelayTraces UpfAddrs SmfAddr UpfTxns UpfTable.
From S2P Require Import Pfcp Consumers Goroutine Ownership World Udp Handler Forward Process System.
From S2P Require Import SystemInv.

#[local] Open Scope list_scope.
#[local] Open Scope Z_scope.

(** ** Rights *)

(** To send into a channel, to run a transaction, and what goes with [upfAddrMutex]. *)
Inductive right := toSend (ch : nat) | toRun (ptr : nat) | toRecord.

#[export] Instance right_eq_dec : EqDecision right.
Proof. solve_decision. Defined.

#[export] Program Instance right_countable : Countable right :=
  inj_countable' (fun k => match k with toSend ch => inl ch | toRun ptr => inr (inl ptr)
                                      | toRecord => inr (inr ()) end)
                 (fun k => match k with inl ch => toSend ch | inr (inl ptr) => toRun ptr
                                      | inr (inr ()) => toRecord end) _.
Next Obligation. by intros []. Qed.

(** Where the one who may run a transaction is with it: making it, before or after registering it;
    started; running it; about to remove it from the table found. *)
Inductive phase :=
| sending (taken : bool) (* into a channel: one's own, or one taken out of the table *)
| recording (released : list string) (* of the lock: what is still to be released *)
| making (tx : Transaction ErrHandlerFn) (registered : bool)
| started
| running (tx : Transaction ErrHandlerFn)
| removing (tx : Transaction ErrHandlerFn) (found : option nat).

(** The transaction, as far as it has been looked at. *)
Definition txSeen (v : phase) : option (Transaction ErrHandlerFn) :=
  match v with making tx _ | running tx | removing tx _ => Some tx | _ => None end.

Abbreviation rights := (gmap right phase).

(** How a goroutine is looked at: whether it must always be able to go on, and whether the lock of a
    node that has been left is an excuse. *)
Record mode := Mode { must_go : bool; bothered : bool }.

Abbreviation patient := (Mode false).

Section Ledger.
Context `{L : PfcpLib, !MapRange string, !MapRange Z}.

Definition txOf (g : goroutine L) : option nat :=
  match g with goTxLifeCycle ptr => Some ptr | _ => None end.

(** The transactions whose goroutines are still to be started. *)
Definition starting (w : World L) : list nat := omap txOf (spawned w).

Record ledger (D : rights) (w : World L) : Prop := {
  led_send ch : is_Some (D !! toSend ch) ->
    (ch < nextChan w)%nat /\ chans w !! ch = None /\ forall s, txns w !! s <> Some (Some ch);
  led_txns s ch : txns w !! s = Some (Some ch) -> (ch < nextChan w)%nat /\ chans w !! ch = None;
  led_once s s' ch : txns w !! s = Some (Some ch) -> txns w !! s' = Some (Some ch) -> s = s';
  led_chans ch : is_Some (chans w !! ch) -> (ch < nextChan w)%nat;
  led_run ptr : is_Some (D !! toRun ptr) -> (ptr < nextTx (udp w))%nat /\ ptr ∉ starting w;
  led_start ptr : ptr ∈ starting w -> (ptr < nextTx (udp w))%nat;
  led_distinct : NoDup (starting w);
  led_slot c s ptr : slot c s (udp w) = Some ptr -> is_Some (D !! toRun ptr) \/ ptr ∈ starting w;
  led_tx ptr v tx : D !! toRun ptr = Some v -> txSeen v = Some tx -> txs (udp w) !! ptr = Some tx;
  led_making ptr tx c s : D !! toRun ptr = Some (making tx false) -> slot c s (udp w) <> Some ptr;
  led_found ptr tx t c s : D !! toRun ptr = Some (removing tx t) ->
    slot c s (udp w) = Some ptr -> consumers (udp w) !! c = t;
  led_server : Server (udp w) = None -> consumers (udp w) = ∅;
  led_lock : D !! toRecord = recording <$> upfAddrMutex w;
}.

(** The address is in the table, or has just been taken off it and is about to be released. *)
Definition accounted (a : string) (w : World L) : Prop :=
  is_Some (upfAddrs (upfAddrsOf w) !! a) \/ exists l, upfAddrMutex w = Some l /\ a ∈ l.

(** Its goroutine has not been started. *)
Definition young (d : rights) (ptr : nat) : Prop := exists tx b, d !! toRun ptr = Some (making tx b).

(** What a step may do about channels: the right to send into one is had for one just made or taken
    out of the table, and only with it is the channel registered or sent into; what has been taken
    out of the table is sent into. *)
Record sends (d : rights) (w : World L) (d' : rights) (w' : World L) : Prop := {
  sends_right ch v : d' !! toSend ch = Some v ->
    d !! toSend ch = Some v \/ (nextChan w <= ch)%nat \/
    (v = sending true /\ exists s, txns w !! s = Some (Some ch) /\ txns w' !! s = None);
  sends_taken ch : d !! toSend ch = Some (sending true) ->
    d' !! toSend ch = Some (sending true) \/ is_Some (chans w' !! ch);
  sends_txns s ch : txns w' !! s = Some (Some ch) ->
    txns w !! s = Some (Some ch) \/ is_Some (d !! toSend ch);
  sends_chans ch : is_Some (chans w' !! ch) -> is_Some (chans w !! ch) \/ is_Some (d !! toSend ch);
  sends_next : (nextChan w <= nextChan w')%nat;
}.

(** How a step may change the rights of the goroutine that takes it, besides giving some up: a
    right to run a transaction is had for one just made, what is started stays so, and only one who
    has made a transaction starts its goroutine; and no address goes without being released. *)
Record deal (d : rights) (w : World L) (d' : rights) (w' : World L) : Prop := {
  deal_spawn : exists new, spawned w' = spawned w ++ new /\
    forall ptr, ptr ∈ omap txOf new -> young d ptr;
  deal_young ptr : young d' ptr -> young d ptr \/ (nextTx (udp w) <= ptr)%nat;
  deal_run ptr : is_Some (d' !! toRun ptr) ->
    is_Some (d !! toRun ptr) \/ (nextTx (udp w) <= ptr)%nat;
  deal_next : (nextTx (udp w) <= nextTx (udp w'))%nat;
  deal_sends : sends d w d' w';
  deal_accounted a : accounted a w ->
    accounted a w' \/ relays w' = ForgetRelaysForHost a (clock w) (relays w);
}.

(** ** Steps that need no right *)

(** Nothing that a right is about is added: a channel may be emptied, a registration dropped, what
    is found no longer found; and what is started is no transaction. *)
Record tame (w w' : World L) : Prop := {
  tame_chans ch : chans w' !! ch <> None -> chans w !! ch <> None;
  tame_next : nextChan w' = nextChan w;
  tame_txns s ch : txns w' !! s = Some (Some ch) -> txns w !! s = Some (Some ch);
  tame_spawned : exists new, spawned w' = spawned w ++ new /\ omap txOf new = [];
  tame_nextTx : nextTx (udp w') = nextTx (udp w);
  tame_txs ptr tx : txs (udp w) !! ptr = Some tx -> txs (udp w') !! ptr = Some tx;
  tame_slot c s ptr : slot c s (udp w') = Some ptr ->
    slot c s (udp w) = Some ptr /\ consumers (udp w') !! c = consumers (udp w) !! c;
  tame_server : (Server (udp w) = None -> consumers (udp w) = ∅) ->
    Server (udp w') = None -> consumers (udp w') = ∅;
  tame_addrs : upfAddrsOf w' = upfAddrsOf w;
  tame_lock : upfAddrMutex w' = upfAddrMutex w;
}.

Lemma tame_refl w : tame w w.
Proof. split; try done. exists []. by rewrite app_nil_r. Qed.

Lemma tame_trans w1 w2 w3 : tame w1 w2 -> tame w2 w3 -> tame w1 w3.
Proof.
  intros [C1 N1 T1 (n1 & S1 & O1) X1 Y1 L1 V1 U1 M1] [C2 N2 T2 (n2 & S2 & O2) X2 Y2 L2 V2 U2 M2].
  split; auto.
  - congruence.
  - exists (n1 ++ n2). rewrite S2, S1, app_assoc. by rewrite omap_app, O1, O2.
  - congruence.
  - intros c s ptr Hs. destruct (L2 c s ptr Hs) as [Hs2 Hc2]. destruct (L1 c s ptr Hs2) as [Hs1 Hc1].
    split; [done|congruence].
  - congruence.
  - congruence.
Qed.

Lemma starting_app w w' new :
  spawned w' = spawned w ++ new -> starting w' = starting w ++ omap txOf new.
Proof. intros Hs. unfold starting. by rewrite Hs, omap_app. Qed.

Lemma ledger_tame D w w' : tame w w' -> ledger D w -> ledger D w'.
Proof.
  intros [C N T (new & S & O) X Y L1 V U M] [A1 A2 A3 A4 A5 A6 A7 A8 A9 A10 A11 A12 A13].
  apply starting_app in S. rewrite O, app_nil_r in S.
  assert (Hc : forall ch, chans w !! ch = None -> chans w' !! ch = None).
  { intros ch Hch. destruct (chans w' !! ch) eqn:He; [|done]. exfalso. by apply (C ch); rewrite ?He. }
  split; rewrite ?N, ?X, ?S, ?M; auto.
  - intros ch Hch. destruct (A1 ch Hch) as (H1 & H2 & H3). split_and!; [done|auto|].
    intros s Hs. by apply (H3 s), T.
  - intros s ch Hs. apply T in Hs. destruct (A2 s ch Hs). auto.
  - intros s s' ch Hs Hs'. eapply A3; apply T; eassumption.
  - intros ch [x Hch]. apply A4. destruct (chans w !! ch) eqn:He; [by eexists|]. exfalso.
    apply (C ch); [by rewrite Hch|done].
  - intros c s ptr Hs. eapply A8, L1, Hs.
  - intros ptr v tx HD Hv. by eapply Y, A9.
  - intros ptr tx c s HD Hs. by eapply A10, L1.
  - intros ptr tx t c s HD Hs. destruct (L1 c s ptr Hs) as [Hs' ->]. by eapply A11.
Qed.

Lemma sends_tame d w w' : tame w w' -> sends d w d w'.
Proof.
  intros [C N T _ _ _ _ _ _ _]. split; [by left|by left|by left; apply T| |lia]. intros ch [x Hx]. left.
  destruct (chans w !! ch) eqn:Hc; [by eexists|]. exfalso. apply (C ch); [by rewrite Hx|done].
Qed.

Lemma accounted_same a w w' :
  upfAddrsOf w' = upfAddrsOf w -> upfAddrMutex w' = upfAddrMutex w -> accounted a w -> accounted a w'.
Proof. intros Hu Hm. unfold accounted. by rewrite Hu, Hm. Qed.

Lemma deal_tame d w w' : tame w w' -> deal d w d w'.
Proof.
  intros Ht. pose proof (sends_tame d _ _ Ht). destruct Ht as [C N T (new & S & O) X Y L1 V U M].
  split; [|by auto..|lia|done|].
  - exists new. split; [done|]. intros ptr Hp. rewrite O in Hp. by apply elem_of_nil in Hp.
  - intros a Ha. left. by eapply accounted_same.
Qed.

(** The components the ledger is about are left alone. *)
Lemma tame_frame w w' :
  chans w' = chans w -> nextChan w' = nextChan w -> txns w' = txns w -> spawned w' = spawned w ->
  udp w' = udp w -> upfAddrsOf w' = upfAddrsOf w -> upfAddrMutex w' = upfAddrMutex w -> tame w w'.
Proof.
  intros Hc Hn Ht Hs Hu Ha Hm. split; rewrite ?Hc, ?Hn, ?Ht, ?Hu; try done.
  exists []. by rewrite app_nil_r.
Qed.

(** A move of the socket's tables that adds no entry. *)
Lemma tame_udp u w :
  nextTx u = nextTx (udp w) ->
  (forall ptr tx, txs (udp w) !! ptr = Some tx -> txs u !! ptr = Some tx) ->
  (forall c s ptr, slot c s u = Some ptr ->
     slot c s (udp w) = Some ptr /\ consumers u !! c = consumers (udp w) !! c) ->
  ((Server (udp w) = None -> consumers (udp w) = ∅) -> Server u = None -> consumers u = ∅) ->
  tame w (set_udp u w).
Proof.
  intros Hn Ht Hs Hv. split; try done. exists []. by rewrite app_nil_r.
Qed.

Lemma tame_spawn g w : txOf g = None -> tame w (set_spawned (spawned w ++ [g]) w).
Proof. intros Hg. split; try done. exists [g]. split; [done|]. simpl. by rewrite Hg. Qed.

Lemma slot_forget ip (u : Udp ErrHandlerFn) c s ptr :
  udp_inv u -> slot c s (ForgetConsumer ip u) = Some ptr ->
  slot c s u = Some ptr /\ consumers (ForgetConsumer ip u) !! c = consumers u !! c.
Proof.
  intros Hu. unfold ForgetConsumer. destruct (Server u); [|done].
  destruct (DeleteByHost_spec ip u Hu) as [_ Hc]. unfold slot. rewrite Hc.
  by destruct (ConsumerTable.hostMatches ip c).
Qed.

Lemma tame_ForgetConsumer a w : udp_inv (udp w) -> tame w (set_udp (ForgetConsumer a (udp w)) w).
Proof.
  intros Hu. apply tame_udp.
  - unfold ForgetConsumer. by destruct (Server (udp w)).
  - unfold ForgetConsumer. by destruct (Server (udp w)).
  - intros c s ptr. by apply slot_forget.
  - unfold ForgetConsumer. destruct (Server (udp w)) eqn:Hs; [|by auto].
    intros _ Hn. cbn [ConsumerTable.DeleteByHost Server] in Hn. congruence.
Qed.

(** ** Programs *)

Abbreviation prog := (prog (World L)).

(** Holding the right to run a transaction, or the lock, or having taken a channel out of the table,
    a goroutine waits for nothing else. *)
Record idle (d : rights) : Prop := {
  idle_run ptr : d !! toRun ptr = None;
  idle_record : d !! toRecord = None;
  idle_taken ch : d !! toSend ch <> Some (sending true);
}.

Definition busy (d : rights) : Prop :=
  (exists ptr, is_Some (d !! toRun ptr)) \/ is_Some (d !! toRecord) \/
  exists ch, d !! toSend ch = Some (sending true).

Lemma idle_not_busy d : idle d -> ~ busy d.
Proof.
  intros [Hr Hl Ht] [(ptr & v & Hp)|[[v Hp]|[ch Hp]]];
    [by rewrite Hr in Hp|by rewrite Hl in Hp|by apply (Ht ch)].
Qed.

(** The lock is not held by another. *)
Definition open (d : rights) (w : World L) : Prop := is_Some (upfAddrMutex w) -> is_Some (d !! toRecord).

Lemma idle_open d w : idle d -> open d w -> upfAddrMutex w = None.
Proof.
  intros [_ Hl _] Ho. destruct (upfAddrMutex w) eqn:Hm; [|done]. unfold open in Ho. rewrite Hl, Hm in Ho.
  by destruct Ho.
Qed.

(** Nor is it kept waiting by the lock of a node, if it is [bothered] by one: whoever has something
    to attend to waits for none. *)
Definition unhindered (bothered : bool) (d : rights) (w : World L) : Prop :=
  open d w /\ (bothered = true -> busy d \/ ~ leftLocked (upfs w)).

Definition owns (live : mode) {A} (p : prog A) (Q : A -> rights -> Prop) (d : rights) : Prop :=
  own clock world_inv ledger deal (unhindered (bothered live)) busy idle (must_go live) p Q d.

Definition hands {A} := @passes (World L) right phase _ _ world_inv ledger deal A.

(** It starts and ends with no transaction to run; when it must go on it never waits for others. *)
Definition tidy (live : mode) {A} (p : prog A) : Prop :=
  forall d, idle d -> owns live p (fun _ => idle) d.

Lemma hands_tame {A} (Q : A -> rights -> Prop) d a w w' :
  (world_inv w -> tame w w') -> Q a d -> hands Q d a w w'.
Proof.
  intros Ht Hq F Hi _ Hd Hj. exists d. split_and!; [done| |by apply deal_tame, Ht|done].
  by eapply ledger_tame; [apply Ht|].
Qed.

Section Tidy.
Context {live : mode}.

Lemma tidy_ret {A} (a : A) : tidy live (Ret a).
Proof. by intros d Hd. Qed.

Lemma tidy_bind {A B} (p : prog A) (k : A -> prog B) :
  tidy live p -> (forall a, tidy live (k a)) -> tidy live (bind p k).
Proof.
  intros Hp Hk d Hd. apply own_bind. eapply own_mono; [|by apply Hp].
  intros a d' Hd'. by apply Hk.
Qed.

Lemma tidy_atomic {A} (op : World L -> A * World L) :
  (forall w, world_inv w -> tame w (snd (op w))) -> tidy live (atomic op).
Proof. intros Hop d Hd. apply own_atomic. intros w. apply hands_tame; auto. Qed.

Lemma tidy_read {A} (op : World L -> A) : tidy live (read op).
Proof. apply tidy_atomic. intros w _. apply tame_refl. Qed.

Lemma tidy_modify (op : World L -> World L) :
  (forall w, world_inv w -> tame w (op w)) -> tidy live (modify op).
Proof. intros Hop. by apply tidy_atomic. Qed.

Lemma tidy_attempt {A} (op : World L -> outcome (A * World L)) :
  (forall w, world_inv w -> match op w with Val (_, w') => tame w w' | Panic => True end) ->
  tidy live (attempt op).
Proof.
  intros Hop d Hd. apply own_attempt. intros w. specialize (Hop w).
  destruct (op w) as [[a w']|]; apply hands_tame; auto. intros _. apply tame_refl.
Qed.

(** One of the cases is ready once the locks are free and the clock has come to [t], if it must. *)
Lemma tidy_select {A} (cases : list (World L -> option (A * World L))) :
  (must_go live = true -> exists t, forall w, upfAddrMutex w = None ->
     (bothered live = true -> ~ leftLocked (upfs w)) -> t <= clock w ->
     Exists (fun ready => is_Some (ready w)) cases) ->
  Forall (fun ready => forall w, match ready w with Some (_, w') => tame w w' | None => True end) cases ->
  tidy live (select cases).
Proof.
  intros Hp Hc d Hd. apply own_select.
  - intros [Hl|Hb]; [|by destruct (idle_not_busy d Hd)]. destruct (Hp Hl) as [t Ht].
    exists t. intros F w _ _ _ [Ho Hb] Hclk. apply Ht; [by eapply idle_open| |done]. intros Hbo.
    destruct (Hb Hbo) as [Hbusy|]; [by destruct (idle_not_busy d Hd)|done].
  - eapply Forall_impl; [exact Hc|]. intros ready Hr w. specialize (Hr w).
    destruct (ready w) as [[a w']|]; [|done]. by apply hands_tame.
Qed.

Lemma tidy_deref {A} (x : option A) : tidy live (deref x).
Proof. intros d Hd. apply own_deref. by destruct x. Qed.

Lemma tidy_lift {A} (x : outcome A) : tidy live (lift x).
Proof. intros d Hd. apply own_lift. by destruct x. Qed.

Lemma tidy_recovered {A} (p : prog A) : tidy live p -> tidy live (recovered p).
Proof. intros Hp d Hd. apply own_recovered; [done|by apply Hp]. Qed.
End Tidy.

(** ** Rights to send *)

(** A right to send is neither about transactions nor among the other goroutine's rights to run. *)
Lemma ledger_sends D D' w :
  ledger D w -> (forall ptr, D' !! toRun ptr = D !! toRun ptr) -> D' !! toRecord = D !! toRecord ->
  (forall ch, is_Some (D' !! toSend ch) ->
     (ch < nextChan w)%nat /\ chans w !! ch = None /\ forall s, txns w !! s <> Some (Some ch)) ->
  ledger D' w.
Proof.
  intros [A1 A2 A3 A4 A5 A6 A7 A8 A9 A10 A11 A12 A13] HD HL Hs.
  split; try done; intros *; rewrite ?HD, ?HL; eauto.
Qed.

Lemma ledger_makeChan D w :
  ledger D w ->
  D !! toSend (nextChan w) = None /\
  ledger (<[toSend (nextChan w) := sending false]> D) (snd (makeChan w)).
Proof.
  intros HL. assert (Hn : D !! toSend (nextChan w) = None).
  { destruct (D !! toSend (nextChan w)) eqn:HD; [|done].
    destruct (led_send _ _ HL (nextChan w)) as [? _]; [by rewrite HD|lia]. }
  split; [done|]. apply (ledger_sends D).
  - destruct HL as [A1 A2 A3 A4 A5 A6 A7 A8 A9 A10 A11 A12 A13]. split; try done; simpl.
    + intros ch Hch. destruct (A1 ch Hch) as (? & ? & ?). split_and!; [lia|done..].
    + intros s ch Hch. destruct (A2 s ch Hch). split; [lia|done].
    + intros ch Hch. specialize (A4 ch Hch). lia.
  - intros ptr. by rewrite lookup_insert_ne.
  - by rewrite lookup_insert_ne.
  - intros ch. rewrite lookup_insert. case_decide as He; simpl.
    + injection He as <-. intros _. split_and!; [lia| |].
      * destruct (chans w !! nextChan w) eqn:Hc; [|done].
        pose proof (led_chans _ _ HL (nextChan w) ltac:(by eexists)). lia.
      * intros s Hs. destruct (led_txns _ _ HL s _ Hs). lia.
    + intros Hch. destruct (led_send _ _ HL ch Hch) as (? & ? & ?). split_and!; [lia|done..].
Qed.

Lemma ledger_register D w s ch :
  ledger D w -> is_Some (D !! toSend ch) ->
  ledger (delete (toSend ch) D) (set_txns (InsertUpfPfcpTxn s (Some ch) (txns w)) w).
Proof.
  intros HL Hch. destruct (led_send _ _ HL ch Hch) as (Hlt & Hempty & Hno).
  unfold InsertUpfPfcpTxn. destruct HL as [A1 A2 A3 A4 A5 A6 A7 A8 A9 A10 A11 A12 A13].
  split; try done; simpl.
  - intros ch'. rewrite lookup_delete. case_decide as He; [by intros []|]. intros Hs.
    destruct (A1 ch' Hs) as (? & ? & Hno'). split_and!; [done..|]. intros s'. rewrite lookup_insert.
    case_decide; [congruence|apply Hno'].
  - intros s' ch'. rewrite lookup_insert. case_decide; [intros [= <-]; done|apply A2].
  - intros s1 s2 ch'. rewrite !lookup_insert. do 2 case_decide; subst; try done.
    + intros [= <-] H2. by destruct (Hno s2).
    + intros H1 [= <-]. by destruct (Hno s1).
    + apply A3.
  - intros ptr. rewrite lookup_delete_ne by done. apply A5.
  - intros c s' ptr. rewrite lookup_delete_ne by done. apply A8.
  - intros ptr v tx. rewrite lookup_delete_ne by done. apply A9.
  - intros ptr tx c s'. rewrite lookup_delete_ne by done. apply A10.
  - intros ptr tx t c s'. rewrite lookup_delete_ne by done. apply A11.
  - by rewrite lookup_delete_ne.
Qed.

Lemma ledger_fetch D w s ch :
  ledger D w -> txns w !! s = Some (Some ch) ->
  D !! toSend ch = None /\ ledger (<[toSend ch := sending true]> D) (set_txns (delete s (txns w)) w).
Proof.
  intros HL Hs. assert (Hn : D !! toSend ch = None).
  { destruct (D !! toSend ch) eqn:HD; [|done].
    destruct (led_send _ _ HL ch) as (_ & _ & Hno); [by rewrite HD|]. by destruct (Hno s). }
  split; [done|]. pose proof (led_txns _ _ HL s ch Hs) as [Hlt Hempty].
  apply (ledger_sends D).
  - eapply ledger_tame; [|exact HL]. split; try done; simpl.
    + intros s' ch'. rewrite lookup_delete. by case_decide.
    + exists []. by rewrite app_nil_r.
  - intros ptr. by rewrite lookup_insert_ne.
  - by rewrite lookup_insert_ne.
  - intros ch'. simpl. rewrite lookup_insert. case_decide as He.
    + injection He as <-. intros _. split_and!; [done..|]. intros s'. rewrite lookup_delete.
      case_decide as Hne; [done|]. intros Hs'. by apply Hne, (led_once _ _ HL s s' ch).
    + intros Hch. destruct (led_send _ _ HL ch' Hch) as (? & ? & Hno). split_and!; [done..|].
      intros s'. rewrite lookup_delete. case_decide; [done|apply Hno].
Qed.

Lemma ledger_send D w ch rsp :
  ledger D w -> is_Some (D !! toSend ch) ->
  ledger (delete (toSend ch) D) (set_chans (<[ch := rsp]> (chans w)) w).
Proof.
  intros HL Hch. destruct (led_send _ _ HL ch Hch) as (Hlt & Hempty & Hno).
  assert (HL' : ledger (delete (toSend ch) D) w).
  { apply (ledger_sends D); [done|by intros ptr; rewrite lookup_delete_ne|by rewrite lookup_delete_ne|].
    intros ch'. rewrite lookup_delete. case_decide; [by intros []|]. by apply (led_send _ _ HL). }
  destruct HL' as [A1 A2 A3 A4 A5 A6 A7 A8 A9 A10 A11 A12 A13]. split; try done; simpl.
  - intros ch' Hch'. destruct (A1 ch' Hch') as (? & ? & ?). split_and!; [done| |done].
    rewrite lookup_insert_ne; [done|]. intros <-. rewrite lookup_delete_eq in Hch'. by destruct Hch'.
  - intros s ch' Hs. destruct (A2 s ch' Hs). split; [done|]. rewrite lookup_insert_ne; [done|].
    intros <-. by apply (Hno s).
  - intros ch'. rewrite lookup_insert. case_decide; [by subst|apply A4].
Qed.

(** ** Rights to run a transaction *)

Lemma inr_ne (p q : nat) : p <> q -> toRun p <> toRun q.
Proof. congruence. Qed.

(** Giving one up, or changing its phase, when what the ledger says of that transaction holds. *)
Lemma ledger_runs (D : rights) (w : World L) ptr (v : option phase) :
  ledger D w -> is_Some (D !! toRun ptr) ->
  (v = None -> forall c s, slot c s (udp w) <> Some ptr) ->
  (forall v' tx, v = Some v' -> txSeen v' = Some tx -> txs (udp w) !! ptr = Some tx) ->
  (forall tx, v = Some (making tx false) -> forall c s, slot c s (udp w) <> Some ptr) ->
  (forall tx t c s, v = Some (removing tx t) -> slot c s (udp w) = Some ptr ->
     consumers (udp w) !! c = t) ->
  ledger (partial_alter (fun _ => v) (toRun ptr) D) w.
Proof.
  intros [A1 A2 A3 A4 A5 A6 A7 A8 A9 A10 A11 A12 A13] Hp H0 H1 H2 H3. split; try done.
  - intros ch. rewrite lookup_partial_alter_ne by done. apply A1.
  - intros q Hq. apply A5. destruct (decide (ptr = q)) as [<-|Hne]; [done|].
    by rewrite lookup_partial_alter_ne in Hq by by apply inr_ne.
  - intros c s q Hs. destruct (decide (ptr = q)) as [<-|Hne].
    + rewrite lookup_partial_alter_eq. destruct v; [left; by eexists|]. by destruct (H0 eq_refl c s).
    + rewrite lookup_partial_alter_ne by by apply inr_ne. by eapply A8.
  - intros q v' tx. destruct (decide (ptr = q)) as [<-|Hne].
    + rewrite lookup_partial_alter_eq. apply H1.
    + rewrite lookup_partial_alter_ne by by apply inr_ne. apply A9.
  - intros q tx c s. destruct (decide (ptr = q)) as [<-|Hne].
    + rewrite lookup_partial_alter_eq. intros Hv. by eapply H2.
    + rewrite lookup_partial_alter_ne by by apply inr_ne. apply A10.
  - intros q tx t c s. destruct (decide (ptr = q)) as [<-|Hne].
    + rewrite lookup_partial_alter_eq. apply H3.
    + rewrite lookup_partial_alter_ne by by apply inr_ne. apply A11.
  - by rewrite lookup_partial_alter_ne.
Qed.

Lemma ledger_drop (D : rights) (w : World L) ptr :
  ledger D w -> is_Some (D !! toRun ptr) -> (forall c s, slot c s (udp w) <> Some ptr) ->
  ledger (delete (toRun ptr) D) w.
Proof. intros HL Hp Hs. by apply (ledger_runs D w ptr None). Qed.

Lemma ledger_phase (D : rights) (w : World L) ptr v :
  ledger D w -> is_Some (D !! toRun ptr) ->
  (forall tx, txSeen v = Some tx -> txs (udp w) !! ptr = Some tx) ->
  (forall tx, v <> making tx false) ->
  (forall tx t c s, v = removing tx t -> slot c s (udp w) = Some ptr -> consumers (udp w) !! c = t) ->
  ledger (<[toRun ptr := v]> D) w.
Proof.
  intros HL Hp H1 H2 H3.
  apply (ledger_runs D w ptr (Some v)); [done|done|done| | |].
  - intros v' tx [= <-]. apply H1.
  - intros tx [= He]. by destruct (H2 tx).
  - intros tx t c s [= He]. by apply (H3 tx).
Qed.

(** The transaction made is nobody's, and found nowhere. *)
Lemma ledger_alloc D w tx :
  ledger D w -> udp_inv (udp w) ->
  D !! toRun (nextTx (udp w)) = None /\
  ledger (<[toRun (nextTx (udp w)) := making tx false]> D) (snd (on_udp (allocTx tx) w)).
Proof.
  intros HL Hu. assert (Hn : D !! toRun (nextTx (udp w)) = None).
  { destruct (D !! toRun (nextTx (udp w))) eqn:HD; [|done].
    destruct (led_run _ _ HL (nextTx (udp w))) as [? _]; [by rewrite HD|lia]. }
  split; [done|]. cbn [on_udp allocTx snd].
  assert (Hslot : forall c s, slot c s (udp w) <> Some (nextTx (udp w))).
  { intros c s Hs. apply (inv_slot _ Hu) in Hs as (tx' & Htx & _).
    pose proof (inv_txs _ Hu _ ltac:(by eexists)). lia. }
  destruct HL as [A1 A2 A3 A4 A5 A6 A7 A8 A9 A10 A11 A12 A13]. split; simpl; try done.
  - intros ch. rewrite lookup_insert_ne by done. apply A1.
  - intros q. rewrite lookup_insert. case_decide as He.
    + injection He as <-. intros _. split; [lia|]. intros Hq. specialize (A6 _ Hq). lia.
    + intros Hq. destruct (A5 q Hq). split; [lia|done].
  - intros q Hq. specialize (A6 q Hq). lia.
  - intros c s q Hs. destruct (A8 c s q Hs) as [Hq|Hq]; [left|by right].
    rewrite lookup_insert. case_decide; [by eexists|done].
  - intros q v tx'. rewrite !lookup_insert. case_decide as He.
    + injection He as <-. intros [= <-] [= <-]. by rewrite decide_True.
    + rewrite decide_False by congruence. apply A9.
  - intros q tx' c s. rewrite lookup_insert. case_decide as He; [|apply A10].
    injection He as <-. intros _. apply Hslot.
  - intros q tx' t c s. rewrite lookup_insert. by case_decide; [|apply A11].
  - by rewrite lookup_insert_ne.
Qed.

(** Registering: either the transaction is in, or it is found nowhere and may be forgotten. *)
Lemma ledger_put (D : rights) (w : World L) ptr tx :
  ledger D w -> udp_inv (udp w) -> D !! toRun ptr = Some (making tx false) ->
  Server (udp w) <> None ->
  let '(err, w') := on_udp (PutTransaction ptr tx) w in
  match err with
  | Some _ => ledger (delete (toRun ptr) D) w'
  | None => ledger (<[toRun ptr := making tx true]> D) w'
  end.
Proof.
  intros HL Hu HD Hsrv. unfold on_udp. pose proof (led_tx _ _ HL _ _ tx HD eq_refl) as Htx.
  pose proof (put_spec ptr tx (udp w) Hu Htx) as Hp.
  pose proof (fun c t => put_consumers ptr tx (udp w) c t) as Hcs.
  destruct (PutTransaction ptr tx (udp w)) as [err u]. cbn [snd] in Hcs.
  destruct Hp as (Hu' & Htxs & _ & Hnx & Hs & Hp).
  assert (Hkeep : forall c s q, slot c s (udp w) = Some q -> consumers u !! c = consumers (udp w) !! c).
  { intros c s q. unfold slot. destruct (consumers (udp w) !! c) as [t|] eqn:Hc; [|done].
    intros _. by apply Hcs. }
  destruct (slot (ConsumerAddr tx) (SequenceNumber tx) (udp w)) eqn:Hfree; destruct Hp as [-> Hp].
  - apply ledger_drop; [|by rewrite HD|].
    + eapply ledger_tame; [|exact HL]. apply tame_udp; [done|by rewrite Htxs| |].
      * intros c s q. rewrite Hp. intros Hq. split; [done|by eapply Hkeep].
      * intros _. rewrite Hs. done.
    + intros c s. simpl. rewrite Hp. by apply (led_making _ _ HL _ _ _ _ HD).
  - destruct HL as [A1 A2 A3 A4 A5 A6 A7 A8 A9 A10 A11 A12 A13]. split; simpl; try done.
    + intros ch. rewrite lookup_insert_ne by done. apply A1.
    + intros q Hq. rewrite Hnx. apply A5. rewrite lookup_insert in Hq.
      case_decide as He; [injection He as <-; by rewrite HD|done].
    + rewrite Hnx. apply A6.
    + intros c s q. rewrite Hp, lookup_insert. case_decide as He.
      * intros [= <-]. left. by rewrite decide_True.
      * intros Hq. destruct (A8 c s q Hq); [left|by right]. by case_decide.
    + intros q v tx'. rewrite lookup_insert, Htxs. case_decide as He; [|apply A9].
      injection He as <-. intros [= <-]. simpl. by intros [= <-].
    + intros q tx' c s. rewrite lookup_insert, Hp. case_decide as He; [done|]. intros Hq.
      case_decide; [congruence|by eapply A10].
    + intros q tx' t c s. rewrite lookup_insert, Hp. case_decide as He; [done|]. intros Hq.
      case_decide; [intros [= <-]; by rewrite HD in Hq|]. intros Hslot.
      rewrite (Hkeep c s q Hslot). by eapply A11.
    + rewrite Hs. done.
    + by rewrite lookup_insert_ne.
Qed.

Lemma ledger_go (D : rights) (w : World L) ptr tx b :
  ledger D w -> D !! toRun ptr = Some (making tx b) ->
  ledger (delete (toRun ptr) D) (set_spawned (spawned w ++ [goTxLifeCycle ptr]) w).
Proof.
  intros [A1 A2 A3 A4 A5 A6 A7 A8 A9 A10 A11 A12 A13] HD.
  destruct (A5 ptr ltac:(by rewrite HD)) as [Hlt Hnin].
  assert (Hst : starting (set_spawned (spawned w ++ [goTxLifeCycle ptr]) w) = starting w ++ [ptr])
    by exact (starting_app w (set_spawned (spawned w ++ [goTxLifeCycle ptr]) w) [goTxLifeCycle ptr] eq_refl).
  assert (Hd : forall q v, delete (toRun ptr) D !! toRun q = Some v -> q <> ptr /\ D !! toRun q = Some v).
  { intros q v. rewrite lookup_delete. case_decide; [done|]. split; [congruence|done]. }
  split; rewrite ?Hst; simpl; try done.
  - intros ch. rewrite lookup_delete_ne by done. apply A1.
  - intros q [v Hq]. apply Hd in Hq as [Hne Hq]. destruct (A5 q ltac:(by rewrite Hq)).
    split; [done|]. rewrite elem_of_app, list_elem_of_singleton. naive_solver.
  - intros q. rewrite elem_of_app, list_elem_of_singleton. intros [Hq| ->]; [by apply A6|done].
  - apply NoDup_app. split_and!; [done| |apply NoDup_singleton].
    intros q Hq. rewrite list_elem_of_singleton. by intros ->.
  - intros c s q Hq. rewrite elem_of_app, list_elem_of_singleton, lookup_delete.
    destruct (A8 c s q Hq); [|by auto]. case_decide; [right; right; congruence|by left].
  - intros q v tx' Hq. apply Hd in Hq as [_ Hq]. by eapply A9.
  - intros q tx' c s Hq. apply Hd in Hq as [_ Hq]. by eapply A10.
  - intros q tx' t c s Hq. apply Hd in Hq as [_ Hq]. by eapply A11.
  - by rewrite lookup_delete_ne.
Qed.

(** Where a transaction can be found at all. *)
Lemma slot_tx w ptr tx c s :
  udp_inv (udp w) -> txs (udp w) !! ptr = Some tx -> slot c s (udp w) = Some ptr ->
  c = ConsumerAddr tx /\ s = SequenceNumber tx.
Proof.
  intros Hu Htx Hs. apply (inv_slot _ Hu) in Hs as (tx' & Htx' & <- & <-).
  by rewrite Htx in Htx'; simplify_eq.
Qed.

Lemma ledger_load (D : rights) (w : World L) ptr tx :
  ledger D w -> udp_inv (udp w) -> D !! toRun ptr = Some (running tx) ->
  ledger (<[toRun ptr := removing tx (consumers (udp w) !! ConsumerAddr tx)]> D) w.
Proof.
  intros HL Hu HD. pose proof (led_tx _ _ HL _ _ tx HD eq_refl) as Htx.
  apply ledger_phase; [done|by rewrite HD| |done|].
  - by intros tx' [= <-].
  - intros tx' t c s [= <- <-] Hs. by destruct (slot_tx w ptr tx c s Hu Htx Hs) as [-> _].
Qed.

(** After the removal the transaction is found nowhere. *)
Lemma ledger_remove (D : rights) (w : World L) ptr tx t :
  ledger D w -> udp_inv (udp w) -> D !! toRun ptr = Some (removing tx t) ->
  ledger (delete (toRun ptr) D) (snd (on_udp (TxTable.DeleteIf t (SequenceNumber tx) ptr) w)).
Proof.
  intros HL Hu HD. pose proof (led_tx _ _ HL _ _ tx HD eq_refl) as Htx.
  pose proof (fun c s q => DeleteIf_sub t (SequenceNumber tx) ptr (udp w) c s q) as Hsub.
  assert (Hgone : forall c s, slot c s (snd (TxTable.DeleteIf t (SequenceNumber tx) ptr (udp w))) <> Some ptr).
  { intros c s Hs. destruct (Hsub c s ptr Hs) as [Hs0 _].
    destruct (slot_tx w ptr tx c s Hu Htx Hs0) as [-> ->].
    pose proof (led_found _ _ HL _ _ _ _ _ HD Hs0) as Hc.
    destruct t as [t|]; [|by unfold slot in Hs0; rewrite Hc in Hs0].
    pose proof (DeleteIf_spec _ t (SequenceNumber tx) ptr (udp w) Hu Hc) as Hd.
    destruct (TxTable.DeleteIf (Some t) (SequenceNumber tx) ptr (udp w)) as [b u].
    destruct Hd as (_ & _ & _ & _ & _ & Hd). cbn [snd] in Hs. rewrite Hd in Hs.
    by rewrite decide_True in Hs. }
  unfold on_udp.
  assert (Hrest : let u := snd (TxTable.DeleteIf t (SequenceNumber tx) ptr (udp w)) in
    nextTx u = nextTx (udp w) /\ txs u = txs (udp w) /\ Server u = Server (udp w) /\
    consumers u = consumers (udp w)).
  { unfold TxTable.DeleteIf. destruct t; [|done]. by case_decide. }
  destruct (TxTable.DeleteIf t (SequenceNumber tx) ptr (udp w)) as [b u]. cbn [snd] in *.
  destruct Hrest as (Hn & Ht & Hs & Hc).
  apply ledger_drop; [|by rewrite HD|done]. eapply ledger_tame; [|exact HL].
  apply tame_udp; [done|by rewrite Ht| |by rewrite Hs, Hc]. intros c s q Hq.
  destruct (Hsub c s q Hq) as [? ?]. split; [done|]. by rewrite Hc.
Qed.

(** *** The lock *)

Lemma ledger_record (D : rights) (w w' : World L) :
  chans w' = chans w -> nextChan w' = nextChan w -> txns w' = txns w -> spawned w' = spawned w ->
  udp w' = udp w -> ledger D w ->
  ledger (partial_alter (fun _ => recording <$> upfAddrMutex w') toRecord D) w'.
Proof.
  intros Hc Hn Ht Hs Hu [A1 A2 A3 A4 A5 A6 A7 A8 A9 A10 A11 A12 A13].
  split; unfold starting; intros *; rewrite ?Hc, ?Hn, ?Ht, ?Hs, ?Hu, ?lookup_partial_alter_ne by done;
    eauto.
  apply lookup_partial_alter_eq.
Qed.

Lemma no_server_no_slot (D : rights) (w : World L) c s :
  ledger D w -> Server (udp w) = None -> slot c s (udp w) = None.
Proof. intros HL Hs. unfold slot. by rewrite (led_server _ _ HL Hs), lookup_empty. Qed.
End Ledger.
