(* ===== verification/Custody.v ===== *)
(** * Custody: every goroutine keeps the ledger

    Operation by operation, then program by program: what a goroutine does with the rights of
    [Ledger.v], and that all but those that wait for a datagram, a signal, an answer or a tick can
    always go on -- one that has an association response to store, unless the lock of a node has been
    left. *)

From Stdlib Require Import Strings.Byte Strings.String.
From S2P Require Import Prelude GoNet NodeId Relay RelayTraces UpfAddrs SmfAddr UpfTxns UpfTable.
From S2P Require Import Pfcp Consumers Goroutine Ownership World Udp Handler Forward Process System.
From S2P Require Import SystemInv Ledger.

#[local] Open Scope list_scope.
#[local] Open Scope Z_scope.

Section Operations.
Context `{L : PfcpLib, !MapRange string, !MapRange Z} {live : mode}.

Implicit Types d F : rights.

(** ** Operations on rights *)

(** The channels and their registrations are left alone, or the addresses and their lock. *)
Definition sameChans (w w' : World L) : Prop :=
  chans w' = chans w /\ nextChan w' = nextChan w /\ txns w' = txns w.
Definition sameAddrs (w w' : World L) : Prop :=
  upfAddrsOf w' = upfAddrsOf w /\ upfAddrMutex w' = upfAddrMutex w.

Lemma sends_same d d' (w w' : World L) :
  sameChans w w' -> (forall ch, d' !! toSend ch = d !! toSend ch) -> sends d w d' w'.
Proof.
  intros (Hc & Hn & Ht) Hd. split; intros *; rewrite ?Hc, ?Hn, ?Ht, ?Hd; auto.
Qed.

Lemma deal_channels d d' (w w' : World L) :
  (forall ptr, d' !! toRun ptr = None) -> spawned w' = spawned w -> nextTx (udp w') = nextTx (udp w) ->
  sameAddrs w w' -> sends d w d' w' -> deal d w d' w'.
Proof.
  intros Hi Hs Hn [Ha Hm] Hsd. split; [| | | |exact Hsd|].
  - exists []. rewrite app_nil_r. split; [done|]. intros ptr Hp. by apply elem_of_nil in Hp.
  - intros ptr (tx & b & Hp). by rewrite Hi in Hp.
  - intros ptr [v Hp]. by rewrite Hi in Hp.
  - lia.
  - intros a. left. by eapply accounted_same.
Qed.

Lemma deal_idle d d' (w w' : World L) :
  idle d' -> spawned w' = spawned w -> nextTx (udp w') = nextTx (udp w) -> sameAddrs w w' ->
  sends d w d' w' -> deal d w d' w'.
Proof. intros Hd. by apply deal_channels, idle_run. Qed.

(** A change of phase that does not go back. *)
Lemma deal_phase d ptr v0 v (w w' : World L) :
  d !! toRun ptr = Some v0 -> (forall tx b, v = making tx b -> exists tx' b', v0 = making tx' b') ->
  spawned w' = spawned w -> nextTx (udp w') = nextTx (udp w) -> sameChans w w' -> sameAddrs w w' ->
  deal d w (<[toRun ptr := v]> d) w'.
Proof.
  intros Hd Hv Hs Hn Hsc [Ha Hm].
  split; [| | | |apply sends_same; [done|]; intros ch; by rewrite lookup_insert_ne|].
  - exists []. rewrite app_nil_r. split; [done|]. intros q Hq. by apply elem_of_nil in Hq.
  - intros q (tx & b & Hq). left. rewrite lookup_insert in Hq. case_decide as He.
    + injection He as <-. destruct (Hv tx b) as (tx' & b' & ->); [congruence|]. by exists tx', b'.
    + by exists tx, b.
  - intros q. rewrite lookup_insert. case_decide as He; [injection He as <-; rewrite Hd|]; by left.
  - lia.
  - intros a. left. by eapply accounted_same.
Qed.

(** Giving a right up, not one to send. *)
Lemma deal_give d k (w w' : World L) :
  (forall ch, k <> toSend ch) ->
  spawned w' = spawned w -> nextTx (udp w') = nextTx (udp w) -> sameChans w w' ->
  (forall a, accounted a w -> accounted a w') -> deal d w (delete k d) w'.
Proof.
  intros Hk Hs Hn Hsc Ha. split; [| | | |apply sends_same; [done|]; intros ch;
    by apply lookup_delete_ne|by left; apply Ha].
  - exists []. rewrite app_nil_r. split; [done|]. intros q Hq. by apply elem_of_nil in Hq.
  - intros q (tx & b & Hq). left. exists tx, b. apply lookup_delete_Some in Hq. tauto.
  - intros q [v Hq]. left. exists v. apply lookup_delete_Some in Hq. tauto.
  - lia.
Qed.

(** Taking, changing or giving up a right, for the rights of all. *)
Lemma all_insert d F k (v : phase) : <[k := v]> d ∪ F = <[k := v]> (d ∪ F).
Proof. by rewrite insert_union_l. Qed.

Lemma all_delete d F k : F !! k = None -> delete k d ∪ F = delete k (d ∪ F).
Proof. intros HF. rewrite delete_union. by rewrite (delete_id F). Qed.

Lemma apart_insert d F k (v : phase) : d ##ₘ F -> F !! k = None -> <[k := v]> d ##ₘ F.
Proof. intros Hd HF. by apply map_disjoint_insert_l. Qed.

Lemma apart_delete d F k : d ##ₘ F -> delete k d ##ₘ F.
Proof. apply map_disjoint_delete_l. Qed.

(** What one holds the others do not. *)
Lemma held d F k v : d ##ₘ F -> d !! k = Some v -> (d ∪ F) !! k = Some v /\ F !! k = None.
Proof.
  intros Hd Hk. split; [by apply lookup_union_Some_l|]. by eapply map_disjoint_Some_l.
Qed.

Lemma not_held d F k : (d ∪ F) !! k = None -> d !! k = None /\ F !! k = None.
Proof. apply lookup_union_None. Qed.

Lemma idle_empty : idle ∅.
Proof. split; intros *; by rewrite lookup_empty. Qed.

Lemma idle_make d ch : idle d -> idle (<[toSend ch := sending false]> d).
Proof.
  intros [Hr Hl Ht]. split; [intros ptr; by rewrite lookup_insert_ne|by rewrite lookup_insert_ne|].
  intros ch'. rewrite lookup_insert. by case_decide.
Qed.

Lemma idle_delete d k : idle d -> idle (delete k d).
Proof. intros [Hr Hl Ht]. split; intros *; rewrite lookup_delete; by case_decide. Qed.

(** Given up again. *)
Lemma idle_put_back d k v : idle d -> idle (delete k (<[k := v]> d)).
Proof. intros Hd. rewrite delete_insert_eq. by apply idle_delete. Qed.

(** *** Channels *)

Lemma owns_makeChan d :
  idle d ->
  owns (L := L) live (atomic makeChan) (fun ch d' => idle d' /\ is_Some (d' !! toSend ch)) d.
Proof.
  intros Hd. apply own_atomic. intros w F Hi _ HF Hj.
  destruct (ledger_makeChan _ _ Hj) as [[H1 H2]%not_held Hj'].
  exists (<[toSend (nextChan w) := sending false]> d). rewrite all_insert. split_and!.
  - by apply apart_insert.
  - done.
  - apply deal_idle; [by apply idle_make|done..|]. split; simpl; [| |by auto..|lia].
    + intros ch v. rewrite lookup_insert. case_decide as He; [injection He as <-; auto|auto].
    + intros ch Hch. by destruct (idle_taken _ Hd ch).
  - by apply idle_make.
  - cbn [makeChan fst]. by rewrite lookup_insert_eq.
Qed.

Lemma owns_register s ch d :
  idle d -> is_Some (d !! toSend ch) ->
  owns (L := L) live (insertUpfPfcpTxn s (Some ch)) (fun _ => idle) d.
Proof.
  intros Hd [v Hch]. apply own_atomic. intros w F Hi _ HF Hj.
  destruct (held _ _ _ _ HF Hch) as [Hall HFch]. exists (delete (toSend ch) d).
  rewrite all_delete by done. cbn [fst snd]. split_and!.
  - by apply apart_delete.
  - apply ledger_register; [done|]. by rewrite Hall.
  - apply deal_idle; [by apply idle_delete|done..|]. split; simpl; [| | |by auto|done].
    + intros ch' v' Hv'. apply lookup_delete_Some in Hv' as [_ Hv']. by left.
    + intros ch' Hch'. by destruct (idle_taken _ Hd ch').
    + intros s' ch'. unfold InsertUpfPfcpTxn. rewrite lookup_insert. case_decide; [|by auto].
      intros [= <-]. right. by eexists.
  - by apply idle_delete.
Qed.

Lemma owns_fetch s d :
  idle d ->
  owns (L := L) live (getUpfPfcpTxn s)
    (fun x d' => match x with
                 | Some ch => d' = <[toSend ch := sending true]> d
                 | None => idle d'
                 end) d.
Proof.
  intros Hd. apply own_atomic. intros w F Hi _ HF Hj. unfold on_txns, GetUpfPfcpTxn, txnAt.
  destruct (txns w !! s) as [[ch|]|] eqn:Hs; simpl.
  - destruct (ledger_fetch _ _ _ _ Hj Hs) as [[H1 H2]%not_held Hj'].
    exists (<[toSend ch := sending true]> d). rewrite all_insert. split_and!.
    + by apply apart_insert.
    + done.
    + apply deal_channels; [intros ptr; rewrite lookup_insert_ne by done; by apply idle_run|done..|].
      split; simpl; [| | |by auto|done].
      * intros ch' v. rewrite lookup_insert. case_decide as He; [|by auto]. injection He as <-.
        intros [= <-]. right. right. split; [done|]. exists s. by rewrite lookup_delete_eq.
      * intros ch' Hch'. by destruct (idle_taken _ Hd ch').
      * intros s' ch'. rewrite lookup_delete. case_decide; [done|by auto].
    + done.
  - exists d. split_and!; [done| |by apply deal_idle; [..|apply sends_same]|done]. by destruct w.
  - exists d. split_and!; [done| |by apply deal_idle; [..|apply sends_same]|done]. by destruct w.
Qed.

Lemma owns_sendChan ch rsp d0 d :
  idle d0 -> d = <[toSend ch := sending true]> d0 ->
  owns (L := L) live (sendChan ch rsp) (fun _ => idle) d.
Proof.
  intros Hd0 ->. set (d := <[toSend ch := sending true]> d0).
  assert (Hch : d !! toSend ch = Some (sending true)) by apply lookup_insert_eq.
  assert (Hidle : idle (delete (toSend ch) d)) by by apply idle_put_back.
  apply own_select.
  - intros _. exists 0. intros F w _ HF Hj _ _. destruct (held _ _ _ _ HF Hch) as [Hall _].
    destruct (led_send _ _ Hj ch ltac:(by rewrite Hall)) as (_ & He & _).
    apply Exists_cons_hd. rewrite He. by eexists.
  - apply Forall_singleton. intros w. destruct (chans w !! ch) eqn:He; [done|].
    intros F Hi _ HF Hj. destruct (held _ _ _ _ HF Hch) as [Hall HFch].
    exists (delete (toSend ch) d). rewrite all_delete by done. split_and!.
    + by apply apart_delete.
    + apply ledger_send; [done|]. by rewrite Hall.
    + apply deal_idle; [done..|]. split; simpl; [| |by auto| |done].
      * intros ch' v' Hv'. apply lookup_delete_Some in Hv' as [_ Hv']. by left.
      * intros ch' Hv'. destruct (decide (ch' = ch)) as [->|Hne].
        { right. rewrite lookup_insert_eq. by eexists. }
        left. rewrite lookup_delete_ne by congruence. done.
      * intros ch'. rewrite lookup_insert. case_decide; [|by auto]. subst ch'. right. by eexists.
    + done.
Qed.

(** *** Transactions *)

Lemma owns_alloc tx d :
  idle d ->
  owns (L := L) live (atomic (on_udp (allocTx tx)))
    (fun ptr d' => d' = <[toRun ptr := making tx false]> d) d.
Proof.
  intros Hd. apply own_atomic. intros w F Hi _ HF Hj.
  destruct (ledger_alloc _ _ tx Hj (winv_udp _ Hi)) as [[H1 H2]%not_held Hj'].
  exists (<[toRun (nextTx (udp w)) := making tx false]> d). rewrite all_insert. split_and!.
  - by apply apart_insert.
  - done.
  - split; simpl; [| | | |apply sends_same; [done|]; intros ch; by rewrite lookup_insert_ne|by left].
    + exists []. rewrite app_nil_r. split; [done|]. intros q Hq. by apply elem_of_nil in Hq.
    + intros q (tx' & b & Hq). right. rewrite lookup_insert in Hq.
      case_decide as He; [by injection He as <-|by rewrite idle_run in Hq].
    + intros q [v Hq]. right. rewrite lookup_insert in Hq.
      case_decide as He; [by injection He as <-|by rewrite idle_run in Hq].
    + lia.
  - done.
Qed.

Lemma owns_put ptr tx d0 d :
  idle d0 -> d = <[toRun ptr := making tx false]> d0 ->
  owns (L := L) live (putTransaction ptr tx)
    (fun err d' => match err with
                   | Some _ => idle d'
                   | None => d' = <[toRun ptr := making tx true]> d0
                   end) d.
Proof.
  intros Hd0 Hd. assert (Hp : d !! toRun ptr = Some (making tx false)) by (subst; by rewrite lookup_insert_eq).
  apply own_attempt. intros w. destruct (Server (udp w)) as [srv|] eqn:Hs.
  - destruct (on_udp (PutTransaction ptr tx) w) as [err w'] eqn:He. intros F Hi _ HF Hj.
    destruct (held _ _ _ _ HF Hp) as [Hall HFp].
    pose proof (ledger_put _ _ ptr tx Hj (winv_udp _ Hi) Hall ltac:(by rewrite Hs)) as Hput.
    rewrite He in Hput. unfold on_udp in He. pose proof (put_rest ptr tx (udp w)) as (_ & _ & _ & Hnx).
    destruct (PutTransaction ptr tx (udp w)) as [err' u]. simplify_eq/=. destruct err as [e|].
    + exists (delete (toRun ptr) (<[toRun ptr := making tx false]> d0)).
      rewrite all_delete by done. split_and!; [by apply apart_delete|done|by apply deal_give|].
      by apply idle_put_back.
    + exists (<[toRun ptr := making tx true]> (<[toRun ptr := making tx false]> d0)).
      rewrite all_insert. split_and!; [by apply apart_insert|done| |by rewrite insert_insert_eq].
      eapply deal_phase; [done| |done..]. intros tx' b [= <- <-]. by eexists _, _.
  - intros F Hi _ HF Hj. destruct (held _ _ _ _ HF Hp) as [Hall HFp]. exists (delete (toRun ptr) d).
    rewrite all_delete by done. split_and!; [by apply apart_delete| |by apply deal_give|].
    + apply ledger_drop; [done|by rewrite Hall|]. intros c s. by rewrite (no_server_no_slot _ _ c s Hj Hs).
    + subst d. by apply idle_put_back.
Qed.

Lemma owns_go ptr tx d0 d :
  idle d0 -> d = <[toRun ptr := making tx true]> d0 ->
  owns (L := L) live (go (goTxLifeCycle ptr)) (fun _ => idle) d.
Proof.
  intros Hd0 Hd. assert (Hp : d !! toRun ptr = Some (making tx true)) by (subst; by rewrite lookup_insert_eq).
  apply own_atomic. intros w F Hi _ HF Hj. destruct (held _ _ _ _ HF Hp) as [Hall HFp].
  exists (delete (toRun ptr) d). rewrite all_delete by done. cbn [fst snd].
  assert (Hidle : idle (delete (toRun ptr) d)) by (subst; by apply idle_put_back).
  split_and!; [by apply apart_delete|by eapply ledger_go| |done].
  split; simpl; [| | | |apply sends_same; [done|]; intros ch; by apply lookup_delete_ne|by left].
  - exists [goTxLifeCycle ptr]. split; [done|]. intros q. simpl. rewrite list_elem_of_singleton.
    intros ->. by exists tx, true.
  - intros q (tx' & b & Hq). by rewrite idle_run in Hq.
  - intros q [v Hq]. by rewrite idle_run in Hq.
  - lia.
Qed.

Lemma tidy_SendPfcp msg addr ev : tidy (L := L) live (SendPfcp msg addr ev).
Proof.
  unfold SendPfcp. apply tidy_bind; [apply tidy_read|]. intros [srv|]; [|apply tidy_ret].
  destruct (ServerConn srv) as [conn|]; [|apply tidy_ret]. destruct (Marshal msg) as [b|e];
    [|apply tidy_ret]. cbv zeta. intros d Hd. apply own_bind.
  eapply own_mono; [|by apply owns_alloc]. intros ptr d1 Hd1. unfold registerAndStart.
  apply own_bind. eapply own_mono; [|by eapply owns_put]. intros [e|] d2 Hd2; [done|].
  apply own_bind. eapply own_mono; [|by eapply owns_go]. done.
Qed.
End Operations.

(** ** Programs that need no right and do not wait *)

Section Steady.
Context `{L : PfcpLib, !MapRange string, !MapRange Z}.

Abbreviation prog := (prog (World L)).

(** Whatever rights it is run with, it ends with, and it never waits for others. *)
Definition steady {A} (p : prog A) : Prop := forall live d, owns live p (fun _ d' => d' = d) d.

Lemma steady_ret {A} (a : A) : steady (Ret a).
Proof. by intros live d. Qed.

Lemma steady_bind {A B} (p : prog A) (k : A -> prog B) :
  steady p -> (forall a, steady (k a)) -> steady (bind p k).
Proof.
  intros Hp Hk live d. apply own_bind. eapply own_mono; [|apply Hp]. intros a d' ->. apply Hk.
Qed.

Lemma steady_read {A} (op : World L -> A) : steady (read op).
Proof. intros live d. apply own_atomic. intros w. apply hands_tame; [|done]. intros _. apply tame_refl. Qed.

Lemma steady_select {A} (cases : list (World L -> option (A * World L))) t :
  (forall w, t <= clock w -> Exists (fun ready => is_Some (ready w)) cases) ->
  Forall (fun ready => forall w, match ready w with Some (_, w') => tame w w' | None => True end) cases ->
  steady (select cases).
Proof.
  intros Hp Hc live d. apply own_select; [intros _; exists t; auto|].
  eapply Forall_impl; [exact Hc|]. intros ready Hr w. specialize (Hr w).
  destruct (ready w) as [[a w']|]; [|done]. by apply hands_tame.
Qed.

Lemma steady_tidy {A} (p : prog A) live : steady p -> tidy live p.
Proof. intros Hp d Hd. eapply own_mono; [|apply Hp]. by intros a d' ->. Qed.

Lemma steady_write b addr : steady (writeToUDP b addr).
Proof.
  apply (steady_select _ 0).
  - intros w _. apply Exists_cons_hd. by eexists.
  - repeat first [apply Forall_nil_2 | apply Forall_cons_2]; intros w; by apply tame_frame.
Qed.

Lemma steady_waitEvent ptr timer : steady (waitEvent ptr timer).
Proof.
  apply (steady_select _ timer).
  - intros w Ht. apply Exists_cons_tl, Exists_cons_hd. apply Z.leb_le in Ht. rewrite Ht. by eexists.
  - repeat first [apply Forall_nil_2 | apply Forall_cons_2]; intros w.
    + unfold takeEvent. destruct (events (udp w) !! ptr); [by apply tame_udp|done].
    + destruct (timer <=? clock w); [apply tame_refl|done].
Qed.

Lemma steady_startRequest iter ptr tx : steady (startRequest iter ptr tx).
Proof.
  induction iter as [|iter IH]; cbn [startRequest]; [apply steady_ret|].
  apply steady_bind; [apply steady_read|]. intros t. apply steady_bind; [apply steady_write|].
  intros [e|]; [apply steady_ret|]. apply steady_bind; [apply steady_waitEvent|].
  intros [[]|]; [done|apply steady_ret|done].
Qed.

Lemma steady_startResponse iter timer ptr tx : steady (startResponse iter timer ptr tx).
Proof.
  revert timer. induction iter as [|iter IH]; intros timer; cbn [startResponse]; [apply steady_ret|].
  apply steady_bind; [apply steady_write|]. intros [e|]; [apply steady_ret|].
  apply steady_bind; [apply steady_waitEvent|]. intros [[]|]; [|done|apply steady_ret].
  apply steady_bind; [apply steady_read|]. intros t. apply IH.
Qed.

(** The running of a transaction, timers and all. *)
Lemma steady_Start ptr tx : steady (Start ptr tx).
Proof.
  unfold Start. destruct (TxType tx); [apply steady_startRequest|].
  apply steady_bind; [apply steady_read|]. intros t. apply steady_startResponse.
Qed.
End Steady.

(** ** Operations that need no right *)

Section Tame.
Context `{L : PfcpLib, !MapRange string, !MapRange Z} {live : mode}.

Abbreviation prog := (prog (World L)).

Lemma tidy_frame (op : World L -> World L) :
  (forall w, chans (op w) = chans w /\ nextChan (op w) = nextChan w /\ txns (op w) = txns w /\
     spawned (op w) = spawned w /\ udp (op w) = udp w /\ upfAddrsOf (op w) = upfAddrsOf w /\
     upfAddrMutex (op w) = upfAddrMutex w) ->
  tidy live (modify op).
Proof. intros Hop. apply tidy_modify. intros w _. apply tame_frame; apply Hop. Qed.

Lemma tidy_relays {A} (op : Relays -> A * Relays) : tidy (L := L) live (atomic (on_relays op)).
Proof.
  apply tidy_atomic. intros w _. unfold on_relays. destruct (op (relays w)). by apply tame_frame.
Qed.

Lemma tidy_take k : tidy (L := L) live (takeReportRelay k).
Proof.
  apply tidy_atomic. intros w _. unfold on_relays. destruct (TakeReportRelay _ _ _).
  by apply tame_frame.
Qed.

Lemma tidy_forget k : tidy (L := L) live (forgetReportRelay k).
Proof. by apply tidy_frame. Qed.

Lemma tidy_forgetTxn s ch : tidy (L := L) live (forgetUpfPfcpTxn s ch).
Proof.
  apply tidy_modify. intros w _. split; try done; simpl.
  - intros s' ch'. unfold ForgetUpfPfcpTxn. destruct (txns w !! s); [|done].
    case_decide; [done|]. rewrite lookup_delete. by case_decide.
  - exists []. by rewrite app_nil_r.
Qed.

Lemma tidy_go g : txOf g = None -> tidy (L := L) live (go g).
Proof. intros Hg. apply tidy_modify. intros w _. by apply tame_spawn. Qed.

Lemma tidy_offer ptr e : tidy (L := L) live (modify (fun w => set_udp (offerEvent ptr e (udp w)) w)).
Proof.
  apply tidy_modify. intros w _. unfold offerEvent. destruct (events (udp w) !! ptr); by apply tame_udp.
Qed.

Lemma tidy_write b addr : tidy (L := L) live (writeToUDP b addr).
Proof. apply steady_tidy, steady_write. Qed.

Lemma tidy_waitEvent ptr timer : tidy (L := L) live (waitEvent ptr timer).
Proof. apply steady_tidy, steady_waitEvent. Qed.

Lemma tidy_resolve n : tidy (L := L) live (attempt (resolve n)).
Proof.
  apply tidy_attempt. intros w _. unfold resolve.
  destruct (ResolveNodeIdToIp _ _ _) as [[ip cache]|]; [by apply tame_frame|done].
Qed.

Lemma tidy_activate n : tidy (L := L) live (activateUpfNode n).
Proof.
  apply tidy_bind; [apply tidy_read|]. intros [k|]; [|apply tidy_ret].
  apply tidy_bind; [|intros; apply tidy_ret]. by apply tidy_frame.
Qed.

Lemma tidy_preserve upf rsp :
  (must_go live = true -> bothered live = true) ->
  tidy (L := L) live (preservePfcpAssociationRsp upf rsp).
Proof.
  intros Hl. apply tidy_bind.
  - apply tidy_attempt. intros w _.
    destruct (PreservePfcpAssociationRsp _ _ _) as [[t|]|]; [by apply tame_frame..|done].
  - intros [|]; [apply tidy_ret|]. apply tidy_bind; [|intros; apply tidy_lift]. apply tidy_select.
    + intros Hm. exists 0. intros w _ Hfree _. apply Exists_cons_hd.
      pose proof (preserve_free upf rsp (upfs w) (Hfree (Hl Hm))).
      destruct (PreservePfcpAssociationRsp _ _ _) as [[t|]|]; [by eexists|done|by eexists].
    + apply Forall_singleton. intros w.
      destruct (PreservePfcpAssociationRsp _ _ _) as [[t|]|]; [by apply tame_frame|done|apply tame_refl].
Qed.

Lemma tidy_insertUpfNode n : tidy (L := L) live (insertUpfNode n).
Proof.
  apply tidy_attempt. intros w _. destruct (InsertUpfNode _ _ _ _) as [[cache t]|]; [by apply tame_frame|done].
Qed.

Lemma tidy_isKnownUpfAddr ip : tidy (L := L) live (isKnownUpfAddr ip).
Proof.
  unfold isKnownUpfAddr. case_decide; [apply tidy_ret|]. apply tidy_select.
  - intros _. exists 0. intros w Hm _ _. apply Exists_cons_hd. rewrite Hm. by eexists.
  - apply Forall_singleton. intros w. destruct (upfAddrMutex w); [done|]. apply tame_refl.
Qed.

(** *** The lock *)

(** Taking the lock, going on with it, or giving it back. *)
Lemma hands_record {A} (Q : A -> rights -> Prop) d a m (w w' : World L) :
  upfAddrMutex w = None \/ is_Some (d !! toRecord) ->
  chans w' = chans w -> nextChan w' = nextChan w -> txns w' = txns w -> spawned w' = spawned w ->
  udp w' = udp w -> upfAddrMutex w' = m ->
  (world_inv w -> d !! toRecord = None \/ d !! toRecord = recording <$> upfAddrMutex w ->
   forall b, accounted b w ->
     accounted b w' \/ relays w' = ForgetRelaysForHost b (clock w) (relays w)) ->
  Q a (partial_alter (fun _ => recording <$> m) toRecord d) -> hands Q d a w w'.
Proof.
  intros Hopen Hc Hn Ht Hs Hu Hm Ha HQ F Hi _ HF Hj. pose proof (led_lock _ _ Hj) as Hl.
  assert (HFn : F !! toRecord = None /\ (d !! toRecord = None \/ d !! toRecord = recording <$> upfAddrMutex w)).
  { destruct Hopen as [Hfree|[v Hv]].
    - rewrite Hfree in Hl. apply lookup_union_None in Hl as [Hd HFn]. auto.
    - destruct (held _ _ _ _ HF Hv) as [Hv' HFn]. split; [done|right]. congruence. }
  destruct HFn as [HFn Hd].
  exists (partial_alter (fun _ => recording <$> m) toRecord d). split_and!; [| | |done].
  - apply map_disjoint_spec. intros k v1 v2. destruct (decide (k = toRecord)) as [->|Hk].
    + intros _ H2. congruence.
    + rewrite lookup_partial_alter_ne by done. intros H1 H2. by eapply map_disjoint_spec.
  - pose proof (ledger_record _ w w' Hc Hn Ht Hs Hu Hj) as Hj'. rewrite Hm in Hj'.
    replace (partial_alter _ toRecord d ∪ F) with
      (partial_alter (fun _ => recording <$> m) toRecord (d ∪ F)); [done|].
    apply map_eq. intros k. destruct (decide (k = toRecord)) as [->|Hk].
    + rewrite lookup_partial_alter_eq. by rewrite lookup_union_l, lookup_partial_alter_eq.
    + by rewrite lookup_partial_alter_ne, !lookup_union, lookup_partial_alter_ne.
  - split.
    + exists []. rewrite Hs, app_nil_r. split; [done|]. intros q Hq. by apply elem_of_nil in Hq.
    + intros q (tx & b & Hq). left. exists tx, b. by rewrite lookup_partial_alter_ne in Hq.
    + intros q. rewrite lookup_partial_alter_ne by done. by left.
    + by rewrite Hu.
    + apply sends_same; [done|]. intros ch. by rewrite lookup_partial_alter_ne.
    + intros b. by apply Ha.
Qed.

(** The rights of one who holds the lock, before it had it being [d0]. *)
Definition withLock (l : list string) (d0 d : rights) : Prop := d = <[toRecord := recording l]> d0.

Lemma owns_lock t ip node d0 :
  idle d0 -> owns (L := L) live (lockAndRecord t ip node) (fun l d => withLock l d0 d) d0.
Proof.
  intros Hd. apply own_select.
  - intros _. exists 0. intros F w _ _ _ [Ho _] _. apply Exists_cons_hd.
    rewrite (idle_open _ _ Hd Ho). destruct (recordUpfAddrLocked _ _ _ _). by eexists.
  - apply Forall_singleton. intros w. destruct (upfAddrMutex w) eqn:Hm; [done|].
    pose proof (record_spec (Peers0 := listed) t ip node (upfAddrsOf w) []) as Hrec.
    destruct (recordUpfAddrLocked t ip node (upfAddrsOf w, [])) as [u l].
    apply (hands_record _ _ _ (Some l)); [by left|done..| |done].
    intros Hi _ b [Hb|(l' & Hl' & _)]; [|congruence]. left.
    destruct (Hrec (winv_addrs _ Hi)) as (_ & _ & _ & rel & Hrel & _ & Hin).
    rewrite releaseAll_listed in Hrel. simpl in Hrel, Hin. subst rel.
    destruct (decide (b ∈ l)) as [Hbl|Hbl]; [right; by exists l|left]. simpl.
    destruct (upfAddrs u !! b) eqn:Hu; [by eexists|]. destruct Hbl. apply Hin. split; [done|].
    unfold nodesAt at 2. rewrite Hu. set_solver.
Qed.

Lemma owns_releaseEach l d0 d :
  idle d0 -> withLock l d0 d -> owns (L := L) live (releaseEach l) (fun _ => withLock [] d0) d.
Proof.
  revert d. induction l as [|a l IH]; intros d Hd0 Hd; [done|].
  unfold_release.
  assert (Hin : d !! toRecord = Some (recording (a :: l))) by (unfold withLock in Hd; subst; by rewrite lookup_insert_eq).
  apply own_bind, own_atomic. intros w. cbn [fst snd]. apply (hands_record _ _ _ (Some l)); [|done..| |].
  - right. by rewrite Hin.
  - intros _ [Hd'|Hd'] b; [congruence|]. rewrite Hin in Hd'.
    destruct (upfAddrMutex w) as [l0|] eqn:Hm; simplify_eq/=.
    intros [Hb|(l' & Hl' & Hb)]; [by left; left|]. rewrite Hm in Hl'. injection Hl' as <-.
    apply elem_of_cons in Hb as [->|Hb]; [by right|]. left. right. by exists l.
  - apply own_bind, own_atomic. intros w'. apply hands_tame; [intros Hi; by apply tame_ForgetConsumer, Hi|].
    apply IH; [done|]. unfold withLock in *. subst d. apply map_eq. intros k.
    destruct (decide (k = toRecord)) as [->|Hk].
    + by rewrite lookup_partial_alter_eq, lookup_insert_eq.
    + by rewrite lookup_partial_alter_ne, !lookup_insert_ne by done.
Qed.

Lemma owns_unlock d0 d :
  idle d0 -> withLock [] d0 d -> owns (L := L) live unlockUpfAddrs (fun _ => idle) d.
Proof.
  intros [Hr Hl Ht] ->. apply own_atomic. intros w.
  apply (hands_record _ _ _ None); [|done..| |].
  - right. by rewrite lookup_insert_eq.
  - intros _. rewrite lookup_insert_eq. intros [|Hm] b; [done|].
    destruct (upfAddrMutex w) as [l0|] eqn:Hw; simplify_eq/=.
    intros [Hb|(l' & Hl' & Hb)]; [by left; left|]. rewrite Hw in Hl'. injection Hl' as <-.
    by apply elem_of_nil in Hb.
  - split; [|apply lookup_partial_alter_eq|]; intros q; by rewrite lookup_partial_alter_ne, lookup_insert_ne.
Qed.

Lemma tidy_recordUpfAddr n : tidy (L := L) live (recordUpfAddr n).
Proof.
  unfold recordUpfAddr, now. apply tidy_bind; [apply tidy_read|]. intros t.
  apply tidy_bind; [apply tidy_resolve|]. intros ip d Hd.
  apply own_bind. eapply own_mono; [|by apply owns_lock]. intros l d1 Hd1.
  apply own_bind. eapply own_mono; [|by eapply owns_releaseEach]. intros u d2 Hd2.
  by eapply owns_unlock.
Qed.

Lemma tidy_onProc f : tidy (L := L) live (onProc f).
Proof. by apply tidy_frame. Qed.

Lemma tidy_refresh : tidy (L := L) live refresh.
Proof.
  apply tidy_attempt. intros w _. destruct (RefreshDnsHostIpCache _ _); [by apply tame_frame|done].
Qed.

(** Sending an answer for the SMF where a channel waits for it. *)
Lemma tidy_answer {A} s rsp (done none : A) :
  tidy (L := L) live
    (let! ch := getUpfPfcpTxn s in
     match ch with
     | None => Ret none
     | Some ch => sendChan ch rsp ;;; Ret done
     end)%go.
Proof.
  intros d Hd. apply own_bind. eapply own_mono; [|by apply owns_fetch].
  intros [ch|] d1 Hd1; [|done]. apply own_bind.
  eapply own_mono; [|by eapply owns_sendChan]. done.
Qed.
End Tame.

Create HintDb tidy.
#[export] Hint Resolve tidy_ret tidy_read tidy_deref tidy_lift tidy_relays tidy_take tidy_forget
  tidy_forgetTxn tidy_offer tidy_write tidy_waitEvent tidy_resolve tidy_activate
  tidy_insertUpfNode tidy_isKnownUpfAddr tidy_recordUpfAddr tidy_onProc tidy_refresh tidy_SendPfcp tidy_answer
  tidy_recovered : tidy.
#[export] Hint Extern 1 (tidy _ (go _)) => by apply tidy_go : tidy.

(** Goes through a program, one operation at a time. *)
Ltac tidy_step :=
  match goal with
  | |- tidy _ (match ?x with _ => _ end) => destruct x
  | |- tidy _ (if ?b then _ else _) => destruct b
  | |- tidy _ (let '(_, _) := ?x in _) => destruct x
  | |- tidy _ _ => solve [auto with tidy]
  | |- tidy _ (bind _ _) => apply tidy_bind; [|intros]
  end.
Ltac tidy_all := repeat (cbv zeta; tidy_step).

(** ** Programs *)

Section Programs.
Context `{L : PfcpLib, !MapRange string, !MapRange Z} {live : mode}.

Lemma tidy_findTransaction msg addr : tidy (L := L) live (findTransaction msg addr).
Proof. unfold findTransaction, server, loadConsumer, loadTx. tidy_all. Qed.

Hint Resolve tidy_findTransaction : tidy.

Lemma tidy_deliver msg addr srvAddr : tidy (L := L) live (deliver msg addr srvAddr).
Proof. unfold deliver. tidy_all. Qed.

Lemma tidy_encodeAndSendRsp msg : tidy (L := L) live (encodeAndSendRsp msg).
Proof. unfold encodeAndSendRsp. tidy_all. Qed.

Lemma tidy_sendErrRsp msg err : tidy (L := L) live (sendErrRsp msg err).
Proof.
  unfold sendErrRsp. intros d Hd. apply own_bind. eapply own_mono; [|by apply owns_fetch].
  intros [ch|] d1 Hd1; [by eapply owns_sendChan|done].
Qed.

Lemma tidy_refuse seid s a k : tidy (L := L) live (refuseAndRelease seid s a k).
Proof. unfold refuseAndRelease, rejectSessionReport. tidy_all. Qed.

Hint Resolve tidy_deliver tidy_encodeAndSendRsp tidy_sendErrRsp tidy_refuse : tidy.

Lemma tidy_relayAttempts n report smf seid s a k :
  tidy (L := L) live (relayAttempts n report smf seid s a k).
Proof.
  revert report k. induction n as [|n IH]; intros report k; cbn [relayAttempts]; tidy_all.
Qed.

Hint Resolve tidy_relayAttempts : tidy.

(** Only the lock of a node may keep the dispatch of an association response waiting. *)
Lemma tidy_Dispatch msg a :
  (MessageType msg = AssociationSetupResponse -> must_go live = true -> bothered live = true) ->
  tidy (L := L) live (Dispatch msg a).
Proof.
  intros Hm. pose proof (fun upf rsp => tidy_preserve (L := L) (live := live) upf rsp) as Hp.
  unfold Dispatch, HandlePfcpHeartbeatResponse, HandlePfcpAssociationSetupResponse,
    HandlePfcpSessionEstablishmentResponse, HandlePfcpSessionModificationResponse,
    HandlePfcpSessionDeletionResponse, HandlePfcpSessionReportRequest,
    HandlePfcpSessionReportResponse, rejectSessionReport, now.
  destruct (MessageType msg); try specialize (fun upf rsp => Hp upf rsp (Hm eq_refl)); tidy_all.
Qed.

Lemma tidy_callErrHandler f msg err : tidy (L := L) live (callErrHandler f msg err).
Proof. unfold callErrHandler, HandlePfcpSendError, relayUnanswered. tidy_all. Qed.

(** *** The life of a transaction *)

Implicit Types d : rights.

(** The right to run [ptr], and nothing else to run. *)
Definition runs (ptr : nat) (v : phase) d : Prop :=
  d !! toRun ptr = Some v /\ idle (delete (toRun ptr) d).

Lemma runs_idle ptr v d : runs ptr v d -> idle (delete (toRun ptr) d).
Proof. by intros []. Qed.

Lemma runs_phase ptr v v' d : runs ptr v d -> runs ptr v' (<[toRun ptr := v']> d).
Proof. intros [_ Hd]. split; [by rewrite lookup_insert_eq|]. by rewrite delete_insert_eq. Qed.

(** A look at the state, after which the right is in another phase, or not needed. *)
Lemma hands_phase {A} (Q : A -> rights -> Prop) ptr v0 v d a (w : World L) :
  runs ptr v0 d -> (forall tx b, v <> making tx b) ->
  (forall D, world_inv w -> ledger D w -> D !! toRun ptr = Some v0 -> ledger (<[toRun ptr := v]> D) w) ->
  (forall d', runs ptr v d' -> Q a d') -> hands Q d a w w.
Proof.
  intros Hr Hv Hl HQ F Hi _ HF Hj. destruct (held _ _ _ _ HF (proj1 Hr)) as [Hall HFp].
  exists (<[toRun ptr := v]> d). rewrite all_insert. split_and!.
  - by apply apart_insert.
  - by apply Hl.
  - eapply deal_phase; [apply Hr| |done..]. intros tx b ->. by destruct (Hv tx b).
  - by eapply HQ, runs_phase.
Qed.

Lemma hands_drop {A} (Q : A -> rights -> Prop) ptr v d a (w w' : World L) :
  runs ptr v d -> spawned w' = spawned w -> nextTx (udp w') = nextTx (udp w) -> sameChans w w' ->
  sameAddrs w w' ->
  (forall D, world_inv w -> ledger D w -> D !! toRun ptr = Some v -> ledger (delete (toRun ptr) D) w') ->
  (forall d', idle d' -> Q a d') -> hands Q d a w w'.
Proof.
  intros Hr Hs Hn Hsc [Ha Hm] Hl HQ F Hi _ HF Hj. destruct (held _ _ _ _ HF (proj1 Hr)) as [Hall HFp].
  exists (delete (toRun ptr) d). rewrite all_delete by done. split_and!.
  - by apply apart_delete.
  - by apply Hl.
  - apply deal_give; [done..|]. intros b. by apply accounted_same.
  - by eapply HQ, runs_idle.
Qed.

Lemma owns_removeTransaction ptr tx d :
  runs ptr (running tx) d ->
  owns (L := L) live (removeTransaction ptr tx) (fun _ => idle) d.
Proof.
  intros Hd. unfold removeTransaction, server, loadConsumer. apply own_bind, own_atomic. intros w.
  cbn [fst snd]. destruct (Server (udp w)) as [srv|] eqn:Hs.
  - apply hands_tame; [intros _; apply tame_refl|]. apply own_bind, own_atomic. intros w2.
    eapply (hands_phase _ ptr _ (removing tx (consumers (udp w2) !! ConsumerAddr tx))); [done|done| |].
    { intros D Hi Hj HD. by apply ledger_load; [|apply winv_udp|]. }
    intros d2 Hd2. apply own_bind, own_atomic. intros w3.
    eapply hands_drop; [done| | | | |intros D Hi Hj HD; by apply ledger_remove; [|apply winv_udp|]|].
    + unfold on_udp. by destruct (TxTable.DeleteIf _ _ _ _).
    + unfold on_udp, TxTable.DeleteIf, ConsumerTable.Load. cbn [fst].
      destruct (consumers (udp w2) !! ConsumerAddr tx); [|done]. by case_decide.
    + unfold on_udp. by destruct (TxTable.DeleteIf _ _ _ _).
    + unfold on_udp. by destruct (TxTable.DeleteIf _ _ _ _).
    + intros d3 Hd3. by destruct (fst _).
  - eapply hands_drop; [done..| |].
    + intros D Hi Hj HD. apply ledger_drop; [done|by rewrite HD|]. intros c s.
      by rewrite (no_server_no_slot _ _ c s Hj Hs).
    + by intros d2 Hd2.
Qed.

Lemma owns_startTxLifeCycle ptr tx d :
  runs ptr (running tx) d ->
  owns (L := L) live (startTxLifeCycle ptr tx) (fun _ => idle) d.
Proof.
  intros Hd. unfold startTxLifeCycle. apply own_bind. eapply own_mono; [|apply steady_Start].
  intros sendErr d1 ->. apply own_bind. eapply own_mono; [|by apply owns_removeTransaction].
  intros a d2 Hd2. destruct sendErr as [err|]; [|done].
  destruct (EventData tx ≫= ErrHandler) as [f|]; [|done].
  destruct (Parse (SendMsg tx)) as [msg|e]; [|done]. by apply tidy_callErrHandler.
Qed.

Lemma owns_lifeCycle e ptr d :
  runs ptr started d -> owns live (goCode (L := L) e (goTxLifeCycle ptr)) (fun _ => idle) d.
Proof.
  intros Hd. cbn [goCode]. apply own_bind, own_atomic. intros w. cbn [fst snd].
  destruct (txs (udp w) !! ptr) as [tx|] eqn:Htx.
  - apply (hands_phase _ ptr started (running tx)); [done|done| |].
    + intros D Hi Hj HD. apply ledger_phase; [done|by rewrite HD| |done|done]. by intros tx' [= <-].
    + intros d1 Hd1. by apply owns_startTxLifeCycle.
  - eapply hands_drop; [done..| |].
    + intros D Hi Hj HD. apply ledger_drop; [done|by rewrite HD|]. intros c s Hs.
      apply (inv_slot _ (winv_udp _ Hi)) in Hs as (tx' & Htx' & _). congruence.
    + by intros d1 Hd1.
Qed.
End Programs.

(** *** Requests of the SMF, and the process *)

Section Requests.
Context `{L : PfcpLib, !MapRange string, !MapRange Z} {b : bool}.

Implicit Types d : rights.

(** With the right to send into [ch] at the start, and nothing at the end. *)
Definition entrusted (ch : nat) {A} (p : prog (World L) A) : Prop :=
  forall d, idle d -> is_Some (d !! toSend ch) -> owns (patient b) p (fun _ => idle) d.

Lemma entrusted_tidy ch {A} (p : prog (World L) A) : tidy (patient b) p -> entrusted ch p.
Proof. intros Hp d Hd _. by apply Hp. Qed.

Lemma entrusted_read ch {A B} (op : World L -> A) (k : A -> prog (World L) B) :
  (forall a, entrusted ch (k a)) -> entrusted ch (bind (read op) k).
Proof.
  intros Hk d Hd Hch. apply own_bind. eapply own_mono; [|apply steady_read]. intros a d' ->. by apply Hk.
Qed.

Lemma entrusted_insertUpfNode ch n {B} (k : unit -> prog (World L) B) :
  (forall a, entrusted ch (k a)) -> entrusted ch (bind (insertUpfNode n) k).
Proof.
  intros Hk d Hd Hch. apply own_bind, own_attempt. intros w.
  destruct (InsertUpfNode _ _ _ _) as [[cache t]|]; apply hands_tame.
  - intros _. by apply tame_frame.
  - by apply Hk.
  - intros _. apply tame_refl.
  - done.
Qed.

Lemma entrusted_lift ch {A B} (x : outcome A) (k : A -> prog (World L) B) :
  (forall a, entrusted ch (k a)) -> entrusted ch (bind (lift x) k).
Proof. intros Hk. destruct x as [a|]; simpl; [apply Hk|]. by intros d Hd _. Qed.

Lemma entrusted_register ch req send {B} (k : option error -> prog (World L) B) :
  tidy (patient b) (send req) -> (forall err, tidy (patient b) (k err)) ->
  entrusted ch (bind (registerAndSend ch req send) k).
Proof.
  intros Hs Hk d Hd Hch. unfold registerAndSend. apply own_bind, own_bind.
  eapply own_mono; [|by apply owns_register]. intros u d1 Hd1. apply own_bind.
  eapply own_mono; [|by apply Hs]. intros [err|] d2 Hd2; [|by apply Hk].
  apply own_bind. eapply own_mono; [|by apply tidy_forgetTxn]. intros u' d3 Hd3. by apply Hk.
Qed.

Lemma tidy_sendTo n m ev : tidy (patient b) (sendTo n m ev).
Proof. unfold sendTo. tidy_all. Qed.

Lemma tidy_awaitAnswer ch err : tidy (patient b) (awaitAnswer ch err).
Proof.
  unfold awaitAnswer, recvChan. tidy_all. apply tidy_select; [done|]. apply Forall_singleton.
  intros w. destruct (chans w !! ch) eqn:Hc; [|done]. split; try done; simpl.
  - intros ch'. rewrite lookup_delete. by case_decide.
  - exists []. by rewrite app_nil_r.
Qed.

Lemma tidy_lastAssociationRsp k : tidy (L := L) (patient b) (lastAssociationRsp k).
Proof.
  apply tidy_select; [done|]. apply Forall_singleton. intros w.
  destruct (readLastAssoRsp _ _) as [[rsp t]|]; [by apply tame_frame|done].
Qed.

Hint Resolve tidy_lastAssociationRsp : tidy.

Lemma tidy_answerAssociation msg n : tidy (patient b) (answerAssociation msg n).
Proof. unfold answerAssociation, BuildPfcpAssociationResponse. tidy_all. Qed.

Hint Resolve tidy_sendTo tidy_awaitAnswer tidy_answerAssociation : tidy.

Lemma tidy_Forward ip msg n : tidy (patient b) (ForwardPfcpMsgToUpf ip msg n).
Proof.
  unfold ForwardPfcpMsgToUpf. intros d Hd. apply own_bind.
  eapply own_mono; [|by apply owns_makeChan]. intros ch d1 [Hd1 Hch].
  eapply (fun p : entrusted ch _ => p d1 Hd1 Hch). cbv zeta.
  assert (Hinv : entrusted (A := result error slice) ch (Ret (Prelude.Err (errText "invalid request"))))
    by apply entrusted_tidy, tidy_ret.
  destruct (MessageType msg); try exact Hinv.
  - destruct (negb _); [exact Hinv|]. apply entrusted_register; [apply tidy_sendTo|intros err; apply tidy_awaitAnswer].
  - apply entrusted_read. intros [|]; [apply entrusted_tidy; auto with tidy|].
    apply entrusted_insertUpfNode. intros u. destruct (negb _); [exact Hinv|].
    apply entrusted_register; [apply tidy_sendTo|intros err; apply tidy_awaitAnswer].
  - destruct (negb _); [exact Hinv|]. apply entrusted_lift.
    intros [seid|err]; [|apply entrusted_tidy, tidy_ret]. apply entrusted_register; [apply tidy_sendTo|intros err; apply tidy_awaitAnswer].
  - destruct (negb _); [exact Hinv|]. apply entrusted_register; [apply tidy_sendTo|intros err; apply tidy_awaitAnswer].
  - destruct (negb _); [exact Hinv|]. apply entrusted_register; [apply tidy_sendTo|intros err; apply tidy_awaitAnswer].
Qed.

Hint Resolve tidy_Forward tidy_Dispatch : tidy.

Lemma tidy_handler ip addr failed body : tidy (L := L) (patient b) (handler ip addr failed body).
Proof. unfold handler, checkClaim. tidy_all. by apply tidy_frame. Qed.

Lemma tidy_readLoop : tidy (L := L) (patient b) readLoop.
Proof.
  assert (Hread : tidy (L := L) (patient b) readFromUDP).
  { apply tidy_select; [done|]. repeat first [apply Forall_nil_2 | apply Forall_cons_2]; intros w.
    - destruct (inbox w) as [|[bytes addr] rest], (closed w); try done; try apply tame_refl.
      by apply tame_frame.
    - destruct (closed w); [done|apply tame_refl]. }
  unfold readLoop, readRound, readPfcpMessage, server. tidy_all; apply tidy_deliver.
Qed.

(** Waiting on the process's own state, or for the clock. *)
Lemma tidy_proc_cases {A} (cases : list (World L -> option (A * World L))) :
  Forall (fun ready => forall w, match ready w with
                                 | Some (_, w') => exists p, w' = set_proc p w
                                 | None => True
                                 end) cases ->
  tidy (patient b) (select cases).
Proof.
  intros Hc. apply tidy_select; [done|]. eapply Forall_impl; [exact Hc|]. intros ready Hr w.
  specialize (Hr w). destruct (ready w) as [[a w']|]; [|done]. destruct Hr as [p ->].
  by apply tame_frame.
Qed.

Lemma tidy_waitDone done : tidy (L := L) (patient b) (waitDone done).
Proof.
  apply tidy_proc_cases, Forall_singleton. intros w. destruct (done (proc w)); [|easy].
  exists (proc w). symmetry. apply set_proc_id.
Qed.

Ltac tidy_cases :=
  apply tidy_proc_cases; repeat first [apply Forall_nil_2 | apply Forall_cons_2]; intros w;
  repeat case_match; simplify_eq; try easy;
  (eexists; first [reflexivity|symmetry; apply set_proc_id]).

Hint Resolve tidy_handler tidy_readLoop tidy_waitDone : tidy.

Lemma tidy_runPfcp e : tidy (L := L) (patient b) (runPfcp e).
Proof.
  unfold runPfcp, Run, now, Udp.serve. tidy_all; [|by apply tidy_frame].
  apply tidy_modify. intros w _. by apply tame_udp.
Qed.

Lemma tidy_main e : tidy (L := L) (patient b) (main e).
Proof.
  unfold main, setLevelFromEnv, SetLogLevel, Process.serve, newTimer, Shutdown. tidy_all; tidy_cases.
Qed.

Lemma runs_gift ptr v : runs ptr v {[toRun ptr := v]}.
Proof.
  split; [by apply lookup_singleton_eq|]. rewrite delete_singleton_eq. apply idle_empty.
Qed.

(** Every goroutine, with what it is given when it is started. *)
Definition gift (g : goroutine L) : rights :=
  match txOf g with Some ptr => {[toRun ptr := started]} | None => ∅ end.

Lemma owns_goCode e g : owns (patient b) (goCode e g) (fun _ => idle) (gift g).
Proof.
  destruct g; cbn [gift txOf]; try (apply (fun p : tidy (patient b) _ => p ∅ idle_empty)); cbn [goCode].
  - apply (owns_lifeCycle e), runs_gift.
  - by apply tidy_Dispatch.
  - unfold serveRequest. tidy_all.
  - apply tidy_runPfcp.
  - apply tidy_readLoop.
  - unfold listen, ListenAndServe. tidy_all; tidy_cases.
  - unfold refreshLoop. tidy_all; tidy_cases.
Qed.
End Requests.
