(* ===== verification/Liveness.v ===== *)
(** * Liveness: what happens in the end

    In a fair run -- what is spawned is started, who can go on does, time passes -- a goroutine
    started for a message or for a transaction finishes (where the lock of a node has been left, the
    dispatch of an association response may not), a transaction registered is found no more
    from some time on, and the process, told to stop, returns from [main]. *)

From Stdlib Require Import Strings.Byte Strings.String.
From S2P Require Import Prelude GoNet NodeId Relay RelayTraces UpfAddrs SmfAddr UpfTxns UpfTable.
From S2P Require Import Pfcp Consumers Goroutine Fairness Ownership World Udp Handler Forward Process.
From S2P Require Import System SystemInv Ledger Custody.

#[local] Open Scope list_scope.
#[local] Open Scope Z_scope.

(** ** The rights of all goroutines *)

Section Custody.
Context `{L : PfcpLib, !MapRange string, !MapRange Z} (e : Environment).

(** The goroutines in [live] can always go on, but for the lock of a node if they are [bothered]. *)
Definition custodyOf (bothered : bool) (live : nat -> bool)
    : list rights -> rights -> system (L := L) -> Prop :=
  owned clock world_inv ledger deal (unhindered bothered) busy idle idle live.

Definition custody : (nat -> bool) -> list rights -> rights -> system (L := L) -> Prop := custodyOf false.

Lemma env_tame (w w' : World L) : env_step w w' -> tame w w'.
Proof.
  destruct 1; try by apply tame_frame. unfold accept. eapply tame_trans; [by apply (tame_spawn (goHandler remoteAddr readFailed body))|].
  by apply tame_frame.
Qed.

Definition gifts (w : World L) : list rights := map gift (spawned w).

Lemma splits_gifts (gs : list (goroutine L)) :
  NoDup (omap txOf gs) -> exists D, splits (map gift gs) D /\
    (forall ch, D !! toSend ch = None) /\ D !! toRecord = None /\
    forall ptr, D !! toRun ptr = if decide (ptr ∈ omap txOf gs) then Some started else None.
Proof.
  induction gs as [|g gs IH]; intros Hnd.
  { exists ∅. split; [constructor|]. do 2 (split; [done|]). intros ptr. rewrite lookup_empty.
    by rewrite decide_False by apply not_elem_of_nil. }
  simpl in Hnd |- *. pose proof (eq_refl (gift g)) as Hgift. unfold gift at 2 in Hgift.
  destruct (txOf g) as [p|] eqn:Hg; rewrite Hgift.
  - apply NoDup_cons in Hnd as [Hp Hnd]. destruct (IH Hnd) as (D & Hs & Hch & Hlk & HD).
    assert (HDp : D !! toRun p = None) by (rewrite HD; by rewrite decide_False).
    exists ({[toRun p := started]} ∪ D). split_and!.
    + constructor; [|done]. by apply map_disjoint_singleton_l.
    + intros ch. rewrite lookup_union_r; [done|]. by apply lookup_singleton_ne.
    + rewrite lookup_union_r; [done|]. by apply lookup_singleton_ne.
    + intros ptr. rewrite <- insert_union_singleton_l, lookup_insert. simpl. rewrite HD.
      case_decide as He; [injection He as ->; by rewrite decide_True by by left|].
      destruct (decide (ptr ∈ omap txOf gs)) as [Hi|Hi].
      * by rewrite decide_True by by right.
      * rewrite decide_False; [done|]. rewrite elem_of_cons. intros [->|]; [by apply He|done].
  - destruct (IH Hnd) as (D & Hs & Hch & Hlk & HD). exists D.
    split_and!; [|exact Hch|exact Hlk|exact HD]. rewrite <- (map_empty_union D).
    constructor; [apply map_disjoint_empty_l|done].
Qed.

Lemma fork_custody b D w :
  world_inv w -> ledger D w -> exists D',
    splits (gifts w) D' /\ D ##ₘ D' /\ ledger (D ∪ D') (snd (startAll e w)) /\
    Forall2 (fun p d => own clock world_inv ledger deal (unhindered b) busy idle false p (fun _ => idle) d)
      (fst (startAll e w)) (gifts w).
Proof.
  intros Hi HL. destruct (splits_gifts (spawned w) (led_distinct _ _ HL)) as (D' & Hs & Hch & Hrec & HD').
  assert (Hdis : D ##ₘ D').
  { apply map_disjoint_spec. intros [ch|ptr|] v1 v2 H1 H2; [by rewrite Hch in H2| |by rewrite Hrec in H2].
    rewrite HD' in H2. case_decide as Hin; [|done].
    destruct (led_run _ _ HL ptr ltac:(by eexists)) as [_ Hn]. by apply Hn. }
  exists D'. split_and!; [done|done| |].
  - assert (Hlk : forall ptr, (D ∪ D') !! toRun ptr =
      if decide (ptr ∈ starting w) then Some started else D !! toRun ptr).
    { intros ptr. unfold starting. specialize (HD' ptr). case_decide as Hin.
      - by apply lookup_union_Some_r.
      - by apply lookup_union_l. }
    destruct HL as [A1 A2 A3 A4 A5 A6 A7 A8 A9 A10 A11 A12 A13]. split; simpl; try done.
    + intros ch Hc. apply A1. rewrite lookup_union_l in Hc by done. done.
    + intros ptr. rewrite Hlk. intros Hp. split; [|apply not_elem_of_nil].
      case_decide as Hin; [by apply A6|by apply A5].
    + intros ptr Hin. by apply elem_of_nil in Hin.
    + constructor.
    + intros c s ptr Hs'. left. rewrite Hlk. case_decide; [by eexists|]. by destruct (A8 c s ptr Hs').
    + intros ptr v tx. rewrite Hlk. case_decide; [by intros [= <-]|apply A9].
    + intros ptr tx c s. rewrite Hlk. case_decide; [done|apply A10].
    + intros ptr tx t c s. rewrite Hlk. case_decide; [done|apply A11].
    + by rewrite lookup_union_l.
  - apply Forall2_fmap_l, Forall2_fmap_r, Forall_Forall2_diag, Forall_true. intros g.
    apply (owns_goCode (b := b)).
Qed.

Lemma ledger_boot t0 resolver : ledger ∅ (bootWorld t0 resolver).
Proof.
  split; simpl; try done; try (by intros * []); try (by intros ? ?%elem_of_nil).
  - constructor.
Qed.

Lemma custody_init t0 resolver : custody (fun _ => false) [∅] ∅ (initSystem e t0 resolver).
Proof.
  split; simpl.
  - apply world_inv_boot.
  - done.
  - intros [|i] p d Hp Hd; simplify_eq/=.
    apply (tidy_main (b := false)), idle_empty.
  - rewrite <- (map_empty_union ∅). constructor; [apply map_disjoint_empty_l|constructor].
  - apply ledger_boot.
Qed.

Lemma custody_step b live ds D l s s' :
  custodyOf b live ds D s -> system_step e l s s' -> system_ok s ->
  (forall i, (length s.1 <= i)%nat -> live i = false) ->
  exists ds' D', custodyOf b live ds' D' s' /\
    match l with
    | byEnv => ds' = ds /\ D' = D
    | byFork => ds' = ds ++ gifts s.2 /\
        exists D2, splits (gifts s.2) D2 /\ D ##ₘ D2 /\ D' = D ∪ D2
    | byRun i _ => exists d d' F, ds !! i = Some d /\ ds' = <[i := d']> ds /\
        d ##ₘ F /\ d' ##ₘ F /\ D = d ∪ F /\ D' = d' ∪ F /\ deal d s.2 d' s'.2
    end.
Proof.
  intros Hc Hs Hok Hlive.
  apply (owned_step clock world_inv ledger deal (unhindered b) busy idle idle env_step (startAll e) gifts) with (s := s);
    [|apply fork_custody|done|done| |done].
  - intros D0 w w' _ He HL. by eapply ledger_tame; [apply env_tame|].
  - apply (system_step_ok e l s s' Hs Hok).
Qed.
End Custody.

(** ** Fair runs *)

#[export] Instance over_dec `{L : PfcpLib} (w : World L) : Decision (over w).
Proof. unfold over. apply _. Defined.

(** What every state of a run satisfies. *)
Definition known `{L : PfcpLib, !MapRange string, !MapRange Z} (s : system (L := L)) : Prop :=
  system_ok s /\ exists ds D, custody (fun _ => false) ds D s.

Lemma known_step `{L : PfcpLib, !MapRange string, !MapRange Z} e l (s s' : system (L := L)) :
  system_step e l s s' -> known s -> known s'.
Proof.
  intros Hs [Hok (ds & D & Hc)]. split; [by apply (system_step_ok e l s s' Hs Hok)|].
  destruct (custody_step e _ _ _ _ _ _ _ Hc Hs Hok) as (ds' & D' & Hc' & _); [done|]. by exists ds', D'.
Qed.

Lemma known_init `{L : PfcpLib, !MapRange string, !MapRange Z} e t0 resolver :
  known (initSystem (L := L) e t0 resolver).
Proof. split; [apply system_ok_init|]. exists [∅], ∅. apply custody_init. Qed.

Lemma known_moves `{L : PfcpLib, !MapRange string, !MapRange Z} e (s s' : system (L := L)) :
  rtc (system_move e) s s' -> known s -> known s'.
Proof. induction 1 as [|s s1 s' [_ [l Hs]] _ IH]; [done|]. intros Hk. by eapply IH, known_step. Qed.

Section Run.
Context `{L : PfcpLib, !MapRange string, !MapRange Z} (e : Environment).
Context (st : nat -> system (L := L)) (lb : nat -> option label).

(** A fair run of the process from the call of [main]. *)
Record fair_process : Prop := {
  starts : exists t0 resolver, st 0%nat = initSystem e t0 resolver;
  runs_fair : fair env_step (startAll e) over clock st lb;
}.

Abbreviation ended := (ended over st).

Context (Hfair : fair_process).

Lemma run_known n : known (st n).
Proof.
  apply (run_keeps env_step (startAll e) over clock st lb known 0 n).
  - apply (fair_run _ _ _ _ _ _ (runs_fair Hfair)).
  - intros l s s' _. apply (known_step e).
  - lia.
  - destruct (starts Hfair) as (t0 & resolver & ->). apply known_init.
Qed.

Lemma run_step n l :
  lb n = Some l -> alive over (st n) /\ system_step e l (st n) (st (S n)).
Proof. intros Hl. pose proof (fair_run _ _ _ _ _ _ (runs_fair Hfair) n) as Hs. by rewrite Hl in Hs. Qed.

Lemma run_idle n : lb n = None -> st (S n) = st n.
Proof. intros Hl. pose proof (fair_run _ _ _ _ _ _ (runs_fair Hfair) n) as Hs. by rewrite Hl in Hs. Qed.

Lemma run_world_step n m : (n <= m)%nat -> rtc world_step (st n).2 (st m).2.
Proof.
  induction 1 as [|m _ IH]; [done|]. etrans; [exact IH|]. destruct (lb m) as [l|] eqn:Hl.
  - destruct (run_step m l Hl) as [_ Hs]. apply rtc_once.
    by apply (system_step_ok e l _ _ Hs), run_known.
  - by rewrite (run_idle m Hl).
Qed.

Lemma run_clock n m : (n <= m)%nat -> clock (st n).2 <= clock (st m).2.
Proof.
  intros Hle. apply run_world_step in Hle. induction Hle as [|w1 w2 w3 Hs _ IH]; [lia|].
  pose proof (wstep_clock _ _ Hs). lia.
Qed.

(** *** Starting *)

(** Until goroutines are started, what is spawned stays so. *)
Lemma spawned_step l s s' g :
  known s -> system_step e l s s' -> l <> byFork -> g ∈ spawned s.2 -> g ∈ spawned s'.2.
Proof.
  intros [Hok (ds & D & Hc)] Hs Hl Hg.
  destruct (custody_step e _ _ _ _ _ _ _ Hc Hs Hok) as (ds' & D' & _ & Hd); [done|].
  destruct l as [| |i c]; [|done|].
  - inversion Hs as [ts w w' He| |]; subst. destruct (env_tame _ _ He) as [_ _ _ (new & Hn & _)].
    simpl in *. rewrite Hn. apply elem_of_app. by left.
  - destruct Hd as (d & d' & F & _ & _ & _ & _ & _ & _ & Hdeal).
    destruct (deal_spawn _ _ _ _ Hdeal) as (new & -> & _). apply elem_of_app. by left.
Qed.

(** What is spawned is started in the end. *)
Lemma spawned_starts n g :
  g ∈ spawned (st n).2 ->
  exists m, (n <= m)%nat /\ (ended m \/ lb m = Some byFork /\ g ∈ spawned (st m).2).
Proof.
  intros Hg. destruct (fair_fork _ _ _ _ _ _ (runs_fair Hfair) n) as (m & Hm & [Hf|He]);
    [|exists m; auto].
  replace m with (n + (m - n))%nat in Hf by lia. clear Hm. generalize dependent (m - n)%nat.
  clear m. intros k. revert n Hg. induction k as [|k IH]; intros n Hg Hf.
  - exists n. rewrite Nat.add_0_r in Hf. auto.
  - destruct (decide (lb n = Some byFork)) as [Hl|Hl]; [by exists n; auto|].
    destruct (IH (S n)) as (m' & Hm' & H').
    + destruct (lb n) as [l|] eqn:Hn; [|by rewrite run_idle].
      destruct (run_step n l Hn) as [_ Hs]. eapply spawned_step; [apply run_known|exact Hs| |done].
      congruence.
    + by rewrite Nat.add_succ_comm.
    + exists m'. split; [lia|done].
Qed.

(** *** Finishing *)

(** What a step leaves of the rights of a goroutine that does not take it. *)
Lemma rights_other (l : label) (i : nat) (ds ds' : list rights) (d D D' : rights) (s s' : system (L := L)) :
  (forall c, l <> byRun i c) -> ds !! i = Some d ->
  match l with
  | byEnv => ds' = ds /\ D' = D
  | byFork => ds' = ds ++ gifts (L := L) s.2 /\
      exists D2, splits (gifts s.2) D2 /\ D ##ₘ D2 /\ D' = D ∪ D2
  | byRun i _ => exists d d' F, ds !! i = Some d /\ ds' = <[i := d']> ds /\
      d ##ₘ F /\ d' ##ₘ F /\ D = d ∪ F /\ D' = d' ∪ F /\ deal d s.2 d' s'.2
  end -> ds' !! i = Some d.
Proof.
  intros Hl Hd. destruct l as [| |j c].
  - by intros [-> _].
  - intros [-> _]. by apply lookup_app_l_Some.
  - intros (d1 & d' & F & _ & -> & _). rewrite list_lookup_insert_ne; [done|].
    intros ->. by apply (Hl c).
Qed.

(** Where a goroutine stands after its step. *)
Lemma own_lookup i c (s s' : system (L := L)) f g :
  system_step e (byRun i c) s s' -> s.1 !! i = Some (Act f g) -> s'.1 !! i = Some (g c s.2).
Proof.
  intros Hs Hi. destruct (pool_run_inv _ _ _ _ _ _ Hs) as (f' & g' & Hi' & _ & ->).
  rewrite Hi in Hi'. simplify_eq. apply list_lookup_insert_eq. by eapply lookup_lt_Some.
Qed.

Lemma custody_enabled (b : bool) (live : nat -> bool) (ds : list rights) (D : rights) (i : nat) (d : rights)
    (f : nat -> World L -> option (World L)) (t : Time) (s : system (L := L)) :
  custodyOf b live ds D s -> ds !! i = Some d ->
  (forall (F : rights) w, world_inv w -> d ##ₘ F -> ledger (d ∪ F) w -> unhindered b d w ->
     t <= clock w -> exists c, is_Some (f c w)) ->
  unhindered b d s.2 -> t <= clock s.2 -> exists c, is_Some (f c s.2).
Proof.
  intros [Hi Hlen Hown Hsp HJ] Hd Ht Hop Hclk.
  destruct (splits_at _ _ _ _ Hsp Hd) as (F & HF & -> & _). by apply (Ht F).
Qed.

(** *** Holding a right *)

(** Goroutine [i], standing at [p], holds rights of which [P] is true. *)
Definition holds (P : rights -> Prop) (i : nat) (d : rights) (s : system (L := L))
    (p : prog (World L) unit) : Prop :=
  system_ok s /\ s.1 !! i = Some p /\ P d /\
  exists ds D, custody (fun _ => false) ds D s /\ ds !! i = Some d.

Lemma holds_other P i d l s s' p :
  system_step e l s s' -> (forall c, l <> byRun i c) -> holds P i d s p -> holds P i d s' p.
Proof.
  intros Hs Hne (Hok & Hp & HP & ds & D & Hc & Hdi).
  destruct (custody_step e _ _ _ _ _ _ _ Hc Hs Hok ltac:(done)) as (ds' & D' & Hc' & Hr).
  split; [by apply (system_step_ok e l s s')|]. split; [by eapply pool_step_other|].
  split; [done|]. exists ds', D'. split; [done|]. by eapply rights_other.
Qed.

(** Whoever is among those with all the rights [D] has a goroutine that stands somewhere. *)
Lemma held_somewhere (s : system (L := L)) ds D k v :
  known s -> custody (fun _ => false) ds D s -> D !! k = Some v ->
  exists i d p, d !! k = Some v /\ holds (fun d => d !! k = Some v) i d s p.
Proof using Type.
  intros [Hok _] Hc HD.
  destruct (splits_some _ _ _ _ (owned_splits _ _ _ _ _ _ _ _ _ _ _ _ Hc) HD) as (i & d & Hi & Hd).
  destruct (lookup_lt_is_Some_2 s.1 i) as [p Hp].
  { rewrite <- (owned_len _ _ _ _ _ _ _ _ _ _ _ _ Hc). by eapply lookup_lt_Some. }
  exists i, d, p. split; [done|]. split_and!; [done..|]. by exists ds, D.
Qed.

Lemma holds_mono (P P' : rights -> Prop) i d s p : (P d -> P' d) -> holds P i d s p -> holds P' i d s p.
Proof. intros HP (Hok & Hp & Hd & Hc). split_and!; auto. Qed.

(** Rights that keep a goroutine busy are not kept for ever: something comes of them, if at each
    step of the goroutine they are kept or it does. *)
Section Ends.
Context (P : rights -> Prop) (stop : system (L := L) -> Prop).
Context (Hbusy : forall d, P d -> busy d).
Context (Hopen : forall t n, exists m, (n <= m)%nat /\
  (ended m \/ ((forall d, P d -> open d (st m).2) /\ t <= clock (st m).2))).
Context (Hown : forall (d d' F : rights) ds' (s s' : system (L := L)), P d -> deal d s.2 d' s'.2 -> d ##ₘ F -> d' ##ₘ F ->
  ledger (d ∪ F) s.2 -> custody (fun _ => false) ds' (d' ∪ F) s' -> P d' \/ stop s').

Lemma holds_own i c d s s' p p' :
  system_step e (byRun i c) s s' -> s'.1 !! i = Some p' -> holds P i d s p ->
  (exists d', holds P i d' s' p') \/ stop s'.
Proof using Hown.
  intros Hs Hp' (Hok & Hp & HP & ds & D & Hc & Hdi).
  destruct (custody_step e _ _ _ _ _ _ _ Hc Hs Hok ltac:(done)) as (ds' & D' & Hc' & Hr).
  destruct Hr as (d0 & d' & F & Hdi' & -> & HF & HF' & -> & -> & Hdeal). rewrite Hdi in Hdi'. simplify_eq.
  pose proof (owned_all _ _ _ _ _ _ _ _ _ _ _ _ Hc) as HL.
  destruct (Hown _ _ _ _ _ _ HP Hdeal HF HF' HL Hc') as [HP'|]; [left|by right].
  exists d'. split; [by apply (system_step_ok e (byRun i c) s s')|]. split_and!; [done..|].
  eexists _, _. split; [exact Hc'|]. apply list_lookup_insert_eq. by eapply lookup_lt_Some.
Qed.

Lemma holds_ends i d n p :
  holds P i d (st n) p -> exists m, (n <= m)%nat /\ (stop (st m) \/ ended m).
Proof using All.
  intros Hh.
  destruct (leads_to env_step (startAll e) over clock st lb (runs_fair Hfair) i (holds P i) stop)
    with (x := d) (p := p) (n := n) as (m & Hm & [Hs|[He|([] & x' & Hi & Hx)]]).
  - intros x l s s' f g _ Hs Hne _ Hx. left. by eapply holds_other.
  - intros x s s' f g c _ Hs Hi _ Hx. eapply holds_own; [exact Hs| |exact Hx]. by eapply own_lookup.
  - intros x k f g (_ & _ & Hp & HP & ds & D & Hc & Hdi).
    pose proof (owned_own _ _ _ _ _ _ _ _ _ _ _ _ Hc i _ x Hp Hdi) as [Hpos _].
    destruct Hpos as [t Ht]; [right; auto|].
    destruct (Hopen t k) as (m & Hm & [He|[Ho Hclk]]); exists m; (split; [done|]); [by left|right].
    intros (_ & _ & HP' & ds' & D' & Hc' & Hdi'). right.
    eapply (custody_enabled false); [done..|by split; [apply Ho|]|done].
  - split; [apply Hh|done].
  - exists m. auto.
  - exists m. auto.
  - exfalso. destruct Hx as (_ & Hp & HP & ds & D & Hc & Hdi).
    pose proof (owned_own _ _ _ _ _ _ _ _ _ _ _ _ Hc i _ x' Hp Hdi) as Hidle. simpl in Hidle.
    by apply (idle_not_busy x'), Hbusy.
Qed.
End Ends.

(** *** The lock *)

(** One who holds the lock gives it back: nothing keeps it from going on. *)
Lemma holdsLock_ends i d n p :
  holds (fun d => is_Some (d !! toRecord)) i d (st n) p ->
  exists m, (n <= m)%nat /\ (upfAddrMutex (st m).2 = None \/ ended m).
Proof.
  apply holds_ends with (stop := fun s => upfAddrMutex s.2 = None); clear d i p n.
  - intros d Hd. right. by left.
  - intros t n. destruct (fair_time _ _ _ _ _ _ (runs_fair Hfair) t n) as (m & Hm & [Hclk|He]);
      exists m; (split; [done|]); [right|by left]. split; [|done]. by intros d Hd _.
  - intros d d' F ds' s s' [v Hv] _ HF _ _ Hc'.
    pose proof (map_disjoint_Some_l _ _ _ _ HF Hv) as HFn.
    destruct (d' !! toRecord) as [v'|] eqn:Hd'; [left; by eexists|right].
    pose proof (led_lock _ _ (owned_all _ _ _ _ _ _ _ _ _ _ _ _ Hc')) as Hl.
    rewrite (proj2 (lookup_union_None _ _ _)) in Hl by done. by destruct (upfAddrMutex s'.2).
Qed.

(** Again and again the lock is free. *)
Lemma lock_free n :
  exists m, (n <= m)%nat /\ (upfAddrMutex (st m).2 = None \/ ended m).
Proof.
  destruct (upfAddrMutex (st n).2) as [l|] eqn:Hl; [|exists n; auto].
  destruct (run_known n) as [Hok (ds & D & Hc)].
  pose proof (led_lock _ _ (owned_all _ _ _ _ _ _ _ _ _ _ _ _ Hc)) as HD. rewrite Hl in HD.
  destruct (held_somewhere _ _ _ _ _ (run_known n) Hc HD) as (i & d & p & _ & Hh).
  apply (holdsLock_ends i d n p). eapply holds_mono; [|exact Hh]. intros ->. by eexists.
Qed.

(** Some time the lock is free and the clock has come to [t]. *)
Lemma comes_free t n :
  exists m, (n <= m)%nat /\ (ended m \/ (upfAddrMutex (st m).2 = None /\ t <= clock (st m).2)).
Proof.
  destruct (fair_time _ _ _ _ _ _ (runs_fair Hfair) t n) as (m0 & Hm0 & [Hclk|He]); [|by exists m0; auto].
  destruct (lock_free m0) as (m & Hm & [Hf|He]); (exists m; split; [lia|]); [right|by left].
  pose proof (run_clock _ _ Hm). split; [done|lia].
Qed.

Lemma free_open d (w : World L) : upfAddrMutex w = None -> open d w.
Proof using Type. intros Hm [l Hl]. congruence. Qed.

(** Goroutine [i], standing at [p] with the rights [d], is one that waits for nothing but the lock of
    the addresses and, if [b], the lock of a node. *)
Definition lively (b : bool) (i : nat) (d : rights) (s : system (L := L)) (p : prog (World L) unit) : Prop :=
  system_ok s /\ s.1 !! i = Some p /\
  exists ds D, custodyOf b (fun j => bool_decide (j = i)) ds D s /\ ds !! i = Some d.

Lemma lively_end i (s : system (L := L)) :
  (i < length s.1)%nat -> forall j, (length s.1 <= j)%nat -> bool_decide (j = i) = false.
Proof. intros Hi j Hj. apply bool_decide_eq_false. lia. Qed.

Lemma lively_possible b i d s f g :
  lively b i d s (Act f g) ->
  possible clock world_inv ledger (unhindered b) f d.
Proof.
  intros (_ & Hp & ds & D & Hc & Hd). pose proof (owned_own _ _ _ _ _ _ _ _ _ _ _ _ Hc i _ d Hp Hd) as Hown.
  cbv beta in Hown. rewrite bool_decide_eq_true_2 in Hown by done. destruct Hown as [Hpos _]. auto.
Qed.

Lemma lively_finishes b i n d p :
  lively b i d (st n) p ->
  exists m, (n <= m)%nat /\
    (ended m \/ (b = true /\ leftLocked (upfs (st m).2)) \/ (st m).1 !! i = Some (Ret ())).
Proof.
  intros Hl.
  destruct (leads_to env_step (startAll e) over clock st lb (runs_fair Hfair) i
    (lively b i) (fun s => b = true /\ leftLocked (upfs s.2))) with (x := d) (p := p) (n := n)
    as (m & Hm & [Hs|[He|([] & x' & Hi & _)]]).
  - intros x l s s' f g _ Hs Hne Hi (Hok & Hp & ds & D & Hc & Hd). left.
    destruct (custody_step e _ _ _ _ _ _ _ Hc Hs Hok) as (ds' & D' & Hc' & Hr).
    { apply lively_end. by eapply lookup_lt_Some. }
    split; [by apply (system_step_ok e l s s')|]. split; [by eapply pool_step_other|].
    exists ds', D'. split; [done|]. by eapply rights_other.
  - intros x s s' f g c _ Hs Hi Hf (Hok & Hp & ds & D & Hc & Hd). left.
    destruct (custody_step e _ _ _ _ _ _ _ Hc Hs Hok) as (ds' & D' & Hc' & Hr).
    { apply lively_end. by eapply lookup_lt_Some. }
    destruct Hr as (d0 & d' & F & _ & -> & _). exists d'.
    split; [by apply (system_step_ok e (byRun i c) s s')|]. split; [by eapply own_lookup|].
    exists (<[i:=d']> ds), D'. split; [done|]. apply list_lookup_insert_eq. by eapply lookup_lt_Some.
  - intros x k f g [_ Hx]. destruct (lively_possible _ _ _ _ _ _ Hx) as [t Ht].
    destruct (comes_free t k) as (m & Hm & [He|[Hfree Hclk]]); exists m; (split; [done|]); [by left|right].
    destruct (decide (b = true /\ leftLocked (upfs (st m).2))) as [|Hn]; [by auto|].
    intros (_ & _ & ds & D & Hc & Hd). right. eapply custody_enabled; [done..| |done].
    split; [by apply free_open|]. intros Hb. right. by intros Hlk; apply Hn.
  - split; [apply Hl|done].
  - exists m. auto.
  - exists m. auto.
  - exists m. auto.
Qed.

(** A goroutine that answers to a message, or runs a transaction. *)
Definition worker (g : goroutine L) : Prop :=
  match g with goTxLifeCycle _ | goDispatch _ _ => True | _ => False end.

(** It is the dispatch of an association response. *)
Definition associating (g : goroutine L) : bool :=
  match g with goDispatch msg _ => bool_decide (MessageType msg = AssociationSetupResponse) | _ => false end.

Lemma worker_owns g :
  worker g -> owns (Mode true (associating g)) (goCode e g) (fun _ => idle) (gift g).
Proof.
  destruct g; try done; intros _.
  - apply (owns_lifeCycle e), runs_gift.
  - apply tidy_Dispatch; [|apply idle_empty]. intros Ht _. simpl. by rewrite bool_decide_eq_true_2.
Qed.

(** As it is started, it can go on. *)
Lemma worker_starts n g :
  lb n = Some byFork -> g ∈ spawned (st n).2 -> worker g ->
  exists i, (length (st n).1 <= i)%nat /\ lively (associating g) i (gift g) (st (S n)) (goCode e g).
Proof.
  intros Hl Hg Hw. destruct (run_step n _ Hl) as [_ Hs].
  destruct (run_known n) as [Hok (ds & D & Hc)].
  destruct (custody_step e _ _ _ _ _ _ _ Hc Hs Hok) as (ds' & D' & Hc' & Hds & _); [done|].
  pose proof (owned_len _ _ _ _ _ _ _ _ _ _ _ _ Hc) as Hlen.
  apply list_elem_of_lookup in Hg as [k Hk].
  assert (Hts : (st (S n)).1 = (st n).1 ++ map (goCode e) (spawned (st n).2)).
  { by rewrite (pool_fork_inv _ _ _ _ Hs). }
  set (i := (length (st n).1 + k)%nat).
  assert (Hp : (st (S n)).1 !! i = Some (goCode e g)).
  { rewrite Hts, lookup_app_r by lia. replace (i - _)%nat with k by lia.
    rewrite list_lookup_fmap. by rewrite Hk. }
  assert (Hd : ds' !! i = Some (gift g)).
  { subst ds'. rewrite lookup_app_r by lia. rewrite Hlen. replace (i - _)%nat with k by lia.
    unfold gifts. rewrite list_lookup_fmap. by rewrite Hk. }
  exists i. split; [lia|]. split; [by apply (system_step_ok e byFork _ _ Hs)|]. split; [done|]. exists ds', D'.
  split; [|done]. assert (Hcb : custodyOf (associating g) (fun _ => false) ds' D' (st (S n))).
  { eapply owned_open; [|exact Hc']. intros d0 w0 Hb0 [Ho _]. split; [done|by left]. }
  destruct Hcb as [H1 H2 H3 H4 H5]. split; try done. intros j p d Hj Hdj.
  case_bool_decide as Hij; [subst j|by apply (H3 j)]. simplify_eq. by apply worker_owns.
Qed.

(** *** Letting go of a transaction *)

(** It has been made, nobody runs it, and its goroutine is not to be started. *)
Definition gone (ptr : nat) (s : system (L := L)) : Prop :=
  (ptr < nextTx (udp s.2))%nat /\ (ptr ∉ starting s.2) /\
  exists ds D, custody (fun _ => false) ds D s /\ D !! toRun ptr = None.

Lemma gone_slot ptr s c sq : gone ptr s -> (slot c sq (udp s.2) <> Some ptr)%nat.
Proof.
  intros (_ & Hn & ds & D & Hc & HD) Hs.
  destruct (led_slot _ _ (owned_all _ _ _ _ _ _ _ _ _ _ _ _ Hc) _ _ _ Hs) as [[v Hv]|Hv]; [|done].
  by rewrite HD in Hv.
Qed.

(** What [gifts] gives is given for goroutines to be started. *)
Lemma gifts_starting (w : World L) D ptr :
  splits (gifts w) D -> is_Some (D !! toRun ptr) -> ptr ∈ starting w.
Proof.
  intros Hs [v Hv]. destruct (splits_some _ _ _ _ Hs Hv) as (i & d & Hi & Hd).
  unfold gifts in Hi. rewrite list_lookup_fmap in Hi. apply fmap_Some in Hi as (g & Hg & ->). unfold gift in Hd.
  destruct (txOf g) as [p|] eqn:Ht; [|by rewrite lookup_empty in Hd].
  apply lookup_singleton_Some in Hd as [He _]. injection He as ->.
  apply list_elem_of_omap. exists g. split; [|done]. by eapply list_elem_of_lookup_2.
Qed.

(** What a step does to the goroutines to be started and to the transactions made. *)
Lemma step_starting live ds D l s s' ptr :
  custody live ds D s -> system_step e l s s' -> system_ok s ->
  (forall i, (length s.1 <= i)%nat -> live i = false) ->
  ptr ∈ starting s'.2 ->
  (ptr ∈ starting s.2 /\ l <> byFork) \/
  (exists i c d, l = byRun i c /\ ds !! i = Some d /\ young d ptr).
Proof.
  intros Hc Hs Hok Hlive Hp. destruct (custody_step e _ _ _ _ _ _ _ Hc Hs Hok Hlive) as (ds' & D' & _ & Hd).
  destruct l as [| |i c].
  - inversion Hs as [ts w w' He| |]; subst. destruct (env_tame _ _ He) as [_ _ _ (new & Hn & Ho) _ _ _ _].
    simpl in *. rewrite (starting_app _ _ _ Hn), Ho, app_nil_r in Hp. by left.
  - rewrite (pool_fork_inv _ _ _ _ Hs) in Hp. by apply elem_of_nil in Hp.
  - destruct Hd as (d & d' & F & Hi & _ & _ & _ & _ & _ & [(new & Hn & Hy) _ _ _ _]).
    rewrite (starting_app _ _ _ Hn), elem_of_app in Hp. destruct Hp as [Hp|Hp]; [by left|].
    right. exists i, c, d. auto.
Qed.

Lemma step_nextTx l s s' :
  known s -> system_step e l s s' -> (nextTx (udp s.2) <= nextTx (udp s'.2))%nat.
Proof.
  intros [Hok (ds & D & Hc)] Hs.
  destruct (custody_step e _ _ _ _ _ _ _ Hc Hs Hok ltac:(done)) as (ds' & D' & _ & Hd).
  destruct l as [| |i c].
  - inversion Hs as [ts w w' He| |]; subst. destruct (env_tame _ _ He) as [_ _ _ _ Hn _ _ _]. simpl in *. lia.
  - by rewrite (pool_fork_inv _ _ _ _ Hs).
  - by destruct Hd as (d & d' & F & _ & _ & _ & _ & _ & _ & [_ _ _ Hn _]).
Qed.

Lemma gone_step l s s' ptr : known s -> system_step e l s s' -> gone ptr s -> gone ptr s'.
Proof.
  intros Hk Hs (Hlt & Hn & ds & D & Hc & HD). destruct (Hk) as [Hok _].
  pose proof (step_nextTx _ _ _ Hk Hs). split; [lia|].
  assert (Hnone : forall i d, ds !! i = Some d -> d !! toRun ptr = None).
  { intros i d Hi. destruct (splits_at _ _ _ _ (owned_splits _ _ _ _ _ _ _ _ _ _ _ _ Hc) Hi)
      as (F & HF & -> & _). by apply lookup_union_None in HD as [? _]. }
  split.
  - intros Hp. destruct (step_starting _ _ _ _ _ _ ptr Hc Hs Hok ltac:(done) Hp)
      as [[? _]|(i & c & d & _ & Hi & tx & b & Hy)]; [done|]. by rewrite (Hnone i d Hi) in Hy.
  - destruct (custody_step e _ _ _ _ _ _ _ Hc Hs Hok ltac:(done)) as (ds' & D' & Hc' & Hd).
    exists ds', D'. split; [done|]. destruct l as [| |i c].
    + by destruct Hd as [_ ->].
    + destruct Hd as (_ & D2 & Hsp & _ & ->). apply lookup_union_None. split; [done|].
      destruct (D2 !! toRun ptr) eqn:H2; [|done]. destruct Hn. by eapply gifts_starting.
    + destruct Hd as (d & d' & F & Hi & _ & _ & _ & -> & -> & [_ _ Hr _ _]).
      apply lookup_union_None in HD as [Hd HF]. apply lookup_union_None. split; [|done].
      destruct (d' !! toRun ptr) eqn:H2; [|done].
      destruct (Hr ptr ltac:(by rewrite H2)) as [[v Hv]|]; [by rewrite Hd in Hv|lia].
Qed.

Lemma gone_stays ptr n m : (n <= m)%nat -> gone ptr (st n) -> gone ptr (st m).
Proof.
  intros Hle Hg.
  apply (run_keeps env_step (startAll e) over clock st lb (fun s => known s /\ gone ptr s) n m);
    [apply (fair_run _ _ _ _ _ _ (runs_fair Hfair))| |done|split; [apply run_known|done]].
  intros l s s' _ Hs [Hk Hgs]. split; [by eapply known_step|by eapply gone_step].
Qed.

(** The right to run the transaction; unless [may], its goroutine is not to be started. *)
Definition mayRun (ptr : nat) (may : bool) (d : rights) : Prop :=
  is_Some (d !! toRun ptr) /\ (young d ptr -> may = true).

(** What it comes to: the transaction is gone, or its goroutine is to be started. *)
Definition passed_on (ptr : nat) (may : bool) (s : system (L := L)) : Prop :=
  gone ptr s \/ (may = true /\ ptr ∈ starting s.2).

(** One who holds the right does not keep it for ever. *)
Lemma running_ends ptr i may d n p :
  holds (mayRun ptr may) i d (st n) p ->
  exists m, (n <= m)%nat /\ (passed_on ptr may (st m) \/ ended m).
Proof.
  apply holds_ends; clear d i p n.
  - intros d [Hd _]. left. by exists ptr.
  - intros t n. destruct (comes_free t n) as (m & Hm & [He|[Hfree Hclk]]); exists m; (split; [done|]); [by left|right].
    split; [|done]. intros d _. by apply free_open.
  - intros d d' F ds' s s' [[v Hv] Hy] Hdeal HF HF' HL Hc'.
    destruct (led_run _ _ HL ptr) as [Hlt Hn]; [rewrite lookup_union_l'; by rewrite Hv|].
    pose proof (map_disjoint_Some_l _ _ _ _ HF Hv) as HFn.
    destruct (d' !! toRun ptr) as [v'|] eqn:Hd'.
    + left. split; [by rewrite Hd'|]. intros Hyoung.
      destruct (deal_young _ _ _ _ Hdeal ptr Hyoung); [auto|lia].
    + right. destruct (deal_spawn _ _ _ _ Hdeal) as (new & Hnew & Hsp).
      apply starting_app in Hnew. destruct (decide (ptr ∈ omap txOf new)) as [Hin|Hin].
      * right. split; [by apply Hy, Hsp|]. rewrite Hnew. apply elem_of_app. by right.
      * left. split; [pose proof (deal_next _ _ _ _ Hdeal); lia|]. split.
        -- rewrite Hnew, elem_of_app. tauto.
        -- eexists _, _. split; [exact Hc'|]. by apply lookup_union_None.
Qed.

(** A transaction's goroutine is started with the right to run it. *)
Lemma starts_holding n ptr :
  lb n = Some byFork -> ptr ∈ starting (st n).2 ->
  exists i d p, holds (mayRun ptr false) i d (st (S n)) p.
Proof.
  intros Hl Hp. apply list_elem_of_omap in Hp as (g & Hg & Ht).
  assert (g = goTxLifeCycle ptr) as -> by (destruct g; by simplify_eq/=).
  destruct (worker_starts n _ Hl Hg I) as (i & _ & Hok & Hi & ds & D & Hc & Hd).
  simpl in Hc.
  exists i, (gift (goTxLifeCycle ptr)), (goCode e (goTxLifeCycle ptr)). split_and!; [done|done|split|].
  - unfold gift. simpl. rewrite lookup_singleton_eq. by eexists.
  - intros (tx & b & Hy). unfold gift in Hy. simpl in Hy. by rewrite lookup_singleton_eq in Hy.
  - exists ds, D. split; [|done]. eapply owned_weaken, Hc.
Qed.

(** In the end a transaction is gone. *)
Lemma transaction_goes n ptr :
  (ptr < nextTx (udp (st n).2))%nat ->
  exists m, (n <= m)%nat /\ (gone ptr (st m) \/ ended m).
Proof.
  intros Hlt.
  assert (Hstart : forall n, ptr ∈ starting (st n).2 -> exists m, (n <= m)%nat /\ (gone ptr (st m) \/ ended m)).
  { clear n Hlt. intros n Hn. apply list_elem_of_omap in Hn as (g & Hg & Ht).
    destruct (spawned_starts n g Hg) as (m & Hm & [He|[Hl Hg']]); [exists m; auto|].
    assert (Hp : ptr ∈ starting (st m).2) by (apply list_elem_of_omap; by exists g).
    destruct (starts_holding m ptr Hl Hp) as (i & d & p & Hh).
    destruct (running_ends _ _ _ _ _ _ Hh) as (m2 & Hm2 & [[Hg2|[? _]]|He]); [|done|];
      exists m2; (split; [lia|auto]). }
  destruct (decide (ptr ∈ starting (st n).2)) as [Hp|Hp]; [by apply Hstart|].
  destruct (run_known n) as [Hok (ds & D & Hc)]. destruct (D !! toRun ptr) as [v|] eqn:HD.
  - destruct (held_somewhere _ _ _ _ _ (run_known n) Hc HD) as (i & d & p & Hd & Hh).
    destruct (running_ends ptr i true d n p) as (m & Hm & [[Hg|[_ Hs]]|He]); [|exists m; auto| |exists m; auto].
    + eapply holds_mono; [|exact Hh]. intros _. split; [by rewrite Hd|done].
    + destruct (Hstart m Hs) as (m2 & Hm2 & H2). exists m2. split; [lia|done].
  - exists n. split; [done|]. left. split_and!; [done|done|]. by exists ds, D.
Qed.
End Run.
