(* ===== verification/Channels.v ===== *)
(** * Channels: registrations that are replaced

    A channel is sent into by whoever takes it out of the table of registrations. One that is
    replaced there by another is in nobody's hands any more. *)

From Stdlib Require Import Strings.Byte Strings.String.
From S2P Require Import Prelude GoNet NodeId Relay RelayTraces UpfAddrs SmfAddr UpfTxns UpfTable.
From S2P Require Import Pfcp Consumers Goroutine Fairness Ownership World Udp Handler Forward Process.
From S2P Require Import System SystemInv Ledger Custody Liveness.

#[local] Open Scope list_scope.
#[local] Open Scope Z_scope.

Section Channels.
Context `{L : PfcpLib, !MapRange string, !MapRange Z} (e : Environment).

Abbreviation nobody := (fun _ : nat => false).

(** Nothing is in the channel, it is registered nowhere, and nobody has the right to send. *)
Definition lost (ch : nat) (w : World L) : Prop :=
  (ch < nextChan w)%nat /\ chans w !! ch = None /\ forall n, txns w !! n <> Some (Some ch).

Definition forsaken (ch : nat) (s : system (L := L)) : Prop :=
  lost ch s.2 /\ exists ds D, custody nobody ds D s /\ D !! toSend ch = None.

(** The rights given to goroutines as they are started are to run transactions. *)
Lemma gifts_send (w : World L) D ch : splits (gifts w) D -> D !! toSend ch = None.
Proof.
  intros Hs. destruct (D !! toSend ch) as [v|] eqn:Hv; [|done]. exfalso.
  destruct (splits_some _ _ _ _ Hs Hv) as (i & d & Hi & Hd). unfold gifts in Hi.
  rewrite list_lookup_fmap in Hi. apply fmap_Some in Hi as (g & _ & ->). unfold gift in Hd.
  destruct (txOf g); [by apply lookup_singleton_Some in Hd as [? _]|by rewrite lookup_empty in Hd].
Qed.

(** How any step treats one channel that nobody has the right to send into: the right is had only by
    taking it out of the table. *)
Lemma step_sends ds D l s s' ch :
  custody nobody ds D s -> system_step e l s s' -> system_ok s ->
  D !! toSend ch = None -> (ch < nextChan s.2)%nat -> chans s.2 !! ch = None ->
  (ch < nextChan s'.2)%nat /\ chans s'.2 !! ch = None /\
  (forall n, txns s'.2 !! n = Some (Some ch) -> txns s.2 !! n = Some (Some ch)) /\
  exists ds' D', custody nobody ds' D' s' /\ forall v, D' !! toSend ch = Some v ->
    v = sending true /\ exists n, txns s.2 !! n = Some (Some ch) /\ txns s'.2 !! n = None.
Proof.
  intros Hc Hs Hok HD Hlt Hch.
  destruct (custody_step e _ _ _ _ _ _ _ Hc Hs Hok ltac:(done)) as (ds' & D' & Hc' & Hd).
  destruct l as [| |i c].
  - destruct Hd as [_ ->]. inversion Hs as [ts w w' He| |]; subst. simpl in *.
    destruct (env_tame _ _ He) as [C N T _ _ _ _ _]. split_and!; [lia| |by intros n Hn; apply T|].
    + destruct (chans w' !! ch) eqn:Hx; [|done]. exfalso. apply (C ch); [by rewrite Hx|done].
    + exists ds', D. split; [done|]. intros v Hv. congruence.
  - destruct Hd as (_ & D2 & Hsp & _ & ->). pose proof (gifts_send _ _ ch Hsp) as H2.
    rewrite (pool_fork_inv _ _ _ _ Hs) in *. simpl in *. split_and!; [done..|].
    exists ds', (D ∪ D2). split; [done|]. intros v. by rewrite (proj2 (lookup_union_None _ _ _)).
  - destruct Hd as (d & d' & F & _ & _ & _ & _ & -> & -> & Hdeal).
    apply lookup_union_None in HD as [Hd HF]. destruct (deal_sends _ _ _ _ Hdeal) as [R _ T C N].
    assert (Hno : ~ is_Some (d !! toSend ch)) by (rewrite Hd; by intros []).
    split_and!; [lia| | |].
    + destruct (chans s'.2 !! ch) as [x|] eqn:Hx; [|done]. exfalso.
      destruct (C ch ltac:(by eexists)) as [[y Hy]|]; [congruence|done].
    + intros n Hn. by destruct (T n ch Hn).
    + exists ds', (d' ∪ F). split; [done|]. intros v. rewrite lookup_union_l by done. intros Hv.
      destruct (R ch v Hv) as [|[|]]; [congruence|lia|done].
Qed.

Lemma forsaken_step ch l s s' : system_ok s -> system_step e l s s' -> forsaken ch s -> forsaken ch s'.
Proof.
  intros Hok Hs ((Hlt & Hch & Hn) & ds & D & Hc & HD).
  destruct (step_sends _ _ _ _ _ ch Hc Hs Hok HD Hlt Hch) as (Hlt' & Hch' & Hsub & ds' & D' & Hc' & HD').
  split; [split_and!; [done|done|]; intros n Hx; by apply (Hn n), Hsub|]. exists ds', D'. split; [done|].
  destruct (D' !! toSend ch) as [v|] eqn:Hv; [|done]. destruct (HD' v eq_refl) as (_ & n & Hx & _).
  by destruct (Hn n).
Qed.

(** Whoever has taken the channel out of the table is to send into it. *)
Definition taken (ch : nat) (d : rights) : Prop := d !! toSend ch = Some (sending true).

(** The step after which it is no longer registered hands it to one who is to send, or to nobody. *)
Lemma registered_step n ch l s s' :
  known s -> system_step e l s s' -> txns s.2 !! n = Some (Some ch) ->
  txns s'.2 !! n <> Some (Some ch) ->
  forsaken ch s' \/ (txns s'.2 !! n = None /\ exists i d p, holds (taken ch) i d s' p).
Proof.
  intros Hk Hs Hn Hn'. pose proof Hk as [Hok (ds & D & Hc)].
  pose proof (owned_all _ _ _ _ _ _ _ _ _ _ _ _ Hc) as HL.
  destruct (led_txns _ _ HL _ _ Hn) as [Hlt Hch].
  assert (HD : D !! toSend ch = None).
  { destruct (D !! toSend ch) eqn:HD; [|done]. exfalso.
    destruct (led_send _ _ HL ch ltac:(by rewrite HD)) as (_ & _ & Hno). by apply (Hno n). }
  destruct (step_sends _ _ _ _ _ ch Hc Hs Hok HD Hlt Hch) as (Hlt' & Hch' & Hsub & ds' & D' & Hc' & HD').
  assert (Hone : forall m, txns s.2 !! m = Some (Some ch) -> m = n) by (intros m Hm; by apply (led_once _ _ HL m n ch)).
  destruct (D' !! toSend ch) as [v|] eqn:Hv.
  - right. destruct (HD' v eq_refl) as (-> & m & Hm & Hm'). rewrite (Hone m Hm) in Hm'. split; [done|].
    destruct (held_somewhere s' ds' D' _ _ (known_step _ _ _ _ Hs Hk) Hc' Hv) as (i & d & p & _ & Hh).
    by exists i, d, p.
  - left. split; [|by exists ds', D']. split_and!; [done|done|]. intros m Hm.
    pose proof (Hone m (Hsub m Hm)) as ->. done.
Qed.

(** The step that puts another channel in its place. *)
Lemma replaced_forsaken n ch ch' l s s' :
  known s -> system_step e l s s' -> txns s.2 !! n = Some (Some ch) ->
  txns s'.2 !! n = Some (Some ch') -> ch' <> ch -> forsaken ch s'.
Proof.
  intros Hk Hs Hn Hn' Hne. destruct (registered_step n ch l s s' Hk Hs Hn) as [|[Hno _]]; congruence.
Qed.

Lemma forsaken_moves ch s s' :
  rtc (system_move e) s s' -> system_ok s -> forsaken ch s -> forsaken ch s'.
Proof.
  induction 1 as [s|s1 s2 s3 [_ [l Hs]] _ IH]; [done|]. intros Hok Hf.
  apply IH; [by apply (system_step_ok e l s1 s2)|by eapply forsaken_step].
Qed.
End Channels.

(** ** Answers *)

Section Run.
Context `{L : PfcpLib, !MapRange string, !MapRange Z} (e : Environment).
Context (st : nat -> system (L := L)) (lb : nat -> option label).
Context (Hfair : fair_process e st lb).

Abbreviation ended := (ended over st).

(** What has been taken out of the table is sent into. *)
Lemma taken_sent i ch d n p :
  holds (taken ch) i d (st n) p ->
  exists m, (n <= m)%nat /\ (is_Some (chans (st m).2 !! ch) \/ ended m).
Proof.
  apply (holds_ends e st lb Hfair (taken ch) (fun s => is_Some (chans s.2 !! ch))); clear d i p n.
  - intros d Hd. right. right. by exists ch.
  - intros t n. destruct (comes_free e st lb Hfair t n) as (m & Hm & [He|[Hfree Hclk]]);
      exists m; (split; [done|]); [by left|right]. split; [|done]. intros d _. by apply free_open.
  - intros d d' F ds' s s' Hd Hdeal _ _ _ _. by apply (sends_taken _ _ _ _ (deal_sends _ _ _ _ Hdeal)).
Qed.

(** A channel that is some time no longer registered has been answered, or will not be. *)
Lemma registration_ends n m s ch :
  txns (st n).2 !! s = Some (Some ch) -> txns (st m).2 !! s <> Some (Some ch) -> (n <= m)%nat ->
  exists k, (n <= k)%nat /\
    (is_Some (chans (st k).2 !! ch) \/ ended k \/
     (txns (st k).2 !! s = Some (Some ch) /\ forsaken ch (st (S k)))).
Proof.
  intros Hn Hm Hle. induction Hle as [|m Hle IH]; [done|].
  destruct (decide (txns (st m).2 !! s = Some (Some ch))) as [Hr|Hr]; [|by apply IH].
  destruct (lb m) as [l|] eqn:Hl; [|by rewrite (run_idle e st lb Hfair m Hl) in Hm].
  destruct (run_step e st lb Hfair m l Hl) as [_ Hs].
  destruct (registered_step e s ch l _ _ (run_known e st lb Hfair m) Hs Hr Hm)
    as [Hf|(_ & i & d & p & Hh)]; [exists m; auto|].
  destruct (taken_sent _ _ _ _ _ Hh) as (k & Hk & H2). exists k. split; [lia|]. tauto.
Qed.
End Run.
