(* ===== verification/Stopping.v ===== *)
(** * Stopping: from a signal to the return of [main]

    Three goroutines one after the other: the loop that reads PFCP finds the socket closed, which
    [udp.Run] has closed for the signal; [udp.Run] then closes [pfcpDone], for which [main] waits
    after shutting the HTTP server down. Each is followed from its start to a milestone. *)

From Stdlib Require Import Strings.Byte Strings.String.
From S2P Require Import Prelude GoNet NodeId Relay RelayTraces UpfAddrs SmfAddr UpfTxns UpfTable.
From S2P Require Import Pfcp Consumers Goroutine Fairness Ownership World Udp Handler Forward Process.
From S2P Require Import System SystemInv Ledger Custody Liveness.

#[local] Open Scope list_scope.
#[local] Open Scope Z_scope.

(** ** Programs *)

Section Heads.
Context `{L : PfcpLib, !MapRange string, !MapRange Z}.
Context (ready mark : World L -> Prop).

Abbreviation prog := (prog (World L)).
Abbreviation heads := (heads clock world_step ready mark).
Abbreviation flows := (flows clock world_step ready mark).

Lemma flows_onProc f : flows (onProc f).
Proof. apply flows_atomic. Qed.

Lemma flows_go g : flows (go g).
Proof. apply flows_atomic. Qed.

Lemma flows_offer ptr ev : flows (modify (fun w => set_udp (offerEvent ptr ev (udp w)) w)).
Proof. apply flows_atomic. Qed.

Lemma flows_read {A} (op : World L -> A) : flows (read op).
Proof. apply flows_atomic. Qed.

(** A failure of the call is always possible, be it because the socket is closed. *)
Lemma flows_readFromUDP : flows readFromUDP.
Proof.
  apply (flows_select _ _ _ _ _ 0). intros w _. destruct (closed w) eqn:Hc.
  - apply Exists_cons_hd. destruct (inbox w) as [|[b addr] rest]; rewrite Hc; by eexists.
  - apply Exists_cons_tl, Exists_cons_hd. rewrite Hc. by eexists.
Qed.
End Heads.

Create HintDb flows.
#[export] Hint Resolve flows_ret flows_read flows_attempt flows_deref flows_onProc flows_go flows_offer
  flows_readFromUDP : flows.

(** Goes through a program, one operation at a time. *)
Ltac flows_step :=
  match goal with
  | |- flows _ _ _ _ (match ?x with _ => _ end) => destruct x
  | |- flows _ _ _ _ (if ?b then _ else _) => destruct b
  | |- flows _ _ _ _ _ => solve [auto with flows]
  | |- flows _ _ _ _ (bind _ _) => apply flows_bind; [|intros]
  end.
Ltac flows_all := repeat (cbv zeta; flows_step).

Section Programs.
Context `{L : PfcpLib, !MapRange string, !MapRange Z} (e : Environment).

Abbreviation heads := (heads (W := World L) clock world_step).
Abbreviation flows := (flows (W := World L) clock world_step).

(** What the others keep. *)
Lemma moves_kept (w w' : World L) :
  rtc world_step w w' ->
  clock w <= clock w' /\ done_le (proc w) (proc w') /\ (closed w = true -> closed w' = true) /\
  (is_Some (connOf (udp w)) -> is_Some (connOf (udp w'))).
Proof.
  induction 1 as [w|w1 w2 w3 H12 _ (C & D & K & V)]; [by split_and!|]. split_and!.
  - pose proof (wstep_clock _ _ H12). lia.
  - etrans; [apply (wstep_done _ _ H12)|done].
  - intros Hc. by apply K, (wstep_closed _ _ H12).
  - intros Hc. by apply V, (wstep_server _ _ H12).
Qed.

Definition always (w : World L) : Prop := True.
Definition isCancelled (w : World L) : Prop := cancelled (proc w) = true.
Definition isDone (w : World L) : Prop := loopDone (proc w) = true.
Definition canStop (w : World L) : Prop := isCancelled w /\ isDone w.
Definition canExit (w : World L) : Prop := isCancelled w /\ pfcpDone (proc w) = true.
Definition opened (w : World L) : Prop := is_Some (connOf (udp w)).
Definition shut (w : World L) : Prop := opened w /\ closed w = true.
Definition hasSpawned (g : goroutine L) (w : World L) : Prop := g ∈ spawned w.

(** *** The loop that reads *)

Lemma flows_deliver ready mark msg addr srvAddr : flows ready mark (deliver msg addr srvAddr).
Proof. unfold deliver, findTransaction, server, loadConsumer, loadTx. flows_all. Qed.

Hint Resolve flows_deliver : flows.

Lemma flows_readRound ready mark : flows ready mark readRound.
Proof. unfold readRound, readPfcpMessage, server. flows_all. Qed.

(** A round ends, and another one is to start or the loop is done. *)
Lemma heads_round w :
  heads always (fun w => hasSpawned goReadLoop w \/ isDone w) readLoop
    (fun _ w => hasSpawned goReadLoop w \/ isDone w) w.
Proof.
  unfold readLoop. apply heads_bind. eapply heads_mono; [|apply flows_readRound].
  intros [|] w' _; apply heads_atomic; intros w1 _; left; cbn [fst snd]; [left|right; done].
  apply elem_of_app. right. by apply list_elem_of_singleton.
Qed.

(** Once the socket is closed a round is the last. *)
Lemma heads_lastRound w : shut w -> heads always isDone readLoop (fun _ => isDone) w.
Proof.
  intros [[conn Ho] Hc]. unfold readLoop, readRound, readPfcpMessage, server.
  apply heads_bind, heads_bind, heads_bind, heads_atomic. intros w1 H1. right. cbn [fst snd].
  destruct (moves_kept _ _ H1) as (_ & _ & K & V). specialize (K Hc).
  destruct (V ltac:(by eexists)) as [conn1 Hconn]. unfold connOf in Hconn.
  apply bind_Some in Hconn as (srv & -> & ->). apply heads_bind, heads_select.
  - exists 0. intros w2 H2 _ _. destruct (moves_kept _ _ H2) as (_ & _ & K2 & _).
    apply Exists_cons_hd. destruct (inbox w2) as [|[b addr] rest]; rewrite K2 by done; by eexists.
  - repeat first [apply Forall_nil_2 | apply Forall_cons_2]; intros w2 a w3 H2;
      destruct (moves_kept _ _ H2) as (_ & _ & K2 & _); rewrite K2 by done; [|done].
    intros He. right. assert (a = Prelude.Err ErrClosed) as ->.
    { destruct (inbox w2) as [|[b addr] rest]; by simplify_eq. }
    cbn [bind Fairness.heads]. rewrite bool_decide_eq_true_2 by done. apply heads_atomic. intros w4 _. by left.
Qed.

(** *** [udp.Run] *)

Section Waits.
Context (ready mark : World L -> Prop).

Lemma heads_wait done Q w :
  (forall w1, ready w1 -> done (proc w1) = true) -> (forall w1, rtc world_step w w1 -> Q () w1) ->
  heads ready mark (waitDone done) Q w.
Proof.
  intros Hd HQ. apply heads_select.
  - exists 0. intros w1 _ _ Hw. apply Exists_cons_hd. rewrite Hd by done. by eexists.
  - apply Forall_singleton. intros w1 a w2 Hr. destruct (done (proc w1)); [|done].
    intros [= <- <-]. right. by apply HQ.
Qed.

Lemma heads_modify (op : World L -> World L) Q w :
  (forall w1, rtc world_step w w1 -> mark (op w1) \/ Q () (op w1)) -> heads ready mark (modify op) Q w.
Proof. intros Hop. by apply heads_atomic. Qed.

Lemma heads_now Q w :
  (forall w1, rtc world_step w w1 -> Q (clock w1) w1) -> heads ready mark now Q w.
Proof. intros Hop. apply heads_atomic. intros w1 Hr. right. by apply Hop. Qed.

(** What follows the opening of the socket. *)
Lemma heads_opened conn Q w :
  (forall w1, opened w1 -> heads ready mark Udp.serve Q w1) ->
  ListenUDP e (listenAddr (UpfAdapterIp e)) = Some conn ->
  heads ready mark (Run (UpfAdapterIp e) (ListenUDP e)) Q w.
Proof.
  intros HQ Hl. unfold Run. rewrite Hl. apply heads_bind, heads_modify. intros w1 _. right.
  assert (Ho : opened (set_udp (setServer (mkServer (listenAddr (UpfAdapterIp e)) (Some conn)) (udp w1)) w1))
    by by eexists.
  revert Ho. generalize (set_udp (setServer (mkServer (listenAddr (UpfAdapterIp e)) (Some conn)) (udp w1)) w1).
  intros w2 Ho. apply heads_bind, heads_now. intros w3 H3. apply heads_bind, heads_modify. intros w4 H4.
  right. apply HQ. apply (moves_kept w3 w4); [done|]. by apply (moves_kept w2 w3).
Qed.
End Waits.

Definition isPfcpDone (w : World L) : Prop := pfcpDone (proc w) = true.

Lemma heads_noSocket w :
  ListenUDP e (listenAddr (UpfAdapterIp e)) = None ->
  heads always isPfcpDone (runPfcp e) (fun _ => isPfcpDone) w.
Proof.
  intros Hl. unfold runPfcp, Run. rewrite Hl. apply heads_modify. intros w1 _. by left.
Qed.

Section Opened.
Context (conn : UDPConn) (Hconn : ListenUDP e (listenAddr (UpfAdapterIp e)) = Some conn).

Lemma heads_startsLoop w :
  heads always (fun w => hasSpawned goReadLoop w /\ opened w) (runPfcp e)
    (fun _ w => hasSpawned goReadLoop w /\ opened w) w.
Proof.
  apply heads_bind. eapply heads_opened; [|exact Hconn]. intros w1 Ho.
  apply heads_bind, heads_modify. intros w2 H2. left. split.
  - apply elem_of_app. right. by apply list_elem_of_singleton.
  - by apply (moves_kept w1 w2).
Qed.

Lemma heads_shuts w : heads isCancelled shut (runPfcp e) (fun _ => shut) w.
Proof.
  apply heads_bind. eapply heads_opened; [|exact Hconn]. intros w1 Ho.
  apply heads_bind, heads_modify. intros w2 H2. right.
  apply heads_bind, heads_wait; [done|]. intros w3 H3. apply heads_bind, heads_modify.
  intros w4 H4. left. split; [|done]. unfold opened. cbn.
  apply (moves_kept w3 w4); [done|]. apply (moves_kept _ w3) in H3 as (_ & _ & _ & HV). apply HV. cbn.
  by apply (moves_kept w1 w2).
Qed.

Lemma heads_stops w : heads canStop isPfcpDone (runPfcp e) (fun _ => isPfcpDone) w.
Proof.
  apply heads_bind. eapply heads_opened; [|exact Hconn]. intros w1 Ho.
  apply heads_bind, heads_modify. intros w2 H2. right.
  apply heads_bind, heads_wait; [by intros w3 []|]. intros w3 H3. apply heads_bind, heads_modify.
  intros w4 H4. right. apply heads_wait; [by intros w5 []|]. intros w5 H5.
  apply heads_modify. intros w6 _. by left.
Qed.
End Opened.

(** *** [main] *)

Lemma flows_setLevel ready mark : flows ready mark (setLevelFromEnv e).
Proof. unfold setLevelFromEnv, SetLogLevel. flows_all. Qed.

Lemma heads_startsRun w : heads always (hasSpawned goRun) (main e) (fun _ => hasSpawned goRun) w.
Proof.
  unfold main. apply heads_bind. eapply heads_mono; [|apply flows_setLevel]. intros u w1 _.
  apply heads_bind, heads_modify. intros w2 _. left. apply elem_of_app. right.
  by apply list_elem_of_singleton.
Qed.

(** The shutdown waits for the requests in flight, but not for longer than its deadline. *)
Lemma flows_shutdown ready mark deadline : flows ready mark (Shutdown (L := L) deadline).
Proof.
  apply flows_bind; [apply flows_onProc|]. intros _. apply (flows_select _ _ _ _ _ deadline).
  intros w1 Ht. apply Exists_cons_tl, Exists_cons_hd. apply Z.leb_le in Ht. rewrite Ht. by eexists.
Qed.

Lemma heads_exits w : heads canExit over (main e) (fun _ => over) w.
Proof.
  assert (Hexit : forall w, heads canExit over (onProc (L := L) (set_exited true)) (fun _ => over) w).
  { intros w1. apply heads_modify. intros w2 _. by left. }
  unfold main, Process.serve. apply heads_bind. eapply heads_mono; [|apply flows_setLevel]. intros _ w1 _.
  apply heads_bind. eapply heads_mono; [|apply flows_go]. intros _ w2 _.
  apply heads_bind, heads_bind. eapply heads_mono; [|apply flows_go]. intros _ w3 _.
  apply heads_bind, heads_select.
  - exists 0. intros w4 _ _ [Hc _]. apply Exists_cons_tl, Exists_cons_hd. rewrite Hc. by eexists.
  - repeat first [apply Forall_nil_2 | apply Forall_cons_2]; intros w4 a w5 _ Ha; right.
    + destruct (serveErr (proc w4)); simplify_eq. apply Hexit.
    + destruct (cancelled (proc w4)); simplify_eq. apply heads_bind.
      eapply heads_mono; [|apply flows_read]. intros deadline w6 _.
      apply heads_bind. eapply heads_mono; [|apply flows_shutdown]. intros _ w7 _.
      apply heads_bind, heads_wait; [by intros w8 []|]. intros w8 _. apply Hexit.
Qed.
End Programs.

(** ** Runs *)

Section Run.
Context `{L : PfcpLib, !MapRange string, !MapRange Z} (e : Environment).
Context (st : nat -> system (L := L)) (lb : nat -> option label).
Context (Hfair : fair_process e st lb).

Abbreviation ended := (ended over st).

Lemma run_kept n m :
  (n <= m)%nat -> done_le (proc (st n).2) (proc (st m).2) /\
  (opened (st n).2 -> opened (st m).2) /\ (shut (st n).2 -> shut (st m).2).
Proof.
  intros Hle. destruct (moves_kept _ _ (run_world_step e st lb Hfair n m Hle)) as (_ & D & K & V).
  split; [done|]. split; [exact V|]. intros [Ho Hc]. split; [by apply V|by apply K].
Qed.

(** A program that heads for a milestone, and what it waits for, which stays. *)
Lemma run_reaches ready mark i p n m0 :
  (forall w w' : World L, world_step w w' -> ready w -> ready w') ->
  (st n).1 !! i = Some p -> heads clock world_step ready mark p (fun _ => mark) (st n).2 ->
  ready (st m0).2 ->
  exists m, (n <= m)%nat /\ (mark (st m).2 \/ ended m).
Proof.
  intros Hready Hi Hp Hm0.
  destruct (heads_reaches env_step (startAll e) over clock st lb world_step known (fun _ => False)
    ready mark) with (i := i) (p := p) (n := n) (m0 := m0) as (m & Hm & [Hk|[[]|He]]).
  - apply (runs_fair _ _ _ Hfair).
  - intros l s s' _ Hs Hk. right. split; [|by eapply known_step].
    by apply (system_step_ok e l s s' Hs), Hk.
  - done.
  - by apply (run_known _ _ _ Hfair).
  - done.
  - intros m Hm. pose proof (run_world_step e st lb Hfair m0 m Hm) as Hw.
    induction Hw as [|w1 w2 w3 H12 _ IH]; [done|]. by apply IH, (Hready w1).
  - exists m. auto.
  - exists m. auto.
Qed.

(** What is spawned runs in the end. *)
Lemma run_starts n g :
  hasSpawned g (st n).2 ->
  exists m, (n <= m)%nat /\ (ended m \/ exists i, (st (S m)).1 !! i = Some (goCode e g)).
Proof.
  intros Hg. destruct (spawned_starts e st lb Hfair n g Hg) as (m & Hm & [He|[Hl Hgm]]); [exists m; auto|].
  destruct (fork_stands env_step (startAll e) over clock st lb m (goCode e g)) as (i & _ & Hi & _).
  - apply (fair_run _ _ _ _ _ _ (runs_fair _ _ _ Hfair)).
  - done.
  - simpl. apply list_elem_of_fmap. by exists g.
  - exists m. split; [done|]. right. by exists i.
Qed.

Lemma always_kept (w w' : World L) : world_step w w' -> always w -> always w'.
Proof using Type. done. Qed.

(** Once the socket is closed the loop ends; until then round follows round. *)
Lemma loop_ends n n2 :
  hasSpawned goReadLoop (st n).2 -> shut (st n2).2 ->
  exists m, isDone (st m).2 \/ ended m.
Proof.
  intros Hg Hshut. remember (n2 - n)%nat as k eqn:Hk. revert n Hk Hg.
  induction k as [k IH] using lt_wf_ind. intros n Hk Hg.
  destruct (run_starts n goReadLoop Hg) as (m & Hm & [He|[i Hi]]); [exists m; auto|].
  destruct (decide (n2 <= S m)%nat) as [Hle|Hgt].
  - destruct (run_reaches always isDone i _ (S m) (S m) always_kept Hi) as (m2 & _ & H2); [|done|by exists m2].
    apply heads_lastRound. by apply (run_kept n2 (S m)).
  - destruct (run_reaches always (fun w => hasSpawned goReadLoop w \/ isDone w) i _ (S m) (S m) always_kept Hi)
      as (m2 & Hm2 & [[Hs|Hd]|He]); [apply heads_round|done| |exists m2; auto..].
    apply (IH (n2 - m2)%nat) with (n := m2); [lia|done|done].
Qed.

Lemma done_kept (f : Proc -> bool) :
  (forall p p', done_le p p' -> f p = true -> f p' = true) ->
  forall w w' : World L, world_step w w' -> f (proc w) = true -> f (proc w') = true.
Proof. intros Hf w w' Hw. apply Hf, (wstep_done _ _ Hw). Qed.

(** [udp.Run] returns, once told to. *)
Lemma pfcp_ends i n k :
  (st n).1 !! i = Some (runPfcp e) -> isCancelled (st k).2 -> exists m, isPfcpDone (st m).2 \/ ended m.
Proof.
  intros Hi Hk. destruct (ListenUDP e (listenAddr (UpfAdapterIp e))) as [conn|] eqn:Hl.
  - destruct (run_reaches always (fun w => hasSpawned goReadLoop w /\ opened w) i _ n n always_kept Hi)
      as (n1 & _ & [[Hg _]|He]); [by eapply heads_startsLoop|done| |exists n1; auto].
    destruct (run_reaches isCancelled shut i (runPfcp e) n k) as (n2 & _ & [Hs|He]);
      [by apply done_kept; intros p p' []; auto|exact Hi|by eapply heads_shuts|done| |exists n2; auto].
    destruct (loop_ends n1 n2 Hg Hs) as (n3 & [Hd|He]); [|exists n3; auto].
    destruct (run_reaches canStop isPfcpDone i (runPfcp e) n (max k n3)) as (m & _ & Hm);
      [|exact Hi|by eapply heads_stops| |by exists m].
    + intros w w' Hw [H1 H2]. destruct (wstep_done _ _ Hw). split; unfold isCancelled, isDone; auto.
    + split; [by apply (run_kept k (max k n3) ltac:(lia))|by apply (run_kept n3 (max k n3) ltac:(lia))].
  - destruct (run_reaches always isPfcpDone i _ n n always_kept Hi) as (m & _ & Hm); [|done|by exists m].
    by apply heads_noSocket.
Qed.

Lemma main_ends k : isCancelled (st k).2 -> exists m, ended m.
Proof.
  intros Hk. destruct (starts _ _ _ Hfair) as (t0 & resolver & Hst).
  assert (H0 : (st 0%nat).1 !! 0%nat = Some (main e)) by by rewrite Hst.
  destruct (run_reaches always (hasSpawned goRun) 0 _ 0 0 always_kept H0) as (n1 & _ & [Hg|He]);
    [apply heads_startsRun|done| |by exists n1].
  destruct (run_starts n1 goRun Hg) as (n2 & _ & [He|[i Hi]]); [by exists n2|].
  destruct (pfcp_ends i (S n2) k Hi Hk) as (n3 & [Hd|He]); [|by exists n3].
  destruct (run_reaches canExit over 0 (main e) 0 (max k n3)) as (m & _ & [Ho|He]);
    [|exact H0|apply heads_exits| | |by exists m].
  - intros w w' Hw [H1 H2]. destruct (wstep_done _ _ Hw). split; unfold isCancelled; auto.
  - split; [by apply (run_kept k (max k n3) ltac:(lia))|by apply (run_kept n3 (max k n3) ltac:(lia))].
  - exists m. intros [_ Hn]. by apply Hn.
Qed.
End Run.
