(* ===== verification/SystemProps.v ===== *)
(** * SystemProps: theorems about every schedule, and schedules worth knowing *)

From Stdlib Require Import Strings.Byte Strings.String.
From S2P Require Import Prelude GoNet NodeId Relay RelayTraces UpfAddrs SmfAddr UpfTxns UpfTable.
From S2P Require Import Pfcp Consumers Goroutine Fairness World Udp Handler Forward Process.
From S2P Require Import System SystemInv.

#[local] Open Scope string_scope.
#[local] Open Scope list_scope.
#[local] Open Scope Z_scope.

(** ** Every schedule *)

Section Schedules.
Context `{L : PfcpLib, !MapRange string, !MapRange Z} (e : Environment).

Lemma reachable_moves w w' :
  rtc world_step w w' -> reachable (relays w) -> rtc upf_step ∅ (upfs w) ->
  reachable (relays w') /\ rtc upf_step ∅ (upfs w').
Proof.
  induction 1 as [w|w1 w2 w3 Hst _ IH]; [done|]. intros Hr Hu. apply IH.
  - destruct (wstep_relays _ _ Hst) as [-> |(op & -> & _)]; [done|by constructor].
  - by etrans; [|apply (wstep_upfs _ _ Hst)].
Qed.

(** C1. Whatever the schedule of however many goroutines, HTTP requests, datagrams and changes of
    the resolver, from the moment [main] is called until the process ends: at every moment the
    invariants of all the components hold; the relay table and the table of user planes are in
    states their own operations lead to, so everything proved of those sequences holds of the
    running program; and from then on time does not go back, the two tables move by their
    operations only, and a transaction once made is never changed. *)
Theorem every_schedule t0 resolver s :
  rtc (system_move e) (initSystem e t0 resolver) s ->
  world_inv s.2 /\ reachable (relays s.2) /\ rtc upf_step ∅ (upfs s.2) /\
  forall s', rtc (system_move e) s s' -> rtc world_step s.2 s'.2.
Proof.
  intros Hs. destruct (system_moves_ok e _ _ Hs) as [Hr Hok]; [apply system_ok_init|].
  split; [apply Hok|]. destruct (reachable_moves _ _ Hr) as [Hre Hu]; [constructor|done|].
  split_and!; [done..|]. intros s' Hs'. by apply (system_moves_ok e _ _ Hs').
Qed.

(** ** Running a schedule *)

Inductive move :=
| Run (i c : nat)                             (* goroutine [i] takes a step, by choice [c] *)
| Fork
| Tick (t : Time)
| Datagram (b : list byte) (addr : UDPAddr)
| Request (remoteAddr : string) (body : UdpPodPfcpMsg)
| Answers (resolver : string -> option (list string))
| TickerTick
| Signal.

Definition is_alive (p : prog (World L) unit) : bool :=
  match p with Crash => false | _ => true end.

Definition doMove (m : move) (s : system) : option system :=
  let '(ts, w) := s in
  if negb (forallb is_alive ts) || exited (proc w) then None
  else
    match m with
    | Run i c =>
        match ts !! i with
        | Some (Act f k) =>
            match f c w with
            | Some w' => Some (<[i := k c w]> ts, w')
            | None => None
            end
        | _ => None
        end
    | Fork => Some (ts ++ fst (startAll e w), snd (startAll e w))
    | Tick t => if clock w <=? t then Some (ts, set_clock t w) else None
    | Datagram b addr => Some (ts, set_inbox (inbox w ++ [(b, addr)]) w)
    | Request remoteAddr body =>
        if listening w then Some (ts, accept (goHandler remoteAddr false (Some body)) w) else None
    | Answers resolver => Some (ts, set_dns resolver w)
    | TickerTick => Some (ts, set_proc (set_ticked true (proc w)) w)
    | Signal => Some (ts, set_proc (set_cancelled true (proc w)) w)
    end.

Fixpoint doMoves (ms : list move) (s : system) : option system :=
  match ms with
  | [] => Some s
  | m :: ms => match doMove m s with Some s' => doMoves ms s' | None => None end
  end.

(** [n] steps of goroutine [i], first choices. *)
Definition steps (i n : nat) : list move := repeat (Run i 0) n.

Definition labelOf (m : move) : label :=
  match m with Run i c => byRun i c | Fork => byFork | _ => byEnv end.

Lemma doMove_step m s s' : doMove m s = Some s' -> alive over s /\ system_step e (labelOf m) s s'.
Proof.
  destruct s as [ts w]. unfold doMove. destruct (forallb is_alive ts) eqn:Ha; [|done].
  destruct (exited (proc w)) eqn:Hx; [done|]. simpl negb. simpl orb. cbn match. intros Hm. split.
  { split; simpl; [|by unfold over; rewrite Hx]. apply Forall_forall. intros p Hp ->.
    apply list_elem_of_In in Hp. by pose proof (proj1 (forallb_forall _ _) Ha _ Hp). }
  destruct m as [i c| |t|b addr|addr body|resolver| |].
  - destruct (ts !! i) as [[| |f k]|] eqn:Hi; try done.
    destruct (f c w) as [w'|] eqn:Hf; simplify_eq. by eapply pool_run.
  - simplify_eq. apply pool_fork.
  - destruct (clock w <=? t) eqn:Ht; simplify_eq. apply pool_env, env_clock. lia.
  - simplify_eq. apply pool_env. constructor.
  - destruct (listening w) eqn:Hl; simplify_eq. by apply pool_env, env_request.
  - simplify_eq. apply pool_env. constructor.
  - simplify_eq. apply pool_env. constructor.
  - simplify_eq. apply pool_env. constructor.
Qed.

Lemma doMoves_steps ms s s' : doMoves ms s = Some s' -> rtc (system_move e) s s'.
Proof.
  revert s. induction ms as [|m ms IH]; intros s; simpl; [by intros [= ->]|].
  destruct (doMove m s) as [s1|] eqn:Hm; [|done]. intros Hms.
  destruct (doMove_step m s s1 Hm) as [Ha Hs]. eapply rtc_l; [|by apply IH]. split; [done|by eexists].
Qed.

(** The steps of the schedule, one by one. *)
Fixpoint trace (ms : list move) (s : system) : list (label * system) :=
  match ms with
  | [] => []
  | m :: ms => match doMove m s with Some s' => (labelOf m, s') :: trace ms s' | None => [] end
  end.

(** A schedule that ends the process is a run of it. *)
Lemma trace_finished ms s s' :
  doMoves ms s = Some s' -> exited (proc s'.2) = true ->
  finished (env_step (L := L)) (startAll e) over s (trace ms s).
Proof.
  revert s. induction ms as [|m ms IH]; intros s; simpl.
  - intros [= ->] Hx [_ Hn]. by apply Hn.
  - destruct (doMove m s) as [s1|] eqn:Hm; [|done]. intros Hms Hx.
    destruct (doMove_step m s s1 Hm). split_and!; [done..|by apply IH].
Qed.
End Schedules.

(** ** Two schedules *)

Module SystemDemo.
Definition upf : UDPAddr := UDPAddr.mk (ParseIP.ParseIP "10.42.0.7") PFCP_PORT "".
Definition smf : UDPAddr := UDPAddr.mk (ParseIP.ParseIP "10.42.0.9") PFCP_PORT "".

(** The address the adapter is given in [POD_IP], and a socket bound to it. *)
Definition env : Environment :=
  mkEnvironment "" "10.42.0.1" (fun addr => Some (mkConn addr)) (fun s => Prelude.Err s).

Definition start : system := initSystem (L := DemoLib) env 1000 (fun _ => None).

Definition packet (t : MsgType) (n : Z) : list byte :=
  Demo.encode (Demo.mk (Demo.number t) n 0 Demo.noFields).

(** The SMF at 10.42.0.9 forwards a heartbeat for the user plane at 10.42.0.7. *)
Definition heartbeat : UdpPodPfcpMsg :=
  mkPodMsg "10.42.0.9" (packet HeartbeatRequest 5) (NewNodeID "10.42.0.7").

(** [main] starts [udp.Run] (2) and the HTTP server (3), beside the refreshing loop (1); once the
    socket is open, 4 reads. *)
Definition boot : list move := steps 0 2 ++ [Fork] ++ steps 3 1 ++ steps 2 4 ++ [Fork].

(** 5 is that request's handler and 6 the life of its transaction. *)
Definition forwarded : list move :=
  boot ++ [Request "10.42.0.9:40312" heartbeat; Fork] ++ steps 5 12 ++ [Fork].

(** A report, read and relayed by goroutine 7; 8 reads on, and 9 is the request to the SMF. *)
Definition report : list byte := packet SessionReportRequest 7.
Definition relayedOnce : list move :=
  forwarded ++ [Datagram report upf] ++ steps 4 6 ++ [Fork] ++ steps 7 9 ++ [Fork].

(** A copy of it is read while it is still being relayed, and is to be dispatched as goroutine 10.
    Before that one runs, the SMF's answer is read, and returned to the user plane by goroutine 12,
    which forgets the claim; only then does 10 run. *)
Definition relayedTwice : list move :=
  relayedOnce ++
  [Datagram report upf] ++ steps 8 6 ++ [Fork] ++
  [Datagram (packet SessionReportResponse relaySequenceFloor) smf] ++ steps 11 10 ++ [Fork] ++
  steps 12 6 ++ steps 10 9.

(** The heartbeat is written three times and times out; as its transaction ends, a late answer
    arrives, and the transaction is removed between the reader's two looks at it. *)
Definition lateAnswer : list move :=
  forwarded ++
  steps 6 3 ++ [Tick (4 * Second); Run 6 1] ++ steps 6 2 ++ [Tick (8 * Second); Run 6 1] ++
  steps 6 2 ++ [Tick (12 * Second); Run 6 1] ++
  [Datagram (packet HeartbeatResponse 5) upf] ++ steps 4 6 ++ steps 6 3 ++ steps 4 1.

(** The heartbeat is never answered, its transaction ends; then a signal comes. The request is
    still in flight as the time to shut down has passed. *)
Definition stopped : list move :=
  forwarded ++
  steps 6 3 ++ [Tick (4 * Second); Run 6 1] ++ steps 6 2 ++ [Tick (8 * Second); Run 6 1] ++
  steps 6 2 ++ [Tick (12 * Second); Run 6 1] ++ steps 6 3 ++
  [Signal; Run 0 1] ++ steps 0 2 ++ steps 2 2 ++ steps 4 3 ++ steps 2 2 ++
  [Tick (20 * Second); Run 0 1] ++ steps 0 2.

(** The SMF asks for a session to be deleted, and repeats its request, as one does that has had no
    answer: 5 is the first request's handler, 6 the life of its transaction, 7 the second one's
    handler, which puts its channel in the place of the first one's. *)
Definition deletion : UdpPodPfcpMsg :=
  mkPodMsg "10.42.0.9" (packet SessionDeletionRequest 5) (NewNodeID "10.42.0.7").

Definition repeated : list move :=
  boot ++ [Request "10.42.0.9:40312" deletion; Fork] ++ steps 5 12 ++ [Fork] ++
  [Request "10.42.0.9:40312" deletion; Fork] ++ steps 7 6.

(** Its send is refused, the number being in use, and it takes its registration back. Then the user
    plane's answer to the first is read and dispatched (8), and the transaction ends. *)
Definition orphaned : list move :=
  steps 7 6 ++ steps 6 3 ++ [Datagram (packet SessionDeletionResponse 5) upf] ++ steps 4 10 ++ [Fork] ++
  steps 8 1 ++ steps 6 4.

(** The requests made to relay a report to the SMF. *)
Definition relays_of (w : World DemoLib) : list nat :=
  (filter (fun kv : nat * Transaction ErrHandlerFn =>
     TxMessageType kv.2 = SessionReportRequest /\ DestAddr kv.2 = smf) (map_to_list (txs (udp w)))).*1.
End SystemDemo.
Import SystemDemo.

Lemma schedule_reaches ms (P : @system DemoLib -> bool) :
  match doMoves env ms start with Some s => P s | None => false end = true ->
  exists s, doMoves env ms start = Some s /\ rtc (system_move env) start s /\ P s = true.
Proof.
  intros H. destruct (doMoves env ms start) as [s|] eqn:Hs; [|done].
  exists s. split; [done|]. split; [|done]. by eapply doMoves_steps.
Qed.

(** C19. A report can be relayed to the SMF twice although it is answered: the read loop decides
    that a copy is new before the goroutine that claims it runs, and in between the SMF's answer
    can be returned and the claim on the report forgotten. The schedule reads two identical
    datagrams and one answer, in no time at all, and ends with two different transactions
    relaying the report and the answer's own transaction in place to absorb copies. *)
Theorem answered_report_relayed_twice :
  exists s, doMoves env relayedTwice start = Some s /\
    rtc (system_move env) start s /\
    (clock (snd s) = clock (snd start) /\ length (relays_of (snd s)) = 2%nat /\
     is_Some (slot (UDPAddr_String upf) 7 (udp (snd s)))).
Proof.
  destruct (schedule_reaches relayedTwice (fun s =>
    bool_decide (clock (snd s) = clock (snd start)) &&
    (bool_decide (length (relays_of (snd s)) = 2%nat) &&
     bool_decide (slot (UDPAddr_String upf) 7 (udp (snd s)) = Some 2%nat))))
    as (s & Hs & Hr & HP); [vm_compute; reflexivity|].
  apply andb_prop in HP as [H1 HP]. apply andb_prop in HP as [H2 H3].
  apply bool_decide_eq_true in H1, H2, H3. exists s. by split_and!.
Qed.

(** C22. A late answer can end the process: the read loop looks a response's transaction up twice,
    and a transaction that times out between the two looks leaves it with a nil pointer, which it
    dereferences. *)
Theorem late_answer_panics :
  exists s, doMoves env lateAnswer start = Some s /\
    rtc (system_move env) start s /\ fst s !! 4%nat = Some Crash.
Proof.
  destruct (schedule_reaches lateAnswer (fun s =>
    match fst s !! 4%nat with Some Crash => true | _ => false end)) as (s & Hs & Hr & HP);
    [vm_compute; reflexivity|].
  exists s. split_and!; [done..|]. by destruct (fst s !! 4%nat) as [[| |]|].
Qed.

(** A schedule, a step and another schedule. *)
Lemma schedule_splits ms m ms' (P : @system DemoLib -> @system DemoLib -> @system DemoLib -> bool) :
  match doMoves env ms start with
  | Some s => match doMove env m s with
              | Some s1 => match doMoves env ms' s1 with Some s2 => P s s1 s2 | None => false end
              | None => false
              end
  | None => false
  end = true ->
  exists s s1 s2, rtc (system_move env) start s /\ system_move env s s1 /\
    rtc (system_move env) s1 s2 /\ P s s1 s2 = true.
Proof.
  intros H. destruct (doMoves env ms start) as [s|] eqn:Hs; [|done].
  destruct (doMove env m s) as [s1|] eqn:Hm; [|done].
  destruct (doMoves env ms' s1) as [s2|] eqn:Hs'; [|done]. exists s, s1, s2.
  split_and!; [by eapply doMoves_steps| |by eapply doMoves_steps|done].
  apply doMove_step in Hm as [Ha Hm]. split; [done|by eexists].
Qed.

Lemma every_schedule_witness :
  exists s, rtc (system_move env) start s /\ world_inv (snd s) /\ reachable (relays (snd s)).
Proof.
  destruct (schedule_reaches relayedOnce (fun _ => true)) as (s & _ & Hr & _);
    [vm_compute; reflexivity|].
  exists s. split; [exact Hr|].
  destruct (every_schedule env 1000 (fun _ => None) s Hr)
    as (H1 & H2 & _). split; assumption.
Defined.
