(* ===== verification/LivenessProps.v ===== *)
(** * LivenessProps: what happens in the end, and who may send where *)

From Stdlib Require Import Strings.Byte Strings.String.
From S2P Require Import Prelude GoNet NodeId Relay RelayTraces UpfAddrs SmfAddr UpfTxns UpfTable.
From S2P Require Import Pfcp Consumers Goroutine Fairness Ownership World Udp Handler Forward Process.
From S2P Require Import System SystemInv Ledger Custody Liveness Channels Stopping.
From S2P Require Import SystemProps.
Import SystemDemo.

#[local] Open Scope list_scope.
#[local] Open Scope Z_scope.

Section Theorems.
Context `{L : PfcpLib, !MapRange string, !MapRange Z} (e : Environment).

(** C7. A channel the SMF's request waits on is registered under one number at most, and while it is
    registered nothing has been sent into it -- at every moment of every schedule. So the one who
    takes it from the table is the first to send, and its send, into a channel with room for one
    answer, does not wait. *)
Theorem channels_exclusive t0 resolver s :
  rtc (system_move e) (initSystem e t0 resolver) s ->
  forall n ch, txns s.2 !! n = Some (Some ch) ->
    chans s.2 !! ch = None /\ forall n', txns s.2 !! n' = Some (Some ch) -> n' = n.
Proof.
  intros Hs n ch Hn. destruct (known_moves _ _ _ Hs (known_init _ _ _)) as [_ (ds & D & Hc)].
  pose proof (owned_all _ _ _ _ _ _ _ _ _ _ _ _ Hc) as HL. split; [by apply (led_txns _ _ HL n)|].
  intros n' Hn'. by apply (led_once _ _ HL n' n ch).
Qed.

(** C9. A registration that another request replaces is never answered: whatever happens afterwards,
    nothing is ever sent into the channel that was registered, so the handler waiting for it waits for
    as long as the process runs. A repeated request does that to the one in flight, the rollback of
    its own registration notwithstanding. *)
Theorem replaced_never_answered t0 resolver s s1 s2 n ch ch' :
  rtc (system_move e) (initSystem e t0 resolver) s -> system_move e s s1 -> rtc (system_move e) s1 s2 ->
  txns s.2 !! n = Some (Some ch) -> txns s1.2 !! n = Some (Some ch') -> ch' <> ch ->
  chans s2.2 !! ch = None /\ forall m, txns s2.2 !! m <> Some (Some ch).
Proof.
  intros Hs [_ [l Hl]] Hs2 Hn Hn' Hne.
  pose proof (known_moves _ _ _ Hs (known_init _ _ _)) as Hk.
  destruct (forsaken_moves e ch s1 s2 Hs2) as ((_ & Hch & Hno) & _); [|by eapply replaced_forsaken|done].
  by apply (system_step_ok e l s s1), Hk.
Qed.

Context (st : nat -> system (L := L)) (lb : nat -> option label).

(** C8. The goroutine started for a message read, and the one that runs a transaction, are started
    and come to their end in every fair run, or the process has ended before: whatever arrives,
    whoever else runs, they wait for nothing for ever. The one thing that may keep one of them is the
    lock of a node left read-locked by a panic, and it keeps none but the goroutine that has an
    association response to store. *)
Theorem workers_finish n g :
  fair_process e st lb -> worker g -> g ∈ spawned (st n).2 ->
  exists m, (n <= m)%nat /\
    (~ alive over (st m) \/
     (exists msg a, g = goDispatch msg a /\ MessageType msg = AssociationSetupResponse /\
        leftLocked (upfs (st m).2)) \/
     exists i k, (n <= k < m)%nat /\ (length (st k).1 <= i)%nat /\
       (st (S k)).1 !! i = Some (goCode e g) /\ (st m).1 !! i = Some (Ret ())).
Proof.
  intros Hf Hw Hg. destruct (spawned_starts e st lb Hf n g Hg) as (k & Hk & [He|[Hl Hgk]]); [exists k; auto|].
  destruct (worker_starts e st lb Hf k g Hl Hgk Hw) as (i & Hi & Hlv).
  destruct (lively_finishes e st lb Hf _ i (S k) _ _ Hlv) as (m & Hm & [He|[[Ha Hlk]|Hr]]).
  - exists m. split; [lia|by left].
  - exists m. split; [lia|]. right. left. destruct g as [|msg a| | | | |]; try done.
    exists msg, a. split_and!; [done|by apply bool_decide_eq_true in Ha|done].
  - exists m. split; [lia|]. right. right. exists i, k. split_and!; [lia|lia|done|apply Hlv|done].
Qed.

(** C5. A transaction made is let go: in every fair run there is a moment from which on no table holds
    it, whether it was answered, timed out, was refused by the table or its peer was released, unless
    the process ends. So the tables of the socket do not fill up with transactions that are over. *)
Theorem transaction_let_go n ptr :
  fair_process e st lb -> (ptr < nextTx (udp (st n).2))%nat ->
  exists m, (n <= m)%nat /\
    (~ alive over (st m) \/
     forall k c s, (m <= k)%nat -> slot c s (udp (st k).2) <> Some ptr).
Proof.
  intros Hf Hlt. destruct (transaction_goes e st lb Hf n ptr Hlt) as (m & Hm & [Hg|He]);
    [|exists m; auto]. exists m. split; [done|]. right. intros k c s Hk. apply (gone_slot e st lb Hf).
  eapply (gone_stays e st lb Hf ptr m k); [lia|done].
Qed.

(** C6. Told to stop, the process does: in every fair run in which the context of [main] is done at
    some moment, [main] returns -- requests that hang, a loop that waits for a datagram and a
    listener that has failed notwithstanding -- unless a panic has ended it before. *)
Theorem main_returns n :
  fair_process e st lb -> cancelled (proc (st n).2) = true ->
  exists m, (n <= m)%nat /\ (exited (proc (st m).2) = true \/ Crash ∈ (st m).1).
Proof.
  intros Hf Hc. destruct (main_ends e st lb Hf n Hc) as [m He]. exists (max n m). split; [lia|].
  destruct (not_alive over (st (max n m))); auto.
  apply (ended_stays env_step (startAll e) over clock st lb m); [apply Hf|lia|done].
Qed.
End Theorems.

(** ** A run *)

(** The schedule [stopped], after which nothing happens. *)
Definition stoppedRun : nat -> @system DemoLib := stateAt start (trace env stopped start).
Definition stoppedLabels : nat -> option label := labelAt (trace env stopped start).

Lemma stopped_fair : fair_process env stoppedRun stoppedLabels.
Proof.
  split.
  - exists 1000, (fun _ => None). unfold stoppedRun. by destruct (trace env stopped start).
  - destruct (schedule_reaches stopped (fun s => exited (proc s.2))) as (s & Hs & _ & Hx);
      [vm_compute; reflexivity|].
    apply finished_fair; [apply _|]. exact (trace_finished env stopped start s Hs Hx).
Qed.

(** Just before its goroutine is started the heartbeat's transaction is to be run. *)
Definition runsTx (ptr : nat) (w : World DemoLib) : bool :=
  existsb (fun g => match txOf g with Some p => (p =? ptr)%nat | None => false end) (spawned w).

Lemma runsTx_spawned ptr w : runsTx ptr w = true -> goTxLifeCycle ptr ∈ spawned w.
Proof.
  intros Hr. apply existsb_exists in Hr as (g & Hg & Ht). destruct (txOf g) as [p|] eqn:Hp; [|done].
  apply Nat.eqb_eq in Ht as ->. destruct g; simplify_eq/=. by apply list_elem_of_In.
Qed.

Lemma channels_exclusive_witness :
  exists s ch, rtc (system_move env) start s /\ txns s.2 !! 5 = Some (Some ch) /\ chans s.2 !! ch = None.
Proof.
  destruct (schedule_reaches forwarded (fun s => bool_decide (txns s.2 !! 5 = Some (Some 0%nat))))
    as (s & _ & Hr & Hb); [vm_compute; reflexivity|]. apply bool_decide_eq_true in Hb.
  exists s, 0%nat. split; [exact Hr|]. split; [exact Hb|].
  apply (channels_exclusive env 1000 (fun _ => None) s Hr 5 0%nat Hb).
Defined.

Lemma replaced_never_answered_witness :
  exists s2, rtc (system_move env) start s2 /\
    is_Some (wire s2.2 !! 0%nat) /\ txns s2.2 = ∅ /\ s2.1 !! 7%nat = Some (Ret ()) /\
    chans s2.2 !! 0%nat = None /\ forall m, txns s2.2 !! m <> Some (Some 0%nat).
Proof.
  destruct (schedule_splits repeated (Run 7 0) orphaned (fun s s1 s2 =>
    bool_decide (txns s.2 !! 5 = Some (Some 0%nat)) && (bool_decide (txns s1.2 !! 5 = Some (Some 1%nat)) &&
    (bool_decide (txns s2.2 = ∅) && (match s2.1 !! 7%nat with Some (Ret ()) => true | _ => false end &&
     match wire s2.2 with [] => false | _ => true end)))))
    as (s & s1 & s2 & H1 & H2 & H3 & HP); [vm_compute; reflexivity|].
  apply andb_prop in HP as [Ha HP]. apply andb_prop in HP as [Hb HP]. apply andb_prop in HP as [Hc HP].
  apply andb_prop in HP as [Hd He]. apply bool_decide_eq_true in Ha, Hb, Hc. exists s2.
  split; [etrans; [exact H1|eapply rtc_l; [exact H2|exact H3]]|].
  split; [destruct (wire s2.2); [discriminate|by eexists]|]. split; [exact Hc|].
  split; [destruct (s2.1 !! 7%nat) as [[[]| |]|]; (reflexivity || discriminate)|].
  apply (replaced_never_answered env 1000 (fun _ => None) s s1 s2 5 0%nat 1%nat H1 H2 H3 Ha Hb).
  discriminate.
Defined.

Lemma workers_finish_witness :
  exists m, (23 <= m)%nat /\
    (~ alive over (stoppedRun m) \/
     (exists (msg : @Message DemoLib) a, goTxLifeCycle 0 = goDispatch msg a /\ MessageType msg = AssociationSetupResponse /\
        leftLocked (upfs (stoppedRun m).2)) \/
     exists i k, (23 <= k < m)%nat /\ (length (stoppedRun k).1 <= i)%nat /\
       (stoppedRun (S k)).1 !! i = Some (goCode env (goTxLifeCycle 0)) /\
       (stoppedRun m).1 !! i = Some (Ret ())).
Proof.
  assert (H : goTxLifeCycle 0 ∈ spawned (stoppedRun 23).2)
    by (apply runsTx_spawned; vm_compute; reflexivity).
  exact (workers_finish env stoppedRun stoppedLabels 23 (goTxLifeCycle 0) stopped_fair I H).
Defined.

Lemma transaction_let_go_witness :
  exists m, (23 <= m)%nat /\
    (~ alive over (stoppedRun m) \/
     forall k c s, (m <= k)%nat -> slot c s (udp (stoppedRun k).2) <> Some 0%nat).
Proof.
  assert (H : (0 < nextTx (udp (stoppedRun 23).2))%nat) by (apply Nat.ltb_lt; vm_compute; reflexivity).
  exact (transaction_let_go env stoppedRun stoppedLabels 23 0 stopped_fair H).
Defined.

Lemma main_returns_witness :
  exists m, (60 <= m)%nat /\ (exited (proc (stoppedRun m).2) = true \/ Crash ∈ (stoppedRun m).1).
Proof.
  assert (H : cancelled (proc (stoppedRun 60).2) = true) by (vm_compute; reflexivity).
  exact (main_returns env stoppedRun stoppedLabels 60 stopped_fair H).
Defined.
