(* ===== verification/HandlerProps.v ===== *)
(** * HandlerProps: reports are answered once, and never forgotten in between *)

From Stdlib Require Import Strings.Byte Strings.String.
From S2P Require Import Prelude GoNet NodeId Relay RelayTraces UpfAddrs SmfAddr UpfTxns UpfTable.
From S2P Require Import Pfcp Consumers Goroutine World Udp Handler Forward Process System SystemInv.

#[local] Open Scope string_scope.
#[local] Open Scope list_scope.
#[local] Open Scope Z_scope.

(** ** A report is recognised at every moment *)

Section Cover.
Context `{L : PfcpLib, !MapRange string, !MapRange Z, !PfcpLaws L}.

(** The report [s] that [a] raised. *)
Context (a : UDPAddr) (s : Z).

Definition isFor (r : reportRelay) : Prop := upfAddr r = a /\ upfSeq r = s.

Definition claimedAs (k : Z) (w : World L) : Prop :=
  exists r, reportRelays (relays w) !! k = Some r /\ isFor r.

(** A copy is recognised by the claim on the report, or by the transaction of its answer. *)
Definition claimed (w : World L) : Prop := exists k, claimedAs k w.
Definition answering (w : World L) : Prop := is_Some (slot (UDPAddr_String a) s (udp w)).
Definition covered (w : World L) : Prop := claimed w \/ answering w.

(** The others neither end the claim -- by releasing the peer, ageing it out or forgetting it --
    nor the answer's transaction. *)
Definition patient (w w' : World L) : Prop :=
  others w w' /\ (forall k, claimedAs k w -> claimedAs k w') /\ (answering w -> answering w').

(** A step that does not uncover the report. *)
Definition covering (w w' : World L) : Prop := claimed w -> covered w'.

Lemma patient_steps w w' :
  rtc patient w w' ->
  (world_inv w -> world_inv w') /\ (world_inv w -> is_Some (connOf (udp w)) -> is_Some (connOf (udp w'))) /\
  (forall ptr tx, txs (udp w) !! ptr = Some tx -> txs (udp w') !! ptr = Some tx) /\
  (forall k, claimedAs k w -> claimedAs k w') /\ (answering w -> answering w').
Proof.
  induction 1 as [w|w1 w2 w3 ([Hi Hk] & Hc & Ha) _ (I & S & T & C & A)]; [by split_and!; auto|].
  destruct (Hk Hi) as [Hi2 Hs]. split_and!; auto.
  - intros _ Hc1. apply S; [done|]. by apply (wstep_server w1 w2 Hs).
  - intros ptr tx Hp. by apply T, (wstep_txs w1 w2 Hs).
Qed.

Lemma covering_same w w' : relays w' = relays w -> covering w w'.
Proof. intros Hr (k & r & Hk & Hf). left. exists k, r. by rewrite Hr. Qed.

Abbreviation wpc := (wp patient covering (fun _ => False)).

(** The server is up. *)
Definition connected (w : World L) : Prop :=
  world_inv w /\ is_Some (connOf (udp w)).

Lemma connected_steps w w' : rtc patient w w' -> connected w -> connected w'.
Proof.
  intros Hr [Hi Hc]. destruct (patient_steps _ _ Hr) as (HI & HS & _). by split; auto.
Qed.

Lemma connected_keeps w w' : keeps w w' -> connected w -> connected w'.
Proof.
  intros Hk [Hi Hc]. destruct (Hk Hi) as [Hi' Hst]. split; [done|]. by apply (wstep_server _ _ Hst).
Qed.

(** After registering a transaction under the report's own number at the peer, the report is
    covered by it, or by the one that was there. *)
Lemma put_answering ptr tx (w : World L) :
  udp_inv (udp w) -> txs (udp w) !! ptr = Some tx ->
  ConsumerAddr tx = UDPAddr_String a -> SequenceNumber tx = s ->
  is_Some (slot (UDPAddr_String a) s (snd (PutTransaction ptr tx (udp w)))).
Proof.
  intros Hu Htx <- <-. pose proof (put_spec ptr tx (udp w) Hu Htx) as Hp.
  destruct (PutTransaction ptr tx (udp w)) as [err u]. destruct Hp as (_ & _ & _ & _ & _ & Hp).
  destruct (slot _ _ (udp w)) as [p|] eqn:Hslot; destruct Hp as [_ Hs]; simpl; rewrite Hs.
  - rewrite Hslot. by eexists.
  - by rewrite decide_True.
Qed.

(** Steps that leave the relay table alone keep every claim. *)
Lemma claims_same w w' k : relays w' = relays w -> claimedAs k w -> claimedAs k w'.
Proof. intros Hr (r & Hk & Hf). exists r. by rewrite Hr. Qed.

Lemma register_spec ptr tx (cond : Prop) w0 w :
  connected w -> txs (udp w) !! ptr = Some tx ->
  (forall k, claimedAs k w0 -> claimedAs k w) ->
  (cond -> ConsumerAddr tx = UDPAddr_String a /\ SequenceNumber tx = s) ->
  wpc (registerAndStart ptr tx)
    (fun _ w' => connected w' /\ (forall k, claimedAs k w0 -> claimedAs k w') /\
       (cond -> answering w')) w.
Proof.
  intros Hw Htx HC Hcons. unfold registerAndStart. apply wp_bind, wp_attempt.
  intros w3 Hr3. destruct (patient_steps _ _ Hr3) as (_ & _ & HT & HC3 & _). apply HT in Htx.
  pose proof (connected_steps _ _ Hr3 Hw) as Hw3.
  destruct (Hw3) as [_ [conn Hconn]]. apply bind_Some in Hconn as (srv & -> & _).
  assert (Hrel : relays (snd (on_udp (PutTransaction ptr tx) w3)) = relays w3)
    by (unfold on_udp; by destruct (PutTransaction _ _ _)).
  assert (HC4 : forall k, claimedAs k w0 -> claimedAs k (snd (on_udp (PutTransaction ptr tx) w3)))
    by (intros k Hk; by eapply claims_same, HC3, HC).
  assert (Hans : cond -> answering (snd (on_udp (PutTransaction ptr tx) w3))).
  { intros Hcond. destruct (Hcons Hcond) as [H1 H2].
    pose proof (put_answering ptr tx w3 (winv_udp _ (proj1 Hw3)) Htx H1 H2) as Ha.
    unfold answering, on_udp. by destruct (PutTransaction _ _ _). }
  assert (Hw4 := connected_keeps _ _ (keeps_put _ _ _ Htx) Hw3).
  rewrite <- (put_keeps_txs ptr tx) in Htx.
  destruct (on_udp (PutTransaction ptr tx) w3) as [[err|] w4]; cbn [fst snd] in *;
    (split; [by apply covering_same|]); [done|].
  apply wp_bind, wp_modify. intros w5 Hr5. split; [by apply covering_same|].
  destruct (patient_steps _ _ Hr5) as (_ & _ & HT5 & HC5 & HA5). split_and!.
  - eapply connected_keeps; [|by eapply connected_steps; [exact Hr5|]].
    apply keeps_spawn. intros p [= <-]. exists tx. by apply HT5.
  - intros k Hk. eapply claims_same; [|by apply HC5, HC4]. done.
  - intros Hcond. by apply HA5, Hans.
Qed.

(** Sending leaves the claims alone; an answer to the report, once sent or refused for another
    one's sake, covers it. *)
Lemma send_spec msg addr ev w :
  connected w ->
  wpc (SendPfcp msg addr ev)
    (fun _ w' => connected w' /\ (forall k, claimedAs k w -> claimedAs k w') /\
       (IsResponse msg = true -> Sequence msg = s -> addr = a -> (exists b, Marshal msg = Ok b) ->
        answering w')) w.
Proof.
  intros Hw. unfold SendPfcp. apply wp_bind, wp_read. intros w1 Hr1.
  split; [by apply covering_same|].
  pose proof (connected_steps _ _ Hr1 Hw) as Hw1. destruct (Hw1) as [_ [conn Hc]].
  apply bind_Some in Hc as (srv & Hs & Hc). rewrite Hs, Hc. destruct (patient_steps _ _ Hr1) as (_ & _ & _ & HC1 & _).
  destruct (Marshal msg) as [b|e]; [|by split_and!; [done|done|intros _ _ _ [? ?]]].
  cbv zeta. set (tx := NewTransaction msg b conn addr ev).
  assert (Hcons : IsResponse msg = true -> Sequence msg = s -> addr = a ->
    ConsumerAddr tx = UDPAddr_String a /\ SequenceNumber tx = s).
  { unfold tx, NewTransaction, IsRequest, IsResponse. intros Hrsp <- <-.
    destruct (MessageType msg); by simpl in *. }
  apply wp_bind, wp_atomic. intros w2 Hr2. split; [by apply covering_same|].
  destruct (patient_steps _ _ Hr2) as (_ & _ & _ & HC2 & _).
  pose proof (connected_keeps _ _ (keeps_alloc tx w2) (connected_steps _ _ Hr2 Hw1)) as Hw2.
  assert (Htx : txs (udp (snd (on_udp (allocTx tx) w2))) !! nextTx (udp w2) = Some tx)
    by (simpl; by rewrite lookup_insert_eq).
  assert (HC2' : forall k, claimedAs k w -> claimedAs k (snd (on_udp (allocTx tx) w2)))
    by (intros k Hk; eapply claims_same; [|apply HC2, HC1, Hk]; done).
  clear HC1 HC2 Hr1 Hr2. cbn [on_udp allocTx fst snd] in *.
  eapply wp_mono; [|apply (register_spec _ tx (IsResponse msg = true /\ Sequence msg = s /\ addr = a));
    [exact Hw2|exact Htx|exact HC2'|naive_solver]].
  intros _ w' (? & ? & ?). split_and!; auto.
Qed.

(** Forgetting the claim once the answer's transaction is there. *)
Lemma forget_covers k w :
  connected w -> answering w ->
  wpc (forgetReportRelay k) (fun _ w' => connected w' /\ answering w') w.
Proof.
  intros Hw Ha. apply wp_modify. intros w1 Hr. destruct (patient_steps _ _ Hr) as (_ & _ & _ & _ & HA).
  split; [intros _; right; by apply HA|]. split; [|by apply HA].
  eapply connected_keeps; [by apply (keeps_relays (Forget k))|by eapply connected_steps].
Qed.

(** Taking the relay of a claimed report yields where it came from, and keeps the claim. *)
Lemma take_claims k (w : World L) :
  claimedAs k w ->
  let '(res, w') := on_relays (TakeReportRelay k (clock w)) w in
  claimedAs k w' /\ match res with Some (a', s') => a' = a /\ s' = s | None => True end.
Proof.
  intros (r & Hk & Hf). unfold on_relays.
  pose proof (TakeReportRelay_spec k (clock w) (relays w)) as Ht.
  destruct (TakeReportRelay k (clock w) (relays w)) as [[[a' s']|] r'].
  - destruct Ht as (r0 & Hr0 & _ & _ & -> & -> & Hrel & _). simplify_eq. destruct Hf as [<- <-].
    split; [|done]. eexists. split; [simpl; rewrite Hrel; by rewrite lookup_insert_eq|]. done.
  - destruct Ht as [-> _]. split; [|done]. by exists r.
Qed.

Lemma take_covers k w :
  connected w -> claimedAs k w ->
  wpc (takeReportRelay k)
    (fun res w' => connected w' /\ claimedAs k w' /\
       match res with Some (a', s') => a' = a /\ s' = s | None => True end) w.
Proof.
  intros Hw Hk. apply wp_atomic. intros w1 Hr1.
  destruct (patient_steps _ _ Hr1) as (_ & _ & _ & HC1 & _). apply HC1 in Hk.
  pose proof (take_claims _ _ Hk) as Htake. pose proof (keeps_relays (Take k (clock w1)) w1 I) as Hkeep.
  pose proof (connected_steps _ _ Hr1 Hw) as Hw1. unfold on_relays in *. simpl in Hkeep.
  destruct (TakeReportRelay k (clock w1) (relays w1)) as [res r']. cbn [fst snd] in *.
  destruct Htake as [Hc Hres]. apply (connected_keeps _ _ Hkeep) in Hw1.
  split; [intros _; left; by eexists|done].
Qed.

(** C11. From the claim on a report until its answer is on its way, a copy of it is recognised at
    every moment: returning the SMF's answer to the user plane registers the transaction that
    absorbs copies before it forgets the claim, and if the number is already being answered that
    transaction absorbs them. Other goroutines may do anything in between but end either. *)
Theorem answer_never_uncovers msg w :
  connected w -> claimedAs (Sequence msg) w -> MessageType msg = SessionReportResponse ->
  (exists b, Marshal (SetSequenceNumber s msg) = Ok b) ->
  wp patient covering (fun _ => False) (HandlePfcpSessionReportResponse msg)
     (fun _ w' => covered w') w.
Proof.
  intros Hw Hk Ht Hm. unfold HandlePfcpSessionReportResponse.
  destruct (negb _); [by left; exists (Sequence msg)|]. cbv zeta. apply wp_bind.
  eapply wp_mono; [|by apply take_covers]. intros res w1 (Hw1 & Hk1 & Hres).
  destruct res as [[a' s']|]; [destruct Hres as [-> ->]|left; by eexists].
  apply wp_bind. eapply wp_mono; [|by apply send_spec].
  intros _ w2 (Hw2 & _ & Ha2). eapply wp_mono; [|apply forget_covers; [exact Hw2|apply Ha2]].
  - intros _ w3 [_ Ha3]. by right.
  - unfold IsResponse. by rewrite MessageType_Set, Ht.
  - apply Sequence_Set.
  - done.
  - done.
Qed.

(** The library must be able to encode the rejection. *)
Context (Hreject : forall seid, exists b,
  Marshal (NewSessionReportResponse 0 0 seid s 0 (NewCause CauseRequestRejected)) = Ok b).

Lemma refuse_covers seid k w :
  connected w ->
  wpc (refuseAndRelease seid s a k) (fun _ w' => connected w' /\ answering w') w.
Proof.
  intros Hw. unfold refuseAndRelease, rejectSessionReport. apply wp_bind.
  eapply wp_mono; [|by apply send_spec]. intros _ w' (Hw' & _ & Ha'). apply forget_covers; [done|].
  apply Ha'; [|apply Sequence_NewReport|done|apply Hreject].
  unfold IsResponse. by rewrite MessageType_NewReport.
Qed.

(** Renumbering a claim on the report keeps it claimed, under the number returned. *)
Lemma renumber_claims k (w : World L) :
  claimedAs k w ->
  let '(res, r') := RenumberReportRelay k (relays w) in
  match res with
  | Ok k' => claimedAs k' (set_relays r' w)
  | Prelude.Err e => e <> ErrRelayNotHeld /\ claimedAs k (set_relays r' w)
  end.
Proof.
  intros (r & Hk & Hf). unfold RenumberReportRelay. rewrite Hk.
  destruct (nextFreeRelaySequence _ _ _ _) as [k'|].
  - exists r. split; [|done]. simpl. by rewrite lookup_insert_eq.
  - split; [done|]. by exists r.
Qed.

Lemma attempts_cover n msg smf seid k w :
  connected w -> claimedAs k w ->
  wpc (relayAttempts n msg smf seid s a k) (fun _ w' => covered w') w.
Proof.
  assert (Hrefuse : forall k w, connected w -> wpc (refuseAndRelease seid s a k) (fun _ w' => covered w') w).
  { intros k' w' Hw. eapply wp_mono; [|by apply refuse_covers]. intros _ w'' [_ Ha]. by right. }
  revert msg k w. induction n as [|n IH]; intros msg k w Hw Hk; cbn [relayAttempts]; [by apply Hrefuse|].
  cbv zeta. apply wp_bind. eapply wp_mono; [|by apply send_spec]. intros err w1 (Hw1 & HC1 & _).
  apply HC1 in Hk. destruct err as [e|]; [|left; by exists k].
  destruct e; try by apply Hrefuse.
  apply wp_bind, wp_atomic. intros w2 Hr2. destruct (patient_steps _ _ Hr2) as (_ & _ & _ & HC2 & _).
  apply HC2 in Hk. pose proof (connected_steps _ _ Hr2 Hw1) as Hw2.
  pose proof (renumber_claims k w2 Hk) as Hren. pose proof (keeps_relays (Renumber k) w2 I) as Hkeep.
  unfold on_relays. simpl in Hkeep. destruct (RenumberReportRelay k (relays w2)) as [res r'].
  cbn [fst snd] in *. apply (connected_keeps _ _ Hkeep) in Hw2.
  destruct res as [k'|e']; [|destruct Hren as [He' Hren]]; (split; [intros _; left; by eexists|]).
  - by apply IH.
  - destruct e'; [by apply Hrefuse..|done].
Qed.

(** C10. From the claim on a report until it has been handed to the SMF or refused, a copy of it
    is recognised at every moment: however often the number has to be changed, the claim is held
    throughout, and a refusal's transaction is registered before the claim is forgotten. This
    holds for any number of attempts and against whatever other goroutines do in between, as long
    as they do not end the claim or the answer themselves. *)
Theorem relay_never_uncovers n msg smf seid k w :
  connected w -> claimedAs k w ->
  wp patient covering (fun _ => False) (relayAttempts n msg smf seid s a k)
     (fun _ w' => covered w') w.
Proof. apply attempts_cover. Qed.

(** When the SMF never answers, the report is refused and stays recognised throughout: the
    relay is taken, the refusal registered, and only then the claim forgotten. *)
Theorem timeout_never_uncovers seid sent w :
  connected w -> claimedAs (Sequence sent) w ->
  wp patient covering (fun _ => False) (relayUnanswered seid sent) (fun _ w' => covered w') w.
Proof.
  intros Hw Hk. unfold relayUnanswered. apply wp_bind.
  eapply wp_mono; [|by apply take_covers]. intros res w1 (Hw1 & Hk1 & Hres).
  destruct res as [[a' s']|]; [destruct Hres as [-> ->]|left; by eexists].
  eapply wp_mono; [|by apply refuse_covers]. intros _ w2 [_ Ha2]. by right.
Qed.
End Cover.

(** ** Witnesses *)

Module HandlerDemo.
Definition here : UDPAddr := UDPAddr.mk (ParseIP.ParseIP "10.42.0.1") PFCP_PORT "".
Definition upf : UDPAddr := UDPAddr.mk (ParseIP.ParseIP "10.42.0.7") PFCP_PORT "".
Definition smf : UDPAddr := UDPAddr.mk (ParseIP.ParseIP "10.42.0.9") PFCP_PORT "".

Definition quiet : World DemoLib :=
  initWorld 1000 (fun _ => None) (mkServer here (Some (mkConn here))).

(** The report 7 of the user plane has been claimed as the first number of the range. *)
Definition claimedWorld : World DemoLib :=
  set_relays (exec (Claim upf 7 1000 0) (relays quiet)) quiet.

Definition answer : @Message DemoLib := Demo.mk 57 relaySequenceFloor 0 Demo.noFields.

Lemma quiet_connected : connected quiet.
Proof. split; [apply world_inv_init|]. by eexists. Qed.

Lemma claimed_connected : connected claimedWorld.
Proof. eapply connected_keeps; [by apply keeps_relays|apply quiet_connected]. Qed.

Lemma claimed_claimed : claimedAs (L := DemoLib) upf 7 relaySequenceFloor claimedWorld.
Proof. eexists. split; [vm_compute; reflexivity|by split]. Qed.

Lemma demo_reject seid : exists b, @Marshal DemoLib
  (@NewSessionReportResponse DemoLib 0 0 seid 7 0 (@NewCause DemoLib CauseRequestRejected)) = Ok b.
Proof. by eexists. Qed.

(** What a handler run alone in that world comes to. *)
Definition ends_covered (p : prog (World DemoLib) unit) : Prop :=
  match eval [] p claimedWorld with
  | Some (Val (_, w)) => covered (L := DemoLib) upf 7 w
  | Some Panic => exists w : World DemoLib, False
  | None => True
  end.
End HandlerDemo.
Import HandlerDemo.

Lemma relay_never_uncovers_witness :
  ends_covered (relayAttempts 4 answer smf 0 7 upf relaySequenceFloor).
Proof.
  apply (wp_eval _ _ _ [] _ _ _ (relay_never_uncovers upf 7 demo_reject 4 answer smf 0
    relaySequenceFloor claimedWorld claimed_connected claimed_claimed)).
Defined.

Lemma answer_never_uncovers_witness : ends_covered (HandlePfcpSessionReportResponse answer).
Proof.
  apply (wp_eval _ _ _ [] _ _ _ (answer_never_uncovers upf 7 answer claimedWorld
    claimed_connected claimed_claimed eq_refl ltac:(by eexists))).
Defined.

Lemma timeout_never_uncovers_witness : ends_covered (relayUnanswered 0 answer).
Proof.
  apply (wp_eval _ _ _ [] _ _ _ (timeout_never_uncovers upf 7 demo_reject 0 answer
    claimedWorld claimed_connected claimed_claimed)).
Defined.
