(* ===== verification/UdpProps.v ===== *)
(** * UdpProps: what sending, receiving and a transaction's life come to ([pfcp/udp/]) *)

From Stdlib Require Import Strings.Byte Strings.String.
From S2P Require Import Prelude GoNet Pfcp Consumers Goroutine World Udp Handler.

#[local] Open Scope string_scope.
#[local] Open Scope list_scope.
#[local] Open Scope Z_scope.

(** ** Sending *)

Section Sending.
Context `{L : PfcpLib}.

Lemma eval_send msg addr ev (w : World L) srv conn b :
  Server (udp w) = Some srv -> ServerConn srv = Some conn -> Marshal msg = Ok b ->
  let tx := NewTransaction msg b conn addr ev in
  let '(err, u) := PutTransaction (nextTx (udp w)) tx (snd (allocTx tx (udp w))) in
  eval [] (SendPfcp msg addr ev) w =
    Some (Val (err, match err with
                    | None => set_spawned (spawned w ++ [goTxLifeCycle (nextTx (udp w))]) (set_udp u w)
                    | Some _ => set_udp u w
                    end)).
Proof.
  intros Hs Hc Hb tx. unfold SendPfcp, server, read. rewrite eval_bind, eval_atomic. cbn [fst snd].
  rewrite Hs, Hc, Hb. fold tx. rewrite eval_bind, eval_atomic. cbn [on_udp allocTx fst snd].
  unfold registerAndStart. rewrite eval_bind. unfold putTransaction, on_udp. cbn [eval attempt udp set_udp Server hd tail].
  rewrite Hs. by destruct (PutTransaction _ tx _) as [[e|] u].
Qed.

(** What sending from [w] comes to. *)
Definition sendResult msg addr ev (w : World L) : Prop :=
  exists err w',
    eval [] (SendPfcp msg addr ev) w = Some (Val (err, w')) /\ wire w' = wire w /\
    match Server (udp w), Server (udp w) ≫= ServerConn, Marshal msg with
    | None, _, _ => err = Some errNotInitialized /\ w' = w
    | Some _, None, _ => err = Some errNotListening /\ w' = w
    | Some _, Some _, Prelude.Err e => err = Some (errText e) /\ w' = w
    | Some _, Some conn, Ok b =>
        let tx := NewTransaction msg b conn addr ev in
        let c := ConsumerAddr tx in
        udp_inv (udp w') /\
        match slot c (Sequence msg) (udp w) with
        | Some _ =>
            err = Some (ErrDuplicateSequence (Sequence msg)) /\ spawned w' = spawned w /\
            forall c' s', slot c' s' (udp w') = slot c' s' (udp w)
        | None =>
            err = None /\
            exists ptr, spawned w' = spawned w ++ [goTxLifeCycle ptr] /\
              txs (udp w') !! ptr = Some tx /\
              forall c' s', slot c' s' (udp w') =
                if decide (c' = c /\ s' = Sequence msg) then Some ptr else slot c' s' (udp w)
        end
    end.

Lemma send_result msg addr ev (w : World L) : udp_inv (udp w) -> sendResult msg addr ev w.
Proof.
  intros Hu. unfold sendResult. destruct (Server (udp w)) as [srv|] eqn:Hs; [destruct (ServerConn srv) as [conn|] eqn:Hc;
    [destruct (Marshal msg) as [b|e] eqn:Hm|]|].
  - pose proof (eval_send msg addr ev w srv conn b Hs Hc Hm) as He. cbv zeta in He |- *.
    simpl. rewrite Hc.
    set (tx := NewTransaction msg b conn addr ev) in *.
    assert (Hseq : SequenceNumber tx = Sequence msg).
    { unfold tx, NewTransaction. by destruct (IsRequest msg), (IsResponse msg). }
    pose proof (alloc_spec tx (udp w) Hu) as Ha. cbn [allocTx snd] in *.
    destruct Ha as (Hu1 & Htx & _ & _ & Hslot & _).
    pose proof (put_spec _ tx _ Hu1 Htx) as Hp.
    destruct (PutTransaction (nextTx (udp w)) tx _) as [err u].
    destruct Hp as (Hu' & Htxs & _ & _ & _ & Hp). rewrite Hslot, Hseq in Hp.
    eexists err, _. split; [exact He|]. split; [by destruct err|].
    destruct (slot (ConsumerAddr tx) (Sequence msg) (udp w)); destruct Hp as [-> Hp]; simpl.
    + by split_and!.
    + split; [done|]. split; [done|]. exists (nextTx (udp w)). split; [done|]. split; [by rewrite Htxs|].
      intros c' s'. rewrite Hp. by rewrite Hslot.
  - exists (Some (errText e)), w. split; [|simpl; by rewrite Hc].
    unfold SendPfcp, server, read. rewrite eval_bind, eval_atomic. cbn [fst snd]. by rewrite Hs, Hc, Hm.
  - exists (Some errNotListening), w. split; [|simpl; rewrite Hc; by destruct (Marshal msg)].
    unfold SendPfcp, server, read. rewrite eval_bind, eval_atomic. cbn [fst snd]. by rewrite Hs, Hc.
  - exists (Some errNotInitialized), w. split; [|by destruct (Marshal msg)].
    unfold SendPfcp, server, read. rewrite eval_bind, eval_atomic. cbn [fst snd]. by rewrite Hs.
Qed.
(** Sending leaves the relay table alone. *)
Lemma send_relays msg addr ev (w : World L) err w' :
  eval [] (SendPfcp msg addr ev) w = Some (Val (err, w')) -> relays w' = relays w.
Proof.
  intros He. destruct (Server (udp w)) as [srv|] eqn:Hs; [destruct (ServerConn srv) as [conn|] eqn:Hc;
    [destruct (Marshal msg) as [b|e] eqn:Hm|]|].
  1: { pose proof (eval_send msg addr ev w srv conn b Hs Hc Hm) as He'. cbv zeta in He'.
       destruct (PutTransaction _ _ _) as [e u]. rewrite He' in He. by destruct e; simplify_eq. }
  all: unfold SendPfcp, server in He; rewrite eval_read in He; rewrite ?Hs in He;
    rewrite ?Hc in He; rewrite ?Hm in He; simpl in He; by simplify_eq.
Qed.

(** Sending a message. It fails, changing nothing, while there is no server or socket or when
    the message cannot be encoded. Otherwise it is a transaction of its own: if the number is
    free at its consumer the call succeeds, the transaction with the encoded message, the
    destination and the caller's data is what a lookup finds there, and its life has been
    started; if not, the call says so, nothing that can be looked up changes and nothing is
    started. In no case is anything written by the call itself. *)
Theorem SendPfcp_spec msg addr ev (w : World L) :
  udp_inv (udp w) ->
  exists err w',
    eval [] (SendPfcp msg addr ev) w = Some (Val (err, w')) /\ wire w' = wire w /\
    match Server (udp w), Server (udp w) ≫= ServerConn, Marshal msg with
    | None, _, _ => err = Some errNotInitialized /\ w' = w
    | Some _, None, _ => err = Some errNotListening /\ w' = w
    | Some _, Some _, Prelude.Err e => err = Some (errText e) /\ w' = w
    | Some _, Some conn, Ok b =>
        let tx := NewTransaction msg b conn addr ev in
        let c := ConsumerAddr tx in
        udp_inv (udp w') /\
        match slot c (Sequence msg) (udp w) with
        | Some _ =>
            err = Some (ErrDuplicateSequence (Sequence msg)) /\ spawned w' = spawned w /\
            forall c' s', slot c' s' (udp w') = slot c' s' (udp w)
        | None =>
            err = None /\
            exists ptr, spawned w' = spawned w ++ [goTxLifeCycle ptr] /\
              txs (udp w') !! ptr = Some tx /\
              forall c' s', slot c' s' (udp w') =
                if decide (c' = c /\ s' = Sequence msg) then Some ptr else slot c' s' (udp w)
        end
    end.
Proof. apply send_result. Qed.
End Sending.

(** ** Receiving *)

Section Receiving.
Context `{L : PfcpLib}.

Lemma eval_find msg addr (w : World L) :
  Server (udp w) <> None -> IsRequest msg = true \/ IsResponse msg = true ->
  exists e, e <> ErrResendRequest /\ eval [] (findTransaction msg addr) w =
    Some (Val (match slot (UDPAddr_String addr) (Sequence msg) (udp w) with
               | Some ptr => Ok (Some ptr)
               | None => if IsResponse msg then Prelude.Err e else Ok None
               end, w)).
Proof.
  intros Hs Ht. unfold findTransaction, server, loadConsumer, loadTx, ConsumerTable.Load. cbv zeta.
  rewrite eval_read. destruct (Server (udp w)) as [srv|]; [|done]. unfold slot.
  assert (Hq : IsResponse msg = false -> IsRequest msg = true) by (intros Hr; rewrite Hr in Ht; by destruct Ht).
  destruct (consumers (udp w) !! UDPAddr_String addr) as [t|] eqn:Hc; simpl mbind.
  - exists (errSequenceNotFound (Sequence msg)). split; [done|].
    destruct (IsResponse msg); [|rewrite (Hq eq_refl)];
      rewrite eval_read, Hc, eval_read, Hc, eval_read; cbn [TxTable.Load];
      destruct (tableAt t (udp w) !! Sequence msg) eqn:Hp; try done;
      rewrite eval_read; cbn [TxTable.Load]; by rewrite Hp.
  - exists errTableNotFound. split; [done|].
    destruct (IsResponse msg); [|rewrite (Hq eq_refl)]; by rewrite eval_read, Hc.
Qed.

(** C25. What becomes of a message read, when nothing happens in between. A request whose sender
    is being answered under its number is not handed on: the answer's transaction is told to
    send it again. Any other request is handed on. A response is handed on exactly when a request
    sent from this socket's address is waiting under its number, which is told of it; otherwise it
    is dropped. What is neither is handed on. Only the event of that one transaction changes. *)
Theorem deliver_spec msg addr srvAddr (w : World L) :
  Server (udp w) <> None ->
  exists err w', eval [] (deliver msg addr srvAddr) w = Some (Val (err, w')) /\
    if IsRequest msg then
      match slot (UDPAddr_String addr) (Sequence msg) (udp w) with
      | Some ptr => err = Some ErrResendRequest /\
                    w' = set_udp (offerEvent ptr ReceiveResendRequest (udp w)) w
      | None => err = None /\ w' = w
      end
    else if IsResponse msg then
      match slot (UDPAddr_String srvAddr) (Sequence msg) (udp w) with
      | Some ptr => err = None /\ w' = set_udp (offerEvent ptr ReceiveValidResponse (udp w)) w
      | None => err <> None /\ err <> Some ErrResendRequest /\ w' = w
      end
    else err = None /\ w' = w.
Proof.
  intros Hs. unfold deliver. destruct (IsRequest msg) eqn:Hq.
  - destruct (eval_find msg addr w Hs (or_introl Hq)) as (e & _ & He).
    assert (Hr : IsResponse msg = false).
    { unfold IsRequest, IsResponse in *. by destruct (MessageType msg). }
    rewrite eval_bind, He, Hr. destruct (slot _ _ _) as [ptr|]; [|by eexists _, _].
    rewrite eval_modify. by eexists _, _.
  - destruct (IsResponse msg) eqn:Hr; [|by eexists _, _].
    destruct (eval_find msg srvAddr w Hs (or_intror Hr)) as (e & Hne & He).
    rewrite eval_bind, He, Hr. destruct (slot _ _ _) as [ptr|].
    + by eexists _, _.
    + eexists _, _. split; [done|]. split_and!; [done| |done]. congruence.
Qed.
End Receiving.

(** ** Witnesses *)

Module UdpDemo.
Definition here : UDPAddr := UDPAddr.mk (ParseIP.ParseIP "10.42.0.1") PFCP_PORT "".
Definition peer : UDPAddr := UDPAddr.mk (ParseIP.ParseIP "10.42.0.7") 40001 "".
Definition world : World DemoLib := initWorld 1000 (fun _ => None) (mkServer here (Some (mkConn here))).
Definition request : @Message DemoLib := Demo.mk 1 5 0 Demo.noFields.
Definition response : @Message DemoLib := Demo.mk 2 5 0 Demo.noFields.

(** The request has been sent. *)
Definition waiting : World DemoLib :=
  match eval [] (SendPfcp request peer None) world with Some (Val (_, w)) => w | _ => world end.
End UdpDemo.
Import UdpDemo.

Lemma SendPfcp_spec_witness :
  exists w', eval [] (SendPfcp request peer None) world = Some (Val (None, w')) /\
    is_Some (slot "10.42.0.1:8805" 5 (udp w')).
Proof.
  destruct (SendPfcp_spec request peer None world (udp_inv_init _)) as (err & w' & He & _ & Hres).
  cbn [Server udp world initWorld mbind option_bind ServerConn] in Hres.
  destruct Hres as (_ & -> & ptr & _ & _ & Hs). exists w'. split; [exact He|].
  change "10.42.0.1:8805" with (UDPAddr_String here). rewrite Hs, decide_True by done. by eexists.
Defined.

Lemma deliver_spec_witness :
  exists w', eval [] (deliver response peer here) waiting = Some (Val (None, w')) /\
    w' = set_udp (offerEvent 0 ReceiveValidResponse (udp waiting)) waiting.
Proof.
  destruct (deliver_spec response peer here waiting ltac:(vm_compute; discriminate)) as (err & w' & He & Hres).
  assert (Hs : slot (UDPAddr_String here) (@Sequence DemoLib response) (udp waiting) = Some 0%nat)
    by (vm_compute; reflexivity).
  change (@IsRequest DemoLib response) with false in Hres.
  change (@IsResponse DemoLib response) with true in Hres. cbv iota in Hres. rewrite Hs in Hres.
  destruct Hres as [-> Hw]. exists w'. split; [exact He|exact Hw].
Defined.
