(* ===== verification/TxLife.v ===== *)
(** * TxLife: how long a transaction lives and what it sends ([pfcp/udp/transaction.go])

    [Start] under interference: the clock advances, events are offered or not, the others write
    what they write. *)

From Stdlib Require Import Strings.Byte Strings.String.
From S2P Require Import Prelude GoNet Relay Pfcp Consumers Goroutine World Udp Handler.

#[local] Open Scope list_scope.
#[local] Open Scope Z_scope.

Section Life.
Context `{L : PfcpLib}.
Context (ptr : nat) (tx : Transaction ErrHandlerFn).

(** The copies of this transaction's message on the wire. *)
Definition writes (w : World L) : Z :=
  Z.of_nat (length (filter (fun p => p = (DestAddr tx, SendMsg tx)) (wire w))).

Definition noEvent (w : World L) : Prop := events (udp w) !! ptr = None.

(** Time does not go back and nobody else writes this message; besides, nobody offers an event
    ([silent]), or no time passes ([frozen]). *)
Record meanwhile (silent frozen : Prop) (w w' : World L) : Prop := {
  mw_clock : clock w <= clock w';
  mw_writes : writes w' = writes w;
  mw_silent : silent -> noEvent w -> noEvent w';
  mw_frozen : frozen -> clock w' = clock w;
}.

Context (silent frozen : Prop).

Lemma meanwhile_rtc w w' : rtc (meanwhile silent frozen) w w' -> meanwhile silent frozen w w'.
Proof.
  induction 1 as [w|w1 w2 w3 [C1 W1 S1 F1] _ [C2 W2 S2 F2]]; [by split|].
  split; [lia|congruence|auto|]. intros Hf. rewrite F2, F1; done.
Qed.

Abbreviation wpl := (wp (meanwhile silent frozen) (fun _ _ => True) (fun _ => False)).

Lemma newTimer_spec d w :
  wpl (newTimer d) (fun t w' => meanwhile silent frozen w w' /\ t = clock w' + d) w.
Proof. apply wp_read. intros w1 Hr. apply meanwhile_rtc in Hr. by split_and!. Qed.

Lemma write_spec w :
  wpl (writeToUDP (SendMsg tx) (DestAddr tx))
    (fun err w' => exists w1, meanwhile silent frozen w w1 /\
       match err with
       | None => w' = set_wire ((DestAddr tx, SendMsg tx) :: wire w1) w1
       | Some e => e = errWrite /\ w' = w1
       end) w.
Proof.
  apply wp_select. intros w1 i ready err w2 Hr Hi He. apply meanwhile_rtc in Hr. split; [done|].
  exists w1. split; [done|]. destruct i as [|[|i]]; simplify_list_eq; done.
Qed.

Lemma wait_spec timer w :
  wpl (waitEvent ptr timer)
    (fun ev w' => clock w <= clock w' /\ writes w' = writes w /\
       (ev = None -> timer <= clock w') /\ (silent -> noEvent w -> ev = None /\ noEvent w') /\
       (frozen -> clock w' = clock w)) w.
Proof.
  apply wp_select. intros w1 i ready ev w2 Hr Hi He. apply meanwhile_rtc in Hr.
  destruct Hr as [C W S F]. split; [done|].
  destruct i as [|[|i]]; simplify_list_eq; unfold takeEvent in He.
  - unfold noEvent in *. destruct (events (udp w1) !! ptr) as [e|] eqn:Hev; simplify_eq. simpl.
    split_and!; try done. intros Hs Hn. specialize (S Hs Hn). congruence.
  - destruct (timer <=? clock w1) eqn:Ht; simplify_eq. split_and!; auto. intros _. lia.
Qed.

Lemma writes_write w w1 :
  w1 = set_wire ((DestAddr tx, SendMsg tx) :: wire w) w -> writes w1 = writes w + 1.
Proof. intros ->. unfold writes. simpl wire.
  rewrite filter_cons_True by done. simpl. lia. Qed.

Definition requestTimeout : Duration := ResendRequestTimeOutPeriod * Second.
Definition responseTimeout : Duration := ResendResponseTimeOutPeriod * Second.

(** How a request that had [n] attempts left ends, from [w] in [w']: an attempt writes at most
    once; with no event at all it runs into its timeout, no sooner than [n] periods later. *)
Definition requestEnd (n : nat) (w : World L) (err : option error) (w' : World L) : Prop :=
  clock w <= clock w' /\ writes w <= writes w' <= writes w + Z.of_nat n /\
  (silent -> noEvent w ->
     err = Some errWrite \/
     err = Some (errRequestTimeout (SequenceNumber tx)) /\ writes w' = writes w + Z.of_nat n /\
       clock w + Z.of_nat n * requestTimeout <= clock w') /\
  match err with
  | None => writes w < writes w'
  | Some e => e = errWrite \/
              e = errRequestTimeout (SequenceNumber tx) /\ writes w' = writes w + Z.of_nat n
  end.

Lemma startRequest_spec n w : wpl (startRequest n ptr tx) (requestEnd n w) w.
Proof.
  revert w. induction n as [|n IH]; intros w; cbn [startRequest].
  { cbn [wp]. split_and!; [lia..| |right; split; [done|lia]].
    intros _ _. right. split; [done|]. lia. }
  apply wp_bind. eapply wp_mono; [|apply newTimer_spec]. intros t w1 [M1 ->]. cbv beta.
  apply wp_bind. eapply wp_mono; [|apply write_spec]. intros err w2 (w1' & M2 & Hw).
  destruct M1 as [C1 W1 S1 _], M2 as [C2 W2 S2 _]. destruct err as [e|].
  { destruct Hw as [-> ->]. cbn [wp]. split_and!; [lia|lia|lia|auto|by left]. }
  pose proof (writes_write _ _ Hw) as W3.
  assert (C3 : clock w2 = clock w1') by by subst w2.
  assert (N3 : noEvent w1' -> noEvent w2) by by subst w2. clear Hw.
  apply wp_bind. eapply wp_mono; [|apply wait_spec]. intros ev w3 (C4 & W4 & T4 & S4 & _).
  assert (Hnext : wpl (startRequest n ptr tx) (requestEnd (S n) w) w3).
  { eapply wp_mono; [|apply IH]. intros err w' (C & W & HS & HE). split_and!; [lia..| |].
    - intros Hsil Hno. destruct (S4 Hsil ltac:(auto)) as [-> N4]. specialize (T4 eq_refl).
      unfold requestTimeout in *. destruct (HS Hsil N4) as [|(-> & Hwr & Hcl)]; [by left|right].
      split_and!; [done|lia|lia].
    - destruct err as [e|]; [|lia]. destruct HE as [|[-> HE]]; [by left|right]. split; [done|lia]. }
  destruct ev as [[|]|]; [exact Hnext| |exact Hnext]. cbn [wp]. split_and!; [lia..| |lia].
  intros Hsil Hno. by destruct (S4 Hsil ltac:(auto)) as [? _].
Qed.

(** How a response ends that had [n] writes left and a window open until [timer]: with no event
    at all it writes once and stays until the window closes, and with no time passing it is used
    up by [n] writes. *)
Definition responseEnd (n : nat) (timer : Time) (w : World L) (err : option error) (w' : World L) : Prop :=
  clock w <= clock w' /\ writes w <= writes w' <= writes w + Z.of_nat n /\
  (silent -> noEvent w -> (0 < n)%nat ->
     err = Some errWrite \/
     err = Some (errResponseTimeout (SequenceNumber tx)) /\ writes w' = writes w + 1 /\
       timer <= clock w') /\
  (frozen -> clock w < timer ->
     err = Some errWrite \/ err = None /\ writes w' = writes w + Z.of_nat n /\ clock w' = clock w).

Lemma startResponse_spec n timer w : wpl (startResponse n timer ptr tx) (responseEnd n timer w) w.
Proof.
  revert timer w. induction n as [|n IH]; intros timer w; cbn [startResponse].
  { cbn [wp]. split_and!; [lia..| |]; [intros _ _; lia|]. intros _ _. right. split_and!; [done|lia..]. }
  apply wp_bind. eapply wp_mono; [|apply write_spec]. intros err w2 (w1' & M2 & Hw).
  destruct M2 as [C2 W2 S2 F2]. destruct err as [e|].
  { destruct Hw as [-> ->]. cbn [wp]. split_and!; [lia|lia|lia|auto..]. }
  pose proof (writes_write _ _ Hw) as W3.
  assert (C3 : clock w2 = clock w1') by by subst w2.
  assert (N3 : noEvent w1' -> noEvent w2) by by subst w2. clear Hw.
  apply wp_bind. eapply wp_mono; [|apply wait_spec]. intros ev w3 (C4 & W4 & T4 & S4 & F4).
  assert (Hnext : forall timer' w3', clock w3 <= clock w3' -> writes w3' = writes w3 -> ev <> None ->
    (frozen -> clock w3' = clock w3 /\ (clock w < timer -> clock w3' < timer')) ->
    wpl (startResponse n timer' ptr tx) (responseEnd (S n) timer w) w3').
  { intros timer' w3' C5 W5 Hev F5. eapply wp_mono; [|apply IH].
    intros err w' (C & W & _ & HF). split_and!; [lia..| |].
    - intros Hsil Hno _. by destruct (S4 Hsil ltac:(auto)) as [-> _].
    - intros Hfr Ht. destruct (F5 Hfr) as [E5 H5].
      destruct (HF Hfr (H5 Ht)) as [|(-> & Hwr & Hcl)]; [by left|right].
      rewrite F4, C3, F2 in * by done. split_and!; [done|lia|congruence]. }
  destruct ev as [[|]|].
  - apply wp_bind. eapply wp_mono; [|apply newTimer_spec]. intros t w4 [[C5 W5 _ F5] ->]. cbv beta.
    apply Hnext; [lia|done|done|]. intros Hfr. split; [auto|]. unfold ResendResponseTimeOutPeriod, Second. lia.
  - apply Hnext; [lia|done|done|]. intros Hfr. split; [done|]. rewrite F4, C3, F2 by done. lia.
  - specialize (T4 eq_refl). cbn [wp]. split_and!; [lia..| |].
    + intros _ _ _. right. split_and!; [done|lia|lia].
    + intros Hfr Ht. rewrite F4, C3, F2 in T4 by done. lia.
Qed.
End Life.

(** ** Nothing waits for ever *)

(** From some time on, the next step can be taken, whatever it is; and so on to the end, which a
    tree of steps has. *)
Fixpoint timely `{L : PfcpLib} {A} (p : prog (World L) A) : Prop :=
  match p with
  | Ret _ => True
  | Crash => False
  | Act f k =>
      (forall w, exists t, forall t', t <= t' -> exists c, is_Some (f c (set_clock t' w))) /\
      (forall c w, is_Some (f c w) -> timely (k c w))
  end.

Section Timely.
Context `{L : PfcpLib}.

Lemma timely_bind {A B} (p : prog (World L) A) (k : A -> prog (World L) B) :
  timely p -> (forall a, timely (k a)) -> timely (bind p k).
Proof.
  intros Hp Hk. induction p as [a| |f p IH]; simpl in *; [apply Hk|done|].
  destruct Hp as [Hf Hp]. split; [done|]. intros c w Hc. by apply IH, Hp.
Qed.

Lemma timely_read {A} (op : World L -> A) : timely (read op).
Proof. split; [|done]. intros w. exists 0. intros t' _. exists 0%nat. by eexists. Qed.

Lemma timely_write b addr : timely (L := L) (writeToUDP b addr).
Proof.
  split.
  - intros w. exists 0. intros t' _. exists 0%nat. by eexists.
  - intros [|[|c]] w [w' Hw]; done.
Qed.

Lemma timely_wait ptr timer : timely (L := L) (waitEvent ptr timer).
Proof.
  split.
  - intros w. exists timer. intros t' Ht. exists 1%nat. simpl.
    apply Z.leb_le in Ht. rewrite Ht. by eexists.
  - intros [|[|c]] w [w' Hw]; simpl in *; [| |done].
    + by destruct (takeEvent ptr (udp w)) as [[]|].
    + by destruct (timer <=? clock w).
Qed.

Lemma timely_startRequest n ptr tx : timely (L := L) (startRequest n ptr tx).
Proof.
  induction n as [|n IH]; cbn [startRequest]; [done|].
  apply timely_bind; [apply timely_read|]. intros t. apply timely_bind; [apply timely_write|].
  intros [e|]; [done|]. apply timely_bind; [apply timely_wait|]. by intros [[]|].
Qed.

Lemma timely_startResponse n timer ptr tx : timely (L := L) (startResponse n timer ptr tx).
Proof.
  revert timer. induction n as [|n IH]; intros timer; cbn [startResponse]; [done|].
  apply timely_bind; [apply timely_write|]. intros [e|]; [done|].
  apply timely_bind; [apply timely_wait|]. intros [[]|]; [|done..].
  by apply timely_bind; [apply timely_read|].
Qed.
End Timely.

(** ** Properties *)

Section Properties.
Context `{L : PfcpLib}.

(** C26. A request is written at most three times, whatever it is told meanwhile, and ends well only
    if it has been written and told of something; with nobody answering it is given up after
    three writes, no sooner than nine seconds after it began -- unless a write fails -- and its
    three periods together are less than the lifetime of a report's claim, which so outlives the
    request that relays it. *)
Theorem request_attempts ptr tx (w : World L) :
  TxType tx = SendingRequest ->
  wp (meanwhile ptr tx False False) (fun _ _ => True) (fun _ => False) (Start ptr tx)
    (fun err w' => writes tx w' <= writes tx w + Z.of_nat NumOfResend /\
       match err with
       | None => writes tx w < writes tx w'
       | Some e => e = errWrite \/
                   e = errRequestTimeout (SequenceNumber tx) /\
                   writes tx w' = writes tx w + Z.of_nat NumOfResend
       end) w /\
  (noEvent ptr w ->
   wp (meanwhile ptr tx True False) (fun _ _ => True) (fun _ => False) (Start ptr tx)
     (fun err w' => err = Some errWrite \/
        err = Some (errRequestTimeout (SequenceNumber tx)) /\
        writes tx w' = writes tx w + Z.of_nat NumOfResend /\
        clock w + Z.of_nat NumOfResend * requestTimeout <= clock w') w) /\
  Z.of_nat NumOfResend * requestTimeout < reportRelayLifetime.
Proof.
  intros Ht. unfold Start. rewrite Ht. split_and!; [|intros Hno|done].
  - eapply wp_mono; [|apply startRequest_spec]. intros err w' (_ & Hw & _ & He). split; [lia|done].
  - eapply wp_mono; [|apply startRequest_spec]. intros err w' (_ & _ & Hs & _). by apply Hs.
Qed.

(** C27. A response is written at most three times. While nobody asks for it again it is written
    once and its window stays open for fifteen seconds. But the window is also used up by three
    requests to resend: the third is taken and not answered, and the transaction ends at once --
    with no time passing it ends only so, after exactly three writes. *)
Theorem response_window ptr tx (w : World L) :
  TxType tx = SendingResponse ->
  wp (meanwhile ptr tx False False) (fun _ _ => True) (fun _ => False) (Start ptr tx)
    (fun err w' => writes tx w' <= writes tx w + Z.of_nat NumOfResend) w /\
  (noEvent ptr w ->
   wp (meanwhile ptr tx True False) (fun _ _ => True) (fun _ => False) (Start ptr tx)
     (fun err w' => err = Some errWrite \/
        err = Some (errResponseTimeout (SequenceNumber tx)) /\ writes tx w' = writes tx w + 1 /\
        clock w + responseTimeout <= clock w') w) /\
  wp (meanwhile ptr tx False True) (fun _ _ => True) (fun _ => False) (Start ptr tx)
    (fun err w' => err = Some errWrite \/
       err = None /\ writes tx w' = writes tx w + Z.of_nat NumOfResend /\ clock w' = clock w) w.
Proof.
  intros Ht. unfold Start. rewrite Ht. split_and!; [|intros Hno|]; apply wp_bind;
    (eapply wp_mono; [|apply newTimer_spec]); intros t w1 [[C W S F] ->]; cbv beta;
    (eapply wp_mono; [|apply startResponse_spec]); intros err w' (_ & Hw & Hs & Hf).
  - lia.
  - unfold responseTimeout. destruct (Hs I (S I Hno)) as [|(-> & ? & ?)]; [unfold NumOfResend; lia|by left|].
    right. split_and!; [done|lia|lia].
  - destruct (Hf I) as [|(-> & ? & ?)]; [unfold ResendResponseTimeOutPeriod, Second; lia|by left|].
    right. specialize (F I). split_and!; [done|lia|lia].
Qed.

(** C28. No transaction waits for ever, and none panics: whenever one waits, its timer lets it go
    on, and there is an end to its steps. *)
Theorem Start_timely ptr tx : timely (L := L) (Start ptr tx).
Proof.
  unfold Start. destruct (TxType tx); [apply timely_startRequest|].
  apply timely_bind; [apply timely_read|]. intros t. apply timely_startResponse.
Qed.
End Properties.

(** ** Witnesses *)

Module TxLifeDemo.
Definition here : UDPAddr := UDPAddr.mk (ParseIP.ParseIP "10.42.0.1") PFCP_PORT "".
Definition peer : UDPAddr := UDPAddr.mk (ParseIP.ParseIP "10.42.0.7") PFCP_PORT "".
Definition conn : UDPConn := mkConn here.
Definition world : World DemoLib := initWorld 1000 (fun _ => None) (mkServer here (Some conn)).

Definition request : Transaction ErrHandlerFn :=
  @NewTransaction _ DemoLib (Demo.mk 1 5 0 Demo.noFields) [] conn peer None.
Definition response : Transaction ErrHandlerFn :=
  @NewTransaction _ DemoLib (Demo.mk 57 7 0 Demo.noFields) [] conn peer None.

(** A resend request is waiting, and one comes in each time. *)
Definition asked : World DemoLib := set_udp (offerEvent 0 ReceiveResendRequest (udp world)) world.
End TxLifeDemo.
Import TxLifeDemo.

Lemma request_attempts_witness :
  wp (meanwhile 0 request True False) (fun _ _ => True) (fun _ => False) (Start 0 request)
    (fun err w' => err = Some errWrite \/
       err = Some (errRequestTimeout 5) /\ writes request w' = 3 /\
       1000 + 9 * Second <= clock w') world.
Proof. apply (request_attempts 0 request world eq_refl). reflexivity. Defined.

Lemma response_window_witness :
  wp (meanwhile 0 response False True) (fun _ _ => True) (fun _ => False) (Start 0 response)
    (fun err w' => err = Some errWrite \/
       err = None /\ writes response w' = 3 /\ clock w' = 1000) asked.
Proof. apply (response_window 0 response asked eq_refl). Defined.
