(* ===== verification/Quiet.v ===== *)
(** * Quiet: what most programs never do

    Three things are left to one program each: claiming a report, to the handler of reports; telling
    a transaction that it has been answered, to the loop that reads; and taking an answer out of a
    channel, to the handler of an HTTP request. Here every other program is gone through once, to
    see that it does none of them. *)

From Stdlib Require Import Strings.Byte Strings.String.
From S2P Require Import Prelude GoNet NodeId Relay RelayTraces RelayProps UpfAddrs SmfAddr UpfTxns.
From S2P Require Import UpfTable Pfcp Consumers Goroutine World Udp Handler Forward Process System.

#[local] Open Scope list_scope.
#[local] Open Scope Z_scope.

(** ** Reports added *)

(** A report of that address is being relayed. *)
Definition relayed (h : string) (st : Relays) : Prop :=
  exists k r, reportRelays st !! k = Some r /\ hostOf (upfAddr r) = h.

Section Relays.
Context `{!MapRange string, !MapRange Z}.

Lemma relayed_sub h st st' :
  (forall k r, reportRelays st' !! k = Some r -> relayed (hostOf (upfAddr r)) st) ->
  relayed h st' -> relayed h st.
Proof. intros Hsub (k & r & Hk & <-). by eapply Hsub. Qed.

Lemma relayed_here k r st : reportRelays st !! k = Some r -> relayed (hostOf (upfAddr r)) st.
Proof. intros Hk. by exists k, r. Qed.

(** Only a claim adds an address, its own, and only quoting the count. *)
Lemma relayed_exec op h st :
  relayed h (exec op st) ->
  relayed h st \/
  exists a s t, op = Claim a s t (RelayGeneration h st) /\ hostOf a = h.
Proof.
  destruct op as [a s t gen|k|h' t|k t|k]; cbn [exec].
  - unfold RelayReportSequence. destruct (RelayGeneration (hostOf a) st =? gen) eqn:Hg; [|by left].
    apply Z.eqb_eq in Hg. cbn [negb].
    assert (Hsweep : relayed h (sweepRelaysLocked t st) -> relayed h st).
    { apply relayed_sub. intros k r Hk. by eapply relayed_here, sweep_sub. }
    destruct (relayFromLocked _ _ _ _); [by left; apply Hsweep|].
    destruct (nextFreeRelaySequence _ _ _ _) as [k'|]; [|by left; apply Hsweep].
    intros (k & r & Hk & Hr). simpl in Hk. rewrite lookup_insert in Hk. case_decide; simplify_eq/=.
    + right. by exists a, s, t.
    + left. apply Hsweep. by exists k, r.
  - intros H. left. revert H. unfold RenumberReportRelay.
    destruct (reportRelays st !! k) as [r0|] eqn:Hk0; [|done].
    destruct (nextFreeRelaySequence _ _ _ _) as [k'|]; [|done]. apply relayed_sub.
    intros k2 r. simpl. rewrite lookup_insert. case_decide; [intros [= <-]; by eapply relayed_here|].
    rewrite reportRelays_drop, lookup_delete. case_decide; [done|]. apply relayed_here.
  - intros H. left. revert H. apply relayed_sub. intros k r. unfold ForgetRelaysForHost. rewrite drops_lookup.
    case_decide; [done|]. apply relayed_here.
  - intros H. left. revert H. pose proof (TakeReportRelay_spec k t st) as Ht.
    destruct (TakeReportRelay k t st) as [[[a s]|] st']; simpl.
    + destruct Ht as (r & Hr & _ & _ & -> & _ & Hst & _). apply relayed_sub. intros k2 r2.
      rewrite Hst, lookup_insert. case_decide; [intros [= <-]; by apply (relayed_here k r)|apply relayed_here].
    + by destruct Ht as [-> _].
  - intros H. left. revert H. apply relayed_sub. intros k2 r. unfold ForgetReportRelay.
    rewrite reportRelays_drop, lookup_delete. case_decide; [done|]. apply relayed_here.
Qed.
End Relays.

(** ** Steps *)

Section Quiet.
Context `{L : PfcpLib, !MapRange string, !MapRange Z}.

Abbreviation prog := (prog (World L)).

(** The transaction has been told that it is answered, and has not taken note of it. *)
Definition told (ptr : nat) (w : World L) : Prop := events (udp w) !! ptr = Some ReceiveValidResponse.

(** An answer is in the channel. *)
Definition filled (ch : nat) (w : World L) : Prop := is_Some (chans w !! ch).

(** Unless it claims, it adds no report; unless it tells, no transaction is told; and unless it
    drains, what is in a channel stays there. *)
Record stillness (claims tells drains : bool) (w w' : World L) : Prop := {
  still_relayed h : claims = false -> relayed h (relays w') -> relayed h (relays w);
  still_told ptr : tells = false -> told ptr w' -> told ptr w;
  still_filled ch : drains = false -> filled ch w -> filled ch w';
  still_next : (nextChan w <= nextChan w')%nat;
}.

Context {claims tells drains : bool}.

Abbreviation still := (stillness claims tells drains).

(** What all this is about, but for the relays, is as it was. *)
Abbreviation apart w' w :=
  (events (udp w') = events (udp w) /\ chans w' = chans w /\ nextChan w' = nextChan w).
Abbreviation alike w' w := (relays w' = relays w /\ apart w' w).

(** So does no step, whatever the others do. *)
Definition quiet {A} (p : prog A) : Prop := every (fun _ _ => True) still p.

Lemma still_same w w' : alike w' w -> still w w'.
Proof.
  intros (Hr & He & Hc & Hn). unfold told, filled. split; unfold told, filled; rewrite ?Hr, ?He, ?Hc, ?Hn; done.
Qed.

Lemma still_refl w : still w w.
Proof. by apply still_same. Qed.

Lemma quiet_ret {A} (a : A) : quiet (Ret a).
Proof. apply every_ret. Qed.

Lemma quiet_bind {A B} (p : prog A) (k : A -> prog B) :
  quiet p -> (forall a, quiet (k a)) -> quiet (bind p k).
Proof. apply every_bind. Qed.

Lemma quiet_read {A} (op : World L -> A) : quiet (read op).
Proof. apply every_read, still_refl. Qed.

Lemma quiet_atomic {A} (op : World L -> A * World L) :
  (forall w, alike (snd (op w)) w) -> quiet (atomic op).
Proof. intros Hop. apply every_atomic. intros w. apply still_same, Hop. Qed.

Lemma quiet_modify (op : World L -> World L) :
  (forall w, alike (op w) w) -> quiet (modify op).
Proof. intros Hop. by apply quiet_atomic. Qed.

Lemma quiet_attempt {A} (op : World L -> outcome (A * World L)) :
  (forall w, match op w with Val (_, w') => alike w' w | Panic => True end) -> quiet (attempt op).
Proof.
  intros Hop. apply every_attempt; [apply still_refl|]. intros w. specialize (Hop w).
  destruct (op w) as [[a w']|]; [by apply still_same|done].
Qed.

Lemma quiet_select {A} (cases : list (World L -> option (A * World L))) :
  Forall (fun ready => forall w, match ready w with Some (_, w') => still w w' | None => True end)
    cases ->
  quiet (select cases).
Proof. apply every_select. Qed.

Lemma quiet_recovered {A} (p : prog A) : quiet p -> quiet (recovered p).
Proof. apply every_recovered. Qed.

Lemma quiet_deref {A} (x : option A) : quiet (deref x).
Proof. apply every_deref. Qed.

Lemma quiet_lift {A} (x : outcome A) : quiet (lift x).
Proof. apply every_lift. Qed.

(** An operation of the relay table that is not a claim. *)
Lemma quiet_relays {A} (op : World L -> A * World L) (f : World L -> relay_op) :
  (forall w, relays (snd (op w)) = exec (f w) (relays w) /\ apart (snd (op w)) w) ->
  (forall w, match f w with Claim _ _ _ _ => claims = true | _ => True end) -> quiet (atomic op).
Proof.
  intros Hop Hf. apply every_atomic. intros w. destruct (Hop w) as (Hr & He & Hc & Hn). split.
  - intros h Hcl Hh. rewrite Hr in Hh.
    destruct (relayed_exec _ _ _ Hh) as [|(a & s & t & Heq & _)]; [done|]. specialize (Hf w).
    rewrite Heq in Hf. congruence.
  - intros ptr _. unfold told. by rewrite He.
  - intros ch _. unfold filled. by rewrite Hc.
  - by rewrite Hn.
Qed.

Lemma quiet_claim a s t gen :
  claims = true -> quiet (atomic (on_relays (RelayReportSequence a s t gen))).
Proof using All.
  intros Hc. apply (quiet_relays _ (fun _ => Claim a s t gen)); [|done]. intros w. unfold on_relays.
  simpl. by destruct (RelayReportSequence a s t gen (relays w)).
Qed.

Lemma quiet_take k : quiet (takeReportRelay k).
Proof using All.
  apply (quiet_relays _ (fun w => Take k (clock w))); [|done]. intros w. unfold on_relays. simpl.
  by destruct (TakeReportRelay k (clock w) (relays w)).
Qed.

Lemma quiet_forget k : quiet (forgetReportRelay k).
Proof using All. by apply (quiet_relays _ (fun _ => Forget k)). Qed.

Lemma quiet_renumber k : quiet (atomic (on_relays (RenumberReportRelay k))).
Proof using All.
  apply (quiet_relays _ (fun _ => Renumber k)); [|done]. intros w. unfold on_relays. simpl.
  by destruct (RenumberReportRelay k (relays w)).
Qed.

Lemma quiet_on_txns {A} (op : gmap Z (option nat) -> A * gmap Z (option nat)) : quiet (atomic (on_txns op)).
Proof. apply quiet_atomic. intros w. unfold on_txns. by destruct (op (txns w)). Qed.

(** A move of the socket's tables. *)
Lemma quiet_on_udp {A} (op : Udp ErrHandlerFn -> A * Udp ErrHandlerFn) :
  (forall u, events (snd (op u)) = events u) -> quiet (atomic (on_udp op)).
Proof.
  intros Hop. apply quiet_atomic. intros w. unfold on_udp. specialize (Hop (udp w)).
  by destruct (op (udp w)).
Qed.

Lemma quiet_alloc tx : quiet (atomic (on_udp (allocTx tx))).
Proof. by apply quiet_on_udp. Qed.

Lemma quiet_delete t s ptr : quiet (atomic (on_udp (TxTable.DeleteIf t s ptr))).
Proof.
  apply quiet_on_udp. intros u. unfold TxTable.DeleteIf. destruct t; [|done]. by case_decide.
Qed.

Lemma quiet_ForgetConsumer a : quiet (modify (fun w => set_udp (ForgetConsumer a (udp w)) w)).
Proof.
  apply quiet_modify. intros w. split; [done|]. simpl. unfold ForgetConsumer. by destruct (Server (udp w)).
Qed.

Lemma quiet_releaseEach released : quiet (releaseEach released).
Proof.
  induction released as [|a released IH]; unfold_release; [apply quiet_ret|].
  apply quiet_bind; [by apply (quiet_relays _ (fun w => Release a (clock w)))|]. intros _.
  apply quiet_bind; [apply quiet_ForgetConsumer|]. done.
Qed.

(** Leaving a transaction an event, which may be that it is answered. *)
Lemma quiet_offer ptr ev :
  tells = true \/ ev <> ReceiveValidResponse ->
  quiet (modify (fun w => set_udp (offerEvent ptr ev (udp w)) w)).
Proof.
  intros Hev. apply every_modify. intros w. split; [done| |done|done]. intros q Ht. unfold told, offerEvent. simpl.
  destruct (events (udp w) !! ptr); [done|]. simpl. rewrite lookup_insert. case_decide; [|done].
  intros [= ->]. by destruct Hev; congruence.
Qed.

Lemma quiet_set_txns op : quiet (modify (fun w => set_txns (op w) w)).
Proof. by apply quiet_modify. Qed.

Lemma quiet_go g : quiet (go g).
Proof. by apply quiet_modify. Qed.

Lemma quiet_onProc f : quiet (onProc f).
Proof. by apply quiet_modify. Qed.

Lemma quiet_resolve n : quiet (attempt (resolve n)).
Proof.
  apply quiet_attempt. intros w. unfold resolve. by destruct (ResolveNodeIdToIp _ _ _) as [[ip cache]|].
Qed.

Lemma quiet_preserve upf rsp : quiet (preservePfcpAssociationRsp upf rsp).
Proof.
  apply quiet_bind.
  - apply quiet_attempt. intros w. by destruct (PreservePfcpAssociationRsp _ _ _) as [[t|]|].
  - intros [|]; [apply quiet_ret|]. apply quiet_bind; [|intros; apply quiet_lift].
    apply quiet_select, Forall_singleton. intros w.
    by destruct (PreservePfcpAssociationRsp _ _ _) as [[t|]|].
Qed.

Lemma quiet_lastAssociationRsp k : quiet (lastAssociationRsp k).
Proof.
  apply quiet_select, Forall_singleton. intros w. by destruct (readLastAssoRsp _ _) as [[rsp t]|].
Qed.

Lemma quiet_insertUpfNode n : quiet (insertUpfNode n).
Proof. apply quiet_attempt. intros w. by destruct (InsertUpfNode _ _ _ _) as [[cache t]|]. Qed.

Lemma quiet_refresh : quiet refresh.
Proof. apply quiet_attempt. intros w. by destruct (RefreshDnsHostIpCache _ _). Qed.

Lemma quiet_put ptr tx : quiet (putTransaction ptr tx).
Proof.
  apply quiet_attempt. intros w. unfold on_udp. destruct (Server (udp w)); [|done].
  pose proof (put_rest ptr tx (udp w)) as (_ & He & _). by destruct (PutTransaction ptr tx (udp w)).
Qed.
End Quiet.

(** The cases of a select, one by one. *)
Ltac quiet_cases :=
  apply quiet_select; repeat first [apply Forall_nil_2 | apply Forall_cons_2]; intros w;
  repeat case_match; simplify_eq; try done; by apply still_same.

Section Waits.
Context `{L : PfcpLib, !MapRange string, !MapRange Z} {claims tells drains : bool}.

Abbreviation quiet := (quiet (L := L) (claims := claims) (tells := tells) (drains := drains)).

Lemma quiet_write b addr : quiet (writeToUDP b addr).
Proof. unfold writeToUDP. quiet_cases. Qed.

Lemma quiet_waitEvent ptr timer : quiet (waitEvent ptr timer).
Proof.
  apply quiet_select; repeat first [apply Forall_nil_2 | apply Forall_cons_2]; intros w.
  - unfold takeEvent. destruct (events (udp w) !! ptr); [|done]. split; [done| |done|done]. intros q _. unfold told.
    simpl. rewrite lookup_delete. by case_decide.
  - destruct (timer <=? clock w); [by apply still_same|done].
Qed.

Lemma quiet_readFromUDP : quiet readFromUDP.
Proof. unfold readFromUDP. quiet_cases. Qed.

Lemma quiet_sendChan ch rsp : quiet (sendChan ch rsp).
Proof.
  apply quiet_select, Forall_singleton. intros w. destruct (chans w !! ch) eqn:Hch; [done|].
  split; try done. intros ch' _ Hf. unfold filled. simpl. rewrite lookup_insert. by case_decide.
Qed.

Lemma quiet_recvChan ch : drains = true -> quiet (recvChan ch).
Proof.
  intros Hd. apply quiet_select, Forall_singleton. intros w. destruct (chans w !! ch); [|done].
  split; try done. congruence.
Qed.

Lemma quiet_makeChan : quiet (atomic makeChan).
Proof. apply every_atomic. intros w. split; try done. simpl. lia. Qed.

Lemma quiet_waitDone done : quiet (waitDone done).
Proof. unfold waitDone. quiet_cases. Qed.

Lemma quiet_known ip : quiet (isKnownUpfAddr ip).
Proof. unfold isKnownUpfAddr. case_decide; [apply quiet_ret|]. quiet_cases. Qed.

Lemma quiet_lock t ip node : quiet (lockAndRecord t ip node).
Proof. unfold lockAndRecord. quiet_cases. Qed.

Lemma quiet_unlock : quiet unlockUpfAddrs.
Proof. by apply quiet_modify. Qed.
End Waits.

Create HintDb quiet.
#[export] Hint Resolve quiet_ret quiet_read quiet_deref quiet_lift quiet_take quiet_forget
  quiet_renumber quiet_releaseEach quiet_on_txns quiet_alloc quiet_delete quiet_set_txns quiet_go
  quiet_onProc quiet_resolve quiet_preserve quiet_lastAssociationRsp quiet_insertUpfNode
  quiet_refresh quiet_put quiet_write
  quiet_waitEvent quiet_readFromUDP quiet_sendChan quiet_makeChan quiet_waitDone quiet_known quiet_lock
  quiet_unlock quiet_recovered : quiet.

(** Goes through a program, one operation at a time. *)
Ltac quiet_step :=
  match goal with
  | |- quiet (match ?x with _ => _ end) => destruct x
  | |- quiet (if ?b then _ else _) => destruct b
  | |- quiet (let '(_, _) := ?x in _) => destruct x
  | |- quiet _ => solve [auto with quiet]
  | |- quiet (bind _ _) => apply quiet_bind; [|intros]
  | |- quiet (select _) => solve [quiet_cases]
  | |- quiet (wait _) => solve [unfold wait; quiet_cases]
  | |- quiet (modify _) => solve [by apply quiet_modify]
  end.
Ltac quiet_all := repeat (cbv zeta; quiet_step).

Section Programs.
Context `{L : PfcpLib, !MapRange string, !MapRange Z} (e : Environment) {claims tells drains : bool}.

Abbreviation quiet := (quiet (L := L) (claims := claims) (tells := tells) (drains := drains)).

Lemma quiet_SendPfcp msg addr ev : quiet (SendPfcp msg addr ev).
Proof. unfold SendPfcp, server, registerAndStart. quiet_all. Qed.

Lemma quiet_startRequest iter ptr tx : quiet (startRequest iter ptr tx).
Proof. induction iter as [|iter IH]; cbn [startRequest]; unfold newTimer; quiet_all. Qed.

Lemma quiet_startResponse iter timer ptr tx : quiet (startResponse iter timer ptr tx).
Proof.
  revert timer. induction iter as [|iter IH]; intros timer; cbn [startResponse]; unfold newTimer; quiet_all.
Qed.

Hint Resolve quiet_SendPfcp quiet_startRequest quiet_startResponse : quiet.

Lemma quiet_Start ptr tx : quiet (Start ptr tx).
Proof. unfold Start, newTimer. quiet_all. Qed.

Lemma quiet_remove ptr tx : quiet (removeTransaction ptr tx).
Proof. unfold removeTransaction, server, loadConsumer. quiet_all. Qed.

Lemma quiet_findTransaction msg addr : quiet (findTransaction msg addr).
Proof. unfold findTransaction, server, loadConsumer, loadTx. quiet_all. Qed.

Hint Resolve quiet_Start quiet_remove quiet_findTransaction : quiet.

Lemma quiet_deliver msg addr srvAddr : tells = true -> quiet (deliver msg addr srvAddr).
Proof. intros Ht. unfold deliver. quiet_all; apply quiet_offer; by auto. Qed.

Lemma quiet_readLoop : tells = true -> quiet readLoop.
Proof.
  intros Ht. unfold readLoop, readRound, readPfcpMessage, server. quiet_all; by apply quiet_deliver.
Qed.

Lemma quiet_encodeAndSendRsp msg : quiet (encodeAndSendRsp msg).
Proof. unfold encodeAndSendRsp, getUpfPfcpTxn. quiet_all. Qed.

Lemma quiet_sendErrRsp msg err : quiet (sendErrRsp msg err).
Proof. unfold sendErrRsp, getUpfPfcpTxn. quiet_all. Qed.

Lemma quiet_reject seid n a : quiet (rejectSessionReport seid n a).
Proof. unfold rejectSessionReport. quiet_all. Qed.

Hint Resolve quiet_encodeAndSendRsp quiet_sendErrRsp quiet_reject : quiet.

Lemma quiet_relayAttempts n report smf seid s a k :
  quiet (relayAttempts n report smf seid s a k).
Proof using All.
  revert report k. induction n as [|n IH]; intros report k; cbn [relayAttempts];
    unfold refuseAndRelease; quiet_all.
Qed.

Lemma quiet_startTxLifeCycle ptr tx : quiet (startTxLifeCycle ptr tx).
Proof using All.
  unfold startTxLifeCycle, callErrHandler, HandlePfcpSendError, relayUnanswered, refuseAndRelease.
  quiet_all.
Qed.

Lemma quiet_recordUpfAddr n : quiet (recordUpfAddr n).
Proof. unfold recordUpfAddr, now. quiet_all. Qed.

Hint Resolve quiet_relayAttempts quiet_startTxLifeCycle quiet_recordUpfAddr : quiet.

Lemma quiet_Forward ip msg n : drains = true -> quiet (ForwardPfcpMsgToUpf ip msg n).
Proof.
  intros Hd. pose proof (fun ch => quiet_recvChan (L := L) (claims := claims) (tells := tells) ch Hd).
  unfold ForwardPfcpMsgToUpf, answerAssociation, BuildPfcpAssociationResponse, registerAndSend, awaitAnswer,
    insertUpfPfcpTxn, forgetUpfPfcpTxn, SendPfcpAssociationSetupRequest, SendHeartbeatRequest,
    SendPfcpSessionEstablishmentRequest, SendPfcpSessionModificationRequest,
    SendPfcpSessionDeletionRequest, sendTo. quiet_all.
Qed.

Lemma quiet_handler ip addr failed body : drains = true -> quiet (handler ip addr failed body).
Proof. intros Hd. unfold handler, checkClaim. quiet_all. by apply quiet_Forward. Qed.

Lemma quiet_main : quiet (main e).
Proof.
  unfold main, setLevelFromEnv, SetLogLevel, Process.serve, newTimer, Shutdown. quiet_all.
Qed.
Hint Resolve quiet_main : quiet.

Lemma quiet_report msg a : claims = true -> quiet (HandlePfcpSessionReportRequest msg a).
Proof using All.
  intros Hc. unfold HandlePfcpSessionReportRequest, now. quiet_all; by apply quiet_claim.
Qed.

(** Only the handler of reports claims, only the loop that reads tells, and only a handler of a
    request drains a channel. *)
Lemma quiet_goCode g :
  match g with
  | goDispatch msg _ => MessageType msg <> SessionReportRequest \/ claims = true
  | goReadLoop => tells = true
  | goHandler _ _ _ => drains = true
  | _ => True
  end -> quiet (goCode e g).
Proof using All.
  destruct g; cbn [goCode]; intros Hg.
  - quiet_all.
  - unfold Dispatch, HandlePfcpHeartbeatResponse, HandlePfcpAssociationSetupResponse,
      HandlePfcpSessionEstablishmentResponse, HandlePfcpSessionModificationResponse,
      HandlePfcpSessionDeletionResponse, HandlePfcpSessionReportResponse, activateUpfNode.
    destruct (MessageType msg); try (apply quiet_report; by destruct Hg); quiet_all.
  - unfold serveRequest. quiet_all. by apply quiet_recovered, quiet_handler.
  - unfold runPfcp, Run, now, Udp.serve. quiet_all.
  - by apply quiet_readLoop.
  - unfold listen, ListenAndServe. quiet_all.
  - unfold refreshLoop. quiet_all.
Qed.
End Programs.

#[export] Hint Resolve quiet_SendPfcp quiet_reject quiet_relayAttempts quiet_recordUpfAddr : quiet.
