(* ===== verification/Answering.v ===== *)
(** * Answering: how a request of the SMF comes to its answer

    Four goroutines have a part in it, one after the other: the handler of the request registers a
    channel and waits; the goroutine of its transaction writes it, and on silence takes the channel
    out of the table to send the failure; the loop that reads tells that transaction of a response,
    and from then on owes the start of a fourth, which dispatches the response and takes the channel
    out to send the answer. Here each is followed to where it hands over: so the channel is taken
    out in the end, by one or the other. *)

From Stdlib Require Import Strings.Byte Strings.String.
From S2P Require Import Prelude GoNet NodeId Relay RelayTraces UpfAddrs SmfAddr UpfTxns UpfTable.
From S2P Require Import Pfcp Consumers Goroutine Fairness Ownership World Udp Handler Forward Process.
From S2P Require Import System SystemInv Ledger Custody Liveness Channels Stopping Quiet.

#[local] Open Scope list_scope.
#[local] Open Scope Z_scope.

(** ** The loop that reads owes a dispatch *)

Section Debts.
Context `{L : PfcpLib, !MapRange string, !MapRange Z}.

Abbreviation prog := (prog (World L)).

Definition responds (n : Z) (msg : Message) : Prop := IsResponse msg = true /\ Sequence msg = n.

(** The goroutine that dispatches a response with that number is to be started. *)
Definition dispatching (n : Z) (w : World L) : Prop :=
  exists msg a, goDispatch msg a ∈ spawned w /\ responds n msg.

(** A goroutine's debt is the number of a response it is to start the dispatch of. It is incurred by
    telling a transaction, and paid by starting the dispatch. *)
Record settles (o o' : option Z) (w w' : World L) : Prop := {
  settles_told ptr : told ptr w' ->
    told ptr w \/ exists tx, txs (udp w) !! ptr = Some tx /\ o' = Some (SequenceNumber tx);
  settles_paid n : o = Some n -> o' = Some n \/ dispatching n w';
}.

(** [pays p Q o w]: run from [w] with the debt [o] while others do what they do, each step of [p]
    settles; while it owes, it waits for nobody; and it returns in [Q]. *)
Fixpoint pays {A} (p : prog A) (Q : A -> option Z -> World L -> Prop) (o : option Z) (w : World L)
    : Prop :=
  match p with
  | Ret a => Q a o w
  | Crash => True
  | Act f k =>
      (is_Some o -> forall w1, rtc world_step w w1 -> exists c, is_Some (f c w1)) /\
      forall w1 c w2, rtc world_step w w1 -> world_inv w1 -> f c w1 = Some w2 ->
        exists o', settles o o' w1 w2 /\ pays (k c w1) Q o' w2
  end.

Lemma pays_bind {A B} (p : prog A) (k : A -> prog B) Q o w :
  pays p (fun a o w => pays (k a) Q o w) o w -> pays (bind p k) Q o w.
Proof.
  revert o w. induction p as [a| |f p IH]; intros o w; simpl; [done..|]. intros [Hf Hp].
  split; [done|]. intros w1 c w2 Hr Hi Hc. destruct (Hp w1 c w2 Hr Hi Hc) as (o' & Hs & Hk).
  exists o'. split; [done|]. by apply IH.
Qed.

Lemma pays_mono {A} (p : prog A) (Q Q' : A -> option Z -> World L -> Prop) o w :
  (forall a o w, Q a o w -> Q' a o w) -> pays p Q o w -> pays p Q' o w.
Proof.
  intros HQ. revert o w. induction p as [a| |f p IH]; intros o w; simpl; [auto|done|]. intros [Hf Hp].
  split; [done|]. intros w1 c w2 Hr Hi Hc. destruct (Hp w1 c w2 Hr Hi Hc) as (o' & Hs & Hk).
  exists o'. split; [done|]. by apply IH.
Qed.

(** What it comes to when nothing else is said: no debt is left. *)
Definition clear {A} (a : A) (o : option Z) (w : World L) : Prop := o = None.

(** A program that tells no transaction stays without debt. *)
Lemma pays_quiet {A} (p : prog A) w :
  quiet (claims := true) (tells := false) (drains := true) p -> pays p clear None w.
Proof.
  intros Hq. specialize (Hq w). revert w Hq. induction p as [a| |f p IH]; intros w; simpl; [done..|].
  intros Hq. split; [by intros []|]. intros w1 c w2 _ _ Hf.
  destruct (Hq w1 (rtc_once _ _ I) c w2 Hf) as [Hs Hp]. exists None.
  split; [|by apply IH]. split; [|done]. intros ptr Ht. left. by apply Hs.
Qed.

Lemma pays_read {A} (op : World L -> A) (Q : A -> option Z -> World L -> Prop) w :
  (forall w1, rtc world_step w w1 -> world_inv w1 -> Q (op w1) None w1) -> pays (read op) Q None w.
Proof.
  intros Hop. split; [by intros []|]. intros w1 [|c] w2 Hr Hi Hf; simplify_eq. exists None.
  split; [|by apply Hop]. split; [|done]. by left.
Qed.

(** A step that is always possible. *)
Lemma pays_modify (op : World L -> World L) (Q : unit -> option Z -> World L -> Prop) o o' w :
  (forall w1, rtc world_step w w1 -> world_inv w1 -> settles o o' w1 (op w1) /\ Q () o' (op w1)) ->
  pays (modify op) Q o w.
Proof.
  intros Hop. split; [intros _ w1 _; exists O; by eexists|].
  intros w1 [|c] w2 Hr Hi Hf; simplify_eq. exists o'. by apply Hop.
Qed.

(** What others do leaves a goroutine where it stands with its debt. *)
Lemma pays_other {A} (p : prog A) o w w' : world_step w w' -> pays p clear o w -> pays p clear o w'.
Proof.
  intros Hs. destruct p as [a| |f k]; [done..|]. intros [Hf Hp]. split.
  - intros Ho w1 Hr. apply Hf; [done|]. by eapply rtc_l.
  - intros w1 c w2 Hr. apply Hp. by eapply rtc_l.
Qed.
End Debts.

Section Reading.
Context `{L : PfcpLib, !MapRange string, !MapRange Z}.

(** A transaction found is found under the number of the response. *)
Lemma pays_findTransaction msg addr w :
  IsResponse msg = true ->
  pays (L := L) (findTransaction msg addr) (fun found o w => o = None /\
    forall ptr, found = Ok (Some ptr) ->
      exists tx, txs (udp w) !! ptr = Some tx /\ SequenceNumber tx = Sequence msg) None w.
Proof.
  intros Hm. unfold findTransaction, server, loadConsumer, loadTx. rewrite Hm.
  apply pays_bind, pays_read. intros w1 _ _. destruct (Server (udp w1)); [|done].
  apply pays_bind, pays_read. intros w2 _ _. destruct (ConsumerTable.Load _ _); [|done].
  apply pays_bind, pays_read. intros w3 _ _. apply pays_bind, pays_read. intros w4 _ _.
  destruct (TxTable.Load _ _ _); [|done]. apply pays_bind, pays_read. intros w5 _ Hi. split; [done|].
  intros ptr [= Hptr]. unfold TxTable.Load in Hptr.
  destruct (ConsumerTable.Load _ (udp w3)); [|done]. by eapply inv_entry; [apply Hi|].
Qed.

Lemma txs_stay (w w' : World L) ptr tx :
  rtc world_step w w' -> txs (udp w) !! ptr = Some tx -> txs (udp w') !! ptr = Some tx.
Proof. induction 1 as [|w1 w2 w3 H12 _ IH]; [done|]. intros Htx. by apply IH, (wstep_txs _ _ H12). Qed.

(** What is left owing when a message has been read: the dispatch of a response that was matched. *)
Definition matched (msg : Message) (o : option Z) : Prop :=
  o = None \/ (IsResponse msg = true /\ o = Some (Sequence msg)).

Lemma pays_deliver msg addr srvAddr w :
  pays (L := L) (deliver msg addr srvAddr) (fun err o w => match err with
                                                           | None => matched msg o
                                                           | Some _ => o = None
                                                           end) None w.
Proof.
  unfold deliver. destruct (IsRequest msg).
  { eapply pays_mono; [|apply pays_quiet].
    - intros [e|] o w' Ho; [done|by left].
    - quiet_all; [apply quiet_findTransaction|]. apply quiet_offer. by right. }
  destruct (IsResponse msg) eqn:Hm; [|by left].
  apply pays_bind. eapply pays_mono; [|by apply pays_findTransaction]. intros found o w1 [-> Hfound].
  destruct found as [[ptr|]|e]; [|done..]. destruct (Hfound ptr eq_refl) as (tx & Htx & Hseq).
  cbn [deref bind]. apply pays_bind, (pays_modify _ _ _ (Some (Sequence msg))). intros w2 Hr Hi.
  split; [|by right]. split; [|done]. intros q. unfold told, offerEvent. simpl.
  destruct (events (udp w2) !! ptr) eqn:He; [by left|]. simpl. rewrite lookup_insert.
  case_decide; [subst q|by left]. intros _. right. exists tx. split; [by eapply txs_stay|congruence].
Qed.

Lemma pays_readRound w : pays (L := L) readRound clear None w.
Proof.
  unfold readRound, readPfcpMessage, server.
  apply pays_bind, pays_bind, pays_read. intros w1 _ _. destruct (Server (udp w1)) as [srv|]; [|done].
  destruct (ServerConn srv); [|done]. apply pays_bind.
  eapply pays_mono; [|apply pays_quiet, quiet_readFromUDP]. intros got o w2 ->.
  destruct got as [[b addr]|e]; [|done]. destruct (Parse b) as [msg|e]; [|done].
  apply pays_bind. eapply pays_mono; [|apply pays_deliver]. intros [e|] o w3; [by intros ->|].
  intros Ho. apply pays_bind, (pays_modify _ _ _ None). intros w4 _ _. split; [|done]. split.
  - intros ptr Ht. by left.
  - intros n ->. right. exists msg, addr. split; [apply elem_of_app; right; by apply list_elem_of_singleton|].
    destruct Ho as [|[Hm Hn]]; simplify_eq. done.
Qed.

Lemma pays_goCode e g w : pays (L := L) (goCode e g) clear None w.
Proof using All.
  destruct g; try (apply pays_quiet, quiet_goCode; by auto).
  cbn [goCode]. unfold readLoop. apply pays_bind. eapply pays_mono; [|apply pays_readRound].
  intros more o w' ->. apply pays_quiet. destruct more; [apply quiet_go|apply quiet_onProc].
Qed.
End Reading.

(** ** Two programs that take the channel out *)

Section Heads.
Context `{L : PfcpLib, !MapRange string, !MapRange Z}.

(** Another than [ch], or none, is registered under the number. *)
Definition settled (n : Z) (ch : nat) (w : World L) : Prop := txns w !! n <> Some (Some ch).

Lemma settled_fetch n ch (w : World L) : settled n ch (snd (on_txns (GetUpfPfcpTxn n) w)).
Proof.
  unfold settled, on_txns, GetUpfPfcpTxn, txnAt. destruct (txns w !! n) as [[c|]|] eqn:Hn; simpl;
    rewrite ?lookup_delete_eq, ?Hn; done.
Qed.

(** The library read the element, or panicked over it. *)
Definition readable {E A} (x : outcome (result E A)) : bool :=
  match x with Val (Prelude.Err _) => false | _ => true end.

(** Responses that are passed on to the request they answer: those of the types for which there is
    a handler that does so, in which it can read what it looks at. *)
Definition conclusive (msg : Message) : bool :=
  isA (MessageType msg) msg &&
  (match Marshal msg with Ok _ => true | Prelude.Err _ => false end &&
   match MessageType msg with
   | HeartbeatResponse => readable (RecoveryTimeStamp (field FRecoveryTimeStamp msg))
   | AssociationSetupResponse =>
       readable (RecoveryTimeStamp (field FRecoveryTimeStamp msg)) &&
       match Cause (field FCause msg) with
       | Val (Prelude.Err _) => false
       | Val (Ok CauseRequestAccepted) => readable (NodeIDOf (field FNodeID msg))
       | _ => true
       end
   | SessionEstablishmentResponse | SessionModificationResponse | SessionDeletionResponse => true
   | _ => false
   end).

Section Generic.
Context (R : World L -> World L -> Prop) (ready : World L -> Prop).

Abbreviation heads ch n := (heads clock R ready (settled n ch)).

(** Passing an answer on takes the channel out. *)
Lemma heads_answers {A} ch n (rest : option nat -> prog (World L) A) Q w :
  heads ch n (bind (getUpfPfcpTxn n) rest) Q w.
Proof. apply heads_bind, heads_atomic. intros w1 _. left. apply settled_fetch. Qed.

Lemma heads_encode ch msg (rest : bool -> prog (World L) unit) Q w :
  match Marshal msg with Ok _ => true | Prelude.Err _ => false end = true ->
  heads ch (Sequence msg) (bind (encodeAndSendRsp msg) rest) Q w.
Proof.
  intros Hm. unfold encodeAndSendRsp. destruct (Marshal msg); [|done]. apply heads_bind, heads_answers.
Qed.

(** The others leave no lock. *)
Definition free (w : World L) : Prop :=
  ~ leftLocked (upfs w) /\ forall w1 w2, R w1 w2 -> ~ leftLocked (upfs w2).

Lemma free_stays w w1 : free w -> rtc R w w1 -> free w1.
Proof. intros [Hw HR] Hr. split; [|done]. induction Hr as [|w w1 w2 H1 _ IH]; [done|]. by eapply IH, HR. Qed.

(** Nothing has to be waited for to store a response then. *)
Lemma heads_preserve {A} ch n upf rsp (rest : unit -> prog (World L) A) Q w :
  free w -> (forall w', heads ch n (rest ()) Q w') ->
  heads ch n (bind (preservePfcpAssociationRsp upf rsp) rest) Q w.
Proof.
  intros Hw Hrest. unfold preservePfcpAssociationRsp. apply heads_bind, heads_bind, heads_attempt.
  intros w1 stored w2 Hr Hp. right. pose proof (preserve_free upf rsp (upfs w1) (proj1 (free_stays _ _ Hw Hr))).
  destruct (PreservePfcpAssociationRsp _ _ _) as [[t|]|]; [|done..]. injection Hp as <- <-. apply Hrest.
Qed.

Lemma free_activate s k w : free w -> free (set_upfs (alter (setState s) k (upfs w)) w).
Proof. intros [Hw HR]. split; [|done]. intros Hl. by apply Hw, (activate_free s k). Qed.

(** A response that is passed on takes the channel out when it is dispatched; an association's is
    stored first. *)
Lemma heads_Dispatch ch msg a w :
  conclusive msg = true -> (MessageType msg = AssociationSetupResponse -> free w) ->
  heads ch (Sequence msg) (Dispatch msg a) (fun _ => settled (Sequence msg) ch) w.
Proof using All.
  unfold conclusive. intros [Ha [Hm Hc]%andb_prop]%andb_prop Hfree. unfold Dispatch.
  unfold HandlePfcpHeartbeatResponse, HandlePfcpAssociationSetupResponse,
    HandlePfcpSessionEstablishmentResponse, HandlePfcpSessionModificationResponse,
    HandlePfcpSessionDeletionResponse.
  destruct (MessageType msg); try done; rewrite Ha; cbn [negb]; try by apply heads_encode.
  - unfold readable in Hc. destruct (RecoveryTimeStamp _) as [[t|e]|]; [|done..]. by apply heads_encode.
  - apply andb_prop in Hc as [Ht Hc].
    destruct (RecoveryTimeStamp _) as [[t|e]|]; [|done..]. cbn [lift bind].
    destruct (Cause _) as [[cause|e]|]; [|done..]. cbn [lift bind].
    destruct (decide (cause = CauseRequestAccepted)) as [->|]; [|by apply heads_encode].
    unfold readable in Hc. destruct (NodeIDOf _) as [[s|e]|]; [|done..]. cbn [lift bind].
    unfold activateUpfNode. apply heads_bind, heads_bind, heads_atomic. intros w1 H1. right. cbn [fst snd].
    pose proof (free_stays _ _ (Hfree eq_refl) H1) as Hw1. destruct (GetUpfFromNodeId _ _) as [k|].
    + apply heads_bind, heads_atomic. intros w2 H2. right. cbn [fst snd].
      apply heads_preserve; [by apply free_activate, (free_stays w1)|]. intros w3. by apply heads_encode.
    + apply heads_preserve; [done|]. intros w3. by apply heads_encode.
Qed.
End Generic.

(** *** A transaction that is not told of a response *)

Section Untold.
Context (ptr : nat) (tx : Transaction ErrHandlerFn).

(** Its failure is sent to the request it was made for: the message sent can be read again, and is
    of one of the types that are forwarded. *)
Definition reported : bool :=
  bool_decide (TxType tx = SendingRequest) &&
  bool_decide (EventData tx ≫= ErrHandler = Some HandlePfcpSendErrorFn) &&
  match Parse (SendMsg tx) with
  | Prelude.Err _ => false
  | Ok msg =>
      bool_decide (Sequence msg = SequenceNumber tx) &&
      match MessageType msg with
      | AssociationSetupRequest | HeartbeatRequest | SessionEstablishmentRequest
      | SessionModificationRequest | SessionDeletionRequest => true
      | _ => false
      end
  end.

(** The others move the state, and do not tell it. *)
Definition untelling (w w' : World L) : Prop := world_step w w' /\ ~ told ptr w'.

Lemma untelling_told w w' : rtc untelling w w' -> ~ told ptr w -> ~ told ptr w'.
Proof. induction 1 as [|w1 w2 w3 [_ H12] _ IH]; auto. Qed.

Context (ch : nat).
Abbreviation heads_ch := (Fairness.heads clock untelling always (settled (SequenceNumber tx) ch)).

(** It fails in the end. *)
Lemma heads_startRequest iter w :
  ~ told ptr w -> heads_ch (startRequest iter ptr tx) (fun err _ => is_Some err) w.
Proof using All.
  revert w. induction iter as [|iter IH]; intros w Hw; cbn [startRequest]; [by eexists|].
  unfold newTimer. apply heads_bind, heads_atomic. intros w1 H1. right. cbn [fst snd].
  pose proof (untelling_told _ _ H1 Hw) as Hw1. apply heads_bind, heads_select.
  - exists 0. intros w2 _ _ _. apply Exists_cons_hd. by eexists.
  - repeat first [apply Forall_nil_2 | apply Forall_cons_2]; intros w2 a w3 H2 [= <- <-]; right; [|by eexists].
    pose proof (untelling_told _ _ H2 Hw1) as Hw2. apply heads_bind, heads_select.
    + exists (clock w1 + ResendRequestTimeOutPeriod * Second). intros w3 _ Ht _.
      apply Exists_cons_tl, Exists_cons_hd. apply Z.leb_le in Ht. rewrite Ht. by eexists.
    + repeat first [apply Forall_nil_2 | apply Forall_cons_2]; intros w3 a w4 H3.
      * pose proof (untelling_told _ _ H3 Hw2) as Hw3. unfold takeEvent.
        destruct (events (udp w3) !! ptr) as [ev|] eqn:Hev; [|done]. intros [= <- <-]. right.
        destruct ev; [|by destruct Hw3]. apply IH. unfold told. simpl. by rewrite lookup_delete_eq.
      * pose proof (untelling_told _ _ H3 Hw2) as Hw3. destruct (_ <=? _); [|done].
        intros [= <- <-]. right. by apply IH.
Qed.

(** And then takes the channel out. *)
Lemma heads_life e w :
  txs (udp w) !! ptr = Some tx -> reported = true -> ~ told ptr w ->
  heads_ch (goCode e (goTxLifeCycle ptr)) (fun _ => settled (SequenceNumber tx) ch) w.
Proof using All.
  unfold reported. intros Htx [[Htype Hev]%andb_prop Hmsg]%andb_prop Hw.
  apply bool_decide_eq_true in Htype, Hev. cbn [goCode].
  apply heads_bind, heads_atomic. intros w1 H1. right. cbn [fst snd].
  assert (H1' : txs (udp w1) !! ptr = Some tx).
  { eapply txs_stay, Htx. eapply rtc_subrel, H1. by intros ? ? []. }
  rewrite H1'. cbn [deref bind]. unfold startTxLifeCycle, Start. rewrite Htype.
  apply heads_bind. eapply heads_mono; [|by apply heads_startRequest, (untelling_told w w1)].
  intros sendErr w2 [err ->]. apply heads_bind. eapply heads_mono.
  2: { assert (Hf : forall ready mark, flows clock untelling ready mark (removeTransaction ptr tx)).
       { intros ready mark. unfold removeTransaction, server, loadConsumer.
         apply flows_bind; [apply flows_atomic|]. intros [srv|]; [|apply flows_ret].
         apply flows_bind; [apply flows_atomic|]. intros t. apply flows_bind; [apply flows_atomic|].
         intros []; apply flows_ret. }
       apply Hf. }
  intros _ w3 _. rewrite Hev. destruct (Parse (SendMsg tx)) as [msg|]; [|done].
  apply andb_prop in Hmsg as [Hseq Hty]. apply bool_decide_eq_true in Hseq.
  cbn [callErrHandler]. unfold HandlePfcpSendError, sendErrRsp. rewrite Hseq.
  destruct (MessageType msg); try done; apply heads_answers.
Qed.
End Untold.
End Heads.

(** ** Runs *)

Section System.
Context `{L : PfcpLib, !MapRange string, !MapRange Z} (e : Environment).

(** Some goroutine owes the start of the dispatch of a response with that number. *)
Definition answering (n : Z) (s : system (L := L)) : Prop :=
  exists i p, s.1 !! i = Some p /\ pays p clear (Some n) s.2.

(** Transactions that are told have been made, and every goroutine pays what it owes. *)
Record indebted (s : system (L := L)) : Prop := {
  told_made ptr : told ptr s.2 -> is_Some (txs (udp s.2) !! ptr);
  all_pay i p : s.1 !! i = Some p -> exists o, pays p clear o s.2;
}.

Lemma indebted_init t0 resolver : indebted (initSystem e t0 resolver).
Proof.
  split; [done|]. intros i p Hp. exists None. destruct i as [|i]; simplify_eq/=.
  apply pays_quiet, quiet_main.
Qed.

(** A transaction is told by one who is to start the dispatch. *)
Lemma indebted_step l s s' :
  known s -> system_step e l s s' -> indebted s ->
  indebted s' /\ forall ptr, told ptr s'.2 -> told ptr s.2 \/
    exists tx, txs (udp s.2) !! ptr = Some tx /\ answering (SequenceNumber tx) s'.
Proof.
  intros [Hok _] Hs [Htold Hpay]. destruct (system_step_ok e l s s' Hs Hok) as [Hw _].
  assert (Htxs : forall ptr, is_Some (txs (udp s.2) !! ptr) -> is_Some (txs (udp s'.2) !! ptr)).
  { intros ptr [tx Htx]. exists tx. by apply (wstep_txs _ _ Hw). }
  inversion Hs as [ts w w' He|ts w|ts i f k c w w' Hi Hf]; subst; cbn [fst snd] in *.
  - assert (Hev : events (udp w') = events (udp w)) by by destruct He.
    unfold told in *. split; [|rewrite Hev; by left]. split; cbn [fst snd]; unfold told; rewrite ?Hev; [by auto|].
    intros i p Hp. destruct (Hpay i p Hp) as [o Ho]. exists o. by eapply pays_other.
  - split; [|by left]. split; [by auto|]. cbn [fst snd]. intros i p [Hp|[_ Hp]]%lookup_app_Some.
    + destruct (Hpay i p Hp) as [o Ho]. exists o. by eapply pays_other.
    + exists None. apply list_elem_of_lookup_2, list_elem_of_In, in_map_iff in Hp as (g & <- & _).
      apply pays_goCode.
  - destruct (Hpay i _ Hi) as [o [_ Ho]].
    destruct (Ho w c w' (rtc_refl _ _) (proj1 Hok) Hf) as (o' & [Hnew _] & Hp').
    assert (Hnow : <[i := k c w]> ts !! i = Some (k c w))
      by by apply list_lookup_insert_eq; eapply lookup_lt_Some.
    assert (Hans : forall ptr, told ptr w' -> told ptr w \/
      exists tx, txs (udp w) !! ptr = Some tx /\ answering (SequenceNumber tx) (<[i := k c w]> ts, w')).
    { intros ptr [|(tx & Htx & ->)]%Hnew; [by left|]. right. exists tx. split; [done|]. by exists i, (k c w). }
    split; [|exact Hans]. split; cbn [fst snd].
    + intros ptr [|(tx & Htx & _)]%Hans; [by auto|]. apply Htxs. by exists tx.
    + intros j p Hp. destruct (decide (j = i)) as [->|Hne].
      * rewrite Hnow in Hp. simplify_eq. by exists o'.
      * rewrite list_lookup_insert_ne in Hp by done. destruct (Hpay j p Hp) as [o2 Ho2]. exists o2.
        by eapply pays_other.
Qed.
End System.

Section Run.
Context `{L : PfcpLib, !MapRange string, !MapRange Z} (e : Environment).
Context (st : nat -> system (L := L)) (lb : nat -> option label).
Context (Hfair : fair_process e st lb).

Abbreviation ended := (ended over st).

Lemma run_indebted n : indebted (st n).
Proof.
  apply (run_keeps env_step (startAll e) over clock st lb (fun s => known s /\ indebted s) 0 n);
    [apply (fair_run _ _ _ _ _ _ (runs_fair _ _ _ Hfair))| |lia|].
  - intros l s s' _ Hs [Hk Hi]. split; [by eapply known_step|by eapply indebted_step].
  - split; [by apply (run_known e st lb)|].
    destruct (starts _ _ _ Hfair) as (t0 & resolver & ->). apply indebted_init.
Qed.

(** One who told a transaction starts the dispatch in the end. *)
Lemma answering_dispatches s n :
  answering s (st n) -> exists m, (n <= m)%nat /\ (dispatching s (st m).2 \/ ended m).
Proof.
  intros (i & p & Hi & Hp).
  destruct (leads_to env_step (startAll e) over clock st lb (runs_fair _ _ _ Hfair) i
    (fun (_ : unit) s' p => known s' /\ pays p clear (Some s) s'.2) (fun s' => dispatching s s'.2))
    with (x := ()) (p := p) (n := n) as (m & Hm & [Hd|[He|(a & _ & _ & _ & Hret)]]).
  - intros _ l s1 s2 f g _ Hs _ _ [Hk Hpay]. left. split; [by eapply known_step|].
    eapply pays_other, Hpay. by apply (system_step_ok e l s1 s2 Hs), Hk.
  - intros _ s1 s2 f g c _ Hs _ Hf [Hk [_ Hpay]].
    destruct (Hpay s1.2 c s2.2 (rtc_refl _ _) (proj1 (proj1 Hk)) Hf) as (o' & [_ Hpaid] & Hp').
    destruct (Hpaid s eq_refl) as [->|]; [left|by right]. exists (). split; [by eapply known_step|done].
  - intros _ k f g _. exists k. split; [done|]. right. intros [_ [Hfree _]]. right.
    by apply Hfree; [eexists|].
  - split; [done|]. split; [by apply (run_known e st lb)|done].
  - exists m. auto.
  - exists m. auto.
  - done.
Qed.

(** The dispatch of an association response may be kept by the lock of a node. *)
Definition held (msg : Message) (w : World L) : Prop :=
  MessageType msg = AssociationSetupResponse /\ leftLocked (upfs w).

(** A response that is passed on takes the channel out. *)
Lemma dispatched_settles n msg a ch :
  goDispatch msg a ∈ spawned (st n).2 -> conclusive msg = true ->
  exists m, (n <= m)%nat /\ (settled (Sequence msg) ch (st m).2 \/ held msg (st m).2 \/ ended m).
Proof.
  intros Hg Hc. destruct (run_starts e st lb Hfair n _ Hg) as (k & Hk & [He|[i Hi]]); [exists k; auto|].
  destruct (decide (held msg (st (S k)).2)) as [|Hn]; [exists (S k); split; [lia|auto]|].
  destruct (heads_reaches env_step (startAll e) over clock st lb
    (fun w w' => world_step w w' /\ ~ held msg w') (fun s => known s /\ ~ held msg s.2)
    (fun s => held msg s.2) always (settled (Sequence msg) ch) (runs_fair _ _ _ Hfair))
    with (i := i) (p := goCode e (goDispatch msg a)) (n := S k) (m0 := O) as (m & Hm & H2).
  - intros l s s' _ Hs [Hkn _]. destruct (decide (held msg s'.2)) as [|Hn']; [by left|right].
    split; [|by split; [eapply known_step|]]. split; [|done]. by apply (system_step_ok e l s s' Hs), Hkn.
  - exact Hi.
  - split; [by apply (run_known e st lb)|done].
  - apply heads_Dispatch; [done|]. intros Ht. split; [by intros Hl; apply Hn|].
    intros w1 w2 [_ Hw] Hl. by apply Hw.
  - done.
  - exists m. split; [lia|done].
Qed.

(** A transaction not told is told by one who answers. *)
Lemma told_by n m ptr :
  (n <= m)%nat -> ~ told ptr (st n).2 -> told ptr (st m).2 ->
  exists k tx, (n <= k)%nat /\ txs (udp (st k).2) !! ptr = Some tx /\ answering (SequenceNumber tx) (st (S k)).
Proof.
  intros Hle Hn. induction Hle as [|m Hle IH]; [done|]. intros Hm.
  destruct (lb m) as [l|] eqn:Hl; [|rewrite (run_idle e st lb Hfair m Hl) in Hm; by auto].
  destruct (run_step e st lb Hfair m l Hl) as [_ Hs].
  destruct (indebted_step e l _ _ (run_known e st lb Hfair m) Hs (run_indebted m)) as [_ Ht].
  destruct (Ht ptr Hm) as [|(tx & Htx & Ha)]; [by auto|]. by exists m, tx.
Qed.

(** Where a response to it may be lost: the goroutine that is to dispatch it does not pass it on, or
    is held. *)
Definition unpassed (s : Z) (n m : nat) : Prop :=
  exists k msg a, (n <= k <= m)%nat /\ goDispatch msg a ∈ spawned (st k).2 /\ responds s msg /\
    (conclusive msg = false \/ held msg (st m).2).

Lemma answering_settles s n ch :
  answering s (st n) ->
  exists m, (n <= m)%nat /\ (settled s ch (st m).2 \/ unpassed s n m \/ ended m).
Proof.
  intros Ha. destruct (answering_dispatches s n Ha) as (m & Hm & [(msg & a & Hg & Hr)|He]); [|exists m; auto].
  destruct (conclusive msg) eqn:Hc.
  - destruct (dispatched_settles m msg a ch Hg Hc) as (k & Hk & [H2|[H2|H2]]); exists k; (split; [lia|]).
    + destruct Hr as [_ <-]. by left.
    + right. left. exists m, msg, a. split_and!; [lia|lia|done|apply Hr..|by right].
    + auto.
  - exists m. split; [done|]. right. left. exists m, msg, a. split_and!; [lia|lia|done|apply Hr..|by left].
Qed.

(** The transaction of a request is run, and its channel is taken out. *)
Lemma request_settles n0 n ptr tx ch :
  (n0 <= n)%nat -> ~ told ptr (st n0).2 -> txs (udp (st n).2) !! ptr = Some tx -> reported tx = true ->
  goTxLifeCycle ptr ∈ spawned (st n).2 ->
  exists m, (n0 <= m)%nat /\
    (settled (SequenceNumber tx) ch (st m).2 \/ unpassed (SequenceNumber tx) n0 m \/ ended m).
Proof.
  intros Hn Hnot Htx Hrep Hg.
  assert (Hans : forall k, answering (SequenceNumber tx) (st k) -> (n0 <= k)%nat -> exists m, (n0 <= m)%nat /\
    (settled (SequenceNumber tx) ch (st m).2 \/ unpassed (SequenceNumber tx) n0 m \/ ended m)).
  { intros k Ha Hk. destruct (answering_settles _ _ ch Ha) as (m & Hm & H). exists m. split; [lia|].
    destruct H as [H|[(j & msg & a & Hj & H)|H]]; [by left|right; left|by auto].
    exists j, msg, a. split; [lia|done]. }
  destruct (spawned_starts e st lb Hfair n _ Hg) as (k & Hk & [He|[Hl Hgk]]); [exists k; split; [lia|auto]|].
  assert (Htxk : txs (udp (st (S k)).2) !! ptr = Some tx).
  { eapply txs_stay; [|exact Htx]. apply (run_world_step e st lb Hfair). lia. }
  destruct (decide (events (udp (st (S k)).2) !! ptr = Some ReceiveValidResponse)) as [Ht|Ht].
  { destruct (told_by n0 (S k) ptr ltac:(lia) Hnot Ht) as (j & tx' & Hj & Htx' & Ha).
    assert (tx' = tx) as ->; [|apply (Hans (S j) Ha); lia].
    destruct (Nat.le_gt_cases j (S k)) as [Hjk|Hjk].
    - apply (txs_stay _ _ _ _ (run_world_step e st lb Hfair _ _ Hjk)) in Htx'. congruence.
    - assert (Hkj : (S k <= j)%nat) by lia.
      apply (txs_stay _ _ _ _ (run_world_step e st lb Hfair _ _ Hkj)) in Htxk. congruence. }
  destruct (fork_stands env_step (startAll e) over clock st lb k (goCode e (goTxLifeCycle ptr)))
    as (i & _ & Hi & _);
    [apply (fair_run _ _ _ _ _ _ (runs_fair _ _ _ Hfair))|done|simpl; apply list_elem_of_fmap; by exists (goTxLifeCycle ptr)|].
  destruct (heads_reaches env_step (startAll e) over clock st lb (untelling ptr)
    (fun s => known s /\ indebted s /\ ~ told ptr s.2 /\ txs (udp s.2) !! ptr = Some tx)
    (answering (SequenceNumber tx)) always (settled (SequenceNumber tx) ch) (runs_fair _ _ _ Hfair))
    with (i := i) (p := goCode e (goTxLifeCycle ptr)) (n := S k) (m0 := O) as (m & Hm & [Hs|[Ha|He]]).
  - intros l s s' _ Hs (Hkn & Hind & Hno & Ht'). destruct (indebted_step e l s s' Hkn Hs Hind) as [Hind' Htold].
    destruct (system_step_ok e l s s' Hs (proj1 Hkn)) as [Hw _].
    destruct (decide (events (udp s'.2) !! ptr = Some ReceiveValidResponse)) as [Hyes|Hno'].
    + left. destruct (Htold ptr Hyes) as [|(tx' & Htx' & Ha)]; [done|]. congruence.
    + right. split_and!; [by split|by eapply known_step|done|done|by apply (wstep_txs _ _ Hw)].
  - exact Hi.
  - split_and!; [by apply (run_known e st lb)|apply run_indebted|done|done].
  - by apply heads_life.
  - done.
  - exists m. split; [lia|auto].
  - apply (Hans m Ha). lia.
  - exists m. split; [lia|auto].
Qed.
End Run.
