(* ===== verification/Serving.v ===== *)
(** * Serving: a request of the SMF from its acceptance to its end

    The channel of a request is drained by the goroutine that made it and by no other, so an answer
    that is in it stays until its handler takes it. With this a handler is followed from its start:
    it waits for the lock of the table of addresses, which comes free, for that of a node, which is
    free unless a panic has left it, and for the answer, which comes by the goroutine of its transaction or by the one that dispatches the response. *)

From Stdlib Require Import Strings.Byte Strings.String.
From S2P Require Import Prelude GoNet NodeId Relay RelayTraces UpfAddrs SmfAddr UpfTxns UpfTable.
From S2P Require Import Pfcp Consumers Goroutine Fairness Ownership World Udp Handler Forward Process.
From S2P Require Import System SystemInv Ledger Custody Liveness Channels Stopping Quiet Answering.

#[local] Open Scope list_scope.
#[local] Open Scope Z_scope.

(** ** One's own channel *)

Section Receives.
Context `{L : PfcpLib, !MapRange string, !MapRange Z}.

Abbreviation prog := (prog (World L)).

(** [receives p o Q]: run with the channel [o], if any, [p] drains no other one, but for one it makes
    in its stead; and it returns in [Q]. *)
Fixpoint receives {A} (p : prog A) (o : option nat) (Q : A -> option nat -> Prop) : Prop :=
  match p with
  | Ret a => Q a o
  | Crash => True
  | Act f k => forall c w1 w2, f c w1 = Some w2 ->
      (nextChan w1 <= nextChan w2)%nat /\ (forall ch, filled ch w1 -> filled ch w2 \/ o = Some ch) /\
      exists o', (o' = o \/ (o' = Some (nextChan w1) /\ nextChan w1 < nextChan w2)%nat) /\
                 receives (k c w1) o' Q
  end.

Lemma receives_bind {A B} (p : prog A) (k : A -> prog B) o Q :
  receives p o (fun a o => receives (k a) o Q) -> receives (bind p k) o Q.
Proof.
  revert o. induction p as [a| |f p IH]; intros o; simpl; [done..|]. intros Hp c w1 w2 Hf.
  destruct (Hp c w1 w2 Hf) as (Hn & Hfl & o' & Ho & Hk). split_and!; [done..|]. exists o'. auto.
Qed.

Lemma receives_mono {A} (p : prog A) o (Q Q' : A -> option nat -> Prop) :
  (forall a o, Q a o -> Q' a o) -> receives p o Q -> receives p o Q'.
Proof.
  intros HQ. revert o. induction p as [a| |f p IH]; intros o; simpl; [auto|done|]. intros Hp c w1 w2 Hf.
  destruct (Hp c w1 w2 Hf) as (Hn & Hfl & o' & Ho & Hk). split_and!; [done..|]. exists o'. auto.
Qed.

Lemma receives_recovered {A} (p : prog A) o :
  receives p o (fun _ _ => True) -> receives (recovered p) o (fun _ _ => True).
Proof.
  revert o. induction p as [a| |f p IH]; intros o; simpl; [done..|]. intros Hp c w1 w2 Hf.
  destruct (Hp c w1 w2 Hf) as (Hn & Hfl & o' & Ho & Hk). split_and!; [done..|]. exists o'. auto.
Qed.

Abbreviation quiet := (quiet (L := L) (claims := true) (tells := true) (drains := false)).

(** A step of a program that drains nothing. *)
Lemma quiet_step_inv {A} f (k : nat -> World L -> prog A) c w1 w2 :
  quiet (Act f k) -> f c w1 = Some w2 ->
  (nextChan w1 <= nextChan w2)%nat /\ (forall ch, filled ch w1 -> filled ch w2) /\ quiet (k c w1).
Proof.
  intros Hq Hf. destruct (Hq w1 w1 (rtc_refl _ _) c w2 Hf) as [[_ _ Hfl Hn] Hk].
  split_and!; [done|by auto|]. intros w. destruct (k c w1) as [a| |f' k']; [done..|].
  intros w3 _. apply Hk. by apply rtc_once.
Qed.

Lemma receives_quiet {A} (p : prog A) o : quiet p -> receives p o (fun _ o' => o' = o).
Proof.
  induction p as [a| |f p IH]; [done..|]. intros Hq c w1 w2 Hf.
  destruct (quiet_step_inv _ _ _ _ _ Hq Hf) as (Hn & Hfl & Hk). split_and!; [done|auto|].
  exists o. auto.
Qed.

Lemma receives_make o : receives (atomic makeChan) o (fun ch o' => o' = Some ch).
Proof.
  intros [|c] w1 w2 Hf; [|done]. injection Hf as <-. simpl. split_and!; [lia|by left|].
  exists (Some (nextChan w1)). split; [right; split; [done|lia]|done].
Qed.

Lemma receives_recv ch : receives (recvChan ch) (Some ch) (fun _ o' => o' = Some ch).
Proof.
  intros [|c] w1 w2 Hf; [|done]. simpl in *. destruct (chans w1 !! ch) eqn:Hch; [|done].
  injection Hf as <-. split_and!; [done| |exists (Some ch); split; [by left|done]]. intros ch' Hf.
  destruct (decide (ch' = ch)) as [->|Hne]; [by right|left]. unfold filled. simpl.
  by rewrite lookup_delete_ne.
Qed.
End Receives.

(** Goes through a program; what is left are the places where a channel is made or drained. *)
Ltac receives_step :=
  match goal with
  | |- receives (match ?x with _ => _ end) _ _ => destruct x
  | |- receives (if ?b then _ else _) _ _ => destruct b
  | |- receives _ _ _ => eapply receives_mono; [|solve [apply receives_quiet; quiet_all]]; intros ? ? ->
  | |- receives (bind _ _) _ _ => apply receives_bind
  end.

Section Programs.
Context `{L : PfcpLib, !MapRange string, !MapRange Z} (e : Environment).

Lemma receives_Forward ip msg n :
  receives (ForwardPfcpMsgToUpf (L := L) ip msg n) None (fun _ _ => True).
Proof.
  unfold ForwardPfcpMsgToUpf. apply receives_bind. eapply receives_mono; [|apply receives_make].
  intros ch o ->.
  assert (Hreg : forall req send, (forall m, quiet (claims := true) (tells := true) (drains := false) (send m)) ->
    receives (bind (registerAndSend (L := L) ch req send) (awaitAnswer ch)) (Some ch) (fun _ _ => True)).
  { intros req send Hsend. apply receives_bind. eapply receives_mono.
    2: { apply receives_quiet. unfold registerAndSend, insertUpfPfcpTxn, forgetUpfPfcpTxn. quiet_all. }
    intros [err|] o ->; [done|]. unfold awaitAnswer. apply receives_bind.
    eapply receives_mono; [|apply receives_recv]. intros rsp o _. by destruct (Err rsp). }
  unfold answerAssociation, BuildPfcpAssociationResponse.
  repeat first [ done | apply Hreg; intros m; unfold SendPfcpAssociationSetupRequest, SendHeartbeatRequest,
    SendPfcpSessionEstablishmentRequest, SendPfcpSessionModificationRequest,
    SendPfcpSessionDeletionRequest, sendTo; solve [quiet_all] | receives_step ].
Qed.

(** Every goroutine starts with no channel. *)
Lemma receives_goCode g : receives (goCode (L := L) e g) None (fun _ _ => True).
Proof using All.
  destruct g;
    try (eapply receives_mono; [|apply receives_quiet, (quiet_goCode e); by auto]; done).
  unfold goCode, serveRequest. apply receives_bind. eapply receives_mono.
  2: { apply receives_recovered. unfold handler. destruct body as [m|]; [|done].
       destruct (Parse (Body m)); [|done]. unfold checkClaim.
       repeat first [done | receives_step
         | eapply receives_mono; [|apply receives_Forward]; intros ? ? _]. }
  intros _ o _. eapply receives_mono; [|apply receives_quiet, quiet_onProc]. done.
Qed.
End Programs.

Section System.
Context `{L : PfcpLib, !MapRange string, !MapRange Z} (e : Environment).

(** A goroutine with a channel among those that satisfy [P], or none. *)
Definition confined (P : nat -> Prop) (p : prog (World L) unit) : Prop :=
  exists o, receives p o (fun _ _ => True) /\ forall ch, o = Some ch -> P ch.

(** Each is confined to a channel that has been made. *)
Definition sparing (s : system (L := L)) : Prop :=
  forall j p, s.1 !! j = Some p -> confined (fun ch => ch < nextChan s.2)%nat p.

(** Each but that one is confined to another channel. *)
Definition private (i ch : nat) (s : system (L := L)) : Prop :=
  (ch < nextChan s.2)%nat /\
  forall j p, j <> i -> s.1 !! j = Some p -> confined (fun ch' => ch' <> ch) p.

Lemma confined_mono (P P' : nat -> Prop) p : (forall ch, P ch -> P' ch) -> confined P p -> confined P' p.
Proof. intros HP (o & Ho & H). exists o. auto. Qed.

(** A goroutine's step: what it leaves in the channels, and where it is confined to then. *)
Lemma confined_step P f k c w1 w2 :
  confined P (Act f k) -> f c w1 = Some w2 ->
  (nextChan w1 <= nextChan w2)%nat /\
  confined (fun ch => P ch \/ (ch = nextChan w1 /\ nextChan w1 < nextChan w2)%nat) (k c w1) /\
  forall ch, ~ P ch -> filled ch w1 -> filled ch w2.
Proof.
  intros (o & Ho & HP) Hf. destruct (Ho c w1 w2 Hf) as (Hn & Hfl & o' & Ho' & Hk). split_and!; [done| |].
  - exists o'. split; [done|]. intros ch ->. destruct Ho' as [Heq|[[= ->] ?]]; [left; by apply HP|by right].
  - intros ch Hno Hw. destruct (Hfl ch Hw) as [|Heq]; [done|]. by destruct Hno; apply HP.
Qed.

Lemma confined_goCode P g : confined P (goCode e g).
Proof. exists None. split; [apply receives_goCode|done]. Qed.

Lemma sparing_init t0 resolver : sparing (initSystem e t0 resolver).
Proof.
  intros [|j] p Hp; simplify_eq/=. exists None. split; [|done]. eapply receives_mono; [done|].
  apply receives_quiet, quiet_main.
Qed.

(** Whatever the step, and what it leaves. *)
Lemma sparing_step l s s' :
  system_step e l s s' -> sparing s -> sparing s' /\ (nextChan s.2 <= nextChan s'.2)%nat.
Proof.
  intros Hs Hsp. inversion Hs as [ts w w' He|ts w|ts i f k c w w' Hi Hf]; subst; unfold sparing in *; simpl in *.
  - assert (nextChan w' = nextChan w) as -> by by destruct He. done.
  - split; [|done]. intros j p [Hp|[_ Hp]]%lookup_app_Some; [by apply (Hsp j)|].
    apply list_elem_of_lookup_2, list_elem_of_In, in_map_iff in Hp as (g & <- & _). apply confined_goCode.
  - destruct (confined_step _ _ _ _ _ _ (Hsp i _ Hi) Hf) as (Hn & Hk & _). split; [|done].
    intros j p [[<- [<- _]]|[_ Hp]]%list_lookup_insert_Some.
    + eapply confined_mono, Hk. intros ch. simpl. lia.
    + eapply confined_mono, (Hsp j p Hp). intros ch. simpl. lia.
Qed.

(** A channel is its maker's. *)
Lemma private_make i c s s' :
  system_step e (byRun i c) s s' -> sparing s -> (nextChan s.2 < nextChan s'.2)%nat ->
  private i (nextChan s.2) s'.
Proof.
  intros Hs Hsp Hlt. split; [done|]. intros j p Hj Hp.
  destruct (pool_run_inv _ _ _ _ _ _ Hs) as (f & k & _ & _ & Hts). rewrite Hts in Hp.
  rewrite list_lookup_insert_ne in Hp by done. eapply confined_mono, (Hsp j p Hp). intros ch. simpl. lia.
Qed.

(** It stays so, and is drained by that goroutine alone. *)
Lemma private_step i ch l s s' :
  system_step e l s s' -> sparing s -> private i ch s ->
  private i ch s' /\ ((forall c, l <> byRun i c) -> filled ch s.2 -> filled ch s'.2).
Proof.
  intros Hs Hsp [Hlt Hpr]. destruct (sparing_step l s s' Hs Hsp) as [_ Hn].
  assert (Hlt' : (ch < nextChan s'.2)%nat) by lia. unfold private.
  inversion Hs as [ts w w' He|ts w|ts j f k c w w' Hj Hf]; subst; simpl in *.
  - split; [done|]. intros _. assert (chans w' = chans w) as Hc by by destruct He.
    unfold filled. by rewrite Hc.
  - split; [|done]. split; [done|]. intros j p Hj [Hp|[_ Hp]]%lookup_app_Some; [by apply (Hpr j)|].
    apply list_elem_of_lookup_2, list_elem_of_In, in_map_iff in Hp as (g & <- & _). apply confined_goCode.
  - destruct (decide (j = i)) as [->|Hne].
    + split; [|intros Hl; by destruct (Hl c)]. split; [done|]. intros j p Hne Hp.
      rewrite list_lookup_insert_ne in Hp by done. by apply (Hpr j).
    + destruct (confined_step _ _ _ _ _ _ (Hpr j _ Hne Hj) Hf) as (_ & Hk & Hfl).
      split; [|intros _; apply Hfl; by intros []]. split; [done|].
      intros j' p Hj' [[<- [<- _]]|[_ Hp]]%list_lookup_insert_Some; [|by apply (Hpr j')].
      eapply confined_mono, Hk. intros ch'. simpl. lia.
Qed.
End System.

(** ** Runs *)

Section Run.
Context `{L : PfcpLib, !PfcpLaws L, !MapRange string, !MapRange Z} (e : Environment).
Context (st : nat -> system (L := L)) (lb : nat -> option label).
Context (Hfair : fair_process e st lb).

Abbreviation ended := (ended over st).
Abbreviation moved := (moved lb).

Lemma run_sparing n : sparing (st n).
Proof.
  apply (run_keeps env_step (startAll e) over clock st lb sparing 0 n);
    [apply (fair_run _ _ _ _ _ _ (runs_fair _ _ _ Hfair))| |lia|].
  - intros l s s' _ Hs Hsp. by eapply sparing_step.
  - destruct (starts _ _ _ Hfair) as (t0 & resolver & ->). apply sparing_init.
Qed.

Lemma run_private i ch n m : (n <= m)%nat -> private i ch (st n) -> private i ch (st m).
Proof.
  intros Hle Hp.
  apply (run_keeps env_step (startAll e) over clock st lb (fun s => sparing s /\ private i ch s) n m);
    [apply (fair_run _ _ _ _ _ _ (runs_fair _ _ _ Hfair))| |done|by split; [apply run_sparing|]].
  intros l s s' _ Hs [Hsp Hpr]. split; [by eapply sparing_step|by eapply private_step].
Qed.

(** What is in its channel stays there until the goroutine goes on. *)
Lemma filled_stays i ch n m :
  (n <= m)%nat -> private i ch (st n) -> filled ch (st n).2 -> moved i n m \/ filled ch (st m).2.
Proof.
  intros Hle Hp Hf. induction Hle as [|m Hle IH]; [by right|].
  destruct IH as [(k & c & Hk & Hc)|Hm]; [left; exists k, c; split; [lia|done]|].
  destruct (runs_dec lb i m) as [[c Hc]|Hr]; [left; exists m, c; split; [lia|done]|].
  right. destruct (lb m) as [l|] eqn:Hl; [|by rewrite (run_idle e st lb Hfair m Hl)].
  destruct (run_step e st lb Hfair m l Hl) as [_ Hs].
  apply (private_step e i ch l _ _ Hs (run_sparing m)); [by apply (run_private i ch n m)| |done].
  intros c ->. by apply (Hr c).
Qed.

(** What has been in its channel since is there. *)
Definition kept (i ch n0 n : nat) : Prop :=
  private i ch (st n) /\ forall k, (n0 <= k <= n)%nat -> filled ch (st k).2 -> filled ch (st n).2.

Lemma kept_other i ch n0 n m : (n <= m)%nat -> ~ moved i n m -> kept i ch n0 n -> kept i ch n0 m.
Proof.
  intros Hle Hm [Hp Hk]. split; [by apply (run_private i ch n m)|]. intros k Hkm Hf.
  destruct (Nat.le_gt_cases k n) as [Hkn|Hkn].
  - destruct (filled_stays i ch n m Hle Hp); [apply (Hk k); [lia|done]|done|done].
  - destruct (filled_stays i ch k m ltac:(lia)) as [(k' & c & Hk' & Hc)|]; [|done| |done].
    + apply (run_private i ch n k); [lia|done].
    + destruct Hm. exists k', c. split; [lia|done].
Qed.

(** A program that drains nothing keeps it so. *)
Lemma proceeds_quiet {A} i ch n0 stop (p : prog (World L) A) Q n :
  quiet (claims := true) (tells := true) (drains := false) p -> kept i ch n0 n ->
  proceeds over st lb i stop p Q n ->
  proceeds over st lb i stop p (fun a m => Q a m /\ kept i ch n0 m) n.
Proof.
  revert n. induction p as [a| |f p IH]; intros n Hq Hk; [done..|]. intros [Hf Hp]. split; [done|].
  intros m c Hm Hstood Hl Hfc. destruct (quiet_step_inv _ _ _ _ _ Hq Hfc) as (_ & Hfl & Hq').
  apply IH; [done| |by apply Hp]. pose proof (kept_other i ch n0 n m Hm Hstood Hk) as [Hpr Hkm].
  destruct (run_step e st lb Hfair m _ Hl) as [_ Hs].
  split; [by eapply private_step; [exact Hs|apply run_sparing|]|]. intros k Hkm' Hfk.
  destruct (decide (k = S m)) as [->|]; [done|]. apply Hfl, (Hkm k); [lia|done].
Qed.

(** *** What a request may come to *)

(** A response to it is not passed on, or a channel registered under its number is lost. *)
Definition passedOver (s : Z) (n m : nat) : Prop :=
  unpassed st s n m \/ exists ch, txns (st m).2 !! s = Some (Some ch) /\ forsaken ch (st (S m)).

(** The channel has been registered, and a transaction made after that is to be run. *)
Record underway (ch : nat) (s : Z) (n0 n1 : nat) : Prop := {
  uw_since : (n0 <= n1)%nat;
  uw_registered : txns (st n0).2 !! s = Some (Some ch);
  uw_made : exists ptr tx, ~ told ptr (st n0).2 /\ txs (udp (st n1).2) !! ptr = Some tx /\
    SequenceNumber tx = s /\ reported tx = true /\ goTxLifeCycle ptr ∈ spawned (st n1).2;
}.

Lemma answer_comes ch s n0 n1 :
  underway ch s n0 n1 ->
  exists m, (n0 <= m)%nat /\ (filled ch (st m).2 \/ ended m \/ passedOver s n0 m).
Proof.
  intros [Hle Hr (ptr & tx & Ht & Htx & <- & Hrep & Hg)].
  destruct (request_settles e st lb Hfair n0 n1 ptr tx ch Hle Ht Htx Hrep Hg)
    as (m & Hm & [Hs|[Hu|He]]); [|exists m; split; [done|]; right; right; by left|exists m; auto].
  destruct (registration_ends e st lb Hfair n0 m _ ch Hr Hs Hm) as (k & Hk & [Hf|[He|Hf]]);
    exists k; (split; [done|]); [by left|by auto|]. right. right. right. by exists ch.
Qed.

Section Handler.
Context (i N : nat) (s : Z) (associates : Prop).

(** It is given up when a response is not passed on, or, if it asks for an association, when the lock
    of a node has been left. *)
Definition stop (m : nat) : Prop :=
  exists k, (N <= k <= m)%nat /\ (passedOver s N k \/ (associates /\ leftLocked (upfs (st k).2))).

Abbreviation proceeds := (proceeds over st lb i stop).
Abbreviation proceeding := (proceeding over st lb i stop).

(** The answer is waited for. *)
Lemma proceeds_recv ch n0 n1 n :
  (N <= n0)%nat -> underway ch s n0 n1 -> kept i ch n0 n ->
  proceeds (recvChan ch) (fun _ _ => True) n.
Proof.
  intros HN Hu Hk. apply proceeds_wait; [|done]. intros m Hm.
  destruct (answer_comes ch s n0 n1 Hu) as (k & Hk0 & Hend).
  exists (max k m). split; [lia|]. destruct Hend as [Hf|[He|Hp]].
  - right. right. assert (Hready : moved i n (max k m) \/ filled ch (st (max k m)).2); [|destruct Hready as [|[x Hx]]].
    + destruct (Nat.le_gt_cases k n) as [Hkn|Hkn].
      * apply filled_stays; [lia|apply Hk|]. apply (proj2 Hk k); [lia|done].
      * destruct (filled_stays i ch k (max k m)) as [(k' & c & Hk' & Hc)|];
          [lia|apply (run_private i ch n k); [lia|apply Hk]|done| |by right].
        left. exists k', c. split; [lia|done].
    + by left.
    + right. unfold filled in *. rewrite Hx. by eexists.
  - right. left. apply (ended_stays env_step (startAll e) over clock st lb k); [|lia|done].
    apply (fair_run _ _ _ _ _ _ (runs_fair _ _ _ Hfair)).
  - left. exists k. split; [lia|]. left. destruct Hp as [(j & msg & a & Hj & H)|H]; [left|by right].
    exists j, msg, a. split; [lia|done].
Qed.

(** The lock of the table of addresses comes free. *)
Lemma proceeds_lock t ip node : proceeding (lockAndRecord t ip node).
Proof.
  intros n. apply proceeds_wait; [|done]. intros m _.
  destruct (comes_free e st lb Hfair 0 m) as (m' & Hm' & [He|[Hfree _]]); exists m'; (split; [done|]).
  - auto.
  - right. right. right. rewrite Hfree. destruct (recordUpfAddrLocked _ _ _ _). by eexists.
Qed.

Lemma proceeding_releaseEach released : proceeding (releaseEach released).
Proof.
  induction released as [|a released IH]; unfold_release; [apply proceeding_ret|].
  repeat first [apply proceeding_bind; [apply proceeding_atomic|intros _] | done].
Qed.

Lemma proceeding_recordUpfAddr n : proceeding (recordUpfAddr n).
Proof.
  unfold recordUpfAddr, now. apply proceeding_bind; [apply proceeding_atomic|]. intros t.
  apply proceeding_bind; [apply proceeding_attempt|]. intros ip.
  apply proceeding_bind; [apply proceeds_lock|]. intros released.
  apply proceeding_bind; [apply proceeding_releaseEach|]. intros _. apply proceeding_atomic.
Qed.

(** The lock of a node is free, unless it has been left. *)
Lemma proceeds_lastAssociationRsp k n :
  (N <= n)%nat -> associates -> proceeds (lastAssociationRsp k) (fun _ _ => True) n.
Proof.
  intros HN Ha. apply proceeds_wait; [|done]. intros m Hm. exists m. split; [done|].
  destruct (decide (leftLocked (upfs (st m).2))) as [Hl|Hl].
  - left. exists m. split; [lia|by right].
  - right. right. right. destruct (read_free k _ Hl) as [[rsp t] ->]. by eexists.
Qed.

Lemma proceeds_answerAssociation msg nodeID n :
  (N <= n)%nat -> associates -> proceeds (answerAssociation msg nodeID) (fun _ _ => True) n.
Proof.
  intros HN Ha. unfold answerAssociation, BuildPfcpAssociationResponse.
  apply proceeds_bind, proceeds_bind, proceeds_atomic. intros m Hm _ _. cbn [fst].
  destruct (GetUpfFromNodeId _ _) as [k|]; [|done]. apply proceeds_bind.
  eapply proceeds_mono; [|apply proceeds_lastAssociationRsp; [lia|done]].
  intros [rsp|] m1 _ _; [cbn [deref bind]|done]. apply proceeding_bind; [apply proceeding_lift|].
  intros r. by destruct (Marshal r).
Qed.

(** *** Sending *)

(** The requests whose failure is reported to the one who waits. *)
Definition forwardable (msg : Message) : Prop :=
  match MessageType msg with
  | AssociationSetupRequest | SessionEstablishmentRequest | SessionModificationRequest
  | SessionDeletionRequest => True
  | _ => False
  end.

Lemma reported_request msg b conn a :
  forwardable msg -> 0 <= Sequence msg < 2 ^ 24 -> Marshal msg = Ok b ->
  reported (NewTransaction msg b conn a withErrHandler) = true.
Proof using PfcpLaws0.
  unfold forwardable. intros Hf Hs Hm. destruct (Parse_Marshal msg b Hm Hs) as (msg' & Hp & Ht & Hq).
  unfold NewTransaction, IsRequest, reported.
  destruct (MessageType msg) eqn:Hty; try done; simpl; rewrite Hp, Ht, Hq, !bool_decide_eq_true_2; done.
Qed.

(** What has been sent is under way. *)
Lemma proceeds_SendPfcp msg a ch n0 n :
  (n0 <= n)%nat -> txns (st n0).2 !! Sequence msg = Some (Some ch) ->
  forwardable msg -> 0 <= Sequence msg < 2 ^ 24 ->
  proceeds (SendPfcp msg a withErrHandler)
    (fun err m => err = None -> underway ch (Sequence msg) n0 m) n.
Proof.
  intros Hn Hr Hf Hs. unfold SendPfcp, server. apply proceeds_bind, proceeds_atomic. intros m Hm _ _.
  cbn [fst snd]. destruct (Server (udp (st m).2)) as [srv|]; [|done].
  destruct (ServerConn srv) as [conn|]; [|done]. destruct (Marshal msg) as [b|] eqn:Hb; [|done].
  cbv zeta. set (tx := NewTransaction msg b conn a withErrHandler).
  assert (Htx : SequenceNumber tx = Sequence msg /\ reported tx = true).
  { split; [|by apply reported_request]. unfold tx, NewTransaction. by destruct (IsRequest msg), (IsResponse msg). }
  clearbody tx. apply proceeds_bind, proceeds_atomic. intros m1 Hm1 _ Hst1. cbn [on_udp allocTx fst snd] in *.
  set (ptr := nextTx (udp (st m1).2)) in *. unfold registerAndStart, putTransaction.
  assert (Hmade : txs (udp (st (S m1)).2) !! ptr = Some tx)
    by (rewrite Hst1; apply lookup_insert_eq).
  apply proceeds_bind, proceeds_attempt. intros m2 err Hm2 _. destruct err as [err|]; [done|].
  apply proceeds_bind, proceeds_atomic. intros m3 Hm3 _ Hst3 _. split; [lia|done|]. exists ptr, tx.
  split_and!; [| |by apply Htx..|].
  - intros Ht. destruct (told_made _ (run_indebted e st lb Hfair n0) ptr Ht) as [tx' Htx'].
    apply (txs_stay _ _ _ _ (run_world_step e st lb Hfair n0 m1 ltac:(lia))) in Htx'.
    destruct (run_known e st lb Hfair m1) as [[Hinv _] _].
    pose proof (inv_txs _ (winv_udp _ Hinv) ptr ltac:(by eexists)). lia.
  - eapply txs_stay; [|exact Hmade]. apply (run_world_step e st lb Hfair). lia.
  - rewrite Hst3. apply elem_of_app. right. by apply list_elem_of_singleton.
Qed.

Abbreviation quiet := (quiet (L := L) (claims := true) (tells := true) (drains := false)).

Lemma quiet_sendTo n msg ev : quiet (sendTo n msg ev).
Proof using Type. unfold sendTo. quiet_all. Qed.

(** The end of every case: the channel is registered, the request sent, and the answer waited for. *)
Lemma proceeds_forwarded ch req n m :
  private i ch (st m) -> (N <= m)%nat -> Sequence req = s -> forwardable req -> 0 <= s < 2 ^ 24 ->
  proceeds (bind (registerAndSend ch req (fun r => sendTo n r withErrHandler)) (awaitAnswer ch))
    (fun _ _ => True) m.
Proof.
  intros Hp HN Hs Hf Hb. unfold registerAndSend, insertUpfPfcpTxn.
  apply proceeds_bind, proceeds_bind, proceeds_atomic. intros m1 Hm1 _ Hst. set (n0 := S m1) in *.
  cbn [fst snd] in *. rewrite Hs in *.
  assert (Hreg : txns (st n0).2 !! Sequence req = Some (Some ch)).
  { rewrite Hst. cbn. rewrite Hs. apply lookup_insert_eq. }
  assert (Hk : kept i ch n0 n0).
  { split; [apply (run_private i ch m n0); [lia|done]|]. intros k Hk. by replace k with n0 by lia. }
  eapply proceeds_mono;
    [|apply (proceeds_quiet i ch n0 _ _ (fun err k => err = None -> underway ch s n0 k)); [|exact Hk|]].
  2: { unfold forgetUpfPfcpTxn. pose proof quiet_sendTo. quiet_all. }
  2: { unfold sendTo. apply proceeds_bind, proceeds_bind, proceeds_attempt. intros m2 ip Hm2 _.
       eapply proceeds_mono; [|apply (proceeds_SendPfcp req _ ch n0); [lia|done|done|by rewrite Hs]].
       rewrite Hs. intros [err|] m3 _ Hu; [|exact Hu].
       apply proceeds_bind, proceeds_atomic. intros m4 _ _ _. by intros [=]. }
  intros err m2 Hm2 [Hu Hk2]. unfold awaitAnswer. destruct err as [err|]; [done|].
  apply proceeds_bind. eapply proceeds_mono; [|eapply (proceeds_recv ch n0 m2); [lia|by apply Hu|done]].
  intros rsp m3 _ _. by destruct (Err rsp).
Qed.

(** Forwarding comes to its end; what it is given of the message to be sent are other fields. *)
Lemma proceeds_Forward ip msg nodeID n :
  (N <= n)%nat -> Sequence msg = s -> MessageType msg <> HeartbeatRequest -> 0 <= s < 2 ^ 24 ->
  (MessageType msg = AssociationSetupRequest -> associates) ->
  proceeds (ForwardPfcpMsgToUpf ip msg nodeID) (fun _ _ => True) n.
Proof.
  intros HN Hs Ht Hb Hasso. unfold ForwardPfcpMsgToUpf. apply proceeds_bind, proceeds_atomic.
  intros m Hm Hl Hst. cbn [makeChan fst] in *. set (ch := nextChan (st m).2).
  assert (Hp : private i ch (st (S m))).
  { destruct (run_step e st lb Hfair m _ Hl) as [_ Hstep].
    apply (private_make e i 0); [exact Hstep|apply run_sparing|]. rewrite Hst. cbn. lia. }
  assert (Hfw : forall req m', (S m <= m')%nat -> Sequence req = s -> MessageType req = MessageType msg ->
    forwardable msg -> proceeds (bind (registerAndSend ch req (fun r => sendTo nodeID r withErrHandler))
      (awaitAnswer ch)) (fun _ _ => True) m').
  { intros req m' Hm' Hreq Hty Hf. apply proceeds_forwarded; try done; [|lia|by unfold forwardable; rewrite Hty].
    by apply (run_private i ch (S m) m'). }
  clearbody ch. unfold forwardable in Hfw. destruct (MessageType msg) eqn:Hty; try done.
  - apply proceeds_bind, proceeds_atomic. intros m1 Hm1 _ _. cbn [fst].
    destruct (IsUpfAssociated _ _); [apply proceeds_answerAssociation; [lia|by apply Hasso]|].
    apply proceeds_bind, proceeds_attempt. intros m2 u Hm2 _. destruct (negb _); [done|].
    apply Hfw; [lia|by rewrite !Sequence_setField|by rewrite !MessageType_setField|done].
  - destruct (negb _); [done|]. apply proceeds_bind.
    eapply proceeds_mono; [|apply proceeding_lift]. intros [seid|err] m1 Hm1 _; [|done].
    apply Hfw; [lia|by rewrite !Sequence_setField|by rewrite !MessageType_setField|done].
  - destruct (negb _); [done|]. by apply Hfw.
  - destruct (negb _); [done|]. by apply Hfw.
Qed.

(** What the body of a request asks to be forwarded. *)
Definition asked (body : option UdpPodPfcpMsg) : option Message :=
  body ≫= fun m => match Parse (Body m) with Ok msg => Some msg | Prelude.Err _ => None end.

(** A request is served to its end. *)
Lemma proceeds_serveRequest remoteAddr readFailed body msg n :
  (N <= n)%nat -> asked body = Some msg -> Sequence msg = s ->
  MessageType msg <> HeartbeatRequest -> 0 <= s < 2 ^ 24 ->
  (MessageType msg = AssociationSetupRequest -> associates) ->
  proceeds (serveRequest e remoteAddr readFailed body) (fun _ _ => True) n.
Proof.
  intros HN Hask Hs Ht Hb Hasso. unfold serveRequest. apply proceeds_bind, proceeds_recovered.
  { intros m. by apply proceeds_atomic. }
  eapply (proceeds_mono _ _ _ _ _ _ (fun _ _ => True)); [intros; by apply proceeds_atomic|].
  unfold handler, checkClaim. unfold asked in Hask. apply bind_Some in Hask as (um & -> & Hum).
  destruct (Parse (Body um)) as [msg'|]; [|done]. injection Hum as ->.
  apply proceeds_bind. eapply proceeds_mono; [|instantiate (1 := fun _ _ => True)].
  2: { destruct (SplitHostPort remoteAddr) as [[host port]|]; [|done]. destruct (_ || _); [done|].
       by apply proceeding_bind; [apply proceeding_atomic|]. }
  intros warned m Hm _. apply proceeds_bind, proceeds_atomic. intros m1 Hm1 _ _.
  apply proceeds_bind. eapply proceeds_mono; [|apply proceeding_recordUpfAddr]. intros _ m2 Hm2 _.
  apply proceeds_bind. eapply proceeds_mono; [|apply proceeds_Forward; [lia|done..]].
  intros rsp m3 _ _. by destruct rsp.
Qed.
End Handler.

(** Where a channel is lost, no answer to it comes any more. *)
Lemma forsaken_stays ch n m : (n <= m)%nat -> forsaken ch (st n) -> lost ch (st m).2.
Proof.
  intros Hle Hf.
  apply (run_keeps env_step (startAll e) over clock st lb (fun s => known s /\ forsaken ch s) n m);
    [apply (fair_run _ _ _ _ _ _ (runs_fair _ _ _ Hfair))| |done|split; [by apply (run_known e st lb)|done]].
  intros l s s' _ Hs [Hk Hfs]. split; [by eapply known_step|]. eapply forsaken_step; [apply Hk|exact Hs|done].
Qed.
End Run.
