(* ===== verification/Authorised.v ===== *)
(** * Authorised: for whom a report is relayed ([config/config.go], [pfcp/handler/handler.go])

    A report is to be relayed only for a user plane the SMF addresses. Three places see to that
    together, under two locks: the handler reads how often the address has been released, asks
    whether it is known, and quotes the count as it claims; a release counts first and then drops
    what was claimed; and the table of addresses is locked until it is done. Here they are put
    together: what the table of relays may gain at each step of each goroutine, and that it then
    never holds a report of an address that is neither in the table of addresses nor about to be
    released. *)

From Stdlib Require Import Strings.Byte Strings.String.
From S2P Require Import Prelude GoNet NodeId Relay RelayTraces RelayProps UpfAddrs SmfAddr UpfTxns.
From S2P Require Import UpfTable Pfcp Consumers Goroutine Ownership World Udp Handler Forward Process.
From S2P Require Import System SystemInv Ledger Custody Liveness Quiet.

#[local] Open Scope list_scope.
#[local] Open Scope Z_scope.

(** ** The relay table *)

(** Its release count is kept, not dropped. *)
Definition countKept (h : string) (st st' : Relays) : Prop :=
  is_Some (relayGenerations st !! h) -> is_Some (relayGenerations st' !! h).

Section Relays.
Context `{!MapRange string, !MapRange Z}.

(** A release leaves no report of the address. *)
Lemma released_none h t st : relay_inv st -> ~ relayed h (ForgetRelaysForHost h t st).
Proof using All.
  intros Hinv (k & r & Hk & <-).
  destruct (ForgetRelaysForHost_releases (upfAddr r) 0 t 0 st (inv_index _ Hinv)) as [Hrel _].
  rewrite Hrel in Hk. destruct (reportRelays st !! k) as [r0|]; simplify_eq/=. by case_decide; simplify_eq.
Qed.

Lemma generation_release h h' t st :
  RelayGeneration h (ForgetRelaysForHost h' t st) =
    if decide (h' = h) then u64 (RelayGeneration h st + 1) else RelayGeneration h st.
Proof.
  unfold RelayGeneration, ForgetRelaysForHost. edestruct drops_rest as (-> & _ & _). simpl.
  rewrite lookup_insert. by case_decide; subst.
Qed.

(** A count that is neither dropped nor at the end of its range does not go back. *)
Lemma generation_grows op h st :
  countKept h st (exec op st) -> 0 <= RelayGeneration h st < 2 ^ 64 - 1 ->
  RelayGeneration h st <= RelayGeneration h (exec op st).
Proof.
  unfold countKept. destruct op as [a s t gen|k|h' t|k t|k]; cbn [exec].
  - assert (Hsweep : (is_Some (relayGenerations st !! h) ->
      is_Some (relayGenerations (sweepRelaysLocked t st) !! h)) ->
      RelayGeneration h (sweepRelaysLocked t st) = RelayGeneration h st).
    { unfold RelayGeneration. rewrite sweep_generations. case_decide; [done|].
      destruct (relayGenerations st !! h); [|done]. case_decide; [|done].
      intros Hk. by destruct Hk as [? ?]; [by eexists|]. }
    unfold RelayReportSequence. destruct (negb _); [done|].
    destruct (relayFromLocked _ _ _ _); [simpl; intros Hk _; by rewrite Hsweep|].
    destruct (nextFreeRelaySequence _ _ _ _); simpl; intros Hk _; by rewrite <- Hsweep at 1.
  - intros _ _. unfold RenumberReportRelay. destruct (reportRelays st !! k); [|done].
    destruct (nextFreeRelaySequence _ _ _ _); [|done]. unfold RelayGeneration. simpl.
    by destruct (drop_rest k st) as (-> & _).
  - intros _ Hc. rewrite generation_release. case_decide; [|done]. rewrite u64_small; lia.
  - intros _ _. unfold TakeReportRelay. destruct (reportRelays st !! k); [|done]. by repeat case_match.
  - intros _ _. unfold ForgetReportRelay, RelayGeneration. by destruct (drop_rest k st) as (-> & _).
Qed.

Lemma counts_exec op h st :
  (forall h, 0 <= RelayGeneration h st) -> 0 <= RelayGeneration h (exec op st).
Proof.
  intros H0. destruct op as [a s t gen|k|h' t|k t|k]; cbn [exec].
  - assert (Hsweep : 0 <= RelayGeneration h (sweepRelaysLocked t st)).
    { specialize (H0 h). revert H0. unfold RelayGeneration. rewrite sweep_generations.
      case_decide; [done|]. destruct (relayGenerations st !! h); [|done]. by case_decide. }
    unfold RelayReportSequence. destruct (negb _); [done|].
    destruct (relayFromLocked _ _ _ _); [done|]. by destruct (nextFreeRelaySequence _ _ _ _).
  - unfold RenumberReportRelay. destruct (reportRelays st !! k); [|done].
    destruct (nextFreeRelaySequence _ _ _ _); [|done]. specialize (H0 h). revert H0.
    unfold RelayGeneration. simpl. by destruct (drop_rest k st) as (-> & _).
  - rewrite generation_release. case_decide; [|done]. unfold u64. apply Z.mod_pos_bound. lia.
  - specialize (H0 h). unfold TakeReportRelay. destruct (reportRelays st !! k); [|done]. by repeat case_match.
  - specialize (H0 h). revert H0. unfold ForgetReportRelay, RelayGeneration.
    by destruct (drop_rest k st) as (-> & _).
Qed.

Lemma counts_reachable h st : reachable st -> 0 <= RelayGeneration h st.
Proof.
  intros Hr. revert h. induction Hr as [|st op _ IH]; intros h; [|by apply counts_exec].
  unfold RelayGeneration. simpl. by rewrite lookup_empty.
Qed.
End Relays.

(** ** Steps *)

Section Steps.
Context `{L : PfcpLib, !MapRange string, !MapRange Z}.

Abbreviation prog := (prog (World L)).

(** What a step may add to the relay table: reports of addresses accounted for. *)
Definition claims (w w' : World L) : Prop :=
  forall h, relayed h (relays w') -> relayed h (relays w) \/ accounted h w.

(** What the others do while a report from [h] is handled: besides moving the state as they do, they
    let no address go without releasing it, and do not drop the count of [h]'s releases -- nor has
    that come to the end of its range. *)
Record attentive (h : string) (w w' : World L) : Prop := {
  att_step : world_step w w';
  att_accounted a : accounted a w ->
    accounted a w' \/ relays w' = ForgetRelaysForHost a (clock w) (relays w);
  att_kept : countKept h (relays w) (relays w');
  att_count : 0 <= RelayGeneration h (relays w) < 2 ^ 64 - 1;
}.

Lemma claims_unchanged w w' : relays w' = relays w -> claims w w'.
Proof. intros Hr h Hh. left. by rewrite Hr in Hh. Qed.

Lemma claims_refl w : claims w w.
Proof. by apply claims_unchanged. Qed.

Lemma attentive_grows h w w' :
  attentive h w w' -> RelayGeneration h (relays w) <= RelayGeneration h (relays w').
Proof.
  intros [Hs _ Hk Hc]. destruct (wstep_relays _ _ Hs) as [->|(op & Hr & _)]; [done|].
  rewrite Hr in *. by apply generation_grows.
Qed.

(** From when an address has been accounted for on, it still is, or its releases count more than
    before. *)
Lemma attentive_steps h gen w w' :
  rtc (attentive h) w w' -> gen <= RelayGeneration h (relays w) ->
  accounted h w \/ gen < RelayGeneration h (relays w) ->
  gen <= RelayGeneration h (relays w') /\ (accounted h w' \/ gen < RelayGeneration h (relays w')).
Proof.
  induction 1 as [w|w1 w2 w3 H12 _ IH]; [done|]. intros Hg Ha. pose proof (attentive_grows _ _ _ H12).
  apply IH; [lia|]. destruct Ha as [Ha|Ha]; [|right; lia].
  destruct (att_accounted _ _ _ H12 h Ha) as [|Hr]; [by left|right].
  pose proof (att_count _ _ _ H12). rewrite Hr, generation_release, decide_True by done.
  rewrite u64_small; lia.
Qed.

(** An address that is known is in the table. *)
Lemma known_accounted t ip (w : World L) :
  IsKnownUpfAddr t ip (upfAddrsOf w) = true -> accounted (IP_String ip) w.
Proof.
  unfold IsKnownUpfAddr. case_decide; [done|]. intros Hk. left.
  apply existsb_exists in Hk as (n & Hn & _). apply list_elem_of_In, elem_of_range_set in Hn.
  unfold nodesAt in Hn. destruct (upfAddrs (upfAddrsOf w) !! IP_String ip); [by eexists|].
  simpl in Hn. set_solver.
Qed.

(** *** The handler of a report *)

Lemma claim_claims a s t gen (w : World L) :
  gen <= RelayGeneration (hostOf a) (relays w) ->
  accounted (hostOf a) w \/ gen < RelayGeneration (hostOf a) (relays w) ->
  claims w (snd (on_relays (RelayReportSequence a s t gen) w)).
Proof.
  intros Hle Ha h Hh. pose proof (relayed_exec (Claim a s t gen) h (relays w)) as Hc.
  unfold on_relays in Hh. simpl in Hc. destruct (RelayReportSequence a s t gen (relays w)) as [res r].
  destruct (Hc Hh) as [|(a' & s' & t' & Heq & Hhost)]; [by left|right]. simplify_eq.
  destruct Ha as [|Ha]; [done|lia].
Qed.
End Steps.

(** ** Programs *)

Section Programs.
Context `{L : PfcpLib, !MapRange string, !MapRange Z} (e : Environment).

(** One that adds no report claims nothing, whatever the others do. *)
Lemma quiet_claims {A} R (p : prog (World L) A) :
  quiet (claims := false) (tells := true) (drains := true) p -> every R claims p.
Proof.
  intros Hp w. eapply wp_impl; [..|apply Hp]; [done|]. intros w1 w2 [Hs _] h Hh. left. by apply Hs.
Qed.

(** What a goroutine started for a message needs of the others. *)
Definition rely (g : option (goroutine L)) : World L -> World L -> Prop :=
  match g with
  | Some (goDispatch _ a) => attentive (hostOf a)
  | _ => fun _ _ => True
  end.

(** What it was started to do; [None] is [main]. *)
Definition startCode (g : option (goroutine L)) : prog (World L) unit :=
  match g with Some g => goCode e g | None => main e end.

(** The handler of a report claims for an address accounted for: it reads the count first and asks
    then, so that if the address has gone since, the count has changed. *)
Lemma report_claims msg a :
  every (attentive (hostOf a)) claims (HandlePfcpSessionReportRequest (L := L) msg (Some a)).
Proof using All.
  pose proof (fun A => quiet_claims (A := A) (attentive (hostOf a))) as Hq.
  intros w. unfold HandlePfcpSessionReportRequest. destruct (negb _); [done|].
  apply wp_bind, wp_read. intros w1 _. split; [apply claims_refl|].
  set (gen := RelayGeneration (hostOf a) (relays w1)).
  apply wp_bind. unfold isKnownUpfAddr.
  case_decide as Hip; [apply (Hq _ (Ret ())), quiet_ret|]. apply wp_select.
  intros w2 i ready known w2' Hr2 Hi Hready. apply list_lookup_singleton_Some in Hi as [-> <-].
  destruct (upfAddrMutex w2); simplify_eq. split; [apply claims_refl|].
  destruct (IsKnownUpfAddr (clock w2') (UDPAddr.IP a) (upfAddrsOf w2')) eqn:Hknown; [|done].
  assert (Hacc : accounted (hostOf a) w2') by by eapply known_accounted.
  assert (Hgen : gen <= RelayGeneration (hostOf a) (relays w2')).
  { clear Hknown Hacc. unfold gen. clear gen. induction Hr2 as [|x y z Hxy _ IH]; [done|].
    pose proof (attentive_grows _ _ _ Hxy). lia. }
  cbn [negb]. cbv zeta. apply wp_bind, wp_read. intros w3 Hr3. split; [apply claims_refl|].
  destruct (SmfAddr (smfAddr w3)) as [smf|]; [|apply Hq; quiet_all].
  apply wp_bind, wp_read. intros w4 Hr4. split; [apply claims_refl|].
  apply wp_bind, wp_atomic. intros w5 Hr5.
  destruct (attentive_steps (hostOf a) gen w2' w5) as [Hg5 Ha5]; [by repeat (etrans; [eassumption|])|done|by left|].
  split; [by apply claim_claims|]. apply Hq. destruct (fst (on_relays _ _)); quiet_all.
Qed.

Lemma start_claims g : every (rely g) claims (startCode g).
Proof using All.
  pose proof (fun A => quiet_claims (A := A) (rely g)) as Hq.
  destruct g as [g|]; [|apply Hq, quiet_main]. destruct g as [|msg a| | | | |]; try by apply Hq, quiet_goCode.
  destruct (decide (MessageType msg = SessionReportRequest)) as [Hm|Hm].
  - cbn [startCode goCode rely]. unfold Dispatch. rewrite Hm. apply report_claims.
  - apply Hq, (quiet_goCode e (goDispatch msg a)). by left.
Qed.
End Programs.

(** ** Every schedule *)

Section Schedules.
Context `{L : PfcpLib, !MapRange string, !MapRange Z} (e : Environment).

(** No address goes without being released. *)
Lemma step_accounted l (s s' : system (L := L)) a :
  known s -> system_step e l s s' -> accounted a s.2 ->
  accounted a s'.2 \/ relays s'.2 = ForgetRelaysForHost a (clock s.2) (relays s.2).
Proof.
  intros [Hok (ds & D & Hc)] Hs Ha.
  destruct (custody_step e _ _ _ _ _ _ _ Hc Hs Hok ltac:(done)) as (ds' & D' & _ & Hd).
  destruct l as [| |i c].
  - left. inversion Hs as [ts w w' He| |]; subst. destruct (env_tame _ _ He). by eapply accounted_same.
  - left. by rewrite (pool_fork_inv _ _ _ _ Hs).
  - destruct Hd as (d & d' & F & _ & _ & _ & _ & _ & _ & Hdeal). by apply (deal_accounted _ _ _ _ Hdeal).
Qed.

(** What each goroutine was started as; [None] is [main]. *)
Definition history : Type := list (option (goroutine L)).

(** No goroutine is in the midst of handling a report from [h]. *)
Definition unattended (h : string) (gs : history) (s : system (L := L)) : Prop :=
  forall i msg a p, gs !! i = Some (Some (goDispatch msg a)) -> hostOf a = h -> s.1 !! i = Some p ->
    p = goCode e (goDispatch msg a) \/ p = Ret ().

(** The runs in which the release counts do what they are for: a count is dropped only while no
    report from the address is being handled, and none comes to the end of its range. *)
Inductive careful : history -> system (L := L) -> Prop :=
| careful_init t0 resolver : careful [None] (initSystem e t0 resolver)
| careful_step gs l s s' :
    careful gs s -> alive over s -> system_step e l s s' ->
    (forall h, RelayGeneration h (relays s.2) < 2 ^ 64 - 1) ->
    (forall h, countKept h (relays s.2) (relays s'.2) \/ unattended h gs s) ->
    careful (gs ++ match l with byFork => Some <$> spawned s.2 | _ => [] end) s'.

(** What holds in such runs. *)
Record traced (gs : history) (s : system (L := L)) : Prop := {
  traced_known : known s;
  traced_reach : reachable (relays s.2);
  traced_len : length gs = length s.1;
  traced_code i g p : gs !! i = Some g -> s.1 !! i = Some p ->
    wp (rely g) claims (fun _ => True) p (fun _ _ => True) s.2;
  traced_relayed h : relayed h (relays s.2) -> accounted h s.2;
}.

(** What the others do, or the goroutine whose step it is, as long as the count is kept. *)
Lemma step_attentive l s s' h :
  known s -> reachable (relays s.2) -> system_step e l s s' ->
  RelayGeneration h (relays s.2) < 2 ^ 64 - 1 -> countKept h (relays s.2) (relays s'.2) ->
  attentive h s.2 s'.2.
Proof.
  intros Hk Hr Hs Hc Hkept. split; [by apply (system_step_ok e l _ _ Hs), Hk| |done|].
  - intros a. by eapply step_accounted.
  - split; [by apply counts_reachable|done].
Qed.

(** A goroutine that does not take the step. *)
Lemma code_other gs l s s' i g p :
  traced gs s -> system_step e l s s' ->
  (forall h, RelayGeneration h (relays s.2) < 2 ^ 64 - 1) ->
  (forall h, countKept h (relays s.2) (relays s'.2) \/ unattended h gs s) ->
  gs !! i = Some g -> s.1 !! i = Some p ->
  wp (rely g) claims (fun _ => True) p (fun _ _ => True) s'.2.
Proof.
  intros [Hk Hr Hlen Hcode _] Hs Hcount Hkept Hg Hp. pose proof (Hcode i g p Hg Hp) as Hwp.
  destruct p as [[]| |f k]; [done..|].
  assert (Hstep : rely g s.2 s'.2 ->
    wp (rely g) claims (fun _ => True) (Act f k) (fun _ _ => True) s'.2).
  { intros Hrely w1 H1. apply Hwp. by eapply rtc_l. }
  destruct g as [g|]; [|by apply Hstep]. destruct g as [|msg a| | | | |]; try by apply Hstep.
  destruct (Hkept (hostOf a)) as [Hh|Hh]; [by apply Hstep; cbn [rely]; eapply step_attentive|].
  destruct (Hh i msg a _ Hg eq_refl Hp) as [Heq|]; [|done]. rewrite Heq.
  apply (start_claims e (Some (goDispatch msg a))).
Qed.

(** What the step adds to the relay table is accounted for. *)
Lemma step_claims gs l s s' :
  traced gs s -> system_step e l s s' -> claims s.2 s'.2.
Proof.
  intros Ht Hs. destruct Hs as [ts w w' He|ts w|ts i f k c w w' Hl Hf]; simpl in *.
  - apply claims_unchanged. by destruct He.
  - by apply claims_unchanged.
  - destruct (lookup_lt_is_Some_2 gs i) as [g Hg].
    { rewrite (traced_len _ _ Ht). by eapply lookup_lt_Some. }
    pose proof (traced_code _ _ Ht i g _ Hg Hl) as Hwp. simpl in Hwp.
    by apply (Hwp w (rtc_refl _ w) c w' Hf).
Qed.

Lemma relayed_step gs l s s' :
  traced gs s -> system_step e l s s' -> forall h, relayed h (relays s'.2) -> accounted h s'.2.
Proof.
  intros Ht Hs h Hh. assert (Ha : accounted h s.2).
  { destruct (step_claims _ _ _ _ Ht Hs h Hh); [by apply (traced_relayed _ _ Ht)|done]. }
  destruct (step_accounted l s s' h (traced_known _ _ Ht) Hs Ha) as [|Hr]; [done|].
  rewrite Hr in Hh. by apply released_none in Hh; [|apply (traced_known _ _ Ht)].
Qed.

Lemma code_step gs l s s' i g p :
  traced gs s -> system_step e l s s' ->
  (forall h, RelayGeneration h (relays s.2) < 2 ^ 64 - 1) ->
  (forall h, countKept h (relays s.2) (relays s'.2) \/ unattended h gs s) ->
  (gs ++ match l with byFork => Some <$> spawned s.2 | _ => [] end) !! i = Some g ->
  s'.1 !! i = Some p -> wp (rely g) claims (fun _ => True) p (fun _ _ => True) s'.2.
Proof.
  intros Ht Hs Hcount Hkept Hg Hp. pose proof (traced_len _ _ Ht) as Hlen.
  destruct (decide (i < length s.1)%nat) as [Hi|Hi].
  - rewrite lookup_app_l in Hg by lia.
    destruct (lookup_lt_is_Some_2 s.1 i Hi) as [p0 Hp0].
    destruct l as [| |j c].
    + pose proof (pool_step_other _ _ _ _ _ i p0 Hs ltac:(done) Hp0) as Hp0'. simplify_eq.
      by eapply code_other.
    + pose proof (pool_step_other _ _ _ _ _ i p0 Hs ltac:(done) Hp0) as Hp0'. simplify_eq.
      by eapply code_other.
    + destruct (decide (j = i)) as [->|Hne].
      * destruct (pool_run_inv _ _ _ _ _ _ Hs) as (f & k & Hf & Hfc & Hts). simplify_eq.
        rewrite Hts, list_lookup_insert_eq in Hp by done. simplify_eq.
        pose proof (traced_code _ _ Ht i g _ Hg Hp0) as Hwp. simpl in Hwp.
        by apply (Hwp s.2 (rtc_refl _ _) c s'.2 Hfc).
      * pose proof (pool_step_other _ _ _ _ _ i p0 Hs ltac:(congruence) Hp0) as Hp0'. simplify_eq.
        by eapply code_other.
  - rewrite lookup_app_r in Hg by lia. destruct l as [| |j c].
    + by rewrite lookup_nil in Hg.
    + rewrite (pool_fork_inv _ _ _ _ Hs) in Hp |- *. unfold startAll in Hp. cbn [fst snd] in Hp.
      rewrite lookup_app_r in Hp by lia. rewrite list_lookup_fmap in Hg. rewrite Hlen in Hg.
      change (map (goCode e) (spawned s.2)) with (goCode e <$> spawned s.2) in Hp.
      rewrite list_lookup_fmap in Hp.
      destruct (spawned s.2 !! (i - length s.1)%nat) as [g0|]; simplify_eq/=.
      apply (start_claims e (Some g0)).
    + by rewrite lookup_nil in Hg.
Qed.

Lemma careful_traced gs s : careful gs s -> traced gs s.
Proof.
  induction 1 as [t0 resolver|gs l s s' _ Ht _ Hs Hcount Hkept].
  - split; [apply known_init|constructor|done| |].
    + intros [|i] g p Hg Hp; simplify_eq/=. apply (start_claims e None).
    + intros h (k & r & Hk & _). simpl in Hk. by rewrite lookup_empty in Hk.
  - pose proof (traced_known _ _ Ht) as Hk. split.
    + by eapply known_step.
    + destruct (wstep_relays _ _ (proj1 (system_step_ok e l s s' Hs (proj1 Hk)))) as [->|(op & -> & _)];
        [apply (traced_reach _ _ Ht)|constructor; apply (traced_reach _ _ Ht)].
    + rewrite length_app, (traced_len _ _ Ht). destruct l as [| |i c].
      * inversion Hs; subst. simpl. lia.
      * rewrite (pool_fork_inv _ _ _ _ Hs). simpl. by rewrite length_app, !length_fmap.
      * destruct (pool_run_inv _ _ _ _ _ _ Hs) as (f & k & _ & _ & ->). rewrite length_insert. simpl. lia.
    + intros i g p. by apply (code_step gs l s s' i g p).
    + by eapply relayed_step.
Qed.
End Schedules.
