(* ===== verification/ReportProps.v ===== *)
(** * ReportProps: the journey of a session report ([pfcp/handler/handler.go])

    Each handler run alone from a state the others left: from whom a report is relayed, that a
    copy is not, where the request goes and under which number, and that the answer finds its
    way back. [HandlerProps.v] has what holds of the same handlers under interference. *)

From Stdlib Require Import Strings.Byte Strings.String.
From S2P Require Import Prelude GoNet NodeId Relay UpfAddrs SmfAddr UpfTxns UpfTable Pfcp Consumers.
From S2P Require Import Goroutine World Udp Handler UdpProps.

#[local] Open Scope string_scope.
#[local] Open Scope list_scope.
#[local] Open Scope Z_scope.

Section Reports.
Context `{L : PfcpLib, !MapRange string, !MapRange Z}.

Lemma eval_known ip {B} (k : bool -> prog (World L) B) w :
  upfAddrMutex w = None ->
  eval [] (bind (isKnownUpfAddr ip) k) w = eval [] (k (IsKnownUpfAddr (clock w) ip (upfAddrsOf w))) w.
Proof.
  intros Hm. unfold isKnownUpfAddr. destruct (decide (ip = None)) as [->|Hip]; [done|].
  rewrite eval_bind. cbn. by rewrite Hm.
Qed.

Lemma eval_report msg a (w : World L) :
  isA SessionReportRequest msg = true -> upfAddrMutex w = None ->
  IsKnownUpfAddr (clock w) (UDPAddr.IP a) (upfAddrsOf w) = true ->
  eval [] (HandlePfcpSessionReportRequest msg (Some a)) w =
    match SmfAddr (smfAddr w) with
    | None => eval [] (bind (rejectSessionReport (SEID msg) (Sequence msg) a) (fun _ => Ret ())) w
    | Some smf =>
        let '(claim, r) := RelayReportSequence a (Sequence msg) (clock w)
                             (RelayGeneration (hostOf a) (relays w)) (relays w) in
        match claim with
        | Ok (k, true) =>
            eval [] (relayAttempts relaySendAttempts msg smf (SEID msg) (Sequence msg) a k) (set_relays r w)
        | Prelude.Err ErrRelaySequenceExhausted =>
            eval [] (bind (rejectSessionReport (SEID msg) (Sequence msg) a) (fun _ => Ret ())) (set_relays r w)
        | _ => Some (Val ((), set_relays r w))
        end
    end.
Proof.
  intros Hty Hm Hk. unfold HandlePfcpSessionReportRequest. rewrite Hty. cbn [negb].
  rewrite eval_read, eval_known, Hk by done. cbn [negb]. cbv zeta.
  rewrite eval_read. destruct (SmfAddr (smfAddr w)) as [smf|]; [|done].
  unfold now. rewrite eval_read, eval_bind, eval_atomic. unfold on_relays.
  destruct (RelayReportSequence _ _ _ _ _) as [[[k [|]]|[| |]] r]; done.
Qed.

(** A report from a source the SMF has not named lately is dropped: it is not relayed, not
    answered and not remembered. So is one with no source, and one that is not a report. *)
Theorem unknown_source_dropped msg a (w : World L) :
  match a with
  | None => True
  | Some a => upfAddrMutex w = None /\ IsKnownUpfAddr (clock w) (UDPAddr.IP a) (upfAddrsOf w) = false \/
              isA SessionReportRequest msg = false
  end ->
  eval [] (HandlePfcpSessionReportRequest msg a) w = Some (Val ((), w)).
Proof.
  intros Ha. unfold HandlePfcpSessionReportRequest.
  destruct (isA SessionReportRequest msg) eqn:Hty; cbn [negb]; [|done].
  destruct a as [a|]; [|done]. rewrite eval_read. destruct Ha as [[Hm Hk]|]; [|done].
  by rewrite eval_known, Hk.
Qed.

(** A report is relayed once: while a claim on it is live, a copy changes nothing but the
    sweep of what has aged out -- nothing is sent, registered or answered. *)
Theorem copy_not_relayed msg a (w : World L) k :
  isA SessionReportRequest msg = true -> upfAddrMutex w = None ->
  IsKnownUpfAddr (clock w) (UDPAddr.IP a) (upfAddrsOf w) = true -> SmfAddr (smfAddr w) <> None ->
  relayFromLocked a (Sequence msg) (clock w) (sweepRelaysLocked (clock w) (relays w)) = Some k ->
  eval [] (HandlePfcpSessionReportRequest msg (Some a)) w =
    Some (Val ((), set_relays (sweepRelaysLocked (clock w) (relays w)) w)).
Proof.
  intros Hty Hm Hk Hsmf Hheld. rewrite eval_report by done.
  destruct (SmfAddr (smfAddr w)) as [smf|]; [|done]. unfold RelayReportSequence.
  by rewrite Z.eqb_refl, Hheld.
Qed.

(** C17. A new report from a user plane the SMF names is relayed to the SMF: it is claimed under a
    number of the adapter's own, and a request carrying it under that number -- free at this
    socket -- is registered and started towards the SMF, with the closure that refuses it should
    the SMF not answer. *)
Theorem new_report_relayed msg a (w : World L) smf srv conn k r b :
  isA SessionReportRequest msg = true -> upfAddrMutex w = None ->
  IsKnownUpfAddr (clock w) (UDPAddr.IP a) (upfAddrsOf w) = true ->
  SmfAddr (smfAddr w) = Some smf ->
  RelayReportSequence a (Sequence msg) (clock w) (RelayGeneration (hostOf a) (relays w)) (relays w) =
    (Ok (k, true), r) ->
  udp_inv (udp w) -> Server (udp w) = Some srv -> ServerConn srv = Some conn ->
  let req := SetSequenceNumber k msg in
  Marshal req = Ok b -> IsRequest req = true -> Sequence req = k ->
  slot (UDPAddr_String (LocalAddr conn)) k (udp w) = None ->
  exists w' ptr tx,
    eval [] (HandlePfcpSessionReportRequest msg (Some a)) w = Some (Val ((), w')) /\
    relays w' = r /\ reportRelays r !! k = Some (mkRelay a (clock w) (Sequence msg) false) /\
    slot (UDPAddr_String (LocalAddr conn)) k (udp w') = Some ptr /\ txs (udp w') !! ptr = Some tx /\
    DestAddr tx = smf /\ SendMsg tx = b /\
    EventData tx = Some (mkEventData (Some (relayUnansweredFn (SEID msg))) 0) /\
    spawned w' = spawned w ++ [goTxLifeCycle ptr].
Proof.
  intros Hty Hm Hk Hsmf Hclaim Hu Hs Hc req Hb Hq Hseq Hfree.
  rewrite eval_report, Hsmf, Hclaim by done. cbn [relaySendAttempts relayAttempts]. cbv zeta. fold req.
  destruct (send_result req smf (Some (mkEventData (Some (relayUnansweredFn (SEID msg))) 0))
              (set_relays r w) Hu) as (err & w1 & He & _ & Hres).
  cbn [udp set_relays] in Hres. rewrite Hs in Hres. simpl in Hres. rewrite Hc, Hb in Hres.
  assert (Hcons : ConsumerAddr (NewTransaction req b conn smf
    (Some (mkEventData (Some (relayUnansweredFn (SEID msg))) 0))) = UDPAddr_String (LocalAddr conn)).
  { unfold NewTransaction. by rewrite Hq. }
  rewrite Hcons, Hseq, Hfree in Hres. destruct Hres as (_ & -> & ptr & Hsp & Htx & Hslot).
  assert (Hrel : relays w1 = r).
  { by rewrite (send_relays _ _ _ _ _ _ He). }
  exists w1, ptr. eexists. rewrite eval_bind, He. split; [done|]. split; [done|]. split.
  { revert Hclaim. unfold RelayReportSequence. rewrite Z.eqb_refl. cbn [negb].
    destruct (relayFromLocked _ _ _ _); [done|].
    destruct (nextFreeRelaySequence _ _ _ _) as [k'|]; [|done]. intros [= -> <-]. simpl.
    by rewrite lookup_insert_eq. }
  split; [by rewrite Hslot, decide_True|]. split; [exact Htx|].
  unfold NewTransaction. by rewrite Hq.
Qed.

Lemma forget_gone k (w : World L) :
  reportRelays (relays (set_relays (ForgetReportRelay k (relays w)) w)) !! k = None.
Proof. simpl. unfold ForgetReportRelay. rewrite reportRelays_drop. apply lookup_delete_eq. Qed.

Lemma eval_response msg (w : World L) :
  isA SessionReportResponse msg = true ->
  eval [] (HandlePfcpSessionReportResponse msg) w =
    let '(relay, r) := TakeReportRelay (Sequence msg) (clock w) (relays w) in
    match relay with
    | None => Some (Val ((), w))
    | Some (a, s) =>
        eval [] (bind (SendPfcp (SetSequenceNumber s msg) a (Some reportResponseEventData))
                   (fun _ => forgetReportRelay (Sequence msg))) (set_relays r w)
    end.
Proof.
  intros Hty. unfold HandlePfcpSessionReportResponse. rewrite Hty. cbn [negb]. cbv zeta.
  unfold takeReportRelay. rewrite eval_bind, eval_atomic. unfold on_relays.
  pose proof (TakeReportRelay_spec (Sequence msg) (clock w) (relays w)) as Ht.
  destruct (TakeReportRelay _ _ _) as [[[a s]|] r]; cbn [fst snd]; [done|].
  destruct Ht as [-> _]. by destruct w.
Qed.

(** C18. The SMF's answer goes back to where the report came from: to the address the report was
    read from, under the number that user plane gave it, encoded once more, and kept there to be
    sent again to whoever repeats the report; if that number is being answered already, that
    answer stands. Either way the claim is over. An answer to nothing that is waiting changes
    nothing at all. *)
Theorem answer_returned msg (w : World L) srv conn :
  isA SessionReportResponse msg = true -> udp_inv (udp w) ->
  Server (udp w) = Some srv -> ServerConn srv = Some conn ->
  match TakeReportRelay (Sequence msg) (clock w) (relays w) with
  | (None, _) => eval [] (HandlePfcpSessionReportResponse msg) w = Some (Val ((), w))
  | (Some (a, s), _) =>
      forall b, let rsp := SetSequenceNumber s msg in
      Marshal rsp = Ok b -> IsResponse rsp = true -> Sequence rsp = s ->
      exists w', eval [] (HandlePfcpSessionReportResponse msg) w = Some (Val ((), w')) /\
        reportRelays (relays w') !! Sequence msg = None /\
        match slot (UDPAddr_String a) s (udp w) with
        | Some ptr => slot (UDPAddr_String a) s (udp w') = Some ptr /\ spawned w' = spawned w
        | None => exists ptr tx, slot (UDPAddr_String a) s (udp w') = Some ptr /\
            txs (udp w') !! ptr = Some tx /\ DestAddr tx = a /\ SendMsg tx = b /\
            TxType tx = SendingResponse /\ spawned w' = spawned w ++ [goTxLifeCycle ptr]
        end
  end.
Proof.
  intros Hty Hu Hs Hc. pose proof (eval_response msg w Hty) as He.
  destruct (TakeReportRelay _ _ _) as [[[a s]|] r]; [|done].
  intros b rsp Hb Hr Hseq. fold rsp in He.
  destruct (send_result rsp a (Some reportResponseEventData) (set_relays r w) Hu)
    as (err & w1 & He1 & _ & Hres).
  rewrite eval_bind, He1 in He. eexists. split; [rewrite He; reflexivity|].
  split; [apply forget_gone|]. cbn [udp set_relays] in Hres. rewrite Hs in Hres. simpl in Hres.
  rewrite Hc, Hb in Hres.
  assert (Hq : IsRequest rsp = false).
  { unfold IsRequest, IsResponse in *. by destruct (MessageType rsp). }
  set (tx := NewTransaction rsp b conn a (Some reportResponseEventData)) in Hres.
  assert (Htx : ConsumerAddr tx = UDPAddr_String a /\ DestAddr tx = a /\ SendMsg tx = b /\
                TxType tx = SendingResponse).
  { unfold tx, NewTransaction. by rewrite Hq, Hr. }
  destruct Htx as (Hcons & Hd & Hm & Hty'). rewrite Hcons, Hseq in Hres.
  destruct Hres as (_ & Hres). destruct (slot (UDPAddr_String a) s (udp w)) as [p|] eqn:Hp.
  - destruct Hres as (_ & Hsp & Hslot). cbn [udp spawned set_relays]. by rewrite Hslot.
  - destruct Hres as (_ & ptr & Hsp & Htxs & Hslot). exists ptr, tx. cbn [udp spawned set_relays].
    rewrite Hslot, decide_True by done. by split_and!.
Qed.

(** Where nothing can be relayed the user plane is told: a report that arrives before any SMF
    has spoken is refused -- its own number answered with a rejection -- and not claimed. *)
Theorem no_smf_refused msg a (w : World L) srv conn b :
  isA SessionReportRequest msg = true -> upfAddrMutex w = None ->
  IsKnownUpfAddr (clock w) (UDPAddr.IP a) (upfAddrsOf w) = true -> SmfAddr (smfAddr w) = None ->
  udp_inv (udp w) -> Server (udp w) = Some srv -> ServerConn srv = Some conn ->
  let rsp := NewSessionReportResponse 0 0 (SEID msg) (Sequence msg) 0 (NewCause CauseRequestRejected) in
  Marshal rsp = Ok b -> IsResponse rsp = true -> Sequence rsp = Sequence msg ->
  slot (UDPAddr_String a) (Sequence msg) (udp w) = None ->
  exists w' ptr tx,
    eval [] (HandlePfcpSessionReportRequest msg (Some a)) w = Some (Val ((), w')) /\
    relays w' = relays w /\ slot (UDPAddr_String a) (Sequence msg) (udp w') = Some ptr /\
    txs (udp w') !! ptr = Some tx /\ DestAddr tx = a /\ SendMsg tx = b /\
    spawned w' = spawned w ++ [goTxLifeCycle ptr].
Proof.
  intros Hty Hm Hk Hsmf Hu Hs Hc rsp Hb Hr Hseq Hfree. rewrite eval_report, Hsmf by done.
  unfold rejectSessionReport. fold rsp. rewrite eval_bind.
  destruct (send_result rsp a (Some reportResponseEventData) w Hu) as (err & w1 & He & _ & Hres).
  rewrite He. rewrite Hs in Hres. simpl in Hres. rewrite Hc, Hb in Hres.
  assert (Hq : IsRequest rsp = false).
  { unfold IsRequest, IsResponse in *. by destruct (MessageType rsp). }
  assert (Hcons : ConsumerAddr (NewTransaction rsp b conn a (Some reportResponseEventData)) = UDPAddr_String a).
  { unfold NewTransaction. by rewrite Hq, Hr. }
  rewrite Hcons, Hseq, Hfree in Hres. destruct Hres as (_ & -> & ptr & Hsp & Htx & Hslot).
  exists w1, ptr. eexists. split; [done|]. split; [by apply send_relays in He|].
  split; [by rewrite Hslot, decide_True|]. split; [exact Htx|].
  unfold NewTransaction. by rewrite Hq, Hr.
Qed.
End Reports.

(** ** Witnesses *)

Module ReportDemo.
Definition here : UDPAddr := UDPAddr.mk (ParseIP.ParseIP "10.42.0.1") PFCP_PORT "".
Definition conn : UDPConn := mkConn here.
Definition upf : UDPAddr := UDPAddr.mk (ParseIP.ParseIP "10.42.0.7") PFCP_PORT "".
Definition srv : PfcpServer := mkServer here (Some conn).

(** The SMF has named the user plane at 10.42.0.7, and has said where it is or not. *)
Definition named (smf : slice) : World DemoLib :=
  let w := initWorld 1000 (fun _ => None) srv in
  set_smfAddr smf
    (set_upfAddrsOf (fst (recordUpfAddrLocked 1000 (UDPAddr.IP upf) "0/10.42.0.7" (initUpfAddrs, w))) w).

Definition smf : slice := ParseIP.ParseIP "10.42.0.9".
Definition report : @Message DemoLib := Demo.mk 56 7 0 Demo.noFields.
Definition answer : @Message DemoLib := Demo.mk 57 relaySequenceFloor 0 Demo.noFields.

(** The report has been claimed. *)
Definition claimed : World DemoLib :=
  set_relays (snd (RelayReportSequence upf 7 1000 0 initRelays)) (named smf).

Lemma named_inv s : udp_inv (udp (named s)).
Proof. apply udp_inv_init. Qed.
End ReportDemo.
Import ReportDemo.

Lemma unknown_source_dropped_witness :
  eval [] (HandlePfcpSessionReportRequest report (Some here)) (named smf) = Some (Val ((), named smf)).
Proof. apply (unknown_source_dropped report (Some here) (named smf)). left. split; vm_compute; reflexivity. Defined.

Lemma copy_not_relayed_witness :
  eval [] (HandlePfcpSessionReportRequest report (Some upf)) claimed =
    Some (Val ((), set_relays (sweepRelaysLocked 1000 (relays claimed)) claimed)).
Proof.
  apply (copy_not_relayed report upf claimed relaySequenceFloor);
    [reflexivity|reflexivity|vm_compute; reflexivity|vm_compute; discriminate|vm_compute; reflexivity].
Defined.

Lemma new_report_relayed_witness :
  exists w' ptr, eval [] (HandlePfcpSessionReportRequest report (Some upf)) (named smf) = Some (Val ((), w')) /\
    slot "10.42.0.1:8805" relaySequenceFloor (udp w') = Some ptr.
Proof.
  destruct (new_report_relayed report upf (named smf) (UDPAddr.mk smf PfcpPort "") srv conn
    relaySequenceFloor (snd (RelayReportSequence upf 7 1000 0 initRelays))
    (Demo.encode (Demo.mk 56 relaySequenceFloor 0 Demo.noFields))) as (w' & ptr & tx & He & _ & _ & Hs & _);
    [reflexivity|reflexivity|vm_compute; reflexivity|reflexivity|vm_compute; reflexivity|apply named_inv|
     reflexivity..|].
  exists w', ptr. split; [exact He|exact Hs].
Defined.

Lemma answer_returned_witness :
  exists w', eval [] (HandlePfcpSessionReportResponse answer) claimed = Some (Val ((), w')) /\
    is_Some (slot "10.42.0.7:8805" 7 (udp w')).
Proof.
  pose proof (answer_returned answer claimed srv conn eq_refl (named_inv smf) eq_refl eq_refl) as Ha.
  destruct (TakeReportRelay (@Sequence DemoLib answer) (clock claimed) (relays claimed))
    as [[[a s]|] r] eqn:Ht; vm_compute in Ht; [|discriminate].
  injection Ht as <- <- <-.
  destruct (Ha _ eq_refl eq_refl eq_refl) as (w' & He & _ & Hs). exists w'. split; [exact He|].
  assert (Hn : slot (UDPAddr_String upf) 7 (udp claimed) = None) by (vm_compute; reflexivity).
  destruct Hs as (ptr & tx & Hs & _). exists ptr. exact Hs.
Defined.

Lemma no_smf_refused_witness :
  exists w' ptr, eval [] (HandlePfcpSessionReportRequest report (Some upf)) (named None) = Some (Val ((), w')) /\
    slot "10.42.0.7:8805" 7 (udp w') = Some ptr.
Proof.
  destruct (no_smf_refused report upf (named None) srv conn
    (Demo.encode (Demo.mk 57 7 0 Demo.noFields))) as (w' & ptr & tx & He & _ & Hs & _);
    [reflexivity|reflexivity|vm_compute; reflexivity|reflexivity|apply named_inv|reflexivity..|].
  exists w', ptr. split; [exact He|exact Hs].
Defined.
