(* ===== verification/ForwardProps.v ===== *)
(** * ForwardProps: what becomes of the SMF's requests

    Requests whose association is made already, with the lock that can be left; requests that could
    not be sent; and what the HTTP handler replies. *)

From Stdlib Require Import Strings.Byte Strings.String.
From S2P Require Import Prelude GoNet NodeId Relay UpfAddrs SmfAddr UpfTxns UpfTable Pfcp Consumers.
From S2P Require Import Goroutine World Udp Handler Forward Process System SystemInv Liveness.
From S2P Require Import SystemProps.
Import SystemDemo.

#[local] Open Scope string_scope.
#[local] Open Scope list_scope.
#[local] Open Scope Z_scope.

(** ** Where the socket listens *)

(** The answers to the adapter's requests are looked up under the address it listens on, as
    text, and the requests are registered under the socket's own: for an IPv4 address the two are
    the same text. Without one -- [POD_IP] unset or not IPv4 -- they never are, since the socket
    then reports a full address and the adapter's has none: no answer would be found. *)
Theorem listenAddr_matches :
  (forall p, length p = IP.IPv4len ->
     UDPAddr_String (listenAddr (Some p)) = UDPAddr_String (UDPAddr.mk (Some p) PFCP_PORT "")) /\
  (forall local, length (bytes (UDPAddr.IP local)) = IP.IPv6len -> UDPAddr.Zone local = "" ->
     UDPAddr_String (listenAddr None) <> UDPAddr_String local).
Proof.
  split.
  - intros p Hp. destruct p as [|a [|b [|c [|d [|]]]]]; try done.
    pose proof (To4_idemp [a; b; c; d] Hp) as H4. unfold listenAddr. simpl NodeIdValue.
    rewrite (IP_String_To4 _ _ H4), ParseIP_dotted.
    rewrite !UDPAddr_String_plain by done. rewrite (IP_String_To4 _ _ H4).
    by rewrite (IP_String_To4 (Some (IP.v4InV6Prefix ++ [a; b; c; d])) [a; b; c; d]).
  - intros local Hl Hz Heq. pose proof (SplitHostPort_UDPAddr local (or_intror Hl) Hz) as Hs.
    rewrite <- Heq in Hs. assert (Hn : SplitHostPort (UDPAddr_String (listenAddr None)) = Some ("", "8805"))
      by (vm_compute; reflexivity).
    rewrite Hn in Hs. simplify_eq. by apply (IP_String_nonempty (UDPAddr.IP local)).
Qed.

Section Forward.
Context `{L : PfcpLib, !MapRange string, !MapRange Z}.

(** ** Answering for an association already made *)

(** What the adapter answers from its stored copy: the indication that sessions were retained
    is set exactly when the request asks, every other flag is the user plane's, flags that cannot
    be read count as none, and no flags element is sent when nothing is set. Nothing else of the
    answer changes. *)
Theorem answerRetention_spec `{!PfcpLaws L} rsp req stored :
  match field FASRspFlags rsp with
  | None => stored = 0
  | Some x => PFCPASRspFlags x = Val (Ok stored) \/
              stored = 0 /\ exists e, PFCPASRspFlags x = Val (Prelude.Err e)
  end -> 0 <= stored < 2 ^ 8 ->
  let asked := isA AssociationSetupRequest req && bool_decide (is_Some (field FRetention req)) in
  exists flags rsp', answerRetention rsp req = Val rsp' /\ 0 <= flags < 2 ^ 8 /\
    (forall i, 0 <= i -> Z.testbit flags i = if decide (i = 0) then asked else Z.testbit stored i) /\
    field FASRspFlags rsp' = (if decide (flags = 0) then None else Some (NewPFCPASRspFlags flags)) /\
    Sequence rsp' = Sequence rsp /\
    (forall f, f <> FASRspFlags -> field f rsp' = field f rsp).
Proof.
  intros Hst Hrange asked. unfold answerRetention. fold asked.
  assert (Hs : match field FASRspFlags rsp with
    | None => Val 0
    | Some flagsIE => match PFCPASRspFlags flagsIE with
        | Panic => Panic | Val (Ok stored) => Val stored | Val (Prelude.Err _) => Val 0 end
    end = Val stored).
  { destruct (field FASRspFlags rsp) as [x|]; [|by subst].
    destruct Hst as [->|[-> [e ->]]]; done. }
  rewrite Hs. set (flags := if asked then _ else _).
  assert (Hbit : forall i, 0 <= i ->
    Z.testbit flags i = if decide (i = 0) then asked else Z.testbit stored i).
  { intros i Hi. change psrei with (2 ^ 0) in flags. unfold flags.
    destruct asked; rewrite ?Z.lor_spec, Z.ldiff_spec, !Z.pow2_bits_eqb by lia;
      (destruct (Z.eqb_spec 0 i) as [<-|Hne];
        [by rewrite decide_True, ?andb_false_r, ?orb_true_r|]);
      rewrite decide_False by lia; cbn [negb]; by rewrite ?andb_true_r, ?orb_false_r. }
  assert (Hnn : 0 <= flags).
  { unfold flags. destruct asked; [apply Z.lor_nonneg; split; [|done]|]; apply Z.ldiff_nonneg; lia. }
  exists flags, (setField FASRspFlags (if flags =? 0 then None else Some (NewPFCPASRspFlags flags)) rsp).
  split; [done|]. split; [|split; [exact Hbit|]].
  - split; [done|]. destruct (Z.eq_dec flags 0) as [->|Hne]; [done|].
    apply Z.log2_lt_pow2; [lia|]. apply Z.lt_nge. intros Hge.
    pose proof (Z.bit_log2 flags ltac:(lia)) as Hb. rewrite Hbit in Hb by lia.
    rewrite decide_False in Hb by lia. destruct (Z.eq_dec stored 0) as [->|Hz]; [by rewrite Z.bits_0 in Hb|].
    rewrite Z.bits_above_log2 in Hb; [done|lia|].
    eapply Z.lt_le_trans; [|exact Hge]. apply Z.log2_lt_pow2; lia.
  - rewrite field_setField, Sequence_setField, decide_True by done. split_and!.
    + destruct (Z.eqb_spec flags 0); [by rewrite decide_True|by rewrite decide_False].
    + done.
    + intros f Hf. rewrite field_setField. by rewrite decide_False.
Qed.

Lemma eval_isAssociated msg n ip (w : World L) :
  MessageType msg = AssociationSetupRequest -> IsUpfAssociated n (upfs w) = true ->
  eval [] (ForwardPfcpMsgToUpf ip msg n) w =
    eval [] (answerAssociation msg n) (set_nextChan (S (nextChan w)) w).
Proof.
  intros Ht Ha. unfold ForwardPfcpMsgToUpf. rewrite eval_bind, eval_atomic. cbn [makeChan fst snd].
  rewrite Ht, eval_read. cbn [upfs set_nextChan]. by rewrite Ha.
Qed.

Lemma eval_lastAssociationRsp k (w : World L) :
  eval [] (lastAssociationRsp k) w =
    match upfs w !! k with
    | None => Some (Val (None, w))
    | Some u =>
        if waiting (UpfLock u) then None
        else
          let m := mkRWMutex (S (readers (UpfLock u))) false in
          Some (Val (LastAssoRsp u, set_upfs (<[k := setUpfLock (match LastAssoRsp u with
                                                             | Some _ => RUnlock m
                                                             | None => m
                                                             end) u]> (upfs w)) w))
    end.
Proof.
  unfold lastAssociationRsp, wait, select. cbn [eval tail lookup list_lookup]. unfold readLastAssoRsp, RLock.
  destruct (upfs w !! k) as [u|]; [|by destruct w]. destruct (waiting (UpfLock u)); [done|].
  by destruct (LastAssoRsp u).
Qed.

(** A request for an association that is already made is answered here: nothing is sent,
    registered or changed, and the answer is the stored one, under the request's number and with
    the flags it asks for. A node that cannot be found by this identity although it is marked is
    an error; if no answer has been stored yet, a nil header is dereferenced; and once a writer waits
    for a read lock left on the node, the request waits too. *)
Theorem association_answered_here msg n ip (w : World L) :
  MessageType msg = AssociationSetupRequest -> IsUpfAssociated n (upfs w) = true ->
  let w' := set_nextChan (S (nextChan w)) w in
  eval [] (ForwardPfcpMsgToUpf ip msg n) w =
    match GetUpfFromNodeId n (upfs w) with
    | None => Some (Val (Prelude.Err (errText "upf not found"), w'))
    | Some k =>
        match upfs w !! k with
        | None => Some Panic
        | Some u =>
            if waiting (UpfLock u) then None
            else
              match LastAssoRsp u with
              | None => Some Panic
              | Some rsp =>
                  match answerRetention (SetSequenceNumber (Sequence msg) rsp) msg with
                  | Panic => Some Panic
                  | Val rsp =>
                      match Marshal rsp with
                      | Ok buf => Some (Val (Ok (Some buf), w'))
                      | Prelude.Err e => Some (Val (Prelude.Err (errText e), w'))
                      end
                  end
              end
        end
    end.
Proof.
  intros Ht Ha w'. rewrite eval_isAssociated by done.
  unfold answerAssociation, BuildPfcpAssociationResponse. rewrite eval_bind, eval_read.
  cbn [upfs set_nextChan]. destruct (GetUpfFromNodeId n (upfs w)) as [k|]; [|done].
  rewrite eval_bind, eval_lastAssociationRsp. cbn [upfs set_nextChan].
  destruct (upfs w !! k) as [u|] eqn:Hu; [|done]. destruct (waiting (UpfLock u)) eqn:Hwait; [done|].
  destruct (LastAssoRsp u) as [rsp|]; [|done]. cbn [deref bind eval].
  assert (Hsame : set_upfs (<[k := setUpfLock (RUnlock (mkRWMutex (S (readers (UpfLock u))) false)) u]> (upfs w))
    (set_nextChan (S (nextChan w)) w) = w').
  { rewrite insert_id; [by destruct w|]. rewrite Hu. destruct u as [? ? ? ? ? ? [r b]]. simpl in *. by subst b. }
  rewrite Hsame. destruct (answerRetention _ msg) as [rsp'|]; [|done].
  cbn [lift bind]. by destruct (Marshal rsp').
Qed.

(** What others do never takes the read lock off: the writer waits. *)
Lemma world_steps_upfs (w w' : World L) : rtc world_step w w' -> rtc upf_step (upfs w) (upfs w').
Proof. induction 1 as [w|w1 w2 w3 H12 _ IH]; [done|]. etrans; [exact (wstep_upfs _ _ H12)|exact IH]. Qed.

Lemma never_stored k rsp (w : World L) :
  keyed (upfs w) -> leftRead k (upfs w) ->
  wp world_step (fun _ _ => True) (fun _ => False)
     (preservePfcpAssociationRsp (Some k) rsp) (fun _ _ => False) w.
Proof.
  intros Hkeyed Hl. assert (Hstays : forall w1 w2 : World L, rtc world_step w1 w2 -> keyed (upfs w1) ->
    leftRead k (upfs w1) -> keyed (upfs w2) /\ leftRead k (upfs w2)).
  { intros w1 w2 H12%world_steps_upfs Hk1 Hl1. split; [by apply (upf_steps_spec _ _ H12)|].
    by eapply leftRead_stays. }
  unfold preservePfcpAssociationRsp. apply wp_bind, wp_attempt. intros w1 H1.
  destruct (Hstays w w1 H1 Hkeyed Hl) as [Hk1 Hl1]. rewrite (leftRead_waits k rsp) by done.
  split; [done|]. cbv beta iota. apply wp_bind, wp_select. intros w2 i ready a w3 H2 Hi Hready.
  destruct i as [|i]; [|done]. injection Hi as <-. exfalso.
  destruct (Hstays _ w2 H2) as [_ Hl2].
  - by apply (upf_step_spec (upfs w1)); [apply step_announce|].
  - by eapply leftRead_stays; [apply rtc_once, step_announce|..].
  - pose proof (leftRead_waits k rsp (upfs w2) Hl2) as Hn.
    unfold PreservePfcpAssociationRsp, underLock in Hn. by rewrite Hn in Hready.
Qed.

(** C36. Between marking a user plane associated and storing its answer, which the handler of the
    first answer does one after the other, there is no answer to give to a second request for the
    association. Its handler panics, so that its sender gets no reply -- and before it has given back
    the read lock of the node. From then on, whatever else happens, no answer is ever stored there:
    the goroutine that has the first answer to store neither comes back from storing it nor panics,
    so the first request is not answered either, and so it is with every later one. *)
Theorem association_answer_race msg n k u ip (w : World L) :
  MessageType msg = AssociationSetupRequest -> keyed (upfs w) -> IsUpfAssociated n (upfs w) = true ->
  GetUpfFromNodeId n (upfs w) = Some k -> upfs w !! k = Some u ->
  LastAssoRsp u = None -> waiting (UpfLock u) = false ->
  exists w', eval [] (recovered (ForwardPfcpMsgToUpf ip msg n)) w = Some (Val (None, w')) /\
    upfs w' !! k = Some (setUpfLock (mkRWMutex (S (readers (UpfLock u))) false) u) /\
    forall w'' rsp, rtc world_step w' w'' ->
      wp world_step (fun _ _ => True) (fun _ => False)
         (preservePfcpAssociationRsp (Some k) rsp) (fun _ _ => False) w''.
Proof.
  intros Ht Hkeyed Ha Hg Hu Hrsp Hwait. set (w0 := set_nextChan (S (nextChan w)) w).
  set (t := <[k := setUpfLock (mkRWMutex (S (readers (UpfLock u))) false) u]> (upfs w)).
  exists (set_upfs t w0).
  assert (Htk : t !! k = Some (setUpfLock (mkRWMutex (S (readers (UpfLock u))) false) u)) by apply lookup_insert_eq.
  split_and!; [|done|].
  - unfold ForwardPfcpMsgToUpf. rewrite (eval_recovered _ _ w (nextChan w) w0) by done. rewrite Ht.
    rewrite (eval_recovered _ _ w0 true w0) by (by simpl; rewrite Ha).
    unfold answerAssociation, BuildPfcpAssociationResponse.
    cbn [bind read atomic recovered eval tail fst snd].
    change (upfs w0) with (upfs w). rewrite Hg. unfold lastAssociationRsp, wait, select.
    cbn [bind recovered eval tail lookup list_lookup]. change (upfs w0) with (upfs w).
    unfold readLastAssoRsp, RLock. by rewrite Hu, Hwait, Hrsp.
  - intros w'' rsp Hr%world_steps_upfs. change (upfs (set_upfs t w0)) with t in Hr.
    assert (Hkt : keyed t).
    { eapply insert_evolves; [exact Hu| |done]. split_and!; simpl; try done. lia. }
    apply never_stored; [by apply (upf_steps_spec t)|]. eapply (leftRead_stays k t); [done..|].
    eexists. split; [exact Htk|done].
Qed.

(** ** Rolling back *)

(** The channel is registered at this number only, if at all. *)
Definition ownOnly (ch : nat) (seq : Z) (w : World L) : Prop :=
  forall s, txns w !! s = Some (Some ch) -> s = seq.

(** The others do not register this channel. *)
Definition notMine (ch : nat) (w w' : World L) : Prop :=
  forall s, txns w' !! s = Some (Some ch) -> txns w !! s = Some (Some ch).

Lemma notMine_rtc ch w w' : rtc (notMine ch) w w' -> notMine ch w w'.
Proof. induction 1 as [w|w1 w2 w3 H12 _ IH]; intros s Hs; auto. Qed.

Lemma ownOnly_rtc ch seq w w' : rtc (notMine ch) w w' -> ownOnly ch seq w -> ownOnly ch seq w'.
Proof. intros Hr%notMine_rtc Ho s Hs. by apply Ho, Hr. Qed.

Abbreviation wpo ch := (wp (notMine ch) (fun _ _ => True) (fun _ => True)).

(** Sending does not touch the registrations. *)
Lemma sendTo_ownOnly ch seq n m ev w :
  ownOnly ch seq w -> wpo ch (sendTo n m ev) (fun _ w' => ownOnly ch seq w') w.
Proof.
  intros Hw. unfold sendTo. apply wp_bind, wp_attempt. intros w1 Hr1.
  apply (ownOnly_rtc _ seq) in Hr1; [|done].
  unfold resolve. destruct (ResolveNodeIdToIp _ n _) as [[ip cache]|]; [|done]. split; [done|].
  change (ownOnly ch seq (set_dnsHostIpCache cache w1)) in Hr1. revert Hr1.
  generalize (set_dnsHostIpCache cache w1) as w2. clear. intros w2 Hw.
  unfold SendPfcp. apply wp_bind, wp_read. intros w3 Hr3. split; [done|].
  apply (ownOnly_rtc _ seq) in Hr3; [|done].
  destruct (Server (udp w3)) as [srv|]; [|done]. destruct (ServerConn srv); [|done].
  destruct (Marshal m); [|done]. cbv zeta. apply wp_bind, wp_atomic. intros w4 Hr4. split; [done|].
  apply (ownOnly_rtc _ seq) in Hr4; [|done]. unfold registerAndStart. apply wp_bind, wp_attempt.
  intros w5 Hr5. destruct (Server (udp w5)); [|done]. apply (ownOnly_rtc _ seq) in Hr5; [|exact Hr4].
  unfold on_udp. destruct (PutTransaction _ _ _) as [[e|] u5]; (split; [done|]); [exact Hr5|].
  apply wp_bind, wp_modify. intros w6 Hr6. split; [done|].
  by apply (ownOnly_rtc _ seq) in Hr6.
Qed.

(** C35. A request that could not be sent leaves no registration behind: whatever others register
    or take meanwhile, after a failure the channel of this request is registered under no number,
    so no later answer can be handed to a requester that has gone. *)
Theorem failed_send_unregisters ch req n ev (w : World L) :
  (forall s, txns w !! s <> Some (Some ch)) ->
  wp (notMine ch) (fun _ _ => True) (fun _ => True)
    (registerAndSend ch req (fun m => sendTo n m ev))
    (fun err w' => err <> None -> forall s, txns w' !! s <> Some (Some ch)) w.
Proof.
  intros Hno. unfold registerAndSend, insertUpfPfcpTxn, forgetUpfPfcpTxn.
  apply wp_bind, wp_modify. intros w1 Hr1%notMine_rtc. split; [done|]. apply wp_bind.
  eapply wp_mono; [|apply (sendTo_ownOnly ch (Sequence req))].
  - intros [e|] w2 Hw2; [|cbn [wp]; tauto]. apply wp_bind, wp_modify. intros w3 Hr3. split; [done|].
    apply (ownOnly_rtc _ (Sequence req)) in Hr3; [|done]. intros _ s Hs. cbn [txns set_txns] in Hs.
    unfold ForgetUpfPfcpTxn in Hs. destruct (txns w3 !! Sequence req) as [held|] eqn:Hheld.
    + case_decide as Hd.
      * rewrite (Hr3 s Hs) in Hs. congruence.
      * subst held. rewrite lookup_delete_Some in Hs. destruct Hs as [Hne Hs].
        by apply Hne; rewrite (Hr3 s Hs).
    + rewrite (Hr3 s Hs) in Hs. congruence.
  - intros s. simpl. unfold InsertUpfPfcpTxn. rewrite lookup_insert. case_decide; [by intros _|].
    intros Hs. exfalso. eapply Hno, Hr1, Hs.
Qed.

(** ** The HTTP handler *)


Section Runs.
Context (R : World L -> World L -> Prop).




End Runs.
End Forward.

(** ** Witnesses *)

Module ForwardDemo.
Definition here : UDPAddr := UDPAddr.mk (ParseIP.ParseIP "10.42.0.1") PFCP_PORT "".
Definition world : World DemoLib :=
  initWorld 1000 (fun _ => Some ["10.42.0.184"]) (mkServer here (Some (mkConn here))).

Definition request (flagged : bool) : @Message DemoLib :=
  Demo.mk 5 33 0 (fun f => if decide (f = FRetention /\ flagged = true) then Some (1, "") else None).
Definition answer : @Message DemoLib :=
  Demo.mk 6 9 0 (fun f => if decide (f = FASRspFlags) then Some (5, "") else None).

Definition name : NodeID := NewNodeID "upf.core".

(** The user plane is known, and associated or not. *)
Definition node (s : UPFStatus) (rsp : option Message) : World DemoLib :=
  set_upfs {["upf.core" := mkUPNode "upf.core" rsp None (ParseIP.ParseIP "10.42.0.184") name s unlocked]} world.

(** The SMF asks for an association, and asks again. *)
Definition association : UdpPodPfcpMsg :=
  mkPodMsg "10.42.0.9" (packet AssociationSetupRequest 5) (NewNodeID "10.42.0.7").

(** The user plane accepts: 7 dispatches its answer and has marked it associated, and is to store the
    answer next. *)
Definition raced : list move :=
  boot ++ [SystemProps.Request "10.42.0.9:40312" association; Fork] ++ steps 5 14 ++ [Fork] ++ steps 6 3 ++
  [Datagram (packet AssociationSetupResponse 5 ++ list_byte_of_string "10.42.0.7") upf] ++
  steps 4 10 ++ [Fork] ++ steps 7 2.

Definition node7 : string := string_of_slice (NodeIdValue (NewNodeID "10.42.0.7")).

Definition isRaced (s : @system DemoLib) : bool :=
  IsUpfAssociated (NewNodeID "10.42.0.7") (upfs s.2) &&
  (bool_decide (GetUpfFromNodeId (NewNodeID "10.42.0.7") (upfs s.2) = Some node7) &&
   match upfs s.2 !! node7 with
   | Some u => match LastAssoRsp u with Some _ => false | None => true end &&
               bool_decide (UpfLock u = unlocked)
   | None => false
   end).

End ForwardDemo.
Import ForwardDemo.

Lemma answerRetention_spec_witness :
  exists rsp', @answerRetention DemoLib answer (request true) = Val rsp' /\
    @Sequence DemoLib rsp' = 9.
Proof.
  destruct (@answerRetention_spec DemoLib _ answer (request true) 5) as (flags & rsp' & Hr & _ & _ & _ & Hs & _).
  - left. reflexivity.
  - lia.
  - exists rsp'. split; [exact Hr|exact Hs].
Defined.

Lemma association_answered_here_witness :
  eval [] (ForwardPfcpMsgToUpf None (request false) name) (node AssociatedSetUpSuccess (Some answer)) =
    Some (Val (Ok (Some (Demo.encode (Demo.mk 6 33 0 Demo.noFields))),
               set_nextChan 1 (node AssociatedSetUpSuccess (Some answer)))).
Proof.
  rewrite (association_answered_here (request false) name None
             (node AssociatedSetUpSuccess (Some answer)) eq_refl eq_refl). reflexivity.
Defined.

(** From the call of [main] to the race, and what comes of it. *)
Lemma association_answer_race_witness :
  exists s w', rtc (system_move env) start s /\ isRaced s = true /\
    eval [] (recovered (ForwardPfcpMsgToUpf None (request false) (NewNodeID "10.42.0.7"))) s.2 =
      Some (Val (None, w')) /\
    forall w'' rsp, rtc world_step w' w'' ->
      wp world_step (fun _ _ => True) (fun _ => False)
         (preservePfcpAssociationRsp (Some node7) rsp) (fun _ _ => False) w''.
Proof.
  destruct (schedule_reaches raced isRaced) as (s & _ & Hr & HP); [vm_compute; reflexivity|].
  exists s. pose proof HP as HP'. unfold isRaced in HP'. apply andb_prop in HP' as [Ha HP'].
  apply andb_prop in HP' as [Hg HP']. apply bool_decide_eq_true in Hg.
  destruct (upfs s.2 !! node7) as [u|] eqn:Hu; [|discriminate]. apply andb_prop in HP' as [Hrsp Hl].
  apply bool_decide_eq_true in Hl.
  destruct (association_answer_race (request false) (NewNodeID "10.42.0.7") node7 u None s.2)
    as (w' & He & _ & Hnever).
  - reflexivity.
  - apply winv_upfs, (known_moves _ _ _ Hr (known_init _ _ _)).
  - exact Ha.
  - exact Hg.
  - exact Hu.
  - destruct (LastAssoRsp u); [discriminate|reflexivity].
  - rewrite Hl. reflexivity.
  - exists w'. split; [exact Hr|]. split; [exact HP|]. split; [exact He|exact Hnever].
Defined.


Lemma failed_send_unregisters_witness :
  wp (notMine 3) (fun _ _ => True) (fun _ => True)
    (registerAndSend 3 (request false) (fun m => sendTo name m withErrHandler))
    (fun err w' => err <> None -> forall s, txns w' !! s <> Some (Some 3%nat)) world.
Proof.
  apply (failed_send_unregisters 3 (request false) name withErrHandler world).
  intros s. cbn [txns world initWorld]. rewrite lookup_empty. discriminate.
Defined.
