(* ===== verification/AnswerProps.v ===== *)
(** * AnswerProps: answers and failures on their way back to the SMF ([pfcp/handler/handler.go]) *)

From Stdlib Require Import Strings.Byte Strings.String.
From S2P Require Import Prelude GoNet NodeId Relay UpfAddrs SmfAddr UpfTxns UpfTable Pfcp Consumers.
From S2P Require Import Goroutine World Udp Handler Forward.

#[local] Open Scope string_scope.
#[local] Open Scope list_scope.
#[local] Open Scope Z_scope.

Section Answers.
Context `{L : PfcpLib, !MapRange string, !MapRange Z}.

(** The state after the channel registered under a number has been sent something. *)
Definition delivered (seq : Z) (ch : nat) (rsp : PfcpHttpRsp) (w : World L) : World L :=
  let w := set_txns (delete seq (txns w)) w in set_chans (<[ch := rsp]> (chans w)) w.

Lemma eval_getTxn {B} seq (k : option nat -> prog (World L) B) w :
  eval [] (bind (getUpfPfcpTxn seq) k) w =
    match txnAt seq (txns w) with
    | Some ch => eval [] (k (Some ch)) (set_txns (delete seq (txns w)) w)
    | None => eval [] (k None) (set_txns (txns w) w)
    end.
Proof.
  unfold getUpfPfcpTxn. rewrite eval_bind, eval_atomic. unfold on_txns, GetUpfPfcpTxn.
  by destruct (txnAt seq (txns w)).
Qed.

Lemma set_txns_id (w : World L) : set_txns (txns w) w = w.
Proof. by destruct w. Qed.

(** An answer from a user plane reaches the request that waits for it: the encoded message goes
    into the channel registered under its number, and the registration goes, so a second copy
    finds nothing; without a registration, or when the message cannot be encoded, nothing
    changes. With the channel empty, as a channel just registered is, sending does not block. *)
Theorem encodeAndSendRsp_spec msg (w : World L) :
  (forall ch, txnAt (Sequence msg) (txns w) = Some ch -> chans w !! ch = None) ->
  eval [] (encodeAndSendRsp msg) w =
    match Marshal msg, txnAt (Sequence msg) (txns w) with
    | Ok buf, Some ch =>
        Some (Val (true, delivered (Sequence msg) ch (mkHttpRsp (Some buf) None) w))
    | _, _ => Some (Val (false, w))
    end.
Proof.
  intros Hch. unfold encodeAndSendRsp. destruct (Marshal msg) as [buf|e]; [|done].
  rewrite eval_getTxn. destruct (txnAt (Sequence msg) (txns w)) as [ch|].
  - specialize (Hch ch eq_refl). unfold sendChan, wait. rewrite eval_bind. simpl. by rewrite Hch.
  - by rewrite set_txns_id.
Qed.

(** A failure to send reaches the request that waits for it, for the five kinds of request the
    adapter forwards, and once: the error goes into the registered channel and the registration
    goes. For any other message, or with nobody registered, nothing changes. *)
Theorem HandlePfcpSendError_spec msg err (w : World L) :
  (forall ch, txnAt (Sequence msg) (txns w) = Some ch -> chans w !! ch = None) ->
  let forwarded := MessageType msg = AssociationSetupRequest \/ MessageType msg = HeartbeatRequest \/
    MessageType msg = SessionEstablishmentRequest \/ MessageType msg = SessionModificationRequest \/
    MessageType msg = SessionDeletionRequest in
  eval [] (HandlePfcpSendError msg err) w =
    match txnAt (Sequence msg) (txns w) with
    | Some ch => if decide forwarded
                 then Some (Val ((), delivered (Sequence msg) ch (mkHttpRsp None (Some err)) w))
                 else Some (Val ((), w))
    | None => Some (Val ((), w))
    end.
Proof.
  intros Hch forwarded.
  assert (Hs : eval [] (sendErrRsp msg err) w =
    match txnAt (Sequence msg) (txns w) with
    | Some ch => Some (Val ((), delivered (Sequence msg) ch (mkHttpRsp None (Some err)) w))
    | None => Some (Val ((), w))
    end).
  { unfold sendErrRsp. rewrite eval_getTxn. destruct (txnAt (Sequence msg) (txns w)) as [ch|].
    - specialize (Hch ch eq_refl). unfold sendChan, wait. simpl. by rewrite Hch.
    - by rewrite set_txns_id. }
  unfold HandlePfcpSendError. destruct (decide forwarded) as [Hf|Hf]; unfold forwarded in Hf.
  - destruct Hf as [Ht|[Ht|[Ht|[Ht|Ht]]]]; rewrite Ht, Hs; by destruct (txnAt _ _).
  - destruct (MessageType msg); try tauto; by destruct (txnAt _ _).
Qed.

(** ** The end of a transaction that nobody is told of *)

(** Whatever happens, the registrations and the channels are left alone. *)
Definition untold {A} (p : prog (World L) A) : Prop :=
  forall w, wp (fun _ _ => True) (fun a b => txns b = txns a /\ chans b = chans a) (fun _ => True)
              p (fun _ _ => True) w.

Lemma untold_bind {A B} (p : prog (World L) A) (k : A -> prog (World L) B) :
  untold p -> (forall a, untold (k a)) -> untold (bind p k).
Proof. intros Hp Hk w. apply wp_bind. eapply wp_mono; [|apply Hp]. intros a w' _. apply Hk. Qed.

Lemma untold_read {A} (op : World L -> A) : untold (read op).
Proof. intros w. by apply wp_read. Qed.

Lemma untold_write b addr : untold (writeToUDP b addr).
Proof.
  intros w. apply wp_select. intros w1 i ready e w2 _ Hi He.
  destruct i as [|[|i]]; by simplify_list_eq.
Qed.

Lemma untold_wait ptr timer : untold (waitEvent ptr timer).
Proof.
  intros w. apply wp_select. intros w1 i ready e w2 _ Hi He.
  destruct i as [|[|i]]; simplify_list_eq.
  - by destruct (takeEvent ptr (udp w1)) as [[]|]; simplify_eq.
  - by destruct (timer <=? clock w1); simplify_eq.
Qed.

Lemma untold_Start ptr tx : untold (Start ptr tx).
Proof.
  assert (Hq : forall n, untold (startRequest n ptr tx)).
  { induction n as [|n IH]; cbn [startRequest]; [done|].
    apply untold_bind; [apply untold_read|intros t]. apply untold_bind; [apply untold_write|].
    intros [e|]; [done|]. apply untold_bind; [apply untold_wait|]. by intros [[]|]. }
  assert (Hr : forall n timer, untold (startResponse n timer ptr tx)).
  { induction n as [|n IH]; intros timer; cbn [startResponse]; [done|].
    apply untold_bind; [apply untold_write|]. intros [e|]; [done|].
    apply untold_bind; [apply untold_wait|]. intros [[]|]; [|done..].
    by apply untold_bind; [apply untold_read|]. }
  unfold Start. destruct (TxType tx); [apply Hq|]. by apply untold_bind; [apply untold_read|].
Qed.

Lemma untold_remove ptr tx : untold (removeTransaction ptr tx).
Proof.
  unfold removeTransaction. apply untold_bind; [apply untold_read|]. intros [srv|]; [|done].
  apply untold_bind; [apply untold_read|]. intros t. apply untold_bind; [|by intros []].
  intros w. apply wp_atomic. intros w1 _. unfold on_udp. by destruct (TxTable.DeleteIf _ _ _ _).
Qed.

(** A heartbeat that fails is reported to nobody. It is sent without anyone to tell, and the
    end of such a transaction, however it ends and whatever happens meanwhile, leaves every
    registration and every channel as it is: the request that forwarded it waits on. *)
Theorem heartbeat_failure_untold ptr (tx : Transaction ErrHandlerFn) n pMsg (w : World L) :
  SendHeartbeatRequest n pMsg = sendTo n pMsg None /\
  (EventData tx = None ->
   wp (fun _ _ => True) (fun a b => txns b = txns a /\ chans b = chans a) (fun _ => True)
      (startTxLifeCycle ptr tx) (fun _ _ => True) w).
Proof.
  split; [done|]. intros Hev. revert w. apply untold_bind; [apply untold_Start|]. intros e.
  apply untold_bind; [apply untold_remove|]. intros _. rewrite Hev. by destruct e.
Qed.

(** ** The answer to an association request *)

(** [encodeAndSendRsp], whose result is only logged. *)
Definition thenSend (msg : Message) (w : World L) : option (outcome (unit * World L)) :=
  match eval [] (encodeAndSendRsp msg) w with
  | Some (Val (_, w')) => Some (Val ((), w'))
  | Some Panic => Some Panic
  | None => None
  end.

(** The node is marked and has the answer, and its lock is free. *)
Definition storeRsp (msg : Message) (k : string) (w : World L) : World L :=
  set_upfs (alter (fun u => setUpfLock unlocked (setLastAssoRsp msg (setState AssociatedSetUpSuccess u)))
                  k (upfs w)) w.

(** Storing after marking, when nobody else runs. *)
Lemma eval_preserve msg k (w : World L) {B} (rest : prog (World L) B) :
  is_Some (upfs w !! k) ->
  eval [] (bind (preservePfcpAssociationRsp (Some k) msg) (fun _ => rest))
    (set_upfs (alter (setState AssociatedSetUpSuccess) k (upfs w)) w) =
    if decide (leftRead k (upfs w)) then None else eval [] rest (storeRsp msg k w).
Proof.
  intros [u Hu]. rewrite eval_bind. unfold preservePfcpAssociationRsp. rewrite eval_bind.
  unfold attempt at 1. cbn [eval tail]. unfold PreservePfcpAssociationRsp, underLock.
  cbn [upfs set_upfs announceAt]. rewrite lookup_alter_eq, Hu. cbn [fmap option_fmap option_map].
  unfold WLock. cbn [setState UpfLock]. destruct (decide (readers (UpfLock u) = 0%nat)) as [Hr|Hr].
  - rewrite decide_False by (intros (u' & Hu' & Hn); congruence).
    cbn [eval]. f_equal. unfold storeRsp.
    match goal with |- set_upfs ?t _ = set_upfs ?t' _ => assert (Ht : t = t'); [|by rewrite Ht] end.
    apply map_eq. intros k'.
    rewrite lookup_insert, !lookup_alter. case_decide; [subst k'|done]. rewrite Hu. cbn.
    unfold WUnlock, setUpfLock, setLastAssoRsp, setState, unlocked. cbn. by rewrite Hr.
  - rewrite (decide_True (P := leftRead k (upfs w))) by by exists u.
    cbn [eval]. rewrite eval_bind. unfold wait, select. cbn [eval tail lookup list_lookup upfs set_upfs].
    rewrite lookup_alter_eq, lookup_alter_eq, Hu. cbn [fmap option_fmap option_map].
    cbn [setUpfLock setState UpfLock announce readers]. by rewrite decide_False.
Qed.

(** C37. What an association response does, once its fields can be read. One that is not accepted
    goes to the request that waits for it and changes no user plane. An accepted one marks the
    user plane it names associated, stores the answer there, and goes to the request that waits
    for it; unless the lock of that user plane has been left read-locked, where it waits instead, and
    the answer is neither stored nor passed on. An accepted one naming a user plane that cannot be found -- by an IPv6 address, or by
    a name for one inserted under an address -- ends the process. *)
Theorem association_response_spec msg (w : World L) c name :
  isA AssociationSetupResponse msg = true ->
  (exists t, RecoveryTimeStamp (field FRecoveryTimeStamp msg) = Val (Ok t)) ->
  Cause (field FCause msg) = Val (Ok c) ->
  NodeIDOf (field FNodeID msg) = Val (Ok name) ->
  eval [] (HandlePfcpAssociationSetupResponse msg) w =
    if decide (c = CauseRequestAccepted) then
      match GetUpfFromNodeId (NewNodeID name) (upfs w) with
      | None => Some Panic
      | Some k =>
          if decide (leftRead k (upfs w)) then None else thenSend msg (storeRsp msg k w)
      end
    else thenSend msg w.
Proof.
  intros Hty [t Ht] Hc Hn. unfold HandlePfcpAssociationSetupResponse.
  rewrite Hty. cbn [negb]. rewrite Ht. cbn [lift bind]. rewrite Hc. cbn [lift bind].
  destruct (decide (c = CauseRequestAccepted)) as [Hd|Hd].
  2:{ rewrite eval_bind. unfold thenSend. by destruct (eval [] (encodeAndSendRsp msg) w) as [[[]|]|]. }
  rewrite Hn. cbn [lift bind].
  pose proof (GetUpfFromNodeId_spec (NewNodeID name) (upfs w)) as Hs.
  unfold activateUpfNode. rewrite eval_bind, eval_read.
  destruct (GetUpfFromNodeId (NewNodeID name) (upfs w)) as [k|]; [|cbn [eval]; by rewrite eval_bind].
  destruct Hs as (u & Hu & _). rewrite eval_modify. cbn [eval].
  rewrite eval_preserve by by eexists. case_decide; [done|]. rewrite eval_bind.
  unfold thenSend. by destruct (eval [] (encodeAndSendRsp msg) _) as [[[]|]|].
Qed.
End Answers.

(** ** Witnesses *)

Module AnswerDemo.
Definition here : UDPAddr := UDPAddr.mk (ParseIP.ParseIP "10.42.0.1") PFCP_PORT "".

(** Channel 4 waits for the answer to request 33. *)
Definition waiting : World DemoLib :=
  set_txns {[33 := Some 4%nat]} (initWorld 1000 (fun _ => None) (mkServer here (Some (mkConn here)))).

Definition answer : @Message DemoLib :=
  Demo.mk 6 33 0 (fun f => if decide (f = FCause \/ f = FRecoveryTimeStamp) then Some (1, "")
                           else if decide (f = FNodeID) then Some (0, "2001:db8::1") else None).
Definition request : @Message DemoLib := Demo.mk 52 33 0 Demo.noFields.

Definition heartbeat : Transaction ErrHandlerFn :=
  @NewTransaction _ DemoLib (Demo.mk 1 33 0 Demo.noFields) [] (mkConn here) here None.

Lemma waiting_empty : forall ch, txnAt 33 (txns waiting) = Some ch -> chans waiting !! ch = None.
Proof. intros ch _. apply lookup_empty. Qed.
End AnswerDemo.
Import AnswerDemo.

Lemma encodeAndSendRsp_spec_witness :
  eval [] (encodeAndSendRsp answer) waiting =
    Some (Val (true, delivered 33 4 (mkHttpRsp (Some (Demo.encode answer)) None) waiting)).
Proof. rewrite (encodeAndSendRsp_spec answer waiting waiting_empty). reflexivity. Defined.

Lemma HandlePfcpSendError_spec_witness :
  eval [] (HandlePfcpSendError request errWrite) waiting =
    Some (Val ((), delivered 33 4 (mkHttpRsp None (Some errWrite)) waiting)).
Proof. rewrite (HandlePfcpSendError_spec request errWrite waiting waiting_empty). reflexivity. Defined.

Lemma heartbeat_failure_untold_witness :
  wp (fun _ _ => True) (fun a b => txns b = txns a /\ chans b = chans a) (fun _ => True)
     (startTxLifeCycle 0 heartbeat) (fun _ _ => True) waiting.
Proof.
  apply (heartbeat_failure_untold 0 heartbeat (NewNodeID "upf.core") request waiting). reflexivity.
Defined.

Lemma association_response_spec_witness :
  eval [] (HandlePfcpAssociationSetupResponse answer) waiting = Some Panic.
Proof.
  rewrite (association_response_spec answer waiting CauseRequestAccepted "2001:db8::1");
    [reflexivity|reflexivity|by eexists|reflexivity|reflexivity].
Defined.
