(* ===== verification/AuthorisedProps.v ===== *)
(** * AuthorisedProps: for whom a report is relayed, in every schedule

    What [Authorised.v] comes to: the reports being relayed are of user planes in the table of
    addresses, as long as the count of an address's releases is not dropped while a report from it
    is being handled; a schedule in which it is; that the lock of that table is given back; and what
    recording a user plane comes to among others. *)

From Stdlib Require Import Strings.Byte Strings.String.
From S2P Require Import Prelude GoNet NodeId Relay RelayTraces RelayProps UpfAddrs SmfAddr UpfTxns.
From S2P Require Import UpfTable Pfcp Consumers Goroutine Fairness Ownership World Udp Handler Forward.
From S2P Require Import Process System SystemInv Ledger Custody Liveness Authorised SystemProps.
From S2P Require Import LivenessProps.
Import SystemDemo.

#[local] Open Scope string_scope.
#[local] Open Scope list_scope.
#[local] Open Scope Z_scope.

(** ** Recording among others *)

Section Recording.
Context `{L : PfcpLib, !MapRange string, !MapRange Z}.




End Recording.

(** ** Every schedule *)

Section Theorems.
Context `{L : PfcpLib, !MapRange string, !MapRange Z} (e : Environment).

(** C4. Reports are relayed only for the user planes the SMF addresses. From the call of [main], in
    every schedule of however many goroutines in which no release count is dropped while a report
    from that address is being handled (and none comes to 2^64 releases): whenever the table of
    addresses is not locked, every report being relayed was raised by an address in it. The
    releases that a message of the SMF calls for may fall between any two steps of a report's
    handler, and between one lock and the other. *)
Theorem relays_authorised gs s :
  careful e gs s -> upfAddrMutex s.2 = None ->
  forall k r, reportRelays (relays s.2) !! k = Some r ->
    is_Some (upfAddrs (upfAddrsOf s.2) !! hostOf (upfAddr r)).
Proof.
  intros Hc Hm k r Hk.
  destruct (traced_relayed _ _ (careful_traced e gs s Hc) (hostOf (upfAddr r))) as [|(l & Hl & _)].
  - by exists k, r.
  - done.
  - congruence.
Qed.

(** The lock of the table of addresses is given back: in every fair run there is, after every
    moment, one at which it is not held, unless the process ends. Nothing its holder does while it
    holds it -- dropping relays under one lock and transactions under another -- waits for
    anybody. *)
Theorem address_lock_given_back st lb n :
  fair_process e st lb ->
  exists m, (n <= m)%nat /\ (upfAddrMutex (st m).2 = None \/ ~ alive over (st m)).
Proof. intros Hf. by apply (lock_free e st lb Hf). Qed.
End Theorems.

(** ** Schedules *)

(** A run in which no release has been counted is a careful one. *)
Section CarefulMoves.
Context `{L : PfcpLib, !MapRange string, !MapRange Z} (e : Environment).

Definition noCounts (s : system (L := L)) : bool := bool_decide (relayGenerations (relays s.2) = ∅).

Fixpoint allMoves (P : system (L := L) -> bool) (ms : list move) (s : system) : bool :=
  P s && match ms with
         | [] => true
         | m :: ms => match doMove e m s with Some s' => allMoves P ms s' | None => true end
         end.

Lemma careful_moves gs ms s s' :
  careful e gs s -> doMoves e ms s = Some s' -> allMoves noCounts ms s = true ->
  exists gs', careful e gs' s'.
Proof.
  revert gs s. induction ms as [|m ms IH]; intros gs s Hc; cbn [doMoves allMoves].
  { intros [= <-] _. by exists gs. }
  destruct (doMove e m s) as [s1|] eqn:Hm; [|done]. intros Hms [Hno Hall]%andb_prop.
  apply bool_decide_eq_true in Hno. destruct (doMove_step e m s s1 Hm) as [Ha Hs].
  eapply IH; [|exact Hms|exact Hall]. eapply careful_step; [done..| |]; intros h.
  - unfold RelayGeneration. by rewrite Hno, lookup_empty.
  - left. intros [g Hg]. by rewrite Hno, lookup_empty in Hg.
Qed.
End CarefulMoves.

Module AuthorisedDemo.
(** The name of a user plane, and what it resolves to now. *)
Definition resolvesTo (a : string) : list move :=
  [Answers (fun h => if bool_decide (h = "upf.example") then Some [a] else None); TickerTick].

(** The SMF names it. *)
Definition names (n : Z) : list move :=
  [Request "10.42.0.9:40312" (mkPodMsg "10.42.0.9" (packet HeartbeatRequest n) (NewNodeID "upf.example"));
   Fork].

(** Its name resolves to 10.42.0.7 as the SMF names it (5), then to another address (the loop that
    refreshes names is 1, 6 and 8; the SMF's message 7), which releases 10.42.0.7, then to that one
    again (9). Two minutes later it raises a report: its handler (10) reads the release count, finds
    the address known, and stops short of the claim. Another report is claimed meanwhile (12): it is
    the first claim in a while, so it sweeps, and drops the count, which is old. The name resolves
    elsewhere once more, and the SMF's next message (15) releases the address: the count is again
    what 10 has read. Now 10 claims. *)
Definition staleCount : list move :=
  boot ++ resolvesTo "10.42.0.7" ++ names 1 ++ steps 5 5 ++
  resolvesTo "10.42.0.8" ++ steps 1 3 ++ names 2 ++ steps 7 7 ++
  resolvesTo "10.42.0.7" ++ steps 6 3 ++ names 3 ++ steps 9 7 ++
  [Tick (1000 + 2 * Minute); Datagram (packet SessionReportRequest 7) upf] ++ steps 4 6 ++ [Fork] ++
  steps 10 4 ++
  [Datagram (packet SessionReportRequest 8) upf] ++ steps 11 6 ++ [Fork] ++ steps 12 5 ++
  resolvesTo "10.42.0.8" ++ steps 8 3 ++ names 4 ++ steps 15 7 ++
  steps 10 1.
End AuthorisedDemo.
Import AuthorisedDemo.

(** C20. A claim can be granted for an address that has been released since the handler asked for it.
    The sweep drops a release count that is old, on the grounds that whoever read it has long
    claimed; but a count is as old as the last release, not as the last look at it. A handler that
    has just read it, a sweep, and a release that counts from the start again: the claim quotes
    the count there is. The schedule takes no time between the handler's look and its claim, and
    ends with a report being relayed of an address that the unlocked table does not have. *)
Theorem stale_count_accepted :
  exists s, doMoves env staleCount start = Some s /\ rtc (system_move env) start s /\
    upfAddrMutex s.2 = None /\
    (exists k r, reportRelays (relays s.2) !! k = Some r /\ upfAddr r = upf) /\
    upfAddrs (upfAddrsOf s.2) !! hostOf upf = None.
Proof.
  destruct (schedule_reaches staleCount (fun s =>
    bool_decide (upfAddrMutex s.2 = None) &&
    (bool_decide (upfAddr <$> reportRelays (relays s.2) !! (relaySequenceFloor + 1) = Some upf) &&
     bool_decide (upfAddrs (upfAddrsOf s.2) !! hostOf upf = None))))
    as (s & Hs & Hr & HP); [vm_compute; reflexivity|].
  apply andb_prop in HP as [H1 HP]. apply andb_prop in HP as [H2 H3].
  apply bool_decide_eq_true in H1, H2, H3. exists s. split_and!; [done..| |done].
  destruct (reportRelays (relays s.2) !! (relaySequenceFloor + 1)) as [r|] eqn:Hk; [|done].
  exists (relaySequenceFloor + 1), r. split; [done|]. by injection H2.
Qed.

(** ** Witnesses *)

Lemma relays_authorised_witness :
  exists s, doMoves env relayedOnce start = Some s /\
    is_Some (reportRelays (relays s.2) !! relaySequenceFloor) /\
    is_Some (upfAddrs (upfAddrsOf s.2) !! hostOf upf).
Proof.
  destruct (schedule_reaches relayedOnce (fun s =>
    allMoves env noCounts relayedOnce start && (bool_decide (upfAddrMutex s.2 = None) &&
    bool_decide (upfAddr <$> reportRelays (relays s.2) !! relaySequenceFloor = Some upf))))
    as (s & Hs & _ & HP); [vm_compute; reflexivity|].
  apply andb_prop in HP as [H1 HP]. apply andb_prop in HP as [H2 H3].
  apply bool_decide_eq_true in H2, H3.
  destruct (careful_moves env [None] relayedOnce start s (careful_init env 1000 (fun _ => None)) Hs H1)
    as [gs Hc].
  destruct (reportRelays (relays s.2) !! relaySequenceFloor) as [r|] eqn:Hk; [|discriminate].
  injection H3 as H3. exists s. split; [exact Hs|]. split; [rewrite Hk; by eexists|]. rewrite <- H3.
  exact (relays_authorised env gs s Hc H2 relaySequenceFloor r Hk).
Defined.


Lemma address_lock_given_back_witness :
  exists m, (23 <= m)%nat /\ (upfAddrMutex (stoppedRun m).2 = None \/ ~ alive over (stoppedRun m)).
Proof. exact (address_lock_given_back env stoppedRun stoppedLabels 23 stopped_fair). Defined.
