(* ===== verification/ServingProps.v ===== *)
(** * ServingProps: the requests of the SMF are answered in the end

    What [Answering.v] and [Serving.v] come to, and two schedules that show why the theorem has to
    leave out heartbeats, and responses that are matched to a request and not passed on. Why it has
    to leave out the locks of nodes is in [ForwardProps.v]. *)

From Stdlib Require Import Strings.Byte Strings.String.
From S2P Require Import Prelude GoNet NodeId Relay RelayTraces UpfAddrs SmfAddr UpfTxns UpfTable.
From S2P Require Import Pfcp Consumers Goroutine Fairness Ownership World Udp Handler Forward Process.
From S2P Require Import System SystemInv Ledger Custody Liveness Channels Stopping Quiet Answering.
From S2P Require Import Serving SystemProps.
Import SystemDemo.

#[local] Open Scope list_scope.
#[local] Open Scope Z_scope.

Section Theorems.
Context `{L : PfcpLib, !PfcpLaws L, !MapRange string, !MapRange Z} (e : Environment).
Context (st : nat -> system (L := L)) (lb : nat -> option label).

(** C3. Every request of the SMF is answered in the end. In every fair run, the goroutine of an HTTP
    request accepted that asks for an association or for a session to be forwarded is started and
    comes to its end: the lock it waits for comes free, and the answer it waits for is sent to it,
    by whoever dispatches the response or, on silence, by the goroutine of its transaction. So it is
    unless the process ends, or a response with its number is read that none of the handlers passes
    on, or a channel registered under its number is dropped from the table, after which nothing is
    sent into it: the repetition of the request does that. And where a panic has left the lock of a
    node read-locked, the goroutine that has an association response to store may be kept by it, and
    so may a request for an association that has been made before. *)
Theorem request_served n remoteAddr readFailed body msg :
  fair_process e st lb -> goHandler remoteAddr readFailed body ∈ spawned (st n).2 ->
  asked body = Some msg -> MessageType msg <> HeartbeatRequest -> 0 <= Sequence msg < 2 ^ 24 ->
  exists m, (n <= m)%nat /\
    (~ alive over (st m) \/
     (exists i k, (n <= k < m)%nat /\ (length (st k).1 <= i)%nat /\
        (st (S k)).1 !! i = Some (goCode e (goHandler remoteAddr readFailed body)) /\
        (st m).1 !! i = Some (Ret ())) \/
     (exists k rsp a, (n <= k <= m)%nat /\ goDispatch rsp a ∈ spawned (st k).2 /\
        IsResponse rsp = true /\ Sequence rsp = Sequence msg /\
        (conclusive rsp = false \/
         (MessageType rsp = AssociationSetupResponse /\ leftLocked (upfs (st m).2)))) \/
     (MessageType msg = AssociationSetupRequest /\ leftLocked (upfs (st m).2)) \/
     (exists ch, txns (st m).2 !! Sequence msg = Some (Some ch) /\
        forall k, (m < k)%nat ->
          chans (st k).2 !! ch = None /\ forall s, txns (st k).2 !! s <> Some (Some ch))).
Proof.
  intros Hf Hg Ha Ht Hb. destruct (spawned_starts e st lb Hf n _ Hg) as (k & Hk & [He|[Hl Hgk]]); [exists k; auto|].
  destruct (fork_stands env_step (startAll e) over clock st lb k
    (goCode e (goHandler remoteAddr readFailed body))) as (i & Hlen & Hi & _);
    [apply (fair_run _ _ _ _ _ _ (runs_fair _ _ _ Hf))|done|by apply list_elem_of_fmap_2|].
  destruct (proceeds_ends env_step (startAll e) over clock st lb i
    (stop st n (Sequence msg) (MessageType msg = AssociationSetupRequest)) (runs_fair _ _ _ Hf) _ (fun _ _ => True) (S k) Hi)
    as (m & Hm & [(j & Hj & Hp)|[He|Hr]]).
  - by apply (proceeds_serveRequest e st lb Hf i n (Sequence msg) _ _ _ _ msg); [lia|..].
  - exists j. split; [lia|].
    destruct Hp as [[(k' & rsp & a & Hk' & Hd & [Hr Hs] & Hc)|(ch & Hch & Hl')]|[Hasso Hlk]].
    + right. right. left. by exists k', rsp, a.
    + right. right. right. right. exists ch. split; [done|]. intros m' Hm'.
      by destruct (forsaken_stays e st lb Hf ch (S j) m' Hm' Hl') as (_ & ? & ?).
    + right. right. right. by left.
  - exists m. split; [lia|by left].
  - exists m. split; [lia|]. right. left. exists i, k. split_and!; [lia|lia|done|done|done].
Qed.
End Theorems.

(** ** Schedules *)

Module ServingDemo.
(** The SMF asks for a session to be deleted: 5 is the handler, and 6 sends the request. *)
Definition asks : list move :=
  boot ++ [Request "10.42.0.9:40312" deletion; Fork] ++ steps 5 12 ++ [Fork] ++ steps 6 3.

(** The user plane's answer is read, and dispatched by 7; the handler replies, and the transaction
    ends. Then a signal comes. *)
Definition served : list move :=
  asks ++ [Datagram (packet SessionDeletionResponse 5) upf] ++ steps 4 10 ++ [Fork] ++
  steps 7 2 ++ steps 5 2 ++ steps 6 4 ++
  [Signal; Run 0 1] ++ steps 0 2 ++ steps 2 2 ++ steps 8 3 ++ steps 2 2 ++ steps 0 3.

(** Another response that happens to carry the number comes first, from another address; it ends the
    transaction, and its handler (7) does not pass it on. The user plane's answer, read after it,
    finds no transaction. *)
Definition swallowed : list move :=
  asks ++ [Datagram (packet SessionReportResponse 5) smf] ++ steps 4 10 ++ [Fork] ++
  steps 7 1 ++ steps 6 4 ++ [Datagram (packet SessionDeletionResponse 5) upf] ++ steps 8 7 ++ [Fork].

(** A heartbeat is written three times, and its transaction times out. *)
Definition unreported : list move :=
  forwarded ++
  steps 6 3 ++ [Tick (4 * Second); Run 6 1] ++ steps 6 2 ++ [Tick (8 * Second); Run 6 1] ++
  steps 6 2 ++ [Tick (12 * Second); Run 6 1] ++ steps 6 3.

(** Goroutine 5, the handler of the request with number 5, waits for its channel 0, which is empty
    and registered; the number has no transaction; no datagram is to be read, no goroutine to be
    started; and of the others only those go on that run as long as the process does: [main], the
    loop that refreshes names, [udp.Run], the listener, and [reader]. *)
Record abandoned (reader : nat) (s : @system DemoLib) : Prop := {
  ab_registered : txns s.2 !! 5 = Some (Some 0%nat);
  ab_empty : chans s.2 = ∅;
  ab_waits : exists f k, s.1 !! 5%nat = Some (Act f k) /\ f 0%nat s.2 = None;
  ab_untracked c : slot c 5 (udp s.2) = None;
  ab_nothing : spawned s.2 = [] /\ inbox s.2 = [];
  ab_others j : (j ∉ [0; 1; 2; 3; 5; reader])%nat -> (j < length s.1)%nat -> s.1 !! j = Some (Ret ());
}.

Definition finishedAt (s : @system DemoLib) (j : nat) : bool :=
  match s.1 !! j with Some (Ret _) => true | _ => false end.

Definition isAbandoned (reader : nat) (s : @system DemoLib) : bool :=
  bool_decide (txns s.2 !! 5 = Some (Some 0%nat)) && (bool_decide (map_to_list (chans s.2) = []) &&
  (match s.1 !! 5%nat with
   | Some (Act f _) => match f 0%nat s.2 with None => true | _ => false end
   | _ => false
   end &&
   (bool_decide (map_Forall (fun c _ => slot c 5 (udp s.2) = None) (consumers (udp s.2))) &&
    (match spawned s.2, inbox s.2 with [], [] => true | _, _ => false end &&
     bool_decide (Forall (fun j => (j ∈ [0; 1; 2; 3; 5; reader])%nat \/ finishedAt s j = true)
                         (seq 0 (length s.1))))))).

Lemma isAbandoned_abandoned reader s : isAbandoned reader s = true -> abandoned reader s.
Proof.
  unfold isAbandoned. intros [H1 [H2 [H3 [H4 [H5 H6]%andb_prop]%andb_prop]%andb_prop]%andb_prop]%andb_prop.
  apply bool_decide_eq_true in H1, H2, H4, H6. apply map_to_list_empty_iff in H2. split; [done|done| | | |].
  - destruct (s.1 !! 5%nat) as [[| |f k]|]; try done. exists f, k. split; [done|]. by destruct (f 0%nat s.2).
  - intros c. destruct (consumers (udp s.2) !! c) as [t|] eqn:Hc; [by apply (H4 c t)|].
    unfold slot. by rewrite Hc.
  - by destruct (spawned s.2), (inbox s.2).
  - intros j Hj Hlt. destruct (proj1 (Forall_forall _ _) H6 j) as [|Hf]; [apply elem_of_seq; lia|done|].
    unfold finishedAt in Hf. by destruct (s.1 !! j) as [[[]| |]|].
Qed.
End ServingDemo.
Import ServingDemo.

(** C21. A request can be left without an answer, and with nobody left to give one, in two ways.
    A heartbeat whose transaction times out: it is sent with no one to tell of a failure. And any
    request, by a response to something else: a response is matched by its number alone, wherever it
    comes from and whatever it is; matched, it ends the request's transaction, although nothing hands
    it to the one who waits. In the second schedule the user plane's own answer, which is read
    after that, is read in vain. *)
Theorem requests_abandoned :
  (exists s, doMoves env unreported start = Some s /\ rtc (system_move env) start s /\ abandoned 4 s) /\
  (exists s, doMoves env swallowed start = Some s /\ rtc (system_move env) start s /\ abandoned 9 s).
Proof.
  split.
  - destruct (schedule_reaches unreported (isAbandoned 4)) as (s & Hs & Hr & HP); [vm_compute; reflexivity|].
    exists s. split; [exact Hs|]. split; [exact Hr|]. exact (isAbandoned_abandoned 4 s HP).
  - destruct (schedule_reaches swallowed (isAbandoned 9)) as (s & Hs & Hr & HP); [vm_compute; reflexivity|].
    exists s. split; [exact Hs|]. split; [exact Hr|]. exact (isAbandoned_abandoned 9 s HP).
Qed.

(** ** Witness *)

(** The schedule [served], after which nothing happens. *)
Definition servedRun : nat -> @system DemoLib := stateAt start (trace env served start).
Definition servedLabels : nat -> option label := labelAt (trace env served start).

Lemma served_fair : fair_process env servedRun servedLabels.
Proof.
  split.
  - exists 1000, (fun _ => None). unfold servedRun. by destruct (trace env served start).
  - destruct (schedule_reaches served (fun s => exited (proc s.2))) as (s & Hs & _ & Hx);
      [vm_compute; reflexivity|].
    apply finished_fair; [apply _|]. exact (trace_finished env served start s Hs Hx).
Qed.

Lemma request_served_witness :
  exists m, (10 <= m)%nat /\
    (~ alive over (servedRun m) \/
     (exists i k, (10 <= k < m)%nat /\ (length (servedRun k).1 <= i)%nat /\
        (servedRun (S k)).1 !! i =
          Some (goCode env (goHandler "10.42.0.9:40312"%string false (Some deletion))) /\
        (servedRun m).1 !! i = Some (Ret ())) \/
     (exists k (rsp : @Message DemoLib) a, (10 <= k <= m)%nat /\ goDispatch rsp a ∈ spawned (servedRun k).2 /\
        IsResponse rsp = true /\ Sequence rsp = 5 /\
        (conclusive rsp = false \/
         (MessageType rsp = AssociationSetupResponse /\ leftLocked (upfs (servedRun m).2)))) \/
     (MessageType (Demo.mk 54 5 0 Demo.noFields : @Message DemoLib) = AssociationSetupRequest /\
        leftLocked (upfs (servedRun m).2)) \/
     (exists ch, txns (servedRun m).2 !! 5 = Some (Some ch) /\
        forall k, (m < k)%nat ->
          chans (servedRun k).2 !! ch = None /\ forall s, txns (servedRun k).2 !! s <> Some (Some ch))).
Proof.
  assert (H : spawned (servedRun 10).2 =
    [goHandler "10.42.0.9:40312"%string false (Some deletion)]) by (vm_compute; reflexivity).
  refine (@request_served DemoLib _ _ _ env servedRun servedLabels 10 "10.42.0.9:40312"%string false (Some deletion)
    (Demo.mk 54 5 0 Demo.noFields) served_fair _ _ _ _).
  - rewrite H. apply list_elem_of_singleton. reflexivity.
  - vm_compute. reflexivity.
  - vm_compute. discriminate.
  - vm_compute. split; [discriminate|reflexivity].
Defined.
